(* ===== verification/_CoqProject ===== *)
-Q . S2P
Prelude.v
Loops.v
Marshall.v
MarshallMap.v
Protocols.v
Rpc.v
RpcWait.v
IoStream.v
Threads.v
Connection.v
ConnSafety.v
ConnProgress.v
ConnRefs.v
PollMgr.v
RpcJobs.v
Handle.v
PaxosAcceptor.v
Paxos.v
PaxosSafety.v
PaxosRuns.v
Config.v
Locks.v
LockState.v
LockCache.v
Rsm.v
RsmSafety.v
RsmService.v
RsmRecovery.v
RsmSync.v
Extent.v
Yfs.v
Fuse.v
BPlusTree.v
DbFile.v
DiscList.v
Arena.v
Db.v
DbSafety.v
DbRefines.v
DbStore.v
DbServer.v
DbProtocol.v
DbConnection.v
Sorting.v
HeapSort.v
CountSort.v
Huffman.v
HuffmanTree.v
HuffmanBits.v
HuffmanCode.v
HuffmanOptimal.v
ShortestPath.v
Kmp.v
Bst.v
SegmentTree.v
Lru.v
