(* ===== verification/Prelude.v ===== *)
(** * A verification development for the code_excercise repository (C++)

    ** The program

    The repository holds a distributed system, a key-value store and a number of separate
    programs.

    - src/mit_6.824 is the distributed system, the labs of a course.  rpc/ is an RPC library:
      messages are marshalled (marshall.h), sent over connections that a poll thread serves
      (connection.cc, pollmgr.cc), and executed at most once by a server with a pool of
      threads (rpc.cc, thr_pool.cc, fifo.h).  On it stand lock servers and clients that cache
      locks, an extent server and its write-back client, and a file system (yfs_client.cc,
      fuse.cc) that keeps its directories and files in extents under locks.  The lock server
      is replicated: rsm.cc runs it in a primary and backups, config.cc keeps the view of who
      is a member, and paxos.cc with log.cc agrees on the views.
    - src/db is a key-value store in two files with a cache, a thread pool, and a server that
      speaks a small text protocol.
    - The others are single programs: a B+ tree, a Huffman coder, sorting programs, shortest
      paths, string matching, a list kept in a file, the allocator of a page, a search tree, a
      segment tree, an LRU cache, and readers and writers.

    ** How it is modelled

    A function of the code is a Rocq function.  [None] is a process that stops or a behaviour
    the language leaves undefined: a failed [VERIFY] or [assert], an access outside a buffer or
    through a null pointer, an [int] that overflows.  Unsigned arithmetic wraps ([wrap]),
    signed arithmetic is checked ([int32]).  What runs under one mutex is one definition;
    threads, processes and the network are step relations that interleave these definitions,
    with calls lost, delayed and repeated.  What is outside the source (the kernel, clocks,
    sockets, the network, boost's tokenizer, the FUSE library, the heap functions of the
    standard library) is an argument or a class with the laws that are documented for it.

    ** The files

    - Prelude, Loops, IoStream: results, machine integers, lists; loops and arrays; streams.
    - Marshall, MarshallMap, Protocols: rpc/marshall.h and the message types of the *_protocol.h
      files.  The class [WireSpec] of Marshall is the interface: an encoding that [operator<<]
      and [operator>>] implement.  Every message type is an instance.
    - Rpc: rpcc and rpcs of rpc/rpc.cc, with the windows of replies.  RpcWait: the loop of
      [rpcc::call1] with its deadlines.  RpcJobs: [ThrPool], [got_pdu] and the references that
      [dispatch] holds.  Connection, ConnSafety, ConnProgress, ConnRefs: rpc/connection.cc.
      PollMgr: rpc/pollmgr.cc, with [aio_mgr] as a class and its two implementations.  Handle:
      handle.cc.
    - Threads: Module [ReadersWriters] (reader_writer.cpp and [DList] of db/db.cpp), Module
      [Pool] (db/utils.cpp, huffman/utils.cpp), Module [Fifo] (rpc/fifo.h).
    - PaxosAcceptor: [acceptor] of paxos.cc and log.cc.  Paxos: [proposer], and a cluster of
      nodes.  PaxosSafety: its invariant.  PaxosRuns: concrete runs.  Config: config.cc.
    - Locks: lock_server_cache_rsm.cc, lock_client_cache_rsm.cc and lock_server.cc.  LockState:
      the state the lock server transfers.  LockCache: lock_server_cache.cc and
      lock_client_cache.cc.
    - Rsm: rsm.cc, over a service that the class [Replicated] describes.  RsmSafety: one view.
      RsmService: the lock server as an instance, and rsm_client.cc.  RsmRecovery: view changes
      and state transfer.  RsmSync: the recovery threads of a new view together, joining and
      the switches of the testing server.
    - Extent: extent_server.cc and extent_client.cc.  Yfs: yfs_client.cc over Extent.  Fuse:
      fuse.cc over Yfs.
    - DbFile: files and records.  Db: db/db.cpp.  DbSafety, DbRefines, DbStore: its invariant,
      each operation, and histories of calls.  DbServer: db/server.cpp over Db.  DbProtocol,
      DbConnection: its theorems.  DiscList: disc_list.cpp, on the files of DbFile.
    - BPlusTree: b+tree/b+tree.c.  Arena: diskbased_bplus_tree/arena.c.
    - Sorting, HeapSort, CountSort: sorting/.  Huffman: huffman/huffman.cpp, with HuffmanTree,
      HuffmanBits, HuffmanCode and HuffmanOptimal for its theorems.
    - ShortestPath, Kmp, Bst, SegmentTree, Lru: shortest_path/shortest_path.cpp,
      string_match/kmp_dfa.cpp, bst.cpp, segment_tree.cpp, lru.cpp.

    ** What is shown

    Where the code keeps its promise only under a condition that it does not enforce, the
    condition is a hypothesis that the comment of the theorem names, and a run, or a second
    part of the theorem, shows what happens without it.

    - Agreement: the nodes of a Paxos cluster agree on every view and never fail the VERIFY of a
      decision, as long as requests reach an acceptor that is in their instance and a node that
      joins again does not forget its promises.  For each of the two conditions a run is
      exhibited in which it fails and two nodes disagree.  The log restores an acceptor.
    - RPC: what is marshalled is unmarshalled; a request is executed at most once; a call over a
      network that loses nothing is a local call; the wait for a reply ends, unless the deadline
      is on a full second exactly, and then it does not; PDUs arrive whole and in order; senders
      are not forgotten; no connection is used after it was deleted, if the server is not
      switched off while it takes in a request; a callback that was removed is not called, if
      no wait returns without a signal.
    - Locks: each lock service is exclusive, the replicated one under any order of its messages
      and across changes of the primary, the first caching one as long as no thread takes the
      lock while it is being given back (a run in which one does is exhibited); no thread
      aborts; waiting clients are served as long as the primary stays, and need not be when it
      is replaced.
    - Replication: the replicas of a view stay in step and what was acknowledged is at every
      replica, if every backup can be bound and the invokes at a backup do not overlap (runs in
      which one of the two fails are exhibited); a view that the recovery threads have
      synchronised starts in such a state, if no backup was ahead of the primary and no wait
      returns without a signal (again, what happens otherwise is shown).
    - The file system: cache and server are a store of extents with pending changes, and a file
      that is created and written through the handlers of FUSE is there with its contents and
      attributes, whichever locks are revoked in between.
    - The store: histories of calls, with the store closed and opened again, answer as a map, for
      keys of 7-bit characters and as long as freed space is reused only for a new key with a
      value of exactly the same size; the server answers requests that keep to its protocol and
      to that contract as a map, in whatever pieces they arrive, with replies that differ from
      the documented ones in the length they announce and a null byte; a connection stays well
      formed whatever bytes come, as long as each command line has the words its command needs,
      at most three, and a length that is a number.
    - Data structures: the B+ tree of degree 2, as main uses it, is a map (with degree 3 a
      deletion can lose other keys, of which there is an example); the segment tree is a vector,
      the cache and the list on disc are lists; the allocator hands out pieces that do not meet
      and gets the whole page back.
    - Algorithms: the sorting programs sort, the Huffman coder decodes what it encoded and its
      code is optimal, the matches are found, and the questions of a session about shortest
      paths are answered, if [int] additions wrap.

    ** Fuel

    A loop or recursion that is not structural takes fuel, and [None] stands for running out of
    it.  The theorems are about total results: they name an amount that is enough, and it
    follows from a measure.  For the loops of the sorting programs and of KMP it is the length
    of the range that is left ([loop_ok] of Loops), for trees the height or the size, for the bucket
    lists of the store one more than the number of keys, for the list on disc the number of
    bytes of the file, for the allocator the size of a page, for a path two more than the number
    of cities, for a call of at most 1,000,000 seconds 22 turns (the waits double from one
    second up).  Threads and networks are step relations, without fuel.

    ** Not modelled

    - Tests, mains, scripts and clients on the terminal: lock_tester.cc, rsm_tester.cc,
      lock_smain.cc, extent_smain.cc, db/client.cpp, db/db_test.cpp and the like.  They call
      what is modelled.
    - Clocks, logging, thread creation and the calls of the operating system themselves
      (gettime.cc, rpc/jsl_log.cc, rpc/method_thread.h); db/anet.cpp is third-party code.
    - The set-up of the store's server: listening, accepting and the choice of a descriptor by
      epoll.  An event of the model carries what arrived.
    - What is printed for debugging, and memory that is not freed.
    - diskbased_bplus_tree/page.c and page_list.c: pages are read and written whole, and the
      tree they were meant for was not written.  btree/btree.c: a full node writes outside its
      array, so that its behaviour is undefined as soon as there is something to prove.
      sorting/external_sort.cpp: depends on the buffers of three streams on one file.
    - The exercises under cci/ and at the top of src/, and the programs in Go, Swift and PHP:
      separate from the systems above.  The labs under src/2013_mit_6.824 are skeletons. *)

From Stdlib Require Import ZArith Lia Ascii String.
From stdpp Require Import base list gmap strings fin_maps sets.

Local Open Scope Z_scope.

(** ** Results of a C++ computation

    [None] is a process that stops: a failed [VERIFY] or [assert], a call of
    [abort], or an operation the C++ standard leaves undefined.  [Some a] is a
    normal return.  stdpp's [mret]/[mbind] notations sequence such results. *)

Declare Scope cpp_scope.
Delimit Scope cpp_scope with cpp.

(** [VERIFY (b); k]: continue when [b] holds, stop otherwise. *)
Definition VERIFY {A : Type} (b : bool) (k : option A) : option A :=
  if b then k else None.

Notation "'VERIFY!' b ';;' k" := (VERIFY b k)
  (at level 100, b at level 99, k at level 200, right associativity,
   format "'VERIFY!'  b  ';;' '/' k") : cpp_scope.

(** ** Machine integers

    A machine integer is a [Z] in its range; arithmetic that wraps in C++
    (unsigned arithmetic) is written with [wrap], a conversion to a signed type
    with [to_signed]. *)

Definition wrap (w x : Z) : Z := x mod 2 ^ w.
Definition to_signed (w x : Z) : Z :=
  let y := wrap w x in if y <? 2 ^ (w - 1) then y else y - 2 ^ w.

Definition in_u32 (x : Z) : Prop := 0 <= x < 2 ^ 32.
Definition in_u64 (x : Z) : Prop := 0 <= x < 2 ^ 64.
Definition in_i32 (x : Z) : Prop := - 2 ^ 31 <= x < 2 ^ 31.

Definition INT_MAX : Z := 2 ^ 31 - 1.
Definition UINT_MAX : Z := 2 ^ 32 - 1.

(** Signed 32-bit arithmetic: overflow is undefined behaviour. *)
Definition int32 (x : Z) : option Z :=
  if (- 2 ^ 31 <=? x) && (x <? 2 ^ 31) then Some x else None.

Lemma wrap_small w x : 0 <= x < 2 ^ w -> wrap w x = x.
Proof. intros; unfold wrap; by apply Z.mod_small. Qed.

Lemma wrap_range w x : 0 <= w -> 0 <= wrap w x < 2 ^ w.
Proof. intros; unfold wrap; apply Z.mod_pos_bound; lia. Qed.

Lemma int32_ok x : in_i32 x -> int32 x = Some x.
Proof.
  unfold in_i32, int32; intros.
  destruct (Z.leb_spec (- 2 ^ 31) x), (Z.ltb_spec x (2 ^ 31)); simpl; try done; lia.
Qed.

Lemma int32_Some x y : int32 x = Some y -> y = x /\ in_i32 x.
Proof.
  unfold int32, in_i32.
  destruct (Z.leb_spec (- 2 ^ 31) x), (Z.ltb_spec x (2 ^ 31)); simpl; intros; simplify_eq; lia.
Qed.

Lemma to_signed_wrap x : in_i32 x -> to_signed 32 (wrap 32 x) = x.
Proof.
  unfold in_i32, to_signed, wrap; intros.
  rewrite Zmod_mod. destruct (Z.ltb_spec (x mod 2 ^ 32) (2 ^ (32 - 1)));
    Z.div_mod_to_equations; lia.
Qed.

(** ** Bytes

    A [char] is an [ascii]: eight bits.  [char_u] and [char_s] are its values
    as an [unsigned char] and as the (signed) plain [char] of the platform. *)

Definition char_u (c : ascii) : Z := Z.of_N (N_of_ascii c).
Definition char_s (c : ascii) : Z := to_signed 8 (char_u c).
Definition char_of (x : Z) : ascii := ascii_of_N (Z.to_N (wrap 8 x)).

Lemma char_u_range c : 0 <= char_u c < 256.
Proof. unfold char_u. pose proof (N_ascii_bounded c). lia. Qed.

Lemma char_u_of x : char_u (char_of x) = wrap 8 x.
Proof.
  unfold char_u, char_of. pose proof (wrap_range 8 x ltac:(lia)).
  change (2 ^ 8) with 256 in *.
  rewrite N_ascii_embedding by lia. lia.
Qed.

Lemma char_of_u c : char_of (char_u c) = c.
Proof.
  unfold char_of. rewrite wrap_small by (apply char_u_range).
  unfold char_u. rewrite N2Z.id. apply ascii_N_embedding.
Qed.

(** A byte read through a signed [char], widened to [unsigned int] and masked
    with [0xff] is the byte itself: the sign extension does not show. *)
Lemma char_s_masked c : Z.land (wrap 32 (char_s c)) 255 = char_u c.
Proof.
  change 255 with (Z.ones 8). rewrite Z.land_ones by lia.
  unfold char_s, to_signed, wrap. pose proof (char_u_range c).
  rewrite (Z.mod_small (char_u c)) by lia.
  destruct (Z.ltb_spec (char_u c) (2 ^ (8 - 1))); Z.div_mod_to_equations; lia.
Qed.

Lemma char_s_bool c : (wrap 32 (char_s c) =? 0) = (char_u c =? 0).
Proof.
  unfold char_s, to_signed, wrap. pose proof (char_u_range c).
  rewrite (Z.mod_small (char_u c)) by lia.
  destruct (Z.ltb_spec (char_u c) (2 ^ (8 - 1)));
    apply eq_true_iff_eq; rewrite !Z.eqb_eq; Z.div_mod_to_equations; lia.
Qed.

(** ** Strings as byte sequences *)

Definition bytes_of (s : string) : list ascii := list_ascii_of_string s.
Definition str_of (l : list ascii) : string := string_of_list_ascii l.
Definition str_size (s : string) : Z := Z.of_nat (String.length s).

Lemma str_of_bytes_of s : str_of (bytes_of s) = s.
Proof. apply string_of_list_ascii_of_string. Qed.

Lemma bytes_of_str_of l : bytes_of (str_of l) = l.
Proof. apply list_ascii_of_string_of_list_ascii. Qed.

Lemma length_bytes_of s : Z.of_nat (length (bytes_of s)) = str_size s.
Proof. unfold str_size, bytes_of. induction s; simpl; lia. Qed.

(** ** Automation *)

Create HintDb cpp.
Create Rewrite HintDb cpp.
#[export] Hint Resolve wrap_range char_u_range int32_ok : cpp.
#[export] Hint Rewrite char_u_of char_of_u char_s_masked str_of_bytes_of bytes_of_str_of
  length_bytes_of : cpp.

(** Case analysis on the boolean comparisons of the code. *)
Ltac case_bool :=
  match goal with
  | |- context [?x <? ?y] => destruct (Z.ltb_spec x y)
  | |- context [?x <=? ?y] => destruct (Z.leb_spec x y)
  | |- context [?x =? ?y] => destruct (Z.eqb_spec x y)
  | H : context [?x <? ?y] |- _ => destruct (Z.ltb_spec x y)
  | H : context [?x <=? ?y] |- _ => destruct (Z.leb_spec x y)
  | H : context [?x =? ?y] |- _ => destruct (Z.eqb_spec x y)
  end.

(** Split a result of the option monad that is known to be [Some]. *)
Ltac inv_some :=
  repeat match goal with
  | H : VERIFY ?b _ = Some _ |- _ => unfold VERIFY in H; destruct b eqn:?; [|discriminate H]
  | H : Some _ = Some _ |- _ => injection H as H; subst
  | H : None = Some _ |- _ => discriminate H
  end.

(** ** The order of std::string *)

(** [a < b]: lexicographic on unsigned characters, as [char_traits<char>]. *)
Fixpoint str_lt (a b : string) : bool :=
  match a, b with
  | _, EmptyString => false
  | EmptyString, String _ _ => true
  | String x a', String y b' =>
      if char_u x <? char_u y then true
      else if char_u y <? char_u x then false else str_lt a' b'
  end.

Lemma str_lt_irrefl a : str_lt a a = false.
Proof. induction a as [|x a IH]; simpl; [done|]. by rewrite Z.ltb_irrefl. Qed.

Lemma str_lt_trans a : forall b c, str_lt a b = true -> str_lt b c = true -> str_lt a c = true.
Proof.
  induction a as [|x a IH]; intros [|y b] [|z c]; simpl; try done.
  destruct (Z.ltb_spec (char_u x) (char_u y)), (Z.ltb_spec (char_u y) (char_u z)),
    (Z.ltb_spec (char_u y) (char_u x)), (Z.ltb_spec (char_u z) (char_u y)),
    (Z.ltb_spec (char_u x) (char_u z)), (Z.ltb_spec (char_u z) (char_u x)); try lia; try done.
  apply IH.
Qed.

Lemma char_u_inj x y : char_u x = char_u y -> x = y.
Proof. intros H. by rewrite <-(char_of_u x), <-(char_of_u y), H. Qed.

Lemma str_lt_total a : forall b, str_lt a b = false -> str_lt b a = false -> a = b.
Proof.
  induction a as [|x a IH]; intros [|y b]; simpl; try done.
  destruct (Z.ltb_spec (char_u x) (char_u y)), (Z.ltb_spec (char_u y) (char_u x)); try done; try lia.
  intros ? ?. f_equal; [apply char_u_inj; lia|auto].
Qed.
