(* ===== verification/Loops.v ===== *)
(** * Loops and arrays

    The [while] loops of the code as iterations of a body, with the rule that proves
    one terminates and establishes its result, and C arrays with [int] indices: a
    read or a write out of bounds is [None]. *)

From Stdlib Require Import ZArith Lia Sorting.
From stdpp Require Import base list sorting.
From S2P Require Import Prelude.

Local Open Scope Z_scope.

(** ** Loops *)

Section Loop.
Context {A : Type}.
Implicit Types (s : A) (body : A -> option (A + A)).

(** [body] gives [inl] to go on and [inr] to leave the loop. *)
Fixpoint loop (fuel : nat) body s : option A :=
  match fuel with
  | O => None
  | S fuel => r ← body s; match r with inl s => loop fuel body s | inr s => Some s end
  end.

Lemma loop_ok (I Q : A -> Prop) (mu : A -> nat) body :
  (forall s, I s -> exists r, body s = Some r /\
     match r with inl s' => I s' /\ (mu s' < mu s)%nat | inr s' => Q s' end) ->
  forall fuel s, I s -> (mu s < fuel)%nat -> exists s', loop fuel body s = Some s' /\ Q s'.
Proof.
  intros Hbody. induction fuel as [|fuel IH]; intros s Hs Hmu; [lia|]. cbn [loop].
  destruct (Hbody s Hs) as (r & -> & Hr). cbn [mbind option_bind]. destruct r as [s'|s'].
  - destruct Hr. apply IH; [done|lia].
  - by exists s'.
Qed.

(** A property that every round keeps holds when the loop is left. *)
Lemma loop_inv (I Q : A -> Prop) body :
  (forall s r, I s -> body s = Some r -> match r with inl s' => I s' | inr s' => Q s' end) ->
  forall fuel s s', I s -> loop fuel body s = Some s' -> Q s'.
Proof.
  intros Hbody. induction fuel as [|fuel IH]; intros s s' Hs H; [done|]. cbn [loop] in H.
  destruct (body s) as [r|] eqn:E; [|done]. cbn [mbind option_bind] in H. specialize (Hbody _ _ Hs E).
  destruct r; [by apply (IH _ _ Hbody H)|by simplify_eq].
Qed.

(** [for (...; n times; ...) s = f s] *)
Fixpoint repeat_n (n : nat) (f : A -> option A) (s : A) : option A :=
  match n with
  | O => Some s
  | S n => s ← f s; repeat_n n f s
  end.

Lemma repeat_n_ok (I : nat -> A -> Prop) f n :
  (forall k s, (k < n)%nat -> I k s -> exists s', f s = Some s' /\ I (S k) s') ->
  forall s, I O s -> exists s', repeat_n n f s = Some s' /\ I n s'.
Proof.
  revert I. induction n as [|n IH]; intros I Hf s Hs; [by exists s|].
  destruct (Hf O s ltac:(lia) Hs) as (s1 & E & H1). cbn [repeat_n]. rewrite E. cbn [mbind option_bind].
  apply (IH (fun k => I (S k))); [|done]. intros k s' Hk. apply Hf. lia.
Qed.
End Loop.

(** [for (int i = 0; i < n; i++)] *)
Section For.
Context {A : Type}.
Fixpoint for_from (n : nat) (i : Z) (body : Z -> A -> option A) (s : A) : option A :=
  match n with
  | O => Some s
  | S n => s ← body i s; for_from n (i + 1) body s
  end.
Definition for_z (n : Z) (body : Z -> A -> option A) (s : A) : option A := for_from (Z.to_nat n) 0 body s.

Lemma for_z_ok (I : Z -> A -> Prop) (n : Z) body : 0 <= n ->
  (forall i s, 0 <= i < n -> I i s -> exists s', body i s = Some s' /\ I (i + 1) s') ->
  forall s, I 0 s -> exists s', for_z n body s = Some s' /\ I n s'.
Proof.
  intros Hn Hb. unfold for_z.
  assert (H : forall (m : nat) i s, 0 <= i -> i + Z.of_nat m <= n -> I i s -> exists s', for_from m i body s = Some s' /\ I (i + Z.of_nat m) s').
  { induction m as [|m IH]; intros i s Hi Hm Hs; cbn [for_from].
    - exists s. by replace (i + Z.of_nat 0) with i by lia.
    - destruct (Hb i s ltac:(lia) Hs) as (s1 & -> & H1). cbn [mbind option_bind]. destruct (IH (i + 1) s1 ltac:(lia) ltac:(lia) H1) as (s' & -> & H').
      exists s'. split; [done|]. by replace (i + Z.of_nat (S m)) with (i + 1 + Z.of_nat m) by lia. }
  intros s Hs. destruct (H (Z.to_nat n) 0 s ltac:(lia) ltac:(lia) Hs) as (s' & E & Hs'). exists s'. split; [done|]. by replace (0 + Z.of_nat (Z.to_nat n)) with n in Hs' by lia.
Qed.
End For.

(** ** Arrays *)

Section Array.
Context {A : Type}.
Implicit Types (a : list A) (i j l h : Z).

Definition alen a : Z := Z.of_nat (length a).
Definition get a i : option A := if 0 <=? i then a !! Z.to_nat i else None.
Definition set a i (x : A) : option (list A) :=
  if (0 <=? i) && (i <? alen a) then Some (<[Z.to_nat i := x]> a) else None.
Definition swap a i j : option (list A) :=
  x ← get a i; y ← get a j; a ← set a i y; set a j x.

Lemma get_range a i x : get a i = Some x -> 0 <= i < alen a.
Proof. unfold get, alen. case_bool; [|done]. intros ?%lookup_lt_Some. lia. Qed.
Lemma get_in a i : 0 <= i < alen a -> exists x, get a i = Some x.
Proof. intros H. unfold get, alen in *. case_bool; [|lia]. apply lookup_lt_is_Some. lia. Qed.
Lemma get_nat a (n : nat) : get a (Z.of_nat n) = a !! n.
Proof. unfold get. case_bool; [|lia]. by rewrite Nat2Z.id. Qed.
Lemma get_None a i : ~ 0 <= i < alen a -> get a i = None.
Proof. intros H. destruct (get a i) eqn:E; [|done]. by apply get_range in E. Qed.
Lemma get_ext a b : (forall i, get a i = get b i) -> a = b.
Proof. intros H. apply list_eq. intros n. by rewrite <- !get_nat. Qed.

Lemma get_eq a i : 0 <= i -> get a i = a !! Z.to_nat i.
Proof. intros H. unfold get. by rewrite (proj2 (Z.leb_le _ _)). Qed.
Lemma set_eq a i x : 0 <= i < alen a -> set a i x = Some (<[Z.to_nat i := x]> a).
Proof. intros H. unfold set. by rewrite (proj2 (Z.leb_le _ _)), (proj2 (Z.ltb_lt _ _)) by lia. Qed.

Lemma get_snoc a x i : get (a ++ [x]) i = if i =? alen a then Some x else get a i.
Proof.
  unfold get, alen. destruct (Z.leb_spec 0 i); [|case_bool; [lia|done]]. case_bool.
  - subst. rewrite Nat2Z.id. by apply list_lookup_middle.
  - destruct (decide (Z.to_nat i < length a)%nat); [by apply lookup_app_l|]. rewrite lookup_app_r by lia.
    destruct (Z.to_nat i - length a)%nat eqn:E; [lia|]. symmetry. apply lookup_ge_None_2. lia.
Qed.

Lemma get_app (l1 l2 : list A) m : get (l1 ++ l2) m = if m <? alen l1 then get l1 m else get l2 (m - alen l1).
Proof.
  unfold get, alen. case_bool; [|].
  - case_bool; [|done]. apply lookup_app_l. lia.
  - rewrite !(proj2 (Z.leb_le _ _)) by lia. rewrite lookup_app_r by lia. f_equal. lia.
Qed.

Lemma alen_app (l1 l2 : list A) : alen (l1 ++ l2) = alen l1 + alen l2.
Proof. unfold alen. rewrite length_app. lia. Qed.
Lemma alen_cons x a : alen (x :: a) = 1 + alen a.
Proof. unfold alen. cbn [length]. lia. Qed.
Lemma alen_nonneg a : 0 <= alen a.
Proof. unfold alen. lia. Qed.
Lemma get_middle (l1 l2 : list A) x : get (l1 ++ x :: l2) (alen l1) = Some x.
Proof. rewrite get_app, (proj2 (Z.ltb_ge _ _)), Z.sub_diag by lia. done. Qed.
Lemma set_middle (l1 l2 : list A) x y : set (l1 ++ x :: l2) (alen l1) y = Some (l1 ++ y :: l2).
Proof.
  pose proof (alen_nonneg l1). pose proof (alen_nonneg l2). rewrite set_eq by (rewrite alen_app, alen_cons; lia). unfold alen. rewrite Nat2Z.id.
  f_equal. rewrite insert_app_r_alt by lia. by rewrite Nat.sub_diag.
Qed.

Lemma set_spec a i x : 0 <= i < alen a -> exists a', set a i x = Some a' /\ alen a' = alen a /\
  (forall j, get a' j = if j =? i then Some x else get a j).
Proof.
  intros H. rewrite set_eq by done. eexists. split; [done|].
  unfold alen in *. split; [by rewrite length_insert|]. intros j. unfold get. case_bool.
  - destruct (Z.eqb_spec j i) as [->|Hne]; [apply list_lookup_insert_eq; lia|apply list_lookup_insert_ne; lia].
  - destruct (Z.eqb_spec j i); [lia|done].
Qed.

Lemma insert_perm a (n : nat) x y : a !! n = Some x -> x :: <[n := y]> a ≡ₚ y :: a.
Proof.
  intros H. rewrite <- (take_drop_middle a n x H) at 2.
  rewrite (insert_take_drop a n y) by (by eapply lookup_lt_Some).
  rewrite <- !Permutation_middle. apply perm_swap.
Qed.

(** [a'] is [a] with the elements of [[l, h)] in another order. *)
Definition rearr l h a a' : Prop := a' ≡ₚ a /\ forall i, ~ (l <= i < h) -> get a' i = get a i.

Lemma swap_spec l h a i j : l <= i < h -> l <= j < h -> 0 <= l -> h <= alen a ->
  exists a', swap a i j = Some a' /\ rearr l h a a' /\
    forall k, get a' k = if k =? j then get a i else if k =? i then get a j else get a k.
Proof.
  intros Hi Hj Hl Hh. destruct (get_in a i ltac:(lia)) as [x Hx], (get_in a j ltac:(lia)) as [y Hy].
  unfold swap. rewrite Hx, Hy. cbn [mbind option_bind].
  destruct (set_spec a i y ltac:(lia)) as (b & Eb & Lb & Hb). rewrite Eb. cbn [mbind option_bind].
  destruct (set_spec b j x ltac:(lia)) as (c & Ec & Lc & Hc). exists c. split; [done|].
  assert (Hg : forall k, get c k = if k =? j then Some x else if k =? i then Some y else get a k).
  { intros k. rewrite Hc. case_bool; [done|]. by rewrite Hb. }
  split; [split|done].
  - rewrite set_eq in Eb, Ec by lia. simplify_eq/=.
    assert (Hyb : get (<[Z.to_nat i:=y]> a) j = Some y) by (rewrite Hb; case_bool; done).
    rewrite get_eq in Hx, Hyb by lia.
    apply (insert_perm _ _ _ x) in Hyb. apply (insert_perm _ _ _ y) in Hx. rewrite Hx in Hyb.
    by apply Permutation_cons_inv in Hyb.
  - intros k Hk. rewrite Hg. destruct (Z.eqb_spec k j), (Z.eqb_spec k i); try lia. done.
Qed.

Lemma rearr_refl l h a : rearr l h a a.
Proof. by split. Qed.
Lemma rearr_trans l h a b c : rearr l h a b -> rearr l h b c -> rearr l h a c.
Proof. intros [H1 H2] [H3 H4]. split; [by rewrite H3|]. intros i Hi. by rewrite H4, H2. Qed.
Lemma rearr_weaken l h l' h' a b : l' <= l -> h <= h' -> rearr l h a b -> rearr l' h' a b.
Proof. intros ? ? [H1 H2]. split; [done|]. intros i Hi. apply H2. lia. Qed.
Lemma rearr_alen l h a b : rearr l h a b -> alen b = alen a.
Proof. intros [H _]. unfold alen. by rewrite H. Qed.

(** The elements in [[l, h)]. *)
Definition segm l h a : list A := take (Z.to_nat (h - l)) (drop (Z.to_nat l) a).

Lemma elem_of_segm l h a x : 0 <= l -> x ∈ segm l h a <-> exists i, l <= i < h /\ get a i = Some x.
Proof.
  intros Hl. unfold segm. rewrite list_elem_of_lookup. split.
  - intros [n Hn]. apply lookup_take_Some in Hn as [Hn ?]. rewrite lookup_drop in Hn.
    exists (l + Z.of_nat n). split; [lia|]. rewrite <- Hn, <- get_nat. f_equal. lia.
  - intros (i & Hi & Hx). exists (Z.to_nat (i - l)). apply lookup_take_Some. split; [|lia].
    rewrite lookup_drop, <- Hx, <- get_nat. f_equal. lia.
Qed.

Lemma segm_split l h a : 0 <= l <= h -> h <= alen a -> a = take (Z.to_nat l) a ++ segm l h a ++ drop (Z.to_nat h) a.
Proof.
  intros ? ?. unfold segm. rewrite <- (take_drop (Z.to_nat l) a) at 1. f_equal.
  rewrite <- (take_drop (Z.to_nat (h - l)) (drop _ a)) at 1. f_equal. rewrite drop_drop. f_equal. lia.
Qed.

Lemma rearr_segm l h a b : 0 <= l <= h -> h <= alen a -> rearr l h a b -> segm l h b ≡ₚ segm l h a.
Proof.
  intros Hl Hh Hr. pose proof (rearr_alen _ _ _ _ Hr) as Hlen. destruct Hr as [Hp Ho].
  rewrite (segm_split l h a), (segm_split l h b) in Hp by lia.
  assert (Ht : take (Z.to_nat l) b = take (Z.to_nat l) a).
  { apply list_eq. intros n. destruct (decide (n < Z.to_nat l)%nat).
    - rewrite !lookup_take_lt by done. rewrite <- !get_nat. apply Ho. lia.
    - by rewrite !lookup_take_ge by lia. }
  assert (Hd : drop (Z.to_nat h) b = drop (Z.to_nat h) a).
  { apply list_eq. intros n. rewrite !lookup_drop, <- !get_nat. apply Ho. lia. }
  rewrite Ht, Hd in Hp. apply Permutation_app_inv_l in Hp. by apply Permutation_app_inv_r in Hp.
Qed.

(** [P] holds of every element in [[l, h)]. *)
Definition all_in (P : A -> Prop) l h a : Prop := forall i x, l <= i < h -> get a i = Some x -> P x.

Lemma rearr_all_in P l h a b : 0 <= l <= h -> h <= alen a -> rearr l h a b -> all_in P l h a -> all_in P l h b.
Proof.
  intros ? ? Hr%rearr_segm Ha i x Hi Hx; [|done..].
  assert (Hin : x ∈ segm l h b) by (apply elem_of_segm; [lia|eauto]).
  rewrite Hr in Hin. apply elem_of_segm in Hin as (j & ? & ?); [|lia]. by eapply Ha.
Qed.

Lemma rearr_all_out P l h l' h' a b : h' <= l \/ h <= l' -> rearr l h a b -> all_in P l' h' a -> all_in P l' h' b.
Proof. intros ? [_ Ho] Ha i x Hi. rewrite Ho by lia. by apply Ha. Qed.

Lemma all_in_weaken (P Q : A -> Prop) l h l' h' a : (forall x, P x -> Q x) -> l <= l' -> h' <= h ->
  all_in P l h a -> all_in Q l' h' a.
Proof. intros HPQ ? ? H i x Hi Hx. eapply HPQ, (H i); [lia|done]. Qed.
End Array.

(** ** Sorted arrays of integers *)

Definition sorted_in (l h : Z) (a : list Z) : Prop :=
  forall i j x y, l <= i <= j -> j < h -> get a i = Some x -> get a j = Some y -> x <= y.

(** The order the standard library's [sort] gives. *)
Abbreviation std_sort := (merge_sort Z.le).

Lemma sorted_in_unique (a b : list Z) : sorted_in 0 (alen a) a -> a ≡ₚ b -> a = std_sort b.
Proof.
  intros Hs Hp. eapply (StronglySorted_unique Z.le).
  - clear Hp b. induction a as [|x a IH]; constructor.
    + apply IH. intros i j y z Hij Hj Hy Hz. eapply (Hs (i + 1) (j + 1)); unfold alen in *; cbn [length]; [lia|lia|..].
      * rewrite <- Hy, !get_eq by lia. by replace (Z.to_nat (i + 1)) with (S (Z.to_nat i)) by lia.
      * rewrite <- Hz, !get_eq by lia. by replace (Z.to_nat (j + 1)) with (S (Z.to_nat j)) by lia.
    + apply Forall_lookup_2. intros i y Hy. pose proof (lookup_lt_Some _ _ _ Hy). eapply (Hs 0 (Z.of_nat (S i))); unfold alen; cbn [length]; [lia|lia|done|].
      by rewrite get_nat.
  - apply Sorted_StronglySorted; [intros ? ? ?; apply Z.le_trans|]. apply Sorted_merge_sort. intros x y. lia.
  - rewrite Hp. symmetry. apply merge_sort_Permutation.
Qed.
