(* ===== verification/Marshall.v ===== *)
(** * Marshalling: the wire format of the RPC library

    Models [class marshall] and [class unmarshall] of
    src/mit_6.824/rpc/marshall.h and the operators of rpc/rpc.cc: a growing
    byte buffer with a write head, and a received buffer with a read head and
    a sticky [ok] flag.  The buffers are real memory: a store or a load outside
    the allocation is [None].  [WireSpec] is the interface the rest of the
    system relies on: an abstract encoding that the two operators implement. *)

From Stdlib Require Import ZArith Lia Ascii String.
From stdpp Require Import base list strings.
From S2P Require Import Prelude.

Local Open Scope Z_scope.
Local Open Scope cpp_scope.

(** ** Memory *)

(** [malloc]: a block of [n] bytes holding whatever was there ([junk]). *)
Definition malloc (junk : ascii) (n : Z) : list ascii := replicate (Z.to_nat n) junk.

Definition realloc (junk : ascii) (b : list ascii) (n : Z) : list ascii :=
  take (Z.to_nat n) b ++ replicate (Z.to_nat n - length b) junk.

(** [b[i] = c] *)
Definition store (b : list ascii) (i : Z) (c : ascii) : option (list ascii) :=
  if (0 <=? i) && (i <? Z.of_nat (length b)) then Some (<[Z.to_nat i := c]> b) else None.

(** [b[i]] *)
Definition load (b : list ascii) (i : Z) : option ascii :=
  if 0 <=? i then b !! Z.to_nat i else None.

(** [memcpy(b + i, p, n)] *)
Definition memcpy_in (b : list ascii) (i : Z) (p : list ascii) (n : Z) : option (list ascii) :=
  if (0 <=? i) && (0 <=? n) && (n <=? Z.of_nat (length p)) && (i + n <=? Z.of_nat (length b))
  then Some (take (Z.to_nat i) b ++ take (Z.to_nat n) p ++ drop (Z.to_nat (i + n)) b)
  else None.

(** [std::string(b + i, n)] *)
Definition mem_read (b : list ascii) (i n : Z) : option (list ascii) :=
  if (0 <=? i) && (0 <=? n) && (i + n <=? Z.of_nat (length b))
  then Some (take (Z.to_nat n) (drop (Z.to_nat i) b)) else None.

(** ** Headers *)

Record req_header := ReqHeader {
  rq_xid : Z; rq_proc : Z; rq_clt_nonce : Z; rq_srv_nonce : Z; rq_xid_rep : Z }.
Record reply_header := ReplyHeader { rp_xid : Z; rp_ret : Z }.

Definition sizeof_int : Z := 4.
Definition sizeof_rpc_sz_t : Z := 4.
Definition DEFAULT_RPC_SZ : Z := 1024.
(** [static_max<sizeof(req_header), sizeof(reply_header)>::value + sizeof(rpc_sz_t)]
    (RPC_CHECKSUMMING is not defined by any build file). *)
Definition RPC_HEADER_SZ : Z := Z.max (5 * sizeof_int) (2 * sizeof_int) + sizeof_rpc_sz_t.

(** ** class marshall *)

(** [m_junk] is what uninitialised memory happens to hold; no theorem depends
    on its value. *)
Record marshall := Marshall {
  m_junk : ascii; m_buf : option (list ascii); m_capa : Z; m_ind : Z }.

Definition marshall_new (junk : ascii) : marshall :=
  Marshall junk (Some (malloc junk DEFAULT_RPC_SZ)) DEFAULT_RPC_SZ RPC_HEADER_SZ.

(** [marshall::rawbyte(unsigned char x)] *)
Definition m_rawbyte (m : marshall) (x : Z) : option marshall :=
  m' ← (if m_capa m <=? m_ind m then
          capa ← int32 (m_capa m * 2);
          b ← m_buf m;
          Some (Marshall (m_junk m) (Some (realloc (m_junk m) b capa)) capa (m_ind m))
        else Some m);
  b ← m_buf m';
  b' ← store b (m_ind m') (char_of x);
  ind ← int32 (m_ind m' + 1);
  Some (Marshall (m_junk m') (Some b') (m_capa m') ind).

(** [marshall::rawbytes(const char *p, int n)] *)
Definition m_rawbytes (m : marshall) (p : list ascii) (n : Z) : option marshall :=
  need ← int32 (m_ind m + n);
  m' ← (if m_capa m <? need then
          capa ← (if n <? m_capa m then int32 (2 * m_capa m) else int32 (m_capa m + n));
          b ← m_buf m;
          Some (Marshall (m_junk m) (Some (realloc (m_junk m) b capa)) capa (m_ind m))
        else Some m);
  b ← m_buf m';
  b' ← memcpy_in b (m_ind m') p n;
  Some (Marshall (m_junk m') (Some b') (m_capa m') need).

(** [marshall::get_content()] and [marshall::str()] *)
Definition m_str (m : marshall) : option string :=
  b ← m_buf m;
  l ← mem_read b RPC_HEADER_SZ (m_ind m - RPC_HEADER_SZ);
  Some (str_of l).

(** [marshall::pack(int x)] *)
Definition m_pack (m : marshall) (x : Z) : option marshall :=
  m ← m_rawbyte m (Z.land (Z.shiftr x 24) 255);
  m ← m_rawbyte m (Z.land (Z.shiftr x 16) 255);
  m ← m_rawbyte m (Z.land (Z.shiftr x 8) 255);
  m_rawbyte m (Z.land x 255).

Definition m_with_ind (m : marshall) (i : Z) : marshall :=
  Marshall (m_junk m) (m_buf m) (m_capa m) i.

Definition pack_req_header (m : marshall) (h : req_header) : option marshall :=
  let saved_sz := m_ind m in
  let m := m_with_ind m sizeof_rpc_sz_t in
  m ← m_pack m (rq_xid h);
  m ← m_pack m (rq_proc h);
  m ← m_pack m (to_signed 32 (rq_clt_nonce h));
  m ← m_pack m (to_signed 32 (rq_srv_nonce h));
  m ← m_pack m (rq_xid_rep h);
  Some (m_with_ind m saved_sz).

Definition pack_reply_header (m : marshall) (h : reply_header) : option marshall :=
  let saved_sz := m_ind m in
  let m := m_with_ind m sizeof_rpc_sz_t in
  m ← m_pack m (rp_xid h);
  m ← m_pack m (rp_ret h);
  Some (m_with_ind m saved_sz).

(** [marshall::take_buf]: hands over the buffer and its used size. *)
Definition m_take_buf (m : marshall) : (option (list ascii) * Z) * marshall :=
  ((m_buf m, m_ind m), Marshall (m_junk m) None (m_capa m) 0).

(** The [operator<<] overloads. *)
Definition put_bool (m : marshall) (x : bool) : option marshall :=
  m_rawbyte m (if x then 1 else 0).
Definition put_uchar (m : marshall) (x : Z) : option marshall := m_rawbyte m x.
Definition put_char (m : marshall) (x : Z) : option marshall := put_uchar m (wrap 8 x).
Definition put_ushort (m : marshall) (x : Z) : option marshall :=
  m ← m_rawbyte m (Z.land (Z.shiftr x 8) 255);
  m_rawbyte m (Z.land x 255).
Definition put_short (m : marshall) (x : Z) : option marshall := put_ushort m (wrap 16 x).
Definition put_uint (m : marshall) (x : Z) : option marshall :=
  m ← m_rawbyte m (Z.land (Z.shiftr x 24) 255);
  m ← m_rawbyte m (Z.land (Z.shiftr x 16) 255);
  m ← m_rawbyte m (Z.land (Z.shiftr x 8) 255);
  m_rawbyte m (Z.land x 255).
Definition put_int (m : marshall) (x : Z) : option marshall := put_uint m (wrap 32 x).
Definition put_ull (m : marshall) (x : Z) : option marshall :=
  m ← put_uint m (wrap 32 (Z.shiftr x 32));
  put_uint m (wrap 32 x).
Definition put_string (m : marshall) (s : string) : option marshall :=
  m ← put_uint m (wrap 32 (str_size s));
  m_rawbytes m (bytes_of s) (to_signed 32 (str_size s)).

(** The [operator<<] template for [std::vector<C>]. *)
Definition put_vector {C : Type} (put : marshall -> C -> option marshall)
    (m : marshall) (v : list C) : option marshall :=
  m ← put_uint m (wrap 32 (Z.of_nat (length v)));
  foldl (fun acc c => m ← acc; put m c) (Some m) v.

(** ** class unmarshall *)

Record unmarshall := Unmarshall {
  u_buf : option (list ascii); u_sz : Z; u_ind : Z; u_ok : bool }.

(** [unmarshall()], [unmarshall(char *b, int sz)] *)
Definition unmarshall_empty : unmarshall := Unmarshall None 0 0 false.
Definition unmarshall_new (b : list ascii) (sz : Z) : unmarshall := Unmarshall (Some b) sz 0 true.

(** [take_content], the constructor from a string: room for a header, then the
    bytes of the string. *)
Definition take_content (junk : ascii) (s : string) : option unmarshall :=
  sz ← int32 (str_size s + RPC_HEADER_SZ);
  b ← memcpy_in (malloc junk sz) RPC_HEADER_SZ (bytes_of s) (str_size s);
  Some (Unmarshall (Some b) sz RPC_HEADER_SZ true).

Definition okdone (u : unmarshall) : bool := u_ok u && (u_ind u =? u_sz u).

(** [unmarshall::rawbyte]: a plain [char], returned as an [unsigned int]. *)
Definition u_rawbyte (u : unmarshall) : option (unmarshall * Z) :=
  if u_sz u <=? u_ind u
  then Some (Unmarshall (u_buf u) (u_sz u) (u_ind u) false, 0)
  else b ← u_buf u;
       c ← load b (u_ind u);
       Some (Unmarshall (u_buf u) (u_sz u) (u_ind u + 1) (u_ok u), wrap 32 (char_s c)).

(** [unmarshall::rawbytes(std::string &ss, unsigned int n)]: the bound check is
    in unsigned arithmetic. *)
Definition u_rawbytes (u : unmarshall) (ss : string) (n : Z) : option (unmarshall * string) :=
  if wrap 32 (u_sz u) <? wrap 32 (u_ind u + n)
  then Some (Unmarshall (u_buf u) (u_sz u) (u_ind u) false, ss)
  else b ← u_buf u;
       tmps ← mem_read b (u_ind u) n;
       VERIFY! (Z.of_nat (length tmps) =? n) ;;
       Some (Unmarshall (u_buf u) (u_sz u) (to_signed 32 (u_ind u + n)) (u_ok u), str_of tmps).

(** [unmarshall::take_in]: take over the buffer of another object. *)
Definition take_in (another : unmarshall) : unmarshall :=
  Unmarshall (u_buf another) (u_sz another) RPC_HEADER_SZ
    (if RPC_HEADER_SZ <=? u_sz another then true else false).

(** [rawbyte() & 0xff] *)
Definition u_byte (u : unmarshall) : option (unmarshall * Z) :=
  '(u, c) ← u_rawbyte u; Some (u, Z.land c 255).

(** [x |= b] on an [int]. *)
Definition or_int (x b : Z) : Z := to_signed 32 (Z.lor (wrap 32 x) b).

(** [unmarshall::unpack(int *x)] *)
Definition u_unpack (u : unmarshall) : option (unmarshall * Z) :=
  '(u, b3) ← u_byte u;
  let x := to_signed 32 (Z.shiftl b3 24) in
  '(u, b2) ← u_byte u;
  let x := or_int x (Z.shiftl b2 16) in
  '(u, b1) ← u_byte u;
  let x := or_int x (Z.shiftl b1 8) in
  '(u, b0) ← u_byte u;
  Some (u, or_int x b0).

Definition u_with_ind (u : unmarshall) (i : Z) : unmarshall :=
  Unmarshall (u_buf u) (u_sz u) i (u_ok u).

Definition unpack_req_header (u : unmarshall) : option (unmarshall * req_header) :=
  let u := u_with_ind u sizeof_rpc_sz_t in
  '(u, xid) ← u_unpack u;
  '(u, proc) ← u_unpack u;
  '(u, clt) ← u_unpack u;
  '(u, srv) ← u_unpack u;
  '(u, rep) ← u_unpack u;
  Some (u_with_ind u RPC_HEADER_SZ, ReqHeader xid proc (wrap 32 clt) (wrap 32 srv) rep).

Definition unpack_reply_header (u : unmarshall) : option (unmarshall * reply_header) :=
  let u := u_with_ind u sizeof_rpc_sz_t in
  '(u, xid) ← u_unpack u;
  '(u, ret) ← u_unpack u;
  Some (u_with_ind u RPC_HEADER_SZ, ReplyHeader xid ret).

(** The [operator>>] overloads. *)
Definition get_bool (u : unmarshall) : option (unmarshall * bool) :=
  '(u, c) ← u_rawbyte u; Some (u, negb (c =? 0)).
Definition get_uchar (u : unmarshall) : option (unmarshall * Z) :=
  '(u, c) ← u_rawbyte u; Some (u, wrap 8 c).
Definition get_char (u : unmarshall) : option (unmarshall * Z) :=
  '(u, c) ← u_rawbyte u; Some (u, to_signed 8 c).
Definition get_ushort (u : unmarshall) : option (unmarshall * Z) :=
  '(u, b1) ← u_byte u;
  let x := wrap 16 (Z.shiftl b1 8) in
  '(u, b0) ← u_byte u;
  Some (u, wrap 16 (Z.lor x b0)).
Definition get_short (u : unmarshall) : option (unmarshall * Z) :=
  '(u, b1) ← u_byte u;
  let x := to_signed 16 (Z.shiftl b1 8) in
  '(u, b0) ← u_byte u;
  Some (u, to_signed 16 (Z.lor (wrap 32 x) b0)).
Definition get_uint (u : unmarshall) : option (unmarshall * Z) :=
  '(u, b3) ← u_byte u;
  let x := Z.shiftl b3 24 in
  '(u, b2) ← u_byte u;
  let x := Z.lor x (Z.shiftl b2 16) in
  '(u, b1) ← u_byte u;
  let x := Z.lor x (Z.shiftl b1 8) in
  '(u, b0) ← u_byte u;
  Some (u, Z.lor x b0).
Definition get_int (u : unmarshall) : option (unmarshall * Z) :=
  '(u, b3) ← u_byte u;
  let x := to_signed 32 (Z.shiftl b3 24) in
  '(u, b2) ← u_byte u;
  let x := or_int x (Z.shiftl b2 16) in
  '(u, b1) ← u_byte u;
  let x := or_int x (Z.shiftl b1 8) in
  '(u, b0) ← u_byte u;
  Some (u, or_int x b0).
Definition get_ull (u : unmarshall) : option (unmarshall * Z) :=
  '(u, h) ← get_uint u;
  '(u, l) ← get_uint u;
  Some (u, Z.lor l (Z.shiftl h 32)).
(** [s] is the string's value before the call: it is kept when the read fails. *)
Definition get_string (u : unmarshall) (s : string) : option (unmarshall * string) :=
  '(u, sz) ← get_uint u;
  if u_ok u then u_rawbytes u s sz else Some (u, s).

(** The [operator>>] template for [std::vector<C>]: [n] elements are read
    whatever the [ok] flag says. *)
Fixpoint get_n {C : Type} (get : unmarshall -> option (unmarshall * C)) (n : nat)
    (u : unmarshall) (v : list C) : option (unmarshall * list C) :=
  match n with
  | O => Some (u, v)
  | S n => '(u, z) ← get u; get_n get n u (v ++ [z])
  end.
Definition get_vector {C : Type} (get : unmarshall -> option (unmarshall * C))
    (u : unmarshall) : option (unmarshall * list C) :=
  '(u, n) ← get_uint u;
  get_n get (Z.to_nat n) u [].

(** ** The interface: what a marshallable type promises *)

(** Operations: [operator<<] and [operator>>] into a default-constructed value. *)
Class Wire (A : Type) := {
  wput : marshall -> A -> option marshall;
  wget : unmarshall -> option (unmarshall * A) }.

(** Representation invariant and abstract content of a [marshall]. *)
Definition m_inv (m : marshall) : Prop :=
  exists b, m_buf m = Some b /\ Z.of_nat (length b) = m_capa m /\
    0 <= m_ind m <= m_capa m /\ 0 < m_capa m <= 2 ^ 30.

Definition m_content (m : marshall) : list ascii :=
  match m_buf m with Some b => take (Z.to_nat (m_ind m)) b | None => [] end.

(** The largest message for which the [int] arithmetic of the buffer is
    certain not to overflow. *)
Definition MAX_CONTENT : Z := 2 ^ 29.

(** [m'] is [m] with [l] appended at the write head. *)
Definition appended (m : marshall) (l : list ascii) (m' : marshall) : Prop :=
  m_inv m' /\ m_content m' = m_content m ++ l.

(** The read head of [u] stands after [pre], with [rest] still to be read. *)
Definition u_at (u : unmarshall) (pre rest : list ascii) : Prop :=
  (exists extra, u_buf u = Some (pre ++ rest ++ extra)) /\
  u_ind u = Z.of_nat (length pre) /\
  u_sz u = Z.of_nat (length pre + length rest) /\ u_sz u < 2 ^ 31 /\ u_ok u = true.

(** [f] appends [l] to any buffer that has room for it. *)
Definition put_ok (f : marshall -> option marshall) (l : list ascii) : Prop :=
  forall m, m_inv m -> m_ind m + Z.of_nat (length l) <= MAX_CONTENT ->
    exists m', f m = Some m' /\ appended m l m'.

(** [f] reads [l] as [a] and advances past it. *)
Definition get_ok {A : Type} (f : unmarshall -> option (unmarshall * A))
    (l : list ascii) (a : A) : Prop :=
  forall u pre rest, u_at u pre (l ++ rest) ->
    exists u', f u = Some (u', a) /\ u_at u' (pre ++ l) rest.

(** Laws: an encoding that [wput] appends and [wget] consumes. *)
Class WireSpec (A : Type) `{Wire A} := {
  wenc : A -> list ascii;
  wwf : A -> Prop;
  wput_spec a : wwf a -> put_ok (fun m => wput m a) (wenc a);
  wget_spec a : wwf a -> get_ok wget (wenc a) a }.

(** ** The write side *)

Lemma m_content_length m : m_inv m -> Z.of_nat (length (m_content m)) = m_ind m.
Proof.
  intros (b & Hb & Hl & ? & ?). unfold m_content. rewrite Hb, length_take. lia.
Qed.

Lemma appended_ind m l m' : m_inv m -> appended m l m' ->
  m_ind m' = m_ind m + Z.of_nat (length l).
Proof.
  intros Hm [Hm' Hc]. apply (f_equal length) in Hc. rewrite length_app in Hc.
  pose proof (m_content_length m Hm). pose proof (m_content_length m' Hm'). lia.
Qed.

Lemma appended_nil m : m_inv m -> appended m [] m.
Proof. intros. split; [done|]. by rewrite app_nil_r. Qed.

Lemma appended_app m1 l1 m2 l2 m3 :
  appended m1 l1 m2 -> appended m2 l2 m3 -> appended m1 (l1 ++ l2) m3.
Proof. intros [? H1] [? H2]. split; [done|]. by rewrite H2, H1, app_assoc. Qed.

Lemma appended_inv m l m' : appended m l m' -> m_inv m'.
Proof. by intros [? _]. Qed.

Lemma marshall_new_inv junk : m_inv (marshall_new junk).
Proof.
  exists (malloc junk DEFAULT_RPC_SZ). unfold marshall_new. cbn [m_buf m_capa m_ind].
  split; [reflexivity|]. unfold malloc. rewrite length_replicate. unfold RPC_HEADER_SZ, sizeof_int, sizeof_rpc_sz_t.
  change DEFAULT_RPC_SZ with 1024. lia.
Qed.

Lemma realloc_length junk b n : Z.of_nat (length b) <= n ->
  Z.of_nat (length (realloc junk b n)) = n.
Proof.
  intros. unfold realloc. rewrite length_app, length_take, length_replicate. lia.
Qed.

Lemma realloc_take junk b n k : (k <= length b)%nat -> Z.of_nat (length b) <= n ->
  take k (realloc junk b n) = take k b.
Proof.
  intros. unfold realloc. rewrite take_app_le by (rewrite length_take; lia).
  rewrite take_take. f_equal. lia.
Qed.

Lemma store_take (b : list ascii) i c : 0 <= i < Z.of_nat (length b) ->
  exists b', store b i c = Some b' /\ length b' = length b /\
    take (Z.to_nat (i + 1)) b' = take (Z.to_nat i) b ++ [c].
Proof.
  intros. unfold store. exists (<[Z.to_nat i := c]> b).
  destruct (Z.leb_spec 0 i), (Z.ltb_spec i (Z.of_nat (length b))); try lia. simpl.
  split_and!; [done|apply length_insert|].
  replace (Z.to_nat (i + 1)) with (S (Z.to_nat i)) by lia.
  erewrite take_S_r by (apply list_lookup_insert_eq; lia).
  by rewrite take_insert_ge by lia.
Qed.

(** Growing the buffer keeps what was written. *)
Lemma m_rawbyte_spec m x : m_inv m -> m_ind m + 1 <= MAX_CONTENT ->
  exists m', m_rawbyte m x = Some m' /\ appended m [char_of x] m'.
Proof.
  intros (b & Hb & Hl & Hi & Hc) Hmax. unfold MAX_CONTENT in Hmax.
  unfold m_rawbyte, appended, m_inv, m_content. rewrite Hb.
  destruct (Z.leb_spec (m_capa m) (m_ind m)).
  - rewrite int32_ok by (unfold in_i32; lia). cbn [mbind option_bind m_buf m_ind].
    pose proof (realloc_length (m_junk m) b (m_capa m * 2) ltac:(lia)) as Hr.
    destruct (store_take (realloc (m_junk m) b (m_capa m * 2)) (m_ind m) (char_of x))
      as (b' & -> & Hl' & Ht); [lia|].
    cbn [mbind option_bind]. rewrite int32_ok by (unfold in_i32; lia).
    eexists; split; [done|]. cbn. split; [exists b'; split_and!; [done|lia..]|].
    rewrite Ht. by rewrite realloc_take by lia.
  - cbn [mbind option_bind]. rewrite Hb. cbn [mbind option_bind].
    destruct (store_take b (m_ind m) (char_of x)) as (b' & -> & Hl' & Ht); [lia|].
    cbn [mbind option_bind]. rewrite int32_ok by (unfold in_i32; lia).
    eexists; split; [done|]. cbn. split; [exists b'; split_and!; [done|lia..]|done].
Qed.

Lemma memcpy_in_spec b i p : 0 <= i -> i + Z.of_nat (length p) <= Z.of_nat (length b) ->
  exists b', memcpy_in b i p (Z.of_nat (length p)) = Some b' /\ length b' = length b /\
    take (Z.to_nat (i + Z.of_nat (length p))) b' = take (Z.to_nat i) b ++ p.
Proof.
  intros. unfold memcpy_in.
  destruct (Z.leb_spec 0 i), (Z.leb_spec 0 (Z.of_nat (length p))),
    (Z.leb_spec (Z.of_nat (length p)) (Z.of_nat (length p))),
    (Z.leb_spec (i + Z.of_nat (length p)) (Z.of_nat (length b))); try lia. simpl.
  eexists; split_and!; [done| |].
  - rewrite !length_app, !length_take, length_drop. lia.
  - rewrite (take_ge p) by lia. rewrite app_assoc, take_app_le.
    + apply take_ge. rewrite length_app, length_take. lia.
    + rewrite length_app, length_take. lia.
Qed.

Lemma m_rawbytes_spec m p : m_inv m -> m_ind m + Z.of_nat (length p) <= MAX_CONTENT ->
  exists m', m_rawbytes m p (Z.of_nat (length p)) = Some m' /\ appended m p m'.
Proof.
  intros (b & Hb & Hl & Hi & Hc) Hmax. unfold MAX_CONTENT in Hmax.
  unfold m_rawbytes, appended, m_inv, m_content. rewrite Hb.
  rewrite (int32_ok (m_ind m + _)) by (unfold in_i32; lia). cbn [mbind option_bind].
  destruct (Z.ltb_spec (m_capa m) (m_ind m + Z.of_nat (length p))).
  - set (capa := if Z.of_nat (length p) <? m_capa m then 2 * m_capa m
                 else m_capa m + Z.of_nat (length p)).
    assert (Hcapa : m_ind m + Z.of_nat (length p) <= capa <= 2 ^ 30 /\ m_capa m <= capa).
    { unfold capa. case_bool; lia. }
    assert (Heq : (if Z.of_nat (length p) <? m_capa m then int32 (2 * m_capa m)
                   else int32 (m_capa m + Z.of_nat (length p))) = Some capa).
    { unfold capa in *. case_bool; apply int32_ok; unfold in_i32; lia. }
    rewrite Heq. cbn [mbind option_bind m_buf m_ind].
    pose proof (realloc_length (m_junk m) b capa ltac:(lia)) as Hr.
    destruct (memcpy_in_spec (realloc (m_junk m) b capa) (m_ind m) p)
      as (b' & -> & Hl' & Ht); [lia..|].
    cbn [mbind option_bind]. eexists; split; [done|]. cbn.
    split; [exists b'; split_and!; [done|lia..]|].
    rewrite Ht. by rewrite realloc_take by lia.
  - cbn [mbind option_bind]. rewrite Hb. cbn [mbind option_bind].
    destruct (memcpy_in_spec b (m_ind m) p) as (b' & -> & Hl' & Ht); [lia..|].
    cbn [mbind option_bind]. eexists; split; [done|]. cbn.
    split; [exists b'; split_and!; [done|lia..]|done].
Qed.

Lemma put_rawbyte_ok x : put_ok (fun m => m_rawbyte m x) [char_of x].
Proof. intros m Hm Hsz. by apply m_rawbyte_spec. Qed.

Lemma put_ok_bind f g l1 l2 :
  put_ok f l1 -> put_ok g l2 -> put_ok (fun m => m' ← f m; g m') (l1 ++ l2).
Proof.
  intros Hf Hg m Hm Hsz. rewrite length_app in Hsz.
  destruct (Hf m Hm ltac:(lia)) as (m1 & -> & H1).
  pose proof (appended_ind _ _ _ Hm H1).
  destruct (Hg m1 (appended_inv _ _ _ H1) ltac:(lia)) as (m2 & Hm2 & H2).
  exists m2. split; [done|]. by eapply appended_app.
Qed.

(** ** The read side *)

Lemma u_rawbyte_ok c : get_ok u_rawbyte [c] (wrap 32 (char_s c)).
Proof.
  intros u pre rest ((extra & Hb) & Hi & Hs & Hm & Ho). unfold u_rawbyte.
  simpl in Hs. destruct (Z.leb_spec (u_sz u) (u_ind u)); [lia|].
  rewrite Hb. cbn [mbind option_bind]. unfold load.
  destruct (Z.leb_spec 0 (u_ind u)); [|lia].
  rewrite lookup_app_r, Hi by lia.
  replace (Z.to_nat (Z.of_nat (length pre)) - length pre)%nat with 0%nat by lia. cbn.
  eexists; split; [done|]. split_and!; cbn.
  - exists extra. rewrite <-!app_assoc. done.
  - rewrite length_app. simpl. lia.
  - rewrite length_app. simpl. lia.
  - done.
  - done.
Qed.

Lemma get_ok_bind {A B} (f : unmarshall -> option (unmarshall * A))
    (g : A -> unmarshall -> option (unmarshall * B)) l1 l2 a b :
  get_ok f l1 a -> get_ok (g a) l2 b ->
  get_ok (fun u => '(u, x) ← f u; g x u) (l1 ++ l2) b.
Proof.
  intros Hf Hg u pre rest Hu. rewrite <-app_assoc in Hu.
  destruct (Hf _ _ _ Hu) as (u1 & -> & H1).
  destruct (Hg _ _ _ H1) as (u2 & Hg2 & H2).
  exists u2. cbn. split; [done|]. by rewrite app_assoc.
Qed.

Lemma get_ok_ret {A} (a : A) : get_ok (fun u => Some (u, a)) [] a.
Proof. intros u pre rest Hu. exists u. split; [done|]. by rewrite app_nil_r. Qed.

Lemma get_ok_map {A B} (f : unmarshall -> option (unmarshall * A)) (k : A -> B) l a :
  get_ok f l a -> get_ok (fun u => '(u, x) ← f u; Some (u, k x)) l (k a).
Proof.
  intros Hf. rewrite <-(app_nil_r l).
  by apply (get_ok_bind f (fun x u => Some (u, k x)) l [] a); [|apply get_ok_ret].
Qed.

Lemma u_byte_ok c : get_ok u_byte [c] (char_u c).
Proof.
  unfold u_byte. change [c] with ([c] ++ [] : list ascii).
  eapply (get_ok_bind u_rawbyte (fun c u => Some (u, Z.land c 255))); [apply u_rawbyte_ok|].
  rewrite char_s_masked. apply get_ok_ret.
Qed.

(** ** Integers: big-endian bytes *)

Definition enc_u16 (x : Z) : list ascii := [char_of (Z.shiftr x 8); char_of x].
Definition enc_u32 (x : Z) : list ascii :=
  [char_of (Z.shiftr x 24); char_of (Z.shiftr x 16); char_of (Z.shiftr x 8); char_of x].
Definition enc_u64 (x : Z) : list ascii := enc_u32 (Z.shiftr x 32) ++ enc_u32 x.

Lemma char_of_land x : char_of (Z.land x 255) = char_of x.
Proof.
  unfold char_of, wrap. change 255 with (Z.ones 8). rewrite Z.land_ones by lia.
  by rewrite Zmod_mod.
Qed.

Lemma char_of_mod x y : x mod 256 = y mod 256 -> char_of x = char_of y.
Proof. unfold char_of, wrap. by change (2 ^ 8) with 256; intros ->. Qed.

Lemma shiftr_wrap_byte x k : 0 <= k <= 24 -> char_of (Z.shiftr (wrap 32 x) k) = char_of (Z.shiftr x k).
Proof.
  intros. unfold char_of. do 2 f_equal. unfold wrap.
  rewrite <-!Z.land_ones by lia. apply Z.bits_inj'. intros n Hn.
  rewrite !Z.land_spec, !Z.shiftr_spec, Z.land_spec by lia.
  rewrite !Z.testbit_ones_nonneg by lia.
  destruct (Z.ltb_spec n 8); [|by rewrite !andb_false_r].
  destruct (Z.ltb_spec (n + k) 32); [|lia]. by rewrite !andb_true_r.
Qed.

Lemma enc_u32_wrap x : enc_u32 (wrap 32 x) = enc_u32 x.
Proof.
  unfold enc_u32. rewrite !shiftr_wrap_byte by lia.
  do 3 f_equal. f_equal. rewrite <-(Z.shiftr_0_r (wrap 32 x)), shiftr_wrap_byte by lia.
  by rewrite Z.shiftr_0_r.
Qed.

Lemma put_uint_ok x : put_ok (fun m => put_uint m x) (enc_u32 x).
Proof.
  unfold put_uint, enc_u32. rewrite <-!(char_of_land (Z.shiftr _ _)), <-(char_of_land x).
  repeat (apply (put_ok_bind _ _ [_]); [apply put_rawbyte_ok|]). apply put_rawbyte_ok.
Qed.

Lemma m_pack_ok x : put_ok (fun m => m_pack m x) (enc_u32 x).
Proof. apply put_uint_ok. Qed.

(** The four bytes recombine to the number modulo 2^32. *)
Lemma bytes_combine x :
  Z.lor (Z.lor (Z.lor (Z.shiftl (char_u (char_of (Z.shiftr x 24))) 24)
    (Z.shiftl (char_u (char_of (Z.shiftr x 16))) 16))
    (Z.shiftl (char_u (char_of (Z.shiftr x 8))) 8)) (char_u (char_of x)) = wrap 32 x.
Proof.
  rewrite !char_u_of. unfold wrap. rewrite <-!Z.land_ones by lia.
  apply Z.bits_inj'. intros n Hn.
  rewrite !Z.lor_spec, !Z.land_spec, !Z.testbit_ones_nonneg by lia.
  rewrite !Z.shiftl_spec by lia. rewrite !Z.land_spec.
  assert (Hbit : forall k, 0 <= k ->
    Z.testbit (Z.shiftr x k) (n - k) && Z.testbit (Z.ones 8) (n - k)
    = Z.testbit x n && ((k <=? n) && (n <? k + 8))).
  { intros k Hk. destruct (Z.leb_spec k n).
    - rewrite Z.shiftr_spec, Z.testbit_ones_nonneg by lia.
      replace (n - k + k) with n by lia. simpl. f_equal.
      destruct (Z.ltb_spec (n - k) 8), (Z.ltb_spec n (k + 8)); lia.
    - rewrite !(Z.testbit_neg_r _ (n - k)) by lia. by rewrite !andb_false_r. }
  rewrite !Hbit by lia.
  destruct (Z.testbit x n); [|done].
  repeat case_bool; simpl; try done; lia.
Qed.

(** Reads four bytes with [k] applied to them. *)
Lemma get_4bytes_ok {A} (k : Z -> Z -> Z -> Z -> A) x :
  get_ok (fun u => '(u, b3) ← u_byte u; '(u, b2) ← u_byte u; '(u, b1) ← u_byte u;
                   '(u, b0) ← u_byte u; Some (u, k b3 b2 b1 b0))
    (enc_u32 x)
    (k (char_u (char_of (Z.shiftr x 24))) (char_u (char_of (Z.shiftr x 16)))
       (char_u (char_of (Z.shiftr x 8))) (char_u (char_of x))).
Proof.
  unfold enc_u32.
  eapply (get_ok_bind u_byte (fun b3 u => '(u, b2) ← u_byte u; '(u, b1) ← u_byte u;
    '(u, b0) ← u_byte u; Some (u, k b3 b2 b1 b0)) [_]); [apply u_byte_ok|].
  eapply (get_ok_bind u_byte (fun b2 u => '(u, b1) ← u_byte u;
    '(u, b0) ← u_byte u; Some (u, k _ b2 b1 b0)) [_]); [apply u_byte_ok|].
  eapply (get_ok_bind u_byte (fun b1 u => '(u, b0) ← u_byte u; Some (u, k _ _ b1 b0)) [_]);
    [apply u_byte_ok|].
  eapply (get_ok_bind u_byte (fun b0 u => Some (u, k _ _ _ b0)) [_] []);
    [apply u_byte_ok|apply get_ok_ret].
Qed.

Lemma get_uint_ok x : get_ok get_uint (enc_u32 x) (wrap 32 x).
Proof.
  rewrite <-bytes_combine.
  apply (get_4bytes_ok (fun b3 b2 b1 b0 => Z.lor (Z.lor (Z.lor (Z.shiftl b3 24) (Z.shiftl b2 16))
    (Z.shiftl b1 8)) b0)).
Qed.

Lemma get_uint_ok' x : in_u32 x -> get_ok get_uint (enc_u32 x) x.
Proof. intros H. rewrite <-(wrap_small 32 x H) at 2. apply get_uint_ok. Qed.

Lemma wrap_to_signed x : wrap 32 (to_signed 32 x) = wrap 32 x.
Proof.
  unfold to_signed. unfold wrap. case_bool; [by rewrite Zmod_mod|].
  Z.div_mod_to_equations; lia.
Qed.

Lemma wrap_lor x y : wrap 32 (Z.lor x y) = Z.lor (wrap 32 x) (wrap 32 y).
Proof. unfold wrap. rewrite <-!Z.land_ones by lia. by rewrite Z.land_lor_distr_l. Qed.

Lemma wrap_wrap x : wrap 32 (wrap 32 x) = wrap 32 x.
Proof. unfold wrap. apply Zmod_mod. Qed.

Lemma to_signed_of_wrap x : to_signed 32 (wrap 32 x) = to_signed 32 x.
Proof. unfold to_signed. by rewrite wrap_wrap. Qed.

(** The running [|=] on an [int] computes the two's complement reading of the
    combined bytes. *)
Lemma or_int_signed x b : or_int (to_signed 32 x) b = to_signed 32 (Z.lor x b).
Proof.
  unfold or_int. rewrite wrap_to_signed, <-to_signed_of_wrap, wrap_lor, wrap_wrap, <-wrap_lor.
  apply to_signed_of_wrap.
Qed.

Lemma get_int_ok x : in_i32 x -> get_ok get_int (enc_u32 x) x.
Proof.
  intros Hx. rewrite <-(to_signed_wrap x Hx) at 2. rewrite <-bytes_combine.
  rewrite <-!or_int_signed.
  apply (get_4bytes_ok (fun b3 b2 b1 b0 => or_int (or_int (or_int (to_signed 32 (Z.shiftl b3 24))
    (Z.shiftl b2 16)) (Z.shiftl b1 8)) b0)).
Qed.

Lemma u_unpack_ok x : in_i32 x -> get_ok u_unpack (enc_u32 x) x.
Proof. apply get_int_ok. Qed.

Lemma put_int_ok x : put_ok (fun m => put_int m x) (enc_u32 x).
Proof. rewrite <-enc_u32_wrap. apply put_uint_ok. Qed.

Lemma put_ull_ok x : put_ok (fun m => put_ull m x) (enc_u64 x).
Proof.
  unfold enc_u64. rewrite <-(enc_u32_wrap (Z.shiftr x 32)), <-(enc_u32_wrap x).
  apply put_ok_bind; apply put_uint_ok.
Qed.

Lemma get_ull_ok x : in_u64 x -> get_ok get_ull (enc_u64 x) x.
Proof.
  unfold in_u64. intros Hx. unfold enc_u64.
  assert (Hx' : x = Z.lor (wrap 32 x) (Z.shiftl (wrap 32 (Z.shiftr x 32)) 32)).
  { unfold wrap. rewrite (Z.mod_small (Z.shiftr x 32)).
    2:{ rewrite Z.shiftr_div_pow2 by lia. Z.div_mod_to_equations; lia. }
    rewrite <-Z.land_ones by lia. apply Z.bits_inj'. intros n Hn.
    rewrite Z.lor_spec, Z.land_spec, Z.testbit_ones_nonneg, Z.shiftl_spec by lia.
    destruct (Z.ltb_spec n 32).
    - rewrite (Z.testbit_neg_r _ (n - 32)) by lia. by rewrite andb_true_r, orb_false_r.
    - rewrite Z.shiftr_spec by lia. replace (n - 32 + 32) with n by lia.
      by rewrite andb_false_r. }
  rewrite Hx' at 3.
  apply (get_ok_bind get_uint (fun h u => '(u, l) ← get_uint u; Some (u, Z.lor l (Z.shiftl h 32)))
    _ _ (wrap 32 (Z.shiftr x 32))); [apply get_uint_ok|].
  rewrite <-(app_nil_r (enc_u32 x)).
  apply (get_ok_bind get_uint (fun l u => Some (u, Z.lor l (Z.shiftl _ 32))) _ _ (wrap 32 x));
    [apply get_uint_ok|apply get_ok_ret].
Qed.

(** ** Booleans and strings *)

Definition enc_bool (x : bool) : list ascii := [char_of (if x then 1 else 0)].
Definition enc_string (s : string) : list ascii := enc_u32 (str_size s) ++ bytes_of s.

Lemma put_bool_ok x : put_ok (fun m => put_bool m x) (enc_bool x).
Proof. apply put_rawbyte_ok. Qed.

Lemma get_bool_ok x : get_ok get_bool (enc_bool x) x.
Proof.
  unfold get_bool, enc_bool.
  eapply (get_ok_bind u_rawbyte (fun c u => Some (u, negb (c =? 0))) [_] [] _);
    [apply u_rawbyte_ok|].
  rewrite char_s_bool, char_u_of.
  destruct x; apply get_ok_ret.
Qed.

Lemma str_size_nonneg s : 0 <= str_size s.
Proof. unfold str_size. lia. Qed.

Lemma to_signed_small x : 0 <= x < 2 ^ 31 -> to_signed 32 x = x.
Proof.
  intros. unfold to_signed. rewrite wrap_small by lia. case_bool; lia.
Qed.

Lemma put_string_ok s : str_size s < 2 ^ 31 -> put_ok (fun m => put_string m s) (enc_string s).
Proof.
  intros Hs. pose proof (str_size_nonneg s). unfold enc_string, put_string.
  rewrite wrap_small, to_signed_small by lia.
  apply put_ok_bind; [apply put_uint_ok|].
  intros m Hm Hsz. rewrite <-length_bytes_of. by apply m_rawbytes_spec.
Qed.

Lemma u_rawbytes_ok s old : get_ok (fun u => u_rawbytes u old (str_size s)) (bytes_of s) s.
Proof.
  intros u pre rest ((extra & Hb) & Hi & Hs & Hm & Ho).
  rewrite length_app in Hs. pose proof (length_bytes_of s). pose proof (str_size_nonneg s).
  unfold u_rawbytes. rewrite !wrap_small by lia.
  destruct (Z.ltb_spec (u_sz u) (u_ind u + str_size s)); [lia|].
  rewrite Hb. cbn [mbind option_bind]. unfold mem_read.
  rewrite !length_app.
  destruct (Z.leb_spec 0 (u_ind u)), (Z.leb_spec 0 (str_size s)); try lia.
  case_bool; [|lia]. cbn [andb mbind option_bind].
  rewrite drop_app_ge, Hi by lia.
  replace (Z.to_nat (Z.of_nat (length pre)) - length pre)%nat with 0%nat by lia.
  rewrite drop_0, <-app_assoc, take_app_le by lia. rewrite (take_ge (bytes_of s)) by lia.
  unfold VERIFY. case_bool; [|lia]. rewrite str_of_bytes_of.
  eexists; split; [done|]. rewrite to_signed_small by lia.
  split_and!; cbn; [|rewrite ?length_app; lia..|done].
  exists extra. by rewrite <-!app_assoc.
Qed.

Lemma get_string_ok s old : str_size s < 2 ^ 32 -> get_ok (fun u => get_string u old) (enc_string s) s.
Proof.
  intros Hs. unfold enc_string, get_string. pose proof (str_size_nonneg s).
  intros u pre rest Hu. rewrite <-app_assoc in Hu.
  destruct (get_uint_ok' (str_size s) ltac:(unfold in_u32; lia) _ _ _ Hu) as (u1 & -> & H1).
  cbn [mbind option_bind]. rewrite app_assoc.
  replace (u_ok u1) with true by (symmetry; apply H1).
  by apply u_rawbytes_ok.
Qed.

(** ** Vectors *)

Definition enc_vector {C : Type} (enc : C -> list ascii) (v : list C) : list ascii :=
  enc_u32 (Z.of_nat (length v)) ++ concat (map enc v).

Section Vector.
Context {C : Type} (put : marshall -> C -> option marshall)
  (get : unmarshall -> option (unmarshall * C)) (enc : C -> list ascii) (wf : C -> Prop).
Hypothesis put_ok_C : forall c, wf c -> put_ok (fun m => put m c) (enc c).
Hypothesis get_ok_C : forall c, wf c -> get_ok get (enc c) c.

Lemma put_elems_ok v : Forall wf v ->
  put_ok (fun m => foldl (fun acc c => m ← acc; put m c) (Some m) v) (concat (map enc v)).
Proof.
  intros Hv m. revert m. induction Hv as [|c v Hc Hv IH]; intros m Hm Hsz; simpl in *.
  - exists m. split; [done|]. by apply appended_nil.
  - rewrite length_app in Hsz.
    destruct (put_ok_C c Hc m Hm ltac:(lia)) as (m1 & Hput & H1). rewrite Hput.
    pose proof (appended_ind _ _ _ Hm H1).
    destruct (IH m1 (appended_inv _ _ _ H1) ltac:(lia)) as (m2 & Hm2 & H2).
    exists m2. split; [done|]. by eapply appended_app.
Qed.

Lemma put_vector_ok v : Forall wf v -> put_ok (fun m => put_vector put m v) (enc_vector enc v).
Proof.
  intros Hv. unfold put_vector, enc_vector. rewrite <-enc_u32_wrap.
  apply put_ok_bind; [apply put_uint_ok|]. by apply put_elems_ok.
Qed.

Lemma get_n_ok v acc : Forall wf v ->
  get_ok (fun u => get_n get (length v) u acc) (concat (map enc v)) (acc ++ v).
Proof.
  intros Hv. revert acc. induction Hv as [|c v Hc Hv IH]; intros acc; simpl.
  - rewrite app_nil_r. apply get_ok_ret.
  - eapply (get_ok_bind get (fun z u => get_n get (length v) u (acc ++ [z]))); [by apply get_ok_C|].
    specialize (IH (acc ++ [c])). by rewrite <-app_assoc in IH.
Qed.

Lemma get_vector_ok v : Z.of_nat (length v) < 2 ^ 32 -> Forall wf v ->
  get_ok (get_vector get) (enc_vector enc v) v.
Proof.
  intros Hl Hv. unfold get_vector, enc_vector.
  eapply (get_ok_bind get_uint (fun n u => get_n get (Z.to_nat n) u []));
    [apply get_uint_ok'; unfold in_u32; lia|].
  rewrite Nat2Z.id. by apply (get_n_ok v []).
Qed.
End Vector.

#[export] Instance Wire_string : Wire string :=
  { wput := put_string; wget u := get_string u "" }.
#[export, refine] Instance WireSpec_string : WireSpec string :=
  { wenc := enc_string; wwf s := str_size s < 2 ^ 31 }.
Proof.
  - intros s Hs. by apply put_string_ok.
  - intros s Hs. apply get_string_ok. lia.
Defined.

#[export] Instance Wire_vector `{Wire C} : Wire (list C) :=
  { wput := put_vector wput; wget := get_vector wget }.
#[export, refine] Instance WireSpec_vector `{WireSpec C} : WireSpec (list C) :=
  { wenc := enc_vector wenc; wwf v := Z.of_nat (length v) < 2 ^ 32 /\ Forall wwf v }.
Proof.
  - intros v [_ Hv]. apply (put_vector_ok _ _ wwf); [apply wput_spec|done].
  - intros v [Hl Hv]. apply (get_vector_ok _ _ wwf); [apply wget_spec|done|done].
Defined.

(** ** Headers in place *)

(** The integer types that occur as RPC arguments and results. *)
Record c_int := CInt { int_val : Z }.
Record c_uint := CUint { uint_val : Z }.
Record c_ull := CUll { ull_val : Z }.

#[export] Instance Wire_int : Wire c_int :=
  { wput m x := put_int m (int_val x); wget u := '(u, x) ← get_int u; Some (u, CInt x) }.
#[export, refine] Instance WireSpec_int : WireSpec c_int :=
  { wenc x := enc_u32 (int_val x); wwf x := in_i32 (int_val x) }.
Proof.
  - intros x _. apply put_int_ok.
  - intros [x] Hx. by apply (get_ok_map _ CInt), get_int_ok.
Defined.
#[export] Instance Wire_uint : Wire c_uint :=
  { wput m x := put_uint m (uint_val x); wget u := '(u, x) ← get_uint u; Some (u, CUint x) }.
#[export, refine] Instance WireSpec_uint : WireSpec c_uint :=
  { wenc x := enc_u32 (uint_val x); wwf x := in_u32 (uint_val x) }.
Proof.
  - intros x _. apply put_uint_ok.
  - intros [x] Hx. by apply (get_ok_map _ CUint), get_uint_ok'.
Defined.
#[export] Instance Wire_ull : Wire c_ull :=
  { wput m x := put_ull m (ull_val x); wget u := '(u, x) ← get_ull u; Some (u, CUll x) }.
#[export, refine] Instance WireSpec_ull : WireSpec c_ull :=
  { wenc x := enc_u64 (ull_val x); wwf x := in_u64 (ull_val x) }.
Proof.
  - intros x _. apply put_ull_ok.
  - intros [x] Hx. by apply (get_ok_map _ CUll), get_ull_ok.
Defined.

(** Several arguments: [rpcc::call] marshals [a1], [a2], ... one after the other
    and the handlers that [rpcs::reg] makes unmarshal them in the same order;
    longer argument lists are nested pairs. *)
Definition put_pair {A B : Type} (puta : marshall -> A -> option marshall)
    (putb : marshall -> B -> option marshall) (m : marshall) (p : A * B) : option marshall :=
  m ← puta m p.1; putb m p.2.
Definition get_pair {A B : Type} (geta : unmarshall -> option (unmarshall * A))
    (getb : unmarshall -> option (unmarshall * B)) (u : unmarshall) : option (unmarshall * (A * B)) :=
  '(u, a) ← geta u; '(u, b) ← getb u; Some (u, (a, b)).

#[export] Instance Wire_pair `{Wire A, Wire B} : Wire (A * B) :=
  { wput := put_pair wput wput; wget := get_pair wget wget }.
#[export, refine] Instance WireSpec_pair `{WireSpec A, WireSpec B} : WireSpec (A * B) :=
  { wenc p := wenc p.1 ++ wenc p.2; wwf p := wwf p.1 /\ wwf p.2 }.
Proof.
  - intros [a b] [Ha Hb]. apply put_ok_bind; by apply wput_spec.
  - intros [a b] [Ha Hb]. eapply (get_ok_bind _ (fun _ _ => _)); [by apply wget_spec|].
    by apply (get_ok_map _ (pair a)), wget_spec.
Defined.

(** [m] holds the bytes [pre ++ mid ++ post] and writes from [mid] on. *)
Definition m_split (m : marshall) (pre mid post : list ascii) : Prop :=
  m_buf m = Some (pre ++ mid ++ post) /\ m_capa m = Z.of_nat (length (pre ++ mid ++ post)) /\
  m_ind m = Z.of_nat (length pre) /\ m_capa m <= 2 ^ 30.

Lemma m_rawbyte_inplace m pre c mid post x : m_split m pre (c :: mid) post ->
  exists m', m_rawbyte m x = Some m' /\ m_split m' (pre ++ [char_of x]) mid post.
Proof.
  intros (Hb & Hc & Hi & Hm). unfold m_rawbyte.
  rewrite length_app in Hc. simpl in Hc. rewrite length_app in Hc.
  destruct (Z.leb_spec (m_capa m) (m_ind m)); [lia|].
  cbn [mbind option_bind]. rewrite Hb. cbn [mbind option_bind]. unfold store.
  rewrite length_app. simpl. rewrite length_app, Hi.
  destruct (Z.leb_spec 0 (Z.of_nat (length pre))); [|lia].
  case_bool; [|lia]. cbn [andb mbind option_bind].
  rewrite int32_ok by (unfold in_i32; lia). cbn [mbind option_bind].
  eexists; split; [done|]. split_and!; cbn.
  - rewrite Nat2Z.id. rewrite insert_app_r_alt, Nat.sub_diag by lia. cbn. by rewrite <-app_assoc.
  - rewrite !length_app. simpl. lia.
  - rewrite length_app. simpl. lia.
  - done.
Qed.

Lemma m_pack_inplace m pre c3 c2 c1 c0 mid post x :
  m_split m pre (c3 :: c2 :: c1 :: c0 :: mid) post ->
  exists m', m_pack m x = Some m' /\ m_split m' (pre ++ enc_u32 x) mid post.
Proof.
  intros H. unfold m_pack, enc_u32.
  destruct (m_rawbyte_inplace _ _ _ _ _ (Z.land (Z.shiftr x 24) 255) H) as (m1 & -> & H1).
  destruct (m_rawbyte_inplace _ _ _ _ _ (Z.land (Z.shiftr x 16) 255) H1) as (m2 & Hm2 & H2).
  destruct (m_rawbyte_inplace _ _ _ _ _ (Z.land (Z.shiftr x 8) 255) H2) as (m3 & Hm3 & H3).
  destruct (m_rawbyte_inplace _ _ _ _ _ (Z.land x 255) H3) as (m4 & Hm4 & H4).
  exists m4. cbn [mbind option_bind]. rewrite Hm2. cbn [mbind option_bind]. rewrite Hm3.
  cbn [mbind option_bind]. split; [done|].
  rewrite !char_of_land, <-!app_assoc in H4. done.
Qed.

Definition enc_req_header (h : req_header) : list ascii :=
  enc_u32 (rq_xid h) ++ enc_u32 (rq_proc h) ++ enc_u32 (rq_clt_nonce h) ++
  enc_u32 (rq_srv_nonce h) ++ enc_u32 (rq_xid_rep h).
Definition enc_reply_header (h : reply_header) : list ascii :=
  enc_u32 (rp_xid h) ++ enc_u32 (rp_ret h).

Definition req_header_wf (h : req_header) : Prop :=
  in_i32 (rq_xid h) /\ in_i32 (rq_proc h) /\ in_u32 (rq_clt_nonce h) /\
  in_u32 (rq_srv_nonce h) /\ in_i32 (rq_xid_rep h).
Definition reply_header_wf (h : reply_header) : Prop := in_i32 (rp_xid h) /\ in_i32 (rp_ret h).

Lemma enc_u32_signed x : enc_u32 (to_signed 32 x) = enc_u32 x.
Proof. by rewrite <-enc_u32_wrap, wrap_to_signed, enc_u32_wrap. Qed.

Lemma m_pack_split m pre mid post x : m_split m pre mid post -> (4 <= length mid)%nat ->
  exists m', m_pack m x = Some m' /\ m_split m' (pre ++ enc_u32 x) (drop 4 mid) post.
Proof.
  intros H Hl. destruct mid as [|c3 [|c2 [|c1 [|c0 mid]]]]; simpl in Hl; try lia.
  by eapply m_pack_inplace.
Qed.

(** A buffer is its size field, the room for the request header, the payload
    and the room that is left. *)
Lemma m_inv_split m pre24 payload : m_inv m -> m_content m = pre24 ++ payload ->
  length pre24 = 24%nat ->
  exists sz hdr extra, m_split (m_with_ind m sizeof_rpc_sz_t) sz hdr (payload ++ extra) /\
    length sz = 4%nat /\ length hdr = 20%nat.
Proof.
  intros Hm Hc Hp. pose proof (m_content_length m Hm) as Hlen.
  rewrite Hc, length_app, Hp in Hlen. destruct Hm as (b & Hb & Hl & Hi & Hcap).
  unfold m_content in Hc. rewrite Hb in Hc.
  assert (Hb' : b = pre24 ++ payload ++ drop (Z.to_nat (m_ind m)) b).
  { by rewrite app_assoc, <-Hc, take_drop. }
  exists (take 4 pre24), (drop 4 pre24), (drop (Z.to_nat (m_ind m)) b).
  assert (Hb'' : b = take 4 pre24 ++ drop 4 pre24 ++ payload ++ drop (Z.to_nat (m_ind m)) b)
    by by rewrite (app_assoc (take 4 pre24)), take_drop.
  rewrite length_take, length_drop, Hp. split_and!; [|done..].
  split_and!; cbn; rewrite <-?Hb''; [done|done| |lia].
  by rewrite length_take, Hp.
Qed.

Lemma m_split_buf m pre mid post : m_split m pre mid post -> m_buf m = Some (pre ++ mid ++ post).
Proof. by intros [? _]. Qed.

(** Packing the header in front of a payload leaves the payload where it is. *)
Lemma pack_req_header_spec m h payload pre24 : m_inv m -> m_content m = pre24 ++ payload ->
  length pre24 = 24%nat ->
  exists m' sz extra, pack_req_header m h = Some m' /\ length sz = 4%nat /\
    m_buf m' = Some (sz ++ (enc_req_header h ++ payload) ++ extra) /\ m_ind m' = m_ind m.
Proof.
  intros Hm Hc Hp.
  destruct (m_inv_split m _ _ Hm Hc Hp) as (sz & hdr & extra & Hs & Hsz & Hhdr).
  unfold pack_req_header.
  destruct (m_pack_split _ _ _ _ (rq_xid h) Hs ltac:(lia)) as (m1 & -> & H1).
  destruct (m_pack_split _ _ _ _ (rq_proc h) H1 ltac:(rewrite length_drop; lia)) as (m2 & Hm2 & H2).
  destruct (m_pack_split _ _ _ _ (to_signed 32 (rq_clt_nonce h)) H2 ltac:(rewrite !length_drop; lia))
    as (m3 & Hm3 & H3).
  destruct (m_pack_split _ _ _ _ (to_signed 32 (rq_srv_nonce h)) H3 ltac:(rewrite !length_drop; lia))
    as (m4 & Hm4 & H4).
  destruct (m_pack_split _ _ _ _ (rq_xid_rep h) H4 ltac:(rewrite !length_drop; lia))
    as (m5 & Hm5 & H5).
  cbn [mbind option_bind]. rewrite Hm2. cbn [mbind option_bind]. rewrite Hm3.
  cbn [mbind option_bind]. rewrite Hm4. cbn [mbind option_bind]. rewrite Hm5.
  cbn [mbind option_bind]. apply m_split_buf in H5.
  rewrite !drop_drop, (drop_ge hdr), !enc_u32_signed in H5 by lia.
  eexists _, sz, extra. split; [done|]. split; [done|]. cbn. split; [|done].
  rewrite H5. unfold enc_req_header. by rewrite <-!app_assoc.
Qed.

Lemma pack_reply_header_spec m h payload pre24 : m_inv m -> m_content m = pre24 ++ payload ->
  length pre24 = 24%nat ->
  exists m' sz mid extra, pack_reply_header m h = Some m' /\ length sz = 4%nat /\
    length mid = 12%nat /\
    m_buf m' = Some (sz ++ (enc_reply_header h ++ mid ++ payload) ++ extra) /\ m_ind m' = m_ind m.
Proof.
  intros Hm Hc Hp.
  destruct (m_inv_split m _ _ Hm Hc Hp) as (sz & hdr & extra & Hs & Hsz & Hhdr).
  unfold pack_reply_header.
  destruct (m_pack_split _ _ _ _ (rp_xid h) Hs ltac:(lia)) as (m1 & -> & H1).
  destruct (m_pack_split _ _ _ _ (rp_ret h) H1 ltac:(rewrite length_drop; lia)) as (m2 & Hm2 & H2).
  cbn [mbind option_bind]. rewrite Hm2. cbn [mbind option_bind]. apply m_split_buf in H2.
  rewrite !drop_drop in H2.
  eexists _, sz, (drop 8 hdr), extra. split; [done|]. split; [done|].
  split; [rewrite length_drop; lia|]. cbn. split; [|done].
  rewrite H2. unfold enc_reply_header. by rewrite <-!app_assoc.
Qed.

(** ** A whole request and a whole reply *)

Lemma wput_new_content `{WireSpec A} junk (a : A) : wwf a ->
  RPC_HEADER_SZ + Z.of_nat (length (wenc a)) <= MAX_CONTENT ->
  exists m, wput (marshall_new junk) a = Some m /\ m_inv m /\
    m_content m = replicate 24 junk ++ wenc a /\
    m_ind m = RPC_HEADER_SZ + Z.of_nat (length (wenc a)).
Proof.
  intros Hw Hsz. pose proof (marshall_new_inv junk) as Hn.
  destruct (wput_spec a Hw (marshall_new junk) Hn Hsz) as (m & Hp & Happ).
  exists m. split_and!; [done|apply Happ| |by apply (appended_ind _ _ _ Hn Happ)].
  destruct Happ as [_ ->]. f_equal.
Qed.

(** Reading never changes the buffer or its size. *)
Definition same_buffer {A} (u : unmarshall) (r : option (unmarshall * A)) : Prop :=
  match r with Some (u', _) => u_buf u = u_buf u' /\ u_sz u = u_sz u' | None => True end.

Lemma same_buffer_bind {A B} (f : unmarshall -> option (unmarshall * A))
    (g : A -> unmarshall -> option (unmarshall * B)) u :
  same_buffer u (f u) -> (forall u' a, same_buffer u' (g a u')) ->
  same_buffer u ('(u', a) ← f u; g a u').
Proof.
  unfold same_buffer. intros Hf Hg. destruct (f u) as [[u1 a]|]; cbn; [|done].
  specialize (Hg u1 a). destruct (g a u1) as [[u2 b]|]; [|done]. destruct Hf, Hg. split; congruence.
Qed.

Lemma u_byte_frame u : same_buffer u (u_byte u).
Proof.
  unfold u_byte, u_rawbyte, same_buffer. case_bool; cbn; [done|].
  destruct (u_buf u) eqn:Hb; cbn; [|done]. destruct (load _ _); cbn; [|done]. done.
Qed.

Lemma u_unpack_frame u : same_buffer u (u_unpack u).
Proof.
  unfold u_unpack. do 4 (apply (same_buffer_bind u_byte (fun _ _ => _)); [apply u_byte_frame|intros]).
  done.
Qed.

Lemma unpack_req_header_ok h : req_header_wf h -> forall sz payload extra n,
  length sz = 4%nat -> n = Z.of_nat (length (sz ++ enc_req_header h ++ payload)) -> n < 2 ^ 31 ->
  exists u, unpack_req_header (unmarshall_new (sz ++ (enc_req_header h ++ payload) ++ extra) n)
    = Some (u, h) /\ u_at u (sz ++ enc_req_header h) payload.
Proof.
  intros (Hx & Hp & Hc & Hs & Hr) sz payload extra n Hsz Hn Hlt.
  unfold unpack_req_header.
  assert (Hu : u_at (u_with_ind (unmarshall_new (sz ++ (enc_req_header h ++ payload) ++ extra) n)
    sizeof_rpc_sz_t) sz (enc_req_header h ++ payload)).
  { split_and!; cbn; [by eexists|by rewrite Hsz|by rewrite Hn, length_app|done|done]. }
  revert Hu. generalize (u_with_ind (unmarshall_new (sz ++ (enc_req_header h ++ payload) ++ extra) n)
    sizeof_rpc_sz_t). intros u Hu. unfold enc_req_header in *. rewrite <-!app_assoc in Hu.
  assert (Hsig : forall x, in_u32 x -> in_i32 (to_signed 32 x) /\ wrap 32 (to_signed 32 x) = x).
  { intros x Hx'. rewrite wrap_to_signed, wrap_small by done. split; [|done].
    unfold in_u32, in_i32 in *. unfold to_signed. rewrite wrap_small by done. case_bool; lia. }
  destruct (Hsig _ Hc) as [Hc1 Hc2]. destruct (Hsig _ Hs) as [Hs1 Hs2].
  rewrite <-(enc_u32_signed (rq_clt_nonce h)), <-(enc_u32_signed (rq_srv_nonce h)) in Hu.
  destruct (u_unpack_ok _ Hx _ _ _ Hu) as (u1 & -> & H1).
  destruct (u_unpack_ok _ Hp _ _ _ H1) as (u2 & Hu2 & H2).
  destruct (u_unpack_ok _ Hc1 _ _ _ H2) as (u3 & Hu3 & H3).
  destruct (u_unpack_ok _ Hs1 _ _ _ H3) as (u4 & Hu4 & H4).
  destruct (u_unpack_ok _ Hr _ _ _ H4) as (u5 & Hu5 & H5).
  cbn [mbind option_bind]. rewrite Hu2. cbn [mbind option_bind]. rewrite Hu3.
  cbn [mbind option_bind]. rewrite Hu4. cbn [mbind option_bind]. rewrite Hu5.
  cbn [mbind option_bind]. rewrite Hc2, Hs2. eexists; split; [by destruct h|].
  rewrite !enc_u32_signed, <-!app_assoc in H5.
  destruct H5 as (? & Hi & ? & ? & ?). split_and!; [done| |done..].
  cbn. rewrite length_app, Hsz. done.
Qed.

Lemma unpack_reply_header_ok h : reply_header_wf h -> forall sz rest extra n,
  length sz = 4%nat -> n = Z.of_nat (length (sz ++ enc_reply_header h ++ rest)) -> n < 2 ^ 31 ->
  exists u, unpack_reply_header (unmarshall_new (sz ++ (enc_reply_header h ++ rest) ++ extra) n)
    = Some (u, h) /\ u_buf u = Some (sz ++ (enc_reply_header h ++ rest) ++ extra) /\ u_sz u = n /\
    u_ok u = true.
Proof.
  intros (Hx & Hr) sz rest extra n Hsz Hn Hlt.
  unfold unpack_reply_header.
  set (b := sz ++ (enc_reply_header h ++ rest) ++ extra) in *.
  assert (Hu : u_at (u_with_ind (unmarshall_new b n) sizeof_rpc_sz_t) sz (enc_reply_header h ++ rest)).
  { split_and!; cbn; [by eexists|by rewrite Hsz|by rewrite Hn, length_app|done|done]. }
  pose proof (u_unpack_frame (u_with_ind (unmarshall_new b n) sizeof_rpc_sz_t)) as Hf1.
  revert Hu. unfold enc_reply_header. rewrite <-!app_assoc. intros Hu.
  destruct (u_unpack_ok _ Hx _ _ _ Hu) as (u1 & Hu1 & H1). rewrite Hu1 in *.
  pose proof (u_unpack_frame u1) as Hf2.
  destruct (u_unpack_ok _ Hr _ _ _ H1) as (u2 & Hu2 & H2).
  cbn [mbind option_bind]. rewrite Hu2 in *.
  cbn [mbind option_bind]. eexists; split; [by destruct h|].
  cbn in *. destruct Hf1, Hf2. split_and!; [congruence..|apply H2].
Qed.

Lemma okdone_at u pre : u_at u pre [] -> okdone u = true.
Proof.
  intros (_ & Hi & Hs & _ & Ho). unfold okdone. rewrite Ho. simpl.
  apply Z.eqb_eq. rewrite Hi, Hs. simpl. lia.
Qed.

(** A value sent as a string: [rep << a; rep.str()] on one side, [unmarshall u(s);
    u >> a] on the other. *)
Lemma string_wire {A} (f : marshall -> option marshall) (g : unmarshall -> option (unmarshall * A)) junk junk' l a :
  put_ok f l -> get_ok g l a -> RPC_HEADER_SZ + Z.of_nat (length l) <= MAX_CONTENT ->
  exists m u u', f (marshall_new junk) = Some m /\ m_str m = Some (str_of l) /\
    take_content junk' (str_of l) = Some u /\ g u = Some (u', a) /\ okdone u' = true.
Proof.
  intros Hf Hg Hsz. unfold MAX_CONTENT in *. change RPC_HEADER_SZ with 24 in *.
  pose proof (marshall_new_inv junk) as Hn.
  destruct (Hf (marshall_new junk) Hn Hsz) as (m & Hp & Happ).
  pose proof (appended_ind _ _ _ Hn Happ) as Hind. change (m_ind (marshall_new junk)) with 24 in Hind.
  destruct Happ as [(b & Hb & Hlen & Hi & Hc) Hcont].
  unfold m_content in Hcont at 1. rewrite Hb in Hcont.
  change (m_content (marshall_new junk)) with (replicate 24 junk) in Hcont.
  assert (Hstr : m_str m = Some (str_of l)).
  { unfold m_str, mem_read. rewrite Hb. cbn. change RPC_HEADER_SZ with 24.
    rewrite (proj2 (Z.leb_le _ _)), (proj2 (Z.leb_le 0 _)), (proj2 (Z.leb_le (24 + _) _)) by lia. cbn. do 2 f_equal.
    rewrite take_drop_commute. replace (24 + _)%nat with (Z.to_nat (m_ind m)) by lia.
    rewrite Hcont. by rewrite drop_app_length' by done. }
  assert (Hl : Z.of_nat (length l) = str_size (str_of l)).
  { by rewrite <- length_bytes_of, bytes_of_str_of. }
  set (buf := malloc junk' (str_size (str_of l) + 24)).
  assert (Hbuf : Z.of_nat (length buf) = str_size (str_of l) + 24).
  { unfold buf, malloc. rewrite length_replicate. lia. }
  destruct (memcpy_in_spec buf 24 l) as (b' & Hb' & Hlb' & Htk); [lia..|].
  rewrite take_ge in Htk by lia.
  set (u := Unmarshall (Some b') (str_size (str_of l) + 24) 24 true).
  assert (Hu : u_at u (take 24 buf) (l ++ [])).
  { unfold u_at, u. cbn [u_buf u_ind u_sz u_ok]. rewrite app_nil_r, length_take. split_and!; [|lia..|done].
    exists []. rewrite app_nil_r. by rewrite Htk. }
  destruct (Hg u _ _ Hu) as (u' & Hgu & Hu'). exists m, u, u'. split_and!; try done; [|by eapply okdone_at].
  unfold take_content. change RPC_HEADER_SZ with 24. rewrite int32_ok by (unfold in_i32; lia). cbn.
  fold buf. rewrite Hl in Hb'. by rewrite bytes_of_str_of, Hb'.
Qed.

(** A request survives the wire: what [rpcc::call] marshals and [rpcc::call1]
    packs is what [rpcs::dispatch] unpacks and the handler unmarshals, with
    nothing left over ([okdone]). *)
Lemma request_wire `{WireSpec A} junk (h : req_header) (a : A) :
  req_header_wf h -> wwf a ->
  RPC_HEADER_SZ + Z.of_nat (length (wenc a)) <= MAX_CONTENT ->
  exists m m' b u u', wput (marshall_new junk) a = Some m /\ pack_req_header m h = Some m' /\
    m_buf m' = Some b /\ unpack_req_header (unmarshall_new b (m_ind m')) = Some (u, h) /\
    u_ok u = true /\ wget u = Some (u', a) /\ okdone u' = true.
Proof.
  intros Hh Ha Hsz.
  destruct (wput_new_content junk a Ha Hsz) as (m & Hw & Hm & Hc & Hi).
  destruct (pack_req_header_spec m h _ _ Hm Hc (length_replicate _ _))
    as (m' & szf & extra & Hp & Hl & Hb & Hi').
  destruct (unpack_req_header_ok h Hh szf (wenc a) extra
    (RPC_HEADER_SZ + Z.of_nat (length (wenc a))) Hl) as (u & Hu1 & Hu).
  { rewrite !length_app, Hl. unfold enc_req_header. rewrite !length_app. simpl.
    change RPC_HEADER_SZ with 24. lia. }
  { unfold MAX_CONTENT in Hsz. lia. }
  rewrite <-(app_nil_r (wenc a)) in Hu.
  destruct (wget_spec a Ha _ _ _ Hu) as (u' & Hg & Hu').
  exists m, m', (szf ++ (enc_req_header h ++ wenc a) ++ extra), u, u'.
  rewrite Hi', Hi. split_and!; try done; [apply Hu|by eapply okdone_at].
Qed.

(** A reply survives the wire: what a handler returns is what the caller gets,
    through [pack_reply_header], [got_pdu], [take_in] and [call_m], although only
    eight of the twenty header bytes of a reply are ever written. *)
Lemma reply_wire `{WireSpec A} junk (h : reply_header) (r : A) :
  reply_header_wf h -> wwf r ->
  RPC_HEADER_SZ + Z.of_nat (length (wenc r)) <= MAX_CONTENT ->
  exists m m' b u u', wput (marshall_new junk) r = Some m /\ pack_reply_header m h = Some m' /\
    m_buf m' = Some b /\ unpack_reply_header (unmarshall_new b (m_ind m')) = Some (u, h) /\
    u_ok u = true /\ wget (take_in u) = Some (u', r) /\ okdone u' = true.
Proof.
  intros Hh Ha Hsz.
  destruct (wput_new_content junk r Ha Hsz) as (m & Hw & Hm & Hc & Hi).
  destruct (pack_reply_header_spec m h _ _ Hm Hc (length_replicate _ _))
    as (m' & szf & mid & extra & Hp & Hl & Hmid & Hb & Hi').
  assert (Hn : RPC_HEADER_SZ + Z.of_nat (length (wenc r)) =
    Z.of_nat (length (szf ++ enc_reply_header h ++ mid ++ wenc r))).
  { rewrite !length_app, Hl, Hmid. unfold enc_reply_header. rewrite !length_app. simpl.
    change RPC_HEADER_SZ with 24. lia. }
  unfold MAX_CONTENT in Hsz.
  destruct (unpack_reply_header_ok h Hh szf (mid ++ wenc r) extra _ Hl Hn ltac:(lia))
    as (u & Hu1 & Hbuf & Hs & Hok).
  assert (Hu : u_at (take_in u) (szf ++ enc_reply_header h ++ mid) (wenc r ++ [])).
  { rewrite app_nil_r. split_and!; cbn [take_in u_buf u_ind u_sz u_ok].
    - exists extra. rewrite Hbuf. by rewrite <-!app_assoc.
    - rewrite !length_app in *. lia.
    - rewrite Hs, Hn. rewrite !length_app. lia.
    - lia.
    - rewrite Hs. change RPC_HEADER_SZ with 24 in *. case_bool; [done|lia]. }
  destruct (wget_spec r Ha _ _ _ Hu) as (u' & Hg & Hu').
  eexists m, m', _, u, u'. rewrite Hi', Hi. split_and!; try done. by eapply okdone_at.
Qed.

(** A length field that passes the bound check although it is far too large. *)
Definition wrapping_length : Z := 2 ^ 32 - 28.

(**  The bound check of [unmarshall::rawbytes] can wrap around: a 28-byte
    message whose length field says 2^32 - 28 passes the check [_ind+n <= _sz]
    and makes the code read far outside the message (undefined behaviour). *)
Theorem rawbytes_overflow_reads_out_of_bounds :
  get_string (Unmarshall (Some (replicate 24 "000"%char ++ enc_u32 wrapping_length)) 28
    RPC_HEADER_SZ true) "" = None.
Proof. vm_compute. reflexivity. Qed.

(** C36.  Otherwise the read side is memory safe: on a buffer that really holds
    [_sz] bytes, reading a string never leaves the buffer when the sum of the read
    position and the length field stays below 2^32; a length that is too large
    only clears the [ok] flag. *)
Theorem rawbytes_safe u b s n : u_buf u = Some b -> u_sz u = Z.of_nat (length b) ->
  0 <= u_ind u -> 0 <= n -> u_ind u + n < 2 ^ 32 -> u_sz u < 2 ^ 31 ->
  exists u' s', u_rawbytes u s n = Some (u', s') /\
    (u_ind u + n <= u_sz u -> s' = str_of (take (Z.to_nat n) (drop (Z.to_nat (u_ind u)) b))) /\
    (u_sz u < u_ind u + n -> u_ok u' = false /\ s' = s).
Proof.
  intros Hb Hs Hi Hn Hlt Hsz. unfold u_rawbytes. rewrite !wrap_small by lia.
  destruct (Z.ltb_spec (u_sz u) (u_ind u + n)).
  { eexists _, _. split_and!; [done|lia|done]. }
  rewrite Hb. cbn [mbind option_bind]. unfold mem_read.
  destruct (Z.leb_spec 0 (u_ind u)), (Z.leb_spec 0 n); try lia.
  case_bool; [|lia]. cbn [andb mbind option_bind]. unfold VERIFY.
  rewrite length_take, length_drop. case_bool; [|lia].
  eexists _, _. split_and!; [done|done|lia].
Qed.

Lemma rawbytes_safe_witness :
  exists u' s', u_rawbytes (Unmarshall (Some ["a"; "b"; "c"]%char) 3 1 true) "" 2 = Some (u', s') /\
    (1 + 2 <= 3 -> s' = "bc"%string) /\ (3 < 1 + 2 -> u_ok u' = false /\ s' = ""%string).
Proof.
  apply (rawbytes_safe (Unmarshall (Some ["a"; "b"; "c"]%char) 3 1 true) ["a"; "b"; "c"]%char "" 2);
    by vm_compute.
Defined.
