(* ===== verification/MarshallMap.v ===== *)
(** * Marshalling maps

    Models the operators of src/mit_6.824/rpc/marshall.h for [std::map]: the size and then the
    pairs in the order of the keys; reading inserts them into an empty map one by one.  The
    order of the keys is that of their type, so the list of the pairs is a parameter, of which
    only that it lists the map is used. *)

From Stdlib Require Import ZArith Lia Ascii String.
From stdpp Require Import base list strings gmap sorting.
From S2P Require Import Prelude Marshall.

Local Open Scope Z_scope.
Local Open Scope cpp_scope.

Section MapOperators.
Context `{Countable A} {B : Type} (iter : gmap A B -> list (A * B)).

(** [m << i->first << i->second] *)
Definition put_entry (put_a : marshall -> A -> option marshall) (put_b : marshall -> B -> option marshall) (m : marshall) (x : A * B) : option marshall :=
  m ← put_a m x.1; put_b m x.2.
Definition put_map (put_a : marshall -> A -> option marshall) (put_b : marshall -> B -> option marshall) (m : marshall) (d : gmap A B) : option marshall :=
  m ← put_uint m (wrap 32 (Z.of_nat (size d)));
  foldl (fun acc x => m ← acc; put_entry put_a put_b m x) (Some m) (iter d).

(** [u >> a >> b; d[a] = b], [n] times. *)
Fixpoint get_entries (get_a : unmarshall -> option (unmarshall * A)) (get_b : unmarshall -> option (unmarshall * B)) (n : nat) (u : unmarshall) (d : gmap A B)
    : option (unmarshall * gmap A B) :=
  match n with
  | O => Some (u, d)
  | S n => '(u, a) ← get_a u; '(u, b) ← get_b u; get_entries get_a get_b n u (<[a := b]> d)
  end.
Definition get_map (get_a : unmarshall -> option (unmarshall * A)) (get_b : unmarshall -> option (unmarshall * B)) (u : unmarshall) : option (unmarshall * gmap A B) :=
  '(u, n) ← get_uint u; get_entries get_a get_b (Z.to_nat n) u ∅.

(** ** Round trip *)

Context (put_a : marshall -> A -> option marshall) (put_b : marshall -> B -> option marshall).
Context (get_a : unmarshall -> option (unmarshall * A)) (get_b : unmarshall -> option (unmarshall * B)).
Context (enc_a : A -> list ascii) (enc_b : B -> list ascii) (wf_a : A -> Prop) (wf_b : B -> Prop).
Context (Hpa : forall a, wf_a a -> put_ok (fun m => put_a m a) (enc_a a)) (Hpb : forall b, wf_b b -> put_ok (fun m => put_b m b) (enc_b b)).
Context (Hga : forall a, wf_a a -> get_ok get_a (enc_a a) a) (Hgb : forall b, wf_b b -> get_ok get_b (enc_b b) b).
Context (Hiter : forall d, iter d ≡ₚ map_to_list d).

Definition enc_entry (x : A * B) : list ascii := enc_a x.1 ++ enc_b x.2.
Definition enc_map (d : gmap A B) : list ascii := enc_u32 (Z.of_nat (size d)) ++ concat (map enc_entry (iter d)).
Definition wf_entry (x : A * B) : Prop := wf_a x.1 /\ wf_b x.2.
Definition wf_map (d : gmap A B) : Prop := Z.of_nat (size d) < 2 ^ 32 /\ map_Forall (fun a b => wf_a a /\ wf_b b) d.

Lemma iter_wf d : wf_map d -> Forall wf_entry (iter d).
Proof using Hiter. intros [_ Hd]. rewrite Hiter. apply Forall_forall. intros [a b] Hin%elem_of_map_to_list. by apply (Hd a b). Qed.

Lemma put_map_ok d : wf_map d -> put_ok (fun m => put_map put_a put_b m d) (enc_map d).
Proof using Hpa Hpb Hiter.
  intros Hd. unfold put_map, enc_map. rewrite <- enc_u32_wrap. apply put_ok_bind; [apply put_uint_ok|].
  apply (put_elems_ok _ _ wf_entry); [|by apply iter_wf]. intros x [Hx1 Hx2]. unfold put_entry, enc_entry. apply put_ok_bind; [by apply Hpa|by apply Hpb].
Qed.

Lemma get_entries_ok l : forall d, Forall wf_entry l ->
  get_ok (fun u => get_entries get_a get_b (length l) u d) (concat (map enc_entry l)) (foldl (fun d x => <[x.1 := x.2]> d) d l).
Proof using Hga Hgb.
  induction l as [|[a b] l IH]; intros d Hl; cbn [length get_entries map concat foldl]; [apply get_ok_ret|]. apply Forall_cons in Hl as [[Ha Hb] Hl].
  unfold enc_entry. cbn [fst snd]. rewrite <- app_assoc. apply (get_ok_bind get_a (fun a u => '(u, b) ← get_b u; get_entries get_a get_b (length l) u (<[a := b]> d)) _ _ a); [by apply Hga|].
  apply (get_ok_bind get_b (fun b u => get_entries get_a get_b (length l) u (<[a := b]> d)) _ _ b); [by apply Hgb|]. by apply (IH (<[a := b]> d)).
Qed.

(** Inserting pairs of different keys one by one, in any order, makes the map. *)
Lemma insert_all_entries (l : list (A * B)) : NoDup l.*1 -> forall d : gmap A B, (forall a, a ∈ l.*1 -> d !! a = None) ->
  foldl (fun d x => <[x.1 := x.2]> d) d l = list_to_map l ∪ d.
Proof using.
  induction l as [|[a b] l IH]; intros Hn d Hd; cbn [foldl list_to_map foldr]; [by rewrite (left_id_L ∅ (∪))|]. rewrite fmap_cons in Hn, Hd. cbn [fst snd] in *. apply NoDup_cons in Hn as [Ha Hn].
  rewrite IH; [|done|].
  - rewrite <- insert_union_r, insert_union_l; [done|]. by apply not_elem_of_list_to_map.
  - intros a' Ha'. rewrite lookup_insert_ne by (intros ->; done). apply Hd. by right.
Qed.

Lemma get_map_ok d : wf_map d -> get_ok (get_map get_a get_b) (enc_map d) d.
Proof using Hga Hgb Hiter.
  intros Hd. assert (Hlen : length (iter d) = size d) by (by rewrite Hiter, length_map_to_list). assert (Hn : NoDup (iter d).*1) by (rewrite Hiter; apply NoDup_fst_map_to_list).
  unfold get_map, enc_map. eapply (get_ok_bind get_uint (fun n u => get_entries get_a get_b (Z.to_nat n) u ∅)); [apply get_uint_ok'; destruct Hd; unfold in_u32; lia|].
  rewrite Nat2Z.id, <- Hlen. pose proof (get_entries_ok (iter d) ∅ (iter_wf d Hd)) as Hg. rewrite insert_all_entries, (right_id_L ∅ (∪)) in Hg; [|done|intros; apply lookup_empty].
  replace (list_to_map (iter d)) with d in Hg; [exact Hg|]. rewrite <- (list_to_map_to_list d) at 1. by apply list_to_map_proper; [apply NoDup_fst_map_to_list|].
Qed.
End MapOperators.

(** ** A map with its keys in order *)

Definition by_key (x y : Z * Z) : Prop := x.1 <= y.1.
#[export] Instance by_key_dec : RelDecision by_key.
Proof. intros x y. unfold by_key. apply _. Defined.
(** The order in which [std::map<unsigned, unsigned>] is listed. *)
Definition in_order (d : gmap Z Z) : list (Z * Z) := merge_sort by_key (map_to_list d).

Lemma in_order_lists d : in_order d ≡ₚ map_to_list d.
Proof. apply merge_sort_Permutation. Qed.

Example three_entries : put_map in_order put_uint put_uint (marshall_new "000"%char) {[7 := 70; 3 := 30; 5 := 50]} =
  foldl (fun acc x => m ← acc; put_uint m x) (Some (marshall_new "000"%char)) [3; 3; 30; 5; 50; 7; 70].
Proof. vm_compute. reflexivity. Qed.
