(* ===== verification/Protocols.v ===== *)
(** * The message types of the RPC protocols

    Models src/mit_6.824/paxos_protocol.h, rsm_protocol.h and
    extent_protocol.h: the structs that travel in RPCs and their marshalling
    operators, each an instance of the wire interface of Marshall.v. *)

From Stdlib Require Import ZArith Lia Ascii String.
From stdpp Require Import base list strings.
From S2P Require Import Prelude Marshall.

Local Open Scope Z_scope.

#[local] Opaque enc_u32 enc_u64 enc_bool enc_string.

Create HintDb wire.
#[export] Hint Resolve put_uint_ok put_int_ok put_ull_ok put_bool_ok put_string_ok : wire.
#[export] Hint Resolve get_uint_ok' get_int_ok get_ull_ok get_bool_ok get_string_ok : wire.
#[export] Hint Extern 1 (_ < _) => lia : wire.

(** Field by field: the operators of a struct marshal its fields in order. *)
Ltac put_fields :=
  repeat first [ solve [eauto with wire] | apply put_ok_bind; [solve [eauto with wire]|] ].
Ltac get_fields :=
  repeat first
    [ apply (get_ok_map _ _); solve [eauto with wire]
    | eapply (get_ok_bind _ (fun _ _ => _)); [solve [eauto with wire]|cbv beta] ].

(** ** paxos_protocol.h *)

Record prop_t := Prop_t { pn : Z; pm : string }.
#[export] Instance prop_t_eq_dec : EqDecision prop_t.
Proof. solve_decision. Defined.

Module paxos_protocol.
Definition OK : Z := 0.
Definition ERR : Z := 1.
Record preparearg := PrepareArg { pa_instance : Z; pa_n : prop_t }.
Record prepareres := PrepareRes {
  pr_oldinstance : bool; pr_accept : bool; pr_n_a : prop_t; pr_v_a : string }.
Record acceptarg := AcceptArg { aa_instance : Z; aa_n : prop_t; aa_v : string }.
Record decidearg := DecideArg { da_instance : Z; da_v : string }.
End paxos_protocol.
Import paxos_protocol.

Definition put_prop_t (m : marshall) (a : prop_t) : option marshall :=
  m ← put_uint m (pn a); put_string m (pm a).
Definition get_prop_t (u : unmarshall) : option (unmarshall * prop_t) :=
  '(u, n) ← get_uint u; '(u, m) ← get_string u ""; Some (u, Prop_t n m).

Definition put_preparearg (m : marshall) (a : preparearg) : option marshall :=
  m ← put_uint m (pa_instance a); put_prop_t m (pa_n a).
Definition get_preparearg (u : unmarshall) : option (unmarshall * preparearg) :=
  '(u, i) ← get_uint u; '(u, n) ← get_prop_t u; Some (u, PrepareArg i n).

Definition put_prepareres (m : marshall) (r : prepareres) : option marshall :=
  m ← put_bool m (pr_oldinstance r); m ← put_bool m (pr_accept r);
  m ← put_prop_t m (pr_n_a r); put_string m (pr_v_a r).
Definition get_prepareres (u : unmarshall) : option (unmarshall * prepareres) :=
  '(u, o) ← get_bool u; '(u, a) ← get_bool u; '(u, n) ← get_prop_t u;
  '(u, v) ← get_string u ""; Some (u, PrepareRes o a n v).

Definition put_acceptarg (m : marshall) (a : acceptarg) : option marshall :=
  m ← put_uint m (aa_instance a); m ← put_prop_t m (aa_n a); put_string m (aa_v a).
Definition get_acceptarg (u : unmarshall) : option (unmarshall * acceptarg) :=
  '(u, i) ← get_uint u; '(u, n) ← get_prop_t u; '(u, v) ← get_string u "";
  Some (u, AcceptArg i n v).

Definition put_decidearg (m : marshall) (a : decidearg) : option marshall :=
  m ← put_uint m (da_instance a); put_string m (da_v a).
Definition get_decidearg (u : unmarshall) : option (unmarshall * decidearg) :=
  '(u, i) ← get_uint u; '(u, v) ← get_string u ""; Some (u, DecideArg i v).

Definition short (s : string) : Prop := str_size s < 2 ^ 31.
Definition enc_prop_t (a : prop_t) : list ascii := enc_u32 (pn a) ++ enc_string (pm a).
Definition prop_t_wf (a : prop_t) : Prop := in_u32 (pn a) /\ short (pm a).

Lemma put_prop_t_ok a : prop_t_wf a -> put_ok (fun m => put_prop_t m a) (enc_prop_t a).
Proof. intros [? ?]. unfold short, put_prop_t, enc_prop_t in *. put_fields. Qed.
Lemma get_prop_t_ok a : prop_t_wf a -> get_ok get_prop_t (enc_prop_t a) a.
Proof.
  destruct a as [n m]. intros [? ?]. unfold short, enc_prop_t, get_prop_t in *. simpl in *.
  get_fields.
Qed.
#[export] Hint Resolve put_prop_t_ok get_prop_t_ok : wire.

#[export] Instance Wire_preparearg : Wire preparearg :=
  { wput := put_preparearg; wget := get_preparearg }.
#[export, refine] Instance WireSpec_preparearg : WireSpec preparearg :=
  { wenc a := enc_u32 (pa_instance a) ++ enc_prop_t (pa_n a);
    wwf a := in_u32 (pa_instance a) /\ prop_t_wf (pa_n a) }.
Proof.
  - intros a [? ?]. simpl. unfold put_preparearg. put_fields.
  - intros [i n] [? ?]. simpl in *. unfold get_preparearg. get_fields.
Defined.

#[export] Instance Wire_prepareres : Wire prepareres :=
  { wput := put_prepareres; wget := get_prepareres }.
#[export, refine] Instance WireSpec_prepareres : WireSpec prepareres :=
  { wenc r := enc_bool (pr_oldinstance r) ++ enc_bool (pr_accept r) ++
              enc_prop_t (pr_n_a r) ++ enc_string (pr_v_a r);
    wwf r := prop_t_wf (pr_n_a r) /\ short (pr_v_a r) }.
Proof.
  - intros a [? ?]. unfold short in *. simpl. unfold put_prepareres. put_fields.
  - intros [o a n v] [? ?]. unfold short in *. simpl in *. unfold get_prepareres. get_fields.
Defined.

#[export] Instance Wire_acceptarg : Wire acceptarg :=
  { wput := put_acceptarg; wget := get_acceptarg }.
#[export, refine] Instance WireSpec_acceptarg : WireSpec acceptarg :=
  { wenc a := enc_u32 (aa_instance a) ++ enc_prop_t (aa_n a) ++ enc_string (aa_v a);
    wwf a := in_u32 (aa_instance a) /\ prop_t_wf (aa_n a) /\ short (aa_v a) }.
Proof.
  - intros a (? & ? & ?). unfold short in *. simpl. unfold put_acceptarg. put_fields.
  - intros [i n v] (? & ? & ?). unfold short in *. simpl in *. unfold get_acceptarg. get_fields.
Defined.

#[export] Instance Wire_decidearg : Wire decidearg :=
  { wput := put_decidearg; wget := get_decidearg }.
#[export, refine] Instance WireSpec_decidearg : WireSpec decidearg :=
  { wenc a := enc_u32 (da_instance a) ++ enc_string (da_v a);
    wwf a := in_u32 (da_instance a) /\ short (da_v a) }.
Proof.
  - intros a [? ?]. unfold short in *. simpl. unfold put_decidearg. put_fields.
  - intros [i v] [? ?]. unfold short in *. simpl in *. unfold get_decidearg. get_fields.
Defined.

(** ** rsm_protocol.h *)

Record viewstamp := Viewstamp { vid : Z; seqno : Z }.
#[export] Instance viewstamp_eq_dec : EqDecision viewstamp.
Proof. solve_decision. Defined.

Definition viewstamp_default : viewstamp := Viewstamp 0 0.
Definition viewstamp_eqb (a b : viewstamp) : bool := (vid a =? vid b) && (seqno a =? seqno b).
Definition viewstamp_gt (a b : viewstamp) : bool :=
  (vid a >? vid b) || ((vid a =? vid b) && (seqno a >? seqno b)).
Definition viewstamp_neq (a b : viewstamp) : bool :=
  negb (vid a =? vid b) || negb (seqno a =? seqno b).

Module rsm_client_protocol.
Definition OK : Z := 0.
Definition ERR : Z := 1.
Definition NOTPRIMARY : Z := 2.
Definition BUSY : Z := 3.
End rsm_client_protocol.

Module rsm_protocol.
Definition OK : Z := 0.
Definition ERR : Z := 1.
Definition BUSY : Z := 2.
Record transferres := TransferRes { tr_state : string; tr_last : viewstamp }.
Record joinres := JoinRes { jr_log : string }.
End rsm_protocol.
Import rsm_protocol.

Definition put_viewstamp (m : marshall) (v : viewstamp) : option marshall :=
  m ← put_uint m (vid v); put_uint m (seqno v).
Definition get_viewstamp (u : unmarshall) : option (unmarshall * viewstamp) :=
  '(u, i) ← get_uint u; '(u, s) ← get_uint u; Some (u, Viewstamp i s).

Definition put_transferres (m : marshall) (r : transferres) : option marshall :=
  m ← put_string m (tr_state r); put_viewstamp m (tr_last r).
Definition get_transferres (u : unmarshall) : option (unmarshall * transferres) :=
  '(u, s) ← get_string u ""; '(u, l) ← get_viewstamp u; Some (u, TransferRes s l).

Definition put_joinres (m : marshall) (r : joinres) : option marshall := put_string m (jr_log r).
Definition get_joinres (u : unmarshall) : option (unmarshall * joinres) :=
  '(u, l) ← get_string u ""; Some (u, JoinRes l).

(** The comparison operators are the lexicographic order of the pair (vid, seqno). *)
Lemma viewstamp_gt_spec a b : viewstamp_gt a b = true <->
  vid b < vid a \/ (vid a = vid b /\ seqno b < seqno a).
Proof. unfold viewstamp_gt. destruct a, b. simpl. lia. Qed.
Lemma viewstamp_eqb_spec a b : viewstamp_eqb a b = true <-> a = b.
Proof.
  unfold viewstamp_eqb. destruct a as [v s], b as [v' s']. simpl.
  rewrite andb_true_iff, !Z.eqb_eq. naive_solver.
Qed.
Lemma viewstamp_neq_spec a b : viewstamp_neq a b = negb (viewstamp_eqb a b).
Proof. unfold viewstamp_neq, viewstamp_eqb. by rewrite negb_andb. Qed.

Definition enc_viewstamp (v : viewstamp) : list ascii := enc_u32 (vid v) ++ enc_u32 (seqno v).
Definition viewstamp_wf (v : viewstamp) : Prop := in_u32 (vid v) /\ in_u32 (seqno v).

Lemma put_viewstamp_ok v : put_ok (fun m => put_viewstamp m v) (enc_viewstamp v).
Proof. unfold put_viewstamp, enc_viewstamp. put_fields. Qed.
Lemma get_viewstamp_ok v : viewstamp_wf v -> get_ok get_viewstamp (enc_viewstamp v) v.
Proof.
  destruct v as [i s]. intros [? ?]. unfold enc_viewstamp, get_viewstamp. simpl in *. get_fields.
Qed.
#[export] Hint Resolve put_viewstamp_ok get_viewstamp_ok : wire.

#[export] Instance Wire_viewstamp : Wire viewstamp :=
  { wput := put_viewstamp; wget := get_viewstamp }.
#[export] Instance WireSpec_viewstamp : WireSpec viewstamp :=
  { wenc := enc_viewstamp; wwf := viewstamp_wf;
    wput_spec v _ := put_viewstamp_ok v; wget_spec := get_viewstamp_ok }.

#[export] Instance Wire_transferres : Wire transferres :=
  { wput := put_transferres; wget := get_transferres }.
#[export, refine] Instance WireSpec_transferres : WireSpec transferres :=
  { wenc r := enc_string (tr_state r) ++ enc_viewstamp (tr_last r);
    wwf r := short (tr_state r) /\ viewstamp_wf (tr_last r) }.
Proof.
  - intros a [? ?]. unfold short in *. simpl. unfold put_transferres. put_fields.
  - intros [s l] [? ?]. unfold short in *. simpl in *. unfold get_transferres. get_fields.
Defined.

#[export] Instance Wire_joinres : Wire joinres := { wput := put_joinres; wget := get_joinres }.
#[export, refine] Instance WireSpec_joinres : WireSpec joinres :=
  { wenc r := enc_string (jr_log r); wwf r := short (jr_log r) }.
Proof.
  - intros a ?. unfold short in *. simpl. unfold put_joinres. eauto with wire.
  - intros [l] ?. unfold short in *. simpl in *. unfold get_joinres. get_fields.
Defined.

(** ** extent_protocol.h *)

Module extent_protocol.
Definition OK : Z := 0.
Definition RPCERR : Z := 1.
Definition NOENT : Z := 2.
Definition IOERR : Z := 3.
Record attr := Attr { atime : Z; mtime : Z; ctime : Z; size : Z }.
End extent_protocol.
Import extent_protocol.
#[export] Instance attr_eq_dec : EqDecision attr.
Proof. solve_decision. Defined.

Definition put_attr (m : marshall) (a : attr) : option marshall :=
  m ← put_uint m (atime a); m ← put_uint m (mtime a);
  m ← put_uint m (ctime a); put_uint m (size a).
Definition get_attr (u : unmarshall) : option (unmarshall * attr) :=
  '(u, a) ← get_uint u; '(u, m) ← get_uint u; '(u, c) ← get_uint u;
  '(u, s) ← get_uint u; Some (u, Attr a m c s).

#[export] Instance Wire_attr : Wire attr := { wput := put_attr; wget := get_attr }.
#[export, refine] Instance WireSpec_attr : WireSpec attr :=
  { wenc a := enc_u32 (atime a) ++ enc_u32 (mtime a) ++ enc_u32 (ctime a) ++ enc_u32 (size a);
    wwf a := in_u32 (atime a) /\ in_u32 (mtime a) /\ in_u32 (ctime a) /\ in_u32 (size a) }.
Proof.
  - intros a _. simpl. unfold put_attr. put_fields.
  - intros [a m c s] (? & ? & ? & ?). simpl in *. unfold get_attr. get_fields.
Defined.
