(* ===== verification/Rpc.v ===== *)
(** * The RPC layer: client and server endpoints, at-most-once execution

    Models src/mit_6.824/rpc/rpc.h and rpc.cc: the client endpoint [rpcc] (call
    numbers, the window of replies received, pending calls), the server endpoint
    [rpcs] (the reply window, duplicate detection, [dispatch]) and the handlers
    made by [rpcs::reg].  Code that runs under one mutex is one definition;
    [Server] below interleaves those definitions as the dispatch threads do. *)

From Stdlib Require Import ZArith Lia Ascii String.
From stdpp Require Import base list strings gmap sorting.
From S2P Require Import Prelude Marshall.

Local Open Scope Z_scope.
Local Open Scope cpp_scope.

Module rpc_const.
Definition bind : Z := 1.
Definition timeout_failure : Z := -1.
Definition unmarshal_args_failure : Z := -2.
Definition unmarshal_reply_failure : Z := -3.
Definition atmostonce_failure : Z := -4.
Definition oldsrv_failure : Z := -5.
Definition bind_failure : Z := -6.
Definition cancel_failure : Z := -7.
End rpc_const.

(** ** The client endpoint *)

(** A pending call: [ca_un] is the caller's [unmarshall] object, [ca_intret] is
    uninitialised ([None]) until the call is done. *)
Record caller := Caller {
  ca_xid : Z; ca_un : unmarshall; ca_intret : option Z; ca_done : bool }.

Record request := Request { dr_buf : list ascii; dr_xid : Z }.
Definition request_clear : request := Request [] (-1).
Definition request_isvalid (r : request) : bool := negb (dr_xid r =? -1).

Record rpcc := Rpcc {
  c_clt_nonce : Z;
  c_srv_nonce : Z;
  c_bind_done : bool;
  c_xid : Z;
  c_lossytest : Z;
  c_retrans : bool;
  c_reachable : bool;
  c_destroy_wait : bool;
  c_calls : gmap Z caller;
  c_xid_rep_window : list Z;
  c_dup_req : request;
  c_xid_rep_done : Z }.

(** The constructor; [rnd] is the value of [random()] and [lossy] of RPC_LOSSY. *)
Definition rpcc_new (rnd lossy : Z) (retrans : bool) : rpcc :=
  Rpcc (if retrans then wrap 32 rnd else 0) 0 false 1 lossy retrans true false ∅ [0]
    request_clear (-1).

Definition c_set_calls (c : rpcc) (m : gmap Z caller) : rpcc :=
  Rpcc (c_clt_nonce c) (c_srv_nonce c) (c_bind_done c) (c_xid c) (c_lossytest c) (c_retrans c)
    (c_reachable c) (c_destroy_wait c) m (c_xid_rep_window c) (c_dup_req c) (c_xid_rep_done c).
Definition c_set_window (c : rpcc) (w : list Z) : rpcc :=
  Rpcc (c_clt_nonce c) (c_srv_nonce c) (c_bind_done c) (c_xid c) (c_lossytest c) (c_retrans c)
    (c_reachable c) (c_destroy_wait c) (c_calls c) w (c_dup_req c) (c_xid_rep_done c).
Definition c_set_xid (c : rpcc) (x : Z) : rpcc :=
  Rpcc (c_clt_nonce c) (c_srv_nonce c) (c_bind_done c) x (c_lossytest c) (c_retrans c)
    (c_reachable c) (c_destroy_wait c) (c_calls c) (c_xid_rep_window c) (c_dup_req c)
    (c_xid_rep_done c).
Definition c_set_dup (c : rpcc) (r : request) (d : Z) : rpcc :=
  Rpcc (c_clt_nonce c) (c_srv_nonce c) (c_bind_done c) (c_xid c) (c_lossytest c) (c_retrans c)
    (c_reachable c) (c_destroy_wait c) (c_calls c) (c_xid_rep_window c) r d.
Definition c_set_bound (c : rpcc) (srv_nonce : Z) : rpcc :=
  Rpcc (c_clt_nonce c) srv_nonce true (c_xid c) (c_lossytest c) (c_retrans c)
    (c_reachable c) (c_destroy_wait c) (c_calls c) (c_xid_rep_window c) (c_dup_req c)
    (c_xid_rep_done c).
Definition c_set_destroy_wait (c : rpcc) : rpcc :=
  Rpcc (c_clt_nonce c) (c_srv_nonce c) (c_bind_done c) (c_xid c) (c_lossytest c) (c_retrans c)
    (c_reachable c) true (c_calls c) (c_xid_rep_window c) (c_dup_req c) (c_xid_rep_done c).

(** *** update_xid_rep *)

(** The first loop: insert before the first larger element, else at the end. *)
Fixpoint insert_xid (xid : Z) (w : list Z) : list Z :=
  match w with
  | [] => [xid]
  | y :: w' => if xid <? y then xid :: y :: w' else y :: insert_xid xid w'
  end.

(** [while (front() + 1 == *it) pop_front();] where [l] is the part of the list
    before [it]; when it is empty the front is [*it] itself and the loop stops. *)
Fixpoint pop_front_while (l : list Z) (it : Z) : list Z :=
  match l with
  | y :: l' => if wrap 32 (y + 1) =? it then pop_front_while l' it else l
  | [] => []
  end.

(** The second loop, from [it] on: [pre] is the list before [it]. *)
Fixpoint compress (pre post : list Z) : list Z :=
  match post with
  | [] => pre
  | it :: post' => compress (pop_front_while pre it ++ [it]) post'
  end.

Definition update_xid_rep (w : list Z) (xid : Z) : option (list Z) :=
  front ← head w;
  if xid <=? front then Some w
  else match insert_xid xid w with
       | f :: w' => Some (compress [f] w')
       | [] => None
       end.

(** *** call1, up to the first send *)

(** The first critical section of [call1]: an early return with an error code,
    or a registered call with its header and the [xid_rep] put in it. *)
Definition call1_begin (c : rpcc) (proc : Z) : option (rpcc * (Z + req_header * Z)) :=
  if (negb (proc =? rpc_const.bind) && negb (c_bind_done c)) ||
     ((proc =? rpc_const.bind) && c_bind_done c)
  then Some (c, inl rpc_const.bind_failure)
  else if c_destroy_wait c then Some (c, inl rpc_const.cancel_failure)
  else
    let xid := c_xid c in
    front ← head (c_xid_rep_window c);
    let h := ReqHeader (to_signed 32 xid) (to_signed 32 proc) (c_clt_nonce c) (c_srv_nonce c)
               (to_signed 32 front) in
    let ca := Caller xid unmarshall_empty None false in
    Some (c_set_calls (c_set_xid c (wrap 32 (xid + 1))) (<[to_signed 32 xid := ca]> (c_calls c)),
          inr (h, to_signed 32 front)).

(** One transmission: the packets handed to the channel, in order.  A saved
    duplicate is re-sent once the server may have forgotten it. *)
Definition call1_transmit (c : rpcc) (pdu : list ascii) : rpcc * list (list ascii) :=
  if c_reachable c then
    if request_isvalid (c_dup_req c) && (dr_xid (c_dup_req c) <? c_xid_rep_done c)
    then (c_set_dup c request_clear (c_xid_rep_done c), [dr_buf (c_dup_req c); pdu])
    else (c, [pdu])
  else (c, []).

(** [rpcc::got_pdu]: a reply arrives. *)
Definition rpcc_got_pdu (c : rpcc) (b : list ascii) (sz : Z) : option rpcc :=
  '(rep, h) ← unpack_reply_header (unmarshall_new b sz);
  if negb (u_ok rep) then Some c
  else
    w ← update_xid_rep (c_xid_rep_window c) (wrap 32 (rp_xid h));
    let c := c_set_window c w in
    match c_calls c !! rp_xid h with
    | None => Some c
    | Some ca =>
        if ca_done ca then Some c
        else Some (c_set_calls c (<[rp_xid h :=
               Caller (ca_xid ca) (take_in rep) (Some (rp_ret h)) true]> (c_calls c)))
    end.

(** The last critical sections of [call1]: the call is over, by a reply or by a
    timeout.  Returns the caller's object and the result of the call. *)
Definition call1_end (c : rpcc) (xid : Z) (xid_rep : Z) (pdu : list ascii)
    : option (rpcc * unmarshall * Z) :=
  ca ← c_calls c !! to_signed 32 xid;
  let c := c_set_calls c (delete (to_signed 32 xid) (c_calls c)) in
  w ← update_xid_rep (c_xid_rep_window c) xid;
  let c := c_set_window c w in
  let c :=
    if ca_done ca && negb (c_lossytest c =? 0)
    then c_set_dup c
           (if request_isvalid (c_dup_req c) then c_dup_req c
            else Request pdu (to_signed 32 (ca_xid ca)))
           (if c_xid_rep_done c <? xid_rep then xid_rep else c_xid_rep_done c)
    else c in
  if ca_done ca then ret ← ca_intret ca; Some (c, ca_un ca, ret)
  else Some (c, ca_un ca, rpc_const.timeout_failure).

(** [rpcc::cancel]: every pending caller is told to fail; if any is pending the
    endpoint refuses new calls until they are gone. *)
Definition rpcc_cancel (c : rpcc) : rpcc :=
  let c := c_set_calls c ((fun ca => Caller (ca_xid ca) (ca_un ca)
             (Some rpc_const.cancel_failure) true) <$> c_calls c) in
  if (0 <? Z.of_nat (size (c_calls c))) then c_set_destroy_wait c else c.

(** [rpcc::call_m] after [call1] returned [intret] with the object [u]. *)
Definition call_m_result `{Wire R} (u : unmarshall) (intret : Z) : option (Z * option R) :=
  if intret <? 0 then Some (intret, None)
  else '(u, r) ← wget u; VERIFY! okdone u ;; Some (intret, Some r).

(** [rpcc::bind] after the call returned. *)
Definition bind_result (c : rpcc) (ret : Z) (r : option Z) : rpcc :=
  match r with
  | Some r => if ret =? 0 then c_set_bound c (wrap 32 r) else c
  | None => c
  end.

(** ** The server endpoint *)

Record reply_t := Reply {
  r_xid : Z; r_cb_present : bool; r_buf : option (list ascii); r_sz : Z }.
Definition reply_new (xid : Z) : reply_t := Reply xid false None 0.

Inductive rpcstate_t :=
  | NEW
  | INPROGRESS
  | DONE (b : option (list ascii)) (sz : Z)
  | FORGOTTEN.

Record rpcs := Rpcs {
  s_nonce : Z;
  s_reply_window : gmap Z (list reply_t);
  s_max_xid_rep_sofar : gmap Z Z }.

Definition s_set_window (s : rpcs) (w : gmap Z (list reply_t)) : rpcs :=
  Rpcs (s_nonce s) w (s_max_xid_rep_sofar s).

(** The scan for a duplicate, entry by entry. *)
Fixpoint find_duplicate (xid : Z) (l : list reply_t) : option rpcstate_t :=
  match l with
  | [] => None
  | e :: l' =>
      if r_xid e =? xid
      then Some (if r_cb_present e then DONE (r_buf e) (r_sz e) else INPROGRESS)
      else find_duplicate xid l'
  end.

(** The loop that deletes the replies the client has received. *)
Fixpoint forget_received (xid_rep : Z) (l : list reply_t) : list reply_t :=
  match l with
  | [] => []
  | e :: l' => if r_xid e <=? xid_rep then forget_received xid_rep l'
               else e :: forget_received xid_rep l'
  end.

Definition checkduplicate_and_update (s : rpcs) (clt_nonce xid xid_rep : Z)
    : option (rpcs * rpcstate_t) :=
  l ← s_reply_window s !! clt_nonce;
  VERIFY! (xid_rep <? xid) ;;
  let max := default 0 (s_max_xid_rep_sofar s !! clt_nonce) in
  let max' := if max <? xid_rep then xid_rep else max in
  let s := Rpcs (s_nonce s) (s_reply_window s) (<[clt_nonce := max']> (s_max_xid_rep_sofar s)) in
  if xid <=? max' then Some (s, FORGOTTEN)
  else
    let l := forget_received xid_rep l in
    match find_duplicate xid l with
    | Some st => Some (s_set_window s (<[clt_nonce := l]> (s_reply_window s)), st)
    | None => Some (s_set_window s (<[clt_nonce := l ++ [reply_new xid]]> (s_reply_window s)), NEW)
    end.

(** The loop of [add_reply]; [None] when no entry matches: the code then reads
    through the end iterator. *)
Fixpoint fill_reply (xid : Z) (b : option (list ascii)) (sz : Z) (l : list reply_t)
    : option (list reply_t) :=
  match l with
  | [] => None
  | e :: l' => if r_xid e =? xid then Some (Reply (r_xid e) true b sz :: l')
               else l'' ← fill_reply xid b sz l'; Some (e :: l'')
  end.

Definition add_reply (s : rpcs) (clt_nonce xid : Z) (b : option (list ascii)) (sz : Z)
    : option rpcs :=
  l ← fill_reply xid b sz (default [] (s_reply_window s !! clt_nonce));
  Some (s_set_window s (<[clt_nonce := l]> (s_reply_window s))).

Definition free_reply_window (s : rpcs) : rpcs := s_set_window s ∅.

(** A registered procedure: [handler::fn] on the state [S] of the object it is
    bound to. *)
Definition handler (S : Type) : Type :=
  S -> unmarshall -> marshall -> option (S * marshall * Z).

(** The handlers made by [rpcs::reg]. *)
Definition h1 {S A R : Type} `{Wire A, Wire R} (meth : S -> A -> option (S * R * Z)) : handler S :=
  fun sob args ret =>
    '(args, a) ← wget args;
    if negb (okdone args) then Some (sob, ret, rpc_const.unmarshal_args_failure)
    else
      '(sob', r, b) ← meth sob a;
      ret ← wput ret r;
      Some (sob', ret, b).

(** [rpcs::reg1]. *)
Definition reg1 {H : Type} (procs : gmap Z H) (proc : Z) (h : H) : option (gmap Z H) :=
  match procs !! proc with
  | Some _ => None
  | None => Some (<[proc := h]> procs)
  end.

Definition rpcbind (nonce : Z) {S : Type} (s : S) (a : c_int) : option (S * c_int * Z) :=
  Some (s, CInt (to_signed 32 nonce), 0).

(** What the first half of [dispatch] decides to do with a request. *)
Inductive job {S : Type} :=
  | Drop
  | Refuse (b : list ascii) (sz : Z)
  | Resend (h : req_header) (b : list ascii) (sz : Z)
  | Execute (h : req_header) (args : unmarshall) (f : handler S).
Arguments job : clear implicits.

Definition error_reply (junk : ascii) (xid ret : Z) : option (list ascii * Z) :=
  m ← pack_reply_header (marshall_new junk) (ReplyHeader xid ret);
  b ← m_buf m;
  Some (b, m_ind m).

(** [dispatch] up to the [switch]: decode the header, refuse old instances, find
    the procedure, create the client's window, detect duplicates. *)
Definition dispatch_start {S : Type} (procs : gmap Z (handler S)) (junk : ascii) (s : rpcs)
    (b : list ascii) (sz : Z) : option (rpcs * job S) :=
  '(req, h) ← unpack_req_header (unmarshall_new b sz);
  if negb (u_ok req) then Some (s, Drop)
  else if negb (rq_srv_nonce h =? 0) && negb (rq_srv_nonce h =? s_nonce s) then
    '(b, sz) ← error_reply junk (rq_xid h) rpc_const.oldsrv_failure;
    Some (s, Refuse b sz)
  else
    f ← procs !! rq_proc h;
    if rq_clt_nonce h =? 0 then Some (s, Execute h req f)
    else
      let s := s_set_window s (partial_alter (fun o => Some (default [] o)) (rq_clt_nonce h)
                                 (s_reply_window s)) in
      '(s, stat) ← checkduplicate_and_update s (rq_clt_nonce h) (wrap 32 (rq_xid h))
                     (wrap 32 (rq_xid_rep h));
      match stat with
      | NEW => Some (s, Execute h req f)
      | INPROGRESS => Some (s, Drop)
      | DONE b1 sz1 => b1 ← b1; Some (s, Resend h b1 sz1)
      | FORGOTTEN =>
          '(b, sz) ← error_reply junk (rq_xid h) rpc_const.atmostonce_failure;
          Some (s, Refuse b sz)
      end.

(** The [case NEW] of [dispatch]: the handler runs ... *)
Definition dispatch_run {S : Type} (junk : ascii) (h : req_header) (args : unmarshall)
    (f : handler S) (sob : S) : option (S * (list ascii * Z)) :=
  '(sob, rep, ret) ← f sob args (marshall_new junk);
  VERIFY! negb (ret =? rpc_const.unmarshal_args_failure) ;;
  VERIFY! (0 <=? ret) ;;
  rep ← pack_reply_header rep (ReplyHeader (rq_xid h) ret);
  let '((b1, sz1), _) := m_take_buf rep in
  b1 ← b1;
  Some (sob, (b1, sz1)).

(** ... and its reply is remembered and sent. *)
Definition dispatch_reply (s : rpcs) (h : req_header) (b1 : list ascii) (sz1 : Z) : option rpcs :=
  if 0 <? rq_clt_nonce h
  then add_reply s (rq_clt_nonce h) (wrap 32 (rq_xid h)) (Some b1) sz1
  else Some s.

(** [rpcs::dispatch] by one thread, with nothing in between: the new states and
    the packets sent. *)
Definition dispatch {S : Type} (procs : gmap Z (handler S)) (junk : ascii) (s : rpcs) (sob : S)
    (b : list ascii) (sz : Z) : option (rpcs * S * list (list ascii * Z)) :=
  '(s, j) ← dispatch_start procs junk s b sz;
  match j with
  | Drop => Some (s, sob, [])
  | Refuse b sz | Resend _ b sz => Some (s, sob, [(b, sz)])
  | Execute h args f =>
      '(sob, (b1, sz1)) ← dispatch_run junk h args f sob;
      s ← dispatch_reply s h b1 sz1;
      Some (s, sob, [(b1, sz1)])
  end.

(** ** A call with a reachable server and no losses *)

(** [rpcc::call] against [rpcs::dispatch]: marshal, send, dispatch, deliver the
    replies, unmarshal. *)
Definition rpc_call {S A R : Type} `{Wire A, Wire R} (procs : gmap Z (handler S)) (junk : ascii)
    (c : rpcc) (s : rpcs) (sob : S) (proc : Z) (a : A) : option (rpcc * rpcs * S * (Z * option R)) :=
  m ← wput (marshall_new junk) a;
  '(c, r) ← call1_begin c proc;
  match r with
  | inl e => Some (c, s, sob, (e, None))
  | inr (h, xid_rep) =>
      m ← pack_req_header m h;
      b ← m_buf m;
      '(s, sob, sent) ← dispatch procs junk s sob b (m_ind m);
      c ← foldr (fun p k c => c ← rpcc_got_pdu c p.1 p.2; k c) Some sent c;
      '(c, u, intret) ← call1_end c (wrap 32 (rq_xid h)) xid_rep (take (Z.to_nat (m_ind m)) b);
      res ← call_m_result u intret;
      Some (c, s, sob, res)
  end.

(** ** The reply window of the client *)

(** [w] represents the set [R] of call numbers whose reply (or timeout) was seen:
    its front [f] is the largest number such that all of 0..f were seen, the rest
    of the list holds the seen numbers beyond [f], in order. *)
Record window_repr (w : list Z) (R : Z -> Prop) : Prop := {
  wr_sorted : StronglySorted Z.le w;
  wr_range : Forall (fun x => 0 <= x < 2 ^ 32 - 1) w;
  wr_front : exists f w', w = f :: w' /\ (forall x, 0 <= x <= f -> R x) /\ ~ R (f + 1) /\
    forall x, f < x -> R x <-> x ∈ w' }.

Lemma insert_xid_perm xid w : insert_xid xid w ≡ₚ xid :: w.
Proof.
  induction w as [|y w IH]; simpl; [done|]. case_bool; [done|].
  rewrite IH. apply Permutation_swap.
Qed.

Lemma insert_xid_sorted xid w : StronglySorted Z.le w -> StronglySorted Z.le (insert_xid xid w).
Proof.
  induction 1 as [|y w Hs IH Hy]; simpl; [repeat constructor|].
  destruct (Z.ltb_spec xid y); constructor.
  - by constructor.
  - constructor; [lia|]. eapply Forall_impl; [done|]. simpl. lia.
  - done.
  - rewrite insert_xid_perm. constructor; [lia|done].
Qed.

Lemma pop_front_all f p : 0 <= f < 2 ^ 32 - 1 -> (forall y, y ∈ p -> y = f) ->
  pop_front_while (f :: p) (f + 1) = [].
Proof.
  intros Hf. induction p as [|y p IH]; intros Hp; simpl.
  - rewrite wrap_small by lia. by rewrite Z.eqb_refl.
  - rewrite wrap_small by lia. rewrite Z.eqb_refl. pose proof (Hp y ltac:(set_solver)). subst y.
    apply IH. set_solver.
Qed.

Lemma compress_repr (R : Z -> Prop) post : forall f p,
  StronglySorted Z.le (f :: p ++ post) -> Forall (fun x => 0 <= x < 2 ^ 32 - 1) (f :: p ++ post) ->
  f + 1 ∉ p -> (forall x, 0 <= x <= f -> R x) -> (forall x, f < x -> R x <-> x ∈ p ++ post) ->
  window_repr (compress (f :: p) post) R.
Proof.
  induction post as [|it post IH]; intros f p Hs Hr Hf Hlow Hhigh.
  { rewrite app_nil_r in *. simpl. constructor; [done..|]. exists f, p. split_and!; [done..| |done].
    rewrite Hhigh by lia. done. }
  inversion Hs as [|? ? Hs' Hall]; subst. inversion Hr as [|? ? Hr1 Hr2]; subst.
  rewrite Forall_forall in Hall, Hr2. cbn [compress].
  destruct (decide (it = f + 1)) as [->|Hne].
  - rewrite pop_front_all; [|done|].
    2:{ intros y Hy. apply StronglySorted_app in Hs' as (Hb & _ & _).
        specialize (Hall y ltac:(set_solver)). specialize (Hb y (f + 1) Hy ltac:(set_solver)).
        destruct (decide (y = f + 1)); [set_solver|lia]. }
    apply StronglySorted_app in Hs' as (_ & _ & Hs').
    simpl. apply (IH (f + 1) []); simpl; [done| |set_solver| |].
    + apply Forall_forall. intros x Hx. apply Hr2. set_solver.
    + intros x Hx. destruct (decide (x = f + 1)); [|apply Hlow; lia].
      subst. apply Hhigh; [lia|set_solver].
    + intros x Hx. rewrite Hhigh by lia. rewrite elem_of_app, elem_of_cons.
      split; [|tauto]. intros [Hp|[->|?]]; [|lia|done]. exfalso.
      inversion Hs as [|? ? Hs2 ?]; subst. apply StronglySorted_app in Hs2 as (Hb & _).
      specialize (Hb x (f + 1) Hp ltac:(set_solver)). lia.
  - simpl. rewrite wrap_small by lia. destruct (Z.eqb_spec (f + 1) it) as [|]; [lia|].
    simpl. apply IH; rewrite <-?app_assoc; simpl; [done|done|set_solver|done|done].
Qed.

Lemma update_xid_rep_repr w R xid : window_repr w R -> 0 <= xid < 2 ^ 32 - 1 ->
  exists w', update_xid_rep w xid = Some w' /\ window_repr w' (fun x => R x \/ x = xid).
Proof.
  intros [Hs Hr (f & w' & -> & Hlow & Hf & Hhigh)] Hx.
  unfold update_xid_rep. cbn [head mbind option_bind insert_xid].
  destruct (Z.leb_spec xid f).
  - eexists. split; [done|]. split; [done..|]. exists f, w'. split_and!; [done|auto| |].
    + intros [?|?]; [done|lia].
    + intros x Hx'. rewrite <-Hhigh by done. split; [intros [?|?]; [done|lia]|auto].
  - destruct (Z.ltb_spec xid f); [lia|]. eexists. split; [done|].
    pose proof (insert_xid_sorted xid (f :: w') Hs) as Hs'.
    simpl in Hs'. destruct (Z.ltb_spec xid f); [lia|].
    apply compress_repr; simpl; [done| |set_solver|auto|].
    + inversion Hr; subst. constructor; [done|]. rewrite insert_xid_perm. by constructor.
    + intros x Hx'. rewrite Hhigh, insert_xid_perm, elem_of_cons by done. tauto.
Qed.

(** The client invariant: every number seen belongs to a call that was issued, so
    the next number is fresh.  [2 ^ 32] calls would wrap the counter around. *)
Record client_inv (c : rpcc) : Prop := {
  ci_clt : in_u32 (c_clt_nonce c);
  ci_srv : in_u32 (c_srv_nonce c);
  ci_xid : 1 <= c_xid c < 2 ^ 32 - 1;
  ci_fresh x : c_xid c <= x < 2 ^ 32 -> c_calls c !! to_signed 32 x = None;
  ci_window : exists R, window_repr (c_xid_rep_window c) R /\ forall x, R x -> x < c_xid c }.

(** The server has seen only call numbers the client has issued. *)
Record in_sync (c : rpcc) (s : rpcs) : Prop := {
  is_nonce : s_nonce s = c_srv_nonce c;
  is_max : default 0 (s_max_xid_rep_sofar s !! c_clt_nonce c) < c_xid c;
  is_window e : e ∈ default [] (s_reply_window s !! c_clt_nonce c) -> r_xid e < c_xid c }.

Lemma wrap_signed_u32 x : in_u32 x -> wrap 32 (to_signed 32 x) = x.
Proof. intros Hx. by rewrite wrap_to_signed, wrap_small. Qed.

Lemma to_signed_i32 x : in_u32 x -> in_i32 (to_signed 32 x).
Proof.
  unfold in_u32, in_i32. intros Hx. unfold to_signed. rewrite wrap_small by done. case_bool; lia.
Qed.

Lemma to_signed_inj x y : in_u32 x -> in_u32 y -> to_signed 32 x = to_signed 32 y -> x = y.
Proof. intros Hx Hy Heq. by rewrite <-(wrap_signed_u32 x Hx), <-(wrap_signed_u32 y Hy), Heq. Qed.

Lemma find_duplicate_fresh xid l : (forall e, e ∈ l -> r_xid e <> xid) -> find_duplicate xid l = None.
Proof.
  induction l as [|e l IH]; intros Hl; simpl; [done|].
  destruct (Z.eqb_spec (r_xid e) xid) as [Heq|].
  - exfalso. apply (Hl e); [set_solver|done].
  - apply IH. set_solver.
Qed.

Lemma forget_received_elem xid_rep l e :
  e ∈ forget_received xid_rep l <-> e ∈ l /\ xid_rep < r_xid e.
Proof.
  induction l as [|x l IH]; simpl; [set_solver|].
  destruct (Z.leb_spec (r_xid x) xid_rep).
  - rewrite IH, elem_of_cons. split; [tauto|]. intros [[->|?] ?]; [lia|done].
  - rewrite !elem_of_cons, IH. split; [|tauto]. intros [->|[? ?]]; [auto with lia|auto].
Qed.

Lemma fill_reply_last xid b sz l : (forall e, e ∈ l -> r_xid e <> xid) ->
  fill_reply xid b sz (l ++ [reply_new xid]) = Some (l ++ [Reply xid true b sz]).
Proof.
  induction l as [|e l IH]; intros Hl; simpl; [by rewrite Z.eqb_refl|].
  destruct (Z.eqb_spec (r_xid e) xid) as [Heq|].
  - exfalso. apply (Hl e); [set_solver|done].
  - rewrite IH by set_solver. done.
Qed.

(** A request the server has not seen, and that is not acknowledged, is [NEW]. *)
Lemma checkduplicate_fresh s clt xid xid_rep l : s_reply_window s !! clt = Some l ->
  xid_rep < xid -> default 0 (s_max_xid_rep_sofar s !! clt) < xid ->
  (forall e, e ∈ l -> r_xid e <> xid) ->
  checkduplicate_and_update s clt xid xid_rep =
    Some (Rpcs (s_nonce s)
            (<[clt := forget_received xid_rep l ++ [reply_new xid]]> (s_reply_window s))
            (<[clt := Z.max (default 0 (s_max_xid_rep_sofar s !! clt)) xid_rep]>
               (s_max_xid_rep_sofar s)), NEW).
Proof.
  intros Hl Hlt Hmax Hfresh. unfold checkduplicate_and_update, VERIFY. rewrite Hl.
  cbn [mbind option_bind].
  destruct (Z.ltb_spec xid_rep xid); [|lia].
  assert (Hm : forall m, (if m <? xid_rep then xid_rep else m) = Z.max m xid_rep).
  { intros m. case_bool; lia. }
  rewrite Hm. case_bool; [lia|].
  rewrite find_duplicate_fresh; [done|]. intros e He. apply forget_received_elem in He as [? ?]. auto.
Qed.

Lemma alter_create (w : gmap Z (list reply_t)) clt :
  partial_alter (fun o => Some (default [] o)) clt w = <[clt := default [] (w !! clt)]> w.
Proof. apply partial_alter_ext. by intros ? <-. Qed.

(** What a fresh request does to the server's bookkeeping. *)
Definition after_fresh (s s' : rpcs) (clt xid xid_rep : Z) : Prop :=
  s_nonce s' = s_nonce s /\
  default 0 (s_max_xid_rep_sofar s' !! clt) <= Z.max (default 0 (s_max_xid_rep_sofar s !! clt)) xid_rep /\
  forall e, e ∈ default [] (s_reply_window s' !! clt) ->
    e ∈ default [] (s_reply_window s !! clt) \/ r_xid e = xid.

Section FreshRequest.
Context {S A R : Type} `{Wire A} `{WireSpec R}.
Context (procs : gmap Z (handler S)) (junk : ascii) (s : rpcs) (sob sob' : S).
Context (b : list ascii) (sz : Z) (u u' : unmarshall) (h : req_header) (a : A).
Context (meth : S -> A -> option (S * R * Z)) (r : R) (ret : Z).
Context (Hhdr : unpack_req_header (unmarshall_new b sz) = Some (u, h)) (Hok : u_ok u = true).
Context (Harg : wget u = Some (u', a)) (Hdone : okdone u' = true).
Context (Hh : req_header_wf h).
Context (Hproc : procs !! rq_proc h = Some (h1 meth)).
Context (Hmeth : meth sob a = Some (sob', r, ret)) (Hret : 0 <= ret < 2 ^ 31) (Hr : wwf r).
Context (Hrsz : RPC_HEADER_SZ + Z.of_nat (length (wenc r)) <= MAX_CONTENT).

(** The reply that goes back decodes to the handler's result. *)
Definition decodes_to (rb : list ascii) (rsz : Z) (hdr : reply_header) (r : R) : Prop :=
  exists ur ur', unpack_reply_header (unmarshall_new rb rsz) = Some (ur, hdr) /\
    u_ok ur = true /\ wget (take_in ur) = Some (ur', r) /\ okdone ur' = true.

Lemma dispatch_run_ok : exists rb rsz,
  dispatch_run junk h u (h1 meth) sob = Some (sob', (rb, rsz)) /\
  decodes_to rb rsz (ReplyHeader (rq_xid h) ret) r.
Proof using All.
  assert (Hrh : reply_header_wf (ReplyHeader (rq_xid h) ret)).
  { split; [apply Hh|]. unfold in_i32. simpl. lia. }
  destruct (reply_wire junk _ r Hrh Hr Hrsz) as (m & m' & rb & ur & ur' & Hp & Hk & Hb & Hu & Ho & Hg & Hd).
  exists rb, (m_ind m'). split; [|by exists ur, ur'].
  unfold dispatch_run, h1. rewrite Harg. cbn [mbind option_bind]. rewrite Hdone. cbn [negb].
  rewrite Hmeth. cbn [mbind option_bind]. rewrite Hp. cbn [mbind option_bind].
  unfold VERIFY, rpc_const.unmarshal_args_failure.
  destruct (Z.eqb_spec ret (-2)); [lia|]. cbn [negb]. case_bool; [|lia].
  rewrite Hk. cbn [mbind option_bind m_take_buf]. by rewrite Hb.
Qed.

Lemma dispatch_fresh :
  rq_srv_nonce h = s_nonce s ->
  wrap 32 (rq_xid_rep h) < wrap 32 (rq_xid h) ->
  default 0 (s_max_xid_rep_sofar s !! rq_clt_nonce h) < wrap 32 (rq_xid h) ->
  (forall e, e ∈ default [] (s_reply_window s !! rq_clt_nonce h) -> r_xid e <> wrap 32 (rq_xid h)) ->
  exists s' rb rsz, dispatch procs junk s sob b sz = Some (s', sob', [(rb, rsz)]) /\
    decodes_to rb rsz (ReplyHeader (rq_xid h) ret) r /\
    after_fresh s s' (rq_clt_nonce h) (wrap 32 (rq_xid h)) (wrap 32 (rq_xid_rep h)).
Proof using All.
  intros Hn Hx Hmax Hfresh.
  destruct dispatch_run_ok as (rb & rsz & Hrun & Hdec).
  unfold dispatch, dispatch_start. rewrite Hhdr. cbn [mbind option_bind]. rewrite Hok. cbn [negb].
  rewrite Hn, Z.eqb_refl. cbn [negb]. rewrite andb_false_r.
  rewrite Hproc. cbn [mbind option_bind]. unfold dispatch_reply.
  assert (Hclt : in_u32 (rq_clt_nonce h)) by apply Hh. unfold in_u32 in Hclt.
  destruct (Z.eqb_spec (rq_clt_nonce h) 0) as [He|He].
  { cbn [mbind option_bind]. rewrite Hrun. cbn [mbind option_bind].
    destruct (Z.ltb_spec 0 (rq_clt_nonce h)); [lia|]. cbn [mbind option_bind].
    exists s, rb, rsz. split_and!; [done..|]. unfold after_fresh. split_and!; [done|lia|auto]. }
  rewrite alter_create. unfold s_set_window.
  erewrite checkduplicate_fresh; [|apply lookup_insert_eq|done|done|done].
  cbn [mbind option_bind]. rewrite Hrun. cbn [mbind option_bind s_nonce s_reply_window s_max_xid_rep_sofar].
  destruct (Z.ltb_spec 0 (rq_clt_nonce h)); [|lia].
  unfold add_reply. cbn [s_nonce s_reply_window s_max_xid_rep_sofar s_set_window].
  rewrite lookup_insert_eq. cbn [default from_option id]. rewrite fill_reply_last.
  2:{ intros e Hin. apply forget_received_elem in Hin as [? ?]. auto. }
  cbn [mbind option_bind]. eexists _, rb, rsz. split_and!; [done..|].
  unfold after_fresh. cbn [s_nonce s_reply_window s_max_xid_rep_sofar s_set_window].
  rewrite !lookup_insert_eq. cbn [default from_option id]. split_and!; [done|lia|].
  intros e [Hin|Hin]%elem_of_app; [apply forget_received_elem in Hin as [? ?]; auto|].
  right. apply list_elem_of_singleton in Hin as ->. done.
Qed.
End FreshRequest.

(** The client state once [call1] has registered the call. *)
Definition issued (c : rpcc) : rpcc :=
  c_set_calls (c_set_xid c (wrap 32 (c_xid c + 1)))
    (<[to_signed 32 (c_xid c) := Caller (c_xid c) unmarshall_empty None false]> (c_calls c)).

Lemma client_got_reply `{WireSpec R} c rb rsz ret (r : R) : client_inv c ->
  decodes_to rb rsz (ReplyHeader (to_signed 32 (c_xid c)) ret) r ->
  exists u u' w R, rpcc_got_pdu (issued c) rb rsz =
      Some (c_set_calls (c_set_window (issued c) w)
        (<[to_signed 32 (c_xid c) := Caller (c_xid c) u (Some ret) true]> (c_calls c))) /\
    window_repr w R /\ (forall x, R x -> x <= c_xid c) /\ R (c_xid c) /\
    wget u = Some (u', r) /\ okdone u' = true.
Proof.
  intros [? ? Hx Hfresh (R0 & Hw & HR)] (ur & ur' & Hu & Ho & Hg & Hd).
  assert (Hxu : in_u32 (c_xid c)) by (unfold in_u32; lia).
  destruct (update_xid_rep_repr _ _ (c_xid c) Hw ltac:(lia)) as (w & Hup & Hw').
  exists (take_in ur), ur', w, (fun x => R0 x \/ x = c_xid c). split_and!; [|done| |auto..].
  - unfold rpcc_got_pdu. rewrite Hu. cbn [mbind option_bind]. rewrite Ho. cbn [negb rp_xid rp_ret].
    rewrite wrap_signed_u32 by done. cbn [issued c_set_calls c_set_xid c_xid_rep_window].
    rewrite Hup. cbn [mbind option_bind c_set_window c_calls c_set_calls c_set_xid].
    change (c_calls (issued c)) with (<[to_signed 32 (c_xid c) := Caller (c_xid c) unmarshall_empty None false]> (c_calls c)).
    rewrite lookup_insert_eq. cbn [ca_done ca_xid]. by rewrite insert_insert_eq.
  - intros x [?%HR| ->]; lia.
Qed.

Lemma client_end c u w R ret xid_rep pdu : client_inv c -> c_xid c < 2 ^ 32 - 2 ->
  window_repr w R -> (forall x, R x -> x <= c_xid c) -> R (c_xid c) ->
  exists c', call1_end (c_set_calls (c_set_window (issued c) w)
      (<[to_signed 32 (c_xid c) := Caller (c_xid c) u (Some ret) true]> (c_calls c)))
      (c_xid c) xid_rep pdu = Some (c', u, ret) /\
    client_inv c' /\ c_xid c' = c_xid c + 1 /\ c_clt_nonce c' = c_clt_nonce c /\
    c_srv_nonce c' = c_srv_nonce c /\ c_bind_done c' = c_bind_done c /\
    c_destroy_wait c' = c_destroy_wait c.
Proof.
  intros [Hc Hs Hx Hfresh _] Hlt Hw HR HRx.
  destruct (update_xid_rep_repr _ _ (c_xid c) Hw ltac:(lia)) as (w' & Hup & Hw').
  assert (Hinv : forall d k, client_inv (c_set_dup (c_set_window (c_set_calls (issued c) (c_calls c)) w') d k)).
  { intros d k. split; cbn; [done|done|rewrite wrap_small by lia; lia| |].
    - intros x. rewrite wrap_small by lia. intros Hx'. apply Hfresh. lia.
    - rewrite wrap_small by lia. eexists. split; [done|]. cbn. intros x [?%HR| ->]; lia. }
  unfold call1_end. cbn [c_set_calls c_set_window c_calls c_xid_rep_window].
  rewrite lookup_insert_eq. cbn [mbind option_bind]. rewrite delete_insert_id by (apply Hfresh; lia).
  rewrite Hup. cbn [mbind option_bind ca_done ca_intret ca_un andb].
  eexists. split; [done|]. destruct (negb _).
  - cbn. split_and!; [apply Hinv|by rewrite wrap_small by lia|done..].
  - cbn. split_and!; [|by rewrite wrap_small by lia|done..].
    apply (Hinv (c_dup_req c) (c_xid_rep_done c)).
Qed.

Lemma issue_header_wf c proc f : client_inv c -> in_u32 f -> in_i32 proc ->
  req_header_wf (ReqHeader (to_signed 32 (c_xid c)) proc (c_clt_nonce c) (c_srv_nonce c) (to_signed 32 f)).
Proof.
  intros [Hc Hs Hx _ _] Hf Hp. split_and!; cbn [rq_xid rq_proc rq_clt_nonce rq_srv_nonce rq_xid_rep].
  - apply to_signed_i32. unfold in_u32. lia.
  - done.
  - done.
  - done.
  - by apply to_signed_i32.
Qed.

(** C23.  A remote call is a local call: when the client is bound to this server,
    the procedure is registered with [rpcs::reg] and no packet is lost, then
    marshalling, sending, dispatching, replying and unmarshalling run the method
    exactly as a local call would, on the caller's argument, and return its
    result; the endpoints are left ready for the next call. *)
Theorem rpc_call_correct {S A R : Type} `{WireSpec A} `{WireSpec R}
    procs junk (c : rpcc) (s : rpcs) (sob sob' : S) proc (a : A)
    (meth : S -> A -> option (S * R * Z)) (r : R) ret :
  client_inv c -> c_xid c < 2 ^ 32 - 2 -> in_sync c s -> c_bind_done c = true -> c_destroy_wait c = false ->
  1 < proc < 2 ^ 31 -> procs !! proc = Some (h1 meth) ->
  meth sob a = Some (sob', r, ret) -> 0 <= ret < 2 ^ 31 ->
  wwf a -> RPC_HEADER_SZ + Z.of_nat (length (wenc a)) <= MAX_CONTENT ->
  wwf r -> RPC_HEADER_SZ + Z.of_nat (length (wenc r)) <= MAX_CONTENT ->
  exists c' s', rpc_call procs junk c s sob proc a = Some (c', s', sob', (ret, Some r)) /\
    client_inv c' /\ in_sync c' s' /\ c_xid c' = c_xid c + 1.
Proof.
  intros Hc Hlt Hsync Hbound Hdw Hproc Hreg Hmeth Hret Ha Hasz Hr Hrsz.
  pose proof Hc as [_ _ Hx _ (R0 & Hw & HR)]. pose proof Hw as [_ Hrg (f & w & Hfw & Hlow & _)].
  rewrite Hfw in Hrg. inversion Hrg; subst.
  assert (Hf : f < c_xid c) by (apply HR, Hlow; lia).
  assert (Hp : to_signed 32 proc = proc) by (apply to_signed_small; unfold in_i32; lia).
  assert (Hfu : in_u32 f) by (unfold in_u32; lia).
  assert (Hh := issue_header_wf c proc f Hc Hfu ltac:(unfold in_i32; lia)).
  destruct (request_wire junk _ a Hh Ha Hasz) as (m & m' & b & u & u' & Hpa & Hk & Hb & Hu & Ho & Hg & Hd).
  unfold rpc_call. rewrite Hpa. cbn [mbind option_bind]. unfold call1_begin.
  rewrite Hbound, Hdw, Hfw. unfold rpc_const.bind. destruct (Z.eqb_spec proc 1); [lia|].
  cbn [negb andb orb head mbind option_bind]. rewrite Hp, Hk. cbn [mbind option_bind]. rewrite Hb.
  cbn [mbind option_bind].
  destruct (dispatch_fresh procs junk s sob sob' b (m_ind m') u u' _ a meth r ret
    Hu Ho Hg Hd Hh Hreg Hmeth Hret Hr Hrsz) as (s' & rb & rsz & Hds & Hdec & Haf);
    cbn [rq_xid rq_proc rq_clt_nonce rq_srv_nonce rq_xid_rep];
    rewrite ?wrap_signed_u32 by (unfold in_u32; lia).
  { symmetry. apply Hsync. }
  { done. }
  { apply Hsync. }
  { intros e He%(is_window _ _ Hsync). lia. }
  rewrite Hds. cbn [mbind option_bind foldr]. cbn [fst snd].
  destruct (client_got_reply c rb rsz ret r Hc Hdec) as (ub & ub' & w1 & R1 & Hgot & Hw1 & HR1 & HR1x & Hgr & Hdr).
  unfold issued in Hgot. rewrite Hgot. cbn [mbind option_bind].
  destruct (client_end c ub w1 R1 ret (to_signed 32 f) (take (Z.to_nat (m_ind m')) b) Hc Hlt Hw1 HR1 HR1x)
    as (c' & Hend & Hinv & Hxid & Hcn & Hsn & _). unfold issued in Hend.
  rewrite Hend. cbn [mbind option_bind]. unfold call_m_result, VERIFY.
  destruct (Z.ltb_spec ret 0); [lia|]. rewrite Hgr. cbn [mbind option_bind]. rewrite Hdr.
  cbn [mbind option_bind].
  exists c', s'. split_and!; [done|done| |done].
  destruct Haf as (Hn & Hmx & Hwin). cbn [rq_xid rq_clt_nonce rq_xid_rep] in *.
  rewrite !wrap_signed_u32 in * by (unfold in_u32; lia). destruct Hsync as [Hsy1 Hsy2 Hsy3].
  split; rewrite ?Hcn, ?Hsn, ?Hxid; [congruence|lia|].
  intros e [He|He]%Hwin; [apply Hsy3 in He|]; lia.
Qed.

(** ** Dispatch threads: at-most-once execution *)

Definition rkey : Type := Z * Z.
Definition key_of (h : req_header) : rkey := (rq_clt_nonce h, wrap 32 (rq_xid h)).

(** The server process: the endpoint, the object the handlers work on, the jobs
    whose handler has not run yet, the jobs that have a reply to record, and two
    logs: the handler executions with their replies and the replies sent. *)
Record server (S : Type) := Server {
  sv_rpcs : rpcs;
  sv_sob : S;
  sv_running : list (req_header * unmarshall * handler S);
  sv_replying : list (req_header * (list ascii * Z));
  sv_ran : list (rkey * (list ascii * Z));
  sv_sent : list (rkey * (list ascii * Z)) }.
Arguments Server {S}.
Arguments sv_rpcs {S}.
Arguments sv_sob {S}.
Arguments sv_running {S}.
Arguments sv_replying {S}.
Arguments sv_ran {S}.
Arguments sv_sent {S}.

Section Threads.
Context {S : Type} (procs : gmap Z (handler S)) (junk : ascii).

(** The threads of the pool interleave at the mutexes of [rpcs]; handlers are
    atomic (they take their own lock). Packets may be lost, repeated and reordered. *)
Inductive sstep : server S -> server S -> Prop :=
  | ss_start sv b sz s' h args f :
      dispatch_start procs junk (sv_rpcs sv) b sz = Some (s', Execute h args f) ->
      sstep sv (Server s' (sv_sob sv) ((h, args, f) :: sv_running sv) (sv_replying sv)
                  (sv_ran sv) (sv_sent sv))
  | ss_resend sv b sz s' h b1 sz1 :
      dispatch_start procs junk (sv_rpcs sv) b sz = Some (s', Resend h b1 sz1) ->
      sstep sv (Server s' (sv_sob sv) (sv_running sv) (sv_replying sv) (sv_ran sv)
                  ((key_of h, (b1, sz1)) :: sv_sent sv))
  | ss_refuse sv b sz s' b1 sz1 :
      dispatch_start procs junk (sv_rpcs sv) b sz = Some (s', Refuse b1 sz1) ->
      sstep sv (Server s' (sv_sob sv) (sv_running sv) (sv_replying sv) (sv_ran sv) (sv_sent sv))
  | ss_drop sv b sz s' :
      dispatch_start procs junk (sv_rpcs sv) b sz = Some (s', Drop) ->
      sstep sv (Server s' (sv_sob sv) (sv_running sv) (sv_replying sv) (sv_ran sv) (sv_sent sv))
  | ss_run sv l1 l2 h args f sob' p :
      sv_running sv = l1 ++ (h, args, f) :: l2 ->
      dispatch_run junk h args f (sv_sob sv) = Some (sob', p) ->
      sstep sv (Server (sv_rpcs sv) sob' (l1 ++ l2) ((h, p) :: sv_replying sv)
                  ((key_of h, p) :: sv_ran sv) (sv_sent sv))
  | ss_reply sv l1 l2 h p s' :
      sv_replying sv = l1 ++ (h, p) :: l2 ->
      dispatch_reply (sv_rpcs sv) h p.1 p.2 = Some s' ->
      sstep sv (Server s' (sv_sob sv) (sv_running sv) (l1 ++ l2) (sv_ran sv)
                  ((key_of h, p) :: sv_sent sv)).

Definition server_init (nonce : Z) (sob : S) : server S := Server (Rpcs nonce ∅ ∅) sob [] [] [] [].
Definition server_reachable (nonce : Z) (sob : S) : server S -> Prop :=
  rtc sstep (server_init nonce sob).

End Threads.

(** The request was received: it is in the window or its reply was acknowledged. *)
Definition seen (s : rpcs) (k : rkey) : Prop :=
  k.2 <= default 0 (s_max_xid_rep_sofar s !! k.1) \/
  exists e, e ∈ default [] (s_reply_window s !! k.1) /\ r_xid e = k.2.

(** The reply [p] of request [k] is in the window. *)
Definition saved (s : rpcs) (k : rkey) (p : list ascii * Z) : Prop :=
  Reply k.2 true (Some p.1) p.2 ∈ default [] (s_reply_window s !! k.1).

Lemma find_duplicate_Some xid l st : find_duplicate xid l = Some st ->
  st = INPROGRESS \/ exists b sz, st = DONE b sz /\ Reply xid true b sz ∈ l.
Proof.
  induction l as [|[x cb b sz] l IH]; simpl; [done|].
  destruct (Z.eqb_spec x xid) as [->|].
  - intros [= <-]. destruct cb; [right; exists b, sz; set_solver|by left].
  - intros [?|(b' & sz' & ? & ?)]%IH; [by left|right; exists b', sz'; set_solver].
Qed.

Lemma find_duplicate_None xid l e : find_duplicate xid l = None -> e ∈ l -> r_xid e <> xid.
Proof.
  induction l as [|x l IH]; simpl; [set_solver|].
  destruct (Z.eqb_spec (r_xid x) xid); [done|]. intros ? [->|?]%elem_of_cons; auto.
Qed.

(** Replacing one client's window and acknowledgement mark: requests stay seen if
    every entry dropped is acknowledged, replies saved come from the old window. *)
Lemma seen_update s n clt l' max' k :
  default 0 (s_max_xid_rep_sofar s !! clt) <= max' ->
  (forall e, e ∈ default [] (s_reply_window s !! clt) ->
     r_xid e <= max' \/ exists e', e' ∈ l' /\ r_xid e' = r_xid e) ->
  seen s k -> seen (Rpcs n (<[clt := l']> (s_reply_window s)) (<[clt := max']> (s_max_xid_rep_sofar s))) k.
Proof.
  intros Hmax Hl. unfold seen. cbn [s_reply_window s_max_xid_rep_sofar].
  destruct (decide (k.1 = clt)) as [->|Hne].
  - rewrite !lookup_insert_eq. cbn [default from_option id].
    intros [?|(e & [?|(e' & ? & He')]%Hl & He)]; [left; lia|left; lia|right; exists e'; by rewrite He'].
  - rewrite !lookup_insert_ne by done. done.
Qed.

Lemma saved_update s n clt l' M k p :
  (forall e, e ∈ l' -> e ∈ default [] (s_reply_window s !! clt) \/ r_cb_present e = false) ->
  saved (Rpcs n (<[clt := l']> (s_reply_window s)) M) k p -> saved s k p.
Proof.
  intros Hl. unfold saved. cbn [s_reply_window].
  destruct (decide (k.1 = clt)) as [->|Hne]; [|by rewrite lookup_insert_ne].
  rewrite lookup_insert_eq. cbn [default from_option id]. by intros [?|?]%Hl.
Qed.

Lemma checkduplicate_spec s clt xid xid_rep s' st :
  checkduplicate_and_update s clt xid xid_rep = Some (s', st) ->
  (forall k, seen s k -> seen s' k) /\ (forall k p, saved s' k p -> saved s k p) /\
  match st with
  | NEW => ~ seen s (clt, xid) /\ seen s' (clt, xid)
  | DONE b sz => forall b', b = Some b' -> saved s (clt, xid) (b', sz)
  | _ => True
  end.
Proof.
  unfold checkduplicate_and_update, VERIFY, s_set_window.
  destruct (s_reply_window s !! clt) as [l|] eqn:Hl; cbn [mbind option_bind]; [|done].
  case_bool; [|done]. cbn [s_nonce s_reply_window s_max_xid_rep_sofar].
  set (max := default 0 (s_max_xid_rep_sofar s !! clt)).
  set (max' := if max <? xid_rep then xid_rep else max).
  assert (Hmax : max <= max' /\ xid_rep <= max') by (unfold max'; case_bool; lia).
  assert (HlW : default [] (s_reply_window s !! clt) = l) by (by rewrite Hl).
  assert (Hid : <[clt:=l]> (s_reply_window s) = s_reply_window s) by (by apply insert_id).
  assert (Hseen : forall l', (forall e, e ∈ forget_received xid_rep l -> e ∈ l') -> forall k, seen s k ->
    seen (Rpcs (s_nonce s) (<[clt:=l']> (s_reply_window s)) (<[clt:=max']> (s_max_xid_rep_sofar s))) k).
  { intros l' Hl' k. apply seen_update; [apply Hmax|]. rewrite HlW. intros e He.
    destruct (decide (r_xid e <= max')) as [|Hgt]; [by left|right]. exists e. split; [|done].
    apply Hl', forget_received_elem. split; [done|lia]. }
  destruct (Z.leb_spec xid max') as [Hle|Hgt].
  { intros [= <- <-]. split_and!; [|by unfold saved|done].
    rewrite <-Hid. apply Hseen. intros e [? ?]%forget_received_elem. done. }
  destruct (find_duplicate xid _) as [st'|] eqn:Hd; intros [= <- <-].
  - split_and!; [by apply Hseen| |].
    + intros k p. apply saved_update. rewrite HlW. intros e [? ?]%forget_received_elem. by left.
    + destruct (find_duplicate_Some _ _ _ Hd) as [->|(b & sz & -> & Hin)]; [done|].
      intros b' ->. apply forget_received_elem in Hin as [? ?]. unfold saved. cbn [fst snd]. by rewrite HlW.
  - split_and!.
    + apply Hseen. set_solver.
    + intros k p. apply saved_update. rewrite HlW.
      intros e [[? ?]%forget_received_elem| ->%list_elem_of_singleton]%elem_of_app; [by left|by right].
    + unfold seen. cbn [fst snd]. fold max. rewrite HlW. intros [?|(e & He & Hxe)]; [lia|].
      eapply find_duplicate_None; [done| |done]. apply forget_received_elem. split; [done|lia].
    + right. exists (reply_new xid). cbn [fst snd s_reply_window]. rewrite lookup_insert_eq.
      cbn [default from_option id]. split; [set_solver|done].
Qed.

Lemma create_window_seen s clt k :
  seen (s_set_window s (<[clt := default [] (s_reply_window s !! clt)]> (s_reply_window s))) k <-> seen s k.
Proof.
  unfold seen. cbn [s_set_window s_reply_window s_max_xid_rep_sofar].
  destruct (decide (k.1 = clt)) as [->|Hne]; [by rewrite lookup_insert_eq|by rewrite lookup_insert_ne].
Qed.

Lemma create_window_saved s clt k p :
  saved (s_set_window s (<[clt := default [] (s_reply_window s !! clt)]> (s_reply_window s))) k p
    <-> saved s k p.
Proof.
  unfold saved. cbn [s_set_window s_reply_window].
  destruct (decide (k.1 = clt)) as [->|Hne]; [by rewrite lookup_insert_eq|by rewrite lookup_insert_ne].
Qed.

Lemma dispatch_start_spec {S : Type} (procs : gmap Z (handler S)) junk s b sz s' j :
  dispatch_start procs junk s b sz = Some (s', j) ->
  (forall k, seen s k -> seen s' k) /\ (forall k p, saved s' k p -> saved s k p) /\
  match j with
  | Execute h _ _ => rq_clt_nonce h = 0 \/ (~ seen s (key_of h) /\ seen s' (key_of h))
  | Resend h b1 sz1 => saved s (key_of h) (b1, sz1)
  | _ => True
  end.
Proof.
  unfold dispatch_start. intros H.
  destruct (unpack_req_header _) as [[req h]|]; cbn [mbind option_bind] in H; [|done].
  destruct (u_ok req); cbn [negb] in H; [|by simplify_eq].
  destruct (_ && _).
  { destruct (error_reply _ _ _) as [[b1 sz1]|]; cbn [mbind option_bind] in H; by simplify_eq. }
  destruct (procs !! _) as [f|]; cbn [mbind option_bind] in H; [|done].
  destruct (Z.eqb_spec (rq_clt_nonce h) 0); [simplify_eq; split_and!; auto|].
  rewrite alter_create in H.
  destruct (checkduplicate_and_update _ _ _ _) as [[s1 st]|] eqn:Hc; cbn [mbind option_bind] in H; [|done].
  apply checkduplicate_spec in Hc as (Hseen & Hsaved & Hst).
  setoid_rewrite create_window_seen in Hseen. setoid_rewrite create_window_saved in Hsaved.
  assert (s' = s1) as ->.
  { destruct st as [| |[b1|] sz1|]; cbn [mbind option_bind] in H; simplify_eq; try done.
    destruct (error_reply _ _ _) as [[b2 sz2]|]; cbn [mbind option_bind] in H; by simplify_eq. }
  split_and!; [done..|].
  destruct st as [| |[b1|] sz1|]; cbn [mbind option_bind] in H; simplify_eq; try done.
  - right. by rewrite create_window_seen in Hst.
  - specialize (Hst b1 eq_refl). by rewrite create_window_saved in Hst.
  - destruct (error_reply _ _ _) as [[b2 sz2]|]; cbn [mbind option_bind] in H; by simplify_eq.
Qed.

Lemma fill_reply_spec xid b sz l l' : fill_reply xid b sz l = Some l' ->
  map r_xid l' = map r_xid l /\ forall e, e ∈ l' -> e ∈ l \/ e = Reply xid true b sz.
Proof.
  revert l'. induction l as [|e l IH]; intros l'; simpl; [done|].
  destruct (Z.eqb_spec (r_xid e) xid) as [<-|].
  - intros [= <-]. split; [done|set_solver].
  - destruct (fill_reply xid b sz l) as [l0|]; cbn; [|done]. intros [= <-].
    destruct (IH l0 eq_refl) as [Hm He]. simpl. rewrite Hm. split; [done|set_solver].
Qed.

Lemma add_reply_spec s clt xid b sz s' : add_reply s clt xid (Some b) sz = Some s' ->
  (forall k, seen s k -> seen s' k) /\
  (forall k p, saved s' k p -> saved s k p \/ (k = (clt, xid) /\ p = (b, sz))).
Proof.
  unfold add_reply. destruct (fill_reply _ _ _ _) as [l'|] eqn:Hf; cbn [mbind option_bind]; [|done].
  intros [= <-]. apply fill_reply_spec in Hf as [Hm He]. unfold seen, saved.
  cbn [s_set_window s_reply_window s_max_xid_rep_sofar].
  split; intros k; destruct (decide (k.1 = clt)) as [Hk|Hk]; rewrite ?Hk;
    rewrite ?lookup_insert_eq, ?lookup_insert_ne by done; try tauto; cbn [default from_option id].
  - intros [?|(e & Hin & Hxe)]; [by left|right].
    assert (Hx : k.2 ∈ map r_xid l') by (rewrite Hm; apply list_elem_of_fmap; eauto).
    apply list_elem_of_fmap in Hx as (e' & He1 & He2). by exists e'.
  - intros p [?|[= <- <- <-]]%He; [by left|right]. destruct k, p; naive_solver.
Qed.

(** A key that needs at-most-once treatment. *)
Definition tracked (k : rkey) : Prop := k.1 <> 0.
#[export] Instance tracked_dec k : Decision (tracked k).
Proof. unfold tracked. apply _. Defined.

Definition executions {S : Type} (sv : server S) : list rkey :=
  filter tracked (map (fun j => key_of j.1.1) (sv_running sv) ++ map fst (sv_ran sv)).

Record server_inv {S : Type} (sv : server S) : Prop := {
  si_nodup : NoDup (executions sv);
  si_seen k : k ∈ executions sv -> seen (sv_rpcs sv) k;
  si_saved k p : saved (sv_rpcs sv) k p -> (k, p) ∈ sv_ran sv;
  si_replying h p : (h, p) ∈ sv_replying sv -> (key_of h, p) ∈ sv_ran sv;
  si_sent k p : (k, p) ∈ sv_sent sv -> (k, p) ∈ sv_ran sv }.

Lemma executions_run {S : Type} (s s' : rpcs) (sob sob' : S) l1 l2 h args f rp rp' ran p sent :
  executions (Server s' sob' (l1 ++ l2) rp' ((key_of h, p) :: ran) sent) ≡ₚ
  executions (Server s sob (l1 ++ (h, args, f) :: l2) rp ran sent).
Proof.
  unfold executions. cbn [sv_running sv_ran]. rewrite !map_app. simpl. apply filter_Permutation.
  rewrite <-!app_assoc. apply Permutation_app_head. simpl. by rewrite Permutation_middle.
Qed.

Lemma server_inv_step {S : Type} procs junk (sv sv' : server S) :
  sstep procs junk sv sv' -> server_inv sv -> server_inv sv'.
Proof.
  intros Hstep [Hnd Hseen Hsaved Hrep Hsent].
  inversion Hstep as [? b sz s' h args f Hd|? b sz s' h b1 sz1 Hd|? b sz s' b1 sz1 Hd|? b sz s' Hd
    |? l1 l2 h args f sob' p Hrun Hr|? l1 l2 h p s' Hrepl Hr]; subst; clear Hstep.
  1-4: apply dispatch_start_spec in Hd as (Hmono & Hanti & Hj).
  - unfold executions in *. cbn [sv_running sv_ran map app fst] in *.
    split; cbn [sv_rpcs sv_ran sv_replying sv_sent]; auto;
      unfold executions; cbn [sv_running sv_ran map app fst]; rewrite filter_cons; case_decide as Ht; auto;
      destruct Hj as [Hj|[Hn Hy]]; try done.
    + constructor; [|done]. intros Hin. by apply Hn, Hseen.
    + intros k [->|?]%elem_of_cons; auto.
  - split; cbn; auto. intros k p [[= -> ->]|?]%elem_of_cons; auto.
  - split; cbn; auto.
  - split; cbn; auto.
  - destruct sv as [s0 sob0 running rep0 ran0 sent0]. cbn in Hrun. subst running.
    pose proof (executions_run s0 s0 sob0 sob' l1 l2 h args f rep0 ((h, p) :: rep0) ran0 p sent0) as Hex.
    split; cbn [sv_rpcs sv_sob sv_running sv_replying sv_ran sv_sent] in *.
    + by rewrite Hex.
    + intros k. rewrite Hex. apply Hseen.
    + intros k p' ?%Hsaved. by right.
    + intros h' p' [[= -> ->]|?%Hrep]%elem_of_cons; [by left|by right].
    + intros k p' ?%Hsent. by right.
  - assert (Hin : (key_of h, p) ∈ sv_ran sv) by (apply Hrep; rewrite Hrepl; set_solver).
    assert (Hs : (forall k, seen (sv_rpcs sv) k -> seen s' k) /\
      (forall k q, saved s' k q -> saved (sv_rpcs sv) k q \/ (k = key_of h /\ q = p))).
    { unfold dispatch_reply in Hr. destruct (0 <? _); [|simplify_eq; auto].
      apply add_reply_spec in Hr. by destruct p. }
    destruct Hs as [Hmono Hanti]. split; cbn; auto.
    + intros k q [?|[-> ->]]%Hanti; auto.
    + intros h' p' Hin'. apply Hrep. rewrite Hrepl. set_solver.
    + intros k q [[= -> ->]|?]%elem_of_cons; auto.
Qed.

Lemma server_inv_init {S : Type} nonce (sob : S) : server_inv (server_init nonce sob).
Proof.
  split; cbn; [constructor|set_solver| |set_solver..].
  intros k p. unfold saved. cbn. rewrite lookup_empty. cbn. set_solver.
Qed.

Lemma server_inv_reachable {S : Type} procs junk nonce sob (sv : server S) :
  server_reachable procs junk nonce sob sv -> server_inv sv.
Proof.
  intros H. unfold server_reachable in H. pose proof (server_inv_init nonce sob) as Hi.
  induction H as [|sv1 sv2 sv3 Hstep _ IH]; [done|]. by eapply IH, server_inv_step.
Qed.

(** C3.  At-most-once execution: however requests are lost, repeated, reordered
    and interleaved with the handlers of other dispatch threads, no request of a
    client that asks for at-most-once semantics (a non-zero nonce) has its handler
    run twice. *)
Theorem at_most_once {S : Type} procs junk nonce sob (sv : server S) :
  server_reachable procs junk nonce sob sv -> NoDup (filter tracked (map fst (sv_ran sv))).
Proof.
  intros [Hnd _ _ _ _]%server_inv_reachable. unfold executions in Hnd.
  rewrite filter_app in Hnd. by apply NoDup_app in Hnd as (_ & _ & ?).
Qed.

(**  A repeated request gets the reply of its one execution: every reply sent
    for a request, at first or again from the reply window, is the packet its
    handler produced, so all replies to one request are equal. *)
Theorem replies_agree {S : Type} procs junk nonce sob (sv : server S) k p q :
  server_reachable procs junk nonce sob sv -> tracked k ->
  (k, p) ∈ sv_sent sv -> (k, q) ∈ sv_sent sv -> p = q /\ (k, p) ∈ sv_ran sv.
Proof.
  intros [Hnd _ _ _ Hsent]%server_inv_reachable Hk Hp%Hsent Hq%Hsent. split; [|done].
  unfold executions in Hnd. rewrite filter_app in Hnd. apply NoDup_app in Hnd as (_ & _ & Hnd).
  revert Hnd Hp Hq. generalize (sv_ran sv). intros l. induction l as [|[k' r] l IH]; [set_solver|].
  cbn [map fst]. rewrite filter_cons.
  assert (Hmem : forall r', (k, r') ∈ l -> k ∈ filter tracked (map fst l)).
  { intros r' Hin. apply list_elem_of_filter. split; [done|]. apply list_elem_of_fmap. by exists (k, r'). }
  intros Hnd [Hp|Hp]%elem_of_cons [Hq|Hq]%elem_of_cons; [congruence| | |].
  - injection Hp as <- <-. rewrite decide_True in Hnd by done. inversion Hnd. by apply Hmem in Hq.
  - injection Hq as <- <-. rewrite decide_True in Hnd by done. inversion Hnd. by apply Hmem in Hp.
  - apply IH; [|done..]. case_decide; [by inversion Hnd|done].
Qed.

Lemma window_repr_ext w R R' : (forall x, R x <-> R' x) -> window_repr w R -> window_repr w R'.
Proof.
  intros HR [? ? (f & w' & ? & Hlow & Hf & Hh)]. split; [done..|]. exists f, w'.
  split_and!; [done| | |].
  - intros x Hx. by apply HR, Hlow.
  - by rewrite <-HR.
  - intros x Hx. rewrite <-HR. by apply Hh.
Qed.

Lemma update_all_repr l : Forall (fun x => 0 <= x < 2 ^ 32 - 1) l -> forall w R, window_repr w R ->
  exists w', foldl (fun o x => w ← o; update_xid_rep w x) (Some w) l = Some w' /\
    window_repr w' (fun x => R x \/ x ∈ l).
Proof.
  induction 1 as [|x l Hx _ IH]; intros w R Hw.
  - exists w. split; [done|]. apply (window_repr_ext _ R); [set_solver|done].
  - destruct (update_xid_rep_repr w R x Hw Hx) as (w1 & Hu & Hw1).
    destruct (IH _ _ Hw1) as (w' & Hf & Hw'). exists w'. cbn [foldl mbind option_bind]. rewrite Hu.
    split; [done|]. eapply window_repr_ext; [|done]. set_solver.
Qed.

(**  The client's window is exact: after any sequence of call numbers seen
    (replies or timeouts, in any order, with repetitions) the front of the window,
    which the client sends as [xid_rep], is the largest number up to which all
    calls have been seen, and the rest are the calls seen beyond it. *)
Theorem xid_rep_exact (l : list Z) : Forall (fun x => 1 <= x < 2 ^ 32 - 1) l ->
  exists f w, foldl (fun o x => w ← o; update_xid_rep w x) (Some [0]) l = Some (f :: w) /\
    (forall x, 1 <= x <= f -> x ∈ l) /\ (f + 1 ∉ l) /\ (forall x, f < x -> x ∈ l <-> x ∈ w) /\
    StronglySorted Z.le (f :: w).
Proof.
  intros Hl. destruct (update_all_repr l) with (w := [0]) (R := fun x => x = 0)
    as (w & Hfold & [Hs Hr (f & w' & -> & Hlow & Hf & Hh)]).
  - eapply Forall_impl; [done|]. simpl. lia.
  - split; [repeat constructor|repeat constructor; lia|]. exists 0, [].
    split_and!; [done|lia|lia|]. intros x Hx. split; [lia|set_solver].
  - exists f, w'. inversion Hr; subst. split_and!; [done| |tauto| |done].
    + intros x Hx. destruct (Hlow x ltac:(lia)); [lia|done].
    + intros x Hx. rewrite <-Hh by done. split; [auto|]. intros [?|?]; [lia|done].
Qed.

(** *** An in-progress request can be forgotten *)

(** A client (nonce 5) makes call 1, gives up on it after the timeout and makes
    call 2; the server still runs call 1 when call 2 arrives. *)
Definition slow_call : option (option rpcs) :=
  let c0 := c_set_bound (rpcc_new 5 0 true) 9 in
  '(c1, r1) ← call1_begin c0 2;
  '(c2, _, _) ← call1_end c1 1 0 [];
  '(c3, r2) ← call1_begin c2 2;
  match r1, r2 with
  | inr (ha, _), inr (hb, _) =>
      let s0 := Rpcs 9 {[5 := []]} ∅ in
      '(s1, _) ← checkduplicate_and_update s0 5 (wrap 32 (rq_xid ha)) (wrap 32 (rq_xid_rep ha));
      '(s2, _) ← checkduplicate_and_update s1 5 (wrap 32 (rq_xid hb)) (wrap 32 (rq_xid_rep hb));
      Some (dispatch_reply s2 ha [] 0)
  | _, _ => None
  end.

(**  [add_reply] can run off the reply window: a timed-out call counts as seen
    in the client's window, so the next request acknowledges it and the server
    deletes its entry although the handler still runs; when the handler returns,
    [add_reply] finds no entry and dereferences the end iterator. *)
Theorem add_reply_after_timeout : slow_call = Some None.
Proof. vm_compute. reflexivity. Qed.

(** ** Concrete runs *)

(** A counter object with one procedure: count the call, echo the string. *)
Definition echo_meth (n : nat) (a : string) : option (nat * string * Z) :=
  Some (S n, String.append a "!", 0).
Definition echo_procs : gmap Z (handler nat) := {[28673 := h1 echo_meth]}.
Definition echo_client : rpcc := c_set_bound (rpcc_new 5 0 true) 9.

Lemma rpc_call_correct_witness : exists c' s',
  rpc_call echo_procs "000"%char echo_client (Rpcs 9 ∅ ∅) 0%nat 28673 "hi"%string =
    Some (c', s', 1%nat, (0, Some "hi!"%string)) /\
  client_inv c' /\ in_sync c' s' /\ c_xid c' = c_xid echo_client + 1.
Proof.
  apply (rpc_call_correct echo_procs "000"%char echo_client (Rpcs 9 ∅ ∅) 0%nat 1%nat 28673
    "hi"%string echo_meth "hi!"%string 0); try done.
  - split; [done|done|done|done|]. exists (fun x => x = 0). split; [|intros x ->; done].
    split; [repeat constructor|by apply Forall_singleton|]. exists 0, [].
    split_and!; [done|intros; lia|done|]. intros x Hx. split; [lia|by intros ?%elem_of_nil].
  - split; [done|done|]. by intros e ?%elem_of_nil.
Defined.

Definition echo_pdu : list ascii * Z :=
  default ([], 0) (m ← wput (marshall_new "000"%char) "hi"%string;
    m ← pack_req_header m (ReqHeader 1 28673 5 9 0); b ← m_buf m; Some (b, m_ind m)).

(** A request that arrives twice: executed, then answered from the window. *)
Definition duplicate_run {S : Type} (procs : gmap Z (handler S)) (junk : ascii) (nonce : Z) (sob : S)
    (b : list ascii) (sz : Z) : option (server S) :=
  '(s1, j) ← dispatch_start procs junk (Rpcs nonce ∅ ∅) b sz;
  match j with
  | Execute h args f =>
      '(n, p) ← dispatch_run junk h args f sob;
      s2 ← dispatch_reply s1 h p.1 p.2;
      '(s3, j') ← dispatch_start procs junk s2 b sz;
      match j' with
      | Resend h' b1 sz1 =>
          Some (Server s3 n [] [] [(key_of h, p)] [(key_of h', (b1, sz1)); (key_of h, p)])
      | _ => None
      end
  | _ => None
  end.

Lemma duplicate_run_reachable {S : Type} procs junk nonce (sob : S) b sz sv :
  duplicate_run procs junk nonce sob b sz = Some sv -> server_reachable procs junk nonce sob sv.
Proof.
  unfold duplicate_run. intros H.
  destruct (dispatch_start _ _ _ _ _) as [[s1 j]|] eqn:H1; cbn [mbind option_bind] in H; [|done].
  destruct j as [| | |h args f]; try done.
  destruct (dispatch_run _ _ _ _ _) as [[n p]|] eqn:H2; cbn [mbind option_bind] in H; [|done].
  destruct (dispatch_reply _ _ _ _) as [s2|] eqn:H3; cbn [mbind option_bind] in H; [|done].
  destruct (dispatch_start _ _ s2 _ _) as [[s3 j']|] eqn:H4; cbn [mbind option_bind] in H; [|done].
  destruct j' as [| |h' b1 sz1|]; try done. injection H as <-.
  eapply rtc_l; [by eapply (ss_start _ _ (server_init nonce sob))|].
  eapply rtc_l; [by eapply (ss_run _ _ (Server _ _ [_] _ _ _) [] [])|].
  eapply rtc_l; [by eapply (ss_reply _ _ (Server _ _ _ [_] _ _) [] [])|].
  eapply rtc_once. by eapply (ss_resend _ _ (Server _ _ _ _ _ _)).
Qed.

Definition echo_run : option (server nat) :=
  duplicate_run echo_procs "000"%char 9 0%nat echo_pdu.1 echo_pdu.2.

Lemma at_most_once_witness : exists sv, echo_run = Some sv /\ length (sv_ran sv) = 1%nat /\
  NoDup (filter tracked (map fst (sv_ran sv))).
Proof.
  assert (Hsome : is_Some echo_run) by (vm_compute; eauto).
  destruct Hsome as [sv Hrun].
  exists sv. split; [exact Hrun|split].
  - assert (Hl : (length ∘ sv_ran <$> echo_run) = Some 1%nat) by by vm_compute.
    rewrite Hrun in Hl. cbn in Hl. congruence.
  - apply duplicate_run_reachable in Hrun. exact (at_most_once echo_procs "000"%char 9 0%nat sv Hrun).
Defined.

Lemma xid_rep_exact_witness :
  exists f w, foldl (fun o x => w ← o; update_xid_rep w x) (Some [0]) [2; 4; 1; 2] = Some (f :: w) /\
    (forall x, 1 <= x <= f -> x ∈ [2; 4; 1; 2]) /\ f + 1 ∉ [2; 4; 1; 2] /\
    (forall x, f < x -> x ∈ [2; 4; 1; 2] <-> x ∈ w) /\ StronglySorted Z.le (f :: w).
Proof. apply (xid_rep_exact [2; 4; 1; 2]). by repeat (apply Forall_cons; split). Defined.

Lemma replies_agree_witness : exists sv k p q, echo_run = Some sv /\ sv_sent sv = [(k, p); (k, q)] /\
  p = q /\ (k, p) ∈ sv_ran sv.
Proof.
  assert (Hsome : is_Some echo_run) by (vm_compute; eauto).
  destruct Hsome as [sv Hrun].
  assert (Hl : (map fst ∘ sv_sent <$> echo_run) = Some [(5, 1); (5, 1)]) by by vm_compute.
  rewrite Hrun in Hl. cbn in Hl.
  destruct (sv_sent sv) as [|[k p] [|[k' q] [|]]] eqn:Hs; try discriminate Hl. injection Hl as -> ->.
  exists sv, (5, 1), p, q. split; [exact Hrun|]. split; [exact Hs|].
  apply duplicate_run_reachable in Hrun.
  apply (replies_agree echo_procs "000"%char 9 0%nat sv (5, 1) p q);
    [exact Hrun|discriminate|rewrite Hs; left|rewrite Hs; right; left].
Defined.
