(* ===== verification/RpcWait.v ===== *)
(** * Deadlines of a call

    Models the loop of [rpcc::call1] in src/mit_6.824/rpc/rpc.cc that sends a request and
    waits for its reply, with the functions on times that it uses.  The clock, the
    connections and what ends each wait are arguments.  [pthread_cond_timedwait] refuses a
    time whose nanoseconds are not below a second; the code then waits again at once, with the
    mutex held, for ever: [None], as for an [int] that overflows.  The theorem at the end: a
    call is over after at most 21 rounds, with the reply, or no earlier than its timeout,
    unless its deadline falls on a full second. *)

From Stdlib Require Import ZArith Lia.
From stdpp Require Import base list.
From S2P Require Import Prelude Loops.

Local Open Scope Z_scope.
Local Open Scope cpp_scope.

Definition SECOND : Z := 1000000000.
Record timespec := Timespec { tv_sec : Z; tv_nsec : Z }.

(** ** The program *)

Definition cmp_timespec (a b : timespec) : Z :=
  if tv_sec b <? tv_sec a then 1
  else if tv_sec a <? tv_sec b then -1
  else if tv_nsec b <? tv_nsec a then 1
  else if tv_nsec a <? tv_nsec b then -1
  else 0.

Definition carry_step (r : timespec) : option (timespec + timespec) :=
  Some (if SECOND <? tv_nsec r then inl (Timespec (tv_sec r + 1) (tv_nsec r - SECOND)) else inr r).
Definition add_timespec (a : timespec) (b : Z) : option timespec :=
  let r := Timespec (tv_sec a + Z.quot b 1000) (tv_nsec a + Z.rem b 1000 * 1000000) in
  VERIFY! 0 <=? tv_nsec r ;;
  loop (S (Z.to_nat (tv_nsec r / SECOND))) carry_step r.

Definition diff_timespec (e s : timespec) : option Z :=
  let diff := to_signed 32 (if tv_sec s <? tv_sec e then (tv_sec e - tv_sec s) * 1000 else 0) in
  VERIFY! negb (diff =? 0) || (tv_sec e =? tv_sec s) ;;
  Some (to_signed 32 (if tv_nsec s <? tv_nsec e then diff + Z.quot (tv_nsec e - tv_nsec s) 1000000
                      else diff - Z.quot (tv_nsec s - tv_nsec e) 1000000)).

Definition to_max : Z := 120000.
Definition to_min : Z := 1000.

(** How the wait of a round ends: the reply was there before it, it comes during it, or the
    deadline passes. *)
Inductive wait := Before | During | TimedOut.

(** [pthread_cond_timedwait] until the call is done or the deadline has passed. *)
Definition timedwait (deadline : timespec) (w : wait) : option bool :=
  match w with
  | Before => Some true
  | _ =>
      if (0 <=? tv_nsec deadline) && (tv_nsec deadline <? SECOND)
      then Some (match w with TimedOut => false | _ => true end) else None
  end.

(** The variables of the loop, with the number of the round, the rounds that sent the
    request, the deadline of the last wait and whether the call is done. *)
Record waiting := Waiting {
  w_round : nat; w_transmit : bool; w_ch : bool; w_final : timespec; w_to : Z; w_sent : list nat; w_deadline : timespec; w_done : bool }.

Section Call.
(** In round [i]: the time, whether [get_refconn] has a connection, whether the connection is
    dead after the wait, and the wait. *)
Context (retrans : bool) (clock : nat -> timespec) (conn dead : nat -> bool) (event : nat -> wait).

Definition call1_round (s : waiting) : option (waiting + waiting) :=
  let i := w_round s in
  let ch := if w_transmit s then conn i || w_ch s else w_ch s in
  let sent := if w_transmit s && ch then w_sent s ++ [i] else w_sent s in
  if tv_sec (w_final s) =? 0 then Some (inr (Waiting i false ch (w_final s) (w_to s) sent (w_deadline s) false))
  else
    next ← add_timespec (clock i) (w_to s);
    let late := 0 <? cmp_timespec next (w_final s) in
    let deadline := if late then w_final s else next in
    let final := if late then Timespec 0 (tv_nsec (w_final s)) else w_final s in
    is_done ← timedwait deadline (event i);
    if is_done : bool then Some (inr (Waiting i false ch final (w_to s) sent deadline true))
    else
      curr_to ← int32 (w_to s * 2);
      Some (inl (Waiting (S i) (retrans && (negb ch || dead i)) ch final curr_to sent deadline false)).

(** From the time [now] on, for a timeout of [to] milliseconds. *)
Definition call1_wait (fuel : nat) (now : timespec) (to : Z) : option waiting :=
  final ← add_timespec now to;
  loop fuel call1_round (Waiting 0 true false final to_min [] final false).
End Call.

(** ** Times *)

Definition ns (t : timespec) : Z := tv_sec t * SECOND + tv_nsec t.
Definition normal (t : timespec) : Prop := 0 <= tv_nsec t < SECOND.

Lemma cmp_timespec_ok a b : normal a -> normal b -> (0 <? cmp_timespec a b) = (ns b <? ns a).
Proof.
  unfold normal, ns, cmp_timespec, SECOND. intros Ha Hb. destruct (Z.ltb_spec (tv_sec b) (tv_sec a)); [symmetry; apply Z.ltb_lt; lia|].
  destruct (Z.ltb_spec (tv_sec a) (tv_sec b)); [symmetry; apply Z.ltb_ge; lia|]. destruct (Z.ltb_spec (tv_nsec b) (tv_nsec a)); [symmetry; apply Z.ltb_lt; lia|].
  destruct (Z.ltb_spec (tv_nsec a) (tv_nsec b)); symmetry; apply Z.ltb_ge; lia.
Qed.

(** The nanoseconds may be a full second. *)
Lemma add_timespec_ok a b : normal a -> 0 <= b -> exists r, add_timespec a b = Some r /\ ns r = ns a + b * 1000000 /\ 0 <= tv_nsec r <= SECOND /\
  tv_sec a <= tv_sec r /\ (b mod 1000 = 0 -> normal r) /\ (tv_nsec a + b mod 1000 * 1000000 <> SECOND -> normal r).
Proof.
  unfold normal, ns, add_timespec, SECOND. intros Ha Hb. rewrite Z.quot_div_nonneg, Z.rem_mod_nonneg by lia. pose proof (Z.div_mod b 1000 ltac:(lia)) as Hdm.
  pose proof (Z.mod_pos_bound b 1000 ltac:(lia)) as Hm. pose proof (Z.div_pos b 1000 ltac:(lia) ltac:(lia)) as Hq. set (q := b / 1000) in *. set (m := b mod 1000) in *. cbn [tv_sec tv_nsec].
  set (n := tv_nsec a + m * 1000000) in *. assert (Hn : 0 <= n < 2000000000) by lia. unfold VERIFY. destruct (Z.leb_spec 0 n); [|lia].
  cbn [loop carry_step tv_nsec tv_sec mbind option_bind]. unfold SECOND. destruct (Z.ltb_spec 1000000000 n).
  - assert (n / 1000000000 = 1) as -> by (symmetry; apply (Z.div_unique _ _ _ (n - 1000000000)); lia). change (Z.to_nat 1) with 1%nat.
    cbn [loop carry_step tv_nsec tv_sec mbind option_bind]. unfold SECOND. cbn [tv_nsec]. destruct (Z.ltb_spec 1000000000 (n - 1000000000)); [lia|].
    eexists. split; [done|]. cbn [tv_sec tv_nsec]. lia.
  - eexists. split; [done|]. cbn [tv_sec tv_nsec]. lia.
Qed.

(** [diff_timespec] undoes [add_timespec]. *)
Lemma diff_timespec_add a b r : normal a -> 0 <= b <= 2 ^ 31 - 1000 -> add_timespec a b = Some r -> diff_timespec r a = Some b.
Proof.
  intros Ha Hb E. destruct (add_timespec_ok a b Ha ltac:(lia)) as (r' & E' & Hns & Hr & Hs & _). rewrite E in E'. injection E' as <-.
  unfold ns, normal, SECOND in *. unfold diff_timespec, VERIFY.
  assert (Hsm : forall x, 0 <= x < 2 ^ 31 -> to_signed 32 x = x).
  { intros x Hx. rewrite <- (to_signed_wrap x) at 2 by (unfold in_i32; lia). unfold to_signed, wrap. by rewrite Z.mod_mod by lia. }
  set (k := b - 1000 * (tv_sec r - tv_sec a)). assert (Hk : tv_nsec r - tv_nsec a = k * 1000000) by lia. assert (-1000 < k <= 1000) by lia.
  assert ((if tv_sec a <? tv_sec r then (tv_sec r - tv_sec a) * 1000 else 0) = (tv_sec r - tv_sec a) * 1000) as -> by (destruct (Z.ltb_spec (tv_sec a) (tv_sec r)); lia).
  rewrite Hsm by lia. destruct (negb ((tv_sec r - tv_sec a) * 1000 =? 0) || (tv_sec r =? tv_sec a)) eqn:V.
  2: { apply orb_false_iff in V as [V1 V2]. apply negb_false_iff, Z.eqb_eq in V1. apply Z.eqb_neq in V2. lia. }
  destruct (Z.ltb_spec (tv_nsec a) (tv_nsec r)).
  - rewrite Hk, Z.quot_mul by lia. rewrite Hsm by lia. f_equal. lia.
  - replace (tv_nsec a - tv_nsec r) with (- k * 1000000) by lia. rewrite Z.quot_mul by lia. rewrite Hsm by lia. f_equal. lia.
Qed.

(** ** A call comes to an end *)

Section Ends.
Context (retrans : bool) (clock : nat -> timespec) (conn dead : nat -> bool) (event : nat -> wait) (start : timespec) (to : Z).
(** The clock shows times after 1970 and does not go back, and a wait times out only when its
    deadline, which in round [i] is [to_min] doubled [i] times from now, has passed. *)
Context (Hclock : forall i, normal (clock i)) (Hstart : normal start) (Hpos : 0 < tv_sec start) (Hfirst : ns start <= ns (clock O)).
Context (Hpassed : forall i, event i = TimedOut -> ns (clock i) + 2 ^ Z.of_nat i * SECOND <= ns (clock (S i))).
Context (Hto : 0 <= to <= 1000000000) (Hexact : tv_nsec start + to mod 1000 * 1000000 <> SECOND).

Lemma clock_after i : (forall j, (j < i)%nat -> event j = TimedOut) -> ns start + (2 ^ Z.of_nat i - 1) * SECOND <= ns (clock i).
Proof using Hfirst Hpassed.
  induction i as [|i IH]; intros Hev; [cbn [Z.of_nat]; lia|]. specialize (IH ltac:(intros; apply Hev; lia)). specialize (Hpassed i ltac:(apply Hev; lia)).
  rewrite Nat2Z.inj_succ, Z.pow_succ_r by lia. unfold SECOND in *. lia.
Qed.

(** A state of the loop: every round so far has timed out. *)
Record in_loop (F : timespec) (s : waiting) : Prop := {
  il_to : w_to s = to_min * 2 ^ Z.of_nat (w_round s);
  il_events : forall j, (j < w_round s)%nat -> event j = TimedOut;
  il_final : (w_final s = F /\ (w_round s <= 19)%nat) \/ (tv_sec (w_final s) = 0 /\ w_deadline s = F /\ (w_round s <= 20)%nat) }.
(** The rounds that can follow. *)
Definition budget (s : waiting) : nat := if tv_sec (w_final s) =? 0 then 0%nat else (20 - w_round s)%nat.
Definition over (F : timespec) (s : waiting) : Prop :=
  (w_round s <= 20)%nat /\ (forall j, (j < w_round s)%nat -> event j = TimedOut) /\
  if w_done s then event (w_round s) <> TimedOut else w_deadline s = F.

Lemma round_number (i : nat) : 2 ^ (Z.of_nat i + 1) <= 1000001 -> (i <= 18)%nat.
Proof using. intros H. destruct (le_lt_dec i 18); [done|]. assert (2 ^ 20 <= 2 ^ (Z.of_nat i + 1)) by (apply Z.pow_le_mono_r; lia). cbn in *. lia. Qed.

Lemma call1_round_ok F s : add_timespec start to = Some F -> in_loop F s -> exists r, call1_round retrans clock conn dead event s = Some r /\
  match r with
  | inl s' => in_loop F s' /\ (budget s' < budget s)%nat
  | inr s' => over F s'
  end.
Proof using Hclock Hstart Hpos Hfirst Hpassed Hto Hexact.
  intros HF [Ht He Hf]. destruct (add_timespec_ok start to Hstart ltac:(lia)) as (F' & E & HFns & _ & HFs & _ & HFn). rewrite HF in E. injection E as <-. specialize (HFn Hexact).
  unfold call1_round. set (i := w_round s) in *. destruct (Z.eqb_spec (tv_sec (w_final s)) 0) as [Hz|Hnz].
  { eexists. split; [done|]. destruct Hf as [[E _]|(_ & Hd & Hi)]; [rewrite E in Hz; lia|]. split; [done|]. by split. }
  destruct Hf as [[EF Hi]|[? _]]; [|lia]. rewrite EF. assert (Hp : 1 <= 2 ^ Z.of_nat i <= 2 ^ 19) by (split; [change 1 with (2 ^ 0)|]; apply Z.pow_le_mono_r; lia).
  destruct (add_timespec_ok (clock i) (w_to s) (Hclock i)) as (next & -> & Hnns & _ & _ & Hnn & _); [rewrite Ht; unfold to_min; lia|]. cbn [mbind option_bind].
  specialize (Hnn ltac:(rewrite Ht; unfold to_min; rewrite Z.mul_comm; apply Z.mod_mul; lia)). rewrite cmp_timespec_ok by done.
  pose proof (clock_after i He) as Hca. rewrite Ht in Hnns. unfold to_min in Hnns.
  assert (Hnext : ns next <= ns F -> (i <= 18)%nat). { intros Hle. apply round_number. rewrite Z.pow_add_r by lia. unfold SECOND in *. lia. }
  set (late := ns F <? ns next). assert (Hw : forall w, event i = w -> timedwait (if late then F else next) w = Some (match w with TimedOut => false | _ => true end)).
  { intros w _. unfold timedwait. assert (normal (if late then F else next)) as [H1 H2] by (by destruct late). destruct (Z.leb_spec 0 (tv_nsec (if late then F else next))); [|lia].
    destruct (Z.ltb_spec (tv_nsec (if late then F else next)) SECOND); [|lia]. by destruct w. }
  rewrite (Hw _ eq_refl). cbn [mbind option_bind]. destruct (event i) eqn:Ev.
  1,2: eexists; (split; [done|]); (split; [cbn; lia|]); (split; [done|]); cbn; congruence.
  rewrite int32_ok by (unfold in_i32; rewrite Ht; unfold to_min; lia). cbn [mbind option_bind]. eexists. split; [done|]. split.
  - split; cbn [w_to w_round w_final w_deadline].
    + rewrite Ht, Nat2Z.inj_succ, Z.pow_succ_r by lia. lia.
    + intros j Hj. destruct (decide (j = i)) as [->|]; [done|]. apply He. lia.
    + unfold late. destruct (Z.ltb_spec (ns F) (ns next)) as [Hl|Hl]; [right|left].
      * split; [done|]. split; [done|lia].
      * split; [done|]. specialize (Hnext Hl). lia.
  - unfold budget. cbn [w_final w_round]. rewrite EF in Hnz |- *. fold i. destruct (Z.eqb_spec (tv_sec F) 0) as [|_]; [lia|]. unfold late. destruct (Z.ltb_spec (ns F) (ns next)) as [Hl|Hl]; [cbn; lia|]. specialize (Hnext Hl). destruct (Z.eqb_spec (tv_sec F) 0); lia.
Qed.
End Ends.

(** When the deadline falls on a full second [add_timespec] does not carry, and the wait until
    it is refused. *)
Lemma exact_second start to : normal start -> 0 <= to -> tv_nsec start + to mod 1000 * 1000000 = SECOND ->
  add_timespec start to = Some (Timespec (tv_sec start + to / 1000) SECOND).
Proof.
  intros Hs Hto E. unfold add_timespec. rewrite Z.quot_div_nonneg, Z.rem_mod_nonneg by lia. cbn [tv_sec tv_nsec]. rewrite E. reflexivity.
Qed.

Lemma exact_second_spins retrans clock conn dead event F fuel : (forall i, normal (clock i)) -> 0 < tv_sec F -> tv_nsec F = SECOND -> (forall i, event i = TimedOut) ->
  forall s, w_final s = F -> 0 <= w_to s -> w_to s mod 1000 = 0 -> loop fuel (call1_round retrans clock conn dead event) s = None.
Proof.
  intros Hc HF HFn Hev. induction fuel as [|fuel IH]; intros s Hf Ht Hm; [done|]. cbn [loop]. unfold call1_round. rewrite Hf, Hev, (proj2 (Z.eqb_neq (tv_sec F) 0)) by lia.
  destruct (add_timespec_ok (clock (w_round s)) (w_to s) (Hc _) Ht) as (next & -> & _ & _ & _ & Hn & _). specialize (Hn Hm). cbn [mbind option_bind]. unfold timedwait.
  destruct (0 <? cmp_timespec next F); [by rewrite HFn|]. destruct Hn as [H1 H2]. rewrite (proj2 (Z.leb_le _ _) H1), (proj2 (Z.ltb_lt _ _) H2). cbn [andb mbind option_bind].
  destruct (int32 (w_to s * 2)) as [x|] eqn:E; [|done]. assert (x = w_to s * 2) as -> by (unfold int32 in E; destruct (_ && _) in E; congruence).
  cbn [mbind option_bind]. apply IH; [done|cbn; lia|]. cbn. rewrite Z.mul_mod, Hm by lia. done.
Qed.

(** C35. When a call comes to an end.  For a timeout [to] of at most 1,000,000 seconds, a clock
    that does not go back, and waits that time out only when their deadline has passed: if the
    end of the timeout is not on a full second exactly, the loop ends, in at most 21 rounds,
    and no [int] overflows; either the reply has come in the last round, or every round has
    timed out and the last wait was until the end of the timeout, [to] milliseconds after the
    start.  But if it is, its time is one that [pthread_cond_timedwait] refuses, and without a
    reply the loop never ends. *)
Theorem call1_ends retrans (clock : nat -> timespec) conn dead event start to :
  (forall i, normal (clock i)) -> normal start -> 0 < tv_sec start -> ns start <= ns (clock O) ->
  (forall i, event i = TimedOut -> ns (clock i) + 2 ^ Z.of_nat i * SECOND <= ns (clock (S i))) ->
  0 <= to <= 1000000000 ->
  (tv_nsec start + to mod 1000 * 1000000 <> SECOND ->
   exists s, call1_wait retrans clock conn dead event 22 start to = Some s /\ (w_round s <= 20)%nat /\
    (forall j, (j < w_round s)%nat -> event j = TimedOut) /\
    if w_done s then event (w_round s) <> TimedOut else ns (w_deadline s) = ns start + to * 1000000) /\
  (tv_nsec start + to mod 1000 * 1000000 = SECOND -> (forall i, event i = TimedOut) ->
   forall fuel, call1_wait retrans clock conn dead event fuel start to = None).
Proof.
  intros Hc Hs Hp Hf Hpa Hto. split; [intros Hex|intros Hex Hev fuel].
  - destruct (add_timespec_ok start to Hs ltac:(lia)) as (F & HF & Hns & _). unfold call1_wait. rewrite HF. cbn [mbind option_bind].
    destruct (loop_ok (in_loop event F) (over event F) budget (call1_round retrans clock conn dead event)) with
      (fuel := 22%nat) (s := Waiting 0 true false F to_min [] F false) as (s & E & H1 & H2 & H3).
    + intros s. by apply (call1_round_ok retrans clock conn dead event start to).
    + split; cbn; [lia|lia|]. left. split; [done|lia].
    + unfold budget. cbn. destruct (tv_sec F =? 0); lia.
    + exists s. split; [done|]. split; [done|]. split; [done|]. destruct (w_done s); [done|]. by rewrite H3.
  - unfold call1_wait. rewrite (exact_second start to Hs) by (done || lia). cbn [mbind option_bind].
    apply (exact_second_spins retrans clock conn dead event (Timespec (tv_sec start + to / 1000) SECOND)); try done.
    cbn. pose proof (Z.div_pos to 1000). lia.
Qed.

(** A clock that is read when each wait has ended. *)
Definition late_clock (i : nat) : timespec := Timespec (100 + 2 ^ Z.of_nat i) 7.

Lemma call1_ends_witness : exists s, call1_wait true late_clock (fun i => i =? 2)%nat (fun _ => true) (fun _ => TimedOut) 22 (Timespec 100 5) 5000 = Some s /\
  w_done s = false /\ w_sent s = [2; 3]%nat.
Proof.
  destruct (call1_ends true late_clock (fun i => i =? 2)%nat (fun _ => true) (fun _ => TimedOut) (Timespec 100 5) 5000) as [H _].
  - intros i. unfold normal, late_clock, SECOND. cbn. lia.
  - unfold normal, SECOND. cbn. lia.
  - cbn. lia.
  - vm_compute. discriminate.
  - intros i _. unfold ns, late_clock, SECOND. cbn [tv_sec tv_nsec]. rewrite Nat2Z.inj_succ, Z.pow_succ_r by lia. lia.
  - lia.
  - destruct H as (s & E & _); [vm_compute; discriminate|]. exists s. split; [exact E|]. vm_compute in E. injection E as <-. split; reflexivity.
Defined.
