(* ===== verification/IoStream.v ===== *)
(** * C++ streams as the sources use them

    The parts of the standard library's streams that the paxos log
    (src/mit_6.824/log.cc), the view strings (config.cc), the inode names
    (yfs_client.cc) and others rely on: [operator>>] for words and unsigned
    numbers, [get], [getline], and decimal output.  A stream is the text that is
    left with the [eofbit] and [failbit]. *)

From Stdlib Require Import ZArith Lia Ascii String.
From stdpp Require Import base list strings sets.
From S2P Require Import Prelude.

Local Open Scope Z_scope.

Record istream := IStream { is_rest : list ascii; is_eof : bool; is_fail : bool }.

Definition open_stream (text : list ascii) : istream := IStream text false false.

(** The conversion of a stream to [bool], as in [while (from >> x)]. *)
Definition is_ok (s : istream) : bool := negb (is_fail s).
Definition is_good (s : istream) : bool := negb (is_eof s) && negb (is_fail s).

(** Space, \t, \n, \v, \f, \r. *)
Definition isspace (c : ascii) : bool := (char_u c =? 32) || ((9 <=? char_u c) && (char_u c <=? 13)).
Definition isdigit (c : ascii) : bool := (48 <=? char_u c) && (char_u c <=? 57).
Definition newline : ascii := "010"%char.

Fixpoint skip_spaces (l : list ascii) : list ascii :=
  match l with
  | c :: l' => if isspace c then skip_spaces l' else l
  | [] => []
  end.

(** The sentry of a formatted input: skip white space; hitting the end fails. *)
Definition sentry (s : istream) : istream * bool :=
  if is_good s then
    match skip_spaces (is_rest s) with
    | [] => (IStream [] true true, false)
    | l => (IStream l false false, true)
    end
  else (IStream (is_rest s) (is_eof s) true, false).

Fixpoint span_word (l : list ascii) : list ascii * list ascii :=
  match l with
  | c :: l' => if isspace c then ([], l) else let '(w, r) := span_word l' in (c :: w, r)
  | [] => ([], [])
  end.

Definition at_end (l : list ascii) : bool := match l with [] => true | _ => false end.

(** [s >> str]: [cur] is the old value of the string, kept if the sentry fails. *)
Definition read_word (s : istream) (cur : string) : istream * string :=
  let '(s, ok) := sentry s in
  if ok then let '(w, r) := span_word (is_rest s) in (IStream r (at_end r) false, str_of w)
  else (s, cur).

(** The digits at the start of a text, as a number. *)
Fixpoint read_digits (acc : Z) (l : list ascii) : Z * list ascii :=
  match l with
  | c :: l' => if isdigit c then read_digits (acc * 10 + (char_u c - 48)) l' else (acc, l)
  | [] => (acc, [])
  end.

(** [s >> n] for an unsigned number of [w] bits: no digits or a number that does
    not fit fail. *)
Definition read_number (w : Z) (s : istream) (cur : Z) : istream * Z :=
  let '(s, ok) := sentry s in
  if ok then
    let '(neg, l) :=
      match is_rest s with
      | c :: l => if (char_u c =? 45) then (true, l) else if (char_u c =? 43) then (false, l)
                  else (false, is_rest s)
      | [] => (false, [])
      end in
    let '(n, r) := read_digits 0 l in
    if (length r =? length l)%nat then (IStream r (at_end r) true, 0)
    else if 2 ^ w - 1 <? n then (IStream r (at_end r) true, 2 ^ w - 1)
    else (IStream r (at_end r) false, if neg then wrap w (- n) else n)
  else (s, cur).
Definition read_unsigned : istream -> Z -> istream * Z := read_number 32.

(** [s.get()]: one character, no skipping. *)
Definition get_char_stream (s : istream) : istream :=
  if is_good s then
    match is_rest s with
    | _ :: l => IStream l false false
    | [] => IStream [] true true
    end
  else IStream (is_rest s) (is_eof s) true.

Fixpoint span_line (l : list ascii) : list ascii * list ascii * bool :=
  match l with
  | c :: l' => if (c =? newline)%char then ([], l', true)
               else let '(w, r, found) := span_line l' in (c :: w, r, found)
  | [] => ([], [], false)
  end.

(** [getline(s, str)]: up to the newline, which is dropped; fails if nothing was read. *)
Definition getline (s : istream) (cur : string) : istream * string :=
  if is_good s then
    let '(w, r, found) := span_line (is_rest s) in
    (IStream r (negb found) (negb found && at_end w), str_of w)
  else (IStream (is_rest s) (is_eof s) true, cur).

(** [s << n] for an unsigned number; twenty digits are enough for 64 bits. *)
Fixpoint digits_loop (fuel : nat) (n : Z) (acc : list ascii) : list ascii :=
  match fuel with
  | O => acc
  | Datatypes.S fuel' =>
      let acc := char_of (48 + n mod 10) :: acc in
      if n <? 10 then acc else digits_loop fuel' (n / 10) acc
  end.
Definition print_unsigned (n : Z) : list ascii := digits_loop 20 n [].

(** ** What is printed can be read back *)

Lemma digit_char d : 0 <= d < 10 -> isdigit (char_of (48 + d)) = true /\ char_u (char_of (48 + d)) = 48 + d.
Proof.
  intros Hd. assert (Hu : char_u (char_of (48 + d)) = 48 + d) by (rewrite char_u_of, wrap_small; lia).
  split; [|done]. unfold isdigit. rewrite Hu. lia.
Qed.

Lemma read_digits_loop fuel : forall n acc k, 0 <= n < 10 ^ Z.of_nat fuel -> (0 < fuel)%nat ->
  exists p, 0 <= p /\ read_digits k (digits_loop fuel n acc) = read_digits (k * 10 ^ p + n) acc.
Proof.
  induction fuel as [|fuel IH]; intros n acc k Hn Hf; [lia|]. cbn [digits_loop].
  assert (Hm : 0 <= n mod 10 < 10) by (apply Z.mod_pos_bound; lia).
  destruct (digit_char _ Hm) as [Hd Hu].
  destruct (Z.ltb_spec n 10).
  - exists 1. split; [lia|]. cbn [read_digits]. rewrite Hd, Hu. f_equal. rewrite Z.mod_small by lia. lia.
  - assert (Hfuel : (0 < fuel)%nat).
    { destruct fuel; [|lia]. change (10 ^ Z.of_nat 1) with 10 in Hn. lia. }
    destruct (IH (n / 10) (char_of (48 + n mod 10) :: acc) k) as (p & Hp & Hr); [|done|].
    { split; [apply Z.div_pos; lia|]. apply Z.div_lt_upper_bound; [lia|].
      rewrite Nat2Z.inj_succ, Z.pow_succ_r in Hn by lia. lia. }
    exists (p + 1). split; [lia|]. rewrite Hr. cbn [read_digits]. rewrite Hd, Hu. f_equal.
    rewrite Z.pow_add_r by lia. change (10 ^ 1) with 10.
    pose proof (Z.div_mod n 10). lia.
Qed.

Lemma read_print_unsigned n rest : in_u64 n ->
  read_digits 0 (print_unsigned n ++ rest) = read_digits n rest.
Proof.
  intros Hn. unfold in_u64 in Hn. unfold print_unsigned.
  assert (Happ : forall fuel n acc, digits_loop fuel n acc ++ rest = digits_loop fuel n (acc ++ rest)).
  { induction fuel as [|fuel IH]; intros n' acc; [done|]. cbn [digits_loop].
    case_bool; [done|]. rewrite IH. done. }
  rewrite Happ. destruct (read_digits_loop 20 n ([] ++ rest) 0) as (p & Hp & ->); [|lia|].
  - change (10 ^ Z.of_nat 20) with 100000000000000000000. lia.
  - done.
Qed.

Lemma digits_loop_head fuel : forall n acc, (0 < fuel)%nat -> 0 <= n ->
  exists c l, digits_loop fuel n acc = c :: l /\ isdigit c = true.
Proof.
  induction fuel as [|fuel IH]; intros n acc Hf Hn; [lia|]. cbn [digits_loop].
  assert (Hm : 0 <= n mod 10 < 10) by (apply Z.mod_pos_bound; lia).
  destruct (digit_char _ Hm) as [Hd _].
  destruct (Z.ltb_spec n 10); [by eexists _, _|]. destruct fuel; [by eexists _, _|].
  apply IH; [lia|]. apply Z.div_pos; lia.
Qed.

Lemma isdigit_facts c : isdigit c = true ->
  isspace c = false /\ (char_u c =? 45) = false /\ (char_u c =? 43) = false.
Proof. unfold isdigit, isspace. lia. Qed.

Lemma isspace_facts c : isspace c = true -> isdigit c = false.
Proof. unfold isdigit, isspace. lia. Qed.

Lemma print_unsigned_head n : 0 <= n -> exists c l, print_unsigned n = c :: l /\ isdigit c = true.
Proof. intros Hn. apply digits_loop_head; [lia|done]. Qed.

Lemma read_digits_length acc l n r : read_digits acc l = (n, r) -> (length r <= length l)%nat.
Proof.
  revert acc. induction l as [|c l IH]; intros acc; simpl; [by intros [= _ <-]|].
  destruct (isdigit c); [intros ?%IH; lia|by intros [= _ <-]].
Qed.

(** A stream that is good, with the given text left. *)
Definition good_at (s : istream) (l : list ascii) : Prop := s = IStream l false false.

Definition all_spaces (l : list ascii) : Prop := Forall (fun c => isspace c = true) l.
Definition no_spaces (l : list ascii) : Prop := Forall (fun c => isspace c = false) l.

(** A token: it can be printed and read back as a word. *)
Definition is_token (s : string) : Prop := s <> ""%string /\ no_spaces (bytes_of s).
(** A text that fits on a line. *)
Definition one_line (s : string) : Prop := newline ∉ bytes_of s.

Lemma skip_spaces_app sp l : all_spaces sp -> skip_spaces (sp ++ l) = skip_spaces l.
Proof. induction 1 as [|c sp Hc _ IH]; simpl; [done|]. by rewrite Hc. Qed.

Lemma skip_spaces_all sp : all_spaces sp -> skip_spaces sp = [].
Proof. intros H. rewrite <-(app_nil_r sp). by rewrite skip_spaces_app. Qed.

Lemma span_word_app w r : no_spaces w ->
  (match r with c :: _ => isspace c = true | [] => True end) -> span_word (w ++ r) = (w, r).
Proof.
  intros Hw Hr. induction Hw as [|c w Hc _ IH]; simpl.
  - destruct r as [|c r]; simpl; [done|by rewrite Hr].
  - by rewrite Hc, IH.
Qed.

Lemma span_line_app w r : newline ∉ w -> span_line (w ++ newline :: r) = (w, r, true).
Proof.
  induction w as [|c w IH]; intros Hw; cbn [app span_line].
  - by rewrite Ascii.eqb_refl.
  - destruct (Ascii.eqb_spec c newline) as [->|]; [set_solver|]. rewrite IH by set_solver. done.
Qed.

Lemma bytes_of_nonempty s : s <> ""%string -> exists c l, bytes_of s = c :: l.
Proof. destruct s as [|c s]; [done|]. intros _. by eexists _, _. Qed.

Lemma read_word_token sp s sep rest cur : all_spaces sp -> is_token s -> isspace sep = true ->
  read_word (IStream (sp ++ bytes_of s ++ sep :: rest) false false) cur =
    (IStream (sep :: rest) false false, s).
Proof.
  intros Hsp [Hne Hns] Hsep. unfold read_word, sentry. cbn [is_good is_eof is_fail is_rest negb andb].
  rewrite skip_spaces_app by done. destruct (bytes_of_nonempty s Hne) as (c & l & Hb). rewrite Hb in *.
  inversion Hns; subst. cbn [app skip_spaces]. rewrite H1. cbn [is_rest].
  change (c :: l ++ sep :: rest) with ((c :: l) ++ sep :: rest).
  rewrite span_word_app by done. cbn [at_end]. by rewrite <-Hb, str_of_bytes_of.
Qed.

Lemma read_word_end sp cur : all_spaces sp ->
  read_word (IStream sp false false) cur = (IStream [] true true, cur).
Proof.
  intros Hsp. unfold read_word, sentry. cbn [is_good is_eof is_fail is_rest negb andb].
  by rewrite skip_spaces_all.
Qed.

Lemma read_unsigned_print sp n sep rest cur : all_spaces sp -> in_u32 n -> isspace sep = true ->
  read_unsigned (IStream (sp ++ print_unsigned n ++ sep :: rest) false false) cur =
    (IStream (sep :: rest) false false, n).
Proof.
  intros Hsp Hn Hsep. unfold read_unsigned, read_number, sentry. cbn [is_good is_eof is_fail is_rest negb andb].
  rewrite skip_spaces_app by done. unfold in_u32 in Hn.
  pose proof (read_print_unsigned n (sep :: rest) ltac:(unfold in_u64; lia)) as Hr.
  destruct (print_unsigned_head n ltac:(lia)) as (c & l & Hp & Hd). rewrite Hp in *.
  destruct (isdigit_facts c Hd) as (Hs & Hm & Hpl). cbn [app skip_spaces]. rewrite Hs.
  cbn [is_rest]. rewrite Hm, Hpl. change (c :: l ++ sep :: rest) with ((c :: l) ++ sep :: rest).
  rewrite Hr. cbn [read_digits]. rewrite isspace_facts by done.
  destruct (Nat.eqb_spec (length (sep :: rest)) (length ((c :: l) ++ sep :: rest))) as [Hl|_].
  { rewrite length_app in Hl. simpl in Hl. lia. }
  destruct (Z.ltb_spec (2 ^ 32 - 1) n); [lia|done].
Qed.

(** A number at the end of the text. *)
Lemma read_number_end w n cur : 0 <= n < 2 ^ w -> w <= 64 ->
  read_number w (open_stream (print_unsigned n)) cur = (IStream [] true false, n).
Proof.
  intros Hn Hw. assert (2 ^ w <= 2 ^ 64) by (apply Z.pow_le_mono_r; lia).
  pose proof (read_print_unsigned n [] ltac:(unfold in_u64; lia)) as Hr. rewrite app_nil_r in Hr.
  unfold read_number, sentry, open_stream. cbn [is_good is_eof is_fail is_rest negb andb].
  destruct (print_unsigned_head n ltac:(lia)) as (c & l & Hp & Hd). rewrite Hp in *.
  destruct (isdigit_facts c Hd) as (Hs & Hm & Hpl). cbn [skip_spaces]. rewrite Hs. cbn [is_rest].
  rewrite Hm, Hpl, Hr. cbn [read_digits length Nat.eqb]. destruct (Z.ltb_spec (2 ^ w - 1) n); [lia|done].
Qed.

Lemma getline_line s rest cur : one_line s ->
  getline (IStream (bytes_of s ++ newline :: rest) false false) cur = (IStream rest false false, s).
Proof.
  intros Hs. unfold getline. cbn [is_good is_eof is_fail is_rest negb andb].
  rewrite span_line_app by done. cbn [negb andb]. by rewrite str_of_bytes_of.
Qed.
