(* ===== verification/Threads.v ===== *)
(** * Threads that share a monitor

    Three pieces of code with a mutex and condition variables, each thread as a program
    counter: the readers and writers of src/reader_writer.cpp and of [DList] in
    src/db/db.cpp, the thread pool of src/db/utils.cpp and src/huffman/utils.cpp, and the
    bounded queue of src/mit_6.824/rpc/fifo.h.  A thread moves from one mutex operation to
    the next; [pthread_cond_wait] releases the mutex, may return without a signal, and
    takes the mutex again. *)

From Stdlib Require Import ZArith Lia.
From stdpp Require Import base list relations.
From S2P Require Import Prelude.

Local Open Scope nat_scope.

(** ** Counting threads *)

Definition tally {A} (f : A -> bool) (l : list A) : nat := length (filter (fun x => f x = true) l).

Lemma tally_app {A} (f : A -> bool) l1 l2 : tally f (l1 ++ l2) = tally f l1 + tally f l2.
Proof. unfold tally. by rewrite filter_app, length_app. Qed.

Lemma tally_cons {A} (f : A -> bool) x l : tally f (x :: l) = (if f x then 1 else 0) + tally f l.
Proof. unfold tally. rewrite filter_cons. destruct (f x) eqn:E; [by rewrite decide_True|by rewrite decide_False by congruence]. Qed.

Lemma tally_update {A} (f : A -> bool) (l : list A) i x y : l !! i = Some x ->
  tally f (<[i := y]> l) + (if f x then 1 else 0) = tally f l + (if f y then 1 else 0).
Proof.
  intros H. rewrite <- (take_drop_middle l i x H) at 1 2. rewrite insert_app_r_alt by (rewrite length_take; lia).
  pose proof (lookup_lt_Some _ _ _ H). rewrite length_take, Nat.min_l, Nat.sub_diag by lia. cbn.
  rewrite !tally_app, !tally_cons. lia.
Qed.

Lemma tally_map {A} (f : A -> bool) (g : A -> A) l : (forall x, f (g x) = f x) -> tally f (g <$> l) = tally f l.
Proof. intros H. induction l as [|x l IH]; [done|]. rewrite fmap_cons, !tally_cons, H. by rewrite IH. Qed.

Lemma tally_pos {A} (f : A -> bool) l : 0 < tally f l <-> exists i x, l !! i = Some x /\ f x = true.
Proof.
  split.
  - induction l as [|x l IH]; [cbn; lia|]. rewrite tally_cons. destruct (f x) eqn:E; [by exists 0, x|].
    intros (i & y & ? & ?)%IH. by exists (S i), y.
  - intros (i & x & Hi & Hf). rewrite <- (take_drop_middle l i x Hi), tally_app, tally_cons, Hf. lia.
Qed.

Lemma lookup_wake {A B} (g : A -> B) (l : list A) i p : (g <$> l) !! i = Some p -> exists q, l !! i = Some q /\ p = g q.
Proof. rewrite list_lookup_fmap. destruct (l !! i); [|done]. intros [= <-]. eauto. Qed.

Lemma insert_cases {A} (l : list A) i j q r : <[i := q]> l !! j = Some r -> (j = i /\ r = q) \/ (j <> i /\ l !! j = Some r).
Proof. intros [(-> & -> & _)|(? & ?)]%list_lookup_insert_Some; [by left|right; by split]. Qed.

(** ** Readers and writers *)

Module ReadersWriters.

Inductive pc :=
  | RLock | RTest | RSleep | RWake | RRead | ROut
  | WLock | WTest | WSleep | WWake | WWrite
  | Finished.
#[global] Instance pc_eq_dec : EqDecision pc.
Proof. solve_decision. Defined.

Record rw := RW { owner : option nat; nreaders : nat; nwriters : nat; pcs : list pc }.

(** [SignalAll] on [no_writer] and on [no_reader]. *)
Definition wake_readers (l : list pc) : list pc := (fun p => if decide (p = RSleep) then RWake else p) <$> l.
Definition wake_writers (l : list pc) : list pc := (fun p => if decide (p = WSleep) then WWake else p) <$> l.

(** The next step of thread [i]; [None]: it waits for the mutex or for a signal, or has
    returned. *)
Definition lock (s : rw) (i : nat) (p : pc) (w : nat) : option rw :=
  match owner s with None => Some (RW (Some i) (nreaders s) (nwriters s + w) (<[i := p]> (pcs s))) | Some _ => None end.

Definition rw_exec (s : rw) (i : nat) : option rw :=
  match pcs s !! i with
  | Some RLock => lock s i RTest 0
  | Some RTest =>
      if 0 <? nwriters s then Some (RW None (nreaders s) (nwriters s) (<[i := RSleep]> (pcs s)))
      else Some (RW None (S (nreaders s)) (nwriters s) (<[i := RRead]> (pcs s)))
  | Some RWake => lock s i RTest 0
  | Some RRead => lock s i ROut 0
  | Some ROut =>
      let n := nreaders s - 1 in
      let l := <[i := Finished]> (pcs s) in
      Some (RW None n (nwriters s) (if n =? 0 then wake_writers l else l))
  | Some WLock => lock s i WTest 1
  | Some WTest =>
      if 0 <? nreaders s then Some (RW None (nreaders s) (nwriters s) (<[i := WSleep]> (pcs s)))
      else Some (RW (owner s) (nreaders s) (nwriters s) (<[i := WWrite]> (pcs s)))
  | Some WWake => lock s i WTest 0
  | Some WWrite =>
      let n := nwriters s - 1 in
      let l := <[i := Finished]> (pcs s) in
      Some (RW None (nreaders s) n (if n =? 0 then wake_readers l else l))
  | Some RSleep | Some WSleep | Some Finished | None => None
  end.

(** A wait that returns without a signal. *)
Definition spurious (s : rw) (i : nat) : option rw :=
  match pcs s !! i with
  | Some RSleep => Some (RW (owner s) (nreaders s) (nwriters s) (<[i := RWake]> (pcs s)))
  | Some WSleep => Some (RW (owner s) (nreaders s) (nwriters s) (<[i := WWake]> (pcs s)))
  | _ => None
  end.

Inductive rw_step : rw -> rw -> Prop :=
  | step_exec s i s' : rw_exec s i = Some s' -> rw_step s s'
  | step_spurious s i s' : spurious s i = Some s' -> rw_step s s'.

(** [true]: a reader. *)
Definition rw_init (threads : list bool) : rw := RW None 0 0 ((fun b : bool => if b then RLock else WLock) <$> threads).

(** *** The invariant *)

Definition holds_mutex (p : pc) : bool := match p with RTest | ROut | WTest | WWrite => true | _ => false end.
Definition reading (p : pc) : bool := match p with RRead | ROut => true | _ => false end.
Definition announced (p : pc) : bool := match p with WTest | WSleep | WWake | WWrite => true | _ => false end.

Record rw_inv (s : rw) : Prop := RwInv {
  inv_readers : nreaders s = tally reading (pcs s);
  inv_writers : nwriters s = tally announced (pcs s);
  inv_owner : forall i p, pcs s !! i = Some p -> holds_mutex p = true -> owner s = Some i;
  inv_held : forall i, owner s = Some i -> exists p, pcs s !! i = Some p /\ holds_mutex p = true;
  inv_write : forall i, pcs s !! i = Some WWrite -> nreaders s = 0;
  inv_rsleep : forall i, pcs s !! i = Some RSleep -> 0 < nwriters s;
  inv_wsleep : forall i, pcs s !! i = Some WSleep -> 0 < nreaders s
}.

Lemma rw_inv_init threads : rw_inv (rw_init threads).
Proof.
  assert (Hc : forall f, f RLock = false -> f WLock = false -> tally f (pcs (rw_init threads)) = 0).
  { intros f H1 H2. unfold rw_init. cbn [pcs]. induction threads as [|b l IH]; [done|]. rewrite fmap_cons, tally_cons, IH.
    destruct b; by rewrite ?H1, ?H2. }
  assert (Hp : forall i p, pcs (rw_init threads) !! i = Some p -> p = RLock \/ p = WLock).
  { intros i p H. apply lookup_wake in H as (b & _ & ->). destruct b; tauto. }
  constructor; cbn [nreaders nwriters owner rw_init].
  - by rewrite Hc.
  - by rewrite Hc.
  - intros i p [-> | ->]%Hp; done.
  - done.
  - intros i [H|H]%Hp; done.
  - intros i [H|H]%Hp; done.
  - intros i [H|H]%Hp; done.
Qed.

(** Taking the mutex keeps the invariant when the counts follow. *)
Lemma rw_lock_inv s i p q w s' : rw_inv s -> pcs s !! i = Some p -> holds_mutex p = false -> holds_mutex q = true ->
  reading q = reading p -> (if announced q then 1 else 0) = w + (if announced p then 1 else 0) ->
  q <> WWrite -> lock s i q w = Some s' -> rw_inv s'.
Proof.
  intros [I1 I2 I3 I4 I5 I6 I7] Hi Hp Hq Hr Ha Hw. unfold lock. destruct (owner s) eqn:Ho; [done|]. intros [= <-].
  pose proof (tally_update reading (pcs s) i p q Hi) as T1. pose proof (tally_update announced (pcs s) i p q Hi) as T2.
  rewrite Hr in T1. rewrite Ha in T2. assert (Hlt := lookup_lt_Some _ _ _ Hi).
  constructor; cbn [owner nreaders nwriters pcs].
  - lia.
  - destruct (announced p); lia.
  - intros j r Hj Hh. apply insert_cases in Hj as [[-> ->]|[_ Hj]]; [done|]. specialize (I3 _ _ Hj Hh). congruence.
  - intros j [= <-]. exists q. split; [by apply list_lookup_insert_eq|done].
  - intros j Hj. apply insert_cases in Hj as [[_ <-]|[_ Hj]]; [done|]. by eapply I5.
  - intros j Hj. apply insert_cases in Hj as [[_ <-]|[_ Hj]]; [done|]. specialize (I6 _ Hj). lia.
  - intros j Hj. apply insert_cases in Hj as [[_ <-]|[_ Hj]]; [done|]. by eapply I7.
Qed.

(** Releasing the mutex. *)
Lemma unlock_owner s i p q (l : list pc) : rw_inv s -> pcs s !! i = Some p -> holds_mutex p = true -> holds_mutex q = false ->
  (forall j r, l !! j = Some r -> exists r', <[i := q]> (pcs s) !! j = Some r' /\ holds_mutex r = holds_mutex r') ->
  forall j r, l !! j = Some r -> holds_mutex r = false.
Proof.
  intros Hinv Hi Hp Hq Hl j r Hj. destruct (Hl j r Hj) as (r' & Hr' & ->).
  apply insert_cases in Hr' as [[-> ->]|[? Hr']]; [done|].
  destruct (holds_mutex r') eqn:Hh; [|done]. pose proof (inv_owner _ Hinv _ _ Hr' Hh). pose proof (inv_owner _ Hinv _ _ Hi Hp). congruence.
Qed.

Lemma sleep_inv s i p q : rw_inv s -> pcs s !! i = Some p -> holds_mutex p = true -> holds_mutex q = false ->
  reading q = reading p -> announced q = announced p ->
  (q = RSleep -> 0 < nwriters s) -> (q = WSleep -> 0 < nreaders s) ->
  rw_inv (RW None (nreaders s) (nwriters s) (<[i := q]> (pcs s))).
Proof.
  intros Hinv Hi Hp Hq Hr Ha H1 H2.
  assert (Hno : forall j r, <[i := q]> (pcs s) !! j = Some r -> holds_mutex r = false) by (eapply unlock_owner; eauto).
  destruct Hinv as [I1 I2 I3 I4 I5 I6 I7].
  pose proof (tally_update reading (pcs s) i p q Hi) as T1. pose proof (tally_update announced (pcs s) i p q Hi) as T2.
  rewrite Hr in T1. rewrite Ha in T2.
  constructor; cbn [owner nreaders nwriters pcs]; try lia; try done.
  - intros j r Hj Hh. rewrite (Hno j r Hj) in Hh. done.
  - intros j Hj. specialize (Hno j _ Hj). done.
  - intros j Hj. apply insert_cases in Hj as [[_ <-]|[_ Hj]]; eauto.
  - intros j Hj. apply insert_cases in Hj as [[_ <-]|[_ Hj]]; eauto.
Qed.

(** Leaving with some of the sleepers woken. *)
Lemma leave_inv s i p nr nw (l : list pc) : rw_inv s -> pcs s !! i = Some p -> holds_mutex p = true ->
  (forall j r, l !! j = Some r -> exists r', <[i := Finished]> (pcs s) !! j = Some r' /\
     (r = r' \/ (r' = RSleep /\ r = RWake) \/ (r' = WSleep /\ r = WWake))) ->
  nr = tally reading l -> nw = tally announced l ->
  (forall j, l !! j = Some RSleep -> 0 < nw) -> (forall j, l !! j = Some WSleep -> 0 < nr) -> rw_inv (RW None nr nw l).
Proof.
  intros Hinv Hi Hp Hl -> -> H1 H2. assert (Hno : forall j r, l !! j = Some r -> holds_mutex r = false).
  { eapply (unlock_owner s i p Finished); try done. intros j r Hj. destruct (Hl j r Hj) as (r' & ? & Hc). exists r'. split; [done|].
    by destruct Hc as [->|[[-> ->]|[-> ->]]]. }
  constructor; cbn [owner nreaders nwriters pcs]; try done.
  - intros j r Hj Hh. rewrite (Hno j r Hj) in Hh. done.
  - intros j Hj. specialize (Hno j _ Hj). done.
Qed.

Lemma rw_inv_exec s i s' : rw_inv s -> rw_exec s i = Some s' -> rw_inv s'.
Proof.
  intros Hinv. unfold rw_exec. destruct (pcs s !! i) as [p|] eqn:Hi; [|done]. pose proof Hinv as [I1 I2 I3 I4 I5 I6 I7].
  destruct p; try done; try (by eapply rw_lock_inv).
  - destruct (Nat.ltb_spec 0 (nwriters s)) as [Hw|Hw]; intros [= <-]; [by eapply sleep_inv|].
    pose proof (unlock_owner s i _ RRead (<[i := RRead]> (pcs s)) Hinv Hi eq_refl eq_refl ltac:(eauto)) as Hno.
    pose proof (tally_update reading (pcs s) i _ RRead Hi) as T1. pose proof (tally_update announced (pcs s) i _ RRead Hi) as T2. cbn in T1, T2.
    constructor; cbn [owner nreaders nwriters pcs]; try lia; try done.
    + intros j r Hj Hh. rewrite (Hno j r Hj) in Hh. done.
    + intros j Hj. specialize (Hno j _ Hj). done.
    + intros j Hj. apply insert_cases in Hj as [[_ ?]|[_ Hj]]; [done|]. eauto.
  - intros [= <-]. pose proof (tally_update reading (pcs s) i _ Finished Hi) as T1. pose proof (tally_update announced (pcs s) i _ Finished Hi) as T2. cbn in T1, T2.
    eapply leave_inv; try done.
    + intros j r. destruct (nreaders s - 1 =? 0); [|eauto]. intros (q & Hq & ->)%lookup_wake. exists q. destruct (decide (q = WSleep)); tauto.
    + destruct (nreaders s - 1 =? 0); [unfold wake_writers; rewrite tally_map by (intros x; by destruct x)|]; lia.
    + destruct (nreaders s - 1 =? 0); [unfold wake_writers; rewrite tally_map by (intros x; by destruct x)|]; lia.
    + intros j Hj. enough (pcs s !! j = Some RSleep) by eauto.
      destruct (nreaders s - 1 =? 0); [apply lookup_wake in Hj as (q & Hj & Hq)|]; apply insert_cases in Hj as [[_ Hj]|[_ Hj]]; subst; try done.
      rewrite Hj. by destruct (decide (q = WSleep)); subst.
    + intros j Hj. destruct (Nat.eqb_spec (nreaders s - 1) 0); [|lia]. apply lookup_wake in Hj as (q & _ & Hq). by destruct (decide (q = WSleep)); subst.
  - destruct (Nat.ltb_spec 0 (nreaders s)) as [Hw|Hw]; intros [= <-]; [by eapply sleep_inv|].
    pose proof (tally_update reading (pcs s) i _ WWrite Hi) as T1. pose proof (tally_update announced (pcs s) i _ WWrite Hi) as T2. cbn in T1, T2.
    constructor; cbn [owner nreaders nwriters pcs]; try lia.
    + intros j r Hj Hh. apply insert_cases in Hj as [[-> ->]|[_ Hj]]; eauto.
    + intros j Hj. destruct (decide (j = i)) as [->|Hne]; [exists WWrite; split; [|done]; apply list_lookup_insert_eq; by eapply lookup_lt_Some|].
      rewrite list_lookup_insert_ne by done. eauto.
    + intros j Hj. apply insert_cases in Hj as [[_ ?]|[_ Hj]]; [done|]. eauto.
    + intros j Hj. apply insert_cases in Hj as [[_ ?]|[_ Hj]]; [done|]. eauto.
  - intros [= <-]. pose proof (tally_update reading (pcs s) i _ Finished Hi) as T1. pose proof (tally_update announced (pcs s) i _ Finished Hi) as T2. cbn in T1, T2.
    eapply leave_inv; try done.
    + intros j r. destruct (nwriters s - 1 =? 0); [|eauto]. intros (q & Hq & ->)%lookup_wake. exists q. destruct (decide (q = RSleep)); tauto.
    + destruct (nwriters s - 1 =? 0); [unfold wake_readers; rewrite tally_map by (intros x; by destruct x)|]; lia.
    + destruct (nwriters s - 1 =? 0); [unfold wake_readers; rewrite tally_map by (intros x; by destruct x)|]; lia.
    + intros j Hj. destruct (Nat.eqb_spec (nwriters s - 1) 0); [|lia]. apply lookup_wake in Hj as (q & _ & Hq). by destruct (decide (q = RSleep)); subst.
    + intros j Hj. enough (pcs s !! j = Some WSleep) by eauto.
      destruct (nwriters s - 1 =? 0); [apply lookup_wake in Hj as (q & Hj & Hq)|]; apply insert_cases in Hj as [[_ Hj]|[_ Hj]]; subst; try done.
      rewrite Hj. by destruct (decide (q = RSleep)); subst.
Qed.

Lemma rw_inv_spurious s i s' : rw_inv s -> spurious s i = Some s' -> rw_inv s'.
Proof.
  intros [I1 I2 I3 I4 I5 I6 I7]. unfold spurious. destruct (pcs s !! i) as [p|] eqn:Hi; [|done].
  assert (Hgen : forall q, (p = RSleep /\ q = RWake) \/ (p = WSleep /\ q = WWake) -> rw_inv (RW (owner s) (nreaders s) (nwriters s) (<[i := q]> (pcs s)))).
  { intros q Hq. pose proof (tally_update reading (pcs s) i _ q Hi) as T1. pose proof (tally_update announced (pcs s) i _ q Hi) as T2.
    assert (reading q = reading p /\ announced q = announced p) as [E1 E2] by (by destruct Hq as [[-> ->]|[-> ->]]). rewrite E1 in T1. rewrite E2 in T2.
    constructor; cbn [owner nreaders nwriters pcs]; try lia.
    - intros j r Hj Hh. apply insert_cases in Hj as [[-> ->]|[_ Hj]]; [|eauto]. by destruct Hq as [[-> ->]|[-> ->]].
    - intros j Hj. destruct (I4 j Hj) as (r & Hr & Hh). exists r. split; [|done]. rewrite list_lookup_insert_ne; [done|].
      intros ->. rewrite Hi in Hr. injection Hr as <-. by destruct Hq as [[-> ->]|[-> ->]].
    - intros j Hj. apply insert_cases in Hj as [[-> ?]|[_ Hj]]; [|eauto]. by destruct Hq as [[-> ->]|[-> ->]].
    - intros j Hj. apply insert_cases in Hj as [[-> ?]|[_ Hj]]; [|eauto]. by destruct Hq as [[-> ->]|[-> ->]].
    - intros j Hj. apply insert_cases in Hj as [[-> ?]|[_ Hj]]; [|eauto]. by destruct Hq as [[-> ->]|[-> ->]]. }
  destruct p; try done; intros [= <-]; apply Hgen; tauto.
Qed.

Lemma rw_inv_steps s s' : rtc rw_step s s' -> rw_inv s -> rw_inv s'.
Proof.
  induction 1 as [|s1 s2 s3 Hs _ IH]; [done|]. intros H. apply IH. destruct Hs; [by eapply rw_inv_exec|by eapply rw_inv_spurious].
Qed.

(** C30. Writers exclude everyone: in every state that readers and writers reach, with
    waits that may return without a signal, a thread that writes is the only one that
    writes and no thread reads. *)
Theorem writers_exclude threads s i j p : rtc rw_step (rw_init threads) s ->
  pcs s !! i = Some WWrite -> pcs s !! j = Some p -> j <> i -> p <> RRead /\ p <> WWrite.
Proof.
  intros Hr Hi Hj Hne. pose proof (rw_inv_steps _ _ Hr (rw_inv_init threads)) as Hinv. split; intros ->.
  - pose proof (inv_write _ Hinv _ Hi) as H0. rewrite (inv_readers _ Hinv) in H0.
    assert (0 < tally reading (pcs s)) by (apply tally_pos; by exists j, RRead). lia.
  - pose proof (inv_owner _ Hinv _ _ Hi eq_refl). pose proof (inv_owner _ Hinv _ _ Hj eq_refl). congruence.
Qed.

(** A thread that sleeps will be woken by one that can run. *)
Lemma can_run s i p : rw_inv s -> pcs s !! i = Some p -> owner s = None -> p <> RSleep -> p <> WSleep -> p <> Finished ->
  exists s', rw_exec s i = Some s'.
Proof.
  intros Hinv Hi Ho H1 H2 H3. unfold rw_exec, lock. rewrite Hi, Ho. destruct p; try done; try (by eexists).
  - destruct (0 <? nwriters s); by eexists.
  - destruct (0 <? nreaders s); by eexists.
Qed.

Lemma owner_runs s i p : rw_inv s -> pcs s !! i = Some p -> holds_mutex p = true -> exists s', rw_exec s i = Some s'.
Proof.
  intros Hinv Hi Hp. unfold rw_exec. rewrite Hi. destruct p; try done; try (by eexists).
  - destruct (0 <? nwriters s); by eexists.
  - destruct (0 <? nreaders s); by eexists.
Qed.

(** No signal is lost: as long as a reader or a writer has not returned, some thread
    can make a step, without a wait returning on its own. *)
Theorem readers_writers_progress threads s i p : rtc rw_step (rw_init threads) s ->
  pcs s !! i = Some p -> p <> Finished -> exists j s', rw_exec s j = Some s'.
Proof.
  intros Hr Hi Hp. pose proof (rw_inv_steps _ _ Hr (rw_inv_init threads)) as Hinv.
  destruct (owner s) as [o|] eqn:Ho.
  { destruct (inv_held _ Hinv _ Ho) as (q & Hq & Hh). exists o. by eapply owner_runs. }
  assert (Hw : forall j, pcs s !! j = Some WSleep -> exists j s', rw_exec s j = Some s').
  { intros j Hj. pose proof (inv_wsleep _ Hinv _ Hj) as Hn. rewrite (inv_readers _ Hinv) in Hn. apply tally_pos in Hn as (k & q & Hk & Hq).
    exists k. eapply can_run; try done; by destruct q. }
  destruct (decide (p = WSleep)) as [->|Hw']; [by apply (Hw i)|]. destruct (decide (p = RSleep)) as [->|Hr'].
  - pose proof (inv_rsleep _ Hinv _ Hi) as Hn. rewrite (inv_writers _ Hinv) in Hn. apply tally_pos in Hn as (k & q & Hk & Hq).
    destruct (decide (q = WSleep)) as [->|]; [by apply (Hw k)|]. exists k. eapply can_run; try done; by destruct q.
  - exists i. by eapply can_run.
Qed.

(** Two readers and a writer, thread by thread. *)
Definition run_threads (s : rw) (order : list nat) : option rw := foldl (fun s i => s ← s; rw_exec s i) (Some s) order.

Lemma run_threads_steps order : forall s s', run_threads s order = Some s' -> rtc rw_step s s'.
Proof.
  unfold run_threads. induction order as [|i order IH]; intros s s'; cbn; [intros [= <-]; apply rtc_refl|].
  destruct (rw_exec s i) as [s1|] eqn:He; cbn; intros H.
  - eapply rtc_l; [by eapply step_exec|]. by apply IH.
  - exfalso. clear -H. induction order; cbn in H; done.
Qed.

Lemma writers_exclude_witness :
  let s := RW (Some 2) 0 1 [Finished; RLock; WWrite] in
  rtc rw_step (rw_init [true; true; false]) s /\ RLock <> RRead /\ RLock <> WWrite.
Proof.
  assert (H : rtc rw_step (rw_init [true; true; false]) (RW (Some 2) 0 1 [Finished; RLock; WWrite])).
  { apply (run_threads_steps [0; 0; 2; 2; 0; 0; 2; 2]). vm_compute. reflexivity. }
  split; [exact H|]. apply (writers_exclude _ _ 2 1 RLock H); done.
Defined.

Lemma readers_writers_progress_witness :
  let s := RW None 1 1 [RRead; RSleep; WSleep] in
  rtc rw_step (rw_init [true; true; false]) s /\ exists j s', rw_exec s j = Some s'.
Proof.
  assert (H : rtc rw_step (rw_init [true; true; false]) (RW None 1 1 [RRead; RSleep; WSleep])).
  { apply (run_threads_steps [0; 0; 2; 2; 1; 1]). vm_compute. reflexivity. }
  split; [exact H|]. apply (readers_writers_progress _ _ 1 RSleep H); done.
Defined.

End ReadersWriters.

(** ** The thread pool *)

Module Pool.

Inductive pc := PLock | PLoop | PSleep | PWake | PWoken | PTask (t : nat) | PRelock | PEnd.
#[global] Instance pc_eq_dec : EqDecision pc.
Proof. solve_decision. Defined.

(** [task_queue_] and [stop_]; [signalled]: [Stop] has passed its [SignalAll].  [added],
    [started] and [processed] record the tasks in their order. *)
Record pool := PoolState {
  owner : option nat;
  queue : list nat;
  stop : bool;
  signalled : bool;
  pcs : list pc;
  added : list nat;
  started : list nat;
  processed : list nat
}.

Definition wake_all (l : list pc) : list pc := (fun p => if decide (p = PSleep) then PWake else p) <$> l.
Definition set_pc (s : pool) (o : option nat) (i : nat) (p : pc) : pool :=
  PoolState o (queue s) (stop s) (signalled s) (<[i := p]> (pcs s)) (added s) (started s) (processed s).

Definition lock (s : pool) (i : nat) (p : pc) : option pool :=
  match owner s with None => Some (set_pc s (Some i) i p) | Some _ => None end.

(** The inner [while(task_queue_.empty())] and what follows it. *)
Definition take_task (s : pool) (i : nat) : pool :=
  match queue s with
  | [] => set_pc s None i PSleep
  | t :: q => PoolState None q (stop s) (signalled s) (<[i := PTask t]> (pcs s)) (added s) (started s ++ [t]) (processed s)
  end.

(** [thread_func] *)
Definition thread_exec (s : pool) (i : nat) : option pool :=
  match pcs s !! i with
  | Some PLock => lock s i PLoop
  | Some PLoop => Some (if stop s then set_pc s None i PEnd else take_task s i)
  | Some PWake => lock s i PWoken
  | Some PWoken => Some (if stop s then set_pc s None i PEnd else take_task s i)
  | Some (PTask t) =>
      Some (PoolState (owner s) (queue s) (stop s) (signalled s) (<[i := PRelock]> (pcs s)) (added s) (started s) (processed s ++ [t]))
  | Some PRelock => lock s i PLoop
  | Some PSleep | Some PEnd | None => None
  end.

(** [AddTask]: with the mutex. *)
Definition AddTask (s : pool) (t : nat) : option pool :=
  match owner s with
  | None =>
      let q := queue s ++ [t] in
      Some (PoolState None q (stop s) (signalled s) (if length q =? 1 then wake_all (pcs s) else pcs s) (added s ++ [t]) (started s) (processed s))
  | Some _ => None
  end.

(** [Stop], before and after the mutex is released. *)
Definition set_stop (s : pool) : option pool :=
  match owner s with
  | None => Some (PoolState None (queue s) true (signalled s) (pcs s) (added s) (started s) (processed s))
  | Some _ => None
  end.
Definition signal_stop (s : pool) : option pool :=
  if stop s then Some (PoolState (owner s) (queue s) true true (wake_all (pcs s)) (added s) (started s) (processed s)) else None.

Inductive pool_step : pool -> pool -> Prop :=
  | step_thread s i s' : thread_exec s i = Some s' -> pool_step s s'
  | step_spurious s i : pcs s !! i = Some PSleep -> pool_step s (set_pc s (owner s) i PWake)
  | step_add s t s' : AddTask s t = Some s' -> pool_step s s'
  | step_stop s s' : set_stop s = Some s' -> pool_step s s'
  | step_signal s s' : signal_stop s = Some s' -> pool_step s s'.

Definition pool_init (nthreads : nat) : pool := PoolState None [] false false (replicate nthreads PLock) [] [] [].

Definition holds_mutex (p : pc) : bool := match p with PLoop | PWoken => true | _ => false end.
Definition in_hand (l : list pc) : list nat := omap (fun p => match p with PTask t => Some t | _ => None end) l.

Record pool_inv (n : nat) (s : pool) : Prop := PoolInv {
  inv_order : added s = started s ++ queue s;
  inv_hand : started s ≡ₚ processed s ++ in_hand (pcs s);
  inv_threads : length (pcs s) = n;
  inv_owner : forall i p, pcs s !! i = Some p -> holds_mutex p = true -> owner s = Some i;
  inv_held : forall i, owner s = Some i -> exists p, pcs s !! i = Some p /\ holds_mutex p = true;
  inv_sleep : forall i, pcs s !! i = Some PSleep -> queue s = [] /\ signalled s = false;
  inv_end : forall i, pcs s !! i = Some PEnd -> stop s = true;
  inv_signal : signalled s = true -> stop s = true
}.

Lemma in_hand_app l1 l2 : in_hand (l1 ++ l2) = in_hand l1 ++ in_hand l2.
Proof. apply omap_app. Qed.

Definition task_of (p : pc) : list nat := match p with PTask t => [t] | _ => [] end.

Lemma in_hand_cons p l : in_hand (p :: l) = task_of p ++ in_hand l.
Proof. by destruct p. Qed.

Lemma in_hand_update l i p q : l !! i = Some p -> in_hand (<[i := q]> l) ++ task_of p ≡ₚ in_hand l ++ task_of q.
Proof.
  intros H. rewrite <- (take_drop_middle l i p H) at 1 2. pose proof (lookup_lt_Some _ _ _ H).
  rewrite insert_app_r_alt, length_take, Nat.min_l, Nat.sub_diag by (rewrite ?length_take; lia). cbn.
  rewrite !in_hand_app, !in_hand_cons, <- !app_assoc. apply Permutation_app_head.
  rewrite (Permutation_app_comm (task_of q)), (Permutation_app_comm (task_of p)), <- !app_assoc.
  apply Permutation_app_head. apply Permutation_app_comm.
Qed.

Lemma in_hand_wake l : in_hand (wake_all l) = in_hand l.
Proof. unfold wake_all. induction l as [|p l IH]; [done|]. rewrite fmap_cons, !in_hand_cons, IH. by destruct p. Qed.

Lemma lookup_wake_all l i p : wake_all l !! i = Some p ->
  p <> PSleep /\ exists q, l !! i = Some q /\ holds_mutex q = holds_mutex p /\ (p = PEnd -> q = PEnd).
Proof. intros (q & Hq & ->)%lookup_wake. destruct (decide (q = PSleep)) as [->|]; naive_solver. Qed.

(** A step of thread [i] that keeps the tasks. *)
Lemma move_inv n s i p q o : pool_inv n s -> pcs s !! i = Some p -> task_of p = [] -> task_of q = [] ->
  (if holds_mutex q then owner s = None /\ o = Some i else if holds_mutex p then o = None else o = owner s) ->
  (q = PSleep -> queue s = [] /\ signalled s = false) -> (q = PEnd -> stop s = true) -> pool_inv n (set_pc s o i q).
Proof.
  intros Hinv Hi Hp Hq Ho Hsl He. pose proof Hinv as [I1 I2 I3 I4 I5 I6 I7 I8]. assert (Hlt := lookup_lt_Some _ _ _ Hi).
  pose proof (in_hand_update (pcs s) i p q Hi) as Hh. rewrite Hp, Hq, !app_nil_r in Hh.
  constructor; cbn [set_pc added started queue processed pcs owner signalled stop]; try done.
  - by rewrite Hh.
  - by rewrite length_insert.
  - intros j r Hj Hr. apply insert_cases in Hj as [[-> ->]|[Hne Hj]]; [rewrite Hr in Ho; tauto|].
    pose proof (I4 _ _ Hj Hr) as Hoj. destruct (holds_mutex q); [destruct Ho; congruence|].
    destruct (holds_mutex p) eqn:Hhp; [pose proof (I4 _ _ Hi Hhp); congruence|congruence].
  - intros j ->. destruct (holds_mutex q) eqn:Hhq.
    + destruct Ho as [_ [= ->]]. exists q. split; [by apply list_lookup_insert_eq|done].
    + destruct (holds_mutex p) eqn:Hhp; [done|]. destruct (I5 j ltac:(done)) as (r & Hr & Hhr). exists r. split; [|done].
      rewrite list_lookup_insert_ne; [done|]. intros ->. congruence.
  - intros j Hj. apply insert_cases in Hj as [[-> <-]|[Hne Hj]]; eauto.
  - intros j Hj. apply insert_cases in Hj as [[-> <-]|[Hne Hj]]; eauto.
Qed.

Lemma take_task_inv n s i p : pool_inv n s -> pcs s !! i = Some p -> holds_mutex p = true -> stop s = false -> pool_inv n (take_task s i).
Proof.
  intros Hinv Hi Hp Hst. pose proof Hinv as [I1 I2 I3 I4 I5 I6 I7 I8]. unfold take_task. destruct (queue s) as [|t q] eqn:Hq.
  - eapply move_inv; try done; [by destruct p|by rewrite Hp|]. intros _. split; [done|]. destruct (signalled s); [specialize (I8 eq_refl); congruence|done].
  - pose proof (in_hand_update (pcs s) i p (PTask t) Hi) as Hh. assert (task_of p = []) as Ht by (by destruct p). rewrite Ht, app_nil_r in Hh.
    constructor; cbn [added started queue processed pcs owner signalled stop]; try done.
    + rewrite I1, <- app_assoc. done.
    + rewrite I2, Hh. by rewrite <- app_assoc.
    + by rewrite length_insert.
    + intros j r Hj Hr. apply insert_cases in Hj as [[-> ->]|[Hne Hj]]; [done|]. pose proof (I4 _ _ Hj Hr). pose proof (I4 _ _ Hi Hp). congruence.
    + intros j Hj. apply insert_cases in Hj as [[-> ?]|[Hne Hj]]; [done|]. destruct (I6 _ Hj). congruence.
    + intros j Hj. apply insert_cases in Hj as [[-> ?]|[Hne Hj]]; [done|]. eauto.
Qed.

Lemma wake_inv n s q st sg ad : pool_inv n s -> ad = started s ++ q -> (stop s = true -> st = true) -> (sg = true -> st = true) ->
  pool_inv n (PoolState (owner s) q st sg (wake_all (pcs s)) ad (started s) (processed s)).
Proof.
  intros [I1 I2 I3 I4 I5 I6 I7 I8] -> H1 H2. constructor; cbn [added started queue processed pcs owner signalled stop]; try done.
  - by rewrite in_hand_wake.
  - unfold wake_all. by rewrite length_fmap.
  - intros j r (_ & r' & Hj & Hr & _)%lookup_wake_all Hh. eapply I4; [exact Hj|congruence].
  - intros j Hj. destruct (I5 j Hj) as (r & Hr & Hh). exists r. split; [|done]. unfold wake_all. rewrite list_lookup_fmap, Hr. cbn. by destruct r.
  - intros j (Hj & _)%lookup_wake_all. done.
  - intros j (_ & r & Hj & _ & He)%lookup_wake_all. rewrite (He eq_refl) in Hj. eauto.
Qed.

Lemma pool_inv_step n s s' : pool_inv n s -> pool_step s s' -> pool_inv n s'.
Proof.
  intros Hinv Hs. pose proof Hinv as [I1 I2 I3 I4 I5 I6 I7 I8]. destruct Hs as [s i s' He|s i Hi|s t s' He|s s' He|s s' He].
  - unfold thread_exec, lock in He. destruct (pcs s !! i) as [p|] eqn:Hi; [|done].
    destruct p; try done; try (destruct (owner s) eqn:Ho; [done|]; injection He as <-; by eapply move_inv).
    + destruct (stop s) eqn:Hst; injection He as <-; [by eapply move_inv|by eapply take_task_inv].
    + destruct (stop s) eqn:Hst; injection He as <-; [by eapply move_inv|by eapply take_task_inv].
    + injection He as <-. pose proof (in_hand_update (pcs s) i _ PRelock Hi) as Hh. cbn [task_of] in Hh. rewrite app_nil_r in Hh.
      constructor; cbn [added started queue processed pcs owner signalled stop]; try done.
      * rewrite I2, <- Hh, <- app_assoc. apply Permutation_app_head. apply Permutation_app_comm.
      * by rewrite length_insert.
      * intros j r Hj Hr. apply insert_cases in Hj as [[-> ->]|[Hne Hj]]; [done|eauto].
      * intros j Hj. destruct (I5 j Hj) as (r & Hr & Hhr). exists r. split; [|done]. rewrite list_lookup_insert_ne; [done|]. intros ->. rewrite Hi in Hr. by injection Hr as <-.
      * intros j Hj. apply insert_cases in Hj as [[-> ?]|[Hne Hj]]; [done|eauto].
      * intros j Hj. apply insert_cases in Hj as [[-> ?]|[Hne Hj]]; [done|eauto].
  - by eapply move_inv.
  - unfold AddTask in He. destruct (owner s) eqn:Ho; [done|]. injection He as <-.
    destruct (Nat.eqb_spec (length (queue s ++ [t])) 1) as [H1|H1].
    + rewrite <- Ho. apply wake_inv; [done|by rewrite I1, app_assoc|done|done].
    + constructor; cbn [added started queue processed pcs owner signalled stop]; try done.
      * by rewrite I1, app_assoc.
      * intros j Hj. destruct (I6 _ Hj) as [Hq _]. rewrite Hq in H1. done.
  - unfold set_stop in He. destruct (owner s) eqn:Ho; [done|]. injection He as <-.
    constructor; cbn [added started queue processed pcs owner signalled stop]; done.
  - unfold signal_stop in He. destruct (stop s) eqn:Hst; [|done]. injection He as <-. by apply wake_inv.
Qed.

Lemma pool_inv_steps n s s' : rtc pool_step s s' -> pool_inv n s -> pool_inv n s'.
Proof. induction 1 as [|s1 s2 s3 Hs _ IH]; [done|]. intros H. apply IH. by eapply pool_inv_step. Qed.

Lemma pool_inv_init n : pool_inv n (pool_init n).
Proof.
  constructor; cbn [pool_init added started queue processed pcs owner signalled stop]; try done.
  - cbn. induction n; [done|]. done.
  - apply length_replicate.
  - intros i p [-> _]%lookup_replicate. done.
  - intros i [? _]%lookup_replicate. done.
Qed.

(** Tasks are taken in the order they were added and each is run once: those taken
    are a prefix of those added, and what was taken is done or in the hands of one
    thread. *)
Theorem pool_runs_each_task_once n s : rtc pool_step (pool_init n) s ->
  added s = started s ++ queue s /\ started s ≡ₚ processed s ++ in_hand (pcs s).
Proof. intros H. destruct (pool_inv_steps n _ _ H (pool_inv_init n)). done. Qed.

(** No task is left behind and [Stop] does not hang: while there are tasks and the
    pool was not stopped, or when [Stop] has signalled and some thread has not returned,
    a thread can make a step. *)
Theorem pool_progress n s : rtc pool_step (pool_init n) s -> 0 < n ->
  (queue s <> [] /\ stop s = false) \/ (signalled s = true /\ exists i p, pcs s !! i = Some p /\ p <> PEnd) ->
  exists i s', thread_exec s i = Some s'.
Proof.
  intros H Hn Hc. destruct (pool_inv_steps n _ _ H (pool_inv_init n)) as [I1 I2 I3 I4 I5 I6 I7 I8].
  destruct (owner s) as [o|] eqn:Ho.
  { destruct (I5 o eq_refl) as (p & Hp & Hh). exists o. unfold thread_exec. rewrite Hp. destruct p; try done; by eexists. }
  assert (exists i p, pcs s !! i = Some p /\ p <> PEnd /\ p <> PSleep) as (i & p & Hi & He & Hs).
  { destruct Hc as [[Hq Hst]|[Hsg (i & p & Hi & Hp)]].
    - destruct (lookup_lt_is_Some_2 (pcs s) 0) as [p Hp]; [lia|]. exists 0, p. split; [done|]. split; intros ->; [rewrite (I7 _ Hp) in Hst; done|].
      destruct (I6 _ Hp). done.
    - exists i, p. split; [done|]. split; [done|]. intros ->. destruct (I6 _ Hi). congruence. }
  exists i. unfold thread_exec, lock. rewrite Hi, Ho. destruct p; try done; by eexists.
Qed.

Definition busy : pool :=
  PoolState None [8] false false [PTask 7; PRelock] [6; 7; 8] [6; 7] [6].

Lemma busy_reachable : rtc pool_step (pool_init 2) busy.
Proof.
  assert (Hrun : forall s i s' s'', thread_exec s i = Some s' -> rtc pool_step s' s'' -> rtc pool_step s s'').
  { intros. eapply rtc_l; [by eapply step_thread|done]. }
  assert (Hadd : forall s t s' s'', AddTask s t = Some s' -> rtc pool_step s' s'' -> rtc pool_step s s'').
  { intros. eapply rtc_l; [by eapply step_add|done]. }
  eapply (Hrun _ 1); [reflexivity|]. cbn. eapply (Hrun _ 1); [reflexivity|]. cbn. eapply (Hadd _ 6); [reflexivity|]. cbn.
  eapply (Hrun _ 1); [reflexivity|]. cbn. eapply (Hrun _ 1); [reflexivity|]. cbn. eapply (Hadd _ 7); [reflexivity|]. cbn.
  eapply (Hadd _ 8); [reflexivity|]. cbn. eapply (Hrun _ 0); [reflexivity|]. cbn. eapply (Hrun _ 0); [reflexivity|]. cbn.
  eapply (Hrun _ 1); [reflexivity|]. cbn. apply rtc_refl.
Qed.

Lemma pool_runs_each_task_once_witness : added busy = started busy ++ queue busy /\ started busy ≡ₚ processed busy ++ in_hand (pcs busy).
Proof. exact (pool_runs_each_task_once 2 busy busy_reachable). Defined.

Lemma pool_progress_witness : exists i s', thread_exec busy i = Some s'.
Proof. apply (pool_progress 2 busy busy_reachable); [lia|]. left. split; [discriminate|reflexivity]. Defined.

End Pool.

(** ** The bounded queue *)

Module Fifo.

Inductive pc :=
  | ELock (v : nat) (blocking : bool) | ETest (v : nat) (blocking : bool) | ESleep (v : nat) (blocking : bool)
  | EWake (v : nat) (blocking : bool) | EDone (ok : bool)
  | DLock | DTest | DSleep | DWake | DDone (v : nat).

(** [max] is 0 for a queue without a bound; [enqd] and [deqd] record the values. *)
Record fifo := FifoState { owner : option nat; q : list nat; max : nat; pcs : list pc; enqd : list nat; deqd : list nat }.

Definition e_wake (p : pc) : option pc := match p with ESleep v b => Some (EWake v b) | _ => None end.
Definition d_wake (p : pc) : option pc := match p with DSleep => Some DWake | _ => None end.
Definition asleep (wk : pc -> option pc) (p : pc) : bool := match wk p with Some _ => true | None => false end.

(** [pthread_cond_signal] wakes thread [j] of those that wait, if there is one. *)
Definition signal (wk : pc -> option pc) (l : list pc) (j : nat) : option (list pc) :=
  match l !! j ≫= wk with
  | Some p => Some (<[j := p]> l)
  | None => if 0 <? tally (asleep wk) l then None else Some l
  end.

Definition lock (s : fifo) (i : nat) (p : pc) : option fifo :=
  match owner s with None => Some (FifoState (Some i) (q s) (max s) (<[i := p]> (pcs s)) (enqd s) (deqd s)) | Some _ => None end.
Definition move (s : fifo) (i : nat) (p : pc) : fifo := FifoState None (q s) (max s) (<[i := p]> (pcs s)) (enqd s) (deqd s).

(** The next step of thread [i]; [j] is the thread its signal wakes. *)
Definition fifo_exec (s : fifo) (i j : nat) : option fifo :=
  match pcs s !! i with
  | Some (ELock v b) => lock s i (ETest v b)
  | Some (ETest v b) =>
      if (max s =? 0) || (length (q s) <? max s) then
        l ← signal d_wake (<[i := EDone true]> (pcs s)) j;
        Some (FifoState None (q s ++ [v]) (max s) l (enqd s ++ [v]) (deqd s))
      else if b then Some (move s i (ESleep v b))
      else Some (move s i (EDone false))
  | Some (EWake v b) => lock s i (ETest v b)
  | Some DLock => lock s i DTest
  | Some DTest =>
      match q s with
      | [] => Some (move s i DSleep)
      | v :: q =>
          l ← (if negb (max s =? 0) && (length q <? max s) then signal e_wake (<[i := DDone v]> (pcs s)) j
               else Some (<[i := DDone v]> (pcs s)));
          Some (FifoState None q (max s) l (enqd s) (deqd s ++ [v]))
      end
  | Some DWake => lock s i DTest
  | Some (ESleep _ _) | Some (EDone _) | Some DSleep | Some (DDone _) | None => None
  end.

Inductive fifo_step : fifo -> fifo -> Prop :=
  | step_exec s i j s' : fifo_exec s i j = Some s' -> fifo_step s s'
  | step_spurious s i p wk p' : (wk = e_wake \/ wk = d_wake) -> pcs s !! i = Some p -> wk p = Some p' ->
      fifo_step s (FifoState (owner s) (q s) (max s) (<[i := p']> (pcs s)) (enqd s) (deqd s)).

(** Threads that call [enq] with a value or [deq]. *)
Definition fifo_init (max : nat) (calls : list (option (nat * bool))) : fifo :=
  FifoState None [] max ((fun c => match c with Some (v, b) => ELock v b | None => DLock end) <$> calls) [] [].

Definition holds_mutex (p : pc) : bool := match p with ETest _ _ | DTest => true | _ => false end.
Definition e_ready (p : pc) : bool := match p with ETest _ _ | EWake _ _ => true | _ => false end.
Definition d_ready (p : pc) : bool := match p with DTest | DWake => true | _ => false end.

Record fifo_inv (s : fifo) : Prop := FifoInv {
  inv_order : enqd s = deqd s ++ q s;
  inv_cap : max s <> 0 -> length (q s) <= max s;
  inv_owner : forall i p, pcs s !! i = Some p -> holds_mutex p = true -> owner s = Some i;
  inv_held : forall i, owner s = Some i -> exists p, pcs s !! i = Some p /\ holds_mutex p = true;
  inv_d : 0 < tally (asleep d_wake) (pcs s) -> length (q s) <= tally d_ready (pcs s);
  inv_e : 0 < tally (asleep e_wake) (pcs s) -> max s <> 0 /\ max s - length (q s) <= tally e_ready (pcs s)
}.

(** The owner after thread [i] released the mutex. *)
Lemma released s i p (l : list pc) : fifo_inv s -> pcs s !! i = Some p -> holds_mutex p = true ->
  (forall k r, l !! k = Some r -> holds_mutex r = true -> k <> i /\ pcs s !! k = Some r) ->
  forall k r, l !! k = Some r -> holds_mutex r = true -> None = Some k.
Proof.
  intros Hinv Hi Hp Hl k r Hk Hr. destruct (Hl k r Hk Hr) as [Hne Hk']. pose proof (inv_owner _ Hinv _ _ Hk' Hr).
  pose proof (inv_owner _ Hinv _ _ Hi Hp). congruence.
Qed.

Lemma move_locks s i p' : holds_mutex p' = false ->
  forall k r, <[i := p']> (pcs s) !! k = Some r -> holds_mutex r = true -> k <> i /\ pcs s !! k = Some r.
Proof. intros Hp k r Hk Hr. apply insert_cases in Hk as [[-> ->]|[Hne Hk]]; [congruence|done]. Qed.

(** What a signal does to the counts: it wakes one sleeper, if there is any. *)
Lemma signal_spec wk rd (l l' : list pc) j : signal wk l j = Some l' ->
  (forall p p', wk p = Some p' -> asleep wk p' = false /\ rd p' = true /\ rd p = false /\ holds_mutex p' = false) ->
  (forall k r, l' !! k = Some r -> holds_mutex r = true -> l !! k = Some r) /\
  (0 < tally (asleep wk) l' -> 0 < tally (asleep wk) l /\ tally rd l' = S (tally rd l)) /\
  (forall f, (forall p p', wk p = Some p' -> f p' = f p) -> tally f l' = tally f l).
Proof.
  unfold signal. destruct (l !! j ≫= wk) as [p'|] eqn:Hj.
  - intros [= <-] Hwk. destruct (l !! j) as [p|] eqn:Hp; [|done]. cbn in Hj. destruct (Hwk p p' Hj) as (H1 & H2 & H3 & H4).
    split; [|split].
    + intros k r Hk Hr. apply insert_cases in Hk as [[-> ->]|[_ Hk]]; [congruence|done].
    + intros _. pose proof (tally_update rd l j p p' Hp) as T. rewrite H2, H3 in T. split; [|lia].
      apply tally_pos. exists j, p. split; [done|]. unfold asleep. by rewrite Hj.
    + intros f Hf. pose proof (tally_update f l j p p' Hp) as T. rewrite (Hf p p' Hj) in T. lia.
  - destruct (Nat.ltb_spec 0 (tally (asleep wk) l)); [done|]. intros [= <-] _. split; [done|]. split; [lia|done].
Qed.

Lemma e_wake_ok p p' : e_wake p = Some p' -> asleep e_wake p' = false /\ e_ready p' = true /\ e_ready p = false /\ holds_mutex p' = false.
Proof. by destruct p; intros [= <-]. Qed.
Lemma d_wake_ok p p' : d_wake p = Some p' -> asleep d_wake p' = false /\ d_ready p' = true /\ d_ready p = false /\ holds_mutex p' = false.
Proof. by destruct p; intros [= <-]. Qed.
Lemma e_wake_other p p' : e_wake p = Some p' -> d_ready p' = d_ready p /\ asleep d_wake p' = asleep d_wake p.
Proof. by destruct p; intros [= <-]. Qed.
Lemma d_wake_other p p' : d_wake p = Some p' -> e_ready p' = e_ready p /\ asleep e_wake p' = asleep e_wake p.
Proof. by destruct p; intros [= <-]. Qed.

Lemma fifo_lock_inv s i p p' s' : fifo_inv s -> pcs s !! i = Some p -> holds_mutex p = false -> holds_mutex p' = true ->
  asleep e_wake p = false -> asleep d_wake p = false ->
  (e_ready p = true -> e_ready p' = true) -> (d_ready p = true -> d_ready p' = true) -> lock s i p' = Some s' -> fifo_inv s'.
Proof.
  intros [I1 I2 I3 I4 I5 I6] Hi Hp Hp' He Hd Hre Hrd. unfold lock. destruct (owner s) eqn:Ho; [done|]. intros [= <-].
  assert (Hlt := lookup_lt_Some _ _ _ Hi). assert (asleep e_wake p' = false /\ asleep d_wake p' = false) as [He' Hd'] by (by destruct p').
  pose proof (tally_update e_ready (pcs s) i p p' Hi) as T1. pose proof (tally_update d_ready (pcs s) i p p' Hi) as T2.
  pose proof (tally_update (asleep e_wake) (pcs s) i p p' Hi) as T3. pose proof (tally_update (asleep d_wake) (pcs s) i p p' Hi) as T4.
  rewrite He, He' in T3. rewrite Hd, Hd' in T4.
  constructor; cbn [owner q max pcs enqd deqd]; try done.
  - intros k r Hk Hr. apply insert_cases in Hk as [[-> ->]|[_ Hk]]; [done|]. specialize (I3 _ _ Hk Hr). done.
  - intros k [= <-]. exists p'. split; [by apply list_lookup_insert_eq|done].
  - intros H. specialize (I5 ltac:(lia)). destruct (d_ready p); [rewrite (Hrd eq_refl) in T2|destruct (d_ready p')]; lia.
  - intros H. destruct (I6 ltac:(lia)). split; [done|]. destruct (e_ready p); [rewrite (Hre eq_refl) in T1|destruct (e_ready p')]; lia.
Qed.

Lemma enq_inv s i j v b s' : fifo_inv s -> pcs s !! i = Some (ETest v b) -> fifo_exec s i j = Some s' -> fifo_inv s'.
Proof.
  intros Hinv Hi. pose proof Hinv as [I1 I2 I3 I4 I5 I6]. unfold fifo_exec. rewrite Hi.
  pose proof (fun f p' => tally_update f (pcs s) i _ p' Hi) as HT.
  destruct ((max s =? 0) || (length (q s) <? max s)) eqn:Hroom.
  - destruct (signal _ _ _) as [l|] eqn:Hs; [|done]. cbn. intros [= <-].
    destruct (signal_spec _ d_ready _ _ _ Hs d_wake_ok) as (Hl & Hd & Hf).
    assert (Hcap : max s <> 0 -> length (q s) < max s).
    { intros Hm. apply orb_true_iff in Hroom as [H%Nat.eqb_eq|H%Nat.ltb_lt]; done. }
    pose proof (HT e_ready (EDone true)) as T1. pose proof (HT d_ready (EDone true)) as T2.
    pose proof (HT (asleep e_wake) (EDone true)) as T3. pose proof (HT (asleep d_wake) (EDone true)) as T4. cbn in T1, T2, T3, T4.
    constructor; cbn [owner q max pcs enqd deqd]; rewrite ?length_app; cbn [length]; try done.
    + rewrite I1. by rewrite app_assoc.
    + intros Hm. specialize (Hcap Hm). lia.
    + eapply released; try done. intros k r Hk Hr. exact (move_locks s i (EDone true) eq_refl k r (Hl _ _ Hk Hr) Hr).
    + intros Hsl. destruct (Hd Hsl). specialize (I5 ltac:(lia)). lia.
    + rewrite (Hf (asleep e_wake)), (Hf e_ready) by (intros ? ? H; by destruct (d_wake_other _ _ H)). intros Hsl.
      destruct (I6 ltac:(lia)) as [Hm H]. split; [done|]. specialize (Hcap Hm). lia.
  - apply orb_false_iff in Hroom as [Hm%Nat.eqb_neq Hfull%Nat.ltb_ge]. specialize (I2 Hm).
    assert (Hgen : forall p', holds_mutex p' = false -> e_ready p' = false -> d_ready p' = false -> asleep d_wake p' = false -> fifo_inv (move s i p')).
    { intros p' H1 H2 H3 H4. pose proof (HT e_ready p') as T1. pose proof (HT d_ready p') as T2. pose proof (HT (asleep d_wake) p') as T4.
      rewrite H2 in T1. rewrite H3 in T2. rewrite H4 in T4. cbn in T1, T2, T4.
      constructor; cbn [move owner q max pcs enqd deqd]; try done.
      - eapply released; try done. by apply move_locks.
      - intros H. specialize (I5 ltac:(lia)). lia.
      - intros H. split; [done|lia]. }
    destruct b; intros [= <-]; by apply Hgen.
Qed.

Lemma deq_inv s i j s' : fifo_inv s -> pcs s !! i = Some DTest -> fifo_exec s i j = Some s' -> fifo_inv s'.
Proof.
  intros Hinv Hi. pose proof Hinv as [I1 I2 I3 I4 I5 I6]. unfold fifo_exec. rewrite Hi.
  pose proof (fun f p' => tally_update f (pcs s) i _ p' Hi) as HT. destruct (q s) as [|v q'] eqn:Hq.
  - intros [= <-]. pose proof (HT e_ready DSleep) as T1. pose proof (HT (asleep e_wake) DSleep) as T3. cbn in T1, T3.
    constructor; cbn [move owner q max pcs enqd deqd]; rewrite ?Hq; try done.
    + eapply released; try done. by apply move_locks.
    + cbn. lia.
    + intros H. destruct (I6 ltac:(lia)). split; [done|lia].
  - pose proof (HT e_ready (DDone v)) as T1. pose proof (HT d_ready (DDone v)) as T2.
    pose proof (HT (asleep e_wake) (DDone v)) as T3. pose proof (HT (asleep d_wake) (DDone v)) as T4. cbn in T1, T2, T3, T4, I2.
    destruct (negb (max s =? 0) && (length q' <? max s)) eqn:Hsig.
    + destruct (signal _ _ _) as [l|] eqn:Hs; [|done]. cbn. intros [= <-].
      destruct (signal_spec _ e_ready _ _ _ Hs e_wake_ok) as (Hl & He & Hf).
      constructor; cbn [owner q max pcs enqd deqd]; try done.
      * rewrite I1, <- app_assoc. done.
      * intros Hm. specialize (I2 Hm). lia.
      * eapply released; try done. intros k r Hk Hr. exact (move_locks s i (DDone v) eq_refl k r (Hl _ _ Hk Hr) Hr).
      * rewrite (Hf (asleep d_wake)), (Hf d_ready) by (intros ? ? H; by destruct (e_wake_other _ _ H)). intros Hsl.
        specialize (I5 ltac:(lia)). cbn in I5. lia.
      * intros Hsl. destruct (He Hsl). destruct (I6 ltac:(lia)). split; [done|cbn in *; lia].
    + cbn. intros [= <-]. assert (Hm0 : max s = 0).
      { destruct (Nat.eqb_spec (max s) 0) as [|Hm]; [done|]. cbn in Hsig. apply Nat.ltb_ge in Hsig. specialize (I2 Hm). lia. }
      constructor; cbn [owner q max pcs enqd deqd]; try done.
      * rewrite I1, <- app_assoc. done.
      * eapply released; try done. by apply move_locks.
      * intros Hsl. specialize (I5 ltac:(lia)). cbn in I5. lia.
      * intros H. destruct (I6 ltac:(lia)). done.
Qed.

Lemma fifo_inv_step s s' : fifo_inv s -> fifo_step s s' -> fifo_inv s'.
Proof.
  intros Hinv Hs. destruct Hs as [s i j s' He|s i p wk p' Hw Hi Hp].
  - destruct (pcs s !! i) as [p|] eqn:Hi; [|unfold fifo_exec in He; by rewrite Hi in He].
    destruct p; try (by eapply enq_inv); try (by eapply deq_inv); unfold fifo_exec in He; rewrite Hi in He; try done;
      match type of He with lock _ _ ?p' = _ => by apply (fifo_lock_inv s i _ p' s' Hinv Hi) end.
  - destruct Hinv as [I1 I2 I3 I4 I5 I6]. pose proof (fun f => tally_update f (pcs s) i _ p' Hi) as HT.
    assert (holds_mutex p = false /\ holds_mutex p' = false) as [Hh Hh'] by (destruct Hw as [-> | ->]; destruct p; simplify_eq/=; done).
    assert (asleep e_wake p' = false /\ asleep d_wake p' = false) as [H1 H2] by (destruct Hw as [-> | ->]; destruct p; simplify_eq/=; done).
    assert (e_ready p = false /\ d_ready p = false) as [H3 H4] by (destruct Hw as [-> | ->]; destruct p; simplify_eq/=; done).
    pose proof (HT e_ready) as T1. pose proof (HT d_ready) as T2. pose proof (HT (asleep e_wake)) as T3. pose proof (HT (asleep d_wake)) as T4.
    rewrite H3 in T1. rewrite H4 in T2. rewrite H1 in T3. rewrite H2 in T4.
    constructor; cbn [owner q max pcs enqd deqd]; try done.
    + intros k r Hk Hr. apply insert_cases in Hk as [[-> ->]|[_ Hk]]; [congruence|eauto].
    + intros k Hk. destruct (I4 k Hk) as (r & Hr & Hhr). exists r. split; [|done]. rewrite list_lookup_insert_ne; [done|]. intros ->. congruence.
    + intros H. specialize (I5 ltac:(lia)). destruct (d_ready p'); lia.
    + intros H. destruct (I6 ltac:(lia)). split; [done|]. destruct (e_ready p'); lia.
Qed.

Lemma fifo_inv_steps s s' : rtc fifo_step s s' -> fifo_inv s -> fifo_inv s'.
Proof. induction 1 as [|s1 s2 s3 Hs _ IH]; [done|]. intros H. apply IH. by eapply fifo_inv_step. Qed.

Lemma fifo_inv_init bound calls : fifo_inv (fifo_init bound calls).
Proof.
  assert (Hp : forall i p, pcs (fifo_init bound calls) !! i = Some p -> (exists v b, p = ELock v b) \/ p = DLock).
  { intros i p H. apply lookup_wake in H as ([[v b]|] & _ & ->); eauto. }
  constructor; cbn [fifo_init owner q max enqd deqd]; try done; cbn [length]; try lia.
  - intros i p [(v & b & ->)| ->]%Hp; done.
  - intros (i & p & [(v & b & ->)| ->]%Hp & H)%tally_pos; done.
Qed.

(** A signal finds a thread to wake. *)
Lemma signal_total wk (l : list pc) : exists j l', signal wk l j = Some l'.
Proof.
  unfold signal. destruct (Nat.ltb_spec 0 (tally (asleep wk) l)) as [Hs|Hs].
  - apply tally_pos in Hs as (j & p & Hj & Hp). exists j. rewrite Hj. cbn. unfold asleep in Hp. destruct (wk p); [by eexists|done].
  - exists (length l). rewrite lookup_ge_None_2 by lia. cbn. by eexists.
Qed.

Lemma ready_runs s i p : fifo_inv s -> pcs s !! i = Some p -> e_ready p = true \/ d_ready p = true ->
  exists k j s', fifo_exec s k j = Some s'.
Proof.
  intros Hinv Hi Hr.
  assert (Hown : forall k r, pcs s !! k = Some r -> holds_mutex r = true -> exists k j s', fifo_exec s k j = Some s').
  { intros k r Hk Hh. exists k. unfold fifo_exec. rewrite Hk. destruct r; try done.
    - destruct (signal_total d_wake (<[k := EDone true]> (pcs s))) as (j & l & Hl). exists j. rewrite Hl.
      destruct ((max s =? 0) || (length (q s) <? max s)); [by eexists|]. destruct blocking; by eexists.
    - destruct (q s) as [|v q']; [exists 0; by eexists|]. destruct (signal_total e_wake (<[k := DDone v]> (pcs s))) as (j & l & Hl). exists j.
      rewrite Hl. destruct (negb (max s =? 0) && (length q' <? max s)); by eexists. }
  destruct (owner s) as [o|] eqn:Ho.
  - destruct (inv_held _ Hinv _ Ho) as (r & Hr' & Hh). exact (Hown _ _ Hr' Hh).
  - destruct (holds_mutex p) eqn:Hh; [exact (Hown _ _ Hi Hh)|]. exists i, 0. unfold fifo_exec, lock. rewrite Hi, Ho.
    destruct p; try discriminate Hh; cbn in Hr; first [by eexists | exfalso; by destruct Hr].
Qed.

(** C29. The queue is first-in first-out, never holds more than its bound, and loses no
    wakeup: values leave in the order they entered, and when a thread waits in [deq] on a
    queue that is not empty, or in [enq] on one that is not full, some thread can make a
    step, although each value signals one waiter only. *)
Theorem fifo_correct bound calls s : rtc fifo_step (fifo_init bound calls) s ->
  enqd s = deqd s ++ q s /\ (max s <> 0 -> length (q s) <= max s) /\
  ((0 < tally (asleep d_wake) (pcs s) /\ q s <> []) \/ (0 < tally (asleep e_wake) (pcs s) /\ length (q s) < max s) ->
   exists i j s', fifo_exec s i j = Some s').
Proof.
  intros H. pose proof (fifo_inv_steps _ _ H (fifo_inv_init bound calls)) as Hinv. pose proof Hinv as [I1 I2 I3 I4 I5 I6].
  split; [done|]. split; [done|]. intros [[Hs Hq]|[Hs Hq]].
  - specialize (I5 Hs). assert (Hpos : 0 < tally d_ready (pcs s)) by (destruct (q s); [done|cbn in I5; lia]).
    apply tally_pos in Hpos as (i & p & ? & ?). eapply ready_runs; eauto.
  - destruct (I6 Hs) as [_ H6]. assert (Hpos : 0 < tally e_ready (pcs s)) by lia.
    apply tally_pos in Hpos as (i & p & ? & ?). eapply ready_runs; eauto.
Qed.

(** A queue of one place with a waiter on each side of its life. *)
Definition one_place : fifo := FifoState None [5] 1 [DSleep; DWake; EDone true; ESleep 6 true] [5] [].

Lemma fifo_correct_witness :
  rtc fifo_step (fifo_init 1 [None; None; Some (5, true); Some (6, true)]) one_place /\
  enqd one_place = deqd one_place ++ q one_place /\ length (q one_place) <= 1 /\ exists i j s', fifo_exec one_place i j = Some s'.
Proof.
  assert (Hr : forall s i j s' s'', fifo_exec s i j = Some s' -> rtc fifo_step s' s'' -> rtc fifo_step s s'').
  { intros. eapply rtc_l; [by eapply step_exec|done]. }
  assert (H : rtc fifo_step (fifo_init 1 [None; None; Some (5, true); Some (6, true)]) one_place).
  { eapply (Hr _ 0 0); [reflexivity|]. eapply (Hr _ 0 0); [reflexivity|]. eapply (Hr _ 1 0); [reflexivity|]. eapply (Hr _ 1 0); [reflexivity|].
    eapply (Hr _ 2 0); [reflexivity|]. eapply (Hr _ 2 1); [reflexivity|]. eapply (Hr _ 3 0); [reflexivity|]. eapply (Hr _ 3 0); [reflexivity|].
    apply rtc_refl. }
  split; [exact H|]. destruct (fifo_correct 1 _ _ H) as (H1 & H2 & H3). split; [exact H1|]. split; [apply H2; discriminate|].
  apply H3. left. split; [apply Nat.ltb_lt; vm_compute; reflexivity|discriminate].
Defined.

End Fifo.
