(* ===== verification/Connection.v ===== *)
(** * Connections of the RPC library

    Models src/mit_6.824/rpc/connection.cc and what it uses of pollmgr.cc: a connection
    that any number of threads send on, the thread of [PollMgr] that calls it back when its
    socket can be read or written, and threads that close it.  The code a thread runs from
    taking [m_] to releasing it, or to waiting, is one step.  What [write] and [read] do is
    an argument of the step; the bytes between two connections are a list, in order.

    [None] is a failed [VERIFY], an access outside a buffer or a [malloc] that fails. *)

From Stdlib Require Import ZArith Lia Ascii.
From stdpp Require Import base list relations.
From S2P Require Import Prelude Loops Marshall Threads.

Local Open Scope Z_scope.
Local Open Scope cpp_scope.

(** ** Sockets *)

(** What [write] of a non-blocking socket does: takes some bytes, none, or fails. *)
Inductive wres := WOk (n : Z) | WAgain | WErr.

(** [read] of up to [n] bytes: [Got k] returns at most [k] of those that have arrived. *)
Inductive rchoice := Got (k : Z) | Eof | Again | Err.
Inductive rres := RBytes (l : list ascii) | REof | RAgain | RErr.

Definition sock_read (wire : list ascii) (n : Z) (ch : rchoice) : option (rres * list ascii) :=
  match ch with
  | Got k =>
      let m := Z.to_nat (Z.min k n) in
      VERIFY! (0 <? k) && negb (match wire with [] => true | _ => false end) ;;
      Some (if n =? 0 then (REof, wire) else (RBytes (take m wire), drop m wire))
  | Eof => VERIFY! match wire with [] => true | _ => false end ;; Some (REof, wire)
  | Again => VERIFY! match wire with [] => true | _ => false end ;; Some (RAgain, wire)
  | Err => Some (RErr, wire)
  end.

Definition MAX_PDU : Z := Z.shiftl 10 20.

Definition htonl (x : Z) : list ascii := enc_u32 x.
Definition ntohl (l : list ascii) : option Z :=
  match l with
  | [b3; b2; b1; b0] =>
      Some (to_signed 32 (Z.lor (Z.lor (Z.lor (Z.shiftl (char_u b3) 24) (Z.shiftl (char_u b2) 16)) (Z.shiftl (char_u b1) 8)) (char_u b0)))
  | _ => None
  end.

(** ** The connection *)

(** For a PDU that is read, [buf] holds the [solong] bytes that have been stored. *)
Record charbuf := Charbuf { buf : option (list ascii); sz : Z; solong : Z }.
Definition charbuf_new : charbuf := Charbuf None 0 0.

(** [shut]: [shutdown] was called.  [watch_r], [watch_w] and [callback] are what [PollMgr]
    keeps for the descriptor: the two sets of [SelectAIO] and [callbacks_]. *)
Record conn := Conn {
  dead : bool; wpdu : charbuf; rpdu : charbuf; waiters : Z; shut : bool;
  watch_r : bool; watch_w : bool; callback : bool }.

Definition conn_new : conn := Conn false charbuf_new charbuf_new 0 false true false true.

Definition set_wpdu (c : conn) (w : charbuf) : conn := Conn (dead c) w (rpdu c) (waiters c) (shut c) (watch_r c) (watch_w c) (callback c).
Definition set_rpdu (c : conn) (r : charbuf) : conn := Conn (dead c) (wpdu c) r (waiters c) (shut c) (watch_r c) (watch_w c) (callback c).
Definition set_waiters (c : conn) (n : Z) : conn := Conn (dead c) (wpdu c) (rpdu c) n (shut c) (watch_r c) (watch_w c) (callback c).
Definition set_dead (c : conn) : conn := Conn true (wpdu c) (rpdu c) (waiters c) (shut c) (watch_r c) (watch_w c) (callback c).
Definition shutdown (c : conn) : conn := Conn (dead c) (wpdu c) (rpdu c) (waiters c) true (watch_r c) (watch_w c) (callback c).

(** [PollMgr::add_callback (fd, CB_WRONLY, this)], [del_callback] and [block_remove_fd],
    which unwatches the descriptor, waits for the poll thread and forgets the callback. *)
Definition add_callback_w (c : conn) : conn := Conn (dead c) (wpdu c) (rpdu c) (waiters c) (shut c) (watch_r c) true true.
Definition unwatch (c : conn) : conn := Conn (dead c) (wpdu c) (rpdu c) (waiters c) (shut c) false false (callback c).
Definition forget (c : conn) : conn := Conn (dead c) (wpdu c) (rpdu c) (waiters c) (shut c) (watch_r c) (watch_w c) false.
Definition del_callback_w (c : conn) : conn := Conn (dead c) (wpdu c) (rpdu c) (waiters c) (shut c) (watch_r c) false (watch_r c && callback c).
Definition del_callback_rw (c : conn) : conn := forget (unwatch c).

(** ** writepdu and readpdu *)

(** [bcopy (&sz, buf, 4)]. *)
Definition put_size (b : list ascii) (n : Z) : option (list ascii) :=
  VERIFY! 4 <=? alen b ;; Some (htonl n ++ drop 4 b).

(** The new state, the result, and the bytes the socket took. *)
Definition writepdu (c : conn) (r : wres) : option (conn * bool * list ascii) :=
  let w := wpdu c in
  VERIFY! 0 <=? solong w ;;
  if solong w =? sz w then Some (c, true, [])
  else
    b ← buf w;
    b ← (if solong w =? 0 then put_size b (sz w) else Some b);
    VERIFY! sz w <=? alen b ;;
    match (if shut c then WErr else r) with
    | WErr => Some (set_wpdu c (Charbuf (Some b) 0 (-1)), false, [])
    | WAgain => Some (set_wpdu c (Charbuf (Some b) (sz w) (solong w)), true, [])
    | WOk n =>
        let n := Z.max 0 (Z.min n (sz w - solong w)) in
        Some (set_wpdu c (Charbuf (Some b) (sz w) (solong w + n)), true, take (Z.to_nat n) (drop (Z.to_nat (solong w)) b))
    end.

(** The second half of [readpdu].  [read] returns 0 also when no byte is asked for; it then
    leaves [errno] as it was: [again] is whether that is [EAGAIN]. *)
Definition read_rest (c : conn) (wire : list ascii) (ch : rchoice) (again : bool) : option (conn * bool * list ascii) :=
  let p := rpdu c in
  VERIFY! 0 <=? sz p - solong p ;;
  '(r, wire) ← sock_read wire (sz p - solong p) ch;
  match r with
  | RBytes l => b ← buf p; Some (set_rpdu c (Charbuf (Some (b ++ l)) (sz p) (solong p + alen l)), true, wire)
  | RAgain => Some (c, true, wire)
  | REof => Some (if again then (c, true, wire) else (set_rpdu c charbuf_new, false, wire))
  | RErr => Some (set_rpdu c charbuf_new, false, wire)
  end.

Definition readpdu (c : conn) (wire : list ascii) (ch1 ch2 : rchoice) (again : bool) : option (conn * bool * list ascii) :=
  if sz (rpdu c) =? 0 then
    '(r, wire) ← sock_read wire 4 ch1;
    match r with
    | REof | RErr => Some (c, false, wire)
    | RAgain => None
    | RBytes l =>
        if negb (alen l =? 4) then Some (c, false, wire)
        else
          n ← ntohl l;
          if MAX_PDU <? n then Some (c, false, wire)
          else
            VERIFY! match buf (rpdu c) with None => true | _ => false end ;;
            VERIFY! 0 <=? n ;;
            read_rest (set_rpdu c (Charbuf (Some l) n 4)) wire ch2 again
    end
  else read_rest c wire ch2 again.

(** ** Threads that send, close and poll *)

(** [SNew] calls [send (b, n)]: it waits for its turn on [send_wait_] ([STurn]), for the poll
    thread in [block_remove_fd] after a failed write ([SRemove], [SRemoving]) or on
    [send_complete_] for the rest to be written ([SComplete]).  [CNew] calls [closeconn]. *)
Inductive pc :=
  | SNew (b : list ascii) (n : Z) | STurn (b : list ascii) (n : Z) | STurnWoken (b : list ascii) (n : Z)
  | SRemove | SRemoving | SComplete | SCompleteWoken | SDone (ok : bool)
  | CNew | CRemove | CRemoving | CDone.

(** [poll] is what [wait_ready] has returned for this descriptor: readable, writable.  [out]
    are the bytes the socket took and [sent] the PDUs that were given to it, each with the
    thread that sends it. *)
Record sys := Sys { co : conn; poll : option (bool * bool); pcs : list pc; out : list ascii; sent : list (nat * list ascii) }.

Definition set_co (s : sys) (c : conn) : sys := Sys c (poll s) (pcs s) (out s) (sent s).
Definition set_pcs (s : sys) (l : list pc) : sys := Sys (co s) (poll s) l (out s) (sent s).
Definition move (s : sys) (i : nat) (p : pc) : sys := set_pcs s (<[i := p]> (pcs s)).

(** [pthread_cond_broadcast (&send_wait_)] and [pthread_cond_signal (&send_complete_)], on
    which at most one thread waits. *)
Definition wake_turn (p : pc) : pc := match p with STurn b n => STurnWoken b n | _ => p end.
Definition wake_complete (p : pc) : pc := match p with SComplete => SCompleteWoken | _ => p end.

(** The PDU as it is sent: its first four bytes are its size. *)
Definition frame (b : list ascii) (n : Z) : list ascii := htonl n ++ drop 4 (take (Z.to_nat n) b).

Definition send_finish (s : sys) (i : nat) : sys :=
  let c := co s in
  let ret := negb (dead c) && (solong (wpdu c) =? sz (wpdu c)) in
  let l := <[i := SDone ret]> (pcs s) in
  Sys (set_wpdu c charbuf_new) (poll s) (if 0 <? waiters c then wake_turn <$> l else l) (out s) (sent s).

Definition send_wait (s : sys) (i : nat) : sys :=
  let w := wpdu (co s) in
  if negb (dead (co s)) && (0 <=? solong w) && (solong w <? sz w) then move s i SComplete else send_finish s i.

(** [lose]: the lossy test shuts the connection down. *)
Definition send_pdu (s : sys) (i : nat) (b : list ascii) (n : Z) (r : wres) (lose : bool) : option sys :=
  let c := set_wpdu (co s) (Charbuf (Some b) n 0) in
  '(c, ok, o) ← writepdu (if lose then shutdown c else c) r;
  let s := Sys c (poll s) (pcs s) (out s ++ o) (sent s ++ [(i, frame b n)]) in
  Some (if negb ok then move (set_co s (set_dead c)) i SRemove
        else if solong (wpdu c) =? sz (wpdu c) then send_finish s i
        else send_wait (set_co s (add_callback_w c)) i).

Definition send_turn (s : sys) (i : nat) (b : list ascii) (n : Z) (r : wres) (lose : bool) : option sys :=
  let c := co s in
  if negb (dead c) && bool_decide (is_Some (buf (wpdu c))) then Some (move s i (STurn b n))
  else
    let s := set_co s (set_waiters c (waiters c - 1)) in
    if dead c then Some (move s i (SDone false)) else send_pdu s i b n r lose.

(** [closeconn], up to [block_remove_fd]. *)
Definition closeconn (s : sys) (i : nat) : sys :=
  if dead (co s) then move s i CDone else move (set_co s (shutdown (set_dead (co s)))) i CRemove.

(** Whether thread [i] can run. *)
Definition ready (s : sys) (i : nat) : bool :=
  match pcs s !! i with
  | Some (SNew _ _) | Some (STurnWoken _ _) | Some SRemove | Some SCompleteWoken | Some CNew | Some CRemove => true
  | Some SRemoving | Some CRemoving => match poll s with None => true | _ => false end
  | _ => false
  end.

Definition exec (s : sys) (i : nat) (r : wres) (lose : bool) : option sys :=
  let c := co s in
  match pcs s !! i with
  | Some (SNew b n) => send_turn (set_co s (set_waiters c (waiters c + 1))) i b n r lose
  | Some (STurnWoken b n) => send_turn s i b n r lose
  | Some SRemove => Some (move (set_co s (unwatch c)) i SRemoving)
  | Some SRemoving => Some (send_finish (set_co s (forget c)) i)
  | Some SCompleteWoken => Some (send_wait s i)
  | Some CNew => Some (closeconn s i)
  | Some CRemove => Some (move (set_co s (unwatch c)) i CRemoving)
  | Some CRemoving => Some (move (set_co s (forget c)) i CDone)
  | _ => Some s
  end.

(** ** The callbacks *)

Definition write_cb (s : sys) (r : wres) : option sys :=
  let c := co s in
  VERIFY! negb (dead c) ;;
  if sz (wpdu c) =? 0 then Some (set_co s (del_callback_w c))
  else
    '(c, ok, o) ← writepdu c r;
    let s := Sys c (poll s) (pcs s) (out s ++ o) (sent s) in
    if negb ok then Some (set_pcs (set_co s (set_dead (del_callback_rw c))) (wake_complete <$> pcs s))
    else
      VERIFY! 0 <=? solong (wpdu c) ;;
      Some (if solong (wpdu c) <? sz (wpdu c) then s else set_pcs s (wake_complete <$> pcs s)).

(** The new connection, what is left to read, whether [send_complete_] is signalled, and the
    PDU [got_pdu] was given and has taken ([accept]). *)
Definition read_cb (c : conn) (wire : list ascii) (ch1 ch2 : rchoice) (again accept : bool) : option (conn * list ascii * bool * option (list ascii)) :=
  if dead c then Some (c, wire, false, None)
  else
    '(c, succ, wire) ←
      (if negb (bool_decide (is_Some (buf (rpdu c)))) || (solong (rpdu c) <? sz (rpdu c)) then readpdu c wire ch1 ch2 again else Some (c, true, wire));
    let c := (if succ : bool then c else set_dead (del_callback_rw c)) in
    match buf (rpdu c) with
    | Some b =>
        if sz (rpdu c) =? solong (rpdu c) then
          Some (if accept then (set_rpdu c charbuf_new, wire, negb succ, Some b) else (c, wire, negb succ, None))
        else Some (c, wire, negb succ, None)
    | None => Some (c, wire, negb succ, None)
    end.

(** One turn of [PollMgr::wait_loop] for the descriptor: it is found ready, and its callbacks
    are called, if they are still there. *)
Definition select (s : sys) (r w : bool) : option sys :=
  match poll s with
  | None => if implb r (watch_r (co s)) && implb w (watch_w (co s)) then Some (Sys (co s) (Some (r, w)) (pcs s) (out s) (sent s)) else None
  | Some _ => None
  end.
Definition polled (s : sys) (p : option (bool * bool)) : sys := Sys (co s) p (pcs s) (out s) (sent s).
Definition poll_write (s : sys) (r : wres) : option sys :=
  match poll s with
  | Some (false, true) => if callback (co s) then write_cb (polled s None) r else Some (polled s None)
  | Some (false, false) => Some (polled s None)
  | _ => Some s
  end.
Definition poll_read (s : sys) (wire : list ascii) (ch1 ch2 : rchoice) (again accept : bool) : option (sys * list ascii * option (list ascii)) :=
  match poll s with
  | Some (true, w) =>
      let s := polled s (Some (false, w)) in
      if callback (co s) then
        '(c, wire, signal, d) ← read_cb (co s) wire ch1 ch2 again accept;
        Some (set_pcs (set_co s c) (if signal : bool then wake_complete <$> pcs s else pcs s), wire, d)
      else Some (s, wire, None)
  | _ => Some (s, wire, None)
  end.

(** ** Two ends of a connection *)

(** A wait that returns without a signal. *)
Definition spurious (s : sys) (i : nat) : option sys :=
  match pcs s !! i with
  | Some (STurn b n) => Some (move s i (STurnWoken b n))
  | Some SComplete => Some (move s i SCompleteWoken)
  | _ => None
  end.

(** The steps of one end that do not read. *)
Inductive local_step (s : sys) : sys -> Prop :=
  | step_exec i r lose s' : ready s i = true -> exec s i r lose = Some s' -> local_step s s'
  | step_select r w s' : select s r w = Some s' -> local_step s s'
  | step_write r s' : poll_write s r = Some s' -> local_step s s'
  | step_spurious i s' : spurious s i = Some s' -> local_step s s'.

(** The ends, the bytes on their way from [ea] to [eb] and back, and the PDUs that [got_pdu]
    has taken at each end. *)
Record link := Link { ea : sys; eb : sys; ab : list ascii; ba : list ascii; got_a : list (list ascii); got_b : list (list ascii) }.
Definition flip (l : link) : link := Link (eb l) (ea l) (ba l) (ab l) (got_b l) (got_a l).

(** A step of the first end. *)
Inductive half_step (l : link) : link -> Prop :=
  | half_local s' : local_step (ea l) s' ->
      half_step l (Link s' (eb l) (ab l ++ drop (length (out (ea l))) (out s')) (ba l) (got_a l) (got_b l))
  | half_read ch1 ch2 again accept s' wire d : poll_read (ea l) (ba l) ch1 ch2 again accept = Some (s', wire, d) ->
      half_step l (Link s' (eb l) (ab l) wire (got_a l ++ option_list d) (got_b l)).

Inductive link_step (l : link) : link -> Prop :=
  | link_a l' : half_step l l' -> link_step l l'
  | link_b l' : half_step (flip l) l' -> link_step l (flip l').

(** Threads that call [send] with a PDU, or [closeconn]. *)
Definition sys_init (calls : list (option (list ascii * Z))) : sys :=
  Sys conn_new None ((fun x => match x with Some (b, n) => SNew b n | None => CNew end) <$> calls) [] [].
Definition link_init (ca cb : list (option (list ascii * Z))) : link := Link (sys_init ca) (sys_init cb) [] [] [] [].
