(* ===== verification/ConnSafety.v ===== *)
(** * Connections: PDUs arrive whole and in order

    The invariant of the connections of Connection.v: one thread at a time sends, its PDU is
    written from beginning to end, and the other end cuts the bytes at the same places,
    whatever pieces they are written and read in and whichever threads fail or close. *)

From Stdlib Require Import ZArith Lia Ascii.
From stdpp Require Import base list relations.
From S2P Require Import Prelude Loops Marshall Threads Connection.

Local Open Scope Z_scope.

(** ** Frames *)

Definition frame_ok (f : list ascii) : Prop := 4 < alen f <= MAX_PDU /\ take 4 f = htonl (alen f).
Definition call_ok (b : list ascii) (n : Z) : Prop := 4 < n <= MAX_PDU /\ n <= alen b.

Lemma htonl_length n : length (htonl n) = 4%nat.
Proof. done. Qed.

Lemma ntohl_htonl n : 0 <= n <= MAX_PDU -> ntohl (htonl n) = Some n.
Proof.
  intros Hn. unfold htonl, enc_u32, ntohl. f_equal. rewrite bytes_combine. rewrite to_signed_of_wrap. change MAX_PDU with 10485760 in Hn.
  unfold to_signed. rewrite wrap_small by (change (2 ^ 32) with 4294967296; lia). change (2 ^ (32 - 1)) with 2147483648. case_bool; [done|lia].
Qed.

Lemma frame_length b n : call_ok b n -> alen (frame b n) = n.
Proof. intros [Hn Hb]. unfold frame, alen in *. rewrite length_app, htonl_length, length_drop, length_take. lia. Qed.

Lemma frame_is_ok b n : call_ok b n -> frame_ok (frame b n).
Proof. intros H. pose proof (frame_length b n H) as Hl. destruct H as [Hn Hb]. split; [lia|]. rewrite Hl. unfold frame. by rewrite take_app_length' by done. Qed.

(** ** What a sending thread has in its buffer *)

Definition cur_buf (b f : list ascii) (k : Z) : Prop :=
  alen f <= alen b /\ frame b (alen f) = f /\ (0 < k -> take (Z.to_nat (alen f)) b = f).

Lemma cur_new b n : call_ok b n -> cur_buf b (frame b n) 0.
Proof. intros H. unfold cur_buf. rewrite (frame_length b n H). destruct H. split; [lia|]. split; [done|lia]. Qed.

Lemma put_size_cur b f : frame_ok f -> cur_buf b f 0 -> exists b', put_size b (alen f) = Some b' /\ cur_buf b' f 1.
Proof.
  intros [Hf Hhd] (Hl & Hfr & _). unfold put_size. rewrite (proj2 (Z.leb_le _ _)) by lia. eexists. split; [reflexivity|].
  assert (Hb' : take (Z.to_nat (alen f)) (htonl (alen f) ++ drop 4 b) = f).
  { rewrite <- Hfr at 3. unfold frame. rewrite take_app_ge by (rewrite htonl_length; unfold alen in *; lia). f_equal.
    rewrite htonl_length, skipn_firstn_comm. done. }
  split; [|split; [|done]].
  - rewrite alen_app. unfold alen in *. rewrite htonl_length, length_drop. lia.
  - unfold frame. rewrite Hb', <- Hhd. apply take_drop.
Qed.

(** The fields [writepdu] leaves alone. *)
Definition same_but_wpdu (c c' : conn) : Prop :=
  dead c' = dead c /\ rpdu c' = rpdu c /\ waiters c' = waiters c /\ shut c' = shut c /\ watch_r c' = watch_r c /\ watch_w c' = watch_w c /\ callback c' = callback c.

Lemma writepdu_ok c r b f : buf (wpdu c) = Some b -> frame_ok f -> sz (wpdu c) = alen f -> 0 <= solong (wpdu c) <= alen f ->
  cur_buf b f (solong (wpdu c)) -> exists c' ok o b', writepdu c r = Some (c', ok, o) /\ same_but_wpdu c c' /\
  buf (wpdu c') = Some b' /\
  if ok : bool then sz (wpdu c') = alen f /\ solong (wpdu c') = solong (wpdu c) + alen o /\ solong (wpdu c') <= alen f /\
    cur_buf b' f (solong (wpdu c')) /\ take (Z.to_nat (solong (wpdu c'))) f = take (Z.to_nat (solong (wpdu c))) f ++ o
  else o = [].
Proof.
  intros Hb Hf Hsz Hk Hcur. unfold writepdu. rewrite (proj2 (Z.leb_le _ _)) by lia. cbn [VERIFY]. rewrite Hsz.
  destruct (Z.eqb_spec (solong (wpdu c)) (alen f)) as [He|Hne].
  { exists c, true, [], b. split; [done|]. split; [done|]. split; [done|]. change (alen (@nil ascii)) with 0. rewrite app_nil_r, Z.add_0_r, <- Hsz. split; [done|]. split; [done|]. split; [lia|]. done. }
  rewrite Hb. cbn [mbind option_bind].
  assert (Hput : exists b', (if solong (wpdu c) =? 0 then put_size b (alen f) else Some b) = Some b' /\ cur_buf b' f 1).
  { destruct (Z.eqb_spec (solong (wpdu c)) 0) as [H0|H0]; [apply put_size_cur; [done|by rewrite H0 in Hcur]|]. exists b. split; [done|].
    destruct Hcur as (? & ? & H). split; [done|]. split; [done|]. intros _. apply H. lia. }
  destruct Hput as (b' & -> & (Hl & Hfr & Htk)). cbn [mbind option_bind]. rewrite (proj2 (Z.leb_le _ _)) by lia. cbn [VERIFY].
  specialize (Htk ltac:(lia)).
  assert (Hcur' : forall k, cur_buf b' f k) by (intros k; split; [done|]; split; [done|]; by intros _).
  destruct (if shut c then WErr else r) as [n| |].
  - set (m := Z.max 0 (Z.min n (alen f - solong (wpdu c)))). eexists _, true, _, b'. split; [reflexivity|]. split; [done|]. split; [done|]. cbn [set_wpdu wpdu sz solong].
    assert (Ho : take (Z.to_nat m) (drop (Z.to_nat (solong (wpdu c))) b') = take (Z.to_nat m) (drop (Z.to_nat (solong (wpdu c))) f)).
    { rewrite <- Htk at 1. rewrite skipn_firstn_comm, take_take. f_equal. unfold alen in *. lia. }
    rewrite Ho. assert (Hm : alen (take (Z.to_nat m) (drop (Z.to_nat (solong (wpdu c))) f)) = m) by (unfold alen in *; rewrite length_take, length_drop; lia).
    rewrite Hm. split; [done|]. split; [done|]. split; [lia|]. split; [done|]. rewrite Z2Nat.inj_add by lia. symmetry. apply take_take_drop.
  - eexists _, true, [], b'. split; [reflexivity|]. split; [done|]. split; [done|]. cbn [set_wpdu wpdu sz solong]. change (alen (@nil ascii)) with 0. rewrite app_nil_r, Z.add_0_r.
    split; [done|]. split; [done|]. split; [lia|]. done.
  - eexists _, false, [], b'. done.
Qed.

(** ** The invariant of one end *)

Definition frames (s : sys) : list (list ascii) := snd <$> sent s.

(** The thread whose PDU is in [wpdu_]. *)
Definition owns (p : pc) : bool := match p with SRemove | SRemoving | SComplete | SCompleteWoken => true | _ => false end.
Definition removing (p : pc) : bool := match p with SRemove | SRemoving => true | _ => false end.
Definition pc_ok (p : pc) : Prop := match p with SNew b n | STurn b n | STurnWoken b n => call_ok b n | _ => True end.

(** The PDU of thread [i] has been written. *)
Definition written (s : sys) (i : nat) : Prop :=
  exists l1 f l2, sent s = l1 ++ (i, f) :: l2 /\ concat (snd <$> (l1 ++ [(i, f)])) `prefix_of` out s.

(** What is being written, when the connection is not dead. *)
Definition writing (s : sys) : Prop :=
  let w := wpdu (co s) in
  match buf w with
  | None => out s = concat (frames s) /\ sz w = 0 /\ solong w = 0
  | Some b => exists l i f, sent s = l ++ [(i, f)] /\ sz w = alen f /\ 0 <= solong w <= alen f /\ cur_buf b f (solong w) /\
      out s = concat (snd <$> l) ++ take (Z.to_nat (solong w)) f /\ (forall j p, pcs s !! j = Some p -> owns p = true -> j = i)
  end.

Record end_inv (s : sys) : Prop := EndInv {
  ei_prefix : out s `prefix_of` concat (frames s);
  ei_writing : dead (co s) = false -> writing s;
  ei_owner : tally owns (pcs s) = if bool_decide (is_Some (buf (wpdu (co s)))) then 1%nat else 0%nat;
  ei_ok : Forall pc_ok (pcs s);
  ei_frames : Forall frame_ok (frames s);
  ei_done : forall i, pcs s !! i = Some (SDone true) -> written s i;
  ei_removing : forall i p, pcs s !! i = Some p -> removing p = true -> dead (co s) = true
}.

Lemma owner_some s i p : end_inv s -> pcs s !! i = Some p -> owns p = true -> exists b, buf (wpdu (co s)) = Some b.
Proof.
  intros H Hi Ho. pose proof (ei_owner s H) as Ht. assert (0 < tally owns (pcs s))%nat by (apply tally_pos; eauto).
  case_bool_decide as Hb; [exact Hb|lia].
Qed.

(** The connection changes, but not what is written. *)
Lemma end_inv_co s c : end_inv s -> wpdu c = wpdu (co s) -> (dead c = false -> dead (co s) = false) -> end_inv (set_co s c).
Proof.
  intros [H1 H2 H3 H4 H5 H6 H7] Hw Hd. constructor; cbn [set_co co pcs out sent]; try done.
  - intros H. specialize (H2 (Hd H)). unfold writing in *. cbn [set_co co pcs out sent]. by rewrite Hw.
  - by rewrite Hw.
  - intros i p Hi Hp. specialize (H7 i p Hi Hp). destruct (dead c); [done|]. specialize (Hd eq_refl). congruence.
Qed.

Lemma end_inv_poll s p : end_inv s -> end_inv (polled s p).
Proof. intros [H1 H2 H3 H4 H5 H6 H7]. by constructor. Qed.

(** Thread [i] goes on. *)
Lemma end_inv_move s i p q : end_inv s -> pcs s !! i = Some p -> owns q = owns p -> pc_ok q -> q <> SDone true ->
  (removing q = true -> dead (co s) = true) -> end_inv (move s i q).
Proof.
  intros [H1 H2 H3 H4 H5 H6 H7] Hi Ho Hq Hn Hrm. constructor; cbn [move set_pcs co pcs out sent]; try done.
  - intros H. specialize (H2 H). unfold writing in *. cbn [move set_pcs co pcs out sent]. destruct (buf (wpdu (co s))) as [b|]; [|done].
    destruct H2 as (l & j & f & ? & ? & ? & ? & ? & Hown). exists l, j, f. do 5 (split; [done|]).
    intros k r [(-> & ->)|(Hne & Hk)]%insert_cases Hr; [|by apply (Hown k r)]. apply (Hown i p); [done|by rewrite <- Ho].
  - pose proof (tally_update owns (pcs s) i p q Hi) as Ht. rewrite Ho in Ht. lia.
  - by apply Forall_insert.
  - intros k [(-> & E)|(Hne & Hk)]%insert_cases; [congruence|]. destruct (H6 k Hk) as (l1 & f & l2 & ? & ?). by exists l1, f, l2.
  - intros k r [(-> & ->)|(Hne & Hk)]%insert_cases Hr; [by apply Hrm|by eapply H7].
Qed.

(** Threads are woken. *)
Definition waking (g : pc -> pc) : Prop := forall p, owns (g p) = owns p /\ (pc_ok p -> pc_ok (g p)) /\ (g p = SDone true -> p = SDone true) /\ removing (g p) = removing p.
Lemma wake_turn_waking : waking wake_turn.
Proof. intros []; done. Qed.
Lemma wake_complete_waking : waking wake_complete.
Proof. intros []; done. Qed.

Lemma end_inv_wake g s : waking g -> end_inv s -> end_inv (set_pcs s (g <$> pcs s)).
Proof.
  intros Hg [H1 H2 H3 H4 H5 H6 H7]. constructor; cbn [set_pcs co pcs out sent]; try done.
  - intros H. specialize (H2 H). unfold writing in *. cbn [set_pcs co pcs out sent]. destruct (buf (wpdu (co s))) as [b|]; [|done].
    destruct H2 as (l & j & f & ? & ? & ? & ? & ? & Hown). exists l, j, f. do 5 (split; [done|]).
    intros k r (q & Hq & ->)%lookup_wake Hr. destruct (Hg q) as (Ho & _). rewrite Ho in Hr. by apply (Hown k q).
  - rewrite tally_map; [done|]. intros p. apply Hg.
  - apply Forall_fmap. eapply Forall_impl; [exact H4|]. intros p. cbn. apply Hg.
  - intros i (q & Hq & E)%lookup_wake. symmetry in E. destruct (Hg q) as (_ & _ & Hd & _). apply Hd in E as ->. by apply H6.
  - intros i r (q & Hq & ->)%lookup_wake Hr. destruct (Hg q) as (_ & _ & _ & Hrm). rewrite Hrm in Hr. by eapply H7.
Qed.

(** [send] returns. *)
Lemma end_inv_finish s i p : end_inv s -> pcs s !! i = Some p -> owns p = true -> (dead (co s) = false -> solong (wpdu (co s)) = sz (wpdu (co s))) ->
  end_inv (send_finish s i).
Proof.
  intros H Hi Ho Hfull. destruct (owner_some s i p H Hi Ho) as [b Hb]. destruct H as [H1 H2 H3 H4 H5 H6 H7].
  set (ret := negb (dead (co s)) && (solong (wpdu (co s)) =? sz (wpdu (co s)))).
  set (s1 := Sys (set_wpdu (co s) charbuf_new) (poll s) (<[i := SDone ret]> (pcs s)) (out s) (sent s)).
  assert (Hout : dead (co s) = false -> out s = concat (frames s) /\ written s i).
  { intros Hd. specialize (Hfull Hd). specialize (H2 Hd). unfold writing in H2. rewrite Hb in H2.
    destruct H2 as (l & j & f & Es & Esz & Hk & Hc & Eout & Hown). specialize (Hown i p Hi Ho) as <-.
    assert (E : out s = concat (snd <$> (l ++ [(i, f)]))).
    { rewrite Eout, fmap_app, concat_app. cbn [fmap list_fmap snd concat]. by rewrite app_nil_r, Hfull, Esz, take_ge by (unfold alen; lia). }
    split; [unfold frames; by rewrite Es|]. exists l, f, []. split; [done|]. by rewrite E. }
  assert (Hs1 : end_inv s1).
  { constructor; cbn [s1 co pcs out sent]; try done.
    - intros Hd. unfold writing. cbn [s1 co set_wpdu wpdu charbuf_new buf out sent sz solong]. split; [by apply Hout|done].
    - pose proof (tally_update owns (pcs s) i p (SDone ret) Hi) as Ht. rewrite Ho, H3, bool_decide_true in Ht by eauto. cbn. cbn in Ht. lia.
    - by apply Forall_insert.
    - intros k [(-> & E)|(Hne & Hk)]%insert_cases; [|by apply H6]. injection E as E. symmetry in E. unfold ret in E. apply andb_true_iff in E as [E _].
      apply negb_true_iff in E. by apply Hout.
    - intros k r [(-> & ->)|(Hne & Hk)]%insert_cases Hr; [done|by eapply H7]. }
  unfold send_finish. fold ret. case_bool; [|exact Hs1]. apply (end_inv_wake wake_turn s1 wake_turn_waking Hs1).
Qed.

Lemma end_inv_wait s i p : end_inv s -> pcs s !! i = Some p -> owns p = true -> removing p = false -> end_inv (send_wait s i).
Proof.
  intros H Hi Ho Hrm. unfold send_wait. destruct (negb _ && _ && _) eqn:E; [by eapply end_inv_move|]. eapply end_inv_finish; try done.
  intros Hd. pose proof (ei_writing s H Hd) as Hw. unfold writing in Hw. destruct (owner_some s i p H Hi Ho) as [b Hb]. rewrite Hb in Hw.
  destruct Hw as (l & j & f & _ & Esz & Hk & _). rewrite Hd, Esz in E. cbn [negb andb] in E. rewrite Esz. apply andb_false_iff in E as [E|E]; [apply Z.leb_gt in E|apply Z.ltb_ge in E]; lia.
Qed.


Lemma finish_move s i q : send_finish (move s i q) i = send_finish s i.
Proof. unfold send_finish. cbn [move set_pcs co poll pcs out sent]. by rewrite list_insert_insert_eq. Qed.
Lemma wait_move s i q : send_wait (move s i q) i = send_wait s i.
Proof. unfold send_wait. rewrite finish_move. cbn [move set_pcs co poll pcs out sent]. unfold move. cbn [set_pcs pcs]. by rewrite list_insert_insert_eq. Qed.

(** What has been written and sent stays, and what is being read. *)
Definition grows (s s' : sys) : Prop :=
  out s `prefix_of` out s' /\ sent s `prefix_of` sent s' /\ rpdu (co s') = rpdu (co s) /\ (dead (co s') = false -> dead (co s) = false).
Lemma grows_trans s1 s2 s3 : grows s1 s2 -> grows s2 s3 -> grows s1 s3.
Proof. intros (A1 & A2 & A3 & A4) (B1 & B2 & B3 & B4). split; [by etransitivity|]. split; [by etransitivity|]. split; [congruence|]. auto. Qed.

Lemma wait_grows s i : grows s (send_wait s i).
Proof. unfold send_wait. by destruct (negb _ && _ && _). Qed.

(** ** writepdu keeps the invariant *)

Definition advance (s : sys) (c : conn) (o : list ascii) : sys := Sys c (poll s) (pcs s) (out s ++ o) (sent s).

Lemma end_inv_writepdu s r : end_inv s -> dead (co s) = false -> is_Some (buf (wpdu (co s))) ->
  exists c ok o, writepdu (co s) r = Some (c, ok, o) /\ same_but_wpdu (co s) c /\ is_Some (buf (wpdu c)) /\
  if ok : bool then end_inv (advance s c o) /\ 0 <= solong (wpdu c) <= sz (wpdu c) else o = [] /\ end_inv (advance s (set_dead c) o).
Proof.
  intros H Hd [b Hb]. pose proof (ei_writing s H Hd) as Hw. destruct H as [H1 H2 H3 H4 H5 H6 H7]. unfold writing in Hw. rewrite Hb in Hw.
  destruct Hw as (l & i & f & Es & Esz & Hk & Hc & Eout & Hown).
  assert (Hf : frame_ok f) by (unfold frames in H5; rewrite Es, fmap_app in H5; apply Forall_app in H5 as [_ H5]; by apply Forall_cons in H5 as [? _]).
  destruct (writepdu_ok (co s) r b f Hb Hf Esz Hk Hc) as (c & ok & o & b' & -> & Hsame & Hb' & Hok). exists c, ok, o. split; [done|]. split; [done|].
  split; [by eexists|]. rewrite Hb, bool_decide_true in H3 by eauto. pose proof (proj1 Hsame) as Hdead.
  assert (Hmono : forall j, written s j -> written (advance s c o) j).
  { intros j (l1 & g & l2 & E1 & E2). exists l1, g, l2. split; [done|]. cbn [advance out]. etransitivity; [exact E2|]. by apply prefix_app_r. }
  destruct ok.
  - destruct Hok as (E1 & E2 & E3 & E4 & E5). pose proof (alen_nonneg o).
    assert (Eout' : out s ++ o = concat (snd <$> l) ++ take (Z.to_nat (solong (wpdu c))) f) by (rewrite Eout, E5; by rewrite app_assoc).
    split; [|lia]. constructor; cbn [advance co pcs out sent]; try done.
    + unfold frames. cbn [advance sent]. rewrite Eout', Es, fmap_app, concat_app. cbn [fmap list_fmap snd concat]. rewrite app_nil_r. apply prefix_app. apply prefix_take.
    + intros _. unfold writing. cbn [advance co pcs out sent]. rewrite Hb'. exists l, i, f. split; [done|]. split; [done|]. split; [lia|]. done.
    + rewrite Hb', bool_decide_true by eauto. done.
    + intros j Hj. by apply Hmono, H6.
    + intros j p Hj Hp. rewrite Hdead. by eapply H7.
  - subst o. split; [done|]. constructor; cbn [advance co pcs out sent set_dead dead wpdu]; rewrite ?app_nil_r; try done.
    + rewrite Hb', bool_decide_true by eauto. done.
    + intros j Hj. destruct (Hmono j (H6 j Hj)) as (l1 & g & l2 & ? & ?). by exists l1, g, l2.
Qed.

(** A thread takes the connection. *)
Lemma end_inv_take s i p b n : end_inv s -> dead (co s) = false -> buf (wpdu (co s)) = None -> pcs s !! i = Some p -> owns p = false -> call_ok b n ->
  end_inv (Sys (set_wpdu (co s) (Charbuf (Some b) n 0)) (poll s) (<[i := SCompleteWoken]> (pcs s)) (out s) (sent s ++ [(i, frame b n)])).
Proof.
  intros [H1 H2 H3 H4 H5 H6 H7] Hd Hb Hi Ho Hc. specialize (H2 Hd). unfold writing in H2. rewrite Hb in H2. destruct H2 as (Eout & _ & _).
  rewrite Hb, bool_decide_false in H3 by (intros [? ?]; done). pose proof (tally_update owns (pcs s) i p SCompleteWoken Hi) as Ht. rewrite Ho, H3 in Ht.
  assert (Hnone : forall j q, pcs s !! j = Some q -> owns q = false).
  { intros j q Hj. destruct (owns q) eqn:E; [|done]. assert (0 < tally owns (pcs s))%nat by (apply tally_pos; eauto). lia. }
  constructor; cbn [co pcs out sent set_wpdu wpdu buf dead].
  - unfold frames. cbn [sent]. rewrite fmap_app, concat_app. etransitivity; [exact H1|]. by apply prefix_app_r.
  - intros _. unfold writing. cbn [co pcs out sent set_wpdu wpdu buf sz solong]. exists (sent s), i, (frame b n). pose proof (frame_length b n Hc) as Hl. destruct Hc as [Hn Hnb]. split; [done|]. split; [done|]. split; [lia|].
    split; [by apply cur_new|]. split; [by rewrite Eout, app_nil_r|].
    intros j q [(-> & ->)|(Hne & Hj)]%insert_cases Hq; [done|]. rewrite (Hnone j q Hj) in Hq. done.
  - rewrite bool_decide_true by eauto. cbn in Ht. lia.
  - by apply Forall_insert.
  - unfold frames. cbn [sent]. rewrite fmap_app. apply Forall_app. split; [done|]. constructor; [by apply frame_is_ok|done].
  - intros j [(-> & E)|(Hne & Hj)]%insert_cases; [done|]. destruct (H6 j Hj) as (l1 & g & l2 & E1 & E2). exists l1, g, (l2 ++ [(i, frame b n)]).
    split; [by rewrite E1, <- app_assoc|done].
  - intros j q [(-> & ->)|(Hne & Hj)]%insert_cases Hq; [done|by eapply H7].
Qed.

Lemma send_pdu_inv s i p b n r lose : end_inv s -> dead (co s) = false -> buf (wpdu (co s)) = None -> pcs s !! i = Some p -> owns p = false -> call_ok b n ->
  exists s', send_pdu s i b n r lose = Some s' /\ end_inv s' /\ grows s s'.
Proof.
  intros H Hd Hb Hi Ho Hc. pose proof (end_inv_take s i p b n H Hd Hb Hi Ho Hc) as H0. set (c0 := set_wpdu (co s) (Charbuf (Some b) n 0)) in *.
  set (c1 := if lose then shutdown c0 else c0). set (s0 := Sys c0 _ _ _ _) in H0.
  assert (H1 : end_inv (set_co s0 c1)) by (apply end_inv_co; [done|by destruct lose|by destruct lose]).
  assert (Hi0 : pcs (set_co s0 c1) !! i = Some SCompleteWoken) by (cbn; apply list_lookup_insert_eq; by eapply lookup_lt_Some).
  destruct (end_inv_writepdu (set_co s0 c1) r H1) as (c & ok & o & E & Hsame & Hsome & Hok); [by destruct lose|destruct lose; cbn; eauto|].
  unfold send_pdu. fold c0 c1. change (co (set_co s0 c1)) with c1 in E. rewrite E. cbn [mbind option_bind]. eexists. split; [reflexivity|].
  set (s1 := Sys c _ _ _ _). assert (Hlen : (i < length (pcs s))%nat) by (by eapply lookup_lt_Some).
  assert (Hadv : forall c', advance (set_co s0 c1) c' o = move (set_co s1 c') i SCompleteWoken) by (by destruct lose).
  assert (Hmove : forall c' q, pcs (move (set_co s1 c') i q) !! i = Some q) by (intros; cbn; by apply list_lookup_insert_eq).
  assert (Hsame' : rpdu c = rpdu (co s) /\ dead c = dead (co s)) by (destruct Hsame as (-> & -> & _); by destruct lose).
  assert (Hpre : grows s s1) by (split; [by apply prefix_app_r|]; split; [by apply prefix_app_r|]; cbn [s1 co]; split; [apply Hsame'|]; by rewrite (proj2 Hsame')).
  destruct ok; cbn [negb].
  - destruct Hok as [Hinv Hrange]. rewrite Hadv in Hinv. change (set_co s1 c) with s1 in Hinv. destruct (Z.eqb_spec (solong (wpdu c)) (sz (wpdu c))) as [Efull|Efull].
    + split; [|exact Hpre]. rewrite <- (finish_move s1 i SCompleteWoken). by eapply end_inv_finish; [exact Hinv|apply (Hmove c)|done|].
    + split; [|by eapply grows_trans; [exact Hpre|apply (wait_grows (set_co s1 (add_callback_w c)))]]. rewrite <- (wait_move _ i SCompleteWoken). eapply end_inv_wait; [|apply (Hmove (add_callback_w c))|done|done].
      apply (end_inv_co (move s1 i SCompleteWoken)); done.
  - destruct Hok as [_ Hinv]. rewrite Hadv in Hinv. split; [|by eapply grows_trans; [exact Hpre|]]. eapply (end_inv_move _ i _ SRemove) in Hinv; [|apply (Hmove (set_dead c))|done..].
    unfold move in Hinv. cbn [set_pcs pcs] in Hinv. by rewrite list_insert_insert_eq in Hinv.
Qed.

(** ** Every step of one end keeps the invariant *)

(** A step that can be taken, keeps the invariant and only adds to what was written. *)
Definition keeps (s : sys) (r : option sys) : Prop := exists s', r = Some s' /\ end_inv s' /\ grows s s'.

Lemma keeps_here s s' : end_inv s' -> grows s s' -> keeps s (Some s').
Proof. intros H Hg. by exists s'. Qed.
Lemma keeps_after s s1 r : grows s s1 -> keeps s1 r -> keeps s r.
Proof. intros Hg (s' & E & H & Hg'). exists s'. split; [done|]. split; [done|]. by eapply grows_trans. Qed.

Lemma send_turn_inv s i p b n r lose : end_inv s -> pcs s !! i = Some p -> owns p = false -> call_ok b n -> keeps s (send_turn s i b n r lose).
Proof.
  intros H Hi Ho Hc. unfold send_turn. destruct (dead (co s)) eqn:Hd; cbn [negb andb].
  - apply keeps_here; [|done]. eapply end_inv_move; [apply end_inv_co; [exact H|done|done]|exact Hi|done..].
  - case_bool_decide as Hb; [apply keeps_here; [by eapply end_inv_move|done]|].
    assert (Hn : buf (wpdu (co s)) = None) by (by apply eq_None_not_Some).
    eapply (send_pdu_inv (set_co s (set_waiters (co s) (waiters (co s) - 1)))); try done. by apply end_inv_co.
Qed.

Lemma exec_inv s i r lose : end_inv s -> keeps s (exec s i r lose).
Proof.
  intros H. unfold exec. pose proof (ei_ok s H) as Hok. destruct (pcs s !! i) as [p|] eqn:Hi; [|by apply keeps_here].
  pose proof (Forall_lookup_1 _ _ _ _ Hok Hi) as Hp. destruct p; try (by apply keeps_here).
  - eapply keeps_after; [|eapply (send_turn_inv (set_co s _) i); [by apply end_inv_co|exact Hi|done|done]]. done.
  - by eapply send_turn_inv.
  - apply keeps_here; [|done]. eapply (end_inv_move (set_co s _)); [by apply end_inv_co|exact Hi|done|done|done|]. intros _. by apply (ei_removing s H i _ Hi).
  - apply keeps_here; [|done]. eapply (end_inv_finish (set_co s _)); [by apply end_inv_co|exact Hi|done|]. cbn [set_co co forget dead]. rewrite (ei_removing s H i _ Hi) by done. done.
  - apply keeps_here; [|apply wait_grows]. by eapply end_inv_wait.
  - unfold closeconn. apply keeps_here; [|by destruct (dead (co s))]. destruct (dead (co s)); [by eapply end_inv_move|]. eapply (end_inv_move (set_co s _)); [by apply end_inv_co|exact Hi|done..].
  - apply keeps_here; [|done]. eapply (end_inv_move (set_co s _)); [by apply end_inv_co|exact Hi|done..].
  - apply keeps_here; [|done]. eapply (end_inv_move (set_co s _)); [by apply end_inv_co|exact Hi|done..].
Qed.

Lemma write_cb_inv s r : end_inv s -> dead (co s) = false -> keeps s (write_cb s r).
Proof.
  intros H Hd. unfold write_cb. rewrite Hd. cbn [negb VERIFY]. destruct (Z.eqb_spec (sz (wpdu (co s))) 0) as [H0|H0]; [apply keeps_here; [by apply end_inv_co|done]|].
  assert (Hb : is_Some (buf (wpdu (co s)))).
  { pose proof (ei_writing s H Hd) as Hw. unfold writing in Hw. destruct (buf (wpdu (co s))); [by eexists|]. by destruct Hw as (_ & ? & _). }
  destruct (end_inv_writepdu s r H Hd Hb) as (c & ok & o & -> & (Hdead & Hrp & _) & _ & Hok). cbn [mbind option_bind]. destruct ok; cbn [negb].
  - destruct Hok as [Hinv Hr]. rewrite (proj2 (Z.leb_le _ _)) by lia. cbn [VERIFY]. eexists. split; [reflexivity|]. fold (advance s c o).
    split; [case_bool; [exact Hinv|apply (end_inv_wake wake_complete (advance s c o) wake_complete_waking Hinv)]|]. case_bool; (split; [by apply prefix_app_r|]; split; [done|]; split; [exact Hrp|done]).
  - destruct Hok as [-> Hinv]. eexists. split; [reflexivity|]. split; [|split; [by apply prefix_app_r|]; split; [done|]; split; [exact Hrp|done]]. rewrite app_nil_r. cbn [advance] in Hinv. unfold advance in Hinv. rewrite app_nil_r in Hinv.
    pose proof (end_inv_co _ (set_dead (del_callback_rw c)) Hinv eq_refl ltac:(done)) as H2. exact (end_inv_wake wake_complete _ wake_complete_waking H2).
Qed.

Lemma local_step_inv s s' : end_inv s -> local_step s s' -> end_inv s' /\ grows s s'.
Proof.
  intros H Hs. destruct Hs as [i r lose s' _ E|r w s' E|r s' E|i s' E].
  - destruct (exec_inv s i r lose H) as (s2 & E2 & ? & ?). rewrite E in E2. by injection E2 as ->.
  - unfold select in E. destruct (poll s); [done|]. destruct (implb _ _ && _); [|done]. injection E as <-. split; [by apply (end_inv_poll s)|done].
  - unfold poll_write in E. destruct (poll s) as [[[] []]|]; try (injection E as <-; by split).
    + destruct (callback (co s)); [|injection E as <-; split; [by apply end_inv_poll|done]]. pose proof (end_inv_poll s None H) as Hp.
      destruct (dead (co s)) eqn:Hd; [unfold write_cb in E; cbn [polled co] in E; by rewrite Hd in E|].
      destruct (write_cb_inv (polled s None) r Hp Hd) as (s2 & E2 & ? & ?). rewrite E in E2. by injection E2 as ->.
    + injection E as <-. split; [by apply end_inv_poll|done].
  - unfold spurious in E. pose proof (ei_ok s H) as Hok. destruct (pcs s !! i) as [p|] eqn:Hi; [|done]. pose proof (Forall_lookup_1 _ _ _ _ Hok Hi) as Hp.
    destruct p; try done; injection E as <-; (split; [by eapply end_inv_move|done]).
Qed.

(** ** The reading end *)

Definition reading (p : charbuf) (part : list ascii) (F : list (list ascii)) : Prop :=
  match buf p with
  | None => part = [] /\ sz p = 0 /\ solong p = 0
  | Some b => part = b /\ exists f F', F = f :: F' /\ b `prefix_of` f /\ sz p = alen f /\ solong p = alen b
  end.

(** [o] was written at one end, as the PDUs [F] and a part of the next one; [wire] is on its
    way, and the other end has taken [got]. *)
Definition dir (o : list ascii) (F : list (list ascii)) (c : conn) (wire : list ascii) (got : list (list ascii)) : Prop :=
  exists F', F = got ++ F' /\ (dead c = false -> exists part, o = concat got ++ part ++ wire /\ reading (rpdu c) part F').

Lemma prefix_short {A} (x f g : list A) : x `prefix_of` f ++ g -> (length x <= length f)%nat -> x `prefix_of` f.
Proof.
  intros [k E] Hl. assert (x = take (length x) f) as ->; [|apply prefix_take]. apply (f_equal (take (length x))) in E.
  rewrite take_app_length, take_app_le in E by done. by symmetry.
Qed.

Lemma prefix_full {A} (x f : list A) : x `prefix_of` f -> length x = length f -> x = f.
Proof. intros [k ->] Hl. rewrite length_app in Hl. destruct k; [by rewrite app_nil_r|cbn in Hl; lia]. Qed.

Lemma dir_grow s s' c wire got : dir (out s) (frames s) c wire got -> grows s s' ->
  dir (out s') (frames s') c (wire ++ drop (length (out s)) (out s')) got.
Proof.
  intros (F' & EF & Hd) ([o Eo] & [t Et] & _). exists (F' ++ (snd <$> t)). unfold frames. rewrite Et, fmap_app. fold (frames s). rewrite EF. split; [by rewrite app_assoc|].
  intros H. destruct (Hd H) as (part & E & Hr). exists part. rewrite Eo, drop_app_length, E, <- !app_assoc. split; [done|]. unfold reading in *. destruct (buf (rpdu c)); [|done].
  destruct Hr as (? & f & F'' & -> & ? & ? & ?). split; [done|]. by exists f, (F'' ++ (snd <$> t)).
Qed.

Lemma dir_rest (o : list ascii) (F got : list (list ascii)) part wire F' : o `prefix_of` concat F -> F = got ++ F' -> o = concat got ++ part ++ wire -> part ++ wire `prefix_of` concat F'.
Proof. intros Hp -> ->. rewrite concat_app in Hp. by apply prefix_app_inv in Hp. Qed.

Lemma dir_dead o F c wire got : dead c = true -> got `prefix_of` F -> dir o F c wire got.
Proof. intros Hd [F' ->]. exists F'. split; [done|]. rewrite Hd. done. Qed.

(** The fields [readpdu] leaves alone. *)
Definition same_but_rpdu (c c' : conn) : Prop := dead c' = dead c /\ wpdu c' = wpdu c /\ waiters c' = waiters c /\ shut c' = shut c /\
  watch_r c' = watch_r c /\ watch_w c' = watch_w c /\ callback c' = callback c.

Lemma read_rest_ok c b f (F' : list (list ascii)) wire ch again c' ok wire' : rpdu c = Charbuf (Some b) (alen f) (alen b) -> b ++ wire `prefix_of` f ++ concat F' -> b `prefix_of` f -> alen b < alen f ->
  read_rest c wire ch again = Some (c', ok, wire') ->
  same_but_rpdu c c' /\ (if ok : bool then exists part, part ++ wire' = b ++ wire /\ reading (rpdu c') part (f :: F') else buf (rpdu c') = None).
Proof.
  intros Hr Hpre Hbf Hlt. unfold read_rest. rewrite Hr. cbn [sz solong buf]. rewrite (proj2 (Z.leb_le _ _)) by lia. cbn [VERIFY].
  assert (Hstay : reading (rpdu c) b (f :: F')) by (rewrite Hr; split; [done|]; by exists f, F').
  unfold sock_read. destruct ch as [k| | |].
  - destruct (_ && _); [|done]. cbn [VERIFY mbind option_bind]. rewrite (proj2 (Z.eqb_neq _ _)) by lia. cbn [mbind option_bind]. intros [= <- <- <-].
    split; [done|]. set (m := Z.to_nat _). exists (b ++ take m wire). rewrite <- app_assoc, take_drop. split; [done|]. split; [done|].
    exists f, F'. split; [done|]. cbn [set_rpdu rpdu sz solong]. rewrite alen_app. split; [|done].
    apply (prefix_short _ f (concat F')); [etransitivity; [|exact Hpre]; apply prefix_app, prefix_take|].
    rewrite length_app, length_take. unfold alen in *. lia.
  - destruct wire; [|done]. cbn [VERIFY mbind option_bind]. destruct again; intros [= <- <- <-]; (split; [done|]); [by exists b|done].
  - destruct wire; [|done]. cbn [VERIFY mbind option_bind]. intros [= <- <- <-]. split; [done|]. by exists b.
  - intros [= <- <- <-]. done.
Qed.

Lemma head_frame (F : list (list ascii)) wire : Forall frame_ok F -> wire `prefix_of` concat F -> wire <> [] -> exists f F', F = f :: F' /\ frame_ok f.
Proof.
  intros HF Hp Hne. destruct F as [|f F']; [cbn in Hp; by apply prefix_nil_inv in Hp|]. apply Forall_cons in HF as [Hf _]. by exists f, F'.
Qed.

Lemma readpdu_ok c part F wire ch1 ch2 again c' ok wire' : Forall frame_ok F -> part ++ wire `prefix_of` concat F -> reading (rpdu c) part F ->
  (negb (bool_decide (is_Some (buf (rpdu c)))) || (solong (rpdu c) <? sz (rpdu c))) = true -> readpdu c wire ch1 ch2 again = Some (c', ok, wire') ->
  same_but_rpdu c c' /\ (if ok : bool then exists part', part' ++ wire' = part ++ wire /\ reading (rpdu c') part' F else buf (rpdu c') = None).
Proof.
  intros HF Hp Hr Hgo E. unfold reading in Hr. destruct (buf (rpdu c)) as [b|] eqn:Eb.
  - destruct Hr as (-> & f & F' & -> & Hbf & Esz & Esl). rewrite bool_decide_true in Hgo by eauto. cbn [negb orb] in Hgo. apply Z.ltb_lt in Hgo. rewrite Esz, Esl in Hgo.
    unfold readpdu in E. pose proof (alen_nonneg b). rewrite Esz, (proj2 (Z.eqb_neq _ _)) in E by lia.
    destruct (read_rest_ok c b f F' wire ch2 again c' ok wire') as [Hs Ho]; [destruct (rpdu c); cbn in *; congruence|done|done|done|done|].
    done.
  - destruct Hr as (-> & Esz & Esl). unfold readpdu in E. rewrite Esz in E. cbn [Z.eqb] in E. unfold sock_read at 1 in E. destruct ch1 as [k| | |].
    + destruct wire as [|x wire]; [by rewrite andb_false_r in E|]. cbn [negb] in E. rewrite andb_true_r in E. destruct (0 <? k); [|done]. cbn [VERIFY mbind option_bind] in E.
      set (m := Z.to_nat _) in E. set (w := x :: wire) in *. cbn [Z.eqb] in E. cbn [mbind option_bind] in E.
      destruct (Z.eqb_spec (alen (take m w)) 4) as [H4|H4]; cbn [negb] in E; [|injection E as <- <- <-; by split].
      destruct (head_frame F w HF Hp ltac:(done)) as (f & F' & -> & Hf). cbn [concat app] in Hp. pose proof Hf as [Hlen Hhd].
      assert (Etk : take m w = htonl (alen f)).
      { rewrite <- Hhd. assert (take m w `prefix_of` take 4 f) as Hpf; [|by apply prefix_full; [|unfold alen in *; rewrite (length_take f 4); lia]].
        apply (prefix_short _ _ (drop 4 f ++ concat F')); [rewrite app_assoc, take_drop; etransitivity; [apply prefix_take|exact Hp]|unfold alen in *; rewrite (length_take f 4); lia]. }
      assert (Hw : take m w ++ drop m w = w) by apply take_drop. rewrite Etk in E, H4, Hw. rewrite ntohl_htonl in E by lia. cbn [mbind option_bind] in E.
      rewrite (proj2 (Z.ltb_ge _ _)) in E by lia. rewrite Eb in E. cbn [VERIFY] in E. rewrite (proj2 (Z.leb_le _ _)) in E by lia. cbn [VERIFY] in E.
      destruct (read_rest_ok (set_rpdu c (Charbuf (Some (htonl (alen f))) (alen f) 4)) (htonl (alen f)) f F' (drop m w) ch2 again c' ok wire') as [Hs Ho];
        [by rewrite H4|by rewrite Hw|rewrite <- Hhd; apply prefix_take|lia|exact E|].
      split; [exact Hs|]. by rewrite Hw in Ho.
    + destruct wire; [|done]. cbn in E. injection E as <- <- <-. by split.
    + destruct wire; [|done]. done.
    + cbn in E. injection E as <- <- <-. by split.
Qed.

Lemma read_cb_ok o F c wire ch1 ch2 again accept got c' wire' sig d : Forall frame_ok F -> o `prefix_of` concat F -> dir o F c wire got ->
  read_cb c wire ch1 ch2 again accept = Some (c', wire', sig, d) ->
  dir o F c' wire' (got ++ option_list d) /\ wpdu c' = wpdu c /\ (dead c' = false -> dead c = false).
Proof.
  intros HF Ho (F' & EF & Hd) E. unfold read_cb in E. destruct (dead c) eqn:Edead.
  { injection E as <- <- <- <-. split; [|by rewrite Edead]. cbn [option_list]. rewrite app_nil_r. apply dir_dead; [done|]. rewrite EF. by apply prefix_app_r. }
  destruct (Hd eq_refl) as (part & Eo & Hr). clear Hd. pose proof (dir_rest _ _ _ _ _ _ Ho EF Eo) as Hp.
  assert (HF' : Forall frame_ok F') by (rewrite EF in HF; by apply Forall_app in HF as [_ ?]).
  assert (Hstep : exists c1 (ok : bool) wire1, (if negb (bool_decide (is_Some (buf (rpdu c)))) || (solong (rpdu c) <? sz (rpdu c)) then readpdu c wire ch1 ch2 again else Some (c, true, wire)) = Some (c1, ok, wire1) /\
    same_but_rpdu c c1 /\ if ok then exists part', part' ++ wire1 = part ++ wire /\ reading (rpdu c1) part' F' else buf (rpdu c1) = None).
  { destruct (negb _ || _) eqn:Hgo; [|exists c, true, wire; split; [done|]; split; [done|]; by exists part].
    destruct (readpdu c wire ch1 ch2 again) as [[[c1 ok] wire1]|] eqn:Er; [|done]. exists c1, ok, wire1. split; [done|]. by eapply readpdu_ok. }
  destruct Hstep as (c1 & ok & wire1 & Es & (Hdead & Hwp & _) & Hok). rewrite Es in E. cbn [mbind option_bind] in E. clear Es.
  destruct ok.
  - destruct Hok as (part' & Epart & Hr'). unfold reading in Hr'.
    assert (Hsame : dir o F c1 wire1 (got ++ [])).
    { rewrite app_nil_r. exists F'. split; [done|]. intros _. exists part'. split; [by rewrite Eo, Epart|exact Hr']. }
    destruct (buf (rpdu c1)) as [b|]; [|injection E as <- <- <- <-; by rewrite Hdead].
    destruct (Z.eqb_spec (sz (rpdu c1)) (solong (rpdu c1))) as [Efull|]; [|injection E as <- <- <- <-; by rewrite Hdead].
    destruct accept; [|injection E as <- <- <- <-; by rewrite Hdead]. injection E as <- <- <- <-. cbn [option_list set_rpdu wpdu dead]. rewrite Hdead. split; [|done].
    destruct Hr' as (-> & f & F2 & -> & Hbf & E1 & E2). assert (b = f) as -> by (apply prefix_full; [done|unfold alen in *; lia]).
    exists F2. rewrite EF, <- app_assoc. split; [done|]. intros _. exists []. rewrite Eo, <- Epart, concat_app. simpl. by rewrite app_nil_r, <- app_assoc.
  - assert (Hc : forall x, buf (rpdu (set_dead (del_callback_rw c1))) = x -> x = None) by (intros x <-; exact Hok).
    destruct (buf (rpdu (set_dead (del_callback_rw c1)))) as [b|] eqn:Eb; [by specialize (Hc _ eq_refl)|]. injection E as <- <- <- <-.
    cbn [option_list]. rewrite app_nil_r. split; [|split; [exact Hwp|done]]. apply dir_dead; [done|]. rewrite EF. by apply prefix_app_r.
Qed.

(** ** Two ends *)

Record link_inv (l : link) : Prop := LinkInv {
  li_a : end_inv (ea l); li_b : end_inv (eb l);
  li_ab : dir (out (ea l)) (frames (ea l)) (co (eb l)) (ab l) (got_b l);
  li_ba : dir (out (eb l)) (frames (eb l)) (co (ea l)) (ba l) (got_a l)
}.

Lemma dir_conn o F c c' wire got : dir o F c wire got -> rpdu c' = rpdu c -> (dead c' = false -> dead c = false) -> dir o F c' wire got.
Proof. intros (F' & E & H) Hr Hd. exists F'. split; [done|]. rewrite Hr. auto. Qed.

Lemma poll_read_inv o F s wire ch1 ch2 again accept got s' wire' d : Forall frame_ok F -> o `prefix_of` concat F -> end_inv s -> dir o F (co s) wire got ->
  poll_read s wire ch1 ch2 again accept = Some (s', wire', d) ->
  end_inv s' /\ out s' = out s /\ sent s' = sent s /\ dir o F (co s') wire' (got ++ option_list d).
Proof.
  intros HF Ho Hs Hdir E. unfold poll_read in E. destruct (poll s) as [[[] w]|]; [|injection E as <- <- <-; by rewrite app_nil_r..].
  cbn [polled co] in E. destruct (callback (co s)); [|injection E as <- <- <-; rewrite app_nil_r; split; [by apply end_inv_poll|done]].
  destruct (read_cb (co s) wire ch1 ch2 again accept) as [[[[c w'] sig] d']|] eqn:Er; [|done]. cbn [mbind option_bind] in E. injection E as <- <- <-.
  destruct (read_cb_ok _ _ _ _ _ _ _ _ _ _ _ _ _ HF Ho Hdir Er) as (Hd & Hw & Hdead). split; [|done].
  assert (Hinv : end_inv (set_co (polled s (Some (false, w))) c)) by (apply end_inv_co; [by apply end_inv_poll|done|done]).
  destruct sig; [by apply (end_inv_wake wake_complete _ wake_complete_waking Hinv)|exact Hinv].
Qed.

Lemma half_step_inv l l' : link_inv l -> half_step l l' -> link_inv l'.
Proof.
  intros [Ha Hb Hab Hba] Hs. destruct Hs as [s' Hl|ch1 ch2 again accept s' wire d E].
  - destruct (local_step_inv _ _ Ha Hl) as [Ha' Hg]. constructor; cbn [ea eb ab ba got_a got_b]; try done.
    + by apply dir_grow.
    + destruct Hg as (_ & _ & Hr & Hd). by eapply dir_conn.
  - destruct (poll_read_inv _ _ _ _ _ _ _ _ _ _ _ _ (ei_frames _ Hb) (ei_prefix _ Hb) Ha Hba E) as (Ha' & Eo & Es & Hba').
    constructor; cbn [ea eb ab ba got_a got_b]; try done. unfold frames. by rewrite Eo, Es.
Qed.

Lemma flip_inv l : link_inv l -> link_inv (flip l).
Proof. intros [? ? ? ?]. by constructor. Qed.

Lemma link_step_inv l l' : link_inv l -> link_step l l' -> link_inv l'.
Proof. intros H [l2 Hs|l2 Hs]; [by eapply half_step_inv|]. apply flip_inv. eapply half_step_inv; [|exact Hs]. by apply flip_inv. Qed.

Lemma sys_init_inv calls : Forall (fun x => match x with Some (b, n) => call_ok b n | None => True end) calls -> end_inv (sys_init calls).
Proof.
  intros Hc. assert (Hpc : forall i p, pcs (sys_init calls) !! i = Some p -> pc_ok p /\ owns p = false /\ removing p = false /\ p <> SDone true).
  { intros i p (x & Hx & ->)%lookup_wake. pose proof (Forall_lookup_1 _ _ _ _ Hc Hx) as H. by destruct x as [[b n]|]. }
  constructor; try done.
  - destruct (tally owns (pcs (sys_init calls))) eqn:E; [done|]. destruct (proj1 (tally_pos owns (pcs (sys_init calls)))) as (i & p & Hi & Ho); [rewrite E; lia|].
    apply Hpc in Hi as (_ & Hf & _). congruence.
  - apply Forall_lookup_2. intros i p Hi. by apply Hpc in Hi as (? & _).
  - intros i Hi. by apply Hpc in Hi as (_ & _ & _ & ?).
  - intros i p Hi Hr. apply Hpc in Hi as (_ & _ & Hf & _). congruence.
Qed.

Definition calls_ok (calls : list (option (list ascii * Z))) : Prop := Forall (fun x => match x with Some (b, n) => call_ok b n | None => True end) calls.

Lemma link_reachable_inv ca cb l : calls_ok ca -> calls_ok cb -> rtc link_step (link_init ca cb) l -> link_inv l.
Proof.
  intros Ha Hb Hr. assert (H0 : link_inv (link_init ca cb)).
  { constructor; [by apply sys_init_inv..| |]; exists []; (split; [done|]); intros _; by exists []. }
  induction Hr as [|l l1 l2 Hs _ IH] in H0 |- *; [done|]. apply IH. by eapply link_step_inv.
Qed.

(** C25. PDUs arrive whole and in order: whatever threads send and close at the two ends,
    whatever pieces [write] takes and [read] returns, and whenever they fail, the PDUs that
    [got_pdu] has taken at one end are the first ones that were sent at the other, each as
    its sender gave it, with its size in the first four bytes; a [send] that returns [true]
    has written its whole PDU; and as long as the reading end lives, nothing that was
    written is missing. *)
Theorem pdus_arrive_in_order ca cb l : calls_ok ca -> calls_ok cb -> rtc link_step (link_init ca cb) l ->
  got_b l `prefix_of` frames (ea l) /\ got_a l `prefix_of` frames (eb l) /\
  (forall i, pcs (ea l) !! i = Some (SDone true) -> written (ea l) i) /\
  (dead (co (eb l)) = false -> exists part, out (ea l) = concat (got_b l) ++ part ++ ab l /\ (buf (rpdu (co (eb l))) = None -> part = [])).
Proof.
  intros Ha Hb Hr. destruct (link_reachable_inv ca cb l Ha Hb Hr) as [Hea Heb (Fa & Ea & Hab) (Fb & Eb & _)].
  split; [rewrite Ea; by apply prefix_app_r|]. split; [rewrite Eb; by apply prefix_app_r|]. split; [apply Hea|].
  intros Hd. destruct (Hab Hd) as (part & Eo & Hread). exists part. split; [done|]. intros Hn. unfold reading in Hread. rewrite Hn in Hread. apply Hread.
Qed.
