(* ===== verification/ConnProgress.v ===== *)
(** * Connections: senders are not forgotten

    Every thread that waits in [connection::send] is waited for by something that will wake
    it: the thread whose PDU is being written, or the poll thread, which watches the socket.
    This needs that nobody calls [closeconn]: it marks the connection dead and takes it from
    the poll thread, but wakes no one. *)

From Stdlib Require Import ZArith Lia Ascii.
From stdpp Require Import base list relations.
From S2P Require Import Prelude Loops Marshall Threads Connection ConnSafety.

Local Open Scope Z_scope.

(** A step of one end: of a sending thread, of the poll thread, or a wait that returns. *)
Inductive end_step (s : sys) : sys -> Prop :=
  | end_local s' : local_step s s' -> end_step s s'
  | end_read wire ch1 ch2 again accept s' wire' d : poll_read s wire ch1 ch2 again accept = Some (s', wire', d) -> end_step s s'.

Definition turning (p : pc) : bool := match p with STurn _ _ | STurnWoken _ _ => true | _ => false end.
Definition asleep (p : pc) : bool := match p with STurn _ _ => true | _ => false end.
Definition closer (p : pc) : bool := match p with CNew | CRemove | CRemoving | CDone => true | _ => false end.
Definition finishing (p : pc) : bool := match p with SComplete | SCompleteWoken => true | _ => false end.

(** The poll thread watches the socket for writing. *)
Definition watched (c : conn) : Prop := watch_w c = true /\ callback c = true.
(** A part of the PDU is left to be written. *)
Definition unfinished (c : conn) : Prop := dead c = false /\ 0 <= solong (wpdu c) < sz (wpdu c).

Record prog_inv (s : sys) : Prop := ProgInv {
  pi_end : end_inv s;
  pi_open : forall i p, pcs s !! i = Some p -> closer p = false;
  pi_waiters : waiters (co s) = Z.of_nat (tally turning (pcs s));
  pi_turn : (0 < tally asleep (pcs s))%nat -> is_Some (buf (wpdu (co s)));
  pi_watch : (0 < tally finishing (pcs s))%nat -> unfinished (co s) -> watched (co s);
  pi_sleep : forall i, pcs s !! i = Some SComplete -> unfinished (co s)
}.

(** ** Counting *)

Lemma tally_zero {A} (f : A -> bool) l : tally f l = 0%nat <-> forall i p, l !! i = Some p -> f p = false.
Proof.
  split.
  - intros H i p Hi. destruct (f p) eqn:E; [|done]. assert (0 < tally f l)%nat by (apply tally_pos; eauto). lia.
  - intros H. destruct (tally f l) eqn:E; [done|]. destruct (proj1 (tally_pos f l)) as (i & p & Hi & Hp); [lia|]. by rewrite (H i p Hi) in Hp.
Qed.

Lemma no_owner s : end_inv s -> buf (wpdu (co s)) = None -> forall i p, pcs s !! i = Some p -> owns p = false.
Proof. intros H Hb. apply tally_zero. rewrite (ei_owner s H), Hb. by rewrite bool_decide_false by (by intros [? ?]). Qed.

Lemma one_owner s i p : end_inv s -> pcs s !! i = Some p -> owns p = true -> forall j q, j <> i -> pcs s !! j = Some q -> owns q = false.
Proof.
  intros H Hi Hp j q Hne Hj. pose proof (ei_owner s H) as Ht. pose proof (tally_update owns (pcs s) i p CDone Hi) as H1. rewrite Hp in H1. cbn in H1.
  destruct (owns q) eqn:E; [|done]. assert (0 < tally owns (<[i := CDone]> (pcs s)))%nat by (apply tally_pos; exists j, q; split; [by rewrite list_lookup_insert_ne|done]).
  case_bool_decide; lia.
Qed.

Lemma finishing_owns p : finishing p = true -> owns p = true.
Proof. by destruct p. Qed.

(** ** Moves *)

(** A thread goes on without touching what others wait for. *)
Lemma prog_move s i p q : prog_inv s -> pcs s !! i = Some p -> end_inv (move s i q) -> closer q = false -> turning q = turning p ->
  (asleep q = true -> is_Some (buf (wpdu (co s)))) -> (finishing q = true -> finishing p = true) -> (q = SComplete -> unfinished (co s)) -> prog_inv (move s i q).
Proof.
  intros [P0 P1 P2 P3 P4 P5] Hi He Hc Ht Ha Hf Hs. constructor; cbn [move set_pcs co pcs]; try done.
  - intros j r [(-> & ->)|(Hne & Hj)]%insert_cases; [done|by eapply P1].
  - pose proof (tally_update turning (pcs s) i p q Hi) as H. rewrite Ht in H. lia.
  - intros (j & r & [(-> & ->)|(Hne & Hj)]%insert_cases & Hr)%tally_pos; [by apply Ha|]. apply P3. apply tally_pos. eauto.
  - intros (j & r & [(-> & ->)|(Hne & Hj)]%insert_cases & Hr)%tally_pos; apply P4; apply tally_pos; eauto.
  - intros j [(-> & E)|(Hne & Hj)]%insert_cases; [by apply Hs|by eapply P5].
Qed.

(** The other threads of the connection, when thread [i] has it. *)
Lemma prog_others s i p : prog_inv s -> pcs s !! i = Some p -> owns p = true -> forall j q, j <> i -> pcs s !! j = Some q -> finishing q = false.
Proof.
  intros H Hi Hp j q Hne Hj. destruct (finishing q) eqn:E; [|done]. apply finishing_owns in E. rewrite (one_owner s i p (pi_end s H) Hi Hp j q Hne Hj) in E. done.
Qed.

(** [send] returns: the threads that wait for their turn are woken. *)
Lemma prog_finish s i p : end_inv (send_finish s i) -> pcs s !! i = Some p -> (forall j q, j <> i -> pcs s !! j = Some q -> closer q = false /\ finishing q = false) ->
  waiters (co s) = Z.of_nat (tally turning (pcs s)) - (if turning p then 1 else 0) -> prog_inv (send_finish s i).
Proof.
  intros He Hi Ho Hw. set (ret := negb (dead (co s)) && (solong (wpdu (co s)) =? sz (wpdu (co s)))). set (l := <[i := SDone ret]> (pcs s)).
  assert (Hturn : waiters (co s) = Z.of_nat (tally turning l)) by (pose proof (tally_update turning (pcs s) i p (SDone ret) Hi); cbn [turning] in *; unfold l; destruct (turning p); lia).
  assert (Hpcs : pcs (send_finish s i) = if 0 <? waiters (co s) then wake_turn <$> l else l) by done.
  assert (Hl : forall j q, l !! j = Some q -> closer q = false /\ finishing q = false).
  { intros j q [(-> & ->)|(Hne & Hj)]%insert_cases; [done|by eapply Ho]. }
  assert (Hl' : forall j q, pcs (send_finish s i) !! j = Some q -> asleep q = false /\ closer q = false /\ finishing q = false).
  { intros j q. rewrite Hpcs. destruct (Z.ltb_spec 0 (waiters (co s))) as [Hpos|H0].
    - intros (r & Hr & ->)%lookup_wake. apply Hl in Hr as [? ?]. by destruct r.
    - intros Hj. split; [|by eapply Hl]. assert (Ht : turning q = false) by (eapply (proj1 (tally_zero turning l)); [lia|exact Hj]). by destruct q. }
  constructor; [exact He|..].
  - intros j q Hj. by apply Hl' in Hj as (_ & ? & _).
  - rewrite Hpcs. cbn [send_finish co set_wpdu waiters]. rewrite Hturn. case_bool; [|done]. rewrite tally_map; [done|]. by intros [].
  - intros (j & q & Hj & Hq)%tally_pos. apply Hl' in Hj as (Ha & _). congruence.
  - intros (j & q & Hj & Hq)%tally_pos. apply Hl' in Hj as (_ & _ & Ha). congruence.
  - intros j Hj. by apply Hl' in Hj as (_ & _ & ?).
Qed.

Lemma prog_wait s i p : end_inv (send_wait s i) -> pcs s !! i = Some p -> (forall j q, j <> i -> pcs s !! j = Some q -> closer q = false /\ finishing q = false) ->
  waiters (co s) = Z.of_nat (tally turning (pcs s)) - (if turning p then 1 else 0) -> is_Some (buf (wpdu (co s))) -> (unfinished (co s) -> watched (co s)) -> prog_inv (send_wait s i).
Proof.
  intros He Hi Ho Hw Hb Hwatch. unfold send_wait in *. destruct (negb _ && _ && _) eqn:E; [|by eapply prog_finish].
  assert (Hun : unfinished (co s)) by (apply andb_true_iff in E as [[Hd H1]%andb_true_iff H2]; apply negb_true_iff in Hd; apply Z.leb_le in H1; apply Z.ltb_lt in H2; by split).
  constructor; [exact He|..]; cbn [move set_pcs co pcs].
  - intros j q [(-> & ->)|(Hne & Hj)]%insert_cases; [done|by eapply Ho].
  - pose proof (tally_update turning (pcs s) i p SComplete Hi) as H. cbn [turning] in H. destruct (turning p); lia.
  - done.
  - intros _. exact Hwatch.
  - done.
Qed.

(** Threads that wait for the end of their PDU are woken. *)
Lemma prog_wake s : end_inv s -> (forall i p, pcs s !! i = Some p -> closer p = false) -> waiters (co s) = Z.of_nat (tally turning (pcs s)) ->
  ((0 < tally asleep (pcs s))%nat -> is_Some (buf (wpdu (co s)))) -> ~ unfinished (co s) -> prog_inv (set_pcs s (wake_complete <$> pcs s)).
Proof.
  intros He Hc Hw Ht Hn. constructor; cbn [set_pcs co pcs].
  - by apply (end_inv_wake wake_complete s wake_complete_waking).
  - intros i p (q & Hq & ->)%lookup_wake. apply Hc in Hq. by destruct q.
  - rewrite tally_map; [done|]. by intros [].
  - rewrite tally_map by (by intros []). exact Ht.
  - intros _ H. by apply Hn in H.
  - intros i (q & Hq & E)%lookup_wake. by destruct q.
Qed.

(** ** Steps *)

Lemma writepdu_same c r c' ok o : writepdu c r = Some (c', ok, o) -> is_Some (buf (wpdu c)) -> same_but_wpdu c c' /\ is_Some (buf (wpdu c')) /\
  (ok = true -> sz (wpdu c') = sz (wpdu c) /\ solong (wpdu c) <= solong (wpdu c')).
Proof.
  unfold writepdu. intros E [b Hb]. destruct (0 <=? _); [|done]. cbn [VERIFY] in E. destruct (_ =? sz (wpdu c)); [injection E as <- <- <-; split; [done|]; split; [by eexists|]; intros _; split; [done|lia]|].
  rewrite Hb in E. cbn [mbind option_bind] in E. destruct (if _ =? 0 then _ else _) as [b'|]; [|done]. cbn [mbind option_bind] in E. destruct (_ <=? alen b'); [|done]. cbn [VERIFY] in E.
  destruct (if shut c then WErr else r); injection E as <- <- <-; (split; [done|]); (split; [by eexists|]); cbn [set_wpdu wpdu sz solong]; try done; intros _; (split; [done|lia]).
Qed.

(** What a step of a thread that has not the connection may rely on. *)
Record calm (s : sys) : Prop := Calm {
  calm_end : end_inv s;
  calm_open : forall i p, pcs s !! i = Some p -> closer p = false;
  calm_turn : (0 < tally asleep (pcs s))%nat -> is_Some (buf (wpdu (co s)));
  calm_watch : (0 < tally finishing (pcs s))%nat -> unfinished (co s) -> watched (co s);
  calm_sleep : forall i, pcs s !! i = Some SComplete -> unfinished (co s)
}.
Lemma prog_calm s : prog_inv s -> calm s.
Proof. intros []. by constructor. Qed.

Lemma prog_pdu s i p b n r lose s' : calm s -> pcs s !! i = Some p -> owns p = false -> call_ok b n -> dead (co s) = false -> buf (wpdu (co s)) = None ->
  waiters (co s) = Z.of_nat (tally turning (pcs s)) - (if turning p then 1 else 0) -> send_pdu s i b n r lose = Some s' -> prog_inv s'.
Proof.
  intros [C0 C1 C2 C3 C4] Hi Ho Hc Hd Hb Hw E. destruct (send_pdu_inv s i p b n r lose C0 Hd Hb Hi Ho Hc) as (s2 & E2 & He & _). rewrite E in E2. injection E2 as <-.
  pose proof (no_owner s C0 Hb) as Hno. unfold send_pdu in E. set (c0 := set_wpdu (co s) (Charbuf (Some b) n 0)) in E. set (c1 := if lose then shutdown c0 else c0) in E.
  destruct (writepdu c1 r) as [[[c ok] o]|] eqn:Ew; [|done]. cbn [mbind option_bind] in E. destruct (writepdu_same _ _ _ _ _ Ew) as [(Ed & _ & Ewt & _) [Hsome _]]; [destruct lose; by eexists|].
  assert (Hwt : waiters c = waiters (co s)) by (rewrite Ewt; by destruct lose).
  assert (Hoth : forall j q, j <> i -> pcs s !! j = Some q -> closer q = false /\ finishing q = false).
  { intros j q _ Hj. split; [by eapply C1|]. destruct (finishing q) eqn:Ef; [|done]. apply finishing_owns in Ef. rewrite (Hno j q Hj) in Ef. done. }
  set (s1 := Sys c _ _ _ _) in E. destruct ok; cbn [negb] in E; [destruct (_ =? _)|]; injection E as <-.
  - eapply (prog_finish s1 i p); [exact He|done|done|]. cbn [s1 co pcs]. by rewrite Hwt.
  - eapply (prog_wait (set_co s1 (add_callback_w c)) i p); [exact He|done|done| |done|done]. cbn [s1 set_co co pcs add_callback_w waiters]. by rewrite Hwt.
  - constructor; [exact He|..]; cbn [move set_pcs set_co s1 co pcs set_dead waiters wpdu dead].
    + intros j q [(-> & ->)|(Hne & Hj)]%insert_cases; [done|by eapply C1].
    + pose proof (tally_update turning (pcs s) i p SRemove Hi) as H. cbn [turning] in H. rewrite Hwt. destruct (turning p); lia.
    + done.
    + by intros _ [? _].
    + intros j [(-> & E)|(Hne & Hj)]%insert_cases; [done|]. by apply Hno in Hj.
Qed.

Lemma prog_turn s i p b n r lose s' : calm s -> pcs s !! i = Some p -> owns p = false -> closer p = false -> call_ok b n ->
  waiters (co s) = Z.of_nat (tally turning (pcs s)) + (if turning p then 0 else 1) -> send_turn s i b n r lose = Some s' -> prog_inv s'.
Proof.
  intros Hcalm Hi Ho Hp Hc Hw E. pose proof Hcalm as [C0 C1 C2 C3 C4]. destruct (send_turn_inv s i p b n r lose C0 Hi Ho Hc) as (s2 & E2 & He & _). rewrite E in E2. injection E2 as <-.
  assert (Hfin : forall q, finishing q = false -> (0 < tally finishing (<[i := q]> (pcs s)))%nat -> (0 < tally finishing (pcs s))%nat).
  { intros q Hq (j & r' & [(-> & ->)|(Hne & Hj)]%insert_cases & Hr)%tally_pos; [congruence|]. apply tally_pos. eauto. }
  unfold send_turn in E. destruct (dead (co s)) eqn:Hd; cbn [negb andb] in E.
  - injection E as <-. constructor; [exact He|..]; cbn [move set_pcs set_co co pcs set_waiters waiters wpdu dead].
    + intros j q [(-> & ->)|(Hne & Hj)]%insert_cases; [done|by eapply C1].
    + pose proof (tally_update turning (pcs s) i p (SDone false) Hi) as H. cbn [turning] in H. destruct (turning p); lia.
    + intros (j & q & [(-> & ->)|(Hne & Hj)]%insert_cases & Hq)%tally_pos; [done|]. apply C2, tally_pos. eauto.
    + intros _ [Hx _]. cbn in Hx. congruence.
    + intros j [(-> & E)|(Hne & Hj)]%insert_cases; [done|]. by eapply C4.
  - case_bool_decide as Hb.
    + injection E as <-. constructor; [exact He|..]; cbn [move set_pcs co pcs].
      * intros j q [(-> & ->)|(Hne & Hj)]%insert_cases; [done|by eapply C1].
      * pose proof (tally_update turning (pcs s) i p (STurn b n) Hi) as H. cbn [turning] in H. destruct (turning p); lia.
      * done.
      * intros H. by apply C3, (Hfin (STurn b n)).
      * intros j [(-> & E)|(Hne & Hj)]%insert_cases; [done|]. by eapply C4.
    + eapply (prog_pdu (set_co s (set_waiters (co s) (waiters (co s) - 1)))); [constructor; try done; by apply end_inv_co|exact Hi|done|done|done| | |exact E].
      * by apply eq_None_not_Some.
      * cbn [set_co co set_waiters waiters pcs]. destruct (turning p); lia.
Qed.

(** The connection changes where no thread looks. *)
Lemma prog_co s c : prog_inv s -> wpdu c = wpdu (co s) -> dead c = dead (co s) -> waiters c = waiters (co s) ->
  (watched (co s) -> watched c) -> prog_inv (set_co s c).
Proof.
  intros [P0 P1 P2 P3 P4 P5] Hw Hd Hn Hwa. assert (Hun : unfinished c <-> unfinished (co s)) by (unfold unfinished; by rewrite Hw, Hd).
  constructor; cbn [set_co co pcs]; try done.
  - apply end_inv_co; [done|done|congruence].
  - by rewrite Hn.
  - by rewrite Hw.
  - intros H ?%Hun. by apply Hwa, P4.
  - intros i Hi. apply Hun. by eapply P5.
Qed.

Lemma prog_poll s p : prog_inv s -> prog_inv (polled s p).
Proof. intros [P0 P1 P2 P3 P4 P5]. constructor; try done. by apply end_inv_poll. Qed.

Lemma prog_exec s i r lose s' : prog_inv s -> exec s i r lose = Some s' -> prog_inv s'.
Proof.
  intros H E. pose proof (prog_calm s H) as Hcalm. pose proof H as [P0 P1 P2 P3 P4 P5]. destruct (exec_inv s i r lose P0) as (s2 & E2 & He & _). rewrite E in E2. injection E2 as <-.
  unfold exec in E. destruct (pcs s !! i) as [p|] eqn:Hi; [|by injection E as <-]. pose proof (Forall_lookup_1 _ _ _ _ (ei_ok s P0) Hi) as Hp. pose proof (P1 i p Hi) as Hc.
  assert (Hoth : owns p = true -> forall j q, j <> i -> pcs s !! j = Some q -> closer q = false /\ finishing q = false).
  { intros Ho j q Hne Hj. split; [by eapply P1|exact (prog_others s i p H Hi Ho j q Hne Hj)]. }
  destruct p; try (by injection E as <-); try done.
  - eapply (prog_turn (set_co s _)); [|exact Hi|done|done|exact Hp| |exact E]; [|cbn [set_co co set_waiters waiters pcs turning]; lia]. constructor; [by apply end_inv_co|exact P1|exact P3|exact P4|exact P5].
  - eapply prog_turn; [exact Hcalm|exact Hi|done|done|exact Hp| |exact E]. cbn [turning]. lia.
  - injection E as <-. constructor; [exact He|..]; cbn [move set_pcs set_co co pcs unwatch waiters wpdu dead].
    + intros j q [(-> & ->)|(Hne & Hj)]%insert_cases; [done|by eapply P1].
    + pose proof (tally_update turning (pcs s) i SRemove SRemoving Hi) as Ht. cbn [turning] in Ht. lia.
    + intros (j & q & [(-> & ->)|(Hne & Hj)]%insert_cases & Hq)%tally_pos; [done|]. apply P3, tally_pos. eauto.
    + intros (j & q & [(-> & ->)|(Hne & Hj)]%insert_cases & Hq)%tally_pos; [done|]. apply (Hoth eq_refl) in Hj as [_ Hf]; [congruence|done].
    + intros j [(-> & E)|(Hne & Hj)]%insert_cases; [done|]. by eapply P5.
  - injection E as <-. eapply (prog_finish (set_co s (forget (co s)))); [exact He|exact Hi|by apply Hoth|]. cbn [set_co co forget waiters pcs turning]. lia.
  - injection E as <-. eapply prog_wait; [exact He|exact Hi|by apply Hoth|cbn [turning]; lia| |].
    + by eapply (owner_some s i).
    + intros Hu. apply P4; [|done]. apply tally_pos. by exists i, SCompleteWoken.
Qed.

Lemma prog_write_cb s r s' : prog_inv s -> write_cb s r = Some s' -> prog_inv s'.
Proof.
  intros H E. pose proof H as [P0 P1 P2 P3 P4 P5]. destruct (dead (co s)) eqn:Hd; [unfold write_cb in E; by rewrite Hd in E|].
  destruct (write_cb_inv s r P0 Hd) as (s2 & E2 & He & _). rewrite E in E2. injection E2 as <-. pose proof (ei_writing s P0 Hd) as Hwr. unfold write_cb in E. rewrite Hd in E. cbn [negb VERIFY] in E.
  unfold writing in Hwr. destruct (buf (wpdu (co s))) as [b|] eqn:Hb.
  2: { destruct Hwr as (_ & Hz & _). rewrite Hz in E. cbn [Z.eqb] in E. injection E as <-. pose proof (no_owner s P0 Hb) as Hno. rewrite <- Hb in P3. constructor; [exact He|exact P1|exact P2|exact P3| |exact P5].
       intros (j & q & Hj & Hq)%tally_pos. apply finishing_owns in Hq. rewrite (Hno j q Hj) in Hq. done. }
  destruct (end_inv_writepdu s r P0 Hd) as (c & ok & o & Ew & (Ed & _ & Ewt & _ & _ & Eww & Ecb) & Hsome & Hok); [by rewrite Hb|].
  destruct (_ =? 0) eqn:Hz.
  { exfalso. destruct Hwr as (l & j & f & Es & Esz & _). apply Z.eqb_eq in Hz. pose proof (ei_frames s P0) as HF. unfold frames in HF. rewrite Es, fmap_app in HF.
    apply Forall_app in HF as [_ HF]. apply Forall_cons in HF as [[Hf _] _]. cbn in Hf. lia. }
  rewrite Ew in E. cbn [mbind option_bind] in E. destruct ok; cbn [negb] in E.
  - destruct Hok as [Hinv Hr]. rewrite (proj2 (Z.leb_le _ _)) in E by lia. cbn [VERIFY] in E. injection E as <-. fold (advance s c o) in He |- *.
    destruct (Z.ltb_spec (solong (wpdu c)) (sz (wpdu c))) as [Hlt|Hge].
    + constructor; [exact He|exact P1|cbn [advance co pcs]; by rewrite Ewt|by intros _| |].
      * intros Hf _. cbn [advance co]. unfold watched. rewrite Eww, Ecb. apply P4; [exact Hf|]. destruct (writepdu_same _ _ _ _ _ Ew) as (_ & _ & Hle); [by rewrite Hb|].
        destruct (Hle eq_refl) as [E1 E2]. destruct Hwr as (l & j & f & _ & Esz & Hk & _). split; [done|lia].
      * intros j Hj. cbn [advance co]. split; [congruence|lia].
    + apply (prog_wake (advance s c o)); [done|done|cbn [advance co pcs]; by rewrite Ewt|by intros _|]. intros [_ Hu]. cbn [advance co] in Hu. lia.
  - destruct Hok as [-> Hinv]. injection E as <-. eapply (prog_wake (set_co (advance s c []) (set_dead (del_callback_rw c)))); [|done|cbn; by rewrite Ewt|by intros _|by intros [? _]].
    by apply (end_inv_co (advance s (set_dead c) [])).
Qed.

Lemma readpdu_same c wire ch1 ch2 again c' ok wire' : readpdu c wire ch1 ch2 again = Some (c', ok, wire') -> same_but_rpdu c c'.
Proof.
  assert (Hrest : forall c w, read_rest c w ch2 again = Some (c', ok, wire') -> same_but_rpdu c c').
  { intros c2 w. unfold read_rest. destruct (0 <=? _); [|done]. cbn [VERIFY]. destruct (sock_read _ _ _) as [[[l| | |] w']|]; try done; cbn [mbind option_bind].
    - destruct (buf (rpdu c2)); [|done]. cbn [mbind option_bind]. by intros [= <- <- <-].
    - destruct again; by intros [= <- <- <-].
    - by intros [= <- <- <-].
    - by intros [= <- <- <-]. }
  unfold readpdu. destruct (sz (rpdu c) =? 0); [|apply Hrest]. destruct (sock_read wire 4 ch1) as [[[l| | |] w]|]; try done; cbn [mbind option_bind]; try (by intros [= <- <- <-]).
  destruct (negb _); [by intros [= <- <- <-]|]. destruct (ntohl l) as [n|]; [|done]. cbn [mbind option_bind]. destruct (MAX_PDU <? n); [by intros [= <- <- <-]|].
  destruct (buf (rpdu c)); [done|]. cbn [VERIFY]. destruct (0 <=? n); [|done]. cbn [VERIFY]. intros H%Hrest. exact H.
Qed.

Lemma read_cb_same c wire ch1 ch2 again accept c' wire' sig d : read_cb c wire ch1 ch2 again accept = Some (c', wire', sig, d) ->
  wpdu c' = wpdu c /\ waiters c' = waiters c /\ if sig : bool then dead c' = true else dead c' = dead c /\ watch_w c' = watch_w c /\ callback c' = callback c.
Proof.
  unfold read_cb. destruct (dead c) eqn:Hd; [by intros [= <- <- <- <-]|].
  destruct (if negb _ || _ then _ else _) as [[[c1 ok] w1]|] eqn:E; [|done]. cbn [mbind option_bind].
  assert (Hs : same_but_rpdu c c1) by (destruct (negb _ || _); [by eapply readpdu_same|by injection E as <- <- <-]). destruct Hs as (E1 & E2 & E3 & _ & _ & E4 & E5).
  set (c2 := if ok then c1 else _). assert (Hc2 : wpdu c2 = wpdu c /\ waiters c2 = waiters c /\ if negb ok then dead c2 = true else dead c2 = false /\ watch_w c2 = watch_w c /\ callback c2 = callback c).
  { unfold c2. destruct ok; cbn; rewrite ?E1, ?E2, ?E3, ?E4, ?E5; auto. }
  destruct (buf (rpdu c2)) as [b|]; [|by intros [= <- <- <- <-]]. destruct (_ =? _); [|by intros [= <- <- <- <-]]. destruct accept; by intros [= <- <- <- <-].
Qed.

Lemma prog_step s s' : prog_inv s -> end_step s s' -> prog_inv s'.
Proof.
  intros H [s2 [i r lose s3 _ E|r w s3 E|r s3 E|i s3 E]|wire ch1 ch2 again accept s2 wire' d E].
  - by eapply prog_exec.
  - unfold select in E. destruct (poll s); [done|]. destruct (implb _ _ && _); [|done]. injection E as <-. by apply (prog_poll s).
  - unfold poll_write in E. destruct (poll s) as [[[] []]|]; try (by injection E as <-); [|injection E as <-; by apply prog_poll].
    destruct (callback (co s)); [|injection E as <-; by apply prog_poll]. eapply prog_write_cb; [|exact E]. by apply prog_poll.
  - pose proof H as [P0 P1 P2 P3 P4 P5]. assert (He : end_inv s3) by (eapply local_step_inv; [exact P0|by eapply step_spurious]).
    unfold spurious in E. destruct (pcs s !! i) as [p|] eqn:Hi; [|done]. destruct p; try done; injection E as <-; by eapply prog_move.
  - unfold poll_read in E. destruct (poll s) as [[[] w]|]; try (by injection E as <- <- <-). pose proof (prog_poll s (Some (false, w)) H) as Hp. cbn [polled co] in E.
    destruct (callback (co s)); [|by injection E as <- <- <-]. destruct (read_cb _ _ _ _ _ _) as [[[[c w'] sig] d']|] eqn:Er; [|done]. cbn [mbind option_bind] in E. injection E as <- <- <-.
    destruct (read_cb_same _ _ _ _ _ _ _ _ _ _ Er) as (E1 & E2 & E3). destruct sig.
    + pose proof Hp as [P0 P1 P2 P3 P4 P5]. apply (prog_wake (set_co (polled s (Some (false, w))) c)).
      * apply end_inv_co; [done|done|]. congruence.
      * done.
      * cbn [set_co co pcs]. by rewrite E2.
      * cbn [set_co co pcs]. by rewrite E1.
      * intros [? _]. cbn [set_co co] in *. congruence.
    + destruct E3 as (E3 & E4 & E5). apply (prog_co _ c Hp); try done. unfold watched. by rewrite E4, E5.
Qed.

Lemma prog_init calls : calls_ok calls -> Forall is_Some calls -> prog_inv (sys_init calls).
Proof.
  intros Hc Hs. assert (Hpc : forall i p, pcs (sys_init calls) !! i = Some p -> exists b n, p = SNew b n).
  { intros i p (x & Hx & ->)%lookup_wake. destruct (Forall_lookup_1 _ _ _ _ Hs Hx) as [[b n] ->]. eauto. }
  assert (Hz : forall f, (forall b n, f (SNew b n) = false) -> tally f (pcs (sys_init calls)) = 0%nat).
  { intros f Hf. apply tally_zero. intros i p (b & n & ->)%Hpc. apply Hf. }
  constructor.
  - by apply sys_init_inv.
  - by intros i p (b & n & ->)%Hpc.
  - by rewrite Hz.
  - rewrite Hz by done. lia.
  - rewrite Hz by done. lia.
  - by intros i (b & n & ?)%Hpc.
Qed.

Lemma prog_reachable s0 s : prog_inv s0 -> rtc end_step s0 s -> prog_inv s.
Proof. intros H Hr. induction Hr as [|x y z Hst _ IH]; [done|]. apply IH. by eapply prog_step. Qed.

(** C26. No sender is forgotten: as long as some thread has not returned from [send] and
    nobody closes the connection, some sending thread can run, or the poll thread is calling
    back, or it watches the socket and will be told when it can be written; whatever pieces
    are written, whatever fails, and without a wait that returns for no reason. *)
Theorem senders_progress calls s i p : calls_ok calls -> Forall is_Some calls -> rtc end_step (sys_init calls) s ->
  pcs s !! i = Some p -> (forall ok, p <> SDone ok) ->
  (exists j, ready s j = true /\ forall r lose, is_Some (exec s j r lose)) \/ is_Some (poll s) \/ is_Some (select s false true).
Proof.
  intros Hc Hs Hr Hi Hp. pose proof (prog_reachable _ _ (prog_init calls Hc Hs) Hr) as H. clear Hr. pose proof H as [P0 P1 P2 P3 P4 P5].
  assert (Hexec : forall j, ready s j = true -> exists j, ready s j = true /\ forall r lose, is_Some (exec s j r lose)).
  { intros j Hj. exists j. split; [done|]. intros r lose. destruct (exec_inv s j r lose P0) as (s' & -> & _). by eexists. }
  destruct (poll s) as [x|] eqn:Epoll; [right; left; by eexists|].
  assert (Hown : forall j q, pcs s !! j = Some q -> owns q = true -> (exists j, ready s j = true /\ forall r lose, is_Some (exec s j r lose)) \/ is_Some (select s false true)).
  { intros j q Hj Hq. destruct q; try done; [left; apply (Hexec j); unfold ready; by rewrite Hj, ?Epoll..| |left; apply (Hexec j); unfold ready; by rewrite Hj].
    right. unfold select. rewrite Epoll. assert (watched (co s)) as [-> _]; [|by eexists]. apply P4; [apply tally_pos; by exists j, SComplete|by eapply P5]. }
  destruct p; try (left; apply (Hexec i); unfold ready; by rewrite Hi, ?Epoll); try (destruct (Hown i _ Hi eq_refl); tauto).
  - destruct P3 as [b' Hb]; [apply tally_pos; by eexists i, _|]. pose proof (ei_owner s P0) as Ho. rewrite Hb, bool_decide_true in Ho by eauto.
    destruct (proj1 (tally_pos owns (pcs s))) as (j & q & Hj & Hq); [lia|]. destruct (Hown j q Hj Hq); tauto.
  - by destruct (Hp ok).
  - by apply P1 in Hi.
Qed.

(** ** Runs *)

Inductive event := EExec (i : nat) (r : wres) | ESelect (r w : bool) | EWrite (r : wres).
Definition run_event (s : sys) (e : event) : option sys :=
  match e with
  | EExec i r => if ready s i then exec s i r false else None
  | ESelect r w => select s r w
  | EWrite r => poll_write s r
  end.
Fixpoint run (s : sys) (es : list event) : option sys :=
  match es with [] => Some s | e :: es => s ← run_event s e; run s es end.

Lemma run_steps es : forall s s', run s es = Some s' -> rtc local_step s s'.
Proof.
  induction es as [|e es IH]; intros s s' E; [injection E as <-; constructor|]. cbn [run] in E. destruct (run_event s e) as [s1|] eqn:E1; [|done].
  apply (rtc_l _ _ s1); [|by apply IH]. destruct e; cbn [run_event] in E1.
  - destruct (ready s i) eqn:Er; [|done]. by eapply step_exec.
  - by eapply step_select.
  - by eapply step_write.
Qed.

Definition pdu : list ascii := replicate 8 "x"%char.
Definition two_senders : sys := sys_init [Some (pdu, 8); Some (pdu, 8)].

(** After a PDU that took two writes the poll thread still watches the socket; when the next
    [send] fails, it can find the connection dead in [write_cb], whose [VERIFY] then ends the
    process. *)
Lemma failed_send_aborts_write_cb : exists s, rtc local_step two_senders s /\ poll s = Some (false, true) /\ pcs s = [SDone true; SRemove] /\
  forall r, poll_write s r = None.
Proof.
  destruct (run two_senders [EExec 0 (WOk 4); ESelect false true; EWrite (WOk 4); EExec 0 WAgain; ESelect false true; EExec 1 WErr]) as [s|] eqn:E; [|vm_compute in E; done].
  exists s. split; [by eapply run_steps|]. vm_compute in E. injection E as <-. done.
Qed.

(** [closeconn] while a thread waits for its PDU to be written: no thread can run, the socket is
    not watched, and the sender waits for ever. *)
Lemma close_forgets_sender : exists s, rtc local_step (sys_init [Some (pdu, 8); None]) s /\ pcs s = [SComplete; CDone] /\ poll s = None /\
  (forall i, ready s i = false) /\ watch_r (co s) = false /\ watch_w (co s) = false.
Proof.
  destruct (run (sys_init [Some (pdu, 8); None]) [EExec 0 (WOk 4); EExec 1 WAgain; EExec 1 WAgain; EExec 1 WAgain]) as [s|] eqn:E; [|vm_compute in E; done].
  exists s. split; [by eapply run_steps|]. vm_compute in E. injection E as <-. split; [done|]. split; [done|]. split; [|done]. by intros [|[|i]].
Qed.

Lemma run_end_steps es s s' : run s es = Some s' -> rtc end_step s s'.
Proof. intros E%run_steps. induction E as [|x y z H _ IH]; [constructor|]. eapply rtc_l; [by apply end_local|done]. Qed.

Lemma two_calls_ok : calls_ok [Some (pdu, 8); Some (pdu, 8)].
Proof. repeat constructor; vm_compute; try reflexivity; discriminate. Qed.

(** One sender waits for the rest of its PDU, the other for its turn. *)
Definition both_wait : list event := [EExec 0 (WOk 4); EExec 1 WAgain].

Lemma senders_progress_witness : exists s, run two_senders both_wait = Some s /\ pcs s = [SComplete; STurn pdu 8] /\
  ((exists j, ready s j = true /\ forall r lose, is_Some (exec s j r lose)) \/ is_Some (poll s) \/ is_Some (select s false true)).
Proof.
  destruct (run two_senders both_wait) as [s|] eqn:E; [|vm_compute in E; discriminate E].
  exists s. split; [reflexivity|]. assert (Hpcs : pcs s = [SComplete; STurn pdu 8]) by (vm_compute in E; injection E as <-; reflexivity). split; [exact Hpcs|].
  apply (senders_progress [Some (pdu, 8); Some (pdu, 8)] s 1 (STurn pdu 8)).
  - exact two_calls_ok.
  - repeat constructor; eexists; reflexivity.
  - exact (run_end_steps both_wait _ _ E).
  - rewrite Hpcs. reflexivity.
  - intros ok. discriminate.
Defined.

(** ** Runs of two ends *)

(** Events of the first end ([true]) or of the second, and reads. *)
Inductive link_event := LLocal (a : bool) (e : event) | LRead (a : bool) (ch1 ch2 : rchoice).

Definition half_event (l : link) (e : event + rchoice * rchoice) : option link :=
  match e with
  | inl e => s' ← run_event (ea l) e; Some (Link s' (eb l) (ab l ++ drop (length (out (ea l))) (out s')) (ba l) (got_a l) (got_b l))
  | inr (ch1, ch2) => '(s', wire, d) ← poll_read (ea l) (ba l) ch1 ch2 false true; Some (Link s' (eb l) (ab l) wire (got_a l ++ option_list d) (got_b l))
  end.
Definition link_event_run (l : link) (e : link_event) : option link :=
  let '(a, e) := match e with LLocal a e => (a, inl e) | LRead a ch1 ch2 => (a, inr (ch1, ch2)) end in
  if a : bool then half_event l e else flip <$> half_event (flip l) e.
Fixpoint link_run (l : link) (es : list link_event) : option link :=
  match es with [] => Some l | e :: es => l ← link_event_run l e; link_run l es end.

Lemma half_event_step l e l' : half_event l e = Some l' -> half_step l l'.
Proof.
  destruct e as [e|[ch1 ch2]]; cbn [half_event].
  - destruct (run_event (ea l) e) as [s|] eqn:E; [|done]. intros [= <-]. apply half_local. destruct e; cbn [run_event] in E.
    + destruct (ready (ea l) i) eqn:Er; [|done]. by eapply step_exec.
    + by eapply step_select.
    + by eapply step_write.
  - destruct (poll_read _ _ _ _ _ _) as [[[s w] d]|] eqn:E; [|done]. intros [= <-]. by eapply half_read.
Qed.

Lemma link_run_steps es : forall l l', link_run l es = Some l' -> rtc link_step l l'.
Proof.
  induction es as [|e es IH]; intros l l' E; [injection E as <-; constructor|]. cbn [link_run] in E. destruct (link_event_run l e) as [l1|] eqn:E1; [|done].
  apply (rtc_l _ _ l1); [|by apply IH]. unfold link_event_run in E1. destruct (match e with LLocal a e => (a, inl e) | LRead a ch1 ch2 => (a, inr (ch1, ch2)) end) as [[] e'].
  - apply link_a. by eapply half_event_step.
  - destruct (half_event (flip l) e') as [l2|] eqn:E2; [|done]. injection E1 as <-. apply link_b. by eapply half_event_step.
Qed.

(** Two PDUs, the first one written and read in two pieces. *)
Definition two_pdus : list link_event :=
  [LLocal true (EExec 0 (WOk 6)); LLocal true (EExec 1 WAgain); LLocal false (ESelect true false); LRead false (Got 4) (Got 9); LLocal false (EWrite WAgain);
   LLocal true (ESelect false true); LLocal true (EWrite (WOk 2)); LLocal true (EExec 0 WAgain); LLocal true (EExec 1 (WOk 8));
   LLocal false (ESelect true false); LRead false Err (Got 2); LLocal false (EWrite WAgain);
   LLocal false (ESelect true false); LRead false (Got 8) (Got 8); LLocal false (EWrite WAgain)].
Definition link_start : link := link_init [Some (pdu, 8); Some (pdu, 8)] [].

Lemma pdus_arrive_in_order_witness : exists l, link_run link_start two_pdus = Some l /\ length (got_b l) = 2%nat /\ pcs (ea l) = [SDone true; SDone true] /\
  got_b l `prefix_of` frames (ea l) /\ got_a l `prefix_of` frames (eb l) /\
  (forall i, pcs (ea l) !! i = Some (SDone true) -> written (ea l) i) /\
  (dead (co (eb l)) = false -> exists part, out (ea l) = concat (got_b l) ++ part ++ ab l /\ (buf (rpdu (co (eb l))) = None -> part = [])).
Proof.
  destruct (link_run link_start two_pdus) as [l|] eqn:E; [|vm_compute in E; discriminate E]. exists l. split; [reflexivity|].
  split; [vm_compute in E; injection E as <-; reflexivity|]. split; [vm_compute in E; injection E as <-; reflexivity|].
  refine (pdus_arrive_in_order [Some (pdu, 8); Some (pdu, 8)] [] l two_calls_ok _ (link_run_steps two_pdus _ _ E)). constructor.
Defined.
