(* ===== verification/ConnRefs.v ===== *)
(** * Connections: references and the connections of a server

    The rest of src/mit_6.824/rpc/connection.cc: the reference count of a connection, which
    decides when it is deleted, the order by creation time, and the table of connections
    [tcpsconn] keeps, from which [process_accept] removes the dead ones; and
    [rpcc::get_refconn] of rpc.cc, which gives a client the connection of its calls. *)

From Stdlib Require Import ZArith Lia.
From stdpp Require Import base list gmap relations.
From S2P Require Import Prelude Threads.

Local Open Scope Z_scope.
Local Open Scope cpp_scope.

(** [refno_] and [dead_] of a connection; [deleted]: [delete this] was called. *)
Record conn_ref := ConnRef { refno : Z; ref_dead : bool; deleted : bool }.
Definition conn_ref_new : conn_ref := ConnRef 1 false false.

(** Using a connection that was deleted is undefined. *)
Definition incref (c : conn_ref) : option conn_ref :=
  VERIFY! negb (deleted c) ;; Some (ConnRef (refno c + 1) (ref_dead c) false).
Definition decref (c : conn_ref) : option conn_ref :=
  VERIFY! negb (deleted c) ;;
  VERIFY! 0 <=? refno c - 1 ;;
  Some (ConnRef (refno c - 1) (ref_dead c) ((refno c - 1 =? 0) && ref_dead c)).
Definition mark_dead (c : conn_ref) : option conn_ref :=
  VERIFY! negb (deleted c) ;; Some (ConnRef (refno c) true false).

(** [connection::compare], on [create_time_] as seconds and microseconds. *)
Definition compare (t1 t2 : Z * Z) : Z :=
  if t2.1 <? t1.1 then 1 else if t1.1 <? t2.1 then -1 else if t2.2 <? t1.2 then 1 else if t1.2 <? t2.2 then -1 else 0.

(** [tcpsconn::process_accept]: the loop over [conns_], by descriptor, then the new one. *)
Definition collect (x : Z * conn_ref) : option (option (Z * conn_ref)) :=
  let '(fd, c) := x in
  if ref_dead c && (refno c =? 1) then '_ ← decref c; Some None else Some (Some (fd, c)).
Fixpoint collect_all (l : list (Z * conn_ref)) : option (list (Z * conn_ref)) :=
  match l with
  | [] => Some []
  | x :: l => y ← collect x; l ← collect_all l; Some (option_list y ++ l)
  end.
Definition process_accept (conns : list (Z * conn_ref)) (s1 : Z) : option (list (Z * conn_ref)) :=
  conns ← collect_all conns;
  Some (filter (fun x => x.1 <> s1) conns ++ [(s1, conn_ref_new)]).

(** ** Threads that share a connection *)

(** The creator holds a reference, and every thread takes one before it uses the connection
    and gives it back once: [HNone], [HHeld], [HGiven]. *)
Inductive holder := HNone | HHeld | HGiven.
#[global] Instance holder_eq_dec : EqDecision holder.
Proof. solve_decision. Defined.

(** A thread may take a reference while the creator, or another thread, holds one. *)
Record share := Share { shared : conn_ref; holders : list holder }.
Definition held (h : holder) : bool := match h with HHeld => true | _ => false end.

Inductive share_step : share -> share -> Prop :=
  | share_take s i c : holders s !! i = Some HNone -> (0 < tally held (holders s))%nat -> incref (shared s) = Some c ->
      share_step s (Share c (<[i := HHeld]> (holders s)))
  | share_give s i c : holders s !! i = Some HHeld -> decref (shared s) = Some c -> share_step s (Share c (<[i := HGiven]> (holders s)))
  | share_die s c : (0 < tally held (holders s))%nat -> mark_dead (shared s) = Some c -> share_step s (Share c (holders s)).

Definition share_init (n : nat) : share := Share conn_ref_new (HHeld :: replicate n HNone).

Definition share_inv (s : share) : Prop :=
  refno (shared s) = Z.of_nat (tally held (holders s)) /\ ((0 < tally held (holders s))%nat -> deleted (shared s) = false).

Lemma share_init_inv n : share_inv (share_init n).
Proof.
  unfold share_inv, share_init. cbn [shared holders conn_ref_new refno deleted]. rewrite tally_cons. split; [|done].
  assert (tally held (replicate n HNone) = 0%nat) as ->; [|done]. induction n; [done|]. cbn [replicate]. by rewrite tally_cons, IHn.
Qed.

Lemma share_step_inv s s' : share_inv s -> share_step s s' -> share_inv s'.
Proof.
  intros [Hr Hd] Hs. destruct Hs as [s i c Hi Hpos E|s i c Hi E|s c Hpos E]; unfold share_inv; cbn [shared holders].
  - unfold incref in E. destruct (negb _); [|done]. injection E as <-. cbn [refno deleted]. pose proof (tally_update held (holders s) i HNone HHeld Hi) as Ht. cbn [held] in Ht. split; [lia|done].
  - unfold decref in E. destruct (negb _); [|done]. cbn [VERIFY] in E. destruct (0 <=? _); [|done]. injection E as <-. cbn [refno deleted].
    pose proof (tally_update held (holders s) i HHeld HGiven Hi) as Ht. cbn [held] in Ht. split; [lia|]. intros Hpos. rewrite (proj2 (Z.eqb_neq _ _)) by lia. done.
  - unfold mark_dead in E. destruct (negb _); [|done]. injection E as <-. done.
Qed.

(** The connection is never deleted under a thread that holds it: no use of it fails. *)
Lemma holders_keep_connection n s i : rtc share_step (share_init n) s -> holders s !! i = Some HHeld ->
  deleted (shared s) = false /\ is_Some (incref (shared s)) /\ is_Some (decref (shared s)).
Proof.
  intros Hr Hi. assert (Hinv : share_inv s).
  { pose proof (share_init_inv n) as H0. induction Hr as [|x y z Hs _ IH]; [done|]. apply IH; [done|]. by eapply share_step_inv. }
  destruct Hinv as [Hn Hd]. assert (Hpos : (0 < tally held (holders s))%nat) by (apply tally_pos; eauto). specialize (Hd Hpos).
  unfold incref, decref. rewrite Hd. cbn [negb VERIFY]. rewrite (proj2 (Z.leb_le _ _)) by lia. by eauto.
Qed.

(** ** The table of connections *)

Definition collectable (x : Z * conn_ref) : bool := ref_dead x.2 && (refno x.2 =? 1).

(** [process_accept] never fails on connections that are in use, deletes those that are dead
    and only referenced by the table, keeps the others, and adds the new one. *)
Lemma process_accept_spec conns s1 : Forall (fun x => deleted x.2 = false) conns ->
  process_accept conns s1 = Some (filter (fun x => x.1 <> s1) (filter (fun x => collectable x = false) conns) ++ [(s1, conn_ref_new)]).
Proof.
  intros H. unfold process_accept. assert (E : collect_all conns = Some (filter (fun x => collectable x = false) conns)); [|by rewrite E].
  induction H as [|[fd c] l Hx Hl IH]; [done|]. cbn [collect_all collect]. rewrite filter_cons. cbn [snd] in *. change (ref_dead c && (refno c =? 1)) with (collectable (fd, c)).
  destruct (collectable (fd, c)) eqn:Ec; [rewrite decide_False by done|rewrite decide_True by done].
  - unfold collectable in Ec. cbn [snd] in Ec. apply andb_true_iff in Ec as [_ En]. apply Z.eqb_eq in En. unfold decref. rewrite Hx, En. cbn [negb VERIFY Z.sub Z.leb mbind option_bind]. by rewrite IH.
  - cbn [mbind option_bind]. by rewrite IH.
Qed.

(** [compare] orders creation times: the signs agree, and 0 is equality. *)
Lemma compare_order t1 t2 : compare t1 t2 = - compare t2 t1 /\ (compare t1 t2 = 0 <-> t1 = t2).
Proof.
  destruct t1 as [a1 b1], t2 as [a2 b2]. unfold compare. cbn [fst snd].
  destruct (Z.ltb_spec a2 a1), (Z.ltb_spec a1 a2), (Z.ltb_spec b2 b1), (Z.ltb_spec b1 b2); try lia; split; try done; split; try done; intros E; simplify_eq; try lia; f_equal; lia.
Qed.

(** ** The connection of a client *)

(** The connections by name; a change of one. *)
Definition at_conn (m : gmap nat conn_ref) (a : nat) (f : conn_ref -> option conn_ref) : option (gmap nat conn_ref) :=
  c ← m !! a; c ← f c; Some (<[a := c]> m).

(** [rpcc::get_refconn]: [chan] is [chan_] and [ch] what the caller holds; [fresh] is the
    connection that [connect_to_dst] makes, if it does. *)
Definition get_refconn (m : gmap nat conn_ref) (chan ch fresh : option nat) : option (gmap nat conn_ref * option nat * option nat) :=
  '(m, chan) ←
    match chan with
    | Some a =>
        c ← m !! a;
        if ref_dead c then m ← at_conn m a decref; Some (match fresh with Some b => <[b := conn_ref_new]> m | None => m end, fresh)
        else Some (m, Some a)
    | None => Some (match fresh with Some b => <[b := conn_ref_new]> m | None => m end, fresh)
    end;
  match chan with
  | Some a =>
      m ← match ch with Some old => at_conn m old decref | None => Some m end;
      m ← at_conn m a incref;
      Some (m, chan, Some a)
  | None => Some (m, chan, ch)
  end.

(** [n a] references to [a] are held; a connection that is held is not deleted. *)
Record counted (m : gmap nat conn_ref) (n : nat -> Z) : Prop := {
  ct_ref a c : m !! a = Some c -> refno c = n a /\ (0 < n a -> deleted c = false);
  ct_some a : 0 < n a -> is_Some (m !! a);
  ct_nonneg a : 0 <= n a }.

(** One reference, or none, to [a]. *)
Definition one (r : option nat) (a : nat) : Z := if decide (r = Some a) then 1 else 0.

Lemma counted_ext m n n' : counted m n -> (forall a, n a = n' a) -> counted m n'.
Proof. intros [H1 H2 H3] E. split; intros a; rewrite <- E; auto. Qed.

Lemma counted_decref m n a : counted m n -> 0 < n a -> exists m', at_conn m a decref = Some m' /\ counted m' (fun b => n b - one (Some a) b).
Proof.
  intros [H1 H2 H3] Hpos. destruct (H2 a Hpos) as [c Hc]. destruct (H1 a c Hc) as [Hr Hd]. specialize (Hd Hpos). unfold at_conn. rewrite Hc. cbn [mbind option_bind].
  unfold decref. rewrite Hd. cbn [negb VERIFY]. rewrite (proj2 (Z.leb_le _ _)) by lia. cbn [VERIFY mbind option_bind]. eexists. split; [done|]. unfold one. split.
  - intros b c'. rewrite lookup_insert. case_decide as E.
    + subst b. intros [= <-]. cbn. rewrite decide_True by done. split; [lia|]. intros Hp. by rewrite (proj2 (Z.eqb_neq _ _)) by lia.
    + rewrite decide_False by congruence. intros Hb. rewrite Z.sub_0_r. by apply H1.
  - intros b Hb. destruct (decide (a = b)) as [<-|Hne]; [rewrite lookup_insert_eq; by eexists|]. rewrite lookup_insert_ne by done. rewrite decide_False in Hb by congruence. apply H2. lia.
  - intros b. specialize (H3 b). case_decide; [|lia]. simplify_eq. lia.
Qed.

Lemma counted_incref m n a : counted m n -> 0 < n a -> exists m', at_conn m a incref = Some m' /\ counted m' (fun b => n b + one (Some a) b).
Proof.
  intros [H1 H2 H3] Hpos. destruct (H2 a Hpos) as [c Hc]. destruct (H1 a c Hc) as [Hr Hd]. specialize (Hd Hpos). unfold at_conn. rewrite Hc. cbn [mbind option_bind].
  unfold incref. rewrite Hd. cbn [negb VERIFY mbind option_bind]. eexists. split; [done|]. unfold one. split.
  - intros b c'. rewrite lookup_insert. case_decide as E.
    + subst b. intros [= <-]. cbn. rewrite decide_True by done. split; [lia|done].
    + rewrite decide_False by congruence. intros Hb. rewrite Z.add_0_r. by apply H1.
  - intros b Hb. destruct (decide (a = b)) as [<-|Hne]; [rewrite lookup_insert_eq; by eexists|]. rewrite lookup_insert_ne by done. rewrite decide_False in Hb by congruence. apply H2. lia.
  - intros b. specialize (H3 b). case_decide; lia.
Qed.

Lemma counted_new m n (fresh : option nat) : counted m n -> (forall b, fresh = Some b -> m !! b = None) ->
  counted (match fresh with Some b => <[b := conn_ref_new]> m | None => m end) (fun b => n b + one fresh b).
Proof.
  intros C Hf. destruct fresh as [a|]; [|eapply counted_ext; [exact C|]; intros b; unfold one; rewrite decide_False by done; lia]. specialize (Hf a eq_refl). destruct C as [H1 H2 H3].
  assert (Hz : n a = 0). { specialize (H3 a). destruct (decide (n a = 0)); [done|]. destruct (H2 a ltac:(lia)) as [? ?]. congruence. }
  unfold one. split.
  - intros b c. rewrite lookup_insert. case_decide as E; [subst b; intros [= <-]; rewrite decide_True by done; cbn; by rewrite Hz|].
    rewrite decide_False by congruence. rewrite Z.add_0_r. apply H1.
  - intros b Hb. destruct (decide (a = b)) as [<-|Hne]; [rewrite lookup_insert_eq; by eexists|]. rewrite lookup_insert_ne by done. rewrite decide_False in Hb by congruence. apply H2. lia.
  - intros b. specialize (H3 b). case_decide; lia.
Qed.

(** [get_refconn] never uses a deleted connection and keeps the counts: with one reference by
    [chan_] and [h a] by the callers, it gives back what the caller held and takes one to what
    it returns. *)
Lemma get_refconn_counts m chan ch fresh h : counted m (fun a => one chan a + h a) -> (forall a, 0 <= h a) -> (forall a, ch = Some a -> 0 < h a) ->
  (forall b, fresh = Some b -> m !! b = None) ->
  exists m' chan' ch', get_refconn m chan ch fresh = Some (m', chan', ch') /\ counted m' (fun a => one chan' a + (h a - one ch a + one ch' a)) /\
    (forall a, chan' = Some a -> ch' = Some a) /\ (chan' = None -> ch' = ch).
Proof.
  intros C Hh Hch Hf. unfold get_refconn.
  assert (Hfirst : exists m1 chan1, match chan with
      | Some a => c ← m !! a; if ref_dead c then m ← at_conn m a decref; Some (match fresh with Some b => <[b := conn_ref_new]> m | None => m end, fresh) else Some (m, Some a)
      | None => Some (match fresh with Some b => <[b := conn_ref_new]> m | None => m end, fresh) end = Some (m1, chan1) /\ counted m1 (fun a => one chan1 a + h a)).
  { destruct chan as [a|].
    - assert (Hpos : 0 < one (Some a) a + h a) by (unfold one; rewrite decide_True by done; specialize (Hh a); lia). destruct (ct_some _ _ C a Hpos) as [c Hc]. rewrite Hc. cbn [mbind option_bind].
      destruct (ref_dead c); [|by eexists _, _]. destruct (counted_decref m _ a C Hpos) as (m1 & E & C1). rewrite E. cbn [mbind option_bind]. eexists _, _. split; [done|].
      eapply counted_ext; [apply counted_new; [exact C1|]|cbn; intros; lia]. intros b Hb. specialize (Hf b Hb). unfold at_conn in E. rewrite Hc in E. cbn [mbind option_bind] in E.
      destruct (decref c) as [c'|]; [|done]. cbn [mbind option_bind] in E. injection E as <-. rewrite lookup_insert_ne; [done|]. intros ->. congruence.
    - eexists _, _. split; [done|]. eapply counted_ext; [apply counted_new; [exact C|done]|]. intros b. cbn. unfold one at 1. rewrite decide_False by done. lia. }
  destruct Hfirst as (m1 & chan1 & -> & C1). cbn [mbind option_bind]. destruct chan1 as [a|]; [|eexists _, _, _; split; [done|]; split; [eapply counted_ext; [exact C1|]; intros; cbn; lia|done]].
  assert (Hold : exists m2, match ch with Some old => at_conn m1 old decref | None => Some m1 end = Some m2 /\ counted m2 (fun b => one (Some a) b + (h b - one ch b))).
  { destruct ch as [old|].
    - destruct (counted_decref m1 _ old C1) as (m2 & -> & C2); [specialize (Hch old eq_refl); unfold one; case_decide; lia|]. eexists. split; [done|]. eapply counted_ext; [exact C2|]. intros; cbn; lia.
    - eexists. split; [done|]. eapply counted_ext; [exact C1|]. intros b. cbn. unfold one at 3. rewrite decide_False by done. lia. }
  destruct Hold as (m2 & -> & C2). cbn [mbind option_bind]. destruct (counted_incref m2 _ a C2) as (m3 & -> & C3).
  { unfold one at 1. rewrite decide_True by done. unfold one. case_decide; [subst ch; specialize (Hch a eq_refl); lia|specialize (Hh a); lia]. }
  cbn [mbind option_bind]. eexists _, _, _. split; [done|]. split; [|done]. eapply counted_ext; [exact C3|]. intros; cbn; lia.
Qed.
