(* ===== verification/PollMgr.v ===== *)
(** * The poll manager

    Models src/mit_6.824/rpc/pollmgr.cc and pollmgr.h for all descriptors: the interface
    [aio_mgr] as a class, its implementations [SelectAIO] and [EPollAIO], and [PollMgr] with
    the poll thread and the threads that add and remove callbacks.  (Connection.v looks at one
    descriptor.)  What the kernel finds ready is an argument.  The theorems: both
    implementations watch the same descriptors, and a callback whose removal has returned is
    not called any more, whatever the poll thread was doing, if no wait returns without a
    signal. *)

From Stdlib Require Import ZArith Lia.
From stdpp Require Import base numbers list gmap sets relations.
From S2P Require Import Prelude.

Local Open Scope Z_scope.
Local Open Scope cpp_scope.

Definition MAX_POLL_FDS : Z := 128.
Inductive poll_flag := CB_RDONLY | CB_WRONLY | CB_RDWR.
#[export] Instance poll_flag_eq_dec : EqDecision poll_flag.
Proof. solve_decision. Defined.
Definition flag_bits (f : poll_flag) : Z := match f with CB_RDONLY => 1 | CB_WRONLY => 16 | CB_RDWR => 17 end.
(** The enumeration has [~0x11]. *)
Definition CB_MASK : Z := Z.lnot 17.
Definition flag_reads (f : poll_flag) : bool := match f with CB_WRONLY => false | _ => true end.
Definition flag_writes (f : poll_flag) : bool := match f with CB_RDONLY => false | _ => true end.

(** ** The interface [aio_mgr] *)

(** [aio_wait] gets the state when the wait began and when it ended, and the descriptors the
    kernel has ready for reading and for writing; it returns the two lists. *)
Class AioMgr (A : Type) := {
  aio_watch_fd : A -> Z -> poll_flag -> option A;
  aio_unwatch_fd : A -> Z -> poll_flag -> option (A * bool);
  aio_is_watched : A -> Z -> poll_flag -> bool;
  aio_wait_ready : A -> A -> gset Z -> gset Z -> option (A * list Z * list Z) }.

(** The descriptors watched for reading and for writing. *)
Record wset := WSet { w_rd : gset Z; w_wr : gset Z }.
Definition w_watch (w : wset) (fd : Z) (f : poll_flag) : wset :=
  WSet (if flag_reads f then {[fd]} ∪ w_rd w else w_rd w) (if flag_writes f then {[fd]} ∪ w_wr w else w_wr w).
Definition w_unwatch (w : wset) (fd : Z) (f : poll_flag) : wset :=
  WSet (if flag_reads f then w_rd w ∖ {[fd]} else w_rd w) (if flag_writes f then w_wr w ∖ {[fd]} else w_wr w).
Definition watches (w : wset) (fd : Z) : Prop := fd ∈ w_rd w \/ fd ∈ w_wr w.
#[export] Instance watches_dec w fd : Decision (watches w fd) := or_dec _ _.

(** What an implementation promises for the descriptors of its clients. *)
Class AioSpec (A : Type) `{AioMgr A} := {
  aio_abs : A -> wset;
  aio_ok : A -> Prop;
  aio_fd : Z -> Prop;
  aio_watch_ok a fd f : aio_ok a -> aio_fd fd ->
    exists a', aio_watch_fd a fd f = Some a' /\ aio_ok a' /\ aio_abs a' = w_watch (aio_abs a) fd f;
  (** A descriptor that is watched can be given up. *)
  aio_unwatch_ok a fd f : aio_ok a -> aio_fd fd -> watches (aio_abs a) fd -> is_Some (aio_unwatch_fd a fd f);
  aio_unwatch_sets a fd f a' b : aio_ok a -> aio_fd fd -> aio_unwatch_fd a fd f = Some (a', b) ->
    aio_ok a' /\ aio_abs a' = w_unwatch (aio_abs a) fd f /\ b = bool_decide (~ watches (aio_abs a') fd);
  (** Only watched descriptors are reported, those watched throughout are if ready. *)
  aio_wait_sets a0 a1 rs ws a' r w : aio_ok a0 -> aio_ok a1 -> aio_wait_ready a0 a1 rs ws = Some (a', r, w) ->
    aio_ok a' /\ aio_abs a' = aio_abs a1 /\
    (forall fd, fd ∈ r -> fd ∈ rs /\ (fd ∈ w_rd (aio_abs a0) \/ fd ∈ w_rd (aio_abs a1))) /\
    (forall fd, fd ∈ w -> fd ∈ ws /\ (fd ∈ w_wr (aio_abs a0) \/ fd ∈ w_wr (aio_abs a1))) /\
    (forall fd, fd ∈ w_rd (aio_abs a0) -> fd ∈ w_rd (aio_abs a1) -> fd ∈ rs -> fd ∈ r) /\
    (forall fd, fd ∈ w_wr (aio_abs a0) -> fd ∈ w_wr (aio_abs a1) -> fd ∈ ws -> fd ∈ w) }.

(** ** SelectAIO *)

(** [pipe] is the number of bytes in the pipe that interrupts [select]. *)
Record select_aio := SelectAIO { rfds : gset Z; wfds : gset Z; highfds : Z; pipefd0 : Z; pipe : nat }.
Definition select_new (p : Z) : select_aio := SelectAIO {[p]} ∅ p p 0.

Definition select_watch_fd (a : select_aio) (fd : Z) (f : poll_flag) : select_aio :=
  SelectAIO (if flag_reads f then {[fd]} ∪ rfds a else rfds a) (if flag_writes f then {[fd]} ∪ wfds a else wfds a)
    (if highfds a <=? fd then fd else highfds a) (pipefd0 a) (S (pipe a)).

Definition select_is_watched (a : select_aio) (fd : Z) (f : poll_flag) : bool :=
  match f with
  | CB_RDONLY => bool_decide (fd ∈ rfds a)
  | CB_WRONLY => bool_decide (fd ∈ wfds a)
  | CB_RDWR => bool_decide (fd ∈ rfds a) && bool_decide (fd ∈ wfds a)
  end.

(** The loop of [unwatch_fd] over 0 .. [highfds_]. *)
Definition newh (rd wr : gset Z) (high p : Z) : Z :=
  foldl (fun h i => if bool_decide (i ∈ rd) then i else if bool_decide (i ∈ wr) then i else h) p (seqZ 0 (high + 1)).

Definition select_unwatch_fd (a : select_aio) (fd : Z) (f : poll_flag) : select_aio * bool :=
  let rd := if flag_reads f then rfds a ∖ {[fd]} else rfds a in
  let wr := if flag_writes f then wfds a ∖ {[fd]} else wfds a in
  let gone := negb (bool_decide (fd ∈ rd)) && negb (bool_decide (fd ∈ wr)) in
  let high := if gone && (fd =? highfds a) then newh rd wr (highfds a) (pipefd0 a) else highfds a in
  (SelectAIO rd wr high (pipefd0 a) (match f with CB_RDWR => S (pipe a) | _ => pipe a end), gone).

(** [wait_ready]: the sets are copied when the wait begins; [None] if the byte of the pipe
    cannot be read. *)
Definition select_wait_ready (a0 a1 : select_aio) (rs ws : gset Z) : option (select_aio * list Z * list Z) :=
  let trfds := rfds a0 ∩ rs in
  let twfds := wfds a0 ∩ ws in
  let fds := seqZ 0 (highfds a0 + 1) in
  let piped := bool_decide (pipefd0 a1 ∈ trfds) && bool_decide (pipefd0 a1 ∈ fds) in
  let it := fun fd => negb ((fd =? pipefd0 a1) && bool_decide (fd ∈ trfds)) in
  VERIFY! negb piped || (0 <? Z.of_nat (pipe a1)) ;;
  Some (SelectAIO (rfds a1) (wfds a1) (highfds a1) (pipefd0 a1) (if piped then pred (pipe a1) else pipe a1),
        filter (fun fd => it fd = true /\ fd ∈ trfds) fds, filter (fun fd => it fd = true /\ fd ∈ twfds) fds).

#[export] Instance select_aio_mgr : AioMgr select_aio := {
  aio_watch_fd a fd f := Some (select_watch_fd a fd f);
  aio_unwatch_fd a fd f := Some (select_unwatch_fd a fd f);
  aio_is_watched := select_is_watched;
  aio_wait_ready := select_wait_ready }.

(** [highfds_] is the largest descriptor of the two sets. *)
Record select_ok (p : Z) (a : select_aio) : Prop := {
  so_pipe : pipefd0 a = p /\ p ∈ rfds a /\ p ∉ wfds a;
  so_high : highfds a ∈ rfds a \/ highfds a ∈ wfds a;
  so_le fd : fd ∈ rfds a \/ fd ∈ wfds a -> 0 <= fd <= highfds a }.

Lemma newh_spec (rd wr : gset Z) n : forall p,
  let h := foldl (fun h i => if bool_decide (i ∈ rd) then i else if bool_decide (i ∈ wr) then i else h) p (seqZ 0 (Z.of_nat n)) in
  (forall fd, (fd ∈ rd \/ fd ∈ wr) -> 0 <= fd < Z.of_nat n -> fd <= h) /\ (h = p \/ h ∈ rd \/ h ∈ wr) /\ (h = p \/ h < Z.of_nat n).
Proof.
  induction n as [|n IH]; intros p.
  - cbn. split_and!; [lia|by left|by left].
  - rewrite seqZ_S. cbn zeta. rewrite foldl_app. cbn [foldl]. destruct (IH p) as (H1 & H2 & H3). rewrite Z.add_0_l.
    set (h := foldl _ p (seqZ 0 (Z.of_nat n))) in *. repeat case_bool_decide; split_and!; try lia; try tauto; try (by right; left); try (by right; right).
    intros fd Hfd Hr. destruct (decide (fd = Z.of_nat n)) as [->|]; [tauto|]. apply H1; [done|lia].
Qed.

Lemma newh_max rd wr high p : 0 <= high -> (p ∈ rd \/ p ∈ wr) -> 0 <= p <= high -> (forall fd, fd ∈ rd \/ fd ∈ wr -> 0 <= fd <= high) ->
  let h := newh rd wr high p in (h ∈ rd \/ h ∈ wr) /\ forall fd, fd ∈ rd \/ fd ∈ wr -> 0 <= fd <= h.
Proof.
  intros Hh Hp Hr Hle h. unfold h, newh. rewrite <- (Z2Nat.id (high + 1)) by lia. destruct (newh_spec rd wr (Z.to_nat (high + 1)) p) as (H1 & H2 & _).
  split; [destruct H2 as [->|]; done|]. intros fd Hfd. specialize (Hle fd Hfd). split; [lia|]. apply H1; [done|]. rewrite Z2Nat.id; lia.
Qed.

Definition select_abs (p : Z) (a : select_aio) : wset := WSet (rfds a ∖ {[p]}) (wfds a).

Lemma select_watch_inv p a fd f : select_ok p a -> 0 <= fd -> fd <> p -> select_ok p (select_watch_fd a fd f) /\
  select_abs p (select_watch_fd a fd f) = w_watch (select_abs p a) fd f.
Proof.
  intros [(Hp & Hin & Hout) Hh Hle] Hfd Hne. split.
  - split; cbn; [destruct f; cbn; set_solver| |].
    + destruct (Z.leb_spec (highfds a) fd); destruct f; cbn; set_solver.
    + intros x Hx. assert (x = fd \/ x ∈ rfds a \/ x ∈ wfds a) as [->|Hx'] by (destruct f; cbn in Hx; set_solver).
      * destruct (Z.leb_spec (highfds a) fd); lia.
      * specialize (Hle x Hx'). destruct (Z.leb_spec (highfds a) fd); lia.
  - unfold select_abs, w_watch, select_watch_fd. cbn. f_equal. destruct (flag_reads f); [|done]. apply leibniz_equiv. set_solver.
Qed.

Lemma select_unwatch_inv p a fd f : select_ok p a -> fd <> p ->
  let '(a', b) := select_unwatch_fd a fd f in
  select_ok p a' /\ select_abs p a' = w_unwatch (select_abs p a) fd f /\ b = bool_decide (~ watches (select_abs p a') fd).
Proof.
  intros [(Hp & Hin & Hout) Hh Hle] Hne. cbn -[newh]. set (rd := if flag_reads f then _ else _). set (wr := if flag_writes f then _ else _).
  assert (Hrd : rd ⊆ rfds a) by (unfold rd; destruct (flag_reads f); set_solver). assert (Hwr : wr ⊆ wfds a) by (unfold wr; destruct (flag_writes f); set_solver).
  assert (Hpr : p ∈ rd) by (unfold rd; destruct (flag_reads f); set_solver).
  assert (Hkeep : forall x, x <> fd -> x ∈ rfds a \/ x ∈ wfds a -> x ∈ rd \/ x ∈ wr) by (intros x Hx; unfold rd, wr; destruct (flag_reads f), (flag_writes f); set_solver).
  pose proof (Hle p (or_introl Hin)) as Hple. split; [split; cbn -[newh]|split].
  - split; [done|]. split; [done|]. set_solver.
  - destruct (Z.eqb_spec fd (highfds a)) as [->|Hf]; [|rewrite andb_false_r; by apply Hkeep; [congruence|]].
    repeat case_bool_decide; cbn [negb andb]; try tauto. rewrite Hp. apply (newh_max rd wr (highfds a) p); [lia|by left|lia|]. intros x Hx. apply Hle. set_solver.
  - intros x Hx. assert (Hx' : 0 <= x <= highfds a) by (apply Hle; set_solver).
    destruct (negb _ && negb _ && (fd =? highfds a)); [|done]. rewrite Hp. apply (newh_max rd wr (highfds a) p); [lia|by left|lia| |done]. intros y Hy. apply Hle. set_solver.
  - unfold select_abs, w_unwatch. cbn -[newh]. f_equal. unfold rd. destruct (flag_reads f); [|done]. apply leibniz_equiv. set_solver.
  - unfold watches, select_abs. cbn -[newh]. repeat case_bool_decide; cbn; try done; exfalso; set_solver.
Qed.

#[export, refine] Instance select_aio_spec (p : Z) : AioSpec select_aio := {
  aio_abs := select_abs p; aio_ok := select_ok p; aio_fd fd := 0 <= fd < MAX_POLL_FDS /\ fd <> p }.
Proof.
  - intros a fd f Ha [Hr Hne]. eexists. split; [done|]. apply select_watch_inv; [done|lia|done].
  - intros a fd f _ _ _. by eexists.
  - intros a fd f a' b Ha [Hr Hne] Hu. apply (inj Some) in Hu. pose proof (select_unwatch_inv p a fd f Ha Hne) as H. by rewrite Hu in H.
  - intros a0 a1 rs ws a' r w H0 H1 Hw. cbn in Hw. unfold select_wait_ready in Hw. destruct (so_pipe _ _ H0) as (Hp0 & Hin & Hout). destruct (so_pipe _ _ H1) as (Hp1 & _ & Hout1).
    rewrite Hp1 in Hw. unfold VERIFY in Hw. destruct (negb _ || _); [|done]. injection Hw as <- <- <-. split; [destruct H1 as [(? & ? & ?) ? ?]; split; done|]. split; [done|].
    assert (Hel : forall (P : Z -> Prop) `{!forall x, Decision (P x)} fd, fd ∈ filter P (seqZ 0 (highfds a0 + 1)) <-> P fd /\ 0 <= fd <= highfds a0).
    { intros P ? fd. rewrite list_elem_of_filter, elem_of_seqZ. split; intros [? ?]; (split; [done|lia]). }
    split_and!; intros fd; rewrite Hel; cbn.
    + intros [[Hit Ht] _]. apply elem_of_intersection in Ht as [Hr Hrs]. split; [done|]. left. apply elem_of_difference. split; [done|].
      intros ->%elem_of_singleton. rewrite Z.eqb_refl, bool_decide_eq_true_2 in Hit by set_solver. done.
    + intros [[_ Ht] _]. set_solver.
    + intros [Hr Hne]%elem_of_difference _ Hrs. assert (fd <> p) by set_solver. rewrite (proj2 (Z.eqb_neq _ _)) by done. cbn.
      split; [split; [done|set_solver]|]. apply (so_le _ _ H0). by left.
    + intros Hw _ Hws. assert (fd <> p) by set_solver. rewrite (proj2 (Z.eqb_neq _ _)) by done. cbn. split; [split; [done|set_solver]|]. apply (so_le _ _ H0). by right.
Defined.

(** ** EPollAIO *)

Definition EPOLLIN : Z := 1.
Definition EPOLLOUT : Z := 4.
Definition EPOLLET : Z := 2 ^ 31.
Inductive epoll_op := EPOLL_CTL_ADD | EPOLL_CTL_MOD | EPOLL_CTL_DEL.

(** The kernel's list of the descriptors of interest and [epoll_ctl]: [None] is an error. *)
Definition epoll_ctl (k : gmap Z Z) (op : epoll_op) (fd ev : Z) : option (gmap Z Z) :=
  match op, k !! fd with
  | EPOLL_CTL_ADD, None | EPOLL_CTL_MOD, Some _ => Some (<[fd := ev]> k)
  | EPOLL_CTL_DEL, Some _ => Some (delete fd k)
  | _, _ => None
  end.

(** [fdstatus_], zero where nothing is recorded, and the kernel's list. *)
Record epoll_aio := EPollAIO { fdstatus : gmap Z Z; interest : gmap Z Z }.
Definition epoll_new : epoll_aio := EPollAIO ∅ ∅.
Definition status_of (a : epoll_aio) (fd : Z) : Z := default 0 (fdstatus a !! fd).

Definition epoll_events (st : Z) : Z :=
  Z.lor (Z.lor EPOLLET (if Z.land st 1 =? 0 then 0 else EPOLLIN)) (if Z.land st 16 =? 0 then 0 else EPOLLOUT).

Definition epoll_watch_fd (a : epoll_aio) (fd : Z) (f : poll_flag) : option epoll_aio :=
  VERIFY! (0 <=? fd) && (fd <? MAX_POLL_FDS) ;;
  let op := if status_of a fd =? 0 then EPOLL_CTL_ADD else EPOLL_CTL_MOD in
  let st := Z.lor (status_of a fd) (flag_bits f) in
  VERIFY! (if decide (f = CB_RDWR) then epoll_events st =? Z.lor (Z.lor EPOLLET EPOLLIN) EPOLLOUT else true) ;;
  k ← epoll_ctl (interest a) op fd (epoll_events st);
  Some (EPollAIO (<[fd := st]> (fdstatus a)) k).

Definition epoll_unwatch_fd (a : epoll_aio) (fd : Z) (f : poll_flag) : option (epoll_aio * bool) :=
  VERIFY! (0 <=? fd) && (fd <? MAX_POLL_FDS) ;;
  let st := Z.land (status_of a fd) (Z.lnot (flag_bits f)) in
  let del := st =? 0 in
  VERIFY! (if decide (f = CB_RDWR) then del else true) ;;
  k ← epoll_ctl (interest a) (if del then EPOLL_CTL_DEL else EPOLL_CTL_MOD) fd (epoll_events st);
  Some (EPollAIO (<[fd := st]> (fdstatus a)) k, del).

Definition epoll_is_watched (a : epoll_aio) (fd : Z) (f : poll_flag) : bool := Z.land (status_of a fd) CB_MASK =? flag_bits f.

(** [epoll_wait] returns what is of interest when it ends; the interest is that of [a1]. *)
Definition epoll_wait_ready (a0 a1 : epoll_aio) (rs ws : gset Z) : option (epoll_aio * list Z * list Z) :=
  let ready bit (fds : gset Z) := fst <$> filter (fun x => fst x ∈ fds /\ Z.land (snd x) bit <> 0) (map_to_list (interest a1)) in
  Some (a1, ready EPOLLIN rs, ready EPOLLOUT ws).

#[export] Instance epoll_aio_mgr : AioMgr epoll_aio := {
  aio_watch_fd := epoll_watch_fd; aio_unwatch_fd := epoll_unwatch_fd; aio_is_watched := epoll_is_watched; aio_wait_ready := epoll_wait_ready }.

Definition valid_status (st : Z) : Prop := st = 0 \/ st = 1 \/ st = 16 \/ st = 17.
(** The kernel's list is what [fdstatus_] says. *)
Record epoll_ok (a : epoll_aio) : Prop := {
  eo_status fd : valid_status (status_of a fd);
  eo_interest fd : interest a !! fd = if status_of a fd =? 0 then None else Some (epoll_events (status_of a fd)) }.
Definition epoll_abs (a : epoll_aio) : wset :=
  WSet (dom (filter (fun x => Z.land (snd x) 1 <> 0) (fdstatus a))) (dom (filter (fun x => Z.land (snd x) 16 <> 0) (fdstatus a))).

Lemma status_insert st k k' fd v x : status_of (EPollAIO (<[fd := v]> st) k) x = if decide (fd = x) then v else status_of (EPollAIO st k') x.
Proof. unfold status_of. cbn. rewrite lookup_insert. by case_decide. Qed.

Lemma elem_of_status a b fd : fd ∈ dom (filter (fun x => Z.land (snd x) b <> 0) (fdstatus a)) <-> Z.land (status_of a fd) b <> 0.
Proof.
  unfold status_of. rewrite elem_of_dom. split.
  - intros [v Hv]. apply map_lookup_filter_Some in Hv as [-> Hv]. done.
  - destruct (fdstatus a !! fd) as [v|] eqn:E; [|by cbn]. cbn. intros Hv. exists v. by apply map_lookup_filter_Some.
Qed.

(** The four values of a status and the three flags, one by one. *)
Lemma status_cases st f : valid_status st ->
  let up := Z.lor st (flag_bits f) in let down := Z.land st (Z.lnot (flag_bits f)) in
  valid_status up /\ valid_status down /\ up <> 0 /\
  (Z.land up 1 <> 0 <-> flag_reads f = true \/ Z.land st 1 <> 0) /\ (Z.land up 16 <> 0 <-> flag_writes f = true \/ Z.land st 16 <> 0) /\
  (Z.land down 1 <> 0 <-> flag_reads f = false /\ Z.land st 1 <> 0) /\ (Z.land down 16 <> 0 <-> flag_writes f = false /\ Z.land st 16 <> 0) /\
  (f = CB_RDWR -> epoll_events up = Z.lor (Z.lor EPOLLET EPOLLIN) EPOLLOUT /\ down = 0) /\ (down = 0 <-> Z.land down 1 = 0 /\ Z.land down 16 = 0).
Proof. intros [->|[->|[->| ->]]]; destruct f; cbn; unfold valid_status; split_and!; intuition (done || lia). Qed.

Lemma events_land st : valid_status st -> (Z.land (epoll_events st) EPOLLIN <> 0 <-> Z.land st 1 <> 0) /\ (Z.land (epoll_events st) EPOLLOUT <> 0 <-> Z.land st 16 <> 0).
Proof. intros [->|[->|[->| ->]]]; vm_compute; intuition done. Qed.

Lemma watches_status a fd : epoll_ok a -> watches (epoll_abs a) fd <-> status_of a fd <> 0.
Proof.
  intros Ha. unfold watches. cbn. rewrite !elem_of_status. destruct (eo_status _ Ha fd) as [->|[->|[->| ->]]]; cbn; intuition done.
Qed.

(** A descriptor gets a new status, and the kernel is told. *)
Lemma epoll_set a fd st k : epoll_ok a -> valid_status st -> k !! fd = (if st =? 0 then None else Some (epoll_events st)) ->
  (forall x, x <> fd -> k !! x = interest a !! x) -> epoll_ok (EPollAIO (<[fd := st]> (fdstatus a)) k).
Proof.
  intros [H1 H2] Hst Hfd Hk. split; intros x; cbn [interest]; rewrite (status_insert _ _ (interest a)); destruct a; cbn in *; case_decide as E; subst; try done.
  rewrite Hk by done. apply H2.
Qed.

Lemma wset_eq a b : (forall x, (x ∈ w_rd a <-> x ∈ w_rd b) /\ (x ∈ w_wr a <-> x ∈ w_wr b)) -> a = b.
Proof. intros H. destruct a, b. f_equal; apply leibniz_equiv; intros x; apply H. Qed.

Lemma elem_of_if (b : bool) (x fd : Z) (X : gset Z) :
  (x ∈ (if b then {[fd]} ∪ X else X) <-> (b = true /\ x = fd) \/ x ∈ X) /\ (x ∈ (if b then X ∖ {[fd]} else X) <-> x ∈ X /\ ~ (b = true /\ x = fd)).
Proof. destruct b; [split; set_solver|]. split; naive_solver. Qed.

Lemma epoll_up_abs a fd f k : epoll_ok a -> epoll_abs (EPollAIO (<[fd := Z.lor (status_of a fd) (flag_bits f)]> (fdstatus a)) k) = w_watch (epoll_abs a) fd f.
Proof.
  intros Ha. destruct (status_cases _ f (eo_status _ Ha fd)) as (_ & _ & _ & U1 & U16 & _). apply wset_eq. intros x. unfold w_watch. cbn [w_rd w_wr].
  rewrite !(proj1 (elem_of_if _ _ _ _)). unfold epoll_abs. cbn [w_rd w_wr]. rewrite !elem_of_status, !(status_insert _ _ (interest a)). destruct a. case_decide as E; [subst x; cbn in *|]; intuition congruence.
Qed.
Lemma epoll_down_abs a fd f k : epoll_ok a -> epoll_abs (EPollAIO (<[fd := Z.land (status_of a fd) (Z.lnot (flag_bits f))]> (fdstatus a)) k) = w_unwatch (epoll_abs a) fd f.
Proof.
  intros Ha. destruct (status_cases _ f (eo_status _ Ha fd)) as (_ & _ & _ & _ & _ & D1 & D16 & _). apply wset_eq. intros x. unfold w_unwatch. cbn [w_rd w_wr].
  rewrite !(proj2 (elem_of_if _ _ _ _)). unfold epoll_abs. cbn [w_rd w_wr]. rewrite !elem_of_status, !(status_insert _ _ (interest a)). destruct a.
  case_decide as E; [subst x; cbn [fdstatus interest] in *; rewrite D1, D16; destruct f; cbn; naive_solver|]. cbn in *. intuition congruence.
Qed.

Lemma epoll_watch_inv a fd f : epoll_ok a -> 0 <= fd < MAX_POLL_FDS ->
  exists a', epoll_watch_fd a fd f = Some a' /\ epoll_ok a' /\ epoll_abs a' = w_watch (epoll_abs a) fd f.
Proof.
  intros Ha Hr. unfold epoll_watch_fd, VERIFY. rewrite (proj2 (andb_true_iff _ _)) by (split; [apply Z.leb_le|apply Z.ltb_lt]; lia).
  destruct (status_cases _ f (eo_status _ Ha fd)) as (U & _ & Hnz & _ & _ & _ & _ & Hrw & _). pose proof (eo_interest _ Ha fd) as Hi.
  assert ((if decide (f = CB_RDWR) then epoll_events (Z.lor (status_of a fd) (flag_bits f)) =? Z.lor (Z.lor EPOLLET EPOLLIN) EPOLLOUT else true) = true) as ->
    by (case_decide; [apply Z.eqb_eq, Hrw|]; done).
  assert (Hc : epoll_ctl (interest a) (if status_of a fd =? 0 then EPOLL_CTL_ADD else EPOLL_CTL_MOD) fd (epoll_events (Z.lor (status_of a fd) (flag_bits f))) =
    Some (<[fd := epoll_events (Z.lor (status_of a fd) (flag_bits f))]> (interest a))) by (unfold epoll_ctl; rewrite Hi; by destruct (_ =? 0)).
  rewrite Hc. cbn [mbind option_bind]. eexists. split; [done|]. split; [|by apply epoll_up_abs]. apply epoll_set; [done|done| |].
  - rewrite lookup_insert_eq. by rewrite (proj2 (Z.eqb_neq _ _) Hnz).
  - intros x Hx. by rewrite lookup_insert_ne.
Qed.

Lemma epoll_unwatch_cases a fd f : epoll_ok a -> 0 <= fd < MAX_POLL_FDS ->
  let st := Z.land (status_of a fd) (Z.lnot (flag_bits f)) in
  epoll_unwatch_fd a fd f = if status_of a fd =? 0 then None
    else Some (EPollAIO (<[fd := st]> (fdstatus a)) (if st =? 0 then delete fd (interest a) else <[fd := epoll_events st]> (interest a)), st =? 0).
Proof.
  intros Ha Hr st. unfold epoll_unwatch_fd, VERIFY. rewrite (proj2 (andb_true_iff _ _)) by (split; [apply Z.leb_le|apply Z.ltb_lt]; lia).
  destruct (status_cases _ f (eo_status _ Ha fd)) as (_ & _ & _ & _ & _ & _ & _ & Hrw & _). pose proof (eo_interest _ Ha fd) as Hi. fold st.
  assert ((if decide (f = CB_RDWR) then st =? 0 else true) = true) as -> by (case_decide; [apply Z.eqb_eq, Hrw|]; done).
  unfold epoll_ctl. rewrite Hi. destruct (status_of a fd =? 0); [by destruct (st =? 0)|]. by destruct (st =? 0).
Qed.

Lemma epoll_unwatch_inv a fd f a' b : epoll_ok a -> 0 <= fd < MAX_POLL_FDS -> epoll_unwatch_fd a fd f = Some (a', b) ->
  epoll_ok a' /\ epoll_abs a' = w_unwatch (epoll_abs a) fd f /\ b = bool_decide (~ watches (epoll_abs a') fd).
Proof.
  intros Ha Hr. rewrite (epoll_unwatch_cases a fd f Ha Hr). destruct (status_of a fd =? 0); [done|]. intros [= <- <-].
  destruct (status_cases _ f (eo_status _ Ha fd)) as (_ & D & _). set (st := Z.land _ _) in *.
  assert (Ho : epoll_ok (EPollAIO (<[fd := st]> (fdstatus a)) (if st =? 0 then delete fd (interest a) else <[fd := epoll_events st]> (interest a)))).
  { apply epoll_set; [done|done| |]; destruct (st =? 0); try by rewrite ?lookup_delete_eq, ?lookup_insert_eq.
    - intros x Hx. by rewrite lookup_delete_ne.
    - intros x Hx. by rewrite lookup_insert_ne. }
  split; [exact Ho|]. split; [by apply epoll_down_abs|]. apply eq_bool_prop_intro. rewrite bool_decide_spec, (watches_status _ _ Ho), (status_insert _ _ (interest a)).
  rewrite decide_True by done. destruct (Z.eqb_spec st 0); cbn; intuition done.
Qed.

#[export, refine] Instance epoll_aio_spec : AioSpec epoll_aio := {
  aio_abs := epoll_abs; aio_ok := epoll_ok; aio_fd fd := 0 <= fd < MAX_POLL_FDS }.
Proof.
  - intros a fd f Ha Hr. by apply epoll_watch_inv.
  - intros a fd f Ha Hr Hw. apply (watches_status a fd Ha) in Hw. cbn. rewrite (epoll_unwatch_cases a fd f Ha Hr), (proj2 (Z.eqb_neq _ _) Hw). by eexists.
  - intros a fd f a' b Ha Hr Hu. by apply epoll_unwatch_inv.
  - intros a0 a1 rs ws a' r w H0 H1 Hw. cbn in Hw. unfold epoll_wait_ready in Hw. injection Hw as <- <- <-. split; [done|]. split; [done|].
    assert (Hel : forall bit (fds : gset Z) fd, fd ∈ (fst <$> filter (fun x => fst x ∈ fds /\ Z.land (snd x) bit <> 0) (map_to_list (interest a1))) <->
      fd ∈ fds /\ status_of a1 fd <> 0 /\ Z.land (epoll_events (status_of a1 fd)) bit <> 0).
    { intros bit fds fd. rewrite list_elem_of_fmap. pose proof (eo_interest _ H1 fd) as Hi. split.
      - intros ([x ev] & -> & Hx). apply list_elem_of_filter in Hx as [[Hf He] Hin]. apply elem_of_map_to_list in Hin. cbn in *. rewrite Hi in Hin.
        destruct (Z.eqb_spec (status_of a1 x) 0); [done|]. injection Hin as <-. done.
      - intros (Hf & Hs & He). exists (fd, epoll_events (status_of a1 fd)). split; [done|]. apply list_elem_of_filter. split; [done|]. apply elem_of_map_to_list.
        rewrite Hi. by rewrite (proj2 (Z.eqb_neq _ _) Hs). }
    assert (Hnz : forall fd b, Z.land (status_of a1 fd) b <> 0 -> status_of a1 fd <> 0) by (intros fd b Hb E; by rewrite E in Hb).
    split_and!; intros fd; rewrite Hel; cbn; rewrite !elem_of_status; destruct (events_land _ (eo_status _ H1 fd)) as [E1 E16].
    + rewrite E1. tauto.
    + rewrite E16. tauto.
    + rewrite E1. intros _ Hb Hrs. split_and!; [done|by eapply Hnz|done].
    + rewrite E16. intros _ Hb Hws. split_and!; [done|by eapply Hnz|done].
Defined.

(** [CB_MASK] clears the two bits it should keep: nothing is ever watched. *)
Lemma epoll_never_watched a fd f : epoll_ok a -> epoll_is_watched a fd f = false.
Proof. intros Ha. unfold epoll_is_watched. destruct (eo_status _ Ha fd) as [->|[->|[->| ->]]]; by destruct f. Qed.

(** Giving up a descriptor that is not watched ends the program; with [SelectAIO] it does
    nothing. *)
Lemma epoll_unwatch_aborts a fd f : epoll_ok a -> 0 <= fd < MAX_POLL_FDS -> ~ watches (epoll_abs a) fd -> epoll_unwatch_fd a fd f = None.
Proof.
  intros Ha Hr Hw. rewrite (epoll_unwatch_cases a fd f Ha Hr). rewrite (watches_status a fd Ha) in Hw. destruct (Z.eqb_spec (status_of a fd) 0); [done|]. by destruct Hw.
Qed.

(** ** PollMgr *)

(** Where the poll thread stands: before the test of [pending_change_], after it, in
    [wait_ready] (with the state when it began), going through what is ready, having tested
    that [fd] has a callback, running it. *)
Inductive poll_pc (A : Type) := PTop | PLoop | PSelect (began : A) | PCalls (readable writable : list Z)
  | PTested (fd : Z) (readable writable : list Z) | PRunning (fd : Z) (readable writable : list Z).
Arguments PTop {A}. Arguments PLoop {A}. Arguments PSelect {A}. Arguments PCalls {A}. Arguments PTested {A}. Arguments PRunning {A}.

(** [m_removing]: the descriptors for which a thread is in [block_remove_fd], and whether its
    wait is over.  [m_removed]: those whose removal has returned and which were not added
    again; no code reads it. *)
Record mgr (A : Type) := Mgr {
  m_aio : A; callbacks : gmap Z nat; pending_change : bool; m_pc : poll_pc A; m_removing : gmap Z bool; m_removed : gset Z }.
Arguments Mgr {A}. Arguments m_aio {A}. Arguments callbacks {A}. Arguments pending_change {A}.
Arguments m_pc {A}. Arguments m_removing {A}. Arguments m_removed {A}.

Section PollMgr.
Context {A : Type} `{AioSpec A}.

Definition mgr_new (a : A) : mgr A := Mgr a ∅ false PTop ∅ ∅.

Definition add_callback (s : mgr A) (fd : Z) (f : poll_flag) (ch : nat) : option (mgr A) :=
  VERIFY! fd <? MAX_POLL_FDS ;;
  a ← aio_watch_fd (m_aio s) fd f;
  VERIFY! match callbacks s !! fd with Some c => Nat.eqb c ch | None => true end ;;
  Some (Mgr a (<[fd := ch]> (callbacks s)) (pending_change s) (m_pc s) (m_removing s) (m_removed s ∖ {[fd]})).

Definition del_callback (s : mgr A) (fd : Z) (f : poll_flag) : option (mgr A) :=
  '(a, gone) ← aio_unwatch_fd (m_aio s) fd f;
  Some (Mgr a (if (gone : bool) then delete fd (callbacks s) else callbacks s) (pending_change s) (m_pc s) (m_removing s) (m_removed s)).

Definition has_callback (s : mgr A) (fd : Z) (f : poll_flag) (ch : nat) : bool :=
  match callbacks s !! fd with Some c => Nat.eqb c ch && aio_is_watched (m_aio s) fd f | None => false end.

(** [block_remove_fd] before and after its wait. *)
Definition block_remove_begin (s : mgr A) (fd : Z) : option (mgr A) :=
  '(a, _) ← aio_unwatch_fd (m_aio s) fd CB_RDWR;
  Some (Mgr a (callbacks s) true (m_pc s) (<[fd := false]> (m_removing s)) (m_removed s)).
Definition block_remove_end (s : mgr A) (fd : Z) : mgr A :=
  Mgr (m_aio s) (delete fd (callbacks s)) (pending_change s) (m_pc s) (delete fd (m_removing s)) ({[fd]} ∪ m_removed s).

Definition with_pc (s : mgr A) (pc : poll_pc A) : mgr A := Mgr (m_aio s) (callbacks s) (pending_change s) pc (m_removing s) (m_removed s).
(** The start of a turn of [wait_loop]: the broadcast ends every wait. *)
Definition loop_top (s : mgr A) : mgr A :=
  if pending_change s then Mgr (m_aio s) (callbacks s) false PLoop ((fun _ => true) <$> m_removing s) (m_removed s) else with_pc s PLoop.

(** The test of [callbacks_] for the next descriptor that is ready. *)
Definition test_callback (s : mgr A) (fd : Z) (r w : list Z) : mgr A :=
  with_pc s (if decide (is_Some (callbacks s !! fd)) then PTested fd r w else PCalls r w).

(** A step, and the descriptor whose callback it calls.  [spurious]: the wait of
    [block_remove_fd], which is not in a loop, may return without the broadcast.  A call
    through an entry that was set to null after the test has no step. *)
Inductive mstep (spurious : bool) (s : mgr A) : option Z -> mgr A -> Prop :=
  (** Nobody adds a descriptor that is being removed. *)
  | ms_add fd f ch s' : aio_fd fd -> m_removing s !! fd = None -> add_callback s fd f ch = Some s' -> mstep spurious s None s'
  | ms_del fd f s' : aio_fd fd -> del_callback s fd f = Some s' -> mstep spurious s None s'
  | ms_remove fd s' : aio_fd fd -> m_removing s !! fd = None -> block_remove_begin s fd = Some s' -> mstep spurious s None s'
  | ms_removed fd woken : m_removing s !! fd = Some woken -> woken = true \/ spurious = true -> mstep spurious s None (block_remove_end s fd)
  | ms_top : m_pc s = PTop -> mstep spurious s None (loop_top s)
  | ms_wait : m_pc s = PLoop -> mstep spurious s None (with_pc s (PSelect (m_aio s)))
  | ms_ready a0 rs ws a r w : m_pc s = PSelect a0 -> aio_wait_ready a0 (m_aio s) rs ws = Some (a, r, w) ->
      mstep spurious s None (Mgr a (callbacks s) (pending_change s) (PCalls r w) (m_removing s) (m_removed s))
  | ms_read fd r w : m_pc s = PCalls (fd :: r) w -> mstep spurious s None (test_callback s fd r w)
  | ms_write fd w : m_pc s = PCalls [] (fd :: w) -> mstep spurious s None (test_callback s fd [] w)
  | ms_call fd r w : m_pc s = PTested fd r w -> is_Some (callbacks s !! fd) -> mstep spurious s (Some fd) (with_pc s (PRunning fd r w))
  | ms_return fd r w : m_pc s = PRunning fd r w -> mstep spurious s None (with_pc s (PCalls r w))
  | ms_again : m_pc s = PCalls [] [] -> mstep spurious s None (with_pc s PTop).

Inductive mgr_reachable (spurious : bool) : mgr A -> Prop :=
  | mr_new a : aio_ok a -> aio_abs a = WSet ∅ ∅ -> mgr_reachable spurious (mgr_new a)
  | mr_step s l s' : mgr_reachable spurious s -> mstep spurious s l s' -> mgr_reachable spurious s'.

(** The poll thread may still call the callback of [fd] for what it found before, or runs it. *)
Definition in_flight (pc : poll_pc A) (fd : Z) : Prop :=
  match pc with PTop | PLoop => False | PSelect a0 => watches (aio_abs a0) fd | PCalls r w => fd ∈ r \/ fd ∈ w
  | PTested x r w | PRunning x r w => fd = x \/ fd ∈ r \/ fd ∈ w end.

Record mgr_inv (s : mgr A) : Prop := {
  mi_ok : aio_ok (m_aio s) /\ forall a0, m_pc s = PSelect a0 -> aio_ok a0;
  mi_removing fd (woken : bool) : m_removing s !! fd = Some woken -> ~ watches (aio_abs (m_aio s)) fd /\
    (if woken then ~ in_flight (m_pc s) fd else pending_change s = true);
  mi_removed fd : fd ∈ m_removed s -> ~ watches (aio_abs (m_aio s)) fd /\ ~ in_flight (m_pc s) fd /\ callbacks s !! fd = None }.

Lemma watches_unwatch w fd f x : watches (w_unwatch w fd f) x -> watches w x.
Proof using. unfold watches, w_unwatch. destruct f; cbn; set_solver. Qed.
Lemma watches_unwatched w fd : ~ watches (w_unwatch w fd CB_RDWR) fd.
Proof using. unfold watches, w_unwatch. cbn. set_solver. Qed.
Lemma watches_watch w fd f x : watches (w_watch w fd f) x -> x = fd \/ watches w x.
Proof using. unfold watches, w_watch. destruct f; cbn; set_solver. Qed.

(** The poll thread goes on to something of which less is in flight. *)
Lemma mgr_inv_pc s pc : mgr_inv s -> (forall a0, pc = PSelect a0 -> aio_ok a0) ->
  (forall fd, in_flight pc fd -> in_flight (m_pc s) fd \/ watches (aio_abs (m_aio s)) fd) -> mgr_inv (with_pc s pc).
Proof using.
  intros [[Ho Hs] Hr Hd] Hok Hf. split; cbn; [by split| |].
  - intros fd woken Hw. destruct (Hr fd woken Hw) as [Hn Hp]. split; [done|]. destruct woken; [|done]. intros Hfl. destruct (Hf fd Hfl); auto.
  - intros fd Hfd. destruct (Hd fd Hfd) as (Hn & Hp & Hc). split; [done|]. split; [|done]. intros Hfl. destruct (Hf fd Hfl); auto.
Qed.

Lemma test_inv s fd r w : mgr_inv s -> (forall x, x = fd \/ x ∈ r \/ x ∈ w -> in_flight (m_pc s) x) -> mgr_inv (test_callback s fd r w).
Proof using.
  intros I Hf. unfold test_callback. apply mgr_inv_pc; [done|by case_decide|]. intros x Hx. left. apply Hf. case_decide; cbn in Hx; tauto.
Qed.

Lemma mgr_inv_step s l s' : mgr_inv s -> mstep false s l s' -> mgr_inv s'.
Proof using Type*.
  intros I Hs. pose proof I as [[Ho Hse] Hr Hd]. destruct Hs as [fd f ch s' Hfd Hno Hadd|fd f s' Hfd Hdel|fd s' Hfd Hno Hrem|fd woken Hw Hwk|Hpc|Hpc|a0 rs ws a r w Hpc Hwait|fd r w Hpc|fd w Hpc|fd r w Hpc Hcb|fd r w Hpc|Hpc].
  - unfold add_callback, VERIFY in Hadd. destruct (fd <? MAX_POLL_FDS); [|done]. destruct (aio_watch_ok (m_aio s) fd f Ho Hfd) as (a' & Ha & Hok & Habs).
    rewrite Ha in Hadd. cbn in Hadd. destruct (match callbacks s !! fd with Some _ => _ | None => _ end); [|done]. injection Hadd as <-. split; cbn; [by split| |]; rewrite Habs.
    + intros x woken Hx. destruct (Hr x woken Hx) as [Hn Hp]. split; [|done]. intros [->|Hw]%watches_watch; [congruence|done].
    + intros x [Hx Hne]%elem_of_difference. destruct (Hd x Hx) as (Hn & Hp & Hc). assert (x <> fd) by set_solver.
      split; [intros [->|Hw]%watches_watch; done|]. split; [done|]. by rewrite lookup_insert_ne.
  - unfold del_callback in Hdel. destruct (aio_unwatch_fd (m_aio s) fd f) as [[a gone]|] eqn:Hu; [|done]. injection Hdel as <-.
    destruct (aio_unwatch_sets _ _ _ _ _ Ho Hfd Hu) as (Hok & Habs & _). split; cbn; [by split| |]; rewrite Habs.
    + intros x woken Hx. destruct (Hr x woken Hx) as [Hn Hp]. split; [|done]. by intros ?%watches_unwatch.
    + intros x Hx. destruct (Hd x Hx) as (Hn & Hp & Hc). split; [by intros ?%watches_unwatch|]. split; [done|]. destruct gone; [|done]. rewrite lookup_delete. by case_decide.
  - unfold block_remove_begin in Hrem. destruct (aio_unwatch_fd (m_aio s) fd CB_RDWR) as [[a gone]|] eqn:Hu; [|done]. injection Hrem as <-.
    destruct (aio_unwatch_sets _ _ _ _ _ Ho Hfd Hu) as (Hok & Habs & _). split; cbn; [by split| |]; rewrite Habs.
    + intros x woken. rewrite lookup_insert. case_decide as E; [subst x; intros [= <-]; split; [apply watches_unwatched|done]|].
      intros Hx. destruct (Hr x woken Hx) as [Hn Hp]. split; [by intros ?%watches_unwatch|]. by destruct woken.
    + intros x Hx. destruct (Hd x Hx) as (Hn & Hp & Hc). split; [by intros ?%watches_unwatch|done].
  - destruct Hwk as [->|]; [|done]. destruct (Hr fd true Hw) as [Hn Hp]. split; cbn; [by split| |].
    + intros x woken. rewrite lookup_delete. case_decide; [done|]. apply Hr.
    + intros x [->%elem_of_singleton|Hx]%elem_of_union; [split_and!; [done|done|apply lookup_delete_eq]|].
      destruct (Hd x Hx) as (? & ? & ?). split_and!; [done|done|]. rewrite lookup_delete. by case_decide.
  - unfold loop_top. destruct (pending_change s) eqn:Hpend; [|by apply mgr_inv_pc]. split; cbn; [by split| |].
    + intros x woken. rewrite lookup_fmap. destruct (m_removing s !! x) as [w0|] eqn:Hx; [|done]. intros [= <-]. split; [by apply (Hr x w0)|intros []].
    + intros x Hx. destruct (Hd x Hx) as (? & _ & ?). split_and!; [done|intros []|done].
  - apply mgr_inv_pc; [done|by intros a0 [= <-]|]. by right.
  - destruct (aio_wait_sets _ _ _ _ _ _ _ (Hse a0 Hpc) Ho Hwait) as (Hok & Habs & Hir & Hiw & _).
    assert (Hfl : forall x, x ∈ r \/ x ∈ w -> in_flight (m_pc s) x \/ watches (aio_abs (m_aio s)) x).
    { intros x [Hx|Hx]; rewrite Hpc; unfold in_flight, watches; [destruct (Hir x Hx)|destruct (Hiw x Hx)]; tauto. }
    pose proof (mgr_inv_pc s (PCalls r w) I ltac:(done) Hfl) as [[? ?] I2 I3]. split; cbn; [by split| |]; by rewrite Habs.
  - apply test_inv; [done|]. intros x. rewrite Hpc. cbn. rewrite elem_of_cons. tauto.
  - apply test_inv; [done|]. intros x. rewrite Hpc. cbn. rewrite elem_of_cons, elem_of_nil. tauto.
  - apply mgr_inv_pc; [done|done|]. intros x Hx. left. by rewrite Hpc.
  - apply mgr_inv_pc; [done|done|]. intros x Hx. left. rewrite Hpc. by right.
  - by apply mgr_inv_pc.
Qed.

Lemma mgr_reachable_inv s : mgr_reachable false s -> mgr_inv s.
Proof using Type*.
  induction 1 as [a Ha _|s l s' _ IH Hs]; [|by eapply mgr_inv_step]. split; cbn; [by split|done|]. intros fd Hfd. by apply elem_of_empty in Hfd.
Qed.

(** C27. What [block_remove_fd] guarantees on return, for either implementation of [aio_mgr], if
    its wait ends only with the broadcast of the poll thread: in every interleaving of the poll
    thread with threads that add, delete and remove callbacks (no descriptor being added, or
    removed a second time, while its removal is in progress), once a removal has returned, and
    as long as the descriptor is not added again, its callback is neither running nor called,
    although the poll thread takes no lock when it calls and may have found the descriptor
    ready, or tested that it has a callback, before; nor is it once the wait of a removal in
    progress is over. *)
Theorem removed_fd_never_called s fd : mgr_reachable false s -> fd ∈ m_removed s \/ m_removing s !! fd = Some true ->
  (forall r w, m_pc s <> PRunning fd r w /\ m_pc s <> PTested fd r w) /\ (forall s', ~ mstep false s (Some fd) s').
Proof using Type*.
  intros Hr Hrem. pose proof (mgr_reachable_inv _ Hr) as I.
  assert (Hf : ~ in_flight (m_pc s) fd) by (destruct Hrem as [Hd|Hw]; [by apply (mi_removed _ I)|by apply (mi_removing _ I fd true)]).
  split; [intros r w; split; intros E; apply Hf; rewrite E; by left|]. intros s' Hs. apply Hf. inversion Hs as [| | | | | | | | |fd0 r w Hpc| |]; subst. rewrite Hpc. by left.
Qed.

(** If the wait may return without the broadcast, any callback that is running can have its
    removal return while it runs. *)
Lemma spurious_removal s fd r w a gone : m_pc s = PRunning fd r w -> aio_fd fd -> m_removing s !! fd = None -> aio_unwatch_fd (m_aio s) fd CB_RDWR = Some (a, gone) ->
  exists s1 s2, mstep true s None s1 /\ mstep true s1 None s2 /\ fd ∈ m_removed s2 /\ m_pc s2 = PRunning fd r w.
Proof using.
  intros Hpc Hfd Hno Hu. eexists _, _. split; [by eapply (ms_remove _ _ fd); [| |unfold block_remove_begin; rewrite Hu]|].
  split; [apply (ms_removed _ _ fd false); [apply lookup_insert_eq|by right]|]. cbn. split; [set_solver|done].
Qed.
End PollMgr.

(** ** The removal returns, with [SelectAIO] *)

Section SelectMgr.
Context (p : Z).
#[local] Existing Instance select_aio_spec.
Abbreviation sstep := (@mstep select_aio _ (select_aio_spec p) false).
Abbreviation sreach := (@mgr_reachable select_aio _ (select_aio_spec p) false).

(** A change that is not yet seen keeps [select] from waiting. *)
Definition awake (s : mgr select_aio) : Prop :=
  pending_change s = true -> match m_pc s with PLoop | PSelect _ => (0 < pipe (m_aio s))%nat | _ => True end.

Lemma awake_step s l s' : awake s -> sstep s l s' -> awake s'.
Proof using.
  intros Ha Hs. unfold awake in *. destruct Hs as [fd f ch s' Hfd Hno Hadd|fd f s' Hfd Hdel|fd s' Hfd Hno Hrem|fd woken Hw Hwk|Hpc|Hpc|a0 rs ws a r w Hpc Hwait|fd r w Hpc|fd w Hpc|fd r w Hpc Hcb|fd r w Hpc|Hpc]; cbn.
  - unfold add_callback, VERIFY in Hadd. destruct (fd <? MAX_POLL_FDS); [|done]. cbn in Hadd. destruct (match callbacks s !! fd with Some _ => _ | None => _ end); [|done].
    injection Hadd as <-. cbn. intros Hp. by destruct (m_pc s); try lia.
  - unfold del_callback in Hdel. cbn -[newh] in Hdel. injection Hdel as <-. cbn -[newh]. intros Hp. specialize (Ha Hp). destruct (m_pc s); try done; destruct f; lia.
  - unfold block_remove_begin in Hrem. cbn -[newh] in Hrem. injection Hrem as <-. cbn -[newh]. intros _. destruct (m_pc s); try done; lia.
  - exact Ha.
  - unfold loop_top. destruct (pending_change s) eqn:E; cbn; [done|]. by rewrite E.
  - rewrite Hpc in Ha. exact Ha.
  - done.
  - by case_decide.
  - by case_decide.
  - done.
  - done.
  - done.
Qed.

Lemma awake_reachable s : sreach s -> awake s.
Proof using. induction 1 as [a Ha _|s l s' _ IH Hs]; [by intros ?|by eapply awake_step]. Qed.

Definition any_step (s s' : mgr select_aio) : Prop := exists l, sstep s l s'.

Lemma callback_ends s fd r w : m_pc s = PRunning fd r w \/ (m_pc s = PTested fd r w /\ is_Some (callbacks s !! fd)) -> rtc any_step s (with_pc s (PCalls r w)).
Proof using.
  assert (Hrun : forall s, m_pc s = PRunning fd r w -> rtc any_step s (with_pc s (PCalls r w))) by (intros s0 Hpc; apply rtc_once; eexists; by eapply ms_return).
  intros [Hpc|[Hpc Hc]]; [by apply Hrun|]. eapply rtc_l; [eexists; by eapply ms_call|]. by apply (Hrun (with_pc s (PRunning fd r w))).
Qed.

Lemma test_ends s fd r w : rtc any_step (test_callback s fd r w) (with_pc s (PCalls r w)).
Proof using.
  unfold test_callback. case_decide as Hc; [|reflexivity]. apply (callback_ends (with_pc s (PTested fd r w)) fd r w). right. by split.
Qed.

Lemma calls_end s r w : m_pc s = PCalls r w -> rtc any_step s (with_pc s PTop).
Proof using.
  revert s. induction r as [|fd r IH]; intros s Hpc.
  - revert s Hpc. induction w as [|fd w IH]; intros s Hpc; [apply rtc_once; eexists; by apply ms_again|].
    eapply rtc_l; [eexists; by eapply ms_write|]. etransitivity; [apply test_ends|]. by apply (IH (with_pc s (PCalls [] w))).
  - eapply rtc_l; [eexists; by eapply ms_read|]. etransitivity; [apply test_ends|]. by apply (IH (with_pc s (PCalls r w))).
Qed.

Lemma select_piped a0 a1 : select_ok p a0 -> select_ok p a1 -> (0 < pipe a1)%nat -> exists a, select_wait_ready a0 a1 {[p]} ∅ = Some (a, [], []).
Proof using.
  intros H0 H1 Hp. unfold select_wait_ready, VERIFY. destruct (so_pipe _ _ H1) as (-> & _). rewrite (proj2 (Z.ltb_lt _ _)) by lia. rewrite orb_true_r. eexists. f_equal. f_equal; [f_equal|].
  - apply elem_of_nil_inv. intros fd [[Hit Ht] _]%list_elem_of_filter. apply elem_of_intersection in Ht as [Hr ->%elem_of_singleton].
    rewrite Z.eqb_refl, bool_decide_eq_true_2 in Hit by set_solver. done.
  - apply elem_of_nil_inv. intros fd [[_ Ht] _]%list_elem_of_filter. set_solver.
Qed.

(** From any state a removal that waits can return, by steps of the poll thread alone: the
    byte written to the pipe ends its [select].  (Unless the poll thread has tested an entry
    that is null since: then it crashes.) *)
Theorem removal_returns s fd : sreach s -> m_removing s !! fd = Some false ->
  (forall x r w, m_pc s = PTested x r w -> is_Some (callbacks s !! x)) ->
  (forall a0, m_pc s = PSelect a0 -> (0 < pipe (m_aio s))%nat) /\ exists s', rtc any_step s s' /\ m_removing s' !! fd = Some true.
Proof using.
  intros Hr Hw Hnn. pose proof (mgr_reachable_inv _ Hr) as I. pose proof (awake_reachable _ Hr) as Ha. destruct (mi_removing _ I fd false Hw) as [_ Hp]. cbn in Hp. specialize (Ha Hp).
  split; [intros a0 Hpc; by rewrite Hpc in Ha|].
  assert (Htop : forall s, pending_change s = true -> m_removing s !! fd = Some false -> m_pc s = PTop -> exists s', rtc any_step s s' /\ m_removing s' !! fd = Some true).
  { intros s1 Hp1 Hw1 Hpc. exists (loop_top s1). split; [apply rtc_once; eexists; by apply ms_top|]. unfold loop_top. rewrite Hp1. cbn. by rewrite lookup_fmap, Hw1. }
  assert (Hcalls : forall s r w, pending_change s = true -> m_removing s !! fd = Some false -> m_pc s = PCalls r w -> exists s', rtc any_step s s' /\ m_removing s' !! fd = Some true).
  { intros s1 r w Hp1 Hw1 Hpc. destruct (Htop (with_pc s1 PTop) Hp1 Hw1 eq_refl) as (s' & Hs' & ?). exists s'. split; [|done]. etransitivity; [by eapply calls_end|done]. }
  assert (Hsel : forall a0, select_ok p a0 -> (0 < pipe (m_aio s))%nat -> exists s', rtc any_step (with_pc s (PSelect a0)) s' /\ m_removing s' !! fd = Some true).
  { intros a0 H0 Hpipe. destruct (select_piped a0 (m_aio s) H0 (proj1 (mi_ok _ I)) Hpipe) as (a & Hwr). destruct (Hcalls (Mgr a (callbacks s) (pending_change s) (PCalls [] []) (m_removing s) (m_removed s)) [] [] Hp Hw eq_refl) as (s' & Hs' & ?).
    exists s'. split; [|done]. eapply rtc_l; [|exact Hs']. eexists. by eapply (ms_ready _ (with_pc s (PSelect a0)) a0 {[p]} ∅). }
  assert (Hcb : forall x r w, m_pc s = PRunning x r w \/ (m_pc s = PTested x r w /\ is_Some (callbacks s !! x)) -> exists s', rtc any_step s s' /\ m_removing s' !! fd = Some true).
  { intros x r w Hx. destruct (Hcalls (with_pc s (PCalls r w)) r w Hp Hw eq_refl) as (s' & Hs' & ?). exists s'. split; [|done]. etransitivity; [by eapply callback_ends|done]. }
  destruct (m_pc s) as [| |a0|r w|x r w|x r w] eqn:Hpc.
  - by apply Htop.
  - destruct (Hsel (m_aio s) (proj1 (mi_ok _ I)) Ha) as (s' & Hs' & ?). exists s'. split; [|done]. eapply rtc_l; [|exact Hs']. eexists. by apply ms_wait.
  - destruct (Hsel a0 (proj2 (mi_ok _ I) a0 Hpc) Ha) as (s' & Hs' & ?). exists s'. split; [|done]. destruct s; cbn in *; by subst.
  - by eapply Hcalls.
  - eapply (Hcb x r w). right. split; [done|]. by eapply Hnn.
  - eapply (Hcb x r w). by left.
Qed.
End SelectMgr.

(** ** A run *)

(** The pipe is descriptor 3.  Descriptor 5 is watched for reading and found ready, and is
    removed while its callback runs; the wait ends when the poll thread is back at the top of
    its loop. *)
Abbreviation run_reachable := (@mgr_reachable select_aio _ (select_aio_spec 3) false).
Abbreviation run_step := (@mstep select_aio _ (select_aio_spec 3) false).

Lemma running_reachable : exists s, run_reachable s /\ m_pc s = PRunning 5 [] [] /\ m_removing s = ∅.
Proof.
  assert (Hnew : select_ok 3 (select_new 3)) by (split; cbn; [set_solver|set_solver|intros fd [->%elem_of_singleton|Hf]; [lia|set_solver]]).
  set (a := select_watch_fd (select_new 3) 5 CB_RDONLY).
  assert (H1 : run_reachable (Mgr a {[5 := 7%nat]} false PTop ∅ ∅)).
  { eapply mr_step; [apply (mr_new _ (select_new 3)); [exact Hnew|]|apply (ms_add _ _ 5 CB_RDONLY 7%nat); [by split|reflexivity|vm_compute; reflexivity]].
    cbn. unfold select_abs. by cbn. }
  assert (H2 := mr_step _ _ _ _ (mr_step _ _ _ _ H1 (ms_top _ (Mgr a {[5 := 7%nat]} false PTop ∅ ∅) eq_refl)) (ms_wait _ (Mgr a {[5 := 7%nat]} false PLoop ∅ ∅) eq_refl)).
  assert (Hw : exists a', aio_wait_ready a a {[5]} ∅ = Some (a', [5], [])) by (eexists; vm_compute; reflexivity). destruct Hw as [a' Hw].
  assert (H3 := mr_step _ _ _ _ H2 (ms_ready _ (Mgr a {[5 := 7%nat]} false (PSelect a) ∅ ∅) a {[5]} ∅ _ _ _ eq_refl Hw)). cbn [callbacks pending_change m_removing m_removed] in H3.
  assert (H4 := mr_step _ _ _ _ H3 (ms_read _ (Mgr a' {[5 := 7%nat]} false (PCalls [5] []) ∅ ∅) 5 [] [] eq_refl)).
  assert (H5 := mr_step _ _ _ _ H4 (ms_call _ (Mgr a' {[5 := 7%nat]} false (PTested 5 [] []) ∅ ∅) 5 [] [] eq_refl ltac:(by eexists))).
  eexists. split; [exact H5|]. done.
Qed.

Lemma removed_fd_never_called_witness : exists s, run_reachable s /\ 5 ∈ m_removed s /\ forall s', ~ run_step s (Some 5) s'.
Proof.
  destruct running_reachable as (s0 & H0 & Hpc & Hrm).
  destruct (block_remove_begin s0 5) as [s1|] eqn:E; [|by unfold block_remove_begin in E; cbn in E].
  assert (H1 : run_reachable s1) by (eapply mr_step; [exact H0|]; eapply (ms_remove _ _ 5); [by split|by rewrite Hrm|exact E]).
  unfold block_remove_begin in E. cbn in E. injection E as <-. rewrite Hpc, Hrm in H1.
  eapply mr_step in H1; [|eapply ms_return; reflexivity].
  eapply mr_step in H1; [|eapply ms_again; reflexivity].
  eapply mr_step in H1; [|eapply ms_top; reflexivity].
  eapply mr_step in H1; [|eapply (ms_removed _ _ 5 true); [vm_compute; reflexivity|by left]].
  eexists. split; [exact H1|]. split; [cbn; set_solver|].
  apply (removed_fd_never_called _ 5 H1). left. cbn. set_solver.
Defined.
