(* ===== verification/RpcJobs.v ===== *)
(** * The jobs of an RPC server and the references they hold

    Models [ThrPool] (src/mit_6.824/rpc/thr_pool.cc) and, of rpc.cc, what [rpcs::got_pdu] and
    [rpcs::dispatch] do with connections: a request that arrives takes a reference and becomes
    a job in the bounded queue; a worker dispatches it, may make the connection the latest of
    its client, may answer over a later one, and gives the reference back.  What dispatch does
    with the request itself is in Rpc.v, the counts of a single connection in ConnRefs.v.

    The theorem: no connection is used after it was deleted, although connections die at any
    time and are collected by the listener, as long as [reachable_] does not change under a
    request that is being taken in; and a pool that is destroyed runs every job first. *)

From Stdlib Require Import ZArith Lia.
From stdpp Require Import base list gmap sets relations.
From S2P Require Import Prelude Threads ConnRefs.

Local Open Scope Z_scope.
Local Open Scope cpp_scope.
#[local] Arguments tally : simpl never.

(** ** The data *)

(** A job of the pool: a [djob_t] for a connection, one that has been deleted (so that a
    worker that takes it uses freed memory), or the pill that ends a worker. *)
Inductive job := Dispatch (c : nat) | Deleted (c : nat) | Pill.
(** A worker waits in [takeJob], handles a request of client [clt] that came over (or is to be
    answered over) [c], or has ended. *)
Inductive worker := WIdle | WServe (clt : Z) (c : nat) | WEnd.

(** [j_table]: the connections of the listener; [j_latest]: [conns_]; [j_leaked]: references
    that were taken and never given back; [j_arriving]: the poll thread is in [got_pdu] for a
    connection, after [addObjJob] with this result. *)
Record srv := Srv {
  j_conns : gmap nat conn_ref; j_table : gset nat; j_latest : gmap Z nat; j_queue : list job;
  j_workers : list worker; j_reachable : bool; j_stopping : bool; j_leaked : list nat;
  j_arriving : option (nat * bool) }.

(** [ThrPool(sz)]: the queue takes [100 * sz] jobs. *)
Definition pool_max (s : srv) : nat := 100 * length (j_workers s).
Definition srv_new (sz : nat) : srv := Srv ∅ ∅ ∅ [] (replicate sz WIdle) true false [] None.

Definition set_conns (s : srv) (m : gmap nat conn_ref) : srv :=
  Srv m (j_table s) (j_latest s) (j_queue s) (j_workers s) (j_reachable s) (j_stopping s) (j_leaked s) (j_arriving s).
Definition set_queue (s : srv) (q : list job) : srv :=
  Srv (j_conns s) (j_table s) (j_latest s) q (j_workers s) (j_reachable s) (j_stopping s) (j_leaked s) (j_arriving s).
Definition set_worker (s : srv) (i : nat) (w : worker) : srv :=
  Srv (j_conns s) (j_table s) (j_latest s) (j_queue s) (<[i := w]> (j_workers s)) (j_reachable s) (j_stopping s) (j_leaked s) (j_arriving s).

(** ** Operations *)

(** [ThrPool::addJob] of a pool that does not block. *)
Definition addJob (s : srv) (j : job) : srv * bool :=
  if (length (j_queue s) <? pool_max s)%nat then (set_queue s (j_queue s ++ [j]), true) else (s, false).

(** [delete j] of a job that was handed to the pool: the last one for [c] in the queue.  If a
    worker has taken it already it is deleted twice. *)
Fixpoint delete_job (q : list job) (c : nat) : option (list job) :=
  match q with
  | [] => None
  | j :: q' =>
      match delete_job q' c, j with
      | Some q', _ => Some (j :: q')
      | None, Dispatch d => if Nat.eqb d c then Some (Deleted c :: q') else None
      | None, _ => None
      end
  end.

Definition set_arriving (s : srv) (x : option (nat * bool)) : srv :=
  Srv (j_conns s) (j_table s) (j_latest s) (j_queue s) (j_workers s) (j_reachable s) (j_stopping s) (j_leaked s) x.

(** [rpcs::got_pdu] up to [addObjJob], and the rest, which reads [reachable_] again. *)
Definition got_pdu_begin (s : srv) (c : nat) : option srv :=
  if negb (j_reachable s) then Some s
  else
    m ← at_conn (j_conns s) c incref;
    let '(s, succ) := addJob (set_conns s m) (Dispatch c) in
    Some (set_arriving s (Some (c, succ))).
Definition got_pdu_end (s : srv) (c : nat) (succ : bool) : option srv :=
  let s := set_arriving s None in
  if negb succ || negb (j_reachable s) then
    m ← at_conn (j_conns s) c decref;
    if succ then q ← delete_job (j_queue s) c; Some (set_queue (set_conns s m) q)
    else Some (set_conns s m)
  else Some s.

(** The latest good connection of client [clt]; [older] is the result of [compare]. *)
Definition save_latest (s : srv) (clt : Z) (c : nat) (older : nat -> bool) : option srv :=
  let set m := Some (Srv m (j_table s) (<[clt := c]> (j_latest s)) (j_queue s) (j_workers s) (j_reachable s) (j_stopping s) (j_leaked s) (j_arriving s)) in
  match j_latest s !! clt with
  | None => m ← at_conn (j_conns s) c incref; set m
  | Some d => if older d then m ← at_conn (j_conns s) d decref; m ← at_conn m c incref; set m else Some s
  end.

(** What the header of a request says: it cannot be read, it is for an earlier server, or it
    comes from a client, 0 for one that does without at-most-once. *)
Inductive header := BadHeader | OldServer | Client (clt : Z).

(** [dispatch] up to the handler, by worker [i]. *)
Definition dispatch_begin (s : srv) (i : nat) (c : nat) (h : header) (older : nat -> bool) : option srv :=
  match h with
  | BadHeader => m ← at_conn (j_conns s) c decref; Some (set_worker (set_conns s m) i WIdle)
  (** The reference is not given back. *)
  | OldServer => Some (set_worker (Srv (j_conns s) (j_table s) (j_latest s) (j_queue s) (j_workers s) (j_reachable s) (j_stopping s) (c :: j_leaked s) (j_arriving s)) i WIdle)
  | Client clt =>
      s ← (if clt =? 0 then Some s else save_latest s clt c older);
      Some (set_worker s i (WServe clt c))
  end.

(** [dispatch] after the handler of a new request: the connection to answer over.  [conns_] of
    an unknown client is a null pointer. *)
Definition latest_conn (s : srv) (clt : Z) (c : nat) : option (srv * nat) :=
  x ← j_conns s !! c;
  if ref_dead x && negb (bool_decide (j_latest s !! clt = Some c)) then
    m ← at_conn (j_conns s) c decref;
    d ← j_latest s !! clt;
    m ← at_conn m d incref;
    Some (set_conns s m, d)
  else Some (s, c).
(** Its end. *)
Definition dispatch_end (s : srv) (i : nat) (c : nat) : option srv :=
  m ← at_conn (j_conns s) c decref; Some (set_worker (set_conns s m) i WIdle).

(** [tcpsconn::process_accept] for one connection of the table: collected if it is dead and
    nobody else refers to it. *)
Definition collect_conn (s : srv) (c : nat) : option srv :=
  x ← j_conns s !! c;
  if ref_dead x && (refno x =? 1) then
    m ← at_conn (j_conns s) c decref;
    Some (Srv m (j_table s ∖ {[c]}) (j_latest s) (j_queue s) (j_workers s) (j_reachable s) (j_stopping s) (j_leaked s) (j_arriving s))
  else Some s.

(** ** The server *)

(** [steady]: [set_reachable] is not called while a request is being taken in. *)
Inductive jstep (steady : bool) (s : srv) : srv -> Prop :=
  | js_accept c : j_conns s !! c = None ->
      jstep steady s (Srv (<[c := conn_ref_new]> (j_conns s)) ({[c]} ∪ j_table s) (j_latest s) (j_queue s) (j_workers s) (j_reachable s) (j_stopping s) (j_leaked s) (j_arriving s))
  | js_pdu c s' : c ∈ j_table s -> j_stopping s = false -> j_arriving s = None -> got_pdu_begin s c = Some s' -> jstep steady s s'
  | js_pdu_end c succ s' : j_arriving s = Some (c, succ) -> got_pdu_end s c succ = Some s' -> jstep steady s s'
  | js_die c m : c ∈ j_table s -> at_conn (j_conns s) c mark_dead = Some m -> jstep steady s (set_conns s m)
  | js_collect c s' : c ∈ j_table s -> collect_conn s c = Some s' -> jstep steady s s'
  | js_reachable b : (steady = true -> j_arriving s = None) -> jstep steady s (Srv (j_conns s) (j_table s) (j_latest s) (j_queue s) (j_workers s) b (j_stopping s) (j_leaked s) (j_arriving s))
  (** A worker takes a job and starts to dispatch it. *)
  | js_take i c q h older s' : j_workers s !! i = Some WIdle -> j_queue s = Dispatch c :: q ->
      dispatch_begin (set_queue s q) i c h older = Some s' -> jstep steady s s'
  | js_pill i q : j_workers s !! i = Some WIdle -> j_queue s = Pill :: q -> jstep steady s (set_worker (set_queue s q) i WEnd)
  | js_latest i clt c s' d : j_workers s !! i = Some (WServe clt c) -> latest_conn s clt c = Some (s', d) -> jstep steady s (set_worker s' i (WServe clt d))
  | js_end i clt c s' : j_workers s !! i = Some (WServe clt c) -> dispatch_end s i c = Some s' -> jstep steady s s'
  (** [~rpcs]: the listener closes its connections, and nothing arrives any more; then a pill
      for each worker (that it may have to wait for room in the queue is left out). *)
  | js_close c m m' : j_stopping s = true -> c ∈ j_table s -> at_conn (j_conns s) c mark_dead = Some m -> at_conn m c decref = Some m' ->
      jstep steady s (Srv m' (j_table s ∖ {[c]}) (j_latest s) (j_queue s) (j_workers s) (j_reachable s) (j_stopping s) (j_leaked s) (j_arriving s))
  | js_stop : j_stopping s = false -> j_arriving s = None ->
      jstep steady s (Srv (j_conns s) (j_table s) (j_latest s) (j_queue s ++ replicate (length (j_workers s)) Pill) (j_workers s) (j_reachable s) true (j_leaked s) (j_arriving s)).

Definition jobs_reachable (steady : bool) (sz : nat) : srv -> Prop := rtc (jstep steady) (srv_new sz).

(** ** The invariant *)

Lemma tally_replicate {A} (f : A -> bool) n x : f x = false -> tally f (replicate n x) = 0%nat.
Proof. intros Hf. induction n as [|n IH]; [done|]. cbn [replicate]. by rewrite tally_cons, Hf, IH. Qed.


Definition job_of (a : nat) (j : job) : bool := match j with Dispatch c => Nat.eqb c a | _ => false end.
Definition no_dispatch (j : job) : bool := match j with Dispatch _ => false | _ => true end.
Definition serves (a : nat) (w : worker) : bool := match w with WServe _ c => Nat.eqb c a | _ => false end.
Definition ended (w : worker) : bool := match w with WEnd => true | _ => false end.
Definition latest_count (m : gmap Z nat) (a : nat) : nat := size (filter (fun x => snd x = a) m).

(** The references to [a] there should be. *)
Definition refs (s : srv) (a : nat) : nat :=
  (if decide (a ∈ j_table s) then 1 else 0) + tally (job_of a) (j_queue s) + tally (serves a) (j_workers s) +
  latest_count (j_latest s) a + tally (Nat.eqb a) (j_leaked s) +
  match j_arriving s with Some (c, false) => if decide (a = c) then 1 else 0 | _ => 0 end.

Definition jcounted (m : gmap nat conn_ref) (r : nat -> nat) : Prop := forall a,
  match m !! a with
  | Some x => refno x = Z.of_nat (r a) /\ ((0 < r a)%nat -> deleted x = false)
  | None => r a = 0%nat
  end.

Record jobs_inv (s : srv) : Prop := {
  ji_counted : jcounted (j_conns s) (refs s);
  ji_arriving c (succ : bool) : j_arriving s = Some (c, succ) -> j_reachable s = true /\ j_stopping s = false;
  ji_latest i clt c : j_workers s !! i = Some (WServe clt c) -> clt <> 0 -> is_Some (j_latest s !! clt);
  ji_queue : exists jobs k, j_queue s = jobs ++ replicate k Pill /\ tally no_dispatch jobs = 0%nat /\
    (k + tally ended (j_workers s) = if j_stopping s then length (j_workers s) else 0)%nat /\ ((0 < tally ended (j_workers s))%nat -> jobs = []) }.

Definition bump (r : nat -> nat) (c a : nat) : nat := (r a + if decide (a = c) then 1 else 0)%nat.

Lemma jcounted_ext m r r' : jcounted m r -> (forall a, r' a = r a) -> jcounted m r'.
Proof. intros H Hr a. rewrite Hr. apply H. Qed.

Lemma jcounted_set m r r' c x x' : jcounted m r -> m !! c = Some x -> refno x' = Z.of_nat (r' c) -> ((0 < r' c)%nat -> deleted x' = false) ->
  (forall a, a <> c -> r' a = r a) -> jcounted (<[c := x']> m) r'.
Proof.
  intros H Hc H1 H2 Hr a. destruct (decide (a = c)) as [->|Hne]; [by rewrite lookup_insert_eq|]. rewrite lookup_insert_ne, Hr by done. apply H.
Qed.

Lemma jcounted_alive m r c : jcounted m r -> (0 < r c)%nat -> exists x, m !! c = Some x /\ refno x = Z.of_nat (r c) /\ deleted x = false.
Proof. intros H Hp. specialize (H c). destruct (m !! c) as [x|]; [|lia]. destruct H as [? ?]. exists x. auto. Qed.

Lemma at_incref m r c : jcounted m r -> (0 < r c)%nat -> exists m', at_conn m c incref = Some m' /\ jcounted m' (bump r c).
Proof.
  intros H Hp. destruct (jcounted_alive _ _ _ H Hp) as (x & Hx & Hn & Hd). unfold at_conn, incref. rewrite Hx. cbn. rewrite Hd. cbn. eexists. split; [done|].
  eapply jcounted_set; [exact H|exact Hx| |done|]; cbn; unfold bump; [rewrite decide_True by done; lia|]. intros a Ha. rewrite decide_False by done. lia.
Qed.

Lemma at_decref m r c : jcounted m (bump r c) -> exists m', at_conn m c decref = Some m' /\ jcounted m' r.
Proof.
  intros H. assert (Hc : bump r c c = S (r c)) by (unfold bump; rewrite decide_True by done; lia). destruct (jcounted_alive _ _ c H ltac:(lia)) as (x & Hx & Hn & Hd).
  unfold at_conn, decref. rewrite Hx. cbn. rewrite Hd. cbn. rewrite (proj2 (Z.leb_le _ _)) by lia. cbn. eexists. split; [done|].
  eapply jcounted_set; [exact H|exact Hx|cbn; lia| |].
  - cbn. intros Hp. by rewrite (proj2 (Z.eqb_neq _ _)) by lia.
  - intros a Ha. unfold bump. rewrite decide_False by done. lia.
Qed.

Lemma at_mark_dead m r c : jcounted m r -> (0 < r c)%nat -> exists m', at_conn m c mark_dead = Some m' /\ jcounted m' r.
Proof.
  intros H Hp. destruct (jcounted_alive _ _ _ H Hp) as (x & Hx & Hn & Hd). unfold at_conn, mark_dead. rewrite Hx. cbn. rewrite Hd. cbn. eexists. split; [done|].
  by eapply jcounted_set.
Qed.

Lemma latest_set m clt c a : (latest_count (<[clt := c]> m) a + (if decide (m !! clt = Some a) then 1 else 0) = latest_count m a + (if decide (a = c) then 1 else 0))%nat.
Proof.
  unfold latest_count. assert (Hdel : (size (filter (fun x => snd x = a) m) = size (filter (fun x => snd x = a) (delete clt m)) + (if decide (m !! clt = Some a) then 1 else 0))%nat).
  { rewrite map_filter_delete. destruct (decide (m !! clt = Some a)) as [Hm|Hm].
    - assert (Hf : filter (fun x : Z * nat => snd x = a) m !! clt = Some a) by (by apply map_lookup_filter_Some). rewrite <- (insert_delete_id _ _ _ Hf) at 1. rewrite map_size_insert_None by apply lookup_delete_eq. lia.
    - rewrite delete_id; [lia|]. apply map_lookup_filter_None. right. intros y Hy Hya. cbn in Hya. congruence. }
  rewrite Hdel. rewrite <- insert_delete_eq. destruct (decide (a = c)) as [->|Hne].
  - rewrite map_filter_insert_True by done. rewrite map_size_insert_None; [lia|]. apply map_lookup_filter_None. left. apply lookup_delete_eq.
  - rewrite map_filter_insert_False by (cbn; congruence). rewrite delete_delete_eq. lia.
Qed.

Lemma latest_pos m clt a : m !! clt = Some a -> (0 < latest_count m a)%nat.
Proof.
  intros Hm. unfold latest_count. assert (Hf : filter (fun x : Z * nat => snd x = a) m !! clt = Some a) by (by apply map_lookup_filter_Some).
  rewrite <- (insert_delete_id _ _ _ Hf). rewrite map_size_insert_None by apply lookup_delete_eq. lia.
Qed.

Ltac refs_unfold := unfold refs, bump in *; cbn [j_conns j_table j_queue j_workers j_latest j_leaked j_arriving set_conns set_queue set_worker set_arriving] in *.

Lemma eqb_decide a c : (if Nat.eqb c a then 1 else 0)%nat = (if decide (a = c) then 1 else 0)%nat.
Proof. destruct (Nat.eqb_spec c a), (decide (a = c)); congruence. Qed.

Lemma refs_table s c : c ∈ j_table s -> (0 < refs s c)%nat.
Proof. intros Hc. unfold refs. rewrite decide_True by done. lia. Qed.

(** A worker goes from one state to another. *)
Lemma refs_worker s i w w' a : j_workers s !! i = Some w ->
  (refs (set_worker s i w') a + (if serves a w then 1 else 0) = refs s a + (if serves a w' then 1 else 0))%nat.
Proof. intros Hw. refs_unfold. pose proof (tally_update (serves a) (j_workers s) i w w' Hw). lia. Qed.

Lemma ji_queue_worker s i w w' : jobs_inv s -> j_workers s !! i = Some w -> ended w = false -> ended w' = false ->
  exists jobs k, j_queue s = jobs ++ replicate k Pill /\ tally no_dispatch jobs = 0%nat /\
    (k + tally ended (<[i := w']> (j_workers s)) = if j_stopping s then length (<[i := w']> (j_workers s)) else 0)%nat /\ ((0 < tally ended (<[i := w']> (j_workers s)))%nat -> jobs = []).
Proof.
  intros I Hw He He'. destruct (ji_queue _ I) as (jobs & k & Hq & Hp & Hk & Hj). pose proof (tally_update ended (j_workers s) i w w' Hw) as Ht. rewrite He, He' in Ht.
  exists jobs, k. rewrite length_insert. replace (tally ended (<[i := w']> (j_workers s))) with (tally ended (j_workers s)) by lia. done.
Qed.

(** The connections change, and nothing the rest of the invariant is about. *)
Lemma inv_conns s m : jobs_inv s -> jcounted m (refs s) -> jobs_inv (set_conns s m).
Proof. intros [H1 H2 H3 H4] Hm. by split. Qed.

Lemma got_pdu_begin_ok s c : jobs_inv s -> c ∈ j_table s -> j_stopping s = false -> j_arriving s = None -> exists s', got_pdu_begin s c = Some s' /\ jobs_inv s'.
Proof.
  intros I Hc Hst Harr. unfold got_pdu_begin. destruct (j_reachable s) eqn:Hre; cbn [negb]; [|by eexists].
  destruct (at_incref _ _ c (ji_counted _ I) (refs_table _ _ Hc)) as (m & Hm & Hcm). rewrite Hm. cbn [mbind option_bind].
  unfold addJob. cbn [j_queue set_conns]. destruct (Nat.ltb _ _); cbn; (eexists; split; [done|]); destruct I as [H1 Ha H2 H3]; split; cbn; try done.
  - eapply jcounted_ext; [exact Hcm|]. intros a. refs_unfold. rewrite tally_app, tally_cons, Harr. cbn [job_of]. rewrite eqb_decide. change (tally (job_of a) []) with 0%nat. lia.
  - destruct H3 as (jobs & k & Hq & Hp & Hk & Hj). rewrite Hst in Hk |- *. cbv iota in Hk |- *. assert (k = 0%nat) as -> by lia. cbn [replicate] in Hq. rewrite app_nil_r in Hq.
    exists (jobs ++ [Dispatch c]), 0%nat. rewrite Hq. cbn [replicate]. rewrite app_nil_r, tally_app, Hp. split_and!; [done|done|lia|lia].
  - eapply jcounted_ext; [exact Hcm|]. intros a. refs_unfold. rewrite Harr. lia.
Qed.

Lemma got_pdu_end_ok s c succ : jobs_inv s -> j_arriving s = Some (c, succ) -> exists s', got_pdu_end s c succ = Some s' /\ jobs_inv s'.
Proof.
  intros I Harr. pose proof I as [H1 Ha H2 H3]. destruct (Ha _ _ Harr) as [Hre _]. unfold got_pdu_end. cbn [j_reachable set_arriving]. rewrite Hre. destruct succ; cbn [negb orb].
  - eexists. split; [done|]. split; cbn; try done. eapply jcounted_ext; [exact H1|]. intros a. refs_unfold. by rewrite Harr.
  - destruct (at_decref (j_conns s) (refs (set_arriving s None)) c) as (m & Hm & Hcm).
    { eapply jcounted_ext; [exact H1|]. intros a. refs_unfold. rewrite Harr. lia. }
    cbn [j_conns set_arriving]. rewrite Hm. cbn. eexists. split; [done|]. by split.
Qed.

(** The latest connection of a client, on counts [r] that include the job itself. *)
Lemma save_latest_ok s clt c older : jcounted (j_conns s) (refs s) -> (0 < refs s c)%nat -> (forall d, j_latest s !! clt = Some d -> older d = true -> d = c -> (1 < refs s c)%nat) ->
  exists m l, save_latest s clt c older = Some (Srv m (j_table s) l (j_queue s) (j_workers s) (j_reachable s) (j_stopping s) (j_leaked s) (j_arriving s)) /\
    jcounted m (refs (Srv m (j_table s) l (j_queue s) (j_workers s) (j_reachable s) (j_stopping s) (j_leaked s) (j_arriving s))) /\ is_Some (l !! clt) /\ (forall x, is_Some (j_latest s !! x) -> is_Some (l !! x)).
Proof.
  intros H Hc Hsame. unfold save_latest. pose proof (latest_set (j_latest s) clt c) as Hl. destruct (j_latest s !! clt) as [d|] eqn:Hd.
  - destruct (older d) eqn:Ho; [|exists (j_conns s), (j_latest s); destruct s; cbn in *; by rewrite Hd].
    assert (Hrd : forall a, refs s a = bump (fun a => (refs s a - if decide (a = d) then 1 else 0)%nat) d a).
    { intros a. unfold bump. case_decide; [|lia]. subst a. assert (0 < latest_count (j_latest s) d)%nat by (by eapply latest_pos). unfold refs. lia. }
    destruct (at_decref (j_conns s) _ d (jcounted_ext _ _ _ H (fun a => eq_sym (Hrd a)))) as (m & Hm & Hcm). rewrite Hm. cbn [mbind option_bind].
    destruct (at_incref m _ c Hcm) as (m' & Hm' & Hcm'); [case_decide; [subst c|lia]; specialize (Hsame d eq_refl Ho eq_refl); lia|].
    rewrite Hm'. cbn [mbind option_bind]. eexists m', _. split; [done|]. split; [|split; [rewrite lookup_insert_eq; by eexists|]].
    + eapply jcounted_ext; [exact Hcm'|]. intros a. unfold bump. specialize (Hrd a). unfold bump in Hrd. specialize (Hl a). unfold refs in *. cbn in *. destruct (decide (Some d = Some a)), (decide (a = d)); try congruence; lia.
    + intros x Hx. rewrite lookup_insert. by case_decide.
  - destruct (at_incref _ _ c H Hc) as (m & Hm & Hcm). rewrite Hm. cbn [mbind option_bind]. eexists m, _. split; [done|]. split; [|split; [rewrite lookup_insert_eq; by eexists|]].
    + eapply jcounted_ext; [exact Hcm|]. intros a. specialize (Hl a). rewrite decide_False in Hl by done. unfold refs, bump in *. cbn. lia.
    + intros x Hx. rewrite lookup_insert. by case_decide.
Qed.

Lemma save_latest_worker s clt c older i w : (s ← save_latest s clt c older; Some (set_worker s i w)) = save_latest (set_worker s i w) clt c older.
Proof.
  unfold save_latest, set_worker. cbn. destruct (j_latest s !! clt) as [d|].
  - destruct (older d); [|done]. cbn. destruct (at_conn (j_conns s) d decref) as [m|]; [|done]. cbn. by destruct (at_conn m c incref).
  - by destruct (at_conn (j_conns s) c incref).
Qed.

Lemma ji_take s c q : jobs_inv s -> j_queue s = Dispatch c :: q -> (forall a, refs s a = bump (refs (set_queue s q)) c a) /\
  tally ended (j_workers s) = 0%nat /\ exists jobs k, q = jobs ++ replicate k Pill /\ tally no_dispatch jobs = 0%nat /\ (k = if j_stopping s then length (j_workers s) else 0)%nat.
Proof.
  intros I Hq. split.
  - intros a. refs_unfold. rewrite Hq, tally_cons. cbn [job_of]. rewrite eqb_decide. lia.
  - destruct (ji_queue _ I) as (jobs & k & Hj & Hp & Hk & He). rewrite Hq in Hj. destruct jobs as [|j jobs]; [by destruct k|]. cbn [app] in Hj. injection Hj as <- ->.
    rewrite tally_cons in Hp. cbn [no_dispatch] in Hp. assert (H0 : tally ended (j_workers s) = 0%nat) by (destruct (tally ended (j_workers s)); [done|]; specialize (He ltac:(lia)); done).
    split; [done|]. exists jobs, k. split; [done|]. split; [lia|]. lia.
Qed.

(** A job is taken: the worker is idle again or serves. *)
Lemma inv_taken s c q i w' conns latest leaked : jobs_inv s -> j_queue s = Dispatch c :: q -> j_workers s !! i = Some WIdle -> ended w' = false ->
  let s' := Srv conns (j_table s) latest q (<[i := w']> (j_workers s)) (j_reachable s) (j_stopping s) leaked (j_arriving s) in
  jcounted conns (refs s') -> (forall x, is_Some (j_latest s !! x) -> is_Some (latest !! x)) -> (forall clt d, w' = WServe clt d -> clt <> 0 -> is_Some (latest !! clt)) -> jobs_inv s'.
Proof.
  intros I Hq Hi Hw' s' Hc Hl Hs. destruct (ji_take _ _ _ I Hq) as (_ & H0 & jobs & k & Hj & Hp & Hk). split; [exact Hc|exact (ji_arriving _ I)| |].
  - cbn. intros j clt d Hj' Hclt. destruct (decide (i = j)) as [<-|Hne].
    + rewrite list_lookup_insert_eq in Hj' by (by eapply lookup_lt_Some). injection Hj' as ->. by eapply Hs.
    + rewrite list_lookup_insert_ne in Hj' by done. apply Hl. by eapply (ji_latest _ I).
  - pose proof (tally_update ended (j_workers s) i WIdle w' Hi) as Ht. rewrite Hw' in Ht. cbn [ended] in Ht. exists jobs, k. cbn. rewrite length_insert. split_and!; [done|done|lia|lia].
Qed.

Lemma dispatch_begin_ok s i c q h older : jobs_inv s -> j_workers s !! i = Some WIdle -> j_queue s = Dispatch c :: q ->
  exists s', dispatch_begin (set_queue s q) i c h older = Some s' /\ jobs_inv s'.
Proof.
  intros I Hi Hq. destruct (ji_take _ _ _ I Hq) as (Hr & _). pose proof (ji_counted _ I) as Hc.
  assert (Hidle : forall a, tally (serves a) (<[i := WIdle]> (j_workers s)) = tally (serves a) (j_workers s)) by (intros a; pose proof (tally_update (serves a) (j_workers s) i WIdle WIdle Hi); lia).
  destruct h as [| |clt]; cbn [dispatch_begin].
  - destruct (at_decref (j_conns s) (refs (set_queue s q)) c (jcounted_ext _ _ _ Hc (fun a => eq_sym (Hr a)))) as (m & Hm & Hcm). cbn [j_conns set_queue]. rewrite Hm. cbn [mbind option_bind]. eexists. split; [done|].
    apply (inv_taken s c q i WIdle m (j_latest s) (j_leaked s)); [done|done|done|done| |done|done]. eapply jcounted_ext; [exact Hcm|]. intros a. refs_unfold. rewrite Hidle. done.
  - eexists. split; [done|]. apply (inv_taken s c q i WIdle (j_conns s) (j_latest s) (c :: j_leaked s)); [done|done|done|done| |done|done].
    eapply jcounted_ext; [exact Hc|]. intros a. specialize (Hr a). refs_unfold. rewrite Hidle, tally_cons, Nat.eqb_sym, eqb_decide. lia.
  - set (s2 := set_worker (set_queue s q) i (WServe clt c)).
    assert (H2 : forall a, refs s2 a = refs s a).
    { intros a. rewrite (Hr a). pose proof (refs_worker (set_queue s q) i WIdle (WServe clt c) a Hi) as Hw. cbn [serves] in Hw. rewrite eqb_decide in Hw. unfold bump. unfold s2. lia. }
    pose proof (jcounted_ext _ _ (refs s2) Hc H2) as Hc2. destruct (Z.eqb_spec clt 0) as [->|Hne].
    + cbn [mbind option_bind]. eexists. split; [done|]. by apply (inv_taken s c q i (WServe 0 c) (j_conns s) (j_latest s) (j_leaked s)); [| | | | |done|intros ? ? [= <- _]].
    + rewrite save_latest_worker. fold s2.
      assert (Hpos : (0 < refs s2 c)%nat) by (rewrite H2, Hr; unfold bump; rewrite decide_True by done; lia).
      destruct (save_latest_ok s2 clt c older Hc2 Hpos) as (m & l & Hsl & Hcm & Hs & Hk).
      { intros d Hd _ ->. assert (0 < latest_count (j_latest s) c)%nat by (by eapply latest_pos). rewrite H2, Hr. refs_unfold. destruct (decide (c = c)); [lia|done]. }
      rewrite Hsl. eexists. split; [done|]. apply (inv_taken s c q i (WServe clt c) m l (j_leaked s)); [done|done|done|done|exact Hcm|exact Hk|by intros ? ? [= <- _]].
Qed.

Lemma serving_refs s i clt c : j_workers s !! i = Some (WServe clt c) -> (0 < refs s c)%nat.
Proof.
  intros Hi. assert (0 < tally (serves c) (j_workers s))%nat by (apply tally_pos; exists i, (WServe clt c); split; [done|apply Nat.eqb_refl]). unfold refs. lia.
Qed.

(** A worker that serves goes on; only the connections change. *)
Lemma inv_serving s i clt c w' m : jobs_inv s -> j_workers s !! i = Some (WServe clt c) -> w' = WIdle \/ (exists d, w' = WServe clt d) ->
  jcounted m (refs (set_worker s i w')) -> jobs_inv (set_worker (set_conns s m) i w').
Proof.
  intros I Hi Hw Hc. split; [exact Hc|exact (ji_arriving _ I)| |].
  - cbn. intros j clt' d Hj Hclt. destruct (decide (i = j)) as [<-|Hne].
    + rewrite list_lookup_insert_eq in Hj by (by eapply lookup_lt_Some). injection Hj as ->. destruct Hw as [|[d' [= -> _]]]; [done|]. by eapply (ji_latest _ I).
    + rewrite list_lookup_insert_ne in Hj by done. by eapply (ji_latest _ I).
  - apply (ji_queue_worker s i (WServe clt c) w'); [done|done|done|]. by destruct Hw as [->|[? ->]].
Qed.

Lemma dispatch_end_ok s i clt c : jobs_inv s -> j_workers s !! i = Some (WServe clt c) -> exists s', dispatch_end s i c = Some s' /\ jobs_inv s'.
Proof.
  intros I Hi. unfold dispatch_end. destruct (at_decref (j_conns s) (refs (set_worker s i WIdle)) c) as (m & Hm & Hcm).
  - eapply jcounted_ext; [apply (ji_counted _ I)|]. intros a. pose proof (refs_worker s i _ WIdle a Hi) as Hw. cbn [serves] in Hw. rewrite eqb_decide in Hw. unfold bump. lia.
  - rewrite Hm. cbn. eexists. split; [done|]. eapply inv_serving; [done|exact Hi|by left|done].
Qed.

Lemma latest_conn_ok s i clt c : jobs_inv s -> j_workers s !! i = Some (WServe clt c) -> is_Some (j_latest s !! clt) \/ (ref_dead <$> j_conns s !! c) = Some false ->
  exists s' d, latest_conn s clt c = Some (s', d) /\ jobs_inv (set_worker s' i (WServe clt d)).
Proof.
  intros I Hi Hcase. unfold latest_conn. destruct (jcounted_alive _ _ c (ji_counted _ I) (serving_refs _ _ _ _ Hi)) as (x & Hx & _ & _). rewrite Hx in *. cbn [mbind option_bind].
  assert (Hstay : jobs_inv (set_worker s i (WServe clt c))).
  { destruct s as [m t l q ws r st lk ar]. unfold set_worker. cbn in *. by rewrite list_insert_id. }
  destruct (ref_dead x) eqn:Hdead; cbn [andb]; [|by eexists _, _]. case_bool_decide as Hl; cbn [negb]; [by eexists _, _|].
  assert (Hlt : is_Some (j_latest s !! clt)) by (destruct Hcase as [|Hd]; [done|by cbn in Hd; congruence]). destruct Hlt as [d Hd].
  destruct (at_decref (j_conns s) (refs (set_worker s i WIdle)) c) as (m & Hm & Hcm).
  { eapply jcounted_ext; [apply (ji_counted _ I)|]. intros a. pose proof (refs_worker s i _ WIdle a Hi) as Hw. cbn [serves] in Hw. rewrite eqb_decide in Hw. unfold bump. lia. }
  rewrite Hm, Hd. cbn [mbind option_bind]. destruct (at_incref m (refs (set_worker s i WIdle)) d Hcm) as (m' & Hm' & Hcm').
  { pose proof (latest_pos _ _ _ Hd). refs_unfold. lia. }
  rewrite Hm'. cbn [mbind option_bind]. eexists _, _. split; [done|]. eapply inv_serving; [done|exact Hi|right; by exists d|]. eapply jcounted_ext; [exact Hcm'|]. intros a.
  pose proof (refs_worker s i _ WIdle a Hi) as Hw. pose proof (refs_worker s i _ (WServe clt d) a Hi) as Hw'. cbn [serves] in Hw, Hw'. rewrite eqb_decide in Hw. rewrite (eqb_decide a c), (eqb_decide a d) in Hw'. unfold bump. lia.
Qed.

(** Only a client that [conns_] has no connection for meets the null pointer. *)
Lemma latest_conn_null s clt c s' d : latest_conn s clt c = Some (s', d) -> is_Some (j_latest s !! clt) \/ (ref_dead <$> j_conns s !! c) = Some false.
Proof.
  unfold latest_conn. destruct (j_conns s !! c) as [x|]; [|done]. cbn. destruct (ref_dead x); [|by right]. destruct (j_latest s !! clt) as [y|]; [by left; eexists|]. cbn.
  by destruct (at_conn (j_conns s) c decref).
Qed.

(** A connection leaves the table. *)
Lemma inv_table s c m : jobs_inv s -> c ∈ j_table s -> jcounted m (fun a => refs s a - if decide (a = c) then 1 else 0)%nat ->
  jobs_inv (Srv m (j_table s ∖ {[c]}) (j_latest s) (j_queue s) (j_workers s) (j_reachable s) (j_stopping s) (j_leaked s) (j_arriving s)).
Proof.
  intros [H1 Ha H2 H3] Hc Hm. split; [|done|done|done]. eapply jcounted_ext; [exact Hm|]. intros a. refs_unfold. destruct (decide (a = c)) as [->|Hne].
  - rewrite decide_False by set_solver. rewrite decide_True by done. lia.
  - assert (a ∈ j_table s ∖ {[c]} <-> a ∈ j_table s) as E by set_solver. destruct (decide (a ∈ j_table s)); [rewrite decide_True by tauto|rewrite decide_False by tauto]; lia.
Qed.

Lemma table_bump s c : c ∈ j_table s -> forall a, bump (fun a => refs s a - if decide (a = c) then 1 else 0)%nat c a = refs s a.
Proof. intros Hc a. unfold bump. pose proof (refs_table _ _ Hc). case_decide; subst; lia. Qed.

Lemma collect_conn_ok s c : jobs_inv s -> c ∈ j_table s -> exists s', collect_conn s c = Some s' /\ jobs_inv s'.
Proof.
  intros I Hc. unfold collect_conn. destruct (jcounted_alive _ _ c (ji_counted _ I) (refs_table _ _ Hc)) as (x & Hx & _). rewrite Hx. cbn [mbind option_bind].
  destruct (ref_dead x && (refno x =? 1)); [|by eexists]. destruct (at_decref (j_conns s) (fun a => refs s a - if decide (a = c) then 1 else 0)%nat c) as (m & Hm & Hcm).
  { eapply jcounted_ext; [apply (ji_counted _ I)|]. by apply table_bump. }
  rewrite Hm. cbn. eexists. split; [done|]. by apply inv_table.
Qed.

Lemma inv_accept s c : jobs_inv s -> j_conns s !! c = None ->
  jobs_inv (Srv (<[c := conn_ref_new]> (j_conns s)) ({[c]} ∪ j_table s) (j_latest s) (j_queue s) (j_workers s) (j_reachable s) (j_stopping s) (j_leaked s) (j_arriving s)).
Proof.
  intros [H1 Ha H2 H3] Hc. assert (H0 : refs s c = 0%nat) by (specialize (H1 c); by rewrite Hc in H1). split; [|done|done|done]. intros a. cbn [j_conns]. destruct (decide (a = c)) as [->|Hne].
  - rewrite lookup_insert_eq. refs_unfold. destruct (decide (c ∈ j_table s)); [lia|]. rewrite decide_True by set_solver. cbn [conn_ref_new refno deleted]. split; [lia|done].
  - rewrite lookup_insert_ne by done. specialize (H1 a). refs_unfold. assert (a ∈ {[c]} ∪ j_table s <-> a ∈ j_table s) as E by set_solver.
    destruct (decide (a ∈ j_table s)); [rewrite (decide_True (P := a ∈ {[c]} ∪ j_table s)) by tauto|rewrite (decide_False (P := a ∈ {[c]} ∪ j_table s)) by tauto]; done.
Qed.

Lemma inv_pill s i q : jobs_inv s -> j_workers s !! i = Some WIdle -> j_queue s = Pill :: q -> jobs_inv (set_worker (set_queue s q) i WEnd).
Proof.
  intros I Hi Hq. pose proof (tally_update ended (j_workers s) i WIdle WEnd Hi) as Ht. cbn [ended] in Ht. split; [|exact (ji_arriving _ I)| |].
  - eapply jcounted_ext; [apply (ji_counted _ I)|]. intros a. pose proof (tally_update (serves a) (j_workers s) i WIdle WEnd Hi) as Hs. refs_unfold. rewrite Hq, tally_cons. cbn [job_of serves] in *. lia.
  - cbn. intros j clt d Hj. destruct (decide (i = j)) as [<-|Hne]; [by rewrite list_lookup_insert_eq in Hj by (by eapply lookup_lt_Some)|]. rewrite list_lookup_insert_ne in Hj by done. by eapply (ji_latest _ I).
  - destruct (ji_queue _ I) as (jobs & k & Hj & Hp & Hk & _). rewrite Hq in Hj. destruct jobs as [|j jobs]; [|cbn [app] in Hj; injection Hj as <- _; by rewrite tally_cons in Hp].
    destruct k as [|k]; [done|]. cbn in Hj. injection Hj as ->. exists [], k. cbn. rewrite length_insert. split_and!; [done|done| |done]. destruct (j_stopping s); lia.
Qed.

Lemma jobs_inv_step s s' : jobs_inv s -> jstep true s s' -> jobs_inv s'.
Proof.
  intros I Hs. destruct Hs as [c Hc|c s' Hc Hst Harr Hp|c succ s' Harr Hp|c m Hc Hm|c s' Hc Hp|b Hb|i c q h older s' Hi Hq Hp|i q Hi Hq|i clt c s' d Hi Hp|i clt c s' Hi Hp|c m m' Hst Hc Hm Hm'|Hst Harr].
  - by apply inv_accept.
  - destruct (got_pdu_begin_ok s c I Hc Hst Harr) as (? & E & I'). rewrite Hp in E. by injection E as <-.
  - destruct (got_pdu_end_ok s c succ I Harr) as (? & E & I'). rewrite Hp in E. by injection E as <-.
  - destruct (at_mark_dead _ _ c (ji_counted _ I) (refs_table _ _ Hc)) as (m1 & E & Hc1). rewrite Hm in E. injection E as <-. by apply inv_conns.
  - destruct (collect_conn_ok s c I Hc) as (? & E & I'). rewrite Hp in E. by injection E as <-.
  - destruct I as [H1 Ha H2 H3]. split; cbn; try done. intros c succ Hcs. rewrite Hb in Hcs; done.
  - destruct (dispatch_begin_ok s i c q h older I Hi Hq) as (? & E & I'). rewrite Hp in E. by injection E as <-.
  - by apply inv_pill.
  - destruct (latest_conn_ok s i clt c I Hi) as (? & ? & E & I'); [by eapply latest_conn_null|]. rewrite Hp in E. by injection E as <- <-.
  - destruct (dispatch_end_ok s i clt c I Hi) as (? & E & I'). rewrite Hp in E. by injection E as <-.
  - destruct (at_mark_dead _ _ c (ji_counted _ I) (refs_table _ _ Hc)) as (m1 & E & Hc1). rewrite Hm in E. injection E as <-.
    destruct (at_decref m (fun a => refs s a - if decide (a = c) then 1 else 0)%nat c) as (m2 & E & Hc2); [eapply jcounted_ext; [exact Hc1|by apply table_bump]|]. rewrite Hm' in E. injection E as <-. by apply inv_table.
  - destruct I as [H1 Ha H2 H3]. split; [|intros c succ Hcs; cbn in Hcs; congruence|done|].
    + eapply jcounted_ext; [exact H1|]. intros a. refs_unfold. rewrite tally_app. rewrite tally_replicate by done. lia.
    + destruct H3 as (jobs & k & Hj & Hp & Hk & He). rewrite Hst in Hk. cbv iota in Hk. assert (k = 0%nat) as -> by lia. exists jobs, (length (j_workers s)). cbn. rewrite Hj. cbn. rewrite app_nil_r.
      split_and!; [done|done|lia|lia].
Qed.

Lemma jobs_reachable_inv sz s : jobs_reachable true sz s -> jobs_inv s.
Proof.
  intros Hr. apply (rtc_ind_r jobs_inv (srv_new sz)) with (3 := Hr); [|intros ? ? _ Hs I; by eapply jobs_inv_step]. split; [|done| |].
  - intros a. cbn. unfold refs. cbn. by rewrite tally_replicate.
  - cbn. intros i clt c Hi. apply lookup_replicate in Hi as [? _]. done.
  - exists [], 0%nat. cbn. rewrite tally_replicate by done. split_and!; [done|done|done|lia].
Qed.

(** C28. The references of a server whose [set_reachable] is not called while a request is being
    taken in: whatever requests arrive over whatever connections, and whenever connections die
    and are collected, no connection and no job is used after it was deleted.  Taking in a
    request, dispatching it on every path, answering it and ending it all find their
    connections alive; the one exception is a request of a client without a nonce whose
    connection has died, which is answered over a null pointer.  And when all workers of a
    pool that is being destroyed have ended, every job has been dispatched. *)
Theorem server_references sz s : jobs_reachable true sz s ->
  (forall c, c ∈ j_table s -> j_stopping s = false -> j_arriving s = None -> is_Some (got_pdu_begin s c)) /\
  (forall c succ, j_arriving s = Some (c, succ) -> is_Some (got_pdu_end s c succ)) /\
  (forall c q, j_queue s <> Deleted c :: q) /\
  (forall i c q h older, j_workers s !! i = Some WIdle -> j_queue s = Dispatch c :: q -> is_Some (dispatch_begin (set_queue s q) i c h older)) /\
  (forall i clt c, j_workers s !! i = Some (WServe clt c) -> is_Some (dispatch_end s i c) /\
     (clt <> 0 \/ (ref_dead <$> j_conns s !! c) = Some false -> is_Some (latest_conn s clt c))) /\
  (forall c, c ∈ j_table s -> is_Some (collect_conn s c)) /\
  (j_stopping s = true -> Forall (fun w => w = WEnd) (j_workers s) -> j_workers s <> [] -> j_queue s = []).
Proof.
  intros Hr. pose proof (jobs_reachable_inv _ _ Hr) as I. split; [|split; [|split; [|split; [|split; [|split]]]]].
  - intros c Hc Hst Harr. destruct (got_pdu_begin_ok s c I Hc Hst Harr) as (? & -> & _). by eexists.
  - intros c succ Harr. destruct (got_pdu_end_ok s c succ I Harr) as (? & -> & _). by eexists.
  - intros c q Hq. destruct (ji_queue _ I) as (jobs & k & Hj & Hp & _). rewrite Hq in Hj. destruct jobs; [by destruct k|]. injection Hj as <- _. by rewrite tally_cons in Hp.
  - intros i c q h older Hi Hq. destruct (dispatch_begin_ok s i c q h older I Hi Hq) as (? & -> & _). by eexists.
  - intros i clt c Hi. split; [destruct (dispatch_end_ok s i clt c I Hi) as (? & -> & _); by eexists|]. intros Hcase.
    destruct (latest_conn_ok s i clt c I Hi) as (? & ? & -> & _); [|by eexists]. destruct Hcase as [H|H]; [left; by eapply (ji_latest _ I)|by right].
  - intros c Hc. destruct (collect_conn_ok s c I Hc) as (? & -> & _). by eexists.
  - intros Hst Hend Hne. destruct (ji_queue _ I) as (jobs & k & Hq & _ & Hk & He). rewrite Hst in Hk. cbv iota in Hk.
    assert (Hall : tally ended (j_workers s) = length (j_workers s)) by (clear -Hend; induction Hend as [|w l -> _ IH]; [done|]; rewrite tally_cons, IH; done).
    destruct (j_workers s) as [|w ws]; [done|]. cbn [length] in *. rewrite Hq, He by lia. by replace k with 0%nat by lia.
Qed.

Lemma delete_last q c : delete_job (q ++ [Dispatch c]) c = Some (q ++ [Deleted c]).
Proof. induction q as [|j q IH]; cbn; [by rewrite Nat.eqb_refl|]. by rewrite IH. Qed.

(** If the server may be made unreachable in between, any request that is taken in while there
    is room can leave a deleted job in the queue, its reference given back. *)
Lemma switched_off_deletes_job sz s c : jobs_reachable true sz s -> c ∈ j_table s -> j_stopping s = false -> j_arriving s = None ->
  j_reachable s = true -> (length (j_queue s) < pool_max s)%nat ->
  exists s', rtc (jstep false) s s' /\ j_queue s' = j_queue s ++ [Deleted c] /\ (refno <$> j_conns s' !! c) = (refno <$> j_conns s !! c).
Proof.
  intros Hr Hc Hst Harr Hre Hroom. pose proof (jobs_reachable_inv _ _ Hr) as I.
  destruct (jcounted_alive _ _ c (ji_counted _ I) (refs_table _ _ Hc)) as (x & Hx & Hn & Hd). pose proof (refs_table _ _ Hc).
  destruct (at_conn (j_conns s) c incref) as [m|] eqn:Hm; [|by unfold at_conn, incref in Hm; rewrite Hx in Hm; cbn in Hm; rewrite Hd in Hm].
  assert (Hmc : m = <[c := ConnRef (refno x + 1) (ref_dead x) false]> (j_conns s)).
  { unfold at_conn, incref in Hm. rewrite Hx in Hm. cbn in Hm. rewrite Hd in Hm. by injection Hm. }
  assert (Hb : got_pdu_begin s c = Some (set_arriving (set_queue (set_conns s m) (j_queue s ++ [Dispatch c])) (Some (c, true)))).
  { unfold got_pdu_begin, addJob. rewrite Hre, Hm. cbn [negb mbind option_bind]. change (pool_max (set_conns s m)) with (pool_max s). cbn [j_queue set_conns].
    by rewrite (proj2 (Nat.ltb_lt _ _) Hroom). }
  eexists. split; [|split].
  - eapply rtc_l; [eapply (js_pdu _ _ c); [done|done|done|exact Hb]|]. eapply rtc_l; [by apply (js_reachable _ _ false)|].
    eapply rtc_once, (js_pdu_end _ _ c true); [reflexivity|]. unfold got_pdu_end. cbn [negb orb set_arriving set_queue set_conns j_reachable j_conns j_queue].
    rewrite Hmc. unfold at_conn, decref. rewrite lookup_insert_eq. cbn. rewrite (proj2 (Z.leb_le _ _)) by lia. cbn. rewrite delete_last. reflexivity.
  - reflexivity.
  - cbn. rewrite lookup_insert_eq, Hx. cbn. f_equal. lia.
Qed.

(** A reference that a request for an earlier server took is never given back: its
    connection is not deleted any more. *)
Lemma leaked_is_kept sz s c : jobs_reachable true sz s -> c ∈ j_leaked s -> exists x, j_conns s !! c = Some x /\ deleted x = false /\ 1 <= refno x.
Proof.
  intros Hr Hc. pose proof (jobs_reachable_inv _ _ Hr) as I. assert (0 < tally (Nat.eqb c) (j_leaked s))%nat.
  { apply list_elem_of_lookup in Hc as [i Hi]. apply tally_pos. exists i, c. split; [done|apply Nat.eqb_refl]. }
  assert (Hp : (0 < refs s c)%nat) by (unfold refs; lia). destruct (jcounted_alive _ _ c (ji_counted _ I) Hp) as (x & Hx & Hn & Hd). exists x. split_and!; [done|done|lia].
Qed.

(** ** Runs *)

(** One worker; connection 0 is accepted and a request arrives over it. *)
Definition one_request : srv := Srv {[0%nat := ConnRef 2 false false]} {[0%nat]} ∅ [Dispatch 0] [WIdle] true false [] None.
Lemma one_request_reachable : jobs_reachable true 1 one_request.
Proof.
  eapply rtc_l; [by apply (js_accept _ _ 0)|]. eapply rtc_l; [eapply (js_pdu _ _ 0); [set_solver|done|done|vm_compute; reflexivity]|].
  eapply rtc_l; [eapply (js_pdu_end _ _ 0 true); [reflexivity|vm_compute; reflexivity]|].
  apply eq_subrelation; [apply _|]. vm_compute. reflexivity.
Qed.

Lemma server_references_witness : is_Some (dispatch_begin (set_queue one_request []) 0 0 (Client 7) (fun _ => false)).
Proof. apply (server_references 1 one_request one_request_reachable); reflexivity. Defined.

(** A client without a nonce sends a request and its connection dies while it is handled. *)
Lemma anonymous_client_null : exists s, jobs_reachable true 1 s /\ j_workers s !! 0%nat = Some (WServe 0 0) /\ latest_conn s 0 0 = None.
Proof.
  exists (Srv {[0%nat := ConnRef 2 true false]} {[0%nat]} ∅ [] [WServe 0 0] true false [] None). split; [|by vm_compute].
  unfold jobs_reachable. etransitivity; [exact one_request_reachable|].
  eapply rtc_l; [eapply (js_take _ _ 0 0 [] (Client 0) (fun _ => false)); [reflexivity|reflexivity|vm_compute; reflexivity]|].
  eapply rtc_l; [eapply (js_die _ _ 0); [cbn; set_solver|vm_compute; reflexivity]|].
  apply eq_subrelation; [apply _|]. vm_compute. reflexivity.
Qed.

(** ** Statistics *)

(** [counts_], [curr_counts_]; [counting] is [counting_]. *)
Record rpc_stats := RpcStats { st_counts : gmap Z Z; st_curr : Z }.
(** [rpcs::updatestat]: true if the statistics are printed. *)
Definition updatestat (counting : Z) (t : rpc_stats) (proc : Z) : rpc_stats * bool :=
  let counts := <[proc := default 0 (st_counts t !! proc) + 1]> (st_counts t) in
  let curr := st_curr t - 1 in
  if curr =? 0 then (RpcStats counts counting, true) else (RpcStats counts curr, false).

(** The statistics are printed with every [counting]-th request. *)
Lemma updatestat_period counting t procs : 0 < counting -> st_curr t = counting ->
  st_curr (foldl (fun t p => (updatestat counting t p).1) t procs) = counting - Z.of_nat (length procs) mod counting.
Proof.
  intros Hc Ht. induction procs as [|p procs IH] using rev_ind; [cbn; rewrite Z.mod_0_l by lia; lia|]. rewrite foldl_snoc, length_app, Nat2Z.inj_add. cbn [length].
  set (t' := foldl _ t procs) in *. unfold updatestat. rewrite IH. set (n := Z.of_nat (length procs)). pose proof (Z.mod_pos_bound n counting Hc) as Hb.
  destruct (Z.eqb_spec (counting - n mod counting - 1) 0) as [E|E]; cbn.
  - rewrite <- Z.add_mod_idemp_l by lia. replace (n mod counting + Z.of_nat 1) with counting by lia. rewrite Z.mod_same by lia. lia.
  - rewrite <- Z.add_mod_idemp_l by lia. rewrite (Z.mod_small (n mod counting + Z.of_nat 1)) by lia. lia.
Qed.
