(* ===== verification/Handle.v ===== *)
(** * Handles: the cache of RPC clients

    Models src/mit_6.824/handle.cc: [handle_mgr] keeps one [hinfo] for every server that is
    spoken to, with a count of the [handle] objects that refer to it; the first [safebind]
    makes the client; a server whose client could not be bound, or that has left the view, is
    forgotten when the last handle to it goes.  The objects on the heap are named by numbers;
    [None] is the use of one that was freed.

    The theorem: in any sequence of calls by any number of threads no [hinfo] is used after it
    was freed, and none is freed while a handle refers to it. *)

From Stdlib Require Import ZArith Lia String.
From stdpp Require Import base list gmap strings relations.
From S2P Require Import Prelude Threads.

Local Open Scope Z_scope.
Local Open Scope cpp_scope.
#[local] Arguments tally : simpl never.

(** ** The manager *)

(** [cl] names the client, if there is one. *)
Record hinfo := HInfo { h_cl : option nat; h_refcnt : Z; h_del : bool; h_m : string }.
(** [hmap], and the [hinfo] objects; [hm_next] is the next free name. *)
Record handle_mgr := HandleMgr { hmap : gmap string nat; hinfos : gmap nat hinfo; hm_next : nat }.
Definition handle_mgr_new : handle_mgr := HandleMgr ∅ ∅ 0.

Definition set_info (s : handle_mgr) (a : nat) (h : hinfo) : handle_mgr := HandleMgr (hmap s) (<[a := h]> (hinfos s)) (hm_next s).

(** The constructor of [handle]: a null handle if the server is being forgotten. *)
Definition get_handle (s : handle_mgr) (m : string) : option (handle_mgr * option nat) :=
  match hmap s !! m with
  | None => Some (HandleMgr (<[m := hm_next s]> (hmap s)) (<[hm_next s := HInfo None 1 false m]> (hinfos s)) (hm_next s + 1), Some (hm_next s))
  | Some a =>
      h ← hinfos s !! a;
      if h_del h then Some (s, None) else Some (set_info s a (HInfo (h_cl h) (h_refcnt h + 1) (h_del h) (h_m h)), Some a)
  end.

(** [safebind]; [bound] is the client [bind] succeeds with. *)
Definition safebind (s : handle_mgr) (h : option nat) (bound : option nat) : option (handle_mgr * option nat) :=
  match h with
  | None => Some (s, None)
  | Some a =>
      i ← hinfos s !! a;
      if h_del i then Some (s, None)
      else match h_cl i with
           | Some cl => Some (s, Some cl)
           | None => Some (set_info s a (HInfo bound (h_refcnt i) (match bound with None => true | Some _ => false end) (h_m i)), bound)
           end
  end.

Definition delete_handle_wo (s : handle_mgr) (m : string) : option handle_mgr :=
  match hmap s !! m with
  | None => Some s
  | Some a =>
      h ← hinfos s !! a;
      if h_refcnt h =? 0 then Some (HandleMgr (delete m (hmap s)) (delete a (hinfos s)) (hm_next s))
      else Some (set_info s a (HInfo (h_cl h) (h_refcnt h) true (h_m h)))
  end.

(** The destructor of [handle]. *)
Definition done_handle (s : handle_mgr) (h : option nat) : option handle_mgr :=
  match h with
  | None => Some s
  | Some a =>
      i ← hinfos s !! a;
      let s := set_info s a (HInfo (h_cl i) (h_refcnt i - 1) (h_del i) (h_m i)) in
      if (h_refcnt i - 1 =? 0) && h_del i then delete_handle_wo s (h_m i) else Some s
  end.

(** ** Threads with handles *)

(** The handle objects of all threads; [None] for one that is gone. *)
Record hsys := HSys { hs_mgr : handle_mgr; hs_handles : list (option (option nat)) }.

Inductive hstep (s : hsys) : hsys -> Prop :=
  | hst_new m g h : get_handle (hs_mgr s) m = Some (g, h) -> hstep s (HSys g (hs_handles s ++ [Some h]))
  | hst_bind i h bound g cl : hs_handles s !! i = Some (Some h) -> safebind (hs_mgr s) h bound = Some (g, cl) -> hstep s (HSys g (hs_handles s))
  | hst_done i h g : hs_handles s !! i = Some (Some h) -> done_handle (hs_mgr s) h = Some g -> hstep s (HSys g (<[i := None]> (hs_handles s)))
  | hst_delete m g : delete_handle_wo (hs_mgr s) m = Some g -> hstep s (HSys g (hs_handles s)).

Definition handles_reachable : hsys -> Prop := rtc hstep (HSys handle_mgr_new []).

(** ** The invariant *)

Definition holds_info (a : nat) (h : option (option nat)) : bool := match h with Some (Some b) => Nat.eqb a b | _ => false end.
Definition users (s : hsys) (a : nat) : nat := tally (holds_info a) (hs_handles s).

Record handles_inv_at (g : handle_mgr) (u : nat -> nat) : Prop := {
  hi_map m a : hmap g !! m = Some a -> exists h, hinfos g !! a = Some h /\ h_m h = m;
  hi_info a h : hinfos g !! a = Some h -> hmap g !! h_m h = Some a /\ h_refcnt h = Z.of_nat (u a) /\ (a < hm_next g)%nat;
  hi_none a : hinfos g !! a = None -> u a = 0%nat }.

Lemma hinv_ext g u u' : handles_inv_at g u -> (forall a, u' a = u a) -> handles_inv_at g u'.
Proof. intros [H1 H2 H3] Hu. split; [done| |]; intros a; rewrite Hu; auto. Qed.

(** One object changes, with its count. *)
Lemma hinv_set g u u' a h h' : handles_inv_at g u -> hinfos g !! a = Some h -> h_m h' = h_m h -> h_refcnt h' = Z.of_nat (u' a) -> (forall b, b <> a -> u' b = u b) ->
  handles_inv_at (set_info g a h') u'.
Proof.
  intros [H1 H2 H3] Ha Hm Hr Hu. destruct (H2 a h Ha) as (Hmap & _ & Hlt). split; cbn.
  - intros m b Hb. destruct (H1 m b Hb) as (hb & Hhb & <-). destruct (decide (a = b)) as [<-|Hne]; [exists h'; rewrite lookup_insert_eq; by simplify_eq|exists hb; by rewrite lookup_insert_ne].
  - intros b hb. destruct (decide (a = b)) as [<-|Hne]; [rewrite lookup_insert_eq; intros [= <-]; rewrite Hm; done|]. rewrite lookup_insert_ne, Hu by congruence. apply H2.
  - intros b. destruct (decide (a = b)) as [<-|Hne]; [by rewrite lookup_insert_eq|]. rewrite lookup_insert_ne, Hu by congruence. apply H3.
Qed.

Lemma delete_ok g u m : handles_inv_at g u -> exists g', delete_handle_wo g m = Some g' /\ handles_inv_at g' u.
Proof.
  intros I. pose proof I as [H1 H2 H3]. unfold delete_handle_wo. destruct (hmap g !! m) as [a|] eqn:Hm; [|by eexists]. destruct (H1 m a Hm) as (h & Ha & Hhm). rewrite Ha. cbn [mbind option_bind].
  destruct (H2 a h Ha) as (Hmap & Hr & _). destruct (Z.eqb_spec (h_refcnt h) 0) as [E|E]; eexists; (split; [done|]).
  - split; cbn.
    + intros m' b. rewrite lookup_delete. case_decide; [done|]. intros Hb. destruct (H1 m' b Hb) as (hb & Hhb & Hmb). exists hb. split; [|done]. rewrite lookup_delete_ne; [done|]. intros <-. by simplify_eq.
    + intros b hb. rewrite lookup_delete. case_decide as Hab; [done|]. intros Hb. destruct (H2 b hb Hb) as (Hmb & ? & ?). split; [|done]. rewrite lookup_delete_ne; [done|]. intros E'. rewrite <- E' in Hmb. congruence.
    + intros b. rewrite lookup_delete. case_decide as Hab; [subst b; intros _; lia|apply H3].
  - eapply hinv_set; [exact I|exact Ha|done|done|done].
Qed.

Lemma get_handle_ok g u m : handles_inv_at g u -> exists g' h, get_handle g m = Some (g', h) /\
  handles_inv_at g' (fun a => u a + if decide (h = Some a) then 1 else 0)%nat.
Proof.
  intros I. pose proof I as [H1 H2 H3]. unfold get_handle. destruct (hmap g !! m) as [a|] eqn:Hm.
  - destruct (H1 m a Hm) as (h & Ha & Hhm). rewrite Ha. cbn [mbind option_bind]. destruct (h_del h); eexists _, _; (split; [done|]).
    + eapply hinv_ext; [exact I|]. intros b. rewrite decide_False by done. lia.
    + destruct (H2 a h Ha) as (_ & Hr & _). eapply hinv_set; [exact I|exact Ha|done| |].
      * cbn. rewrite decide_True by done. lia.
      * intros b Hb. cbn. rewrite decide_False by congruence. lia.
  - assert (Hfresh : hinfos g !! hm_next g = None) by (destruct (hinfos g !! hm_next g) as [h|] eqn:E; [|done]; destruct (H2 _ _ E) as (_ & _ & ?); lia).
    eexists _, _. split; [done|]. split; cbn.
    + intros m' b. destruct (decide (m = m')) as [<-|Hne]; [rewrite lookup_insert_eq; intros [= <-]; eexists; by rewrite lookup_insert_eq|]. rewrite lookup_insert_ne by done. intros Hb.
      destruct (H1 m' b Hb) as (hb & Hhb & ?). exists hb. rewrite lookup_insert_ne; [done|]. intros <-. congruence.
    + intros b hb. destruct (decide (hm_next g = b)) as [<-|Hne].
      * rewrite lookup_insert_eq. intros [= <-]. cbn. rewrite lookup_insert_eq. rewrite (H3 _ Hfresh). rewrite decide_True by done. split; [done|]. lia.
      * rewrite lookup_insert_ne by done. intros Hb. destruct (H2 b hb Hb) as (Hmb & ? & ?). rewrite decide_False by congruence. split; [|lia]. rewrite lookup_insert_ne; [done|]. intros ->. congruence.
    + intros b. destruct (decide (hm_next g = b)) as [<-|Hne]; [by rewrite lookup_insert_eq|]. rewrite lookup_insert_ne by done. rewrite decide_False by congruence. intros Hb. rewrite (H3 b Hb). lia.
Qed.

Lemma safebind_ok g u a bound : handles_inv_at g u -> (0 < u a)%nat -> exists g' cl, safebind g (Some a) bound = Some (g', cl) /\ handles_inv_at g' u.
Proof.
  intros I Hu. pose proof I as [H1 H2 H3]. unfold safebind. destruct (hinfos g !! a) as [i|] eqn:Ha; [|specialize (H3 a Ha); lia]. cbn [mbind option_bind]. destruct (H2 a i Ha) as (_ & Hr & _).
  destruct (h_del i); [by eexists _, _|]. destruct (h_cl i); [by eexists _, _|]. eexists _, _. split; [done|]. by eapply hinv_set.
Qed.

Lemma done_handle_ok g u u' a : handles_inv_at g u -> u a = S (u' a) -> (forall b, b <> a -> u' b = u b) -> exists g', done_handle g (Some a) = Some g' /\ handles_inv_at g' u'.
Proof.
  intros I Hu Hu'. pose proof I as [H1 H2 H3]. unfold done_handle. destruct (hinfos g !! a) as [i|] eqn:Ha; [|specialize (H3 a Ha); lia]. cbn [mbind option_bind]. destruct (H2 a i Ha) as (_ & Hr & _).
  assert (I' : handles_inv_at (set_info g a (HInfo (h_cl i) (h_refcnt i - 1) (h_del i) (h_m i))) u') by (eapply hinv_set; [exact I|exact Ha|done|cbn; lia|done]).
  destruct (_ && _); [by apply delete_ok|by eexists].
Qed.

Definition handles_inv (s : hsys) : Prop := handles_inv_at (hs_mgr s) (users s).

Lemma users_pos s i a : hs_handles s !! i = Some (Some (Some a)) -> (0 < users s a)%nat.
Proof. intros Hi. apply tally_pos. exists i, (Some (Some a)). split; [done|apply Nat.eqb_refl]. Qed.

Lemma users_done s i h a : hs_handles s !! i = Some (Some h) -> (tally (holds_info a) (<[i := None]> (hs_handles s)) + (if decide (h = Some a) then 1 else 0) = users s a)%nat.
Proof.
  intros Hi. pose proof (tally_update (holds_info a) (hs_handles s) i (Some h) None Hi) as Ht. unfold users. cbn [holds_info] in Ht.
  destruct h as [b|]; cbn [holds_info] in Ht; [|rewrite decide_False by done; lia]. destruct (Nat.eqb_spec a b); case_decide; try congruence; lia.
Qed.

Lemma hstep_done_ok s i h : handles_inv s -> hs_handles s !! i = Some (Some h) -> exists g, done_handle (hs_mgr s) h = Some g /\ handles_inv (HSys g (<[i := None]> (hs_handles s))).
Proof.
  intros I Hi. pose proof (users_done s i h) as Hu. destruct h as [a|].
  - destruct (done_handle_ok _ (users s) (fun a => tally (holds_info a) (<[i := None]> (hs_handles s))) a I) as (g & Hg & Ig).
    + specialize (Hu a Hi). rewrite decide_True in Hu by done. lia.
    + intros b Hb. specialize (Hu b Hi). rewrite decide_False in Hu by congruence. lia.
    + exists g. split; [exact Hg|exact Ig].
  - exists (hs_mgr s). split; [done|]. eapply hinv_ext; [exact I|]. intros b. specialize (Hu b Hi). rewrite decide_False in Hu by done. unfold users in *. cbn. lia.
Qed.

Lemma hstep_inv s s' : handles_inv s -> hstep s s' -> handles_inv s'.
Proof.
  intros I Hs. destruct Hs as [m g h Hg|i h bound g cl Hi Hb|i h g Hi Hd|m g Hd].
  - destruct (get_handle_ok _ _ m I) as (g' & h' & E & I'). rewrite Hg in E. injection E as <- <-. eapply hinv_ext; [exact I'|]. intros a. unfold users. cbn. rewrite tally_app, tally_cons.
    change (tally (holds_info a) []) with 0%nat. destruct h as [b|]; cbn [holds_info]; [|rewrite decide_False by done; lia]. destruct (Nat.eqb_spec a b); case_decide; try congruence; lia.
  - destruct h as [a|]; [|injection Hb as <- <-; exact I]. destruct (safebind_ok _ _ a bound I (users_pos _ _ _ Hi)) as (g' & cl' & E & I'). rewrite Hb in E. injection E as <- <-. exact I'.
  - destruct (hstep_done_ok s i h I Hi) as (g' & E & I'). rewrite Hd in E. injection E as <-. exact I'.
  - destruct (delete_ok _ _ m I) as (g' & E & I'). rewrite Hd in E. injection E as <-. exact I'.
Qed.

Lemma handles_reachable_inv s : handles_reachable s -> handles_inv s.
Proof. intros Hr. apply (rtc_ind_r handles_inv (HSys handle_mgr_new [])) with (3 := Hr); [by split|]. intros ? ? _ Hs I. by eapply hstep_inv. Qed.

(** Handles stay valid: whatever the threads do, every call finds its object: making a
    handle, binding and destroying one that exists, and forgetting a server never use a freed
    [hinfo], and the object a handle refers to is the one its server is found under. *)
Theorem handles_stay_valid s : handles_reachable s ->
  (forall m, is_Some (get_handle (hs_mgr s) m)) /\ (forall m, is_Some (delete_handle_wo (hs_mgr s) m)) /\
  (forall i h bound, hs_handles s !! i = Some (Some h) -> is_Some (safebind (hs_mgr s) h bound) /\ is_Some (done_handle (hs_mgr s) h)) /\
  (forall i a, hs_handles s !! i = Some (Some (Some a)) -> exists h, hinfos (hs_mgr s) !! a = Some h /\ hmap (hs_mgr s) !! h_m h = Some a /\ 0 < h_refcnt h).
Proof.
  intros Hr. pose proof (handles_reachable_inv _ Hr) as I. split_and!.
  - intros m. destruct (get_handle_ok _ _ m I) as (? & ? & -> & _). by eexists.
  - intros m. destruct (delete_ok _ _ m I) as (? & -> & _). by eexists.
  - intros i h bound Hi. split; [|destruct (hstep_done_ok s i h I Hi) as (? & -> & _); by eexists]. destruct h as [a|]; [|by eexists].
    destruct (safebind_ok _ _ a bound I (users_pos _ _ _ Hi)) as (? & ? & -> & _). by eexists.
  - intros i a Hi. pose proof (users_pos _ _ _ Hi) as Hu. destruct (hinfos (hs_mgr s) !! a) as [h|] eqn:Ha; [|pose proof (hi_none _ _ I a Ha); lia].
    destruct (hi_info _ _ I a h Ha) as (Hm & Hc & _). exists h. split_and!; [done|done|lia].
Qed.

(** The comment of [safebind] says that after a first call that succeeded all later ones
    return a client: not if the server is forgotten in between, so that calling it twice, as
    in the example given there, can use a null pointer. *)
Example forgotten_after_bind : exists g1 g2 g3 cl,
  get_handle handle_mgr_new "a" = Some (g1, Some 0%nat) /\ safebind g1 (Some 0%nat) (Some 7%nat) = Some (g2, Some cl) /\
  delete_handle_wo g2 "a" = Some g3 /\ safebind g3 (Some 0%nat) (Some 7%nat) = Some (g3, None).
Proof. do 4 eexists. split; [vm_compute; reflexivity|]. split; [vm_compute; reflexivity|]. split; vm_compute; reflexivity. Qed.
