(* ===== verification/PaxosAcceptor.v ===== *)
(** * The Paxos acceptor and its durable log

    Models src/mit_6.824/paxos.cc ([acceptor], the order of proposal numbers) and
    log.cc ([log]): the promise and vote state, the handlers [preparereq],
    [acceptreq] and [decidereq], [commit], and the text log that every change is
    appended to and that [logread] replays after a restart. *)

From Stdlib Require Import ZArith Lia Ascii String.
From stdpp Require Import base list strings gmap sets.
From S2P Require Import Prelude Marshall Protocols IoStream.
Import paxos_protocol.

Local Open Scope Z_scope.
Local Open Scope cpp_scope.

(** ** The order of proposal numbers *)

Definition prop_gt (a b : prop_t) : bool :=
  (pn b <? pn a) || ((pn a =? pn b) && str_lt (pm b) (pm a)).
Definition prop_ge (a b : prop_t) : bool :=
  (pn b <? pn a) || ((pn a =? pn b) && negb (str_lt (pm a) (pm b))).

Lemma prop_gt_irrefl a : prop_gt a a = false.
Proof. unfold prop_gt. rewrite str_lt_irrefl. lia. Qed.

Lemma prop_gt_trans a b c : prop_gt a b = true -> prop_gt b c = true -> prop_gt a c = true.
Proof.
  unfold prop_gt. rewrite !orb_true_iff, !andb_true_iff, !Z.ltb_lt, !Z.eqb_eq.
  intros [?|[? H1]] [?|[? H2]]; try (left; lia).
  right. split; [lia|]. by eapply str_lt_trans.
Qed.

Lemma prop_ge_spec a b : prop_ge a b = true <-> a = b \/ prop_gt a b = true.
Proof.
  unfold prop_ge, prop_gt. destruct a as [n m], b as [n' m']. cbn [pn pm].
  rewrite !orb_true_iff, !andb_true_iff, negb_true_iff, !Z.ltb_lt, !Z.eqb_eq. split.
  - intros [?|[-> Hlt]]; [auto|]. destruct (str_lt m' m) eqn:Hgt; [auto|].
    left. f_equal. symmetry. by apply str_lt_total.
  - intros [[= -> ->]|[?|[? Hgt]]]; [|auto|]; right; (split; [done|]).
    + apply str_lt_irrefl.
    + destruct (str_lt m m') eqn:Hlt; [|done].
      pose proof (str_lt_trans _ _ _ Hlt Hgt) as Hc. by rewrite str_lt_irrefl in Hc.
Qed.

Lemma prop_ge_gt a b : prop_ge a b = negb (prop_gt b a).
Proof.
  destruct (prop_gt b a) eqn:Hgt; simpl.
  - destruct (prop_ge a b) eqn:Hge; [|done]. apply prop_ge_spec in Hge as [->|Hge].
    + by rewrite prop_gt_irrefl in Hgt.
    + pose proof (prop_gt_trans _ _ _ Hgt Hge) as H. by rewrite prop_gt_irrefl in H.
  - unfold prop_gt, prop_ge in *. destruct (str_lt (pm a) (pm b)); simpl in *; lia.
Qed.

(** ** State *)

Record acceptor := Acceptor {
  a_me : string;
  a_n_h : prop_t;
  a_n_a : prop_t;
  a_v_a : string;
  a_instance_h : Z;
  a_values : gmap Z string;
  a_log : list ascii }.

(** [values[i]]: a missing key reads as the empty string. *)
Definition value_at (a : acceptor) (i : Z) : string := default ""%string (a_values a !! i).

(** ** The log *)

Definition text (s : string) : list ascii := bytes_of s.

Definition loginstance (f : list ascii) (instance : Z) (v : string) : list ascii :=
  f ++ text "done" ++ text " " ++ print_unsigned instance ++ text " " ++ text v ++ [newline].
Definition logprop (f : list ascii) (n_h : prop_t) : list ascii :=
  f ++ text "propseen" ++ text " " ++ print_unsigned (pn n_h) ++ text " " ++ text (pm n_h) ++ [newline].
Definition logaccept (f : list ascii) (n : prop_t) (v : string) : list ascii :=
  f ++ text "accepted" ++ text " " ++ print_unsigned (pn n) ++ text " " ++ text (pm n) ++
    text " " ++ text v ++ [newline].

(** One turn of the loop of [log::logread] after a record type was read; an
    unknown type stops the process.  [inst] is the local variable [instance]. *)
Definition logread_record (type : string) (s : istream) (inst : Z) (a : acceptor)
    : option (istream * Z * acceptor) :=
  if String.eqb type "done" then
    let '(s, inst) := read_unsigned s inst in
    let s := get_char_stream s in
    let '(s, v) := getline s "" in
    Some (s, inst, Acceptor (a_me a) (Prop_t 0 (pm (a_n_h a))) (Prop_t 0 (pm (a_n_a a))) ""
                     inst (<[inst := v]> (a_values a)) (a_log a))
  else if String.eqb type "propseen" then
    let '(s, n) := read_unsigned s (pn (a_n_h a)) in
    let '(s, m) := read_word s (pm (a_n_h a)) in
    Some (s, inst, Acceptor (a_me a) (Prop_t n m) (a_n_a a) (a_v_a a) (a_instance_h a) (a_values a)
                     (a_log a))
  else if String.eqb type "accepted" then
    let '(s, n) := read_unsigned s (pn (a_n_a a)) in
    let '(s, m) := read_word s (pm (a_n_a a)) in
    let s := get_char_stream s in
    let '(s, v) := getline s "" in
    Some (s, inst, Acceptor (a_me a) (a_n_h a) (Prop_t n m) v (a_instance_h a) (a_values a) (a_log a))
  else None.

Fixpoint logread_loop (fuel : nat) (s : istream) (type : string) (inst : Z) (a : acceptor)
    : option acceptor :=
  match fuel with
  | O => None
  | Datatypes.S fuel' =>
      let '(s, type) := read_word s type in
      if is_ok s then
        '(s, inst, a) ← logread_record type s inst a;
        logread_loop fuel' s type inst a
      else Some a
  end.

(** Every turn reads a non-empty record type, so the length of the file plus one
    turn for the end is enough fuel.  [junk] is the initial value of [instance]. *)
Definition logread (junk : Z) (a : acceptor) : option acceptor :=
  logread_loop (Datatypes.S (length (a_log a))) (open_stream (a_log a)) "" junk a.

Fixpoint dump_loop (fuel : nat) (s : istream) (v res : string) : string :=
  match fuel with
  | O => res
  | Datatypes.S fuel' =>
      let '(s, v) := getline s v in
      if is_ok s then dump_loop fuel' s v (String.append (String.append res v) (String newline ""))
      else res
  end.
Definition dump (a : acceptor) : string :=
  dump_loop (Datatypes.S (length (a_log a))) (open_stream (a_log a)) "" "".

Definition set_log (a : acceptor) (f : list ascii) : acceptor :=
  Acceptor (a_me a) (a_n_h a) (a_n_a a) (a_v_a a) (a_instance_h a) (a_values a) f.

(** [acceptor::restore]: replace the log file, then replay it on the current state. *)
Definition restore (junk : Z) (a : acceptor) (s : string) : option acceptor :=
  logread junk (set_log a (bytes_of s)).

(** ** Operations *)

(** The constructor: [file] is what the log file holds when the process starts. *)
Definition acceptor_new (junk : Z) (file : list ascii) (first : bool) (me value : string)
    : option acceptor :=
  a ← logread junk (Acceptor me (Prop_t 0 me) (Prop_t 0 me) "" 0 ∅ file);
  if (a_instance_h a =? 0) && first
  then Some (Acceptor me (a_n_h a) (a_n_a a) (a_v_a a) 1 (<[1 := value]> (a_values a))
               (loginstance (a_log a) 1 value))
  else Some a.

(** [acceptor::commit_wo]; the second component is the upcall [paxos_commit]. *)
Definition commit_wo (a : acceptor) (instance : Z) (value : string) : acceptor * list (Z * string) :=
  if a_instance_h a <? instance
  then (Acceptor (a_me a) (Prop_t 0 (a_me a)) (Prop_t 0 (a_me a)) "" instance
          (<[instance := value]> (a_values a)) (loginstance (a_log a) instance value),
        [(instance, value)])
  else (a, []).
Definition commit := commit_wo.

(** [acceptor::preparereq]; [r] is the result object as the RPC stub made it. *)
Definition preparereq (a : acceptor) (arg : preparearg) (r : prepareres) : acceptor * prepareres :=
  if pa_instance arg <=? a_instance_h a then
    (Acceptor (a_me a) (a_n_h a) (a_n_a a) (a_v_a a) (a_instance_h a)
       (<[pa_instance arg := value_at a (pa_instance arg)]> (a_values a)) (a_log a),
     PrepareRes true (pr_accept r) (pr_n_a r) (value_at a (pa_instance arg)))
  else if prop_gt (pa_n arg) (a_n_h a) then
    (Acceptor (a_me a) (pa_n arg) (a_n_a a) (a_v_a a) (a_instance_h a) (a_values a)
       (logprop (a_log a) (pa_n arg)),
     PrepareRes false true (a_n_a a) (a_v_a a))
  else (a, PrepareRes false false (pr_n_a r) (pr_v_a r)).

Definition acceptreq (a : acceptor) (arg : acceptarg) : acceptor * bool :=
  if prop_ge (aa_n arg) (a_n_h a) then
    (Acceptor (a_me a) (a_n_h a) (aa_n arg) (aa_v arg) (a_instance_h a) (a_values a)
       (logaccept (a_log a) (aa_n arg) (aa_v arg)), true)
  else (a, false).

(** [acceptor::decidereq]; [None] is a failed [VERIFY]. *)
Definition decidereq (a : acceptor) (arg : decidearg) : option (acceptor * list (Z * string)) :=
  if da_instance arg =? wrap 32 (a_instance_h a + 1) then
    VERIFY! String.eqb (a_v_a a) (da_v arg) ;;
    Some (commit_wo a (da_instance arg) (a_v_a a))
  else if da_instance arg <=? a_instance_h a then Some (a, [])
  else None.

(** ** Equivalence of acceptor states *)

(** [logread] does not reset the node part of a proposal number when it resets its
    round to 0, so a replayed state agrees with the state in memory only up to the
    node part of numbers of round 0, which no proposer uses. *)
Definition prop_equiv (a b : prop_t) : Prop := pn a = pn b /\ (pn a <> 0 -> pm a = pm b).
Record acc_equiv (a b : acceptor) : Prop := {
  ae_me : a_me a = a_me b;
  ae_n_h : prop_equiv (a_n_h a) (a_n_h b);
  ae_n_a : prop_equiv (a_n_a a) (a_n_a b);
  ae_v_a : a_v_a a = a_v_a b;
  ae_instance_h : a_instance_h a = a_instance_h b;
  ae_values i : value_at a i = value_at b i }.

#[export] Instance prop_equiv_equivalence : Equivalence prop_equiv.
Proof.
  split; unfold prop_equiv.
  - by intros a.
  - intros a b [H1 H2]. rewrite <-H1. split; [done|]. intros Ha. by rewrite H2.
  - intros a b c [H1 H2] [H3 H4]. split; [congruence|]. intros Ha. rewrite H2 by done. apply H4. congruence.
Qed.

#[export] Instance acc_equiv_equivalence : Equivalence acc_equiv.
Proof.
  split.
  - intros a. by split.
  - intros a b []. split; by symmetry.
  - intros a b c [] []. split; [congruence|by etransitivity|by etransitivity|congruence|congruence|].
    intros i. congruence.
Qed.

Lemma prop_gt_equiv n a b : 1 <= pn n -> prop_equiv a b -> prop_gt n a = prop_gt n b.
Proof.
  intros Hn [H1 H2]. unfold prop_gt. rewrite <-H1.
  destruct (Z.eqb_spec (pn n) (pn a)) as [Heq|]; [|done]. rewrite H2 by lia. done.
Qed.

Lemma prop_ge_equiv n a b : 1 <= pn n -> prop_equiv a b -> prop_ge n a = prop_ge n b.
Proof.
  intros Hn [H1 H2]. unfold prop_ge. rewrite <-H1.
  destruct (Z.eqb_spec (pn n) (pn a)) as [Heq|]; [|done]. rewrite H2 by lia. done.
Qed.

Definition res_equiv (r s : prepareres) : Prop :=
  pr_oldinstance r = pr_oldinstance s /\ pr_accept r = pr_accept s /\
  prop_equiv (pr_n_a r) (pr_n_a s) /\ pr_v_a r = pr_v_a s.

(** The handlers cannot tell equivalent states apart, for the proposal numbers
    that proposers use. *)
Lemma preparereq_equiv a b arg r : 1 <= pn (pa_n arg) -> acc_equiv a b ->
  acc_equiv (preparereq a arg r).1 (preparereq b arg r).1 /\
  res_equiv (preparereq a arg r).2 (preparereq b arg r).2.
Proof.
  intros Hn [H1 H2 H3 H4 H5 H6]. unfold preparereq, res_equiv.
  rewrite <-H5, (prop_gt_equiv _ _ _ Hn H2). case_bool.
  - split; [split; try done; cbn [fst]|cbn [snd pr_oldinstance pr_accept pr_n_a pr_v_a]; by rewrite H6].
    intros i. unfold value_at in *. cbn [a_values]. rewrite !lookup_insert. rewrite H6. by case_decide.
  - destruct (prop_gt _ _); split; try done; by split.
Qed.

Lemma acceptreq_equiv a b arg : 1 <= pn (aa_n arg) -> acc_equiv a b ->
  acc_equiv (acceptreq a arg).1 (acceptreq b arg).1 /\ (acceptreq a arg).2 = (acceptreq b arg).2.
Proof.
  intros Hn [H1 H2 H3 H4 H5 H6]. unfold acceptreq. rewrite (prop_ge_equiv _ _ _ Hn H2).
  destruct (prop_ge _ _); split; try done; by split.
Qed.

Lemma commit_wo_equiv a b i v : acc_equiv a b ->
  acc_equiv (commit_wo a i v).1 (commit_wo b i v).1 /\ (commit_wo a i v).2 = (commit_wo b i v).2.
Proof.
  intros [H1 H2 H3 H4 H5 H6]. unfold commit_wo. rewrite <-H5, <-H1.
  case_bool; split; try done; split; try done.
  intros j. unfold value_at in *. cbn [fst a_values]. rewrite !lookup_insert. by case_decide.
Qed.

(** ** Replaying the log *)

Inductive record :=
  | RDone (i : Z) (v : string)
  | RProp (n : prop_t)
  | RAccept (n : prop_t) (v : string).

Definition record_wf (r : record) : Prop :=
  match r with
  | RDone i v => in_u32 i /\ one_line v
  | RProp n => in_u32 (pn n) /\ is_token (pm n)
  | RAccept n v => in_u32 (pn n) /\ is_token (pm n) /\ one_line v
  end.

Definition append_record (f : list ascii) (r : record) : list ascii :=
  match r with
  | RDone i v => loginstance f i v
  | RProp n => logprop f n
  | RAccept n v => logaccept f n v
  end.

(** What [logread] does with a record. *)
Definition replay (a : acceptor) (r : record) : acceptor :=
  match r with
  | RDone i v => Acceptor (a_me a) (Prop_t 0 (pm (a_n_h a))) (Prop_t 0 (pm (a_n_a a))) "" i
                   (<[i := v]> (a_values a)) (a_log a)
  | RProp n => Acceptor (a_me a) n (a_n_a a) (a_v_a a) (a_instance_h a) (a_values a) (a_log a)
  | RAccept n v => Acceptor (a_me a) (a_n_h a) n v (a_instance_h a) (a_values a) (a_log a)
  end.

Lemma append_record_app f r : append_record f r = f ++ append_record [] r.
Proof. by destruct r. Qed.

(** The characters of a record type and of separators. *)
Lemma type_token s : existsb isspace (bytes_of s) = false -> s <> ""%string -> is_token s.
Proof.
  intros Hs Hne. split; [done|]. apply Forall_forall. intros c Hc.
  destruct (isspace c) eqn:E; [|done]. assert (existsb isspace (bytes_of s) = true); [|congruence].
  apply existsb_exists. exists c. split; [by apply list_elem_of_In|done].
Qed.

Lemma one_line_check s : existsb (Ascii.eqb newline) (bytes_of s) = false -> one_line s.
Proof.
  intros Hs Hin. assert (existsb (Ascii.eqb newline) (bytes_of s) = true); [|congruence].
  apply existsb_exists. exists newline. split; [by apply list_elem_of_In|apply Ascii.eqb_refl].
Qed.

Lemma read_unsigned_space n sep rest cur : in_u32 n -> isspace sep = true ->
  read_unsigned (IStream (" "%char :: print_unsigned n ++ sep :: rest) false false) cur =
    (IStream (sep :: rest) false false, n).
Proof. intros. apply (read_unsigned_print [" "%char]); [by repeat constructor|done|done]. Qed.

Lemma read_word_space s sep rest cur : is_token s -> isspace sep = true ->
  read_word (IStream (" "%char :: bytes_of s ++ sep :: rest) false false) cur =
    (IStream (sep :: rest) false false, s).
Proof. intros. apply (read_word_token [" "%char]); [by repeat constructor|done|done]. Qed.

(** The text of a record. *)
Definition record_type (r : record) : string :=
  match r with RDone _ _ => "done" | RProp _ => "propseen" | RAccept _ _ => "accepted" end.
Definition record_fields (r : record) (rest : list ascii) : list ascii :=
  match r with
  | RDone i v => print_unsigned i ++ " "%char :: bytes_of v ++ newline :: rest
  | RProp n => print_unsigned (pn n) ++ " "%char :: bytes_of (pm n) ++ newline :: rest
  | RAccept n v =>
      print_unsigned (pn n) ++ " "%char :: bytes_of (pm n) ++ " "%char :: bytes_of v ++ newline :: rest
  end.

Lemma append_record_text r rest :
  append_record [] r ++ rest = bytes_of (record_type r) ++ " "%char :: record_fields r rest.
Proof.
  destruct r; cbn [append_record record_type record_fields];
    unfold loginstance, logprop, logaccept, text; rewrite app_nil_l, <-!app_assoc; reflexivity.
Qed.

Lemma record_type_token r : is_token (record_type r).
Proof. by destruct r; apply type_token. Qed.

(** One record: after its type, [logread] reads the fields and stops at the next
    record, up to white space. *)
Lemma logread_one r rest inst a : record_wf r -> exists inst' sp',
  logread_record (record_type r) (IStream (" "%char :: record_fields r rest) false false) inst a =
    Some (IStream (sp' ++ rest) false false, inst', replay a r) /\ all_spaces sp'.
Proof.
  destruct r as [i v|n|n v]; cbn [record_wf record_type record_fields]; unfold logread_record;
    cbn [String.eqb Ascii.eqb Bool.eqb].
  - intros [Hi Hv]. exists i, []. rewrite (read_unsigned_space i " "%char) by done.
    cbn [get_char_stream is_good is_eof is_fail is_rest negb andb]. rewrite getline_line by done.
    split; [done|constructor].
  - intros [Hn Hm]. exists inst, [newline]. rewrite (read_unsigned_space (pn n) " "%char) by done.
    rewrite (read_word_space (pm n) newline) by done. split; [by destruct n|by repeat constructor].
  - intros (Hn & Hm & Hv). exists inst, []. rewrite (read_unsigned_space (pn n) " "%char) by done.
    rewrite (read_word_space (pm n) " "%char) by done.
    cbn [get_char_stream is_good is_eof is_fail is_rest negb andb]. rewrite getline_line by done.
    split; [by destruct n|constructor].
Qed.

Definition records_text (rs : list record) : list ascii := foldl append_record [] rs.

Lemma records_text_app f rs : foldl append_record f rs = f ++ records_text rs.
Proof.
  unfold records_text. revert f. induction rs as [|r rs IH]; intros f; cbn [foldl]; [by rewrite app_nil_r|].
  rewrite IH, (IH (append_record [] r)), (append_record_app f). by rewrite <-app_assoc.
Qed.

Lemma logread_records rs : Forall record_wf rs -> forall fuel sp type inst a,
  all_spaces sp -> (length rs < fuel)%nat ->
  logread_loop fuel (IStream (sp ++ records_text rs) false false) type inst a = Some (foldl replay a rs).
Proof.
  induction 1 as [|r rs Hr _ IH]; intros fuel sp type inst a Hsp Hf; (destruct fuel as [|fuel]; [simpl in Hf; lia|]).
  - cbn [logread_loop records_text foldl]. rewrite app_nil_r, read_word_end by done. done.
  - cbn [logread_loop foldl]. unfold records_text. cbn [foldl]. rewrite records_text_app, append_record_text.
    rewrite (read_word_token sp (record_type r) " "%char) by (done || apply record_type_token).
    cbn [is_ok is_fail negb]. destruct (logread_one r (records_text rs) inst a Hr) as (inst' & sp' & -> & Hsp').
    cbn [mbind option_bind]. apply IH; [done|]. simpl in Hf. lia.
Qed.

Lemma records_text_length rs : (length rs <= length (records_text rs))%nat.
Proof.
  induction rs as [|r rs IH]; [simpl; lia|]. unfold records_text. cbn [foldl].
  rewrite records_text_app, append_record_text, length_app. cbn [length].
  assert (Hl : (length (records_text rs) <= length (record_fields r (records_text rs)))%nat).
  { destruct r; cbn [record_fields]; repeat (rewrite length_app; cbn [length]); lia. }
  lia.
Qed.

#[export] Instance replay_proper : Proper (acc_equiv ==> eq ==> acc_equiv) replay.
Proof.
  intros a b [H1 H2 H3 H4 H5 H6] r ? <-. destruct r as [i v|n|n v]; split; try done.
  intros j. unfold value_at in *. cbn [replay a_values]. rewrite !lookup_insert. by case_decide.
Qed.

Lemma replay_all_proper rs a b : acc_equiv a b -> acc_equiv (foldl replay a rs) (foldl replay b rs).
Proof. revert a b. induction rs as [|r rs IH]; intros a b Hab; cbn [foldl]; [done|]. apply IH. by rewrite Hab. Qed.

(** The state a process has before it reads its log. *)
Definition blank (me : string) (file : list ascii) : acceptor :=
  Acceptor me (Prop_t 0 me) (Prop_t 0 me) "" 0 ∅ file.

(** The log tells the state: replaying it from scratch gives the state in memory. *)
Definition log_ok (a : acceptor) : Prop :=
  exists rs, Forall record_wf rs /\ a_log a = records_text rs /\
    acc_equiv (foldl replay (blank (a_me a) []) rs) a.

Lemma log_ok_append a a' r : log_ok a -> record_wf r -> a_log a' = append_record (a_log a) r ->
  acc_equiv (replay a r) a' -> log_ok a'.
Proof.
  intros (rs & Hrs & Hl & Heq) Hr Hl' Heq'. exists (rs ++ [r]). split_and!.
  - by apply Forall_app; split; [|apply Forall_singleton].
  - rewrite Hl', Hl. unfold records_text. by rewrite foldl_app.
  - assert (a_me a' = a_me a) as -> by (rewrite <-(ae_me _ _ Heq'); by destruct r).
    rewrite foldl_app. cbn [foldl]. etransitivity; [|exact Heq']. by apply replay_proper.
Qed.

Lemma log_ok_equiv a a' : log_ok a -> a_log a' = a_log a -> acc_equiv a a' -> log_ok a'.
Proof.
  intros (rs & Hrs & Hl & Heq) Hl' Heq'. exists rs. rewrite <-(ae_me _ _ Heq'), Hl'.
  split_and!; [done..|]. by etransitivity.
Qed.

Lemma logread_ok a : log_ok a -> forall junk, exists a',
  logread junk (blank (a_me a) (a_log a)) = Some a' /\ acc_equiv a' a /\ a_log a' = a_log a.
Proof.
  intros (rs & Hrs & Hl & Heq) junk. unfold logread. cbn [blank a_log open_stream]. rewrite Hl.
  exists (foldl replay (blank (a_me a) (records_text rs)) rs). split_and!.
  - apply (logread_records rs Hrs _ []); [constructor|]. pose proof (records_text_length rs). lia.
  - etransitivity; [|exact Heq]. by apply replay_all_proper.
  - assert (Hlog : forall b, a_log (foldl replay b rs) = a_log b); [|by rewrite Hlog].
    clear. induction rs as [|r rs IH]; intros b; [done|]. cbn [foldl]. rewrite IH. by destruct r.
Qed.

Lemma log_ok_commit a i v : log_ok a -> in_u32 i -> one_line v -> log_ok (commit_wo a i v).1.
Proof.
  intros Ha Hi Hv. unfold commit_wo. case_bool; [|done].
  by apply (log_ok_append a _ (RDone i v)); [|split| |split].
Qed.

Lemma log_ok_prepare a arg r : log_ok a -> in_u32 (pn (pa_n arg)) -> is_token (pm (pa_n arg)) ->
  log_ok (preparereq a arg r).1.
Proof.
  intros Ha Hn Hm. unfold preparereq. case_bool; [|destruct (prop_gt _ _); [|done]]; cbn [fst].
  - apply (log_ok_equiv a); [done|done|]. split; try done.
    intros i. unfold value_at. cbn [a_values]. rewrite lookup_insert. case_decide; [by subst|done].
  - by apply (log_ok_append a _ (RProp (pa_n arg))); [|split| |split].
Qed.

Lemma log_ok_accept a arg : log_ok a -> in_u32 (pn (aa_n arg)) -> is_token (pm (aa_n arg)) ->
  one_line (aa_v arg) -> log_ok (acceptreq a arg).1.
Proof.
  intros Ha Hn Hm Hv. unfold acceptreq. destruct (prop_ge _ _); [|done]. cbn [fst].
  by apply (log_ok_append a _ (RAccept (aa_n arg) (aa_v arg))); [|split_and!| |split].
Qed.

Lemma decidereq_Some a arg a' ups : decidereq a arg = Some (a', ups) ->
  (a', ups) = commit_wo a (da_instance arg) (da_v arg) \/ (a', ups) = (a, []).
Proof.
  unfold decidereq, VERIFY. destruct (_ =? _); [|case_bool; [|done]].
  - destruct (String.eqb_spec (a_v_a a) (da_v arg)) as [->|]; [|done]. intros [= ?]. by left.
  - intros [= -> ->]. by right.
Qed.

(** What can happen to the acceptor object of a running process; messages carry
    node names without white space and values without newlines. *)
Inductive acc_step : acceptor -> acceptor -> Prop :=
  | as_prepare a arg r : in_u32 (pn (pa_n arg)) -> is_token (pm (pa_n arg)) ->
      acc_step a (preparereq a arg r).1
  | as_accept a arg : in_u32 (pn (aa_n arg)) -> is_token (pm (aa_n arg)) -> one_line (aa_v arg) ->
      acc_step a (acceptreq a arg).1
  | as_decide a arg a' ups : in_u32 (da_instance arg) -> one_line (da_v arg) ->
      decidereq a arg = Some (a', ups) -> acc_step a a'
  | as_commit a i v : in_u32 i -> one_line v -> acc_step a (commit a i v).1.

Definition acc_inv (first : bool) (me : string) (a : acceptor) : Prop :=
  log_ok a /\ a_me a = me /\ 0 <= a_instance_h a /\ (first = true -> a_instance_h a <> 0).

Lemma commit_wo_inv first me a i v : acc_inv first me a -> in_u32 i -> one_line v ->
  acc_inv first me (commit_wo a i v).1.
Proof.
  intros (Hl & Hm & Hh & Hf) Hi Hv. split; [by apply log_ok_commit|].
  unfold commit_wo, in_u32 in *. case_bool; cbn [fst a_me a_instance_h]; auto with lia.
Qed.

Lemma acc_step_inv first me a a' : acc_step a a' -> acc_inv first me a -> acc_inv first me a'.
Proof.
  intros Hs Ha. destruct Hs as [a arg r Hn Hm|a arg Hn Hm Hv|a arg a' ups Hi Hv Hd|a i v Hi Hv].
  - destruct Ha as (Hl & Ha). split; [by apply log_ok_prepare|].
    unfold preparereq. case_bool; [done|]. by destruct (prop_gt _ _).
  - destruct Ha as (Hl & Ha). split; [by apply log_ok_accept|].
    unfold acceptreq. by destruct (prop_ge _ _).
  - apply decidereq_Some in Hd as [Hd|Hd].
    + assert (a' = (commit_wo a (da_instance arg) (da_v arg)).1) as -> by (by rewrite <-Hd).
      by apply commit_wo_inv.
    + by injection Hd as -> ->.
  - by apply commit_wo_inv.
Qed.

Lemma acceptor_new_inv junk first me value a : one_line value ->
  acceptor_new junk [] first me value = Some a -> acc_inv first me a.
Proof.
  intros Hv. assert (Hb : log_ok (blank me [])) by (by exists []).
  unfold acceptor_new. change (logread _ _) with (Some (blank me [])). cbn [mbind option_bind].
  destruct first; cbn; intros [= <-].
  - split_and!; try done. by apply (log_ok_append (blank me []) _ (RDone 1 value)); [|split| |split].
  - by split_and!.
Qed.

(** C33.  The log recovers the acceptor: whatever promises, votes and commits a
    process has made, a new process started on its log file gets a state that no
    message can distinguish from the one that was lost. *)
Theorem log_recovery junk junk' first me value a0 a : one_line value ->
  acceptor_new junk [] first me value = Some a0 -> rtc acc_step a0 a ->
  exists a', acceptor_new junk' (a_log a) first me value = Some a' /\ acc_equiv a' a /\ a_log a' = a_log a.
Proof.
  intros Hv H0 Hsteps. apply acceptor_new_inv in H0; [|done].
  assert (Ha : acc_inv first me a).
  { induction Hsteps as [|a1 a2 a3 Hs _ IH]; [done|]. by eapply IH, acc_step_inv. }
  destruct Ha as (Hl & <- & Hh & Hf). destruct (logread_ok a Hl junk') as (a' & Hr & Heq & Hlog).
  exists a'. split_and!; [|done..]. unfold acceptor_new.
  change (logread junk' _) with (logread junk' (blank (a_me a) (a_log a))). rewrite Hr. cbn [mbind option_bind].
  rewrite (ae_instance_h _ _ Heq). destruct first; [|by rewrite andb_false_r].
  destruct (Z.eqb_spec (a_instance_h a) 0) as [E|]; [by destruct (Hf eq_refl)|done].
Qed.

(**  A restarted acceptor answers like the one that crashed: states that
    [log_recovery] relates give the same replies and stay related, for every
    prepare and accept message of a proposer (rounds start at 1) and for every
    decide and commit. *)
Theorem equiv_acceptors_agree a b parg r aarg darg i v :
  1 <= pn (pa_n parg) -> 1 <= pn (aa_n aarg) -> acc_equiv a b ->
  (acc_equiv (preparereq a parg r).1 (preparereq b parg r).1 /\
   res_equiv (preparereq a parg r).2 (preparereq b parg r).2) /\
  (acc_equiv (acceptreq a aarg).1 (acceptreq b aarg).1 /\ (acceptreq a aarg).2 = (acceptreq b aarg).2) /\
  (acc_equiv (commit a i v).1 (commit b i v).1 /\ (commit a i v).2 = (commit b i v).2) /\
  match decidereq a darg, decidereq b darg with
  | Some (a', ups), Some (b', ups') => acc_equiv a' b' /\ ups = ups'
  | None, None => True
  | _, _ => False
  end.
Proof.
  intros Hp Ha Heq. split_and!; [by apply preparereq_equiv|by apply preparereq_equiv
    |by apply acceptreq_equiv|by apply acceptreq_equiv|by apply commit_wo_equiv|by apply commit_wo_equiv|].
  unfold decidereq, VERIFY. rewrite <-(ae_instance_h _ _ Heq), <-(ae_v_a _ _ Heq).
  destruct (_ =? _); [|by case_bool]. destruct (String.eqb _ _); [|done].
  destruct (commit_wo_equiv a b (da_instance darg) (a_v_a a) Heq) as [H1 H2].
  destruct (commit_wo a _ _), (commit_wo b _ _). by split.
Qed.

(** ** Sending the log to a node that joins *)

(** [a'] is what a node in state [a] has after restoring the log of [d]: records that
    give [d] when they are replayed from scratch are replayed on top of [a]. *)
Definition restored (a d a' : acceptor) : Prop :=
  exists rs, acc_equiv (foldl replay (blank (a_me d) []) rs) d /\ acc_equiv (foldl replay a rs) a'.

Lemma span_line_last f : f <> [] -> last f = Some newline ->
  exists w r, span_line f = (w, r, true) /\ f = w ++ newline :: r /\ (r = [] \/ last r = Some newline).
Proof.
  induction f as [|c f IH]; intros Hne Hl; [done|]. cbn [span_line].
  destruct (Ascii.eqb_spec c newline) as [->|Hc].
  - exists [], f. split_and!; [done|done|]. destruct f as [|c' f]; [by left|right; exact Hl].
  - destruct f as [|c' f]; [cbn in Hl; congruence|].
    destruct (IH ltac:(done) Hl) as (w & r & -> & -> & Hr). by exists (c :: w), r.
Qed.

Lemma str_of_app l1 l2 : str_of (l1 ++ l2) = String.append (str_of l1) (str_of l2).
Proof. induction l1 as [|c l1 IH]; [done|]. exact (f_equal (String c) IH). Qed.
Lemma append_assoc (a b c : string) : String.append (String.append a b) c = String.append a (String.append b c).
Proof. induction a as [|x a IH]; [done|]. exact (f_equal (String x) IH). Qed.
Lemma append_nil_r (a : string) : String.append a "" = a.
Proof. induction a as [|x a IH]; [done|]. exact (f_equal (String x) IH). Qed.

Lemma dump_loop_text fuel : forall f v res, (length f < fuel)%nat -> f = [] \/ last f = Some newline ->
  dump_loop fuel (IStream f false false) v res = String.append res (str_of f).
Proof.
  induction fuel as [|fuel IH]; intros f v res Hf Hl; [lia|]. cbn [dump_loop].
  destruct (decide (f = [])) as [->|Hne]; [by rewrite append_nil_r|].
  destruct Hl as [?|Hl]; [done|]. destruct (span_line_last f Hne Hl) as (w & r & Hs & -> & Hr).
  unfold getline. cbn [is_good is_eof is_fail is_rest negb andb]. rewrite Hs. cbn [negb andb is_ok is_fail].
  rewrite IH; [|rewrite length_app in Hf; cbn in Hf; lia|done].
  rewrite str_of_app. rewrite !append_assoc. done.
Qed.

Lemma append_record_last f r : last (append_record f r) = Some newline.
Proof. destruct r; cbn; unfold loginstance, logprop, logaccept; rewrite !app_assoc; by rewrite last_snoc. Qed.

Lemma records_text_last rs : records_text rs = [] \/ last (records_text rs) = Some newline.
Proof.
  destruct rs as [|r rs _] using rev_ind; [by left|right].
  unfold records_text. rewrite foldl_app. cbn [foldl]. apply append_record_last.
Qed.

(** States that agree on their instance, promise and vote. *)
Definition same_votes (a b : acceptor) : Prop :=
  prop_equiv (a_n_h a) (a_n_h b) /\ prop_equiv (a_n_a a) (a_n_a b) /\ a_v_a a = a_v_a b /\
  a_instance_h a = a_instance_h b.

Definition is_done (r : record) : bool := match r with RDone _ _ => true | _ => false end.

(** Replay gives the same votes on top of the same votes, and on top of anything once it
    has come to a decision. *)
Lemma replay_votes rs : forall a b, same_votes a b \/ existsb is_done rs = true ->
  same_votes (foldl replay a rs) (foldl replay b rs).
Proof.
  induction rs as [|r rs IH]; intros a b Hab; cbn [foldl]; [by destruct Hab|]. apply IH.
  destruct Hab as [(H2 & H3 & H4 & H5)|Hd]; [left; destruct r; by split_and!|].
  cbn in Hd. destruct r as [i v|n|n v]; [left; by split_and!|by right..].
Qed.

Lemma replay_instance rs : forall a, existsb is_done rs = false -> a_instance_h (foldl replay a rs) = a_instance_h a.
Proof.
  induction rs as [|r rs IH]; intros a Hd; cbn [foldl]; [done|]. cbn in Hd. apply orb_false_iff in Hd as [Hr Hd].
  rewrite IH by done. by destruct r.
Qed.

Lemma replay_values rs i : forall a b, value_at (foldl replay a rs) i = value_at (foldl replay b rs) i \/
  (value_at (foldl replay a rs) i = value_at a i /\ value_at (foldl replay b rs) i = value_at b i).
Proof.
  induction rs as [|r rs IH]; intros a b; cbn [foldl]; [by right|].
  destruct (IH (replay a r) (replay b r)) as [?|[-> ->]]; [by left|]. destruct r as [j v|n|n v]; [|by right..].
  unfold value_at. cbn [replay a_values]. rewrite !lookup_insert. case_decide; [by left|by right].
Qed.

(** What a node has after restoring the log of [d], when [d] has decided something or the
    node itself is new: the votes of [d], and its values beside those [d] does not have. *)
Lemma restored_votes a d a' : restored a d a' ->
  1 <= a_instance_h d \/ same_votes a (blank (a_me d) []) -> same_votes a' d.
Proof.
  intros (rs & Hd & Ha) Hc. assert (Hs : same_votes (foldl replay a rs) (foldl replay (blank (a_me d) []) rs)).
  { apply replay_votes. destruct Hc as [Hi|?]; [right|by left]. destruct (existsb is_done rs) eqn:E; [done|].
    rewrite <-(ae_instance_h _ _ Hd), (replay_instance rs _ E) in Hi. cbn in Hi. lia. }
  destruct Hs as (H1 & H2 & H3 & H4), Hd as [_ D1 D2 D3 D4 _], Ha as [_ A1 A2 A3 A4 _].
  split_and!; [|etransitivity; [by symmetry|]; by etransitivity|congruence..].
  etransitivity; [by symmetry|]; by etransitivity.
Qed.
Lemma restored_values a d a' i : restored a d a' ->
  value_at a' i = value_at d i \/ (value_at d i = ""%string /\ value_at a' i = value_at a i).
Proof.
  intros (rs & Hd & Ha). rewrite <-(ae_values _ _ Hd), <-(ae_values _ _ Ha).
  destruct (replay_values rs i a (blank (a_me d) [])) as [?|[? ?]]; [by left|by right].
Qed.

(** A joining node gets the state of the node it joins: [restore] with the dump of any
    acceptor's log replays that log on top of what the node has. *)
Theorem restore_dump junk a d : log_ok d ->
  exists a', restore junk a (dump d) = Some a' /\ restored a d a' /\ a_log a' = a_log d.
Proof.
  intros (rs & Hrs & Hl & Heq). unfold restore, dump, open_stream. rewrite Hl.
  rewrite dump_loop_text by (lia || apply records_text_last).
  change (String.append "" ?x) with x. rewrite bytes_of_str_of. unfold logread, open_stream. cbn [set_log a_log].
  rewrite (logread_records rs Hrs _ []); [|constructor|pose proof (records_text_length rs); lia].
  eexists. split; [done|]. split.
  - exists rs. split; [done|]. apply replay_all_proper. by split.
  - assert (Hlog : forall b, a_log (foldl replay b rs) = a_log b); [|by rewrite Hlog].
    clear. induction rs as [|r rs IH]; intros b; [done|]. cbn [foldl]. rewrite IH. by destruct r.
Qed.

(** A node "7" that promised, voted and committed. *)
Definition busy_acceptor : acceptor :=
  let a := (preparereq (blank "7" []) (PrepareArg 2 (Prop_t 1 "3")) (PrepareRes false false (Prop_t 0 "") "")).1 in
  let a := (acceptreq a (AcceptArg 2 (Prop_t 1 "3") "3 7 ")).1 in
  (commit a 2 "3 7 ").1.

Lemma log_recovery_witness : exists a', acceptor_new 0 (a_log busy_acceptor) false "7" "7" = Some a' /\
  acc_equiv a' busy_acceptor /\ a_log a' = a_log busy_acceptor.
Proof.
  apply (log_recovery 0 0 false "7" "7" (blank "7" []) busy_acceptor); [|done|].
  - by apply one_line_check.
  - eapply rtc_l; [apply (as_prepare _ (PrepareArg 2 (Prop_t 1 "3"))
      (PrepareRes false false (Prop_t 0 "") "")); [done|by apply type_token]|].
    eapply rtc_l; [apply (as_accept _ (AcceptArg 2 (Prop_t 1 "3") "3 7 ")); [done|by apply type_token|]|].
    { by apply one_line_check. }
    apply rtc_once, (as_commit _ 2 "3 7 "); [done|]. by apply one_line_check.
Defined.

Lemma equiv_acceptors_agree_witness :
  let a := blank "7" [] in let b := Acceptor "7" (Prop_t 0 "3") (Prop_t 0 "7") "" 0 {[4 := ""%string]} [] in
  acc_equiv (preparereq a (PrepareArg 1 (Prop_t 1 "3")) (PrepareRes false false (Prop_t 0 "") "")).1
            (preparereq b (PrepareArg 1 (Prop_t 1 "3")) (PrepareRes false false (Prop_t 0 "") "")).1.
Proof.
  intros a b. apply (equiv_acceptors_agree a b (PrepareArg 1 (Prop_t 1 "3"))
    (PrepareRes false false (Prop_t 0 "") "") (AcceptArg 1 (Prop_t 1 "3") "x") (DecideArg 1 "x") 1 "x");
    [done|done|]. split; try done.
  intros i. unfold value_at, b. cbn [a_values]. destruct (decide (i = 4)) as [->|Hi].
  - by rewrite lookup_singleton_eq.
  - by rewrite lookup_singleton_ne by congruence.
Defined.

Lemma restore_dump_witness : exists a', restore 0 (blank "9" []) (dump busy_acceptor) = Some a' /\
  restored (blank "9" []) busy_acceptor a' /\ a_log a' = a_log busy_acceptor.
Proof.
  apply (restore_dump 0 (blank "9" []) busy_acceptor).
  unfold busy_acceptor. apply log_ok_commit; [|done|by apply one_line_check].
  apply log_ok_accept; [|done|by apply type_token|by apply one_line_check].
  apply log_ok_prepare; [by exists []|done|by apply type_token].
Defined.
