(* ===== verification/Paxos.v ===== *)
(** * The Paxos proposer and a cluster of nodes

    Models src/mit_6.824/paxos.cc ([proposer], [isamember], [majority]) and the
    view strings of config.cc ([members], [value]).  A cluster is a set of nodes,
    each with an acceptor (PaxosAcceptor.v) and a proposer whose [run] is cut at
    its RPCs, and a network that loses, delays, reorders and repeats messages. *)

From Stdlib Require Import ZArith Lia Ascii String.
From stdpp Require Import base list strings gmap sets relations.
From S2P Require Import Prelude Marshall Protocols IoStream PaxosAcceptor.
Import paxos_protocol.

Local Open Scope Z_scope.
Local Open Scope cpp_scope.

(** ** Members and majorities *)

(** [config::members]: the words of a view string. *)
Fixpoint members_loop (fuel : nat) (ist : istream) (m : string) (view : list string) : list string :=
  match fuel with
  | O => view
  | Datatypes.S fuel' =>
      let '(ist, m) := read_word ist m in
      if is_ok ist then members_loop fuel' ist m (view ++ [m]) else view
  end.
Definition members (value : string) : list string :=
  members_loop (Datatypes.S (length (bytes_of value))) (open_stream (bytes_of value)) "" [].

(** [config::value]. *)
Definition view_value (m : list string) : string :=
  foldl (fun ost x => String.append (String.append ost x) " ") ""%string m.

Fixpoint isamember (m : string) (nodes : list string) : bool :=
  match nodes with
  | [] => false
  | x :: nodes' => if String.eqb x m then true else isamember m nodes'
  end.

Fixpoint count_members (l1 l2 : list string) (n : Z) : Z :=
  match l1 with
  | [] => n
  | x :: l1' => count_members l1' l2 (if isamember x l2 then n + 1 else n)
  end.
Definition majority (l1 l2 : list string) : bool :=
  Z.shiftr (Z.of_nat (length l1)) 1 + 1 <=? count_members l1 l2 0.

(** ** The proposer *)

Record proposer := Proposer {
  p_me : string; p_break1 : bool; p_break2 : bool; p_stable : bool; p_my_n : prop_t }.

Definition proposer_new (me : string) : proposer := Proposer me false false true (Prop_t 0 me).

Definition p_set_stable (p : proposer) (b : bool) : proposer :=
  Proposer (p_me p) (p_break1 p) (p_break2 p) b (p_my_n p).
Definition isrunning (p : proposer) : bool := negb (p_stable p).

Definition breakpoint (p : proposer) (b : Z) : proposer :=
  if b =? 3 then Proposer (p_me p) true (p_break2 p) (p_stable p) (p_my_n p)
  else if b =? 4 then Proposer (p_me p) (p_break1 p) true (p_stable p) (p_my_n p)
  else p.

Definition setn (p : proposer) (n_h : prop_t) : proposer :=
  let my := wrap 32 (pn (p_my_n p) + 1) in
  let seen := wrap 32 (pn n_h + 1) in
  Proposer (p_me p) (p_break1 p) (p_break2 p) (p_stable p)
    (Prop_t (if my <? seen then seen else my) (pm (p_my_n p))).

(** The local variables of [proposer::prepare]. *)
Record prep_state := PrepState { ps_accepts : list string; ps_v : string; ps_currn_a : prop_t }.
Definition prep_init : prep_state := PrepState [] "" (Prop_t 0 "").

(** The loop body of [prepare] for one node; [None] is a node that could not be
    bound or whose call failed.  [inr v]: the instance is already decided as [v]. *)
Definition prepare_body (st : prep_state) (node : string) (res : option prepareres)
    : prep_state + string :=
  match res with
  | None => inl st
  | Some r =>
      if pr_oldinstance r then inr (pr_v_a r)
      else if pr_accept r then
        let accepts := ps_accepts st ++ [node] in
        if prop_gt (pr_n_a r) (ps_currn_a st)
        then inl (PrepState accepts (pr_v_a r) (pr_n_a r))
        else inl (PrepState accepts (ps_v st) (ps_currn_a st))
      else inl st
  end.

(** The loop body of [accept]. *)
Definition accept_body (accepts : list string) (node : string) (res : option bool) : list string :=
  match res with
  | Some true => accepts ++ [node]
  | _ => accepts
  end.

(** The value [run] goes on with after [prepare]. *)
Definition choose_value (v newv : string) : string := if String.eqb v "" then newv else v.

(** ** Nodes and messages *)

(** A call of [proposer::run]; [r_id] only names the call. *)
Record run := Run {
  r_id : nat; r_instance : Z; r_cur_nodes : list string; r_newv : string; r_n : prop_t }.

(** Where [run] stands: the nodes its current loop has not dealt with yet. *)
Inductive pc :=
  | Idle
  | Preparing (r : run) (todo : list string) (st : prep_state)
  | Accepting (r : run) (v : string) (todo accepts : list string)
  | Deciding (r : run) (v : string) (todo : list string).

Record node := Node { nd_acc : acceptor; nd_pro : proposer; nd_pc : pc }.

(** Requests carry the call they belong to; replies repeat their request. *)
Inductive msg :=
  | MPrepare (rid : nat) (dst : string) (a : preparearg)
  | MPrepareRes (rid : nat) (from : string) (a : preparearg) (r : prepareres)
  | MAccept (rid : nat) (dst : string) (a : acceptarg)
  | MAcceptRes (rid : nat) (from : string) (a : acceptarg) (r : bool)
  | MDecide (dst : string) (a : decidearg)
  | MDump (a : acceptor).

(** A proposal: call [pr_rid] asks the nodes [pr_quorum] that promised its number
    to accept [pr_val]. *)
Record proposal := Proposal {
  pp_rid : nat; pp_instance : Z; pp_n : prop_t; pp_val : string;
  pp_cur : list string; pp_quorum : list string }.

(** What has happened so far: messages are never removed, so that delivering one
    again, late or never are all behaviours of the network. *)
Record hist := Hist { h_net : list msg; h_props : list proposal; h_runs : gmap nat run }.

Record cluster := Cluster { cl_nodes : gmap string node; cl_hist : hist }.

Definition h_add_msg (h : hist) (m : msg) : hist := Hist (m :: h_net h) (h_props h) (h_runs h).
Definition cl_set_node (c : cluster) (p : string) (nd : node) : cluster :=
  Cluster (<[p := nd]> (cl_nodes c)) (cl_hist c).
Definition cl_send (c : cluster) (m : msg) : cluster := Cluster (cl_nodes c) (h_add_msg (cl_hist c) m).
Definition nd_set_pc (nd : node) (k : pc) : node := Node (nd_acc nd) (nd_pro nd) k.
(** [run] returns: [stable = true]. *)
Definition nd_finish (nd : node) : node := Node (nd_acc nd) (p_set_stable (nd_pro nd) true) Idle.
Definition nd_set_acc (nd : node) (a : acceptor) : node := Node a (nd_pro nd) (nd_pc nd).

(** A node that restores the log of [d] forgets no promise and no vote of its current
    instance: the log is of a later instance, or the node has made none. *)
Definition forgets_nothing (a d : acceptor) : Prop :=
  a_instance_h a < a_instance_h d \/
  (a_instance_h a = a_instance_h d /\ pn (a_n_h a) = 0 /\ pn (a_n_a a) = 0 /\ a_v_a a = ""%string).

(** ** Steps *)

(** [run] after the loop of [prepare] returned true. *)
Definition after_prepare (nd : node) (r : run) (st : prep_state) (h : hist) : node * hist :=
  if majority (r_cur_nodes r) (ps_accepts st) then
    let v := choose_value (ps_v st) (r_newv r) in
    (nd_set_pc nd (Accepting r v (ps_accepts st) []),
     Hist (h_net h)
       (Proposal (r_id r) (r_instance r) (r_n r) v (r_cur_nodes r) (ps_accepts st) :: h_props h)
       (h_runs h))
  else (nd_finish nd, h).

(** [run] after [accept] returned. *)
Definition after_accept (nd : node) (r : run) (v : string) (accepts : list string) : node :=
  if majority (r_cur_nodes r) accepts then nd_set_pc nd (Deciding r v accepts) else nd_finish nd.

(** [prepare] got the reply [res] of [d]. *)
Definition got_prepare_res (nd : node) (r : run) (todo : list string) (st : prep_state) (d : string)
    (res : prepareres) : node :=
  match prepare_body st d (Some res) with
  | inl st' => nd_set_pc nd (Preparing r todo st')
  | inr v => nd_finish (nd_set_acc nd (commit (nd_acc nd) (r_instance r) v).1)
  end.

Section Steps.
(** [timely]: an acceptor gets requests for its current instance only (and
    prepares for instances it has decided).  The code does not check this in
    [acceptreq]; with [timely = false] messages arrive whenever the network likes.

    [careful]: a node that joins restores a log that makes it forget nothing.  The code
    does not check this either: every process but the first node joins when it starts,
    and [config::restore] replaces its log, with the votes it recorded, by that of the
    node it joins. *)
Context (timely careful : bool).

Definition prepare_in_time (a : acceptor) (arg : preparearg) : Prop :=
  timely = true -> pa_instance arg <= a_instance_h a + 1.
Definition accept_in_time (a : acceptor) (arg : acceptarg) : Prop :=
  timely = true -> aa_instance arg = a_instance_h a + 1.

Inductive cstep (c : cluster) : cluster -> Prop :=
  (** [config::add] or [remove_wo] calls [run] for the view after one it knows;
      the 32-bit counters do not wrap. *)
  | cs_start p nd i newv rid r :
      cl_nodes c !! p = Some nd -> nd_pc nd = Idle -> p_stable (nd_pro nd) = true ->
      2 <= i < 2 ^ 32 -> i - 1 <= a_instance_h (nd_acc nd) -> newv <> ""%string ->
      0 <= pn (a_n_h (nd_acc nd)) < 2 ^ 32 - 1 -> 0 <= pn (p_my_n (nd_pro nd)) < 2 ^ 32 - 1 ->
      h_runs (cl_hist c) !! rid = None ->
      let pro := p_set_stable (setn (nd_pro nd) (a_n_h (nd_acc nd))) false in
      r = Run rid i (members (value_at (nd_acc nd) (i - 1))) newv (p_my_n pro) ->
      cstep c (Cluster (<[p := Node (nd_acc nd) pro (Preparing r (r_cur_nodes r) prep_init)]> (cl_nodes c))
                 (Hist (h_net (cl_hist c)) (h_props (cl_hist c)) (<[rid := r]> (h_runs (cl_hist c)))))
  | cs_send_prepare p nd r d todo st :
      cl_nodes c !! p = Some nd -> nd_pc nd = Preparing r (d :: todo) st ->
      cstep c (cl_send c (MPrepare (r_id r) d (PrepareArg (r_instance r) (r_n r))))
  | cs_prepare d nd rid arg r0 :
      cl_nodes c !! d = Some nd -> MPrepare rid d arg ∈ h_net (cl_hist c) ->
      prepare_in_time (nd_acc nd) arg ->
      cstep c (cl_send (cl_set_node c d (nd_set_acc nd (preparereq (nd_acc nd) arg r0).1))
                 (MPrepareRes rid d arg (preparereq (nd_acc nd) arg r0).2))
  | cs_prepare_res p nd r d todo st arg res :
      cl_nodes c !! p = Some nd -> nd_pc nd = Preparing r (d :: todo) st ->
      MPrepareRes (r_id r) d arg res ∈ h_net (cl_hist c) ->
      cstep c (cl_set_node c p (got_prepare_res nd r todo st d res))
  | cs_prepare_skip p nd r d todo st :
      cl_nodes c !! p = Some nd -> nd_pc nd = Preparing r (d :: todo) st ->
      cstep c (cl_set_node c p (nd_set_pc nd (Preparing r todo st)))
  | cs_prepare_done p nd r st :
      cl_nodes c !! p = Some nd -> nd_pc nd = Preparing r [] st ->
      cstep c (Cluster (<[p := (after_prepare nd r st (cl_hist c)).1]> (cl_nodes c))
                 (after_prepare nd r st (cl_hist c)).2)
  | cs_send_accept p nd r v d todo accepts :
      cl_nodes c !! p = Some nd -> nd_pc nd = Accepting r v (d :: todo) accepts ->
      cstep c (cl_send c (MAccept (r_id r) d (AcceptArg (r_instance r) (r_n r) v)))
  | cs_accept d nd rid arg :
      cl_nodes c !! d = Some nd -> MAccept rid d arg ∈ h_net (cl_hist c) ->
      accept_in_time (nd_acc nd) arg ->
      cstep c (cl_send (cl_set_node c d (nd_set_acc nd (acceptreq (nd_acc nd) arg).1))
                 (MAcceptRes rid d arg (acceptreq (nd_acc nd) arg).2))
  | cs_accept_res p nd r v d todo accepts arg res :
      cl_nodes c !! p = Some nd -> nd_pc nd = Accepting r v (d :: todo) accepts ->
      MAcceptRes (r_id r) d arg res ∈ h_net (cl_hist c) ->
      cstep c (cl_set_node c p (nd_set_pc nd (Accepting r v todo (accept_body accepts d (Some res)))))
  | cs_accept_skip p nd r v d todo accepts :
      cl_nodes c !! p = Some nd -> nd_pc nd = Accepting r v (d :: todo) accepts ->
      cstep c (cl_set_node c p (nd_set_pc nd (Accepting r v todo accepts)))
  | cs_accept_done p nd r v accepts :
      cl_nodes c !! p = Some nd -> nd_pc nd = Accepting r v [] accepts ->
      cstep c (cl_set_node c p (after_accept nd r v accepts))
  | cs_send_decide p nd r v d todo :
      cl_nodes c !! p = Some nd -> nd_pc nd = Deciding r v (d :: todo) ->
      cstep c (cl_send c (MDecide d (DecideArg (r_instance r) v)))
  | cs_decide d nd arg a' ups :
      cl_nodes c !! d = Some nd -> MDecide d arg ∈ h_net (cl_hist c) ->
      decidereq (nd_acc nd) arg = Some (a', ups) ->
      cstep c (cl_set_node c d (nd_set_acc nd a'))
  | cs_decide_next p nd r v d todo :
      cl_nodes c !! p = Some nd -> nd_pc nd = Deciding r v (d :: todo) ->
      cstep c (cl_set_node c p (nd_set_pc nd (Deciding r v todo)))
  | cs_decide_done p nd r v :
      cl_nodes c !! p = Some nd -> nd_pc nd = Deciding r v [] ->
      cstep c (cl_set_node c p (nd_finish nd))
  (** A process dies (also at a breakpoint) and starts again on its log. *)
  | cs_restart p nd a' :
      cl_nodes c !! p = Some nd -> acc_equiv a' (nd_acc nd) ->
      cstep c (cl_set_node c p (Node a' (proposer_new p) Idle))
  (** A node sends its log to one that joins, or joins again ([rsm::joinreq]). *)
  | cs_dump p nd :
      cl_nodes c !! p = Some nd -> cstep c (cl_send c (MDump (nd_acc nd)))
  (** [rsm::join]: any node, whatever it has promised, restores a log it was sent. *)
  | cs_join p nd d a' :
      cl_nodes c !! p = Some nd -> MDump d ∈ h_net (cl_hist c) ->
      (careful = true -> forgets_nothing (nd_acc nd) d) -> restored (nd_acc nd) d a' ->
      cstep c (cl_set_node c p (nd_set_acc nd a')).

Definition reachable (c0 : cluster) : cluster -> Prop := rtc cstep c0.
End Steps.

(** The first node starts with view 1, all others know nothing. *)
Definition first_acceptor (me value : string) (file : list ascii) : acceptor :=
  Acceptor me (Prop_t 0 me) (Prop_t 0 me) "" 1 {[1 := value]} (loginstance file 1 value).
Definition cluster_init (first v1 : string) (others : list string) : cluster :=
  Cluster (<[first := Node (first_acceptor first v1 []) (proposer_new first) Idle]>
             (list_to_map ((fun p => (p, Node (blank p []) (proposer_new p) Idle)) <$> others)))
    (Hist [] [] ∅).
