(* ===== verification/PaxosSafety.v ===== *)
(** * Agreement of the Paxos cluster

    The inductive invariant of the cluster of Paxos.v and what follows from it
    when requests arrive in time and no node that joins forgets its promises: all
    nodes agree on every view, and no [decidereq] fails its VERIFY.  Quorums change with the views: the nodes asked
    for instance i are the members of view i-1. *)

From Stdlib Require Import ZArith Lia Ascii String.
From stdpp Require Import base list strings gmap sets relations.
From S2P Require Import Prelude Marshall Protocols IoStream PaxosAcceptor Paxos.
Import paxos_protocol.

Local Open Scope Z_scope.

(** ** Proposal numbers as a total order *)

Notation "a ≺ b" := (prop_gt b a = true) (at level 70).
Notation "a ≼ b" := (prop_ge b a = true) (at level 70).

Lemma prop_lt_irrefl a : ~ a ≺ a.
Proof. by rewrite prop_gt_irrefl. Qed.
Lemma prop_lt_trans a b c : a ≺ b -> b ≺ c -> a ≺ c.
Proof. intros H1 H2. by eapply prop_gt_trans. Qed.
Lemma prop_le_lt_trans a b c : a ≼ b -> b ≺ c -> a ≺ c.
Proof. intros [->|H1]%prop_ge_spec H2; [done|by eapply prop_gt_trans]. Qed.
Lemma prop_lt_le_trans a b c : a ≺ b -> b ≼ c -> a ≺ c.
Proof. intros H1 [->|H2]%prop_ge_spec; [done|by eapply prop_gt_trans]. Qed.
Lemma prop_le_refl a : a ≼ a.
Proof. apply prop_ge_spec. by left. Qed.
Lemma prop_le_trans a b c : a ≼ b -> b ≼ c -> a ≼ c.
Proof.
  intros [->|H1]%prop_ge_spec H2; [done|]. apply prop_ge_spec. right. by eapply prop_lt_le_trans.
Qed.
Lemma prop_lt_le a b : a ≺ b -> a ≼ b.
Proof. intros H. apply prop_ge_spec. by right. Qed.
Lemma prop_le_not_lt a b : a ≼ b -> ~ b ≺ a.
Proof. intros H1 H2. apply (prop_lt_irrefl b). by eapply prop_lt_le_trans. Qed.
Lemma prop_le_antisym a b : a ≼ b -> b ≼ a -> a = b.
Proof. intros [->|H1]%prop_ge_spec H2; [done|]. by apply prop_le_not_lt in H2. Qed.
Lemma prop_not_lt a b : prop_gt b a = false -> b ≼ a.
Proof. intros H. by rewrite prop_ge_gt, H. Qed.
Lemma prop_cases a b : a ≺ b \/ a = b \/ b ≺ a.
Proof.
  destruct (prop_gt b a) eqn:H; [by left|]. apply prop_not_lt, prop_ge_spec in H as [->|H]; auto.
Qed.
Lemma prop_round_le a b : a ≼ b -> pn a <= pn b.
Proof. unfold prop_ge. rewrite orb_true_iff, andb_true_iff. lia. Qed.

(** ** Majorities intersect *)

Lemma isamember_spec m l : isamember m l = true <-> m ∈ l.
Proof.
  induction l as [|x l IH]; simpl; [split; [done|by intros ?%elem_of_nil]|].
  destruct (String.eqb_spec x m) as [->|Hne]; [split; [intros _; left|done]|].
  rewrite IH, elem_of_cons. split; [auto|]. intros [->|?]; done.
Qed.

Lemma count_members_acc l1 l2 n : count_members l1 l2 n = n + count_members l1 l2 0.
Proof.
  revert n. induction l1 as [|x l1 IH]; intros n; simpl; [lia|].
  destruct (isamember x l2); [rewrite IH, (IH (0 + 1))|rewrite IH]; lia.
Qed.

Lemma count_members_disjoint l1 l2 l3 : (forall x, x ∈ l1 -> x ∈ l2 -> x ∈ l3 -> False) ->
  count_members l1 l2 0 + count_members l1 l3 0 <= Z.of_nat (length l1).
Proof.
  induction l1 as [|x l1 IH]; intros Hd; simpl; [lia|].
  rewrite (count_members_acc l1 l2), (count_members_acc l1 l3).
  specialize (IH ltac:(intros y ?; apply Hd; by right)).
  pose proof (isamember_spec x l2). pose proof (isamember_spec x l3).
  specialize (Hd x ltac:(left)). destruct (isamember x l2), (isamember x l3); naive_solver lia.
Qed.

Lemma majorities_intersect l l2 l3 : majority l l2 = true -> majority l l3 = true ->
  exists x, x ∈ l2 /\ x ∈ l3.
Proof.
  unfold majority. rewrite !Z.leb_le, Z.shiftr_div_pow2 by lia. intros H2 H3.
  destruct (decide (Exists (fun x => x ∈ l2 /\ x ∈ l3) l)) as [Hex|Hnot].
  { apply Exists_exists in Hex as (x & _ & ?). by exists x. }
  exfalso. pose proof (count_members_disjoint l l2 l3) as Hc.
  assert (Hd : forall x, x ∈ l -> x ∈ l2 -> x ∈ l3 -> False).
  { intros x ? ? ?. apply Hnot, Exists_exists. by exists x. }
  specialize (Hc Hd). change (2 ^ 1) with 2 in *.
  pose proof (Z.div_mod (Z.of_nat (length l)) 2). pose proof (Z.mod_pos_bound (Z.of_nat (length l)) 2). lia.
Qed.

(** ** Facts recorded in the history *)

Definition promised (h : hist) (q : string) (i : Z) (b : prop_t) (rid : nat) (n_a : prop_t) (v_a : string) : Prop :=
  MPrepareRes rid q (PrepareArg i b) (PrepareRes false true n_a v_a) ∈ h_net h.
Definition voted (h : hist) (q : string) (i : Z) (b : prop_t) (v : string) : Prop :=
  exists rid, MAcceptRes rid q (AcceptArg i b v) true ∈ h_net h.
Definition proposed (h : hist) (i : Z) (b : prop_t) (v : string) : Prop :=
  exists pr, pr ∈ h_props h /\ pp_instance pr = i /\ pp_n pr = b /\ pp_val pr = v.

(** A majority accepted the proposal: its value is chosen. *)
Definition chosen (h : hist) (pr : proposal) : Prop :=
  pr ∈ h_props h /\ exists Q, majority (pp_cur pr) Q = true /\
    forall q, q ∈ Q -> voted h q (pp_instance pr) (pp_n pr) (pp_val pr).

(** The value of instance [i]: given for 1, chosen later. *)
Definition decided (v1 : string) (h : hist) (i : Z) (v : string) : Prop :=
  (i = 1 /\ v = v1) \/ (2 <= i /\ exists pr, chosen h pr /\ pp_instance pr = i /\ pp_val pr = v).

(** No majority of [cur] can have accepted anything at [c], now or later. *)
Definition blocked (h : hist) (cur : list string) (i : Z) (c : prop_t) : Prop :=
  exists Q, majority cur Q = true /\ forall q, q ∈ Q ->
    (exists b rid n v, promised h q i b rid n v /\ c ≺ b) /\ forall w, ~ voted h q i c w.

(** The highest vote an acceptor remembers, or reports, or a proposer has seen:
    none, or a proposal below [b]. *)
Definition last_vote (h : hist) (i : Z) (n_a : prop_t) (v_a : string) : Prop :=
  (pn n_a = 0 /\ v_a = ""%string) \/ (1 <= pn n_a /\ proposed h i n_a v_a).

(** ** The invariant *)

(** What holds of an acceptor's state, also of one sent in a dump. *)
Record snapshot_ok (v1 : string) (h : hist) (a : acceptor) : Prop := {
  sn_instance : 0 <= a_instance_h a;
  sn_values j : 1 <= j <= a_instance_h a -> decided v1 h j (value_at a j);
  sn_vote : last_vote h (a_instance_h a + 1) (a_n_a a) (a_v_a a);
  sn_order : pn (a_n_a a) = 0 \/ a_n_a a ≼ a_n_h a }.

Record acceptor_ok (v1 : string) (h : hist) (q : string) (a : acceptor) : Prop := {
  ac_snapshot : snapshot_ok v1 h a;
  ac_promise i b rid n v : promised h q i b rid n v ->
    i <= a_instance_h a \/ (i = a_instance_h a + 1 /\ b ≼ a_n_h a);
  ac_vote i b v : voted h q i b v ->
    i <= a_instance_h a \/ (i = a_instance_h a + 1 /\ b ≼ a_n_a a /\ 1 <= pn (a_n_a a)) }.

(** The quorum of a proposer so far, with the summary of the reported votes. *)
Definition quorum_ok (h : hist) (r : run) (accepts : list string) (v : string) (currn : prop_t) : Prop :=
  last_vote h (r_instance r) currn v /\ (1 <= pn currn -> currn ≺ r_n r) /\
  forall q, q ∈ accepts -> exists n_a v_a,
    promised h q (r_instance r) (r_n r) (r_id r) n_a v_a /\ (1 <= pn n_a -> n_a ≼ currn).

Definition pc_ok (h : hist) (a : acceptor) (k : pc) : Prop :=
  match k with
  | Idle => True
  | Preparing r todo st =>
      h_runs h !! r_id r = Some r /\ (forall pr, pr ∈ h_props h -> pp_rid pr <> r_id r) /\
      r_instance r - 1 <= a_instance_h a /\ quorum_ok h r (ps_accepts st) (ps_v st) (ps_currn_a st)
  | Accepting r v todo accepts =>
      h_runs h !! r_id r = Some r /\
      exists pr, pr ∈ h_props h /\ pp_rid pr = r_id r /\ pp_val pr = v /\
        (forall q, q ∈ todo -> q ∈ pp_quorum pr) /\
        forall q, q ∈ accepts -> voted h q (r_instance r) (r_n r) v
  | Deciding r v todo =>
      exists pr, chosen h pr /\ pp_instance pr = r_instance r /\ pp_val pr = v /\
        forall q, q ∈ todo -> voted h q (pp_instance pr) (pp_n pr) v
  end.

Definition run_ok (v1 : string) (h : hist) (rid : nat) (r : run) : Prop :=
  r_id r = rid /\ 2 <= r_instance r < 2 ^ 32 /\ 1 <= pn (r_n r) /\ r_newv r <> ""%string /\
  exists x, decided v1 h (r_instance r - 1) x /\ r_cur_nodes r = members x.

Definition proposal_ok (h : hist) (pr : proposal) : Prop :=
  (exists r, h_runs h !! pp_rid pr = Some r /\ pp_instance pr = r_instance r /\ pp_n pr = r_n r /\
    pp_cur pr = r_cur_nodes r) /\
  pp_val pr <> ""%string /\ majority (pp_cur pr) (pp_quorum pr) = true /\
  forall q, q ∈ pp_quorum pr -> exists n v, promised h q (pp_instance pr) (pp_n pr) (pp_rid pr) n v.

Definition msg_ok (v1 : string) (h : hist) (m : msg) : Prop :=
  match m with
  | MPrepare rid _ a =>
      exists r, h_runs h !! rid = Some r /\ a = PrepareArg (r_instance r) (r_n r)
  | MPrepareRes rid q a res =>
      (exists r, h_runs h !! rid = Some r /\ a = PrepareArg (r_instance r) (r_n r)) /\
      (pr_oldinstance res = true -> decided v1 h (pa_instance a) (pr_v_a res)) /\
      (pr_oldinstance res = false -> pr_accept res = true ->
         last_vote h (pa_instance a) (pr_n_a res) (pr_v_a res) /\
         (1 <= pn (pr_n_a res) -> pr_n_a res ≺ pa_n a) /\
         forall c w, voted h q (pa_instance a) c w -> c ≺ pa_n a ->
           1 <= pn (pr_n_a res) /\ c ≼ pr_n_a res)
  | MAccept rid d a =>
      exists pr, pr ∈ h_props h /\ pp_rid pr = rid /\
        a = AcceptArg (pp_instance pr) (pp_n pr) (pp_val pr) /\ d ∈ pp_quorum pr
  | MAcceptRes rid q a res =>
      res = true -> exists pr, pr ∈ h_props h /\ pp_rid pr = rid /\
        a = AcceptArg (pp_instance pr) (pp_n pr) (pp_val pr) /\ q ∈ pp_quorum pr
  | MDecide d a =>
      exists pr, chosen h pr /\ a = DecideArg (pp_instance pr) (pp_val pr) /\
        voted h d (pp_instance pr) (pp_n pr) (pp_val pr)
  | MDump a => snapshot_ok v1 h a
  end.

Record hist_ok (v1 : string) (h : hist) : Prop := {
  ho_msg m : m ∈ h_net h -> msg_ok v1 h m;
  ho_run rid r : h_runs h !! rid = Some r -> run_ok v1 h rid r;
  ho_prop pr : pr ∈ h_props h -> proposal_ok h pr;
  ho_rid pr1 pr2 : pr1 ∈ h_props h -> pr2 ∈ h_props h -> pp_rid pr1 = pp_rid pr2 -> pr1 = pr2;
  ho_promise q i b rid n v rid' n' v' :
    promised h q i b rid n v -> promised h q i b rid' n' v' -> rid = rid';
  ho_safe pr1 pr2 : pr1 ∈ h_props h -> pr2 ∈ h_props h -> pp_instance pr1 = pp_instance pr2 ->
    pp_n pr2 ≺ pp_n pr1 ->
    pp_val pr2 = pp_val pr1 \/ blocked h (pp_cur pr2) (pp_instance pr2) (pp_n pr2) }.

(** The call a node is preparing, if any. *)
Definition preparing_rid (k : pc) : option nat :=
  match k with Preparing r _ _ => Some (r_id r) | _ => None end.

Record cluster_ok (v1 : string) (c : cluster) : Prop := {
  co_hist : hist_ok v1 (cl_hist c);
  co_acceptor p nd : cl_nodes c !! p = Some nd -> acceptor_ok v1 (cl_hist c) p (nd_acc nd);
  co_pc p nd : cl_nodes c !! p = Some nd -> pc_ok (cl_hist c) (nd_acc nd) (nd_pc nd);
  co_apart p p' nd nd' rid : cl_nodes c !! p = Some nd -> cl_nodes c !! p' = Some nd' ->
    preparing_rid (nd_pc nd) = Some rid -> preparing_rid (nd_pc nd') = Some rid -> p = p' }.

(** ** Agreement follows from the invariant *)

Section Agreement.
Context (v1 : string) (h : hist) (Hok : hist_ok v1 h).

Lemma voted_proposed q i b v : voted h q i b v -> exists pr, pr ∈ h_props h /\
  pp_instance pr = i /\ pp_n pr = b /\ pp_val pr = v /\ q ∈ pp_quorum pr.
Proof using Hok.
  intros (rid & Hin). destruct (ho_msg _ _ Hok _ Hin eq_refl) as (pr & Hpr & _ & [= -> -> ->] & Hq).
  by exists pr.
Qed.

Lemma same_number_same_proposal pr1 pr2 : pr1 ∈ h_props h -> pr2 ∈ h_props h ->
  pp_instance pr1 = pp_instance pr2 -> pp_n pr1 = pp_n pr2 -> pp_cur pr1 = pp_cur pr2 -> pr1 = pr2.
Proof using Hok.
  intros H1 H2 Hi Hn Hc. apply (ho_rid _ _ Hok); [done..|].
  destruct (ho_prop _ _ Hok _ H1) as (_ & _ & HQ1 & HP1).
  destruct (ho_prop _ _ Hok _ H2) as (_ & _ & HQ2 & HP2).
  rewrite Hc in HQ1. destruct (majorities_intersect _ _ _ HQ1 HQ2) as (q & Hq1 & Hq2).
  destruct (HP1 q Hq1) as (n & v & Hp1). destruct (HP2 q Hq2) as (n' & v' & Hp2).
  rewrite Hi, Hn in Hp1. by eapply (ho_promise _ _ Hok).
Qed.

Lemma chosen_not_blocked pr : chosen h pr -> ~ blocked h (pp_cur pr) (pp_instance pr) (pp_n pr).
Proof using.
  intros (_ & Q & HQ & Hv) (Q' & HQ' & Hb).
  destruct (majorities_intersect _ _ _ HQ HQ') as (q & Hq & Hq').
  destruct (Hb q Hq') as [_ Hn]. by eapply Hn, Hv.
Qed.

(** A proposal above a chosen one has the same value. *)
Lemma above_chosen pr1 pr2 : pr1 ∈ h_props h -> chosen h pr2 -> pp_instance pr1 = pp_instance pr2 ->
  pp_cur pr1 = pp_cur pr2 -> pp_n pr2 ≼ pp_n pr1 -> pp_val pr1 = pp_val pr2.
Proof using Hok.
  intros H1 Hch Hi Hc [Heq|Hlt]%prop_ge_spec; pose proof (proj1 Hch) as H2.
  - by rewrite (same_number_same_proposal pr1 pr2).
  - destruct (ho_safe _ _ Hok pr1 pr2 H1 H2 Hi Hlt) as [->|Hbl]; [done|].
    exfalso. by eapply chosen_not_blocked.
Qed.

Lemma cur_of_proposal pr : pr ∈ h_props h -> 2 <= pp_instance pr < 2 ^ 32 /\ 1 <= pn (pp_n pr) /\
  exists x, decided v1 h (pp_instance pr - 1) x /\ pp_cur pr = members x.
Proof using Hok.
  intros Hpr. destruct (ho_prop _ _ Hok _ Hpr) as ((r & Hr & -> & -> & ->) & _).
  destruct (ho_run _ _ Hok _ _ Hr) as (_ & ? & ? & _ & ?). split; [|split]; done.
Qed.

Lemma decided_unique_below n : forall i v w, i <= Z.of_nat n ->
  decided v1 h i v -> decided v1 h i w -> v = w.
Proof using Hok.
  induction n as [|n IH]; intros i v w Hi [[-> ->]|(H2 & pr1 & Hc1 & Hi1 & <-)] [[? ->]|(? & pr2 & Hc2 & Hi2 & <-)];
    try lia; try done.
  assert (Hcur : pp_cur pr1 = pp_cur pr2).
  { destruct (cur_of_proposal pr1 (proj1 Hc1)) as (_ & _ & x1 & Hx1 & ->).
    destruct (cur_of_proposal pr2 (proj1 Hc2)) as (_ & _ & x2 & Hx2 & ->).
    rewrite Hi1 in Hx1. rewrite Hi2 in Hx2. f_equal. eapply (IH (i - 1)); [lia|done|done]. }
  destruct (prop_cases (pp_n pr1) (pp_n pr2)) as [Hlt|[Heq|Hlt]].
  - symmetry. apply above_chosen; [apply Hc2|done|congruence|done|by apply prop_lt_le].
  - by rewrite (same_number_same_proposal pr1 pr2); [|apply Hc1|apply Hc2|congruence|done|done].
  - apply above_chosen; [apply Hc1|done|congruence|done|by apply prop_lt_le].
Qed.

Lemma decided_unique i v w : decided v1 h i v -> decided v1 h i w -> v = w.
Proof using Hok.
  intros Hv Hw. apply (decided_unique_below (Z.to_nat i) i); [|done|done].
  destruct Hv as [[-> _]|[? _]]; lia.
Qed.

Lemma cur_unique pr1 pr2 : pr1 ∈ h_props h -> pr2 ∈ h_props h -> pp_instance pr1 = pp_instance pr2 ->
  pp_cur pr1 = pp_cur pr2.
Proof using Hok.
  intros H1 H2 Hi. destruct (cur_of_proposal pr1 H1) as (_ & _ & x1 & Hx1 & ->).
  destruct (cur_of_proposal pr2 H2) as (_ & _ & x2 & Hx2 & ->).
  rewrite Hi in Hx1. f_equal. by eapply decided_unique.
Qed.
End Agreement.

(** ** Histories only grow *)

Record hist_le (h h' : hist) : Prop := {
  hl_net m : m ∈ h_net h -> m ∈ h_net h';
  hl_props pr : pr ∈ h_props h -> pr ∈ h_props h';
  hl_runs rid r : h_runs h !! rid = Some r -> h_runs h' !! rid = Some r }.

Section Mono.
Context (v1 : string) (h h' : hist) (Hle : hist_le h h').

Lemma promised_mono q i b rid n v : promised h q i b rid n v -> promised h' q i b rid n v.
Proof using Hle. apply (hl_net _ _ Hle). Qed.
Lemma voted_mono q i b v : voted h q i b v -> voted h' q i b v.
Proof using Hle. intros (rid & ?). exists rid. by apply (hl_net _ _ Hle). Qed.
Lemma proposed_mono i b v : proposed h i b v -> proposed h' i b v.
Proof using Hle. intros (pr & ? & ?). exists pr. split; [by apply (hl_props _ _ Hle)|done]. Qed.
Lemma chosen_mono pr : chosen h pr -> chosen h' pr.
Proof using Hle.
  intros (? & Q & ? & HQ). split; [by apply (hl_props _ _ Hle)|]. exists Q. split; [done|].
  intros q Hq. by apply voted_mono, HQ.
Qed.
Lemma decided_mono i v : decided v1 h i v -> decided v1 h' i v.
Proof using Hle.
  intros [?|(? & pr & ? & ?)]; [by left|right]. split; [done|]. exists pr. split; [by apply chosen_mono|done].
Qed.
Lemma last_vote_mono i n v : last_vote h i n v -> last_vote h' i n v.
Proof using Hle. intros [?|[? ?]]; [by left|right]. split; [done|by apply proposed_mono]. Qed.
Lemma snapshot_mono a : snapshot_ok v1 h a -> snapshot_ok v1 h' a.
Proof using Hle.
  intros []. split; [done| |by apply last_vote_mono|done]. intros j Hj. by apply decided_mono, sn_values0.
Qed.
Lemma quorum_mono r acc v n : quorum_ok h r acc v n -> quorum_ok h' r acc v n.
Proof using Hle.
  intros (? & ? & Hq). split_and!; [by apply last_vote_mono|done|].
  intros q (n_a & v_a & ? & ?)%Hq. exists n_a, v_a. split; [by apply promised_mono|done].
Qed.
Lemma run_mono rid r : run_ok v1 h rid r -> run_ok v1 h' rid r.
Proof using Hle.
  intros (? & ? & ? & ? & x & ? & ?). split_and!; try done; try lia. exists x.
  split; [by apply decided_mono|done].
Qed.
Lemma proposal_mono pr : proposal_ok h pr -> proposal_ok h' pr.
Proof using Hle.
  intros ((r & ? & ?) & ? & ? & Hq). split_and!; try done.
  - exists r. split; [by apply (hl_runs _ _ Hle)|done].
  - intros q (n & v & ?)%Hq. exists n, v. by apply promised_mono.
Qed.
End Mono.
Create HintDb paxos.
#[export] Hint Resolve promised_mono voted_mono proposed_mono chosen_mono decided_mono
  last_vote_mono snapshot_mono quorum_mono run_mono proposal_mono hl_net hl_props hl_runs : paxos.

(** Growth that adds no vote below a promise. *)
Record hist_ext (h h' : hist) : Prop := {
  he_le : hist_le h h';
  he_votes q i b rid n v c w : promised h q i b rid n v -> c ≺ b -> voted h' q i c w -> voted h q i c w }.

Lemma blocked_ext h h' cur i c : hist_ext h h' -> blocked h cur i c -> blocked h' cur i c.
Proof.
  intros [Hle Hv] (Q & HQ & Hb). exists Q. split; [done|]. intros q Hq.
  destruct (Hb q Hq) as [(b & rid & n & v & Hp & Hlt) Hn]. split.
  - exists b, rid, n, v. eauto with paxos.
  - intros w Hw. by eapply Hn, Hv.
Qed.

Lemma msg_ok_ext v1 h h' m : hist_ext h h' -> m ∈ h_net h -> msg_ok v1 h m -> msg_ok v1 h' m.
Proof.
  intros [Hle Hv] Hin. destruct m as [rid d a|rid q a res|rid d a|rid q a res|d a|a]; cbn.
  - intros (r & ? & ?). exists r. eauto with paxos.
  - intros ((r & ? & ?) & Hold & Hacc). split_and!; [exists r; eauto with paxos|eauto with paxos|].
    intros Ho Ha. destruct (Hacc Ho Ha) as (? & ? & Hc). split_and!; [eauto with paxos|done|].
    intros c w Hcw Hlt. apply (Hc c w); [|done].
    eapply (Hv q (pa_instance a) (pa_n a) rid (pr_n_a res) (pr_v_a res)); [|done|done].
    unfold promised. destruct a, res; cbn in *; by subst.
  - intros (pr & ? & ? & ? & ?). exists pr. eauto with paxos.
  - intros Hr Ht. destruct (Hr Ht) as (pr & ? & ? & ? & ?). exists pr. eauto with paxos.
  - intros (pr & ? & ? & ?). exists pr. eauto with paxos.
  - eauto with paxos.
Qed.

Lemma hist_ok_ext v1 h h' : hist_ok v1 h -> hist_ext h h' -> h_props h' = h_props h ->
  (forall m, m ∈ h_net h' -> m ∈ h_net h \/ msg_ok v1 h' m) ->
  (forall rid r, h_runs h' !! rid = Some r -> h_runs h !! rid = Some r \/ run_ok v1 h' rid r) ->
  (forall q i b rid n v rid' n' v',
     promised h' q i b rid n v -> promised h' q i b rid' n' v' -> rid = rid') ->
  hist_ok v1 h'.
Proof.
  intros [Hm Hr Hp Hrid _ Hs] Hext Hprops Hm' Hr' Hpr'. pose proof (he_le _ _ Hext) as Hle. split.
  - intros m [Hin|?]%Hm'; [|done]. apply (msg_ok_ext v1 h); auto.
  - intros rid r [Hin|?]%Hr'; [|done]. eauto with paxos.
  - rewrite Hprops. intros pr Hin. eauto with paxos.
  - by rewrite Hprops.
  - done.
  - rewrite Hprops. intros pr1 pr2 H1 H2 Hi Hn. destruct (Hs pr1 pr2 H1 H2 Hi Hn); [by left|right].
    by eapply blocked_ext.
Qed.

Lemma acceptor_ok_mono v1 h h' q a : hist_le h h' ->
  (forall i b rid n v, promised h' q i b rid n v -> promised h q i b rid n v) ->
  (forall i b v, voted h' q i b v -> voted h q i b v) ->
  acceptor_ok v1 h q a -> acceptor_ok v1 h' q a.
Proof. intros Hle Hp Hv [Hs Ha1 Ha2]. split; [eauto with paxos|eauto|eauto]. Qed.

Lemma pc_ok_mono h h' a a' k : hist_le h h' -> a_instance_h a <= a_instance_h a' ->
  (forall pr, pr ∈ h_props h' -> pr ∈ h_props h \/ preparing_rid k <> Some (pp_rid pr)) ->
  pc_ok h a k -> pc_ok h' a' k.
Proof.
  intros Hle Ha Hpr. destruct k as [|r todo st|r v todo accepts|r v todo]; cbn.
  - done.
  - intros (? & Hn & ? & ?). split_and!; [eauto with paxos| |lia|eauto with paxos].
    intros pr [?|Hne]%Hpr; [by apply Hn|]. cbn in Hne. congruence.
  - intros (? & pr & ? & ? & ? & ? & ?). split; [eauto with paxos|]. exists pr. split_and!; eauto with paxos.
  - intros (pr & ? & ? & ? & ?). exists pr. split_and!; eauto with paxos.
Qed.

(** One node changes and the history grows. *)
Lemma cluster_ok_update v1 c p nd nd' h' : cluster_ok v1 c -> cl_nodes c !! p = Some nd ->
  hist_ok v1 h' -> hist_le (cl_hist c) h' ->
  (forall q i b rid n v, q <> p -> promised h' q i b rid n v -> promised (cl_hist c) q i b rid n v) ->
  (forall q i b v, q <> p -> voted h' q i b v -> voted (cl_hist c) q i b v) ->
  (forall pr, pr ∈ h_props h' -> pr ∈ h_props (cl_hist c) \/ preparing_rid (nd_pc nd) = Some (pp_rid pr)) ->
  (forall rid, preparing_rid (nd_pc nd') = Some rid ->
     preparing_rid (nd_pc nd) = Some rid \/ h_runs (cl_hist c) !! rid = None) ->
  acceptor_ok v1 h' p (nd_acc nd') -> pc_ok h' (nd_acc nd') (nd_pc nd') ->
  cluster_ok v1 (Cluster (<[p := nd']> (cl_nodes c)) h').
Proof.
  intros [Hh Hacc Hpc Hap] Hp Hh' Hle Hprom Hvot Hprops Hrid Ha' Hpc'. split; cbn [cl_nodes cl_hist].
  - done.
  - intros q ndq. destruct (decide (q = p)) as [->|Hne].
    + rewrite lookup_insert_eq. by intros [= <-].
    + rewrite lookup_insert_ne by done. intros Hq. apply (acceptor_ok_mono v1 (cl_hist c)); eauto.
  - intros q ndq. destruct (decide (q = p)) as [->|Hne].
    + rewrite lookup_insert_eq. by intros [= <-].
    + rewrite lookup_insert_ne by done. intros Hq.
      apply (pc_ok_mono (cl_hist c) _ (nd_acc ndq)); eauto; [lia|].
      intros pr [?|Hr]%Hprops; [by left|right]. intros Heq. apply Hne. by eapply Hap.
  - assert (Hfresh : forall q ndq rid, q <> p -> cl_nodes c !! q = Some ndq ->
      preparing_rid (nd_pc ndq) = Some rid -> preparing_rid (nd_pc nd') = Some rid -> False).
    { intros q ndq rid Hne Hq Hk [Hk'|Hk']%Hrid; [apply Hne; by eapply Hap|].
      pose proof (Hpc _ _ Hq) as Hpcq. destruct (nd_pc ndq); try done. cbn in Hk, Hpcq.
      destruct Hpcq as [Hrun _]. simplify_eq. }
    intros q q' ndq ndq' rid. destruct (decide (q = p)) as [->|Hq], (decide (q' = p)) as [->|Hq'];
      rewrite ?lookup_insert_eq, ?lookup_insert_ne by done; [done| | |by apply Hap].
    + intros [= <-] ? ? ?. exfalso. by eapply Hfresh.
    + intros ? [= <-] ? ?. exfalso. by eapply Hfresh.
Qed.

(** ** Sending *)

(** A message that records neither a promise nor a vote. *)
Definition quiet (m : msg) : Prop :=
  match m with
  | MPrepareRes _ _ _ r => pr_oldinstance r = true \/ pr_accept r = false
  | MAcceptRes _ _ _ r => r = false
  | _ => True
  end.

Lemma hist_le_add h m : hist_le h (h_add_msg h m).
Proof. split; [intros ? ?; by right|done|done]. Qed.

Lemma quiet_promised h m q i b rid n v : quiet m ->
  promised (h_add_msg h m) q i b rid n v -> promised h q i b rid n v.
Proof. intros Hq [Heq|?]%elem_of_cons; [|done]. subst m. cbn in Hq. naive_solver. Qed.

Lemma quiet_voted h m q i b v : quiet m -> voted (h_add_msg h m) q i b v -> voted h q i b v.
Proof. intros Hq (rid & [Heq|?]%elem_of_cons); [|by exists rid]. by subst m. Qed.

Lemma quiet_ext h m : quiet m -> hist_ext h (h_add_msg h m).
Proof. intros Hq. split; [apply hist_le_add|]. intros. by eapply quiet_voted. Qed.

Lemma hist_ok_quiet v1 h m : hist_ok v1 h -> quiet m -> msg_ok v1 (h_add_msg h m) m ->
  hist_ok v1 (h_add_msg h m).
Proof.
  intros Hh Hq Hm. apply (hist_ok_ext v1 h); [done|by apply quiet_ext|done| |by left|].
  - intros m' [->|?]%elem_of_cons; auto.
  - intros ? ? ? ? ? ? ? ? ? H1%quiet_promised H2%quiet_promised; [|done..]. by eapply (ho_promise _ _ Hh).
Qed.

(** Sending a quiet message while node [p] moves to [nd']. *)
Lemma cluster_ok_quiet v1 c p nd nd' m : cluster_ok v1 c -> cl_nodes c !! p = Some nd -> quiet m ->
  msg_ok v1 (h_add_msg (cl_hist c) m) m -> preparing_rid (nd_pc nd') = preparing_rid (nd_pc nd) ->
  acceptor_ok v1 (h_add_msg (cl_hist c) m) p (nd_acc nd') ->
  pc_ok (h_add_msg (cl_hist c) m) (nd_acc nd') (nd_pc nd') ->
  cluster_ok v1 (Cluster (<[p := nd']> (cl_nodes c)) (h_add_msg (cl_hist c) m)).
Proof.
  intros Hc Hp Hq Hm Hr Ha Hk. eapply cluster_ok_update; try done.
  - apply hist_ok_quiet; [apply Hc|done|done].
  - apply hist_le_add.
  - intros. by eapply quiet_promised.
  - intros. by eapply quiet_voted.
  - by left.
  - rewrite Hr. by left.
Qed.

Lemma cluster_ok_send v1 c p nd m : cluster_ok v1 c -> cl_nodes c !! p = Some nd -> quiet m ->
  msg_ok v1 (h_add_msg (cl_hist c) m) m -> cluster_ok v1 (cl_send c m).
Proof.
  intros Hc Hp Hq Hm. unfold cl_send. rewrite <-(insert_id (cl_nodes c) p nd Hp).
  eapply cluster_ok_quiet; try done.
  - apply (acceptor_ok_mono v1 (cl_hist c)); [apply hist_le_add| | |by eapply co_acceptor].
    + intros. by eapply quiet_promised.
    + intros. by eapply quiet_voted.
  - apply (pc_ok_mono (cl_hist c) _ (nd_acc nd)); [apply hist_le_add|lia|by left|by eapply co_pc].
Qed.

(** A node moves on without sending. *)
Lemma cluster_ok_move v1 c p nd nd' : cluster_ok v1 c -> cl_nodes c !! p = Some nd ->
  (forall rid, preparing_rid (nd_pc nd') = Some rid -> preparing_rid (nd_pc nd) = Some rid) ->
  acceptor_ok v1 (cl_hist c) p (nd_acc nd') -> pc_ok (cl_hist c) (nd_acc nd') (nd_pc nd') ->
  cluster_ok v1 (cl_set_node c p nd').
Proof.
  intros Hc Hp Hr Ha Hk. unfold cl_set_node. eapply cluster_ok_update; try done; try (by left).
  - apply Hc.
  - intros rid ?%Hr. by left.
Qed.

(** ** Committing *)

Lemma acceptor_ok_commit v1 h q a i v : acceptor_ok v1 h q a -> i <= a_instance_h a + 1 ->
  decided v1 h i v -> acceptor_ok v1 h q (commit_wo a i v).1.
Proof.
  intros [[Hi Hval Hlv Hord] Hp Hv] Hle Hd. unfold commit_wo.
  destruct (Z.ltb_spec (a_instance_h a) i); [|by split]. cbn [fst].
  assert (i = a_instance_h a + 1) as -> by lia. split; [split| |]; cbn.
  - lia.
  - intros j Hj. unfold value_at. cbn. rewrite lookup_insert. case_decide as Hc.
    + by subst.
    + apply Hval. lia.
  - by left.
  - by left.
  - intros i b rid n w [?|[? ?]]%Hp; left; lia.
  - intros i b w [?|[? ?]]%Hv; left; lia.
Qed.

Lemma commit_instance a i v : a_instance_h a <= a_instance_h (commit_wo a i v).1.
Proof. unfold commit_wo. case_bool; cbn; lia. Qed.

(** ** Steps of the proposer *)

Section Steps.
Context (v1 : string) (c : cluster) (Hc : cluster_ok v1 c).
Context (p : string) (nd : node) (Hp : cl_nodes c !! p = Some nd).

Let Hpc := co_pc _ _ Hc _ _ Hp.
Let Hacc := co_acceptor _ _ Hc _ _ Hp.

Lemma step_send_prepare r d todo st : nd_pc nd = Preparing r (d :: todo) st ->
  cluster_ok v1 (cl_send c (MPrepare (r_id r) d (PrepareArg (r_instance r) (r_n r)))).
Proof using Hc Hp.
  intros Hk. pose proof Hpc as H. rewrite Hk in H. destruct H as (Hr & _).
  eapply cluster_ok_send; [done|done|done|]. cbn. by exists r.
Qed.

Lemma step_prepare_skip r d todo st : nd_pc nd = Preparing r (d :: todo) st ->
  cluster_ok v1 (cl_set_node c p (nd_set_pc nd (Preparing r todo st))).
Proof using Hc Hp.
  intros Hk. pose proof Hpc as H. rewrite Hk in H. eapply cluster_ok_move; try done. by rewrite Hk.
Qed.

Lemma quorum_ok_reply r st d n_a v_a : hist_ok v1 (cl_hist c) ->
  quorum_ok (cl_hist c) r (ps_accepts st) (ps_v st) (ps_currn_a st) ->
  promised (cl_hist c) d (r_instance r) (r_n r) (r_id r) n_a v_a ->
  match prepare_body st d (Some (PrepareRes false true n_a v_a)) with
  | inl st' => quorum_ok (cl_hist c) r (ps_accepts st') (ps_v st') (ps_currn_a st')
  | inr _ => False
  end.
Proof using.
  intros Hh (Hlv & Hlt & Hq) Hprom.
  destruct (ho_msg _ _ Hh _ Hprom) as (_ & _ & Hm). destruct (Hm eq_refl eq_refl) as (Hlv' & Hlt' & _).
  cbn in Hlv', Hlt' |- *. destruct (prop_gt n_a (ps_currn_a st)) eqn:Hgt; cbn.
  - split_and!; [done|done|]. intros q [Hin|Hin]%elem_of_app.
    + destruct (Hq q Hin) as (n' & v' & ? & Hle). exists n', v'. split; [done|].
      intros Hn'. apply prop_lt_le. by eapply prop_le_lt_trans; [apply Hle|].
    + apply list_elem_of_singleton in Hin as ->. exists n_a, v_a. split; [done|]. intros _. apply prop_le_refl.
  - split_and!; [done|done|]. intros q [Hin|Hin]%elem_of_app; [by apply Hq|].
    apply list_elem_of_singleton in Hin as ->. exists n_a, v_a. split; [done|]. intros _. by apply prop_not_lt.
Qed.

Lemma step_prepare_res r d todo st arg res : nd_pc nd = Preparing r (d :: todo) st ->
  MPrepareRes (r_id r) d arg res ∈ h_net (cl_hist c) ->
  cluster_ok v1 (cl_set_node c p (got_prepare_res nd r todo st d res)).
Proof using Hc Hp.
  intros Hk Hin. pose proof Hpc as H. rewrite Hk in H. destruct H as (Hr & Hnp & Hi & Hq).
  pose proof (co_hist _ _ Hc) as Hh. pose proof (ho_msg _ _ Hh _ Hin) as ((r' & Hr' & ->) & Hold & _).
  assert (r' = r) as -> by congruence. cbn in Hold.
  destruct res as [old acc n_a v_a]. cbn in Hold. unfold got_prepare_res.
  destruct old.
  - cbn [prepare_body pr_oldinstance pr_v_a]. specialize (Hold eq_refl). eapply cluster_ok_move; try done.
    cbn. apply acceptor_ok_commit; [done|lia|done].
  - destruct acc.
    + pose proof (quorum_ok_reply r st d n_a v_a Hh Hq Hin) as Hq'.
      destruct (prepare_body _ _ _) as [st'|]; [|done].
      eapply cluster_ok_move; [done|done| |done|]; cbn; [by rewrite Hk|by split_and!].
    + eapply cluster_ok_move; [done|done| |done|]; cbn; [by rewrite Hk|by split_and!].
Qed.

Lemma step_send_accept r v d todo accepts : nd_pc nd = Accepting r v (d :: todo) accepts ->
  cluster_ok v1 (cl_send c (MAccept (r_id r) d (AcceptArg (r_instance r) (r_n r) v))).
Proof using Hc Hp.
  intros Hk. pose proof Hpc as H. rewrite Hk in H. destruct H as (Hr & pr & Hpr & Hid & Hv & Htodo & _).
  destruct (ho_prop _ _ (co_hist _ _ Hc) _ Hpr) as ((r' & Hr' & Hi & Hn & _) & _).
  rewrite Hid in Hr'. assert (r' = r) as -> by congruence.
  eapply cluster_ok_send; [done|done|done|]. cbn. exists pr. split_and!; [done|done|congruence|].
  apply Htodo. by left.
Qed.

Lemma step_accept_skip r v d todo accepts : nd_pc nd = Accepting r v (d :: todo) accepts ->
  cluster_ok v1 (cl_set_node c p (nd_set_pc nd (Accepting r v todo accepts))).
Proof using Hc Hp.
  intros Hk. pose proof Hpc as H. rewrite Hk in H. destruct H as (Hr & pr & ? & ? & ? & Htodo & ?).
  eapply cluster_ok_move; try done. cbn. split; [done|]. exists pr. split_and!; try done.
  intros q Hq. apply Htodo. by right.
Qed.

Lemma step_accept_res r v d todo accepts arg res : nd_pc nd = Accepting r v (d :: todo) accepts ->
  MAcceptRes (r_id r) d arg res ∈ h_net (cl_hist c) ->
  cluster_ok v1 (cl_set_node c p (nd_set_pc nd (Accepting r v todo (accept_body accepts d (Some res))))).
Proof using Hc Hp.
  intros Hk Hin. destruct res; [|by eapply step_accept_skip].
  pose proof Hpc as H. rewrite Hk in H. destruct H as (Hr & pr & Hpr & Hid & Hv & Htodo & Hacs).
  destruct (ho_msg _ _ (co_hist _ _ Hc) _ Hin eq_refl) as (pr' & Hpr' & Hid' & -> & _).
  assert (pr' = pr) as -> by (apply (ho_rid _ _ (co_hist _ _ Hc)); congruence).
  destruct (ho_prop _ _ (co_hist _ _ Hc) _ Hpr) as ((r' & Hr' & Hi & Hn & _) & _).
  rewrite Hid in Hr'. assert (r' = r) as -> by congruence.
  eapply cluster_ok_move; try done. cbn. split; [done|]. exists pr. split_and!; try done.
  - intros q Hq. apply Htodo. by right.
  - intros q [Hq|Hq]%elem_of_app; [by apply Hacs|]. apply list_elem_of_singleton in Hq as ->.
    exists (r_id r). congruence.
Qed.

Lemma step_accept_done r v accepts : nd_pc nd = Accepting r v [] accepts ->
  cluster_ok v1 (cl_set_node c p (after_accept nd r v accepts)).
Proof using Hc Hp.
  intros Hk. pose proof Hpc as H. rewrite Hk in H. destruct H as (Hr & pr & Hpr & Hid & Hv & _ & Hacs).
  destruct (ho_prop _ _ (co_hist _ _ Hc) _ Hpr) as ((r' & Hr' & Hi & Hn & Hcur) & _).
  rewrite Hid in Hr'. assert (r' = r) as -> by congruence.
  unfold after_accept. destruct (majority _ _) eqn:Hmaj; eapply cluster_ok_move; try done.
  cbn. exists pr. assert (Hvot : forall q, q ∈ accepts -> voted (cl_hist c) q (pp_instance pr) (pp_n pr) v).
  { rewrite Hi, Hn. done. }
  split_and!; [|done|done|done]. split; [done|]. exists accepts. split; [by rewrite Hcur|by rewrite Hv].
Qed.

Lemma step_send_decide r v d todo : nd_pc nd = Deciding r v (d :: todo) ->
  cluster_ok v1 (cl_send c (MDecide d (DecideArg (r_instance r) v))).
Proof using Hc Hp.
  intros Hk. pose proof Hpc as H. rewrite Hk in H. destruct H as (pr & Hch & Hi & Hv & Htodo).
  eapply cluster_ok_send; [done|done|done|]. cbn. exists pr.
  assert (Hle : hist_le (cl_hist c) (h_add_msg (cl_hist c) (MDecide d (DecideArg (r_instance r) v))))
    by apply hist_le_add.
  split_and!; [eauto with paxos|congruence|]. rewrite Hv. eapply voted_mono; [done|]. apply Htodo. by left.
Qed.

Lemma step_decide_next r v d todo : nd_pc nd = Deciding r v (d :: todo) ->
  cluster_ok v1 (cl_set_node c p (nd_set_pc nd (Deciding r v todo))).
Proof using Hc Hp.
  intros Hk. pose proof Hpc as H. rewrite Hk in H. destruct H as (pr & ? & ? & ? & Htodo).
  eapply cluster_ok_move; try done. cbn. exists pr. split_and!; try done.
  intros q Hq. apply Htodo. by right.
Qed.
End Steps.

(** ** A new proposal is safe *)

Section NewProposal.
Context (v1 : string) (h : hist) (Hok : hist_ok v1 h).
Context (r : run) (Hr : h_runs h !! r_id r = Some r).
Context (Hnew : forall pr, pr ∈ h_props h -> pp_rid pr <> r_id r).
Context (Q : list string) (v : string) (currn : prop_t) (Hq : quorum_ok h r Q v currn).
Context (Hmaj : majority (r_cur_nodes r) Q = true).

Lemma cur_of_run pr : pr ∈ h_props h -> pp_instance pr = r_instance r -> pp_cur pr = r_cur_nodes r.
Proof using Hok Hr.
  intros Hpr Hi. destruct (cur_of_proposal v1 h Hok pr Hpr) as (_ & _ & x & Hx & ->).
  destruct (ho_run _ _ Hok _ _ Hr) as (_ & _ & _ & _ & y & Hy & ->).
  rewrite Hi in Hx. f_equal. by eapply decided_unique.
Qed.

(** Nobody in the quorum has voted between the highest reported vote and [r_n r]. *)
Lemma quorum_blocks c : c ≺ r_n r -> (1 <= pn currn -> currn ≺ c) ->
  blocked h (r_cur_nodes r) (r_instance r) c.
Proof using Hok Hq Hmaj.
  intros Hlt Hc. exists Q. split; [done|]. intros q HqQ. destruct Hq as (_ & _ & Hall).
  destruct (Hall q HqQ) as (n_a & v_a & Hprom & Hle). split.
  - by exists (r_n r), (r_id r), n_a, v_a.
  - intros w Hw. destruct (ho_msg _ _ Hok _ Hprom) as (_ & _ & Hm).
    destruct (Hm eq_refl eq_refl) as (_ & _ & Hvotes). cbn in Hvotes.
    destruct (Hvotes c w Hw Hlt) as [H1 H2]. specialize (Hle H1).
    pose proof (prop_round_le _ _ Hle). pose proof (prop_le_trans _ _ _ H2 Hle) as H3.
    apply prop_le_not_lt in H3. apply H3, Hc. lia.
Qed.

Lemma choose_last : 1 <= pn currn -> choose_value v (r_newv r) = v.
Proof using Hok Hq.
  intros H. destruct Hq as ([[? _]|[_ (pr & Hpr & _ & _ & Hv)]] & _); [lia|].
  destruct (ho_prop _ _ Hok _ Hpr) as (_ & Hne & _). unfold choose_value.
  destruct (String.eqb_spec v ""); [congruence|done].
Qed.

Lemma new_above pr : pr ∈ h_props h -> pp_instance pr = r_instance r -> pp_n pr ≺ r_n r ->
  pp_val pr = choose_value v (r_newv r) \/ blocked h (pp_cur pr) (pp_instance pr) (pp_n pr).
Proof using All.
  intros Hpr Hi Hlt. rewrite (cur_of_run pr Hpr Hi), Hi.
  pose proof Hq as (Hlv & _). destruct Hlv as [[H0 _]|[H1 (pr3 & Hpr3 & Hi3 & Hn3 & Hv3)]].
  { right. apply quorum_blocks; [done|lia]. }
  rewrite (choose_last H1). destruct (prop_cases (pp_n pr) currn) as [Hc|[Hc|Hc]].
  - rewrite <-Hn3 in Hc. destruct (ho_safe _ _ Hok pr3 pr Hpr3 Hpr ltac:(congruence) Hc) as [Heq|Hb].
    + left. congruence.
    + right. by rewrite (cur_of_run pr Hpr Hi), Hi in Hb.
  - left. rewrite (same_number_same_proposal v1 h Hok pr pr3); [done|done|done|congruence|congruence|].
    eapply cur_unique; [done..|congruence].
  - right. by apply quorum_blocks.
Qed.

Lemma new_below pr : pr ∈ h_props h -> pp_instance pr = r_instance r -> r_n r ≺ pp_n pr ->
  blocked h (r_cur_nodes r) (r_instance r) (r_n r).
Proof using All.
  intros Hpr Hi Hlt. destruct (ho_prop _ _ Hok _ Hpr) as (_ & _ & HQ2 & Hp2).
  rewrite (cur_of_run pr Hpr Hi) in HQ2. exists (pp_quorum pr). split; [done|]. intros q Hin.
  destruct (Hp2 q Hin) as (n & w & Hprom). rewrite Hi in Hprom. split; [by eexists _, _, _, _|].
  intros w' Hw. destruct (voted_proposed v1 h Hok _ _ _ _ Hw) as (pr3 & Hpr3 & Hi3 & Hn3 & _ & _).
  destruct (ho_prop _ _ Hok _ Hpr3) as (_ & _ & HQ3 & Hp3).
  rewrite (cur_of_run pr3 Hpr3 Hi3) in HQ3.
  destruct (majorities_intersect _ _ _ Hmaj HQ3) as (q' & Hq1 & Hq3).
  destruct Hq as (_ & _ & Hall). destruct (Hall q' Hq1) as (n1 & w1 & Hpa & _).
  destruct (Hp3 q' Hq3) as (n3 & w3 & Hpb). rewrite Hi3, Hn3 in Hpb.
  apply (Hnew pr3 Hpr3). symmetry. by eapply (ho_promise _ _ Hok).
Qed.

Definition new_proposal : proposal :=
  Proposal (r_id r) (r_instance r) (r_n r) (choose_value v (r_newv r)) (r_cur_nodes r) Q.
Definition new_hist : hist := Hist (h_net h) (new_proposal :: h_props h) (h_runs h).

Lemma new_hist_ext : hist_ext h new_hist.
Proof using. split; [split; [done|by right|done]|done]. Qed.

Lemma new_hist_ok : hist_ok v1 new_hist.
Proof using All.
  pose proof new_hist_ext as Hext. pose proof (he_le _ _ Hext) as Hle.
  assert (Hbl : forall cur i c, blocked h cur i c -> blocked new_hist cur i c).
  { intros. by eapply blocked_ext. }
  split; cbn [new_hist h_net h_props h_runs].
  - intros m Hm. by eapply msg_ok_ext, (ho_msg _ _ Hok).
  - intros rid r' Hr'. by eapply run_mono, (ho_run _ _ Hok).
  - intros pr [->|Hpr]%elem_of_cons; [|by eapply proposal_mono, (ho_prop _ _ Hok)].
    split_and!; cbn; [by exists r| |done|].
    + destruct (ho_run _ _ Hok _ _ Hr) as (_ & _ & _ & Hne & _). unfold choose_value.
      by destruct (String.eqb_spec v "").
    + intros q HqQ. destruct Hq as (_ & _ & Hall). destruct (Hall q HqQ) as (n & w & ? & _). by exists n, w.
  - intros pr1 pr2 [->|H1]%elem_of_cons [->|H2]%elem_of_cons; cbn; [done| | |by apply (ho_rid _ _ Hok)].
    + intros Heq. by destruct (Hnew pr2 H2).
    + intros Heq. by destruct (Hnew pr1 H1).
  - apply (ho_promise _ _ Hok).
  - intros pr1 pr2 [->|H1]%elem_of_cons [->|H2]%elem_of_cons; cbn; intros Hi Hn.
    + by destruct (prop_lt_irrefl (r_n r)).
    + destruct (new_above pr2 H2) as [?|?]; auto.
    + right. apply Hbl. by apply (new_below pr1).
    + destruct (ho_safe _ _ Hok pr1 pr2 H1 H2 Hi Hn); auto.
Qed.
End NewProposal.

(** ** The remaining steps *)

Section MoreSteps.
Context (v1 : string) (c : cluster) (Hc : cluster_ok v1 c).
Context (p : string) (nd : node) (Hp : cl_nodes c !! p = Some nd).

Let Hpc := co_pc _ _ Hc _ _ Hp.
Let Hacc := co_acceptor _ _ Hc _ _ Hp.
Let Hh := co_hist _ _ Hc.

Lemma step_prepare_done r st : nd_pc nd = Preparing r [] st ->
  cluster_ok v1 (Cluster (<[p := (after_prepare nd r st (cl_hist c)).1]> (cl_nodes c))
                   (after_prepare nd r st (cl_hist c)).2).
Proof using Hc Hp.
  intros Hk. pose proof Hpc as H. rewrite Hk in H. destruct H as (Hr & Hnew & Hi & Hq).
  unfold after_prepare. destruct (majority _ _) eqn:Hmaj; [|by eapply cluster_ok_move].
  cbn [fst snd]. pose proof (new_hist_ext (cl_hist c) r (ps_accepts st) (ps_v st)) as Hext.
  pose proof (he_le _ _ Hext) as Hle.
  eapply cluster_ok_update; try done.
  - by eapply (new_hist_ok v1 (cl_hist c) Hh r Hr Hnew).
  - intros pr [->|?]%elem_of_cons; [right; by rewrite Hk|by left].
  - by eapply acceptor_ok_mono.
  - cbn. split; [done|]. eexists. split_and!; [by left|done|done|done|]. by intros q ?%elem_of_nil.
Qed.

Lemma setn_round pro n_h : 0 <= pn n_h < 2 ^ 32 - 1 -> 0 <= pn (p_my_n pro) < 2 ^ 32 - 1 ->
  1 <= pn (p_my_n (setn pro n_h)).
Proof using. intros H1 H2. cbn. rewrite !wrap_small by lia. case_bool; lia. Qed.

Lemma step_start i newv rid r :
  2 <= i < 2 ^ 32 -> i - 1 <= a_instance_h (nd_acc nd) -> newv <> ""%string ->
  0 <= pn (a_n_h (nd_acc nd)) < 2 ^ 32 - 1 -> 0 <= pn (p_my_n (nd_pro nd)) < 2 ^ 32 - 1 ->
  h_runs (cl_hist c) !! rid = None ->
  let pro := p_set_stable (setn (nd_pro nd) (a_n_h (nd_acc nd))) false in
  r = Run rid i (members (value_at (nd_acc nd) (i - 1))) newv (p_my_n pro) ->
  cluster_ok v1 (Cluster (<[p := Node (nd_acc nd) pro (Preparing r (r_cur_nodes r) prep_init)]> (cl_nodes c))
    (Hist (h_net (cl_hist c)) (h_props (cl_hist c)) (<[rid := r]> (h_runs (cl_hist c))))).
Proof using Hc Hp.
  intros Hi Hih Hne Hn1 Hn2 Hrid pro Hr.
  set (h' := Hist _ _ _).
  assert (Hle : hist_le (cl_hist c) h').
  { split; [done|done|]. intros rid' r' Hr'. cbn. rewrite lookup_insert_ne; [done|congruence]. }
  assert (Hrun : run_ok v1 h' rid r).
  { subst r. split; [done|]. split; [done|]. split; [by apply setn_round|]. split; [done|].
    exists (value_at (nd_acc nd) (i - 1)). split; [|done]. eapply decided_mono; [done|].
    apply (sn_values _ _ _ (ac_snapshot _ _ _ _ Hacc)). cbn. lia. }
  eapply cluster_ok_update; try done.
  - apply (hist_ok_ext v1 (cl_hist c)); [done|by split|done|by left| |apply (ho_promise _ _ Hh)].
    intros rid' r'. cbn. rewrite lookup_insert. case_decide as Heq; [|by left].
    intros [= <-]. right. by subst rid'.
  - by left.
  - cbn. intros rid' [= <-]. right. by subst r.
  - by eapply acceptor_ok_mono.
  - cbn. assert (r_id r = rid) as -> by (by subst r). rewrite lookup_insert_eq. split_and!.
    + done.
    + intros pr Hpr Heq. destruct (ho_prop _ _ Hh _ Hpr) as ((r' & Hr' & _) & _). congruence.
    + by subst r.
    + split_and!; [by left|done|by intros q ?%elem_of_nil].
Qed.

Lemma step_restart a' : acc_equiv a' (nd_acc nd) ->
  cluster_ok v1 (cl_set_node c p (Node a' (proposer_new p) Idle)).
Proof using Hc Hp.
  intros [He1 He2 He3 He4 He5 He6]. eapply cluster_ok_move; try done. cbn.
  pose proof Hacc as [[Hi Hval Hlv Hord] Hprom Hvote].
  assert (Hna : 1 <= pn (a_n_a (nd_acc nd)) -> a_n_a a' = a_n_a (nd_acc nd)).
  { destruct He3 as [E1 E2]. intros H. destruct (a_n_a a'), (a_n_a (nd_acc nd)); cbn in *.
    rewrite E2 by lia. by rewrite E1. }
  assert (Hnh : forall b, 1 <= pn b -> b ≼ a_n_h (nd_acc nd) -> b ≼ a_n_h a').
  { intros b Hb Hle. pose proof (prop_round_le _ _ Hle). destruct He2 as [E1 E2].
    assert (a_n_h a' = a_n_h (nd_acc nd)) as ->; [|done].
    destruct (a_n_h a'), (a_n_h (nd_acc nd)); cbn in *. rewrite E2 by lia. by rewrite E1. }
  split; [split| |]; rewrite ?He5, ?He4.
  - done.
  - intros j Hj. rewrite He6. by apply Hval.
  - destruct Hlv as [[H0 ->]|[H1 Hpp]]; [left; split; [rewrite (proj1 He3)|]; done|].
    right. rewrite Hna by done. done.
  - destruct Hord as [H0|Hle]; [left; by rewrite (proj1 He3)|].
    destruct Hlv as [[H0 _]|[H1 _]]; [left; by rewrite (proj1 He3)|].
    right. rewrite Hna by done. by apply Hnh.
  - intros i b rid n v Hb. destruct (Hprom _ _ _ _ _ Hb) as [?|[? ?]]; [by left|right]. split; [done|].
    apply Hnh; [|done]. destruct (ho_msg _ _ Hh _ Hb) as ((r & Hr & [= -> ->]) & _).
    apply (ho_run _ _ Hh _ _ Hr).
  - intros i b v Hb. destruct (Hvote _ _ _ Hb) as [?|(? & ? & ?)]; [by left|right].
    by rewrite Hna.
Qed.

Lemma step_dump : cluster_ok v1 (cl_send c (MDump (nd_acc nd))).
Proof using Hc Hp.
  eapply cluster_ok_send; [done|done|done|]. eapply snapshot_mono; [apply hist_le_add|]. apply Hacc.
Qed.

(** The values of a snapshot are those of its decided instances, so none is empty. *)
Lemma snapshot_value d j : v1 <> ""%string -> snapshot_ok v1 (cl_hist c) d -> 1 <= j <= a_instance_h d -> value_at d j <> ""%string.
Proof using Hc.
  intros Hv Hd Hj. destruct (sn_values _ _ _ Hd j Hj) as [[_ ->]|(_ & pr & Hch & _ & <-)]; [done|].
  apply (ho_prop _ _ Hh pr (proj1 Hch)).
Qed.

Lemma step_join d a' : v1 <> ""%string -> MDump d ∈ h_net (cl_hist c) -> forgets_nothing (nd_acc nd) d ->
  restored (nd_acc nd) d a' -> cluster_ok v1 (cl_set_node c p (nd_set_acc nd a')).
Proof using Hc Hp.
  intros Hv1 Hd Hf HR. pose proof (ho_msg _ _ Hh _ Hd) as Hsn. pose proof Hsn as [Hi Hval Hlv Hord].
  pose proof Hacc as [[Hi0 _ _ _] Hprom Hvote].
  destruct (restored_votes _ _ _ HR) as (R2 & R3 & R4 & R5).
  { destruct Hf as [?|(E & ? & ? & ?)]; [left; lia|]. destruct (decide (1 <= a_instance_h d)); [by left|right].
    split_and!; cbn; [by split|by split|done|lia]. }
  eapply cluster_ok_move; [done|done|done| |].
  2:{ cbn. eapply pc_ok_mono; [by split| |by left|exact Hpc]. rewrite R5. destruct Hf as [?|[? _]]; lia. }
  assert (Hna : 1 <= pn (a_n_a d) -> a_n_a a' = a_n_a d).
  { destruct R3 as [E1 E2]. intros H. destruct (a_n_a a'), (a_n_a d); cbn in *.
    rewrite E2 by lia. by rewrite E1. }
  split; [split| |]; cbn; rewrite ?R5, ?R4.
  - done.
  - intros j Hj. destruct (restored_values _ _ _ j HR) as [->|[E _]]; [by apply Hval|].
    by destruct (snapshot_value d j Hv1 Hsn Hj).
  - destruct Hlv as [[H0 ->]|[H1 Hpp]]; [left; split; [rewrite (proj1 R3)|]; done|].
    right. rewrite Hna by done. done.
  - destruct Hord as [H0|Hle]; [left; by rewrite (proj1 R3)|].
    destruct Hlv as [[H0 _]|[H1 _]]; [left; by rewrite (proj1 R3)|].
    right. rewrite Hna by done. pose proof (prop_round_le _ _ Hle). destruct R2 as [E1 E2].
    assert (a_n_h a' = a_n_h d) as ->; [|done].
    destruct (a_n_h a'), (a_n_h d); cbn in *. rewrite E2 by lia. by rewrite E1.
  - intros i b rid n v Hb. left. destruct (ho_msg _ _ Hh _ Hb) as ((r & Hr & [= -> ->]) & _).
    destruct (ho_run _ _ Hh _ _ Hr) as (_ & Hi2 & Hb1 & _).
    destruct (Hprom _ _ _ _ _ Hb) as [?|[? Hle%prop_round_le]], Hf as [?|(? & ? & _)]; lia.
  - intros i b v Hb. left.
    destruct (voted_proposed v1 _ Hh _ _ _ _ Hb) as (pr & Hpr & <- & <- & _).
    destruct (cur_of_proposal v1 _ Hh pr Hpr) as (Hi2 & _).
    destruct (Hvote _ _ _ Hb) as [?|(? & ? & ?)], Hf as [?|(? & ? & ? & _)]; lia.
Qed.

Lemma step_decide arg a' ups : MDecide p arg ∈ h_net (cl_hist c) ->
  decidereq (nd_acc nd) arg = Some (a', ups) -> cluster_ok v1 (cl_set_node c p (nd_set_acc nd a')).
Proof using Hc Hp.
  intros Hin Hd. destruct (ho_msg _ _ Hh _ Hin) as (pr & Hch & -> & Hvd).
  destruct (cur_of_proposal v1 _ Hh pr (proj1 Hch)) as (Hi2 & _).
  apply decidereq_Some in Hd. cbn in Hd.
  assert (Hle : pp_instance pr <= a_instance_h (nd_acc nd) + 1).
  { destruct (ac_vote _ _ _ _ Hacc _ _ _ Hvd) as [?|(? & ?)]; lia. }
  destruct Hd as [Hd|[= -> ->]]; [|eapply cluster_ok_move; done].
  assert (a' = (commit_wo (nd_acc nd) (pp_instance pr) (pp_val pr)).1) as -> by (by rewrite <-Hd).
  eapply cluster_ok_move; [done|done|done| |]; cbn.
  - apply acceptor_ok_commit; [done|done|]. right. split; [lia|]. by exists pr.
  - eapply pc_ok_mono; [by split|apply commit_instance|by left|done].
Qed.
End MoreSteps.

(** ** Acceptors handle requests that arrive in time *)

Section Acceptors.
Context (v1 : string) (c : cluster) (Hc : cluster_ok v1 c).
Context (d : string) (nd : node) (Hd : cl_nodes c !! d = Some nd).

Let Hpc := co_pc _ _ Hc _ _ Hd.
Let Hacc := co_acceptor _ _ Hc _ _ Hd.
Let Hh := co_hist _ _ Hc.

(** Growth by [m], seen from an acceptor that did not send it. *)
Lemma pc_after m a' : a_instance_h (nd_acc nd) <= a_instance_h a' ->
  pc_ok (h_add_msg (cl_hist c) m) a' (nd_pc nd).
Proof using Hc Hd. intros Hi. eapply pc_ok_mono; [apply hist_le_add|done|by left|done]. Qed.

Lemma acceptor_after m : quiet m -> acceptor_ok v1 (h_add_msg (cl_hist c) m) d (nd_acc nd).
Proof using Hc Hd.
  intros Hq. eapply acceptor_ok_mono; [apply hist_le_add| | |done].
  - intros. by eapply quiet_promised.
  - intros. by eapply quiet_voted.
Qed.

Lemma step_prepare_old rid arg r0 : MPrepare rid d arg ∈ h_net (cl_hist c) ->
  pa_instance arg <= a_instance_h (nd_acc nd) ->
  cluster_ok v1 (cl_send (cl_set_node c d (nd_set_acc nd (preparereq (nd_acc nd) arg r0).1))
                   (MPrepareRes rid d arg (preparereq (nd_acc nd) arg r0).2)).
Proof using Hc Hd.
  intros Hin Hi. destruct (ho_msg _ _ Hh _ Hin) as (r & Hr & ->). cbn in Hi.
  destruct (ho_run _ _ Hh _ _ Hr) as (_ & Hri & _).
  unfold preparereq. cbn [pa_instance]. case_bool; [|lia]. cbn [fst snd].
  set (m := MPrepareRes _ _ _ _). unfold cl_send, cl_set_node. cbn [cl_nodes cl_hist].
  assert (Hv : forall j, default ""%string (<[r_instance r := value_at (nd_acc nd) (r_instance r)]>
    (a_values (nd_acc nd)) !! j) = value_at (nd_acc nd) j).
  { intros j. rewrite lookup_insert. case_decide as E; [by subst|done]. }
  eapply cluster_ok_quiet; [done|done|by left| |done| |by apply pc_after].
  - cbn. split_and!; [by exists r| |done]. intros _.
    eapply decided_mono; [apply hist_le_add|]. apply (sn_values _ _ _ (ac_snapshot _ _ _ _ Hacc)). lia.
  - pose proof (acceptor_after m (or_introl eq_refl)) as [[H1 H2 H3 H4] H5 H6].
    split; [split| |]; try done. intros j Hj. unfold value_at. cbn. rewrite Hv. by apply H2.
Qed.

Lemma step_prepare_promise rid b r0 : MPrepare rid d (PrepareArg (a_instance_h (nd_acc nd) + 1) b) ∈ h_net (cl_hist c) ->
  a_n_h (nd_acc nd) ≺ b ->
  let arg := PrepareArg (a_instance_h (nd_acc nd) + 1) b in
  cluster_ok v1 (cl_send (cl_set_node c d (nd_set_acc nd (preparereq (nd_acc nd) arg r0).1))
                   (MPrepareRes rid d arg (preparereq (nd_acc nd) arg r0).2)).
Proof using Hc Hd.
  intros Hin Hlt arg. pose proof (ho_msg _ _ Hh _ Hin) as (r & Hr & [= Hri ->]).
  unfold preparereq. cbn [pa_instance pa_n arg]. case_bool; [lia|]. rewrite Hlt. cbn [fst snd].
  pose proof Hacc as [[Hi Hval Hlv Hord] Hprom Hvote].
  set (m := MPrepareRes _ _ _ _). unfold cl_send, cl_set_node. cbn [cl_nodes cl_hist].
  set (h' := h_add_msg _ m).
  assert (Hle : hist_le (cl_hist c) h') by apply hist_le_add.
  assert (Hvs : forall q i b' v, voted h' q i b' v -> voted (cl_hist c) q i b' v).
  { intros q i b' v (rid' & [Heq|?]%elem_of_cons); [done|by exists rid']. }
  assert (Hps : forall q i b' rid' n v, promised h' q i b' rid' n v ->
    promised (cl_hist c) q i b' rid' n v \/ (q = d /\ i = a_instance_h (nd_acc nd) + 1 /\ b' = r_n r /\ rid' = rid)).
  { intros q i b' rid' n v [Heq|?]%elem_of_cons; [|by left]. right. unfold m in Heq. by simplify_eq. }
  assert (Hmax : pn (a_n_a (nd_acc nd)) = 0 \/ a_n_a (nd_acc nd) ≺ r_n r).
  { destruct Hord as [?|Hle']; [by left|right]. by eapply prop_le_lt_trans. }
  eapply cluster_ok_update; [done|done| |done| | | | | |].
  - apply (hist_ok_ext v1 (cl_hist c)); [done|by split; [|eauto]|done| |by left|].
    + intros m' [->|?]%elem_of_cons; [right|by left]. split_and!; cbn; [by exists r; rewrite <-Hri|done|].
      intros _ _. split_and!; [eauto with paxos|destruct Hmax; [lia|done]|].
      intros c' w Hw Hc'. destruct (Hvote _ _ _ (Hvs _ _ _ _ Hw)) as [?|(? & ? & ?)]; [lia|done].
    + intros q i b' rid1 n v rid2 n' v' [H1|(-> & -> & -> & ->)]%Hps [H2|(Hq2 & Hi2 & Hb2 & ->)]%Hps.
      * by eapply (ho_promise _ _ Hh).
      * subst. exfalso. destruct (Hprom _ _ _ _ _ H1) as [?|[_ Hle']]; [lia|]. by apply prop_le_not_lt in Hle'.
      * exfalso. destruct (Hprom _ _ _ _ _ H2) as [?|[_ Hle']]; [lia|]. by apply prop_le_not_lt in Hle'.
      * done.
  - intros q i b' rid' n v Hne [?|(? & _)]%Hps; done.
  - eauto.
  - by left.
  - by left.
  - split; [split| |]; cbn; [done|eauto with paxos|eauto with paxos| | |eauto].
    + destruct Hmax; [by left|right]. by apply prop_lt_le.
    + intros i b' rid' n v [H1|(_ & -> & -> & _)]%Hps; [|right; split; [done|apply prop_le_refl]].
      destruct (Hprom _ _ _ _ _ H1) as [?|[? Hle']]; [by left|right]. split; [done|].
      by eapply prop_le_trans, prop_lt_le.
  - by apply pc_after.
Qed.

Lemma step_prepare rid arg r0 : MPrepare rid d arg ∈ h_net (cl_hist c) -> prepare_in_time true (nd_acc nd) arg ->
  cluster_ok v1 (cl_send (cl_set_node c d (nd_set_acc nd (preparereq (nd_acc nd) arg r0).1))
                   (MPrepareRes rid d arg (preparereq (nd_acc nd) arg r0).2)).
Proof using Hc Hd.
  intros Hin Ht. specialize (Ht eq_refl).
  destruct (Z.leb_spec (pa_instance arg) (a_instance_h (nd_acc nd))) as [Hi|Hi]; [by apply step_prepare_old|].
  destruct arg as [i b]. cbn in Ht, Hi. assert (i = a_instance_h (nd_acc nd) + 1) as -> by lia.
  destruct (prop_gt b (a_n_h (nd_acc nd))) eqn:Hgt; [by apply step_prepare_promise|].
  pose proof (ho_msg _ _ Hh _ Hin) as (r & Hr & [= Hri ->]).
  unfold preparereq. cbn [pa_instance pa_n]. case_bool; [lia|]. rewrite Hgt. cbn [fst snd].
  unfold cl_send, cl_set_node. cbn [cl_nodes cl_hist].
  eapply cluster_ok_quiet; [done|done|by right| |done| |by apply pc_after].
  - cbn. split_and!; [|done|done]. exists r. by rewrite <-Hri.
  - apply acceptor_after. by right.
Qed.

Lemma step_accept_vote rid pr : MAccept rid d (AcceptArg (pp_instance pr) (pp_n pr) (pp_val pr)) ∈ h_net (cl_hist c) ->
  pr ∈ h_props (cl_hist c) -> pp_rid pr = rid -> d ∈ pp_quorum pr ->
  pp_instance pr = a_instance_h (nd_acc nd) + 1 -> a_n_h (nd_acc nd) ≼ pp_n pr ->
  let arg := AcceptArg (pp_instance pr) (pp_n pr) (pp_val pr) in
  cluster_ok v1 (cl_send (cl_set_node c d (nd_set_acc nd (acceptreq (nd_acc nd) arg).1))
                   (MAcceptRes rid d arg (acceptreq (nd_acc nd) arg).2)).
Proof using Hc Hd.
  intros Hin Hpr Hrid Hq Hi Hge arg. unfold acceptreq. cbn [aa_n aa_v aa_instance arg]. rewrite Hge. cbn [fst snd].
  pose proof Hacc as [[Hi0 Hval Hlv Hord] Hprom Hvote].
  destruct (cur_of_proposal v1 _ Hh pr Hpr) as (_ & Hround & _).
  destruct (ho_prop _ _ Hh _ Hpr) as (_ & _ & _ & Hpq). destruct (Hpq d Hq) as (n0 & v0 & Hpd).
  assert (Hnh : a_n_h (nd_acc nd) = pp_n pr).
  { destruct (Hprom _ _ _ _ _ Hpd) as [?|[_ ?]]; [lia|]. by apply prop_le_antisym. }
  set (m := MAcceptRes _ _ _ _). unfold cl_send, cl_set_node. cbn [cl_nodes cl_hist]. set (h' := h_add_msg _ m).
  assert (Hle : hist_le (cl_hist c) h') by apply hist_le_add.
  assert (Hps : forall q i b' rid' n v, promised h' q i b' rid' n v -> promised (cl_hist c) q i b' rid' n v).
  { intros q i b' rid' n v [Heq|?]%elem_of_cons; [done|done]. }
  assert (Hvs : forall q i b' v, voted h' q i b' v -> voted (cl_hist c) q i b' v \/
    (q = d /\ i = a_instance_h (nd_acc nd) + 1 /\ b' = pp_n pr)).
  { intros q i b' v (rid' & [Heq|?]%elem_of_cons); [right|left; by exists rid'].
    unfold m, arg in Heq. simplify_eq. by rewrite Hi. }
  eapply cluster_ok_update; [done|done| |done| | | | | |].
  - apply (hist_ok_ext v1 (cl_hist c)); [done| |done| |by left|].
    + split; [done|]. intros q i b' rid' n v c' w Hp' Hlt [?|(-> & -> & ->)]%Hvs; [done|]. exfalso.
      destruct (Hprom _ _ _ _ _ Hp') as [?|[_ Hle']]; [lia|]. rewrite Hnh in Hle'.
      by apply prop_le_not_lt in Hle'.
    + intros m' [->|?]%elem_of_cons; [right|by left]. intros _. exists pr. split_and!; done.
    + intros ? ? ? ? ? ? ? ? ? H1%Hps H2%Hps. by eapply (ho_promise _ _ Hh).
  - eauto.
  - intros q i b' v Hne [?|(? & _)]%Hvs; done.
  - by left.
  - by left.
  - split; [split| |]; cbn; [done|eauto with paxos| |right; rewrite Hnh; apply prop_le_refl|eauto|].
    + right. split; [done|]. exists pr. split_and!; [eauto with paxos|done|done|done].
    + intros i b' v [H1|(_ & -> & ->)]%Hvs; [|right; split_and!; [done|apply prop_le_refl|done]].
      destruct (Hvote _ _ _ H1) as [?|(? & Hle' & Hr1)]; [by left|right]. split_and!; [done| |done].
      destruct Hord as [?|Hord]; [lia|]. rewrite <-Hnh. by eapply prop_le_trans.
  - by apply pc_after.
Qed.

Lemma step_accept rid arg : MAccept rid d arg ∈ h_net (cl_hist c) -> accept_in_time true (nd_acc nd) arg ->
  cluster_ok v1 (cl_send (cl_set_node c d (nd_set_acc nd (acceptreq (nd_acc nd) arg).1))
                   (MAcceptRes rid d arg (acceptreq (nd_acc nd) arg).2)).
Proof using Hc Hd.
  intros Hin Ht. specialize (Ht eq_refl).
  pose proof (ho_msg _ _ Hh _ Hin) as (pr & Hpr & Hrid & -> & Hq). cbn in Ht.
  destruct (prop_ge (pp_n pr) (a_n_h (nd_acc nd))) eqn:Hge; [by apply step_accept_vote|].
  unfold acceptreq. cbn [aa_n]. rewrite Hge. cbn [fst snd].
  unfold cl_send, cl_set_node. cbn [cl_nodes cl_hist].
  by eapply cluster_ok_quiet; [| | | | |apply acceptor_after|apply pc_after].
Qed.
End Acceptors.

(** ** The invariant holds *)

Lemma cluster_ok_step v1 c c' : v1 <> ""%string -> cluster_ok v1 c -> cstep true true c c' -> cluster_ok v1 c'.
Proof.
  intros Hv Hc Hs. destruct Hs.
  - by eapply step_start.
  - by eapply step_send_prepare.
  - by eapply step_prepare.
  - by eapply step_prepare_res.
  - by eapply step_prepare_skip.
  - by eapply step_prepare_done.
  - by eapply step_send_accept.
  - by eapply step_accept.
  - by eapply step_accept_res.
  - by eapply step_accept_skip.
  - by eapply step_accept_done.
  - by eapply step_send_decide.
  - by eapply step_decide.
  - by eapply step_decide_next.
  - eapply cluster_ok_move; try done. cbn. by eapply co_acceptor.
  - by eapply step_restart.
  - by eapply step_dump.
  - eapply step_join; eauto.
Qed.

Lemma blank_ok v1 p : acceptor_ok v1 (Hist [] [] ∅) p (blank p []).
Proof.
  split; [split| |]; cbn; [done|lia|by left|by left| |].
  - by intros ? ? ? ? ? ?%elem_of_nil.
  - by intros ? ? ? (? & ?%elem_of_nil).
Qed.

Lemma first_ok v1 p : acceptor_ok v1 (Hist [] [] ∅) p (first_acceptor p v1 []).
Proof.
  split; [split| |]; cbn; [done| |by left|by left| |].
  - intros j Hj. assert (j = 1) as -> by lia. by left.
  - by intros ? ? ? ? ? ?%elem_of_nil.
  - by intros ? ? ? (? & ?%elem_of_nil).
Qed.

Lemma cluster_init_ok first v1 others : cluster_ok v1 (cluster_init first v1 others).
Proof.
  assert (Hn : forall p nd, cl_nodes (cluster_init first v1 others) !! p = Some nd ->
    nd_pc nd = Idle /\ (nd_acc nd = first_acceptor p v1 [] \/ nd_acc nd = blank p [])).
  { intros p nd. cbn. rewrite lookup_insert. case_decide as Heq.
    - intros [= <-]. cbn. subst. auto.
    - intros Hl. apply elem_of_list_to_map_2 in Hl. apply list_elem_of_fmap in Hl as (q & [= -> ->] & _).
      cbn. auto. }
  split.
  - split; cbn; [by intros ? ?%elem_of_nil|by intros ? ?; rewrite lookup_empty|by intros ? ?%elem_of_nil
      |by intros ? ? ?%elem_of_nil| |by intros ? ? ?%elem_of_nil].
    by intros ? ? ? ? ? ? ? ? ? ?%elem_of_nil.
  - intros p nd [_ [->| ->]]%Hn; [apply first_ok|apply blank_ok].
  - intros p nd [-> _]%Hn. done.
  - intros p p' nd nd' rid [-> _]%Hn. done.
Qed.

Lemma cluster_ok_reachable first v1 others c : v1 <> ""%string ->
  reachable true true (cluster_init first v1 others) c -> cluster_ok v1 c.
Proof.
  intros Hv H. pose proof (cluster_init_ok first v1 others) as Hok.
  induction H as [|c1 c2 c3 Hs _ IH]; [done|]. by eapply IH, cluster_ok_step.
Qed.


