(* ===== verification/PaxosRuns.v ===== *)
(** * Concrete runs of the Paxos cluster

    An executable version of the steps of Paxos.v, used to run concrete schedules:
    a run that decides a view with two concurrent proposers, and the two in which the
    nodes disagree: an accept request arrives after its instance was decided; a node
    joins again and forgets its vote. *)

From Stdlib Require Import ZArith Lia Ascii String.
From stdpp Require Import base list strings gmap sets relations.
From S2P Require Import Prelude Marshall Protocols IoStream PaxosAcceptor Paxos PaxosSafety.
Import paxos_protocol.

Local Open Scope Z_scope.
Local Open Scope cpp_scope.

Inductive action :=
  | AStart (p : string) (i : Z) (newv : string) (rid : nat)
  | ASend (p : string)
  | ADeliver (k : nat)
  | AReply (p : string) (k : nat)
  | ASkip (p : string)
  | ADone (p : string)
  | ADump (p : string)
  | ARestart (p : string)
  | AJoin (p : string) (k : nat).

(** The result object of the prepare stub. *)
Definition res0 : prepareres := PrepareRes false false (Prop_t 0 "") "".

Definition exec_start (c : cluster) (p : string) (i : Z) (newv : string) (rid : nat) : option cluster :=
  nd ← cl_nodes c !! p;
  match nd_pc nd, h_runs (cl_hist c) !! rid with
  | Idle, None =>
      VERIFY! p_stable (nd_pro nd) ;;
      VERIFY! (2 <=? i) && (i <? 2 ^ 32) && (i - 1 <=? a_instance_h (nd_acc nd)) ;;
      VERIFY! negb (String.eqb newv "") ;;
      VERIFY! (0 <=? pn (a_n_h (nd_acc nd))) && (pn (a_n_h (nd_acc nd)) <? 2 ^ 32 - 1) ;;
      VERIFY! (0 <=? pn (p_my_n (nd_pro nd))) && (pn (p_my_n (nd_pro nd)) <? 2 ^ 32 - 1) ;;
      let pro := p_set_stable (setn (nd_pro nd) (a_n_h (nd_acc nd))) false in
      let r := Run rid i (members (value_at (nd_acc nd) (i - 1))) newv (p_my_n pro) in
      Some (Cluster (<[p := Node (nd_acc nd) pro (Preparing r (r_cur_nodes r) prep_init)]> (cl_nodes c))
              (Hist (h_net (cl_hist c)) (h_props (cl_hist c)) (<[rid := r]> (h_runs (cl_hist c)))))
  | _, _ => None
  end.

Definition exec_send (c : cluster) (p : string) : option cluster :=
  nd ← cl_nodes c !! p;
  match nd_pc nd with
  | Preparing r (d :: _) _ => Some (cl_send c (MPrepare (r_id r) d (PrepareArg (r_instance r) (r_n r))))
  | Accepting r v (d :: _) _ => Some (cl_send c (MAccept (r_id r) d (AcceptArg (r_instance r) (r_n r) v)))
  | Deciding r v (d :: _) => Some (cl_send c (MDecide d (DecideArg (r_instance r) v)))
  | _ => None
  end.

Definition exec_deliver (timely : bool) (c : cluster) (k : nat) : option cluster :=
  m ← h_net (cl_hist c) !! k;
  match m with
  | MPrepare rid d arg =>
      nd ← cl_nodes c !! d;
      VERIFY! negb timely || (pa_instance arg <=? a_instance_h (nd_acc nd) + 1) ;;
      let '(a, r) := preparereq (nd_acc nd) arg res0 in
      Some (cl_send (cl_set_node c d (nd_set_acc nd a)) (MPrepareRes rid d arg r))
  | MAccept rid d arg =>
      nd ← cl_nodes c !! d;
      VERIFY! negb timely || (aa_instance arg =? a_instance_h (nd_acc nd) + 1) ;;
      let '(a, r) := acceptreq (nd_acc nd) arg in
      Some (cl_send (cl_set_node c d (nd_set_acc nd a)) (MAcceptRes rid d arg r))
  | MDecide d arg =>
      nd ← cl_nodes c !! d;
      '(a, _) ← decidereq (nd_acc nd) arg;
      Some (cl_set_node c d (nd_set_acc nd a))
  | _ => None
  end.

Definition exec_reply (c : cluster) (p : string) (k : nat) : option cluster :=
  nd ← cl_nodes c !! p;
  m ← h_net (cl_hist c) !! k;
  match nd_pc nd, m with
  | Preparing r (d :: todo) st, MPrepareRes rid d' arg res =>
      VERIFY! (rid =? r_id r)%nat && String.eqb d' d ;;
      Some (cl_set_node c p (got_prepare_res nd r todo st d res))
  | Accepting r v (d :: todo) accepts, MAcceptRes rid d' arg res =>
      VERIFY! (rid =? r_id r)%nat && String.eqb d' d ;;
      Some (cl_set_node c p (nd_set_pc nd (Accepting r v todo (accept_body accepts d (Some res)))))
  | _, _ => None
  end.

Definition exec_skip (c : cluster) (p : string) : option cluster :=
  nd ← cl_nodes c !! p;
  match nd_pc nd with
  | Preparing r (d :: todo) st => Some (cl_set_node c p (nd_set_pc nd (Preparing r todo st)))
  | Accepting r v (d :: todo) accepts => Some (cl_set_node c p (nd_set_pc nd (Accepting r v todo accepts)))
  | Deciding r v (d :: todo) => Some (cl_set_node c p (nd_set_pc nd (Deciding r v todo)))
  | _ => None
  end.

Definition exec_done (c : cluster) (p : string) : option cluster :=
  nd ← cl_nodes c !! p;
  match nd_pc nd with
  | Preparing r [] st =>
      let '(nd', h') := after_prepare nd r st (cl_hist c) in
      Some (Cluster (<[p := nd']> (cl_nodes c)) h')
  | Accepting r v [] accepts => Some (cl_set_node c p (after_accept nd r v accepts))
  | Deciding r v [] => Some (cl_set_node c p (nd_finish nd))
  | _ => None
  end.

Definition exec_dump (c : cluster) (p : string) : option cluster :=
  nd ← cl_nodes c !! p; Some (cl_send c (MDump (nd_acc nd))).

(** A process dies and starts again; its log is complete. *)
Definition exec_restart (c : cluster) (p : string) : option cluster :=
  nd ← cl_nodes c !! p; Some (cl_set_node c p (Node (nd_acc nd) (proposer_new p) Idle)).

(** The log of a node that has decided something, and the node that restores it. *)
Definition records_of (d : acceptor) : list record :=
  ((fun x => RDone x.1 x.2) <$> map_to_list (a_values d)) ++
  [RDone (a_instance_h d) (value_at d (a_instance_h d)); RProp (a_n_h d); RAccept (a_n_a d) (a_v_a d)].
Definition restored_from (a d : acceptor) : acceptor := foldl replay a (records_of d).

Definition forgets_nothingb (a d : acceptor) : bool :=
  (a_instance_h a <? a_instance_h d) ||
  ((a_instance_h a =? a_instance_h d) && (pn (a_n_h a) =? 0) && (pn (a_n_a a) =? 0) && String.eqb (a_v_a a) "").

Definition exec_join (careful : bool) (c : cluster) (p : string) (k : nat) : option cluster :=
  nd ← cl_nodes c !! p;
  m ← h_net (cl_hist c) !! k;
  match m with
  | MDump d =>
      VERIFY! negb careful || forgets_nothingb (nd_acc nd) d ;;
      Some (cl_set_node c p (nd_set_acc nd (restored_from (nd_acc nd) d)))
  | _ => None
  end.

Definition exec (timely careful : bool) (c : cluster) (act : action) : option cluster :=
  match act with
  | AStart p i newv rid => exec_start c p i newv rid
  | ASend p => exec_send c p
  | ADeliver k => exec_deliver timely c k
  | AReply p k => exec_reply c p k
  | ASkip p => exec_skip c p
  | ADone p => exec_done c p
  | ADump p => exec_dump c p
  | ARestart p => exec_restart c p
  | AJoin p k => exec_join careful c p k
  end.

Fixpoint exec_all (timely careful : bool) (c : cluster) (l : list action) : option cluster :=
  match l with
  | [] => Some c
  | act :: l' => c ← exec timely careful c act; exec_all timely careful c l'
  end.

(** ** Executions are runs of the step relation *)

Ltac exec_inv H :=
  repeat match type of H with
  | context [VERIFY ?b _] => unfold VERIFY at 1 in H; destruct b eqn:?; [|discriminate H]
  | (mbind _ ?o) = Some _ => destruct o eqn:?; cbn [mbind option_bind] in H; [|discriminate H]
  end.

Lemma exec_start_sound timely careful c p i newv rid c' : exec_start c p i newv rid = Some c' -> cstep timely careful c c'.
Proof.
  unfold exec_start. intros H. exec_inv H. destruct (nd_pc n) eqn:?; try discriminate H.
  destruct (h_runs _ !! rid) eqn:?; [discriminate H|]. exec_inv H. injection H as <-.
  apply (cs_start _ _ _ p n i newv rid); try done; try lia. by destruct (String.eqb_spec newv "").
Qed.

Lemma exec_send_sound timely careful c p c' : exec_send c p = Some c' -> cstep timely careful c c'.
Proof.
  unfold exec_send. intros H. exec_inv H. destruct (nd_pc n) as [|r [|d t] st|r v [|d t] a|r v [|d t]] eqn:?;
    try discriminate H; injection H as <-.
  - by eapply cs_send_prepare.
  - by eapply cs_send_accept.
  - by eapply cs_send_decide.
Qed.

Lemma exec_deliver_sound timely careful c k c' : exec_deliver timely c k = Some c' -> cstep timely careful c c'.
Proof.
  unfold exec_deliver. intros H. exec_inv H.
  pose proof (list_elem_of_lookup_2 _ _ _ Heqo) as Hin. destruct m as [rid d arg| |rid d arg| |d arg|]; try discriminate H.
  - exec_inv H. destruct (preparereq _ _ _) as [a r] eqn:Hp. injection H as <-.
    pose proof (cs_prepare timely careful c d n rid arg res0) as Hs. rewrite Hp in Hs. apply Hs; [done|done|].
    intros ->. cbn in *. lia.
  - exec_inv H. destruct (acceptreq _ _) as [a r] eqn:Hp. injection H as <-.
    pose proof (cs_accept timely careful c d n rid arg) as Hs. rewrite Hp in Hs. apply Hs; [done|done|].
    intros ->. cbn in *. lia.
  - exec_inv H. destruct p as [a ups]. injection H as <-. by eapply cs_decide.
Qed.

Lemma exec_reply_sound timely careful c p k c' : exec_reply c p k = Some c' -> cstep timely careful c c'.
Proof.
  unfold exec_reply. intros H. exec_inv H.
  pose proof (list_elem_of_lookup_2 _ _ _ Heqo0) as Hin.
  destruct (nd_pc n) as [|r [|d t] st|r v [|d t] a|] eqn:?, m as [|rid d' arg res| |rid d' arg res| |];
    try discriminate H; exec_inv H; injection H as <-;
    apply andb_true_iff in Heqb as [->%Nat.eqb_eq ->%String.eqb_eq].
  - by eapply cs_prepare_res.
  - by eapply cs_accept_res.
Qed.

Lemma exec_skip_sound timely careful c p c' : exec_skip c p = Some c' -> cstep timely careful c c'.
Proof.
  unfold exec_skip. intros H. exec_inv H. destruct (nd_pc n) as [|r [|d t] st|r v [|d t] a|r v [|d t]] eqn:?;
    try discriminate H; injection H as <-.
  - by eapply cs_prepare_skip.
  - by eapply cs_accept_skip.
  - by eapply cs_decide_next.
Qed.

Lemma exec_done_sound timely careful c p c' : exec_done c p = Some c' -> cstep timely careful c c'.
Proof.
  unfold exec_done. intros H. exec_inv H. destruct (nd_pc n) as [|r [|d t] st|r v [|d t] a|r v [|d t]] eqn:?;
    try discriminate H.
  - destruct (after_prepare _ _ _ _) as [nd' h'] eqn:Ha. injection H as <-.
    pose proof (cs_prepare_done timely careful c p n r st) as Hs. rewrite Ha in Hs. by apply Hs.
  - injection H as <-. by eapply cs_accept_done.
  - injection H as <-. by eapply cs_decide_done.
Qed.

Lemma replay_me rs a : a_me (foldl replay a rs) = a_me a.
Proof. revert a. induction rs as [|r rs IH]; intros a; cbn [foldl]; [done|]. rewrite IH. by destruct r. Qed.

Lemma replay_values_all l : forall a j, value_at (foldl replay a ((fun x => RDone x.1 x.2) <$> l)) j =
  default (value_at a j) ((list_to_map (reverse l) : gmap Z string) !! j).
Proof.
  induction l as [|[i v] l IH]; intros a j; [done|]. cbn [fmap list_fmap foldl fst snd]. rewrite IH.
  rewrite reverse_cons, list_to_map_app. unfold value_at. cbn [replay a_values].
  destruct ((list_to_map (reverse l) : gmap Z string) !! j) as [w|] eqn:E; [by rewrite (lookup_union_Some_l _ _ _ _ E)|].
  rewrite lookup_union_r by done. cbn. rewrite !lookup_insert. case_decide; [done|]. by rewrite lookup_empty.
Qed.

Lemma records_of_ok d : acc_equiv (foldl replay (blank (a_me d) []) (records_of d)) d.
Proof.
  unfold records_of. rewrite foldl_app. set (b := foldl replay (blank _ _) _).
  assert (Hme : a_me b = a_me d) by (unfold b; rewrite replay_me; reflexivity).
  split; cbn; try done. intros j. unfold value_at at 1. cbn. rewrite lookup_insert. case_decide as E; [by subst|].
  change (value_at b j = value_at d j). subst b. rewrite replay_values_all.
  rewrite (list_to_map_proper (reverse _) (map_to_list (a_values d))), list_to_map_to_list;
    [|rewrite reverse_Permutation; apply NoDup_fst_map_to_list|apply reverse_Permutation]. unfold value_at. cbn. rewrite lookup_empty. by destruct (a_values d !! j).
Qed.

Lemma exec_join_sound timely careful c p k c' : exec_join careful c p k = Some c' -> cstep timely careful c c'.
Proof.
  unfold exec_join. intros H. exec_inv H. pose proof (list_elem_of_lookup_2 _ _ _ Heqo0) as Hin.
  destruct m; try discriminate H. exec_inv H. injection H as <-.
  eapply cs_join; [done|done| |exists (records_of a); by split; [apply records_of_ok|]].
  intros ->. cbn in Heqb. unfold forgets_nothingb in Heqb.
  rewrite orb_true_iff, !andb_true_iff, !Z.eqb_eq, String.eqb_eq, Z.ltb_lt in Heqb. unfold forgets_nothing. tauto.
Qed.

Lemma exec_all_reachable timely careful l : forall c c',
  exec_all timely careful c l = Some c' -> reachable timely careful c c'.
Proof.
  induction l as [|act l IH]; intros c c' H; cbn [exec_all] in H; [injection H as <-; apply rtc_refl|].
  destruct (exec timely careful c act) as [c1|] eqn:He; cbn [mbind option_bind] in H; [|discriminate H].
  eapply rtc_l; [|by apply IH].
  destruct act; cbn [exec] in He; [by eapply exec_start_sound|by eapply exec_send_sound
    |by eapply exec_deliver_sound|by eapply exec_reply_sound|by eapply exec_skip_sound|by eapply exec_done_sound
    | | |by eapply exec_join_sound].
  - unfold exec_dump in He. exec_inv He. injection He as <-. by eapply cs_dump.
  - unfold exec_restart in He. exec_inv He. injection He as <-. by eapply cs_restart.
Qed.

(** ** Schedules *)

(** Ask the next node: send, handle, get the reply. *)
Definition ask (p : string) : list action := [ASend p; ADeliver 0; AReply p 0].
(** Tell the next node the decision. *)
Definition tell (p : string) : list action := [ASend p; ADeliver 0; ASkip p].
Definition times (n : nat) (l : list action) : list action := concat (replicate n l).

(** An undisturbed [run] with [n] nodes. *)
Definition full_run (p : string) (n : nat) (i : Z) (newv : string) (rid : nat) : list action :=
  [AStart p i newv rid] ++ times n (ask p) ++ [ADone p] ++ times n (ask p) ++ [ADone p] ++
  times n (tell p) ++ [ADone p].

(** Node A adds B and then C: view 3 is {A, B, C}. *)
Definition form_view3 : list action :=
  full_run "A" 1 2 "A B " 0 ++ [ADump "A"; AJoin "B" 0] ++
  full_run "A" 2 3 "A B C " 1 ++ [ADump "A"; AJoin "C" 0].

(** For view 4, A gets the promises of all; before it goes on, B gets higher
    promises of A and B and has them decide {A, B}. *)
Definition rival : list action :=
  [AStart "A" 4 "A C " 2] ++ times 3 (ask "A") ++ [ADone "A"] ++
  [AStart "B" 4 "A B " 3] ++ times 2 (ask "B") ++ [ASkip "B"; ADone "B"] ++
  times 2 (ask "B") ++ [ADone "B"] ++ times 2 (tell "B") ++ [ADone "B"].

(** Now the accept requests of A arrive. *)
Definition late_accepts : list action :=
  times 3 (ask "A") ++ [ADone "A"] ++ times 3 (tell "A") ++ [ADone "A"].

Definition cluster0 : cluster := cluster_init "A" "A" ["B"; "C"].

(** What a node has decided for instance [i], if it has. *)
Definition decision (c : cluster) (p : string) (i : Z) : option string :=
  nd ← cl_nodes c !! p;
  if (1 <=? i) && (i <=? a_instance_h (nd_acc nd)) then Some (value_at (nd_acc nd) i) else None.

(** C37.  [acceptreq] does not check the instance, and it loses agreement: an accept
    request that arrives after the acceptor has decided the instance is accepted,
    because the decision reset [n_h]; with such a request A and B decide that view
    4 is {A, B} while C decides that it is {A, C}. *)
Theorem late_accept_splits_view : exists c, reachable false true cluster0 c /\
  decision c "A" 4 = Some "A B "%string /\ decision c "B" 4 = Some "A B "%string /\
  decision c "C" 4 = Some "A C "%string.
Proof.
  assert (H : (fun c => (decision c "A" 4, decision c "B" 4, decision c "C" 4)) <$>
    exec_all false true cluster0 (form_view3 ++ rival ++ late_accepts) =
    Some (Some "A B "%string, Some "A B "%string, Some "A C "%string)) by (vm_compute; reflexivity).
  destruct (exec_all _ _ _) as [c|] eqn:He; [|discriminate H].
  exists c. split; [exact (exec_all_reachable false true _ _ _ He)|]. injection H as H1 H2 H3.
  split; [exact H1|split; [exact H2|exact H3]].
Qed.

(** Whether the VERIFY of [decidereq] fails at a node. *)
Definition refuses (c : cluster) (p : string) (arg : decidearg) : option bool :=
  nd ← cl_nodes c !! p; Some (match decidereq (nd_acc nd) arg with Some _ => false | None => true end).

(** For view 4, B gets the votes of B and C for {B, C}, which is chosen, and decides it.  C
    dies, starts again and joins through A, which has not seen any of this. *)
Definition rejoin : list action :=
  [AStart "B" 4 "B C " 2; ASkip "B"] ++ times 2 (ask "B") ++ [ADone "B"] ++ times 2 (ask "B") ++ [ADone "B"] ++
  tell "B" ++ [ASend "B"; ARestart "C"; ADump "A"; AJoin "C" 0].
(** A and C now decide {A, C}. *)
Definition after_rejoin : list action :=
  [AStart "A" 4 "A C " 3] ++ ask "A" ++ [ASkip "A"] ++ ask "A" ++ [ADone "A"] ++
  times 2 (ask "A") ++ [ADone "A"] ++ times 2 (tell "A") ++ [ADone "A"].

(** C38.  Joining again loses agreement, with every request in time: [config::restore]
    replaces the log of a process that starts again, and with it the promises and votes of
    its current instance, by those of the node it joins.  C has voted for the view {B, C},
    which B decides; after a restart C has forgotten that, the decision that B sends it
    fails the VERIFY of [decidereq], and A and C decide that view 4 is {A, C}. *)
Theorem rejoin_splits_view :
  (exists c nd, reachable true false cluster0 c /\ cl_nodes c !! "C" = Some nd /\
    MDecide "C" (DecideArg 4 "B C ") ∈ h_net (cl_hist c) /\ decidereq (nd_acc nd) (DecideArg 4 "B C ") = None) /\
  exists c, reachable true false cluster0 c /\ decision c "A" 4 = Some "A C "%string /\
    decision c "B" 4 = Some "B C "%string /\ decision c "C" 4 = Some "A C "%string.
Proof.
  split.
  - assert (H : (fun c => (refuses c "C" (DecideArg 4 "B C "), h_net (cl_hist c) !! 1%nat)) <$>
      exec_all true false cluster0 (form_view3 ++ rejoin) =
      Some (Some true, Some (MDecide "C" (DecideArg 4 "B C ")))) by (vm_compute; reflexivity).
    destruct (exec_all _ _ _ _) as [c|] eqn:He; [|discriminate H]. cbn in H. injection H as H1 H2.
    unfold refuses in H1. destruct (cl_nodes c !! "C") as [nd|] eqn:Hn; [|discriminate H1].
    cbn [mbind option_bind] in H1. destruct (decidereq (nd_acc nd) (DecideArg 4 "B C ")) eqn:Hd; [discriminate H1|]. exists c, nd.
    split; [exact (exec_all_reachable true false _ _ _ He)|]. split; [done|].
    split; [by eapply list_elem_of_lookup_2|done].
  - assert (H : (fun c => (decision c "A" 4, decision c "B" 4, decision c "C" 4)) <$>
      exec_all true false cluster0 (form_view3 ++ rejoin ++ after_rejoin) =
      Some (Some "A C "%string, Some "B C "%string, Some "A C "%string)) by (vm_compute; reflexivity).
    destruct (exec_all _ _ _ _) as [c|] eqn:He; [|discriminate H].
    exists c. split; [exact (exec_all_reachable true false _ _ _ He)|]. injection H as H1 H2 H3.
    split; [exact H1|split; [exact H2|exact H3]].
Qed.

Definition timely_run : option cluster := exec_all true true cluster0 (form_view3 ++ rival).


