(* ===== verification/Config.v ===== *)
(** * The view module

    Models src/mit_6.824/config.cc: the current view of a node, the strings views
    are agreed on as, the calls of the Paxos proposer that add and remove members,
    the upcall when Paxos decides, and the heartbeats.  Handles are those of
    Handle.v; the thread that waits between heartbeats is not modelled; the answer to a
    ping is an argument. *)

From Stdlib Require Import ZArith Lia Ascii String.
From stdpp Require Import base list strings gmap sets.
From S2P Require Import Prelude Marshall Protocols Rpc IoStream PaxosAcceptor Paxos.
Import paxos_protocol.

Local Open Scope Z_scope.
Local Open Scope cpp_scope.

(** ** State and operations *)

Record config := Config { cf_myvid : Z; cf_me : string; cf_mems : list string }.

Definition get_view_wo (acc : acceptor) (instance : Z) : list string := members (value_at acc instance).

Definition reconstruct (c : config) (acc : acceptor) : config :=
  if 0 <? a_instance_h acc
  then Config (a_instance_h acc) (cf_me c) (get_view_wo acc (a_instance_h acc))
  else c.

(** The constructor: the acceptor is started on the log file, then the view read. *)
Definition config_new (junk : Z) (file : list ascii) (first me : string) : option (config * acceptor) :=
  acc ← acceptor_new junk file (String.eqb me first) me me;
  Some (reconstruct (Config 0 me []) acc, acc).

(** [config::restore], for a node that joins. *)
Definition config_restore (junk : Z) (c : config) (acc : acceptor) (s : string)
    : option (config * acceptor) :=
  acc ← restore junk acc s;
  Some (reconstruct c acc, acc).

(** Called by the acceptor; returns the handles to delete and the upcall [commit_change]. *)
Definition paxos_commit (c : config) (instance : Z) (value : string) : config * list string * Z :=
  let newmem := members value in
  let gone := filter (fun m => isamember m newmem = false /\ m <> cf_me c) (cf_mems c) in
  (Config instance (cf_me c) newmem, gone, instance).

Definition ismember (acc : acceptor) (m : string) (vid : Z) : bool := isamember m (get_view_wo acc vid).

(** A call of [proposer::run]: instance, nodes to ask, value to propose. *)
Definition run_args : Type := Z * list string * string.

(** [config::add]: [None] when the view is not the caller's. *)
Definition add (c : config) (new_m : string) (vid : Z) : option run_args :=
  if negb (vid =? cf_myvid c) then None
  else Some (wrap 32 (cf_myvid c + 1), cf_mems c, view_value (cf_mems c ++ [new_m])).

Fixpoint without (m : string) (mems : list string) : list string :=
  match mems with
  | [] => []
  | x :: l => if String.eqb x m then without m l else x :: without m l
  end.
Definition remove_wo (c : config) (m : string) : run_args :=
  (wrap 32 (cf_myvid c + 1), cf_mems c, view_value (without m (cf_mems c))).

(** ** Heartbeats *)

Inductive heartbeat_t := HB_OK | HB_VIEWERR | HB_FAILURE.

(** The node with the smallest name, starting from [me]. *)
Fixpoint smallest (m : string) (cmems : list string) : string :=
  match cmems with
  | [] => m
  | x :: l => smallest (if str_lt x m then x else m) l
  end.

Fixpoint first_unresponsive (me : string) (ping : string -> heartbeat_t) (cmems : list string)
    : option string :=
  match cmems with
  | [] => None
  | x :: l =>
      if String.eqb x me then first_unresponsive me ping l
      else match ping x with HB_OK => first_unresponsive me ping l | _ => Some x end
  end.

(** One round of the heartbeater: whom to remove. [vid_after] is the view when the
    pings have returned. *)
Definition heartbeat_round (c : config) (acc : acceptor) (ping : string -> heartbeat_t) (vid_after : Z)
    : option string :=
  let vid := cf_myvid c in
  let cmems := get_view_wo acc vid in
  if negb (isamember (cf_me c) cmems) then None
  else
    let m := smallest (cf_me c) cmems in
    let suspect :=
      if String.eqb m (cf_me c) then first_unresponsive (cf_me c) ping cmems
      else match ping m with HB_OK => None | _ => Some m end in
    match suspect with
    | Some x => if vid =? vid_after then Some x else None
    | None => None
    end.

(** The handler [config::heartbeat]; [None] is its VERIFY. *)
Definition heartbeat (c : config) (running : bool) (vid : Z) : option (Z * Z) :=
  if vid =? cf_myvid c then Some (OK, to_signed 32 (cf_myvid c))
  else if running then
    VERIFY! (vid =? wrap 32 (cf_myvid c + 1)) || (wrap 32 (vid + 1) =? cf_myvid c) ;;
    Some (OK, to_signed 32 (cf_myvid c))
  else Some (ERR, to_signed 32 (cf_myvid c)).

(** The result of [config::doheartbeat] from the result of its call: the verdict
    and whether the handle is deleted. *)
Definition doheartbeat (ret : Z) : heartbeat_t * bool :=
  if negb (ret =? OK) then
    if (ret =? rpc_const.atmostonce_failure) || (ret =? rpc_const.oldsrv_failure) then (HB_OK, true)
    else if ret <? 0 then (HB_FAILURE, false) else (HB_VIEWERR, false)
  else (HB_OK, false).

(** ** View strings *)

Definition views_text (ms : list string) : list ascii := concat (map (fun x => bytes_of x ++ [" "%char]) ms).

Lemma bytes_of_app a b : bytes_of (String.append a b) = bytes_of a ++ bytes_of b.
Proof. induction a as [|c a IH]; [done|]. exact (f_equal (cons c) IH). Qed.

Lemma bytes_view_value ms : bytes_of (view_value ms) = views_text ms.
Proof.
  unfold view_value. assert (H : forall acc, bytes_of (foldl (fun ost x =>
    String.append (String.append ost x) " ") acc ms) = bytes_of acc ++ views_text ms).
  { induction ms as [|x ms IH]; intros acc; cbn [foldl]; [by rewrite app_nil_r|].
    rewrite IH, !bytes_of_app. unfold views_text. cbn [map concat]. by rewrite <-!app_assoc. }
  apply (H ""%string).
Qed.

Lemma members_loop_text ms : Forall is_token ms -> forall fuel sp m view, all_spaces sp ->
  (length ms < fuel)%nat ->
  members_loop fuel (IStream (sp ++ views_text ms) false false) m view = view ++ ms.
Proof.
  induction 1 as [|x ms Hx _ IH]; intros fuel sp m view Hsp Hf;
    (destruct fuel as [|fuel]; [cbn in Hf; lia|]); cbn [members_loop].
  - unfold views_text. cbn [map concat]. rewrite app_nil_r, read_word_end by done. by rewrite app_nil_r.
  - unfold views_text. cbn [map concat]. rewrite <-app_assoc. cbn [app].
    rewrite (read_word_token sp x " "%char) by done. cbn [is_ok is_fail negb].
    change (" "%char :: concat _) with ([" "%char] ++ views_text ms).
    rewrite IH; [|by repeat constructor|cbn in Hf; lia]. by rewrite <-app_assoc.
Qed.

Lemma views_text_length ms : (length ms <= length (views_text ms))%nat.
Proof.
  unfold views_text. induction ms as [|x ms IH]; cbn [map concat length]; [lia|].
  rewrite !length_app. cbn [length]. lia.
Qed.

Lemma members_view_value ms : Forall is_token ms -> members (view_value ms) = ms.
Proof.
  intros H. unfold members, open_stream. rewrite bytes_view_value.
  apply (members_loop_text ms H _ [] ""%string []); [constructor|]. pose proof (views_text_length ms). lia.
Qed.

Lemma without_spec m l x : x ∈ without m l <-> x ∈ l /\ x <> m.
Proof.
  induction l as [|y l IH]; cbn [without]; [set_solver|].
  destruct (String.eqb_spec y m) as [->|Hne]; set_solver.
Qed.

(** ** The calls of the proposer *)

(** The view a node works with is one its acceptor has decided. *)
Record config_inv (c : config) (acc : acceptor) : Prop := {
  ci_vid : 0 <= cf_myvid c <= a_instance_h acc;
  ci_mems : 1 <= cf_myvid c -> cf_mems c = members (value_at acc (cf_myvid c));
  ci_none : cf_myvid c = 0 -> cf_mems c = [] }.

Lemma reconstruct_inv c acc : 0 <= a_instance_h acc -> config_inv c acc -> config_inv (reconstruct c acc) acc.
Proof.
  intros Hi Hc. unfold reconstruct. case_bool; [|done]. split; cbn; [lia|done|lia].
Qed.

(** The upcall of a commit, which may run after the acceptor has moved on. *)
Lemma paxos_commit_inv c acc i v : 1 <= i <= a_instance_h acc -> value_at acc i = v ->
  config_inv (paxos_commit c i v).1.1 acc.
Proof. intros Hi Hv. split; cbn; [lia|by rewrite Hv|lia]. Qed.

(** Deciding more does not change the views known. *)
Lemma commit_wo_config_inv c acc i v : config_inv c acc -> config_inv c (commit_wo acc i v).1.
Proof.
  intros [Hv Hm Hn]. unfold commit_wo. case_bool; [|done]. split; cbn; [lia| |done].
  intros H1. rewrite Hm by done. unfold value_at. cbn. rewrite lookup_insert_ne; [done|lia].
Qed.

Lemma view_value_nonempty ms : ms <> [] -> view_value ms <> ""%string.
Proof.
  intros Hne Heq. pose proof (bytes_view_value ms) as H. rewrite Heq in H.
  destruct ms as [|x ms]; [done|]. unfold views_text in H. cbn in H. by destruct (bytes_of x).
Qed.

(**  The module asks the right nodes for the right view: [add] runs Paxos for
    the instance after a decided one, among exactly the members of that decided
    view, and the proposed string stands for those members and the new one. *)
Theorem add_proposes_next_view c acc new_m vid i cur v :
  config_inv c acc -> 1 <= cf_myvid c < 2 ^ 32 - 1 -> Forall is_token (cf_mems c) -> is_token new_m ->
  add c new_m vid = Some (i, cur, v) ->
  i - 1 <= a_instance_h acc /\ cur = members (value_at acc (i - 1)) /\ v <> ""%string /\
  members v = cur ++ [new_m].
Proof.
  intros [Hv Hm _] Hvid Hmems Hnew. unfold add. destruct (negb _); [done|]. intros [= <- <- <-].
  rewrite wrap_small by lia. replace (cf_myvid c + 1 - 1) with (cf_myvid c) by lia.
  split_and!; [lia|apply Hm; lia| |].
  - apply view_value_nonempty. by destruct (cf_mems c).
  - apply members_view_value. apply Forall_app. by split; [|apply Forall_singleton].
Qed.

(**  [remove_wo] proposes the decided view without the member, and nothing else
    changes: the members of the proposed string are the other members, in order. *)
Theorem remove_proposes_next_view c acc m i cur v :
  config_inv c acc -> 1 <= cf_myvid c < 2 ^ 32 - 1 -> Forall is_token (cf_mems c) ->
  remove_wo c m = (i, cur, v) ->
  i - 1 <= a_instance_h acc /\ cur = members (value_at acc (i - 1)) /\
  members v = without m cur /\ forall x, x ∈ members v <-> x ∈ cur /\ x <> m.
Proof.
  intros [Hv Hm _] Hvid Hmems [= <- <- <-].
  rewrite wrap_small by lia. replace (cf_myvid c + 1 - 1) with (cf_myvid c) by lia.
  rewrite members_view_value.
  - split_and!; [lia|apply Hm; lia|done|]. intros x. apply without_spec.
  - apply Forall_forall. intros x [Hx _]%without_spec. rewrite Forall_forall in Hmems. by apply Hmems.
Qed.

(** ** Heartbeats *)

Lemma smallest_spec m l : (smallest m l = m \/ smallest m l ∈ l) /\
  str_lt m (smallest m l) = false /\ forall x, x ∈ l -> str_lt x (smallest m l) = false.
Proof.
  revert m. induction l as [|y l IH]; intros m; cbn [smallest]; [split_and!; [by left|apply str_lt_irrefl|by intros ? ?%elem_of_nil]|].
  destruct (IH (if str_lt y m then y else m)) as (Hin & Hm & Hall).
  destruct (str_lt y m) eqn:Hlt.
  - split_and!.
    + destruct Hin as [->|?]; right; [left|by right].
    + destruct (str_lt m (smallest y l)) eqn:E; [|done].
      by rewrite (str_lt_trans _ _ _ Hlt E) in Hm.
    + intros x [->|Hx]%elem_of_cons; auto.
  - split_and!; [destruct Hin; [by left|right; by right]|done|].
    intros x [->|Hx]%elem_of_cons; [|auto].
    destruct (str_lt y (smallest m l)) eqn:E; [|done]. destruct (str_lt m y) eqn:E2.
    + by rewrite (str_lt_trans _ _ _ E2 E) in Hm.
    + pose proof (str_lt_total _ _ E2 Hlt) as ->. congruence.
Qed.

Lemma first_unresponsive_spec me ping l x : first_unresponsive me ping l = Some x ->
  x ∈ l /\ x <> me /\ ping x <> HB_OK.
Proof.
  induction l as [|y l IH]; cbn [first_unresponsive]; [done|].
  destruct (String.eqb_spec y me) as [->|Hne].
  - intros (? & ? & ?)%IH. set_solver.
  - destruct (ping y) eqn:Hp; [intros (? & ? & ?)%IH; set_solver| |]; intros [= <-];
      (split_and!; [left|done|congruence]).
Qed.

(**  The failure detector removes the right node: a round of the heartbeater
    removes only another member of the current view that did not answer OK, and
    only if it is its job: it has the smallest name, or the one removed has. *)
Theorem heartbeat_round_sound c acc ping vid_after x :
  heartbeat_round c acc ping vid_after = Some x ->
  let cmems := members (value_at acc (cf_myvid c)) in
  cf_me c ∈ cmems /\ x ∈ cmems /\ x <> cf_me c /\ ping x <> HB_OK /\ vid_after = cf_myvid c /\
  ((forall y, y ∈ cmems -> str_lt y (cf_me c) = false) \/ (forall y, y ∈ cmems -> str_lt y x = false)).
Proof.
  intros H cmems. unfold heartbeat_round, get_view_wo in H. fold cmems in H.
  destruct (isamember (cf_me c) cmems) eqn:Hme; cbn [negb] in H; [|done].
  assert (Hin : cf_me c ∈ cmems).
  { revert Hme. clear. induction cmems as [|y l IH]; cbn [isamember]; [done|].
    destruct (String.eqb_spec y (cf_me c)) as [->|]; [left|]. intros ?%IH. by right. }
  pose proof (smallest_spec (cf_me c) cmems) as (Hs1 & Hs2 & Hs3).
  destruct (String.eqb_spec (smallest (cf_me c) cmems) (cf_me c)) as [Hs|Hs].
  - destruct (first_unresponsive _ _ _) as [y|] eqn:Hf; [|done].
    apply first_unresponsive_spec in Hf as (? & ? & ?). case_bool; [|done]. simplify_eq.
    split_and!; try done. left. by rewrite Hs in Hs3.
  - destruct (ping (smallest (cf_me c) cmems)) eqn:Hp; [done| |]; case_bool; simplify_eq;
      (split_and!; [done|by destruct Hs1|done|congruence|done|by right]).
Qed.

(**  Heartbeats can abort a node: while a node's proposer is running, a
    heartbeat from a node that is two views ahead fails the handler's VERIFY. *)
Theorem heartbeat_aborts_on_view_gap :
  heartbeat (Config 3 "5000" ["5000"; "5001"]%string) true 5 = None.
Proof. reflexivity. Qed.

(** A node "A" in view 3 = {A, B}. *)
Definition config_ab : config := Config 3 "A" ["A"; "B"]%string.
Definition acceptor_ab : acceptor := Acceptor "A" (Prop_t 0 "A") (Prop_t 0 "A") "" 3 {[3 := "A B "%string]} [].

Lemma config_ab_inv : config_inv config_ab acceptor_ab.
Proof. split; [done|intros _; by vm_compute|done]. Qed.

Lemma config_ab_tokens : Forall is_token (cf_mems config_ab).
Proof. repeat constructor; done. Qed.

Lemma add_proposes_next_view_witness : 
  4 - 1 <= a_instance_h acceptor_ab /\ cf_mems config_ab = members (value_at acceptor_ab (4 - 1)) /\
  "A B C "%string <> ""%string /\ members "A B C " = cf_mems config_ab ++ ["C"%string].
Proof.
  apply (add_proposes_next_view config_ab acceptor_ab "C" 3 4 (cf_mems config_ab) "A B C ");
    [exact config_ab_inv|done|exact config_ab_tokens|by split; [|repeat constructor]|by vm_compute].
Defined.

Lemma remove_proposes_next_view_witness : 
  4 - 1 <= a_instance_h acceptor_ab /\ cf_mems config_ab = members (value_at acceptor_ab (4 - 1)) /\
  members "A " = without "B" (cf_mems config_ab) /\
  forall x, x ∈ members "A " <-> x ∈ cf_mems config_ab /\ x <> "B"%string.
Proof.
  apply (remove_proposes_next_view config_ab acceptor_ab "B" 4 (cf_mems config_ab) "A ");
    [exact config_ab_inv|done|exact config_ab_tokens|by vm_compute].
Defined.

Lemma heartbeat_round_sound_witness : 
  "B"%string ∈ members (value_at acceptor_ab 3) /\ "B"%string <> "A"%string.
Proof.
  destruct (heartbeat_round_sound config_ab acceptor_ab (fun _ => HB_FAILURE) 3 "B") as (_ & H1 & H2 & _);
    [by vm_compute|]. split; [exact H1|exact H2].
Defined.
