(* ===== verification/Locks.v ===== *)
(** * The lock service

    Models src/mit_6.824/lock_server_cache_rsm.cc (the replicated caching lock
    server), lock_client_cache_rsm.cc (the caching client) and lock_server.cc (the
    first, blocking server).  [LockSystem] puts one server and any number of
    clients together for one lock; the code treats locks independently. *)

From Stdlib Require Import ZArith Lia Ascii String.
From stdpp Require Import base list strings gmap sets relations sorting.
From S2P Require Import Prelude Marshall Protocols.

Local Open Scope Z_scope.
Local Open Scope cpp_scope.

Module lock_protocol.
Definition OK : Z := 0.
Definition RETRY : Z := 1.
End lock_protocol.

(** ** The replicated server *)

Record client_info := ClientInfo {
  ci_cid : string; ci_xid : Z; ci_available : bool; ci_waited : gset string }.

Record lock_server := LockServer {
  ls_clients : gmap Z client_info; ls_revoker_queue : list Z; ls_retryer_queue : list Z }.

Definition ls_set (s : lock_server) (lid : Z) (ci : client_info) : lock_server :=
  LockServer (<[lid := ci]> (ls_clients s)) (ls_revoker_queue s) (ls_retryer_queue s).
Definition ls_enq_revoke (s : lock_server) (lid : Z) (b : bool) : lock_server :=
  if b then LockServer (ls_clients s) (ls_revoker_queue s ++ [lid]) (ls_retryer_queue s) else s.

(** [lock_server_cache_rsm::acquire] with [prim] the answer of [amiprimary];
    [None] is the jump over the initialisation of [waited_clts]: a repeated request
    goes on with an uninitialised pointer. *)
Definition server_acquire (prim : bool) (s : lock_server) (lid : Z) (id : string) (xid : Z)
    : option (lock_server * Z) :=
  match ls_clients s !! lid with
  | None => Some (ls_set s lid (ClientInfo id xid false ∅), lock_protocol.OK)
  | Some ci =>
      if String.eqb id (ci_cid ci) && (xid =? ci_xid ci) then None
      else
        let w := ci_waited ci in
        if bool_decide (w <> ∅) && bool_decide (id ∉ w) then
          Some (ls_set s lid (ClientInfo (ci_cid ci) (ci_xid ci) (ci_available ci) ({[id]} ∪ w)),
                lock_protocol.RETRY)
        else if negb (ci_available ci) then
          if bool_decide (id ∉ w) then
            Some (ls_enq_revoke
                    (ls_set s lid (ClientInfo (ci_cid ci) (ci_xid ci) (ci_available ci) ({[id]} ∪ w)))
                    lid prim, lock_protocol.RETRY)
          else Some (s, lock_protocol.RETRY)
        else
          let w' := w ∖ {[id]} in
          Some (ls_enq_revoke (ls_set s lid (ClientInfo id xid false w')) lid
                  (bool_decide (w' <> ∅) && prim), lock_protocol.OK)
  end.

(** [lock_server_cache_rsm::release]: the state, the status and the result [r = lid]. *)
Definition server_release (s : lock_server) (lid : Z) (id : string) : lock_server * Z * Z :=
  let r := to_signed 32 lid in
  match ls_clients s !! lid with
  | Some ci =>
      if String.eqb (ci_cid ci) id
      then (ls_set s lid (ClientInfo (ci_cid ci) (ci_xid ci) true (ci_waited ci)), lock_protocol.OK, r)
      else (s, lock_protocol.OK, r)
  | None => (s, lock_protocol.OK, r)
  end.

(** One turn of the revoker up to its call: the lock and the client that gets the
    revoke.  Outer [None] dereferences the null pointer of a lock nobody asked for;
    inner [None] waits on the empty queue. *)
Definition revoker_deq (s : lock_server) : option (option (lock_server * Z * string)) :=
  match ls_revoker_queue s with
  | [] => Some None
  | lid :: q =>
      ci ← ls_clients s !! lid;
      Some (Some (LockServer (ls_clients s) q (ls_retryer_queue s), lid, ci_cid ci))
  end.

(** The rest of the turn, when the call has returned. *)
Definition revoker_notify (s : lock_server) (lid : Z) : lock_server :=
  LockServer (ls_clients s) (ls_revoker_queue s) (ls_retryer_queue s ++ [lid]).

(** [*waited_clients.begin()]: the least string. *)
Definition set_begin (w : gset string) : option string :=
  foldr (fun x o => match o with
                    | Some y => Some (if str_lt y x then y else x)
                    | None => Some x
                    end) None (elements w).

(** One look of the retryer at the lock of its turn: wait (inner [None]) or send a
    retry.  Outer [None] is its assertion that some client waits, or the null
    pointer of an unknown lock. *)
Definition retryer_look (s : lock_server) (lid : Z) : option (option string) :=
  ci ← ls_clients s !! lid;
  if negb (ci_available ci) then Some None
  else VERIFY! bool_decide (ci_waited ci <> ∅) ;; Some (set_begin (ci_waited ci)).

(** ** The caching client *)

Inductive lstat := NONE | ACQUIRING | LOCKED | RELEASING | FREE.
#[export] Instance lstat_eq_dec : EqDecision lstat.
Proof. solve_decision. Defined.

Record lock_info := LockInfo { li_revoked : bool; li_stat : lstat; li_retry : bool }.
Definition lock_info_new : lock_info := LockInfo false NONE false.

(** What [lock_client_cache_rsm::acquire] does when it looks at the lock: call the
    server, wait, or take the cached lock. *)
Inductive acquire_todo := CallServer | WaitForLock | Taken.
Definition client_acquire (l : lock_info) : lock_info * acquire_todo :=
  match li_stat l with
  | NONE => (LockInfo (li_revoked l) ACQUIRING (li_retry l), CallServer)
  | ACQUIRING | LOCKED | RELEASING => (l, WaitForLock)
  | FREE => (LockInfo (li_revoked l) LOCKED (li_retry l), Taken)
  end.

(** The reply of the server's [acquire]: true if it has to be asked again. *)
Definition client_acquire_reply (l : lock_info) (ret : Z) : option (lock_info * bool) :=
  if ret =? lock_protocol.RETRY then Some (l, true)
  else VERIFY! (ret =? lock_protocol.OK) ;; Some (LockInfo (li_revoked l) LOCKED (li_retry l), false).

(** After the wait for a retry message or its timeout. *)
Definition client_retry_done (l : lock_info) : lock_info := LockInfo (li_revoked l) (li_stat l) false.

(** [release]: true if the lock goes back to the server; [None] is the assertion. *)
Definition client_release (l : lock_info) : option (lock_info * bool) :=
  match li_stat l with
  | NONE => Some (l, false)
  | LOCKED | FREE =>
      if li_revoked l then Some (LockInfo (li_revoked l) RELEASING (li_retry l), true)
      else Some (LockInfo (li_revoked l) FREE (li_retry l), false)
  | _ => None
  end.

(** The server has taken the lock back. *)
Definition client_released (l : lock_info) : lock_info := LockInfo false NONE (li_retry l).

(** [revoke_handler]: true if the lock goes back at once. *)
Definition revoke_handler (l : lock_info) : lock_info * bool :=
  match li_stat l with
  | FREE => (LockInfo true RELEASING (li_retry l), true)
  | _ => (LockInfo true (li_stat l) (li_retry l), false)
  end.

Definition retry_handler (l : lock_info) : lock_info := LockInfo (li_revoked l) (li_stat l) true.

(** ** Server and clients together *)

(** Where the RPC of a client stands: [AcquireCall] is about to read the counter
    [xid], which every thread of the client shares. *)
Inductive rpc_phase :=
  | NoRpc
  | AcquireCall
  | AcquireSent (xid : Z)
  | AcquireReplied (ret : Z)
  | AwaitRetry
  | ReleaseSent
  | ReleaseReplied.

Record lclient := LClient { lc_info : lock_info; lc_rpc : rpc_phase; lc_xid : Z }.

(** The revoker thread: between turns, its revoke travelling to a client, that
    client's handler inside its [release] call, or the call returned. *)
Inductive revoker_pc :=
  | RevokerIdle
  | RevokeSent (c : string)
  | RevokeHandled (c : string)
  | RevokeReturned.

(** One lock [lid]: the server, its two threads, and the clients. *)
Record lsys := LSys {
  sy_server : lock_server; sy_clients : gmap string lclient;
  sy_revoker : revoker_pc; sy_retryer : bool }.

Definition sy_set (s : lsys) (c : string) (k : lclient) : lsys :=
  LSys (sy_server s) (<[c := k]> (sy_clients s)) (sy_revoker s) (sy_retryer s).

Section LockSystem.
(** [steady]: the server is the primary all along, so that [amiprimary] is true whenever a
    request is executed. *)
Context (steady : bool) (lid : Z).

(** Another replica becomes the primary: it has the table, but its own queues, which only the
    primary fills, are empty and its threads idle.  (A revoke that the old primary had sent and
    that has not arrived is lost.) *)
Definition failover (s : lsys) : lsys :=
  LSys (LockServer (ls_clients (sy_server s)) [] []) (sy_clients s) RevokerIdle false.

Inductive lstep (s : lsys) : lsys -> Prop :=
  (** A thread of client [c] calls [acquire]. *)
  | ls_acquire c k l todo :
      sy_clients s !! c = Some k -> client_acquire (lc_info k) = (l, todo) ->
      lstep s (match todo with
               | CallServer => sy_set s c (LClient l AcquireCall (wrap 64 (lc_xid k + 1)))
               | _ => sy_set s c (LClient l (lc_rpc k) (lc_xid k))
               end)
  (** A thread of [c] acquires some other lock: the counter moves on. *)
  | ls_other c k :
      sy_clients s !! c = Some k ->
      lstep s (sy_set s c (LClient (lc_info k) (lc_rpc k) (wrap 64 (lc_xid k + 1))))
  | ls_call c k :
      sy_clients s !! c = Some k -> lc_rpc k = AcquireCall ->
      lstep s (sy_set s c (LClient (lc_info k) (AcquireSent (lc_xid k)) (lc_xid k)))
  | ls_server_acquire c k xid prim srv ret :
      sy_clients s !! c = Some k -> lc_rpc k = AcquireSent xid -> (steady = true -> prim = true) ->
      server_acquire prim (sy_server s) lid c xid = Some (srv, ret) ->
      lstep s (LSys srv (<[c := LClient (lc_info k) (AcquireReplied ret) (lc_xid k)]> (sy_clients s))
                 (sy_revoker s) (sy_retryer s))
  | ls_acquire_reply c k ret l again :
      sy_clients s !! c = Some k -> lc_rpc k = AcquireReplied ret ->
      client_acquire_reply (lc_info k) ret = Some (l, again) ->
      lstep s (sy_set s c (LClient l (if again then AwaitRetry else NoRpc) (lc_xid k)))
  (** A retry message has come or the wait timed out. *)
  | ls_again c k :
      sy_clients s !! c = Some k -> lc_rpc k = AwaitRetry ->
      lstep s (sy_set s c (LClient (client_retry_done (lc_info k)) AcquireCall (lc_xid k)))
  (** The thread that holds the lock calls [release]. *)
  | ls_release c k l back :
      sy_clients s !! c = Some k -> li_stat (lc_info k) = LOCKED ->
      client_release (lc_info k) = Some (l, back) ->
      lstep s (sy_set s c (LClient l (if back then ReleaseSent else lc_rpc k) (lc_xid k)))
  | ls_server_release c k :
      sy_clients s !! c = Some k -> lc_rpc k = ReleaseSent ->
      lstep s (LSys (server_release (sy_server s) lid c).1.1
                 (<[c := LClient (lc_info k) ReleaseReplied (lc_xid k)]> (sy_clients s))
                 (sy_revoker s) (sy_retryer s))
  (** The reply; if a revoke handler made the call, the handler returns too. *)
  | ls_release_reply c k :
      sy_clients s !! c = Some k -> lc_rpc k = ReleaseReplied ->
      lstep s (LSys (sy_server s)
                 (<[c := LClient (client_released (lc_info k)) NoRpc (lc_xid k)]> (sy_clients s))
                 (match sy_revoker s with
                  | RevokeHandled h => if String.eqb h c then RevokeReturned else sy_revoker s
                  | pc => pc
                  end) (sy_retryer s))
  | ls_revoker_deq srv c :
      sy_revoker s = RevokerIdle -> revoker_deq (sy_server s) = Some (Some (srv, lid, c)) ->
      lstep s (LSys srv (sy_clients s) (RevokeSent c) (sy_retryer s))
  | ls_revoke c k l back :
      sy_revoker s = RevokeSent c -> sy_clients s !! c = Some k ->
      revoke_handler (lc_info k) = (l, back) ->
      lstep s (LSys (sy_server s)
                 (<[c := LClient l (if back then ReleaseSent else lc_rpc k) (lc_xid k)]> (sy_clients s))
                 (if back then RevokeHandled c else RevokeReturned) (sy_retryer s))
  | ls_revoker_notify :
      sy_revoker s = RevokeReturned ->
      lstep s (LSys (revoker_notify (sy_server s) lid) (sy_clients s) RevokerIdle (sy_retryer s))
  | ls_retryer_deq q :
      sy_retryer s = false -> ls_retryer_queue (sy_server s) = lid :: q ->
      lstep s (LSys (LockServer (ls_clients (sy_server s)) (ls_revoker_queue (sy_server s)) q)
                 (sy_clients s) (sy_revoker s) true)
  (** The retryer is woken, by the signal of a [release] or without one, and looks. *)
  | ls_retryer c k :
      sy_retryer s = true -> retryer_look (sy_server s) lid = Some (Some c) -> sy_clients s !! c = Some k ->
      lstep s (LSys (sy_server s)
                 (<[c := LClient (retry_handler (lc_info k)) (lc_rpc k) (lc_xid k)]> (sy_clients s))
                 (sy_revoker s) false)
  | ls_failover : steady = false -> lstep s (failover s).

Definition lsys_init (clients : list string) : lsys :=
  LSys (LockServer ∅ [] [])
    (list_to_map ((fun c => (c, LClient lock_info_new NoRpc 0)) <$> clients)) RevokerIdle false.
Definition lock_reachable (clients : list string) : lsys -> Prop := rtc lstep (lsys_init clients).
End LockSystem.

(** ** The invariant of one lock *)

Definition client_wf (k : lclient) : Prop :=
  match lc_rpc k with
  | NoRpc => li_stat (lc_info k) = NONE \/ li_stat (lc_info k) = LOCKED \/ li_stat (lc_info k) = FREE
  | AcquireCall | AcquireSent _ | AcquireReplied _ | AwaitRetry => li_stat (lc_info k) = ACQUIRING
  | ReleaseSent | ReleaseReplied => li_stat (lc_info k) = RELEASING /\ li_revoked (lc_info k) = true
  end.

(** The client has the lock, also before it knows and until the server knows. *)
Definition owns (k : lclient) : Prop :=
  match lc_rpc k with
  | NoRpc => li_stat (lc_info k) = LOCKED \/ li_stat (lc_info k) = FREE
  | AcquireReplied ret => ret = lock_protocol.OK
  | ReleaseSent => True
  | _ => False
  end.

(** A revoke has reached the client and the server does not have the lock back. *)
Definition revoked_live (k : lclient) : Prop := li_revoked (lc_info k) = true /\ lc_rpc k <> ReleaseReplied.

Definition has (P : lclient -> Prop) (m : gmap string lclient) (c : string) : Prop :=
  exists k, m !! c = Some k /\ P k.

(** The client the server takes for the holder. *)
Definition holder (e : option client_info) : option string :=
  ci ← e; if ci_available ci then None else Some (ci_cid ci).

Definition revoke_sent (pc : revoker_pc) : option string :=
  match pc with RevokeSent c => Some c | _ => None end.

Ltac client_cases :=
  unfold client_wf, owns, revoked_live in *; cbn in *; repeat case_match; simplify_eq/=; naive_solver.

Section Invariant.
Context (steady : bool) (lid : Z).

(** No revoke is queued, travelling or pending at a client ([R] is the set of
    clients a revoke has reached). *)
Definition no_revoke (q : list Z) (pc : revoker_pc) (R : string -> Prop) : Prop :=
  q = [] /\ revoke_sent pc = None /\ forall c, ~ R c.

(** Exactly one revoke for [h] is queued, travelling or has arrived. *)
Definition one_revoke (q : list Z) (pc : revoker_pc) (R : string -> Prop) (h : string) : Prop :=
  (q = [lid] /\ revoke_sent pc = None /\ forall c, ~ R c) \/
  (q = [] /\ revoke_sent pc = Some h /\ forall c, ~ R c) \/
  (q = [] /\ revoke_sent pc = None /\ forall c, R c <-> c = h).

Definition revokes_ok (e : option client_info) (q : list Z) (pc : revoker_pc) (R : string -> Prop) : Prop :=
  match e with
  | None => no_revoke q pc R
  | Some ci =>
      if ci_available ci then ci_waited ci <> ∅ /\ no_revoke q pc R
      else (ci_waited ci = ∅ /\ no_revoke q pc R) \/ (ci_waited ci <> ∅ /\ (one_revoke q pc R (ci_cid ci) \/ (steady = false /\ no_revoke q pc R)))
  end.

Definition entry (s : lsys) : option client_info := ls_clients (sy_server s) !! lid.
Definition threads_idle (s : lsys) : Prop :=
  ls_revoker_queue (sy_server s) = [] /\ ls_retryer_queue (sy_server s) = [] /\
  sy_revoker s = RevokerIdle /\ sy_retryer s = false.

Record lock_inv (s : lsys) : Prop := {
  l_wf c k : sy_clients s !! c = Some k -> client_wf k;
  l_owner c : has owns (sy_clients s) c <-> holder (entry s) = Some c;
  l_revokes : revokes_ok (entry s) (ls_revoker_queue (sy_server s)) (sy_revoker s)
                (has revoked_live (sy_clients s));
  l_entry : entry s = None -> threads_idle s }.

(** *** Facts about the clients' side *)

Lemma has_insert P m c k c' : has P (<[c := k]> m) c' <-> (c = c' /\ P k) \/ (c <> c' /\ has P m c').
Proof using.
  unfold has. destruct (decide (c = c')) as [->|Hne].
  - rewrite lookup_insert_eq. split; [intros (k' & [= <-] & ?); by left|intros [[_ ?]|[? _]]; [by exists k|done]].
  - rewrite lookup_insert_ne by done. split; [by right|intros [[? _]|[_ ?]]; done].
Qed.

Lemma has_same (P : lclient -> Prop) m c k k' : m !! c = Some k -> (P k' <-> P k) ->
  forall c', has P (<[c := k']> m) c' <-> has P m c'.
Proof using.
  intros Hc HP c'. rewrite has_insert. destruct (decide (c = c')) as [<-|Hne].
  - unfold has. rewrite HP. split; [intros [[_ ?]|[? _]]; [by exists k|done]|].
    intros (k0 & Hk0 & ?). left. split; [done|]. congruence.
  - split; [intros [[? _]|[_ ?]]; done|by right].
Qed.

Lemma wf_insert (m : gmap string lclient) c k : (forall c k, m !! c = Some k -> client_wf k) -> client_wf k ->
  forall c' k', <[c := k]> m !! c' = Some k' -> client_wf k'.
Proof using. intros Hm Hk c' k'. rewrite lookup_insert. case_decide; [by intros [= <-]|apply Hm]. Qed.

#[local] Instance revokes_ok_proper e q pc : Proper (pointwise_relation string iff ==> iff) (revokes_ok e q pc).
Proof using.
  intros R R' HR. unfold revokes_ok, no_revoke, one_revoke.
  assert ((forall c, ~ R c) <-> (forall c, ~ R' c)) as HN by (split; intros H c; specialize (H c); specialize (HR c); tauto).
  assert (Hh : forall h, (forall c, R c <-> c = h) <-> (forall c, R' c <-> c = h)).
  { intros h. split; intros H c; specialize (H c); specialize (HR c); tauto. }
  destruct e as [ci|]; [specialize (Hh (ci_cid ci)); destruct (ci_available ci)|]; tauto.
Qed.

(** A step of one client that changes neither what it owns nor whether it has a
    pending revoke. *)
Lemma lock_inv_client s c k k' : lock_inv s -> sy_clients s !! c = Some k -> client_wf k' ->
  (owns k' <-> owns k) -> (revoked_live k' <-> revoked_live k) -> lock_inv (sy_set s c k').
Proof using.
  intros [Hw Ho Hr He] Hc Hk Hown Hl. split; cbn.
  - by apply wf_insert.
  - intros c'. rewrite (has_same owns _ _ _ _ Hc Hown). apply Ho.
  - eapply revokes_ok_proper; [|exact Hr]. intros c'. by apply (has_same _ _ _ k).
  - apply He.
Qed.

(** *** What the server's operations do to the entry and the revoker's queue *)

Lemma server_acquire_cases prim srv c xid srv' ret : server_acquire prim srv lid c xid = Some (srv', ret) ->
  ls_retryer_queue srv' = ls_retryer_queue srv /\
  ((ret = lock_protocol.OK /\ exists w,
      ls_clients srv' !! lid = Some (ClientInfo c xid false w) /\
      ls_revoker_queue srv' = ls_revoker_queue srv ++ (if decide (w = ∅) then [] else if prim then [lid] else []) /\
      match ls_clients srv !! lid with None => w = ∅ | Some ci => ci_available ci = true end) \/
   (ret = lock_protocol.RETRY /\ exists ci w,
      ls_clients srv !! lid = Some ci /\ w <> ∅ /\
      ls_clients srv' !! lid = Some (ClientInfo (ci_cid ci) (ci_xid ci) (ci_available ci) w) /\
      (ci_available ci = false \/ ci_waited ci <> ∅) /\
      ls_revoker_queue srv' = ls_revoker_queue srv ++ (if decide (ci_waited ci = ∅) then if prim then [lid] else [] else []))).
Proof using.
  unfold server_acquire. destruct (ls_clients srv !! lid) as [[h hx av w]|] eqn:Hci; cbn.
  2:{ intros [= <- <-]. split; [done|]. left. split; [done|]. exists ∅. cbn.
      rewrite lookup_insert_eq, decide_True, app_nil_r by done. done. }
  destruct (_ && _); [done|].
  destruct (bool_decide (w <> ∅) && bool_decide (c ∉ w)) eqn:Hlate.
  { apply andb_true_iff in Hlate as [Hne%bool_decide_eq_true _]. intros [= <- <-]. split; [done|].
    right. split; [done|]. eexists _, ({[c]} ∪ w). split; [done|]. cbn.
    rewrite lookup_insert_eq, decide_False, app_nil_r by done. split; [|by auto]. set_solver. }
  assert (Hin : w = ∅ \/ c ∈ w).
  { apply andb_false_iff in Hlate as [H%bool_decide_eq_false|H%bool_decide_eq_false]; [left|right]; by apply dec_stable. }
  clear Hlate. destruct av; cbn.
  - case_bool_decide as Hw; destruct prim; intros [= <- <-]; (split; [done|]); left; (split; [done|]);
      exists (w ∖ {[c]}); cbn; rewrite lookup_insert_eq.
    + by rewrite decide_False.
    + by rewrite decide_False, app_nil_r.
    + by rewrite decide_True, app_nil_r.
    + by rewrite decide_True, app_nil_r.
  - case_bool_decide as Hc; intros [= <- <-]; (split; [by destruct prim|]); right; (split; [done|]).
    + destruct Hin as [->|?]; [|done]. exists (ClientInfo h hx false ∅), ({[c]} ∪ ∅). split; [done|].
      destruct prim; cbn; rewrite lookup_insert_eq, decide_True, ?app_nil_r by done; (split; [set_solver|]); by auto.
    + assert (w <> ∅) by set_solver. exists (ClientInfo h hx false w), w. cbn.
      rewrite decide_False, app_nil_r by done. split_and!; by auto.
Qed.

Lemma lock_inv_acquire s c k xid prim srv ret : lock_inv s -> sy_clients s !! c = Some k ->
  lc_rpc k = AcquireSent xid -> (steady = true -> prim = true) -> server_acquire prim (sy_server s) lid c xid = Some (srv, ret) ->
  lock_inv (LSys srv (<[c := LClient (lc_info k) (AcquireReplied ret) (lc_xid k)]> (sy_clients s))
              (sy_revoker s) (sy_retryer s)).
Proof using.
  intros [Hw Ho Hr He] Hc Hk Hst Hs. set (k' := LClient _ _ _).
  assert (Hwk : client_wf k') by (pose proof (Hw _ _ Hc) as H; unfold client_wf in *; by rewrite Hk in H).
  assert (HR : forall c', has revoked_live (<[c := k']> (sy_clients s)) c' <-> has revoked_live (sy_clients s) c').
  { apply (has_same _ _ _ k); [done|]. unfold revoked_live. subst k'. cbn. rewrite Hk. split; intros [? _]; by split. }
  apply server_acquire_cases in Hs as (Hrq & [(-> & w & He' & Hq & Hfree)|(-> & ci & w & Hci & Hwne & He' & Hav & Hq)]).
  - assert (Hnone : holder (entry s) = None).
    { unfold entry. revert Hfree. destruct (ls_clients (sy_server s) !! lid) as [ci|]; cbn; [by intros ->|done]. }
    assert (Hno : no_revoke (ls_revoker_queue (sy_server s)) (sy_revoker s) (has revoked_live (sy_clients s))).
    { unfold revokes_ok, entry in Hr. revert Hfree Hr. destruct (ls_clients (sy_server s) !! lid) as [ci|]; [|done].
      by intros -> [_ ?]. }
    destruct Hno as (Hq0 & Hpc & HnR).
    split; cbn; [by apply wf_insert| | |by unfold entry; cbn; rewrite He'].
    + intros c'. rewrite has_insert. unfold entry at 1. cbn. rewrite He'. cbn. rewrite Ho, Hnone.
      split; [by intros [[-> _]|[_ ?]]|intros [= ->]; by left].
    + eapply revokes_ok_proper; [exact HR|]. unfold entry. cbn. rewrite He', Hq, Hq0. cbn.
      destruct (decide (w = ∅)); [by left|right; split; [done|]]. destruct prim; [left; left; by split_and!|right].
      split; [destruct steady; [by specialize (Hst eq_refl)|done]|by split_and!].
  - assert (Hno : ~ owns k) by (unfold owns; rewrite Hk; tauto).
    split; cbn; [by apply wf_insert| | |by unfold entry; cbn; rewrite He'].
    + intros c'. rewrite (has_same owns _ _ k) by (done || (split; [done|by intros ?%Hno])).
      rewrite Ho. unfold entry. cbn. by rewrite Hci, He'.
    + eapply revokes_ok_proper; [exact HR|]. unfold revokes_ok, entry in *. cbn. rewrite Hci in Hr. rewrite He', Hq. cbn.
      destruct (decide (ci_waited ci = ∅)) as [E|E].
      * destruct Hav as [Hav|?]; [|done]. rewrite Hav in *. destruct Hr as [[_ (-> & ? & ?)]|[? _]]; [|done].
        right. split; [done|]. destruct prim; [left; left; by split_and!|right]. cbn.
        split; [destruct steady; [by specialize (Hst eq_refl)|done]|by split_and!].
      * rewrite app_nil_r. destruct (ci_available ci); [by destruct Hr|].
        destruct Hr as [[? _]|[_ ?]]; [done|]. by right.
Qed.

Lemma lock_inv_release s c k : lock_inv s -> sy_clients s !! c = Some k -> lc_rpc k = ReleaseSent ->
  lock_inv (LSys (server_release (sy_server s) lid c).1.1
              (<[c := LClient (lc_info k) ReleaseReplied (lc_xid k)]> (sy_clients s))
              (sy_revoker s) (sy_retryer s)).
Proof using.
  intros [Hw Ho Hr He] Hc Hk. set (k' := LClient _ _ _).
  pose proof (Hw _ _ Hc) as Hwk. unfold client_wf in Hwk. rewrite Hk in Hwk. destruct Hwk as [Hst Hrev].
  assert (Hh : holder (entry s) = Some c) by (apply Ho; exists k; unfold owns; by rewrite Hk).
  assert (HRc : has revoked_live (sy_clients s) c) by (exists k; split; [done|]; split; [done|by rewrite Hk]).
  unfold entry in *. unfold server_release. destruct (ls_clients (sy_server s) !! lid) as [[h hx av w]|] eqn:Hci; [|done].
  cbn in *. destruct av; [done|]. injection Hh as ->. rewrite String.eqb_refl.
  destruct Hr as [[_ (_ & _ & HnR)]|[Hwne Hone]]; [by destruct (HnR c)|].
  destruct Hone as [[(_ & _ & HnR)|[(_ & _ & HnR)|(Hq & Hpc & HR)]]|(_ & _ & _ & HnR)]; [by destruct (HnR c)|by destruct (HnR c)| |by destruct (HnR c)].
  split; unfold entry; cbn.
  - apply wf_insert; [done|]. done.
  - intros c'. rewrite has_insert, Ho, lookup_insert_eq. cbn. split; [|done].
    intros [[_ []]|[Hne [= ?]]]. done.
  - rewrite lookup_insert_eq. cbn. split; [done|]. split_and!; [done..|].
    intros c'. rewrite has_insert. intros [[_ [_ ?]]|[Hne ?%HR]]; [by cbn in *|]. congruence.
  - by rewrite lookup_insert_eq.
Qed.

(** A step that moves the threads of the server but neither its table nor the
    revokes. *)
Lemma lock_inv_threads s srv pc rt : lock_inv s -> ls_clients srv = ls_clients (sy_server s) ->
  ls_revoker_queue srv = ls_revoker_queue (sy_server s) -> revoke_sent pc = revoke_sent (sy_revoker s) ->
  entry s <> None -> lock_inv (LSys srv (sy_clients s) pc rt).
Proof using.
  intros [Hw Ho Hr He] Hcl Hq Hpc Hne. split; unfold entry in *; cbn; rewrite ?Hcl, ?Hq; try done.
  unfold revokes_ok, no_revoke, one_revoke in *. by rewrite Hpc.
Qed.

Lemma lock_inv_revoker_deq s srv c : lock_inv s -> sy_revoker s = RevokerIdle ->
  revoker_deq (sy_server s) = Some (Some (srv, lid, c)) ->
  lock_inv (LSys srv (sy_clients s) (RevokeSent c) (sy_retryer s)).
Proof using.
  intros [Hw Ho Hr He] Hpc Hd. unfold revoker_deq in Hd.
  destruct (ls_revoker_queue (sy_server s)) as [|l q] eqn:Hq; [done|].
  destruct (ls_clients (sy_server s) !! l) as [ci|] eqn:Hci; [|done]. cbn in Hd. injection Hd as <- -> <-.
  unfold entry in *. split; unfold entry; cbn; try done; [|by rewrite Hci]. rewrite Hci in *. cbn in *.
  unfold no_revoke, one_revoke in *. destruct (ci_available ci); [naive_solver|].
  destruct Hr as [[_ [? _]]|[Hne [[([= ->] & _ & ?)|[[? _]|[? _]]]|(_ & ? & _)]]]; [done| |done..].
  right. split; [done|]. left; right; left. by split_and!.
Qed.

Lemma lock_inv_revoke s c k l back : lock_inv s -> sy_revoker s = RevokeSent c -> sy_clients s !! c = Some k ->
  revoke_handler (lc_info k) = (l, back) ->
  lock_inv (LSys (sy_server s)
    (<[c := LClient l (if back then ReleaseSent else lc_rpc k) (lc_xid k)]> (sy_clients s))
    (if back then RevokeHandled c else RevokeReturned) (sy_retryer s)).
Proof using.
  intros [Hw Ho Hr He] Hpc Hc Hl. set (k' := LClient _ _ _).
  assert (Hne : entry s <> None) by (intros Hn; destruct (He Hn) as (_ & _ & ? & _); congruence).
  assert (H : exists ci, entry s = Some ci /\ ci_available ci = false /\ ci_waited ci <> ∅ /\ ci_cid ci = c /\
    ls_revoker_queue (sy_server s) = [] /\ forall c, ~ has revoked_live (sy_clients s) c).
  { destruct (entry s) as [ci|]; [|done]. exists ci. cbn in Hr. unfold no_revoke, one_revoke in Hr.
    rewrite Hpc in Hr. destruct (ci_available ci); naive_solver. }
  destruct H as (ci & Hci & Hav & Hwne & Hcid & Hq & HnR).
  assert (Hown : owns k).
  { destruct (proj2 (Ho c)) as (k0 & Hk0 & ?); [rewrite Hci; cbn; rewrite Hav; by f_equal|]. congruence. }
  assert (Hk' : client_wf k' /\ owns k' /\ revoked_live k').
  { pose proof (Hw _ _ Hc). subst k'. destruct k as [[rv st rt] rp x]. unfold revoke_handler in Hl. cbn in Hl.
    destruct st; injection Hl as <- <-; client_cases. }
  destruct Hk' as (Hwk & Hok & Hlk). split; cbn.
  - by apply wf_insert.
  - intros c'. rewrite (has_same owns _ _ _ _ Hc) by done. apply Ho.
  - change (entry _) with (entry s). rewrite Hci. cbn. rewrite Hav. right. split; [done|]. left; right; right.
    split_and!; [done|by destruct back|]. intros c'. rewrite has_insert, Hcid.
    split; [intros [[? _]|[_ ?%HnR]]; done|intros ->; by left].
  - change (entry _) with (entry s). by rewrite Hci.
Qed.

Lemma lock_inv_failover s : steady = false -> lock_inv s -> lock_inv (failover s).
Proof using.
  intros Hst [Hw Ho Hr He]. split; [exact Hw|exact Ho| |done]. unfold entry in *. cbn.
  unfold revokes_ok, no_revoke, one_revoke in *. destruct (ls_clients (sy_server s) !! lid) as [ci|]; [|naive_solver].
  destruct (ci_available ci); naive_solver.
Qed.

Lemma lock_inv_step s s' : lock_inv s -> lstep steady lid s s' -> lock_inv s'.
Proof using.
  intros Hs Hstep.
  assert (Hwf := l_wf _ Hs).
  assert (Hthr : sy_revoker s <> RevokerIdle \/ ls_retryer_queue (sy_server s) <> [] -> entry s <> None).
  { intros Ht Hn. destruct (l_entry _ Hs Hn) as (_ & ? & ? & _). naive_solver. }
  inversion Hstep as [c k l todo Hc Ha|c k Hc|c k Hc Hk|c k xid prim srv ret Hc Hk Hprim Ha|c k ret l again Hc Hk Ha
    |c k Hc Hk|c k l back Hc Hst Hr|c k Hc Hk|c k Hc Hk|srv c Hpc Hd|c k l back Hpc Hc Hr|Hpc|q Hrt Hq|c k Hrt Hlk Hc|Hsteady];
    subst.
  - unfold client_acquire in Ha. pose proof (Hwf _ _ Hc). destruct k as [[rv st rt] rp x]. cbn in *.
    destruct st; injection Ha as <- <-; (eapply lock_inv_client; [done|exact Hc|..]); client_cases.
  - pose proof (Hwf _ _ Hc). eapply lock_inv_client; [done|exact Hc|..]; client_cases.
  - pose proof (Hwf _ _ Hc). eapply lock_inv_client; [done|exact Hc|..]; client_cases.
  - by eapply lock_inv_acquire.
  - pose proof (Hwf _ _ Hc). unfold client_acquire_reply, VERIFY in Ha. destruct k as [[rv st rt] rp x]. cbn in *. subst rp.
    destruct (ret =? _) eqn:E in Ha; [|destruct (ret =? _) eqn:E' in Ha; [|done]]; injection Ha as <- <-;
      (eapply lock_inv_client; [done|exact Hc|..]); rewrite ?Z.eqb_eq in *; subst; client_cases.
  - pose proof (Hwf _ _ Hc). eapply lock_inv_client; [done|exact Hc|..]; client_cases.
  - pose proof (Hwf _ _ Hc). unfold client_release in Hr. destruct k as [[rv st rt] rp x]. cbn in *. subst st.
    destruct rv; injection Hr as <- <-; (eapply lock_inv_client; [done|exact Hc|..]); client_cases.
  - by eapply lock_inv_release.
  - pose proof (Hwf _ _ Hc).
    assert (Hi : lock_inv (sy_set s c (LClient (client_released (lc_info k)) NoRpc (lc_xid k))))
      by (eapply lock_inv_client; [done|exact Hc|..]; client_cases).
    destruct (sy_revoker s) as [|h|h|] eqn:Hpc; cbv iota beta; try (rewrite <- Hpc; exact Hi).
    destruct (String.eqb h c); [|rewrite <- Hpc; exact Hi].
    apply (lock_inv_threads _ (sy_server s) RevokeReturned (sy_retryer s) Hi); [done..|cbn; by rewrite Hpc|].
    apply Hthr. by left.
  - by apply lock_inv_revoker_deq.
  - by eapply lock_inv_revoke.
  - apply lock_inv_threads; [done..|cbn; by rewrite Hpc|apply Hthr; left; by rewrite Hpc].
  - apply lock_inv_threads; [done..|apply Hthr; right; by rewrite Hq].
  - pose proof (Hwf _ _ Hc).
    assert (Hi : lock_inv (sy_set s c (LClient (retry_handler (lc_info k)) (lc_rpc k) (lc_xid k))))
      by (eapply lock_inv_client; [done|exact Hc|..]; client_cases).
    apply (lock_inv_threads _ (sy_server s) (sy_revoker s) false Hi); [done..|].
    intros Hn. unfold retryer_look in Hlk. change (ls_clients (sy_server s) !! lid = None) in Hn. by rewrite Hn in Hlk.
  - by apply lock_inv_failover.
Qed.

Lemma lock_inv_init clients : lock_inv (lsys_init clients).
Proof using.
  assert (H : forall c k, sy_clients (lsys_init clients) !! c = Some k -> k = LClient lock_info_new NoRpc 0).
  { intros c k. cbn. intros Hl%elem_of_list_to_map_2. apply list_elem_of_fmap in Hl as (? & [= _ ->] & _). done. }
  split.
  - intros c k ->%H. by left.
  - intros c. split; [|done]. intros (k & ->%H & [?|?]); done.
  - change (entry _) with (@None client_info). split; [done|split; [done|]].
    intros c (k & ->%H & ? & _). done.
  - done.
Qed.

Lemma lock_inv_reachable clients s : lock_reachable steady lid clients s -> lock_inv s.
Proof using.
  intros Hr. assert (Hi := lock_inv_init clients). revert Hi. induction Hr as [|? ? ? Hs _ IH]; [done|].
  intros Hi. apply IH. by eapply lock_inv_step.
Qed.

(** Client [h] holds the lock, others wait for it, and nobody has asked [h] to return it. *)
Definition forgotten (h : string) (s : lsys) : Prop :=
  exists ci, entry s = Some ci /\ ci_cid ci = h /\ ci_available ci = false /\ ci_waited ci <> ∅ /\
    no_revoke (ls_revoker_queue (sy_server s)) (sy_revoker s) (has revoked_live (sy_clients s)).

Lemma forgotten_client h s srv c k k' pc rt : forgotten h s -> sy_clients s !! c = Some k -> (revoked_live k' -> revoked_live k) ->
  ls_clients srv = ls_clients (sy_server s) -> ls_revoker_queue srv = ls_revoker_queue (sy_server s) -> revoke_sent pc = None ->
  forgotten h (LSys srv (<[c := k']> (sy_clients s)) pc rt).
Proof using.
  intros (ci & He & Hh & Hav & Hw & Hq & _ & HR) Hc Hk Hcl Hrq Hpc. exists ci. unfold entry, no_revoke in *. cbn. rewrite Hcl, Hrq.
  split_and!; try done. intros c'. rewrite has_insert. intros [[-> Hl]|[_ Hl]]; [|by apply (HR c')]. apply (HR c'). exists k. auto.
Qed.

Lemma forgotten_threads h s srv pc rt : forgotten h s -> ls_clients srv = ls_clients (sy_server s) ->
  ls_revoker_queue srv = ls_revoker_queue (sy_server s) -> revoke_sent pc = None -> forgotten h (LSys srv (sy_clients s) pc rt).
Proof using.
  intros (ci & He & Hh & Hav & Hw & Hq & _ & HR) Hcl Hrq Hpc. exists ci. unfold entry, no_revoke in *. cbn. rewrite Hcl, Hrq. by split_and!.
Qed.

Lemma forgotten_acquire h s c k xid prim srv ret : forgotten h s -> sy_clients s !! c = Some k -> lc_rpc k = AcquireSent xid ->
  server_acquire prim (sy_server s) lid c xid = Some (srv, ret) ->
  forgotten h (LSys srv (<[c := LClient (lc_info k) (AcquireReplied ret) (lc_xid k)]> (sy_clients s)) (sy_revoker s) (sy_retryer s)).
Proof using.
  intros (ci & He & Hh & Hav & Hw & Hq & Hpc & HR) Hc Hk Hs. unfold entry in *.
  destruct (server_acquire_cases _ _ _ _ _ _ Hs) as (_ & [(_ & w & _ & _ & Hf)|(_ & ci' & w & Hci & Hwne & He' & _ & Hq')]); [rewrite He in Hf; congruence|].
  rewrite He in Hci. injection Hci as <-. eexists. unfold entry, no_revoke. cbn. rewrite He'. split_and!; [done..| |done|].
  - by rewrite Hq', Hq, decide_False.
  - intros c'. rewrite has_insert. intros [[-> [Hl _]]|[_ Hl]]; [|by apply (HR c')]. apply (HR c'). exists k. split; [done|]. split; [done|by rewrite Hk].
Qed.

Lemma forgotten_step h s s' : lock_inv s -> forgotten h s -> lstep steady lid s s' -> forgotten h s'.
Proof using.
  intros Hi Hf Hstep. assert (Hwf := l_wf _ Hi).
  pose proof Hf as (ci & _ & _ & _ & _ & (Hq & Hpc0 & HR)).
  assert (Hnr : forall c k, sy_clients s !! c = Some k -> ~ revoked_live k) by (intros c k Hc Hl; apply (HR c); by exists k).
  inversion Hstep as [c k l todo Hc Ha|c k Hc|c k Hc Hk|c k xid prim srv ret Hc Hk Hprim Ha|c k ret l again Hc Hk Ha
    |c k Hc Hk|c k l back Hc Hst Hr|c k Hc Hk|c k Hc Hk|srv c Hpc Hd|c k l back Hpc Hc Hr|Hpc|q Hrt Hrq|c k Hrt Hlk Hc|Hsteady];
    subst; try (pose proof (Hwf _ _ Hc); pose proof (Hnr _ _ Hc)).
  - unfold client_acquire in Ha. destruct k as [[rv st rt] rp x]. cbn in *.
    destruct st; injection Ha as <- <-; (eapply forgotten_client; [done|exact Hc| |done..]); client_cases.
  - eapply forgotten_client; [done|exact Hc| |done..]; client_cases.
  - eapply forgotten_client; [done|exact Hc| |done..]; client_cases.
  - by eapply forgotten_acquire.
  - unfold client_acquire_reply, VERIFY in Ha. destruct k as [[rv st rt] rp x]. cbn in *. subst rp.
    destruct (ret =? _) eqn:E in Ha; [|destruct (ret =? _) eqn:E' in Ha; [|done]]; injection Ha as <- <-;
      (eapply forgotten_client; [done|exact Hc| |done..]); client_cases.
  - eapply forgotten_client; [done|exact Hc| |done..]; client_cases.
  - unfold client_release in Hr. destruct k as [[rv st rt] rp x]. cbn in *. subst st.
    destruct rv; injection Hr as <- <-; [client_cases|]. eapply forgotten_client; [done|exact Hc| |done..]; client_cases.
  - client_cases.
  - eapply forgotten_client; [done|exact Hc| |done|done|]; [client_cases|]. destruct (sy_revoker s); cbn in *; try done. by case_match.
  - unfold revoker_deq in Hd. by rewrite Hq in Hd.
  - by rewrite Hpc in Hpc0.
  - by apply forgotten_threads.
  - by apply forgotten_threads.
  - eapply forgotten_client; [done|exact Hc| |done..]; client_cases.
  - apply (forgotten_threads h s); [done|done|by rewrite Hq|done].
Qed.

Lemma forgotten_forever h s s' : lock_inv s -> forgotten h s -> rtc (lstep steady lid) s s' -> forgotten h s'.
Proof using.
  intros Hi Hf Hr. revert Hi Hf. induction Hr as [|? ? ? Hs _ IH]; [done|]. intros Hi Hf.
  apply IH; [by eapply lock_inv_step|by eapply forgotten_step].
Qed.
End Invariant.

Lemma lock_inv_weaken steady lid s : lock_inv steady lid s -> lock_inv false lid s.
Proof.
  intros [Hw Ho Hr He]. split; try done. revert Hr. unfold revokes_ok. destruct (entry lid s) as [ci|]; [|done]. destruct (ci_available ci); naive_solver.
Qed.

(** ** Safety of the lock service *)

(** The lock is in the hands of a thread of [c]. *)
Definition locked_by (s : lsys) (c : string) : Prop :=
  exists k, sy_clients s !! c = Some k /\ li_stat (lc_info k) = LOCKED.

(** C4. Mutual exclusion across clients: in every state the server, its revoker and
    retryer threads and the caching clients can reach together, whatever the order
    of acquires, releases, revokes, retries and timeouts, and also when other replicas
    take over as the primary, at most one client has the lock in state LOCKED, and it
    is the client the server has on record as holder. *)
Theorem lock_mutual_exclusion steady lid clients s : lock_reachable steady lid clients s ->
  (forall c1 c2, locked_by s c1 -> locked_by s c2 -> c1 = c2) /\
  (forall c, locked_by s c -> exists ci, ls_clients (sy_server s) !! lid = Some ci /\
     ci_cid ci = c /\ ci_available ci = false).
Proof.
  intros Hs%lock_inv_reachable.
  assert (Hh : forall c, locked_by s c -> holder (entry lid s) = Some c).
  { intros c (k & Hk & Hst). apply (l_owner _ _ _ Hs). exists k. split; [done|].
    pose proof (l_wf _ _ _ Hs _ _ Hk) as Hw. unfold client_wf, owns in *. rewrite Hst in *.
    destruct (lc_rpc k); first [by left|discriminate Hw|by destruct Hw]. }
  split.
  - intros c1 c2 H1%Hh H2%Hh. congruence.
  - intros c H%Hh. unfold entry, holder in H. destruct (ls_clients _ !! lid) as [ci|]; [|done].
    exists ci. cbn in H. destruct (ci_available ci); [done|]. by injection H as ->.
Qed.

(** C32. The server's threads never fail: in a reachable state the retryer's
    assertion that some client waits for an available lock holds, and neither thread
    dereferences the entry of an unknown lock. *)
Theorem lock_threads_never_abort steady lid clients s : lock_reachable steady lid clients s ->
  (sy_retryer s = true -> retryer_look (sy_server s) lid <> None) /\
  revoker_deq (sy_server s) <> None.
Proof.
  intros Hs%lock_inv_reachable. pose proof (l_revokes _ _ _ Hs) as Hr. pose proof (l_entry _ _ _ Hs) as He.
  unfold entry, revokes_ok, no_revoke, one_revoke in *. unfold retryer_look, revoker_deq.
  destruct (ls_clients (sy_server s) !! lid) as [ci|] eqn:Hci.
  2:{ destruct (He eq_refl) as (-> & _ & _ & ->). done. }
  split.
  - intros _. cbn. destruct (ci_available ci); [|done]. cbn. by rewrite bool_decide_eq_true_2 by apply Hr.
  - assert (ls_revoker_queue (sy_server s) = [] \/ ls_revoker_queue (sy_server s) = [lid]) as [->| ->]; [|done|].
    + destruct (ci_available ci); naive_solver.
    + by rewrite Hci.
Qed.


(** ** A contended lock *)

(** Client "a" has lock 7, "b" has asked for it and been told to wait. *)
Definition contended : lsys :=
  LSys (LockServer {[7 := ClientInfo "a" 1 false {["b"]}]} [7] [])
    (<["a" := LClient (LockInfo false LOCKED false) NoRpc 1]>
      {["b" := LClient (LockInfo false ACQUIRING false) (AcquireReplied lock_protocol.RETRY) 1]})
    RevokerIdle false.

Lemma contended_reachable : lock_reachable true 7 ["a"; "b"] contended.
Proof.
  eapply rtc_l; [by eapply (ls_acquire true 7 _ "a")|].
  eapply rtc_l; [by eapply (ls_call true 7 _ "a")|].
  eapply rtc_l; [by eapply (ls_server_acquire true 7 _ "a")|].
  eapply rtc_l; [by eapply (ls_acquire_reply true 7 _ "a")|].
  eapply rtc_l; [by eapply (ls_acquire true 7 _ "b")|].
  eapply rtc_l; [by eapply (ls_call true 7 _ "b")|].
  eapply rtc_l; [by eapply (ls_server_acquire true 7 _ "b")|].
  apply eq_subrelation; [apply _|]. vm_compute. reflexivity.
Qed.

(** The revoke reaches "a", its release goes to the server, and the retryer wakes. *)
Definition handed_back : lsys :=
  LSys (LockServer {[7 := ClientInfo "a" 1 true {["b"]}]} [] [])
    (<["a" := LClient (LockInfo true RELEASING false) ReleaseReplied 1]>
      {["b" := LClient (LockInfo false ACQUIRING false) (AcquireReplied lock_protocol.RETRY) 1]})
    RevokerIdle true.

Lemma handed_back_reachable : lock_reachable true 7 ["a"; "b"] handed_back.
Proof.
  unfold lock_reachable. etransitivity; [exact contended_reachable|].
  eapply rtc_l; [by eapply (ls_revoker_deq true 7 contended)|].
  eapply rtc_l; [by eapply (ls_revoke true 7 _ "a")|].
  eapply rtc_l; [by eapply (ls_revoker_notify true 7)|].
  eapply rtc_l; [by eapply (ls_release true 7 _ "a")|].
  eapply rtc_l; [by eapply (ls_server_release true 7 _ "a")|].
  eapply rtc_l; [by eapply (ls_retryer_deq true 7)|].
  apply eq_subrelation; [apply _|]. vm_compute. reflexivity.
Qed.

Lemma lock_mutual_exclusion_witness :
  locked_by contended "a" /\ exists ci, ls_clients (sy_server contended) !! 7 = Some ci /\
    ci_cid ci = "a"%string /\ ci_available ci = false.
Proof.
  assert (H : locked_by contended "a") by (eexists; split; reflexivity).
  split; [exact H|]. apply (lock_mutual_exclusion true 7 ["a"; "b"] contended contended_reachable). exact H.
Defined.

Lemma lock_threads_never_abort_witness :
  sy_retryer handed_back = true /\ retryer_look (sy_server handed_back) 7 <> None.
Proof.
  split; [reflexivity|].
  apply (lock_threads_never_abort true 7 ["a"; "b"] handed_back handed_back_reachable). reflexivity.
Defined.

