(* ===== verification/LockState.v ===== *)
(** * Lock server state transfer, and the first lock server

    Models the marshalling of [client_info] (src/mit_6.824/lock_server_cache_rsm.h),
    [marshal_state] and [unmarshal_state] (lock_server_cache_rsm.cc), with which the
    replicated state machine moves the lock table between replicas, and the blocking
    lock_server of lock_server.cc, which keeps its table by [int]. *)

From Stdlib Require Import ZArith Lia Ascii String.
From stdpp Require Import base list strings gmap sets sorting.
From S2P Require Import Prelude Marshall Protocols Locks.

Local Open Scope Z_scope.
Local Open Scope cpp_scope.

(** ** Iteration order of [std::set] and [std::map] *)

Definition str_le (a b : string) : Prop := str_lt b a = false.
#[export] Instance str_le_dec : RelDecision str_le.
Proof. intros a b. unfold str_le. apply _. Defined.

Definition set_iter (w : gset string) : list string := merge_sort str_le (elements w).

Definition key_le {A : Type} (p q : Z * A) : Prop := p.1 <= q.1.
#[export] Instance key_le_dec {A} : RelDecision (@key_le A).
Proof. intros p q. unfold key_le. apply _. Defined.

Definition map_iter {A : Type} (m : gmap Z A) : list (Z * A) := merge_sort key_le (map_to_list m).

Lemma set_iter_perm w : set_iter w ≡ₚ elements w.
Proof. apply merge_sort_Permutation. Qed.
Lemma map_iter_perm {A} (m : gmap Z A) : map_iter m ≡ₚ map_to_list m.
Proof. apply merge_sort_Permutation. Qed.

(** ** The operators of [client_info] *)

Definition put_client_info (m : marshall) (ci : client_info) : option marshall :=
  m ← put_string m (ci_cid ci);
  m ← put_ull m (ci_xid ci);
  m ← put_bool m (ci_available ci);
  put_vector put_string m (set_iter (ci_waited ci)).

(** The count is read back as an [int]: a negative one reads no names. *)
Definition get_client_info (u : unmarshall) : option (unmarshall * client_info) :=
  '(u, cid) ← get_string u "";
  '(u, xid) ← get_ull u;
  '(u, available) ← get_bool u;
  '(u, wclt_size) ← get_int u;
  '(u, clts) ← get_n (fun u => get_string u "") (Z.to_nat wclt_size) u [];
  Some (u, ClientInfo cid xid available (list_to_set clts)).

Definition put_lock (m : marshall) (p : Z * client_info) : option marshall :=
  m ← put_ull m p.1; put_client_info m p.2.
Definition get_lock (u : unmarshall) : option (unmarshall * (Z * client_info)) :=
  '(u, lid) ← get_ull u; '(u, ci) ← get_client_info u; Some (u, (lid, ci)).

(** [lock_server_cache_rsm::marshal_state] *)
Definition marshal_state (junk : ascii) (s : lock_server) : option string :=
  rep ← put_vector put_lock (marshall_new junk) (map_iter (ls_clients s));
  m_str rep.

(** [lock_server_cache_rsm::unmarshal_state]: entries are stored over the table the
    replica has. *)
Definition unmarshal_state (junk : ascii) (s : lock_server) (state : string) : option lock_server :=
  rep ← take_content junk state;
  '(_, locks) ← get_vector get_lock rep;
  Some (LockServer (foldl (fun t p => <[p.1 := p.2]> t) (ls_clients s) locks)
          (ls_revoker_queue s) (ls_retryer_queue s)).

(** ** The round trip *)

Definition enc_client_info (ci : client_info) : list ascii :=
  enc_string (ci_cid ci) ++ enc_u64 (ci_xid ci) ++ enc_bool (ci_available ci) ++
  enc_vector enc_string (set_iter (ci_waited ci)).
Definition enc_lock (p : Z * client_info) : list ascii := enc_u64 p.1 ++ enc_client_info p.2.
Definition enc_state (s : lock_server) : list ascii := enc_vector enc_lock (map_iter (ls_clients s)).

Definition client_info_wf (ci : client_info) : Prop :=
  short (ci_cid ci) /\ in_u64 (ci_xid ci) /\ Z.of_nat (size (ci_waited ci)) < 2 ^ 31 /\
  set_Forall short (ci_waited ci).
Definition lock_server_wf (s : lock_server) : Prop :=
  Z.of_nat (size (ls_clients s)) < 2 ^ 32 /\
  map_Forall (fun lid ci => in_u64 lid /\ client_info_wf ci) (ls_clients s).

Lemma set_iter_wf w : set_Forall short w -> Forall short (set_iter w).
Proof.
  intros Hw. rewrite set_iter_perm. apply Forall_forall. intros c Hc%elem_of_elements. by apply Hw.
Qed.

Lemma put_client_info_ok ci : client_info_wf ci ->
  put_ok (fun m => put_client_info m ci) (enc_client_info ci).
Proof.
  intros (Hc & _ & _ & Hw). unfold put_client_info, enc_client_info, short in *.
  do 3 (apply put_ok_bind; [solve [eauto with wire]|]).
  apply (put_vector_ok _ _ short); [|by apply set_iter_wf]. intros s Hs. by apply put_string_ok.
Qed.

Lemma get_client_info_ok ci : client_info_wf ci -> get_ok get_client_info (enc_client_info ci) ci.
Proof.
  destruct ci as [cid xid av w]. intros (Hc & Hx & Hsz & Hw). unfold get_client_info, enc_client_info, short in *.
  cbn [ci_cid ci_xid ci_available ci_waited] in *. do 3 (eapply (get_ok_bind _ (fun _ _ => _)); [solve [eauto with wire]|cbv beta]).
  assert (Hlen : length (set_iter w) = size w) by (unfold size, set_size; cbn; by rewrite set_iter_perm).
  unfold enc_vector. eapply (get_ok_bind _ (fun n u => _)); [apply get_int_ok; unfold in_i32; lia|cbv beta].
  rewrite Nat2Z.id.
  assert (Hws : list_to_set (set_iter w) = w).
  { apply leibniz_equiv. rewrite set_iter_perm. apply list_to_set_elements. }
  match goal with |- get_ok ?f ?l _ => enough (H : get_ok f l (ClientInfo cid xid av (list_to_set (set_iter w))))
    by (by rewrite Hws in H) end.
  apply (get_ok_map _ (fun clts => ClientInfo cid xid av (list_to_set clts)) _ (set_iter w)).
  apply (get_n_ok (fun u => get_string u "") enc_string short); [|by apply set_iter_wf].
  intros s Hs. apply get_string_ok. unfold short in Hs. lia.
Qed.

Definition lock_wf (p : Z * client_info) : Prop := in_u64 p.1 /\ client_info_wf p.2.

Lemma put_lock_ok p : lock_wf p -> put_ok (fun m => put_lock m p) (enc_lock p).
Proof.
  intros [Hl Hc]. apply put_ok_bind; [solve [eauto with wire]|]. by apply put_client_info_ok.
Qed.
Lemma get_lock_ok p : lock_wf p -> get_ok get_lock (enc_lock p) p.
Proof.
  destruct p as [lid ci]. intros [Hl Hc]. unfold get_lock, enc_lock. cbn [fst snd] in *.
  eapply (get_ok_bind _ (fun _ _ => _)); [solve [eauto with wire]|cbv beta].
  apply (get_ok_map _ (fun ci => (lid, ci))). by apply get_client_info_ok.
Qed.

Lemma map_iter_wf s : lock_server_wf s -> Forall lock_wf (map_iter (ls_clients s)).
Proof.
  intros [_ Hs]. rewrite map_iter_perm. apply Forall_forall. intros [lid ci] Hin%elem_of_map_to_list. by apply Hs.
Qed.

Lemma foldl_insert {A} (l : list (Z * A)) (t : gmap Z A) :
  foldl (fun t p => <[p.1 := p.2]> t) t l = list_to_map (reverse l) ∪ t.
Proof.
  revert t. induction l as [|[k v] l IH]; intros t; cbn [foldl fst snd].
  - rewrite reverse_nil, list_to_map_nil. by rewrite (left_id_L ∅ (∪)).
  - rewrite IH, reverse_cons, list_to_map_app. cbn. rewrite <- (assoc_L (∪)). f_equal.
    by rewrite insert_empty, insert_union_singleton_l.
Qed.

Lemma map_iter_to_map {A} (m : gmap Z A) : list_to_map (reverse (map_iter m)) = m.
Proof.
  rewrite <- (list_to_map_to_list m) at 2. apply list_to_map_proper.
  - rewrite reverse_Permutation, map_iter_perm. apply NoDup_fst_map_to_list.
  - by rewrite reverse_Permutation, map_iter_perm.
Qed.

Lemma marshalled_table junk junk' s old : lock_server_wf s ->
  RPC_HEADER_SZ + Z.of_nat (length (enc_state s)) <= MAX_CONTENT ->
  exists state, marshal_state junk s = Some state /\
    unmarshal_state junk' old state =
      Some (LockServer (ls_clients s ∪ ls_clients old) (ls_revoker_queue old) (ls_retryer_queue old)).
Proof.
  intros Hs Hsz. pose proof (map_iter_wf s Hs) as Hwf.
  destruct (string_wire (fun m => put_vector put_lock m (map_iter (ls_clients s))) (get_vector get_lock)
    junk junk' (enc_state s) (map_iter (ls_clients s))) as (m & u & u' & Hm & Hstr & Hu & Hg & _); [| |done|].
  - apply (put_vector_ok _ _ lock_wf); [apply put_lock_ok|done].
  - apply (get_vector_ok _ _ lock_wf); [apply get_lock_ok| |done].
    rewrite map_iter_perm, length_map_to_list. apply Hs.
  - exists (str_of (enc_state s)). unfold marshal_state, unmarshal_state. rewrite Hm. split; [exact Hstr|].
    rewrite Hu. cbn [mbind option_bind]. rewrite Hg. cbn [mbind option_bind]. by rewrite foldl_insert, map_iter_to_map.
Qed.

(** State transfer of the lock table: a replica that unmarshals what another
    marshalled has that replica's entry, waiting clients included, for every lock
    the sender knows.  Entries of locks only the receiver knows stay in its table. *)
Theorem lock_state_transfer junk junk' s old : lock_server_wf s ->
  RPC_HEADER_SZ + Z.of_nat (length (enc_state s)) <= MAX_CONTENT ->
  exists state s', marshal_state junk s = Some state /\ unmarshal_state junk' old state = Some s' /\
    (forall lid ci, ls_clients s !! lid = Some ci -> ls_clients s' !! lid = Some ci) /\
    (forall lid, ls_clients s !! lid = None -> ls_clients s' !! lid = ls_clients old !! lid).
Proof.
  intros Hs Hsz. destruct (marshalled_table junk junk' s old Hs Hsz) as (state & Hm & Hu).
  eexists state, _. split; [exact Hm|]. split; [exact Hu|]. split; intros lid.
  - intros ci Hci. by apply lookup_union_Some_l.
  - intros Hn. by apply lookup_union_r.
Qed.

(** A replica that knows a lock of its own. *)
Definition lagging : lock_server := LockServer {[9 := ClientInfo "c" 4 true ∅]} [] [].

Lemma lock_state_transfer_witness : exists state s',
  marshal_state "000" (sy_server contended) = Some state /\ unmarshal_state "000" lagging state = Some s' /\
  (forall lid ci, ls_clients (sy_server contended) !! lid = Some ci -> ls_clients s' !! lid = Some ci) /\
  (forall lid, ls_clients (sy_server contended) !! lid = None -> ls_clients s' !! lid = ls_clients lagging !! lid).
Proof.
  apply (lock_state_transfer "000" "000" (sy_server contended) lagging).
  - split; [vm_compute; reflexivity|]. apply map_Forall_singleton. cbn.
    unfold in_u64, client_info_wf, short, in_u64. cbn.
    split; [lia|]. split; [vm_compute; reflexivity|]. split; [lia|]. split; [vm_compute; reflexivity|].
    apply set_Forall_singleton. vm_compute. reflexivity.
  - vm_compute. discriminate.
Defined.

(** ** A repeated acquire *)

(** The server's test for a repeated acquire jumps over the initialisation of
    [waited_clts]: whatever the state, the same request again after it was granted,
    which is what a client sends when the reply was lost with the primary, makes the
    server use an uninitialised pointer. *)
Theorem repeated_acquire_is_undefined prim prim' s lid id xid s' :
  server_acquire prim s lid id xid = Some (s', lock_protocol.OK) ->
  server_acquire prim' s' lid id xid = None.
Proof.
  assert (Hdup : forall h srv w, ls_clients srv !! lid = Some (ClientInfo id xid h w) ->
    server_acquire prim' srv lid id xid = None).
  { intros h srv w Hl. unfold server_acquire. rewrite Hl. cbn. by rewrite String.eqb_refl, Z.eqb_refl. }
  unfold server_acquire at 1. destruct (ls_clients s !! lid) as [ci|]; cbn.
  2:{ intros [= <-]. eapply Hdup. cbn. by rewrite lookup_insert_eq. }
  repeat case_match; try done; intros [= <-]; eapply Hdup; unfold ls_enq_revoke;
    case_match; cbn; by rewrite lookup_insert_eq.
Qed.

Lemma repeated_acquire_is_undefined_witness :
  server_acquire true (LockServer ∅ [] []) 7 "a" 1 =
    Some (LockServer {[7 := ClientInfo "a" 1 false ∅]} [] [], lock_protocol.OK) /\
  server_acquire true (LockServer {[7 := ClientInfo "a" 1 false ∅]} [] []) 7 "a" 1 = None.
Proof.
  split; [reflexivity|].
  apply (repeated_acquire_is_undefined true true (LockServer ∅ [] [])). reflexivity.
Defined.

(** ** The first lock server: lock_server.cc *)

Module first_lock_server.
(** [std::map<int, int> lock_clients]: the key is the lock id as an [int]. *)
Abbreviation table := (gmap Z Z).
Definition key (lid : Z) : Z := to_signed 32 lid.

(** [acquire]: [None] while the caller waits on the condition variable. *)
Definition acquire (t : table) (clt lid : Z) : option (table * Z * Z) :=
  match t !! key lid with
  | Some _ => None
  | None => Some (<[key lid := clt]> t, lock_protocol.OK, to_signed 32 lid)
  end.

Definition release (t : table) (clt lid : Z) : table * Z * Z :=
  (match t !! key lid with
   | Some c => if c =? clt then delete (key lid) t else t
   | None => t
   end, lock_protocol.OK, to_signed 32 lid).

(** The first lock server tells locks apart by the low 32 bits of their id only:
    a granted lock blocks every request for an id that agrees with it there, by any
    client, until its holder releases it, and the release of another client does not
    free it. *)
Theorem first_lock_server_exclusion t clt lid t' ret r : acquire t clt lid = Some (t', ret, r) ->
  forall lid' clt', lid' mod 2 ^ 32 = lid mod 2 ^ 32 ->
    acquire t' clt' lid' = None /\
    (clt' <> clt -> (release t' clt' lid').1.1 = t') /\
    (release t' clt lid').1.1 = t.
Proof.
  unfold acquire, release. destruct (t !! key lid) eqn:Hl; [done|]. intros [= <- _ _] lid' clt' Hmod.
  assert (key lid' = key lid) as -> by (unfold key, to_signed, wrap; by rewrite Hmod).
  rewrite lookup_insert_eq. split; [done|]. split; cbn [fst].
  - intros Hne. by rewrite (proj2 (Z.eqb_neq clt clt')) by congruence.
  - rewrite Z.eqb_refl. by rewrite delete_insert_id.
Qed.

Lemma first_lock_server_exclusion_witness :
  acquire ∅ 1 5 = Some ({[5 := 1]}, 0, 5) /\ acquire {[5 := 1]} 2 (5 + 2 ^ 32) = None.
Proof.
  assert (H : acquire ∅ 1 5 = Some ({[5 := 1]}, 0, 5)) by reflexivity. split; [exact H|].
  apply (first_lock_server_exclusion ∅ 1 5 _ 0 5 H (5 + 2 ^ 32) 2). reflexivity.
Defined.
End first_lock_server.
