(* ===== verification/LockCache.v ===== *)
(** * The caching lock service without replication

    Models src/mit_6.824/lock_server_cache.cc and lock_client_cache.cc, for one lock: the
    server, whose [acquire] calls the holder back and waits for its [release] before it
    returns, and caching clients.  What runs under the mutex of the server or of a client is
    one definition; the calls between them are steps of their own.  [None] is the assertion
    of the server or of the client.

    The revoke handler of a client that caches the lock gives it back without marking it: a
    thread that takes the lock from the cache meanwhile keeps it while the server grants it to
    another client.  As long as no thread does that the lock is exclusive. *)

From Stdlib Require Import ZArith Lia String.
From stdpp Require Import base list strings gmap sets relations.
From S2P Require Import Prelude Marshall Locks.

Local Open Scope Z_scope.
Local Open Scope cpp_scope.

(** ** The server *)

(** [client_info]: the entry of the lock. *)
Record sinfo := SInfo { si_cid : string; si_available : bool; si_waiting : bool; si_waited : gset string }.

(** What [acquire] does next: answer RETRY, revoke the lock from its holder, or grant it. *)
Inductive sc_todo := ScRetry | ScRevoke | ScGrant.
Definition sc_acquire (e : option sinfo) (id : string) : option sinfo * sc_todo :=
  match e with
  | None => (None, ScGrant)
  | Some ci =>
      let w := si_waited ci in
      if si_available ci && bool_decide (w = ∅) then (Some ci, ScGrant)
      else if negb (si_available ci) && negb (si_waiting ci) && (bool_decide (w = ∅) || bool_decide (id ∈ w)) then
        (Some (SInfo (si_cid ci) (si_available ci) true (if bool_decide (w = ∅) then {[id]} ∪ w else w)), ScRevoke)
      else (Some (SInfo (si_cid ci) (si_available ci) (si_waiting ci) ({[id]} ∪ w)), ScRetry)
  end.

(** The wait for the release is over. *)
Definition sc_woken (ci : sinfo) : sinfo := SInfo (si_cid ci) (si_available ci) false (si_waited ci).

(** The rest of [acquire]: the entry, and the client that gets a retry. *)
Definition sc_grant (e : option sinfo) (id : string) : option (sinfo * option string) :=
  VERIFY! match e with Some ci => si_available ci | None => true end ;;
  let w := match e with Some ci => si_waited ci ∖ {[id]} | None => ∅ end in
  let waiting := match e with Some ci => si_waiting ci | None => false end in
  Some (SInfo id false waiting w, set_begin w).

Definition sc_release (e : option sinfo) (id : string) : option sinfo :=
  match e with
  | Some ci => Some (if String.eqb (si_cid ci) id then SInfo (si_cid ci) true (si_waiting ci) (si_waited ci) else ci)
  | None => None
  end.

(** ** The client *)

Definition cc_acquire (l : lock_info) : lock_info * acquire_todo :=
  match li_stat l with
  | NONE => (LockInfo (li_revoked l) ACQUIRING (li_retry l), CallServer)
  | ACQUIRING | LOCKED | RELEASING => (l, WaitForLock)
  | FREE => (LockInfo (li_revoked l) LOCKED (li_retry l), Taken)
  end.

(** The call of the server has returned: true if the thread waits for a retry and calls
    again.  Nothing clears [retry]: after the first message it does not wait any more. *)
Definition cc_reply (l : lock_info) (ret : Z) : option (lock_info * bool) :=
  if ret =? lock_protocol.RETRY then Some (l, true)
  else VERIFY! (ret =? lock_protocol.OK) ;; Some (LockInfo (li_revoked l) LOCKED (li_retry l), false).

(** [release]: true if the lock goes back to the server. *)
Definition cc_release (l : lock_info) : option (lock_info * bool) :=
  match li_stat l with
  | NONE => Some (l, false)
  | LOCKED | FREE =>
      if li_revoked l then Some (LockInfo (li_revoked l) RELEASING (li_retry l), true)
      else Some (LockInfo (li_revoked l) FREE (li_retry l), false)
  | _ => None
  end.
Definition cc_released (l : lock_info) : lock_info := LockInfo false NONE (li_retry l).

(** [revoke_handler]: true if it gives the lock back itself; [stat] stays FREE meanwhile. *)
Definition cc_revoke (l : lock_info) : lock_info * bool :=
  (LockInfo true (li_stat l) (li_retry l), bool_decide (li_stat l = FREE)).

Definition cc_retry (l : lock_info) : lock_info := LockInfo (li_revoked l) (li_stat l) true.

(** ** Server and clients together *)

(** Where a call of [acquire] stands: sent, about to revoke, the revoke on its way to [h],
    the release of [h]'s handler sent, or done, the wait for the release, granted with a retry
    to be sent, replied, and the wait of the client for a retry. *)
Inductive acq_phase := ANone | ASent | ARevoke | ARevokeSent (h : string) | ARevokeRel (h : string) | ARevokeDone (h : string)
  | AWait | AGranted (retry : option string) | AReplied (ret : Z) | AAwaitRetry.
(** Where a call of [release] by a thread stands. *)
Inductive rel_phase := RNone | RSent | RReplied.

(** [cl_held] counts the threads whose [acquire] has returned and which have not called
    [release]. *)
Record cclient := CClient { cl_info : lock_info; cl_acq : acq_phase; cl_rel : rel_phase; cl_held : nat }.
Record csys := CSys { cs_entry : option sinfo; cs_clients : gmap string cclient }.
Definition cs_set (s : csys) (c : string) (k : cclient) : csys := CSys (cs_entry s) (<[c := k]> (cs_clients s)).
Definition with_acq (k : cclient) (a : acq_phase) : cclient := CClient (cl_info k) a (cl_rel k) (cl_held k).

(** [acquire] until it first leaves the mutex or returns. *)
Definition sc_call (e : option sinfo) (id : string) : option (option sinfo * acq_phase) :=
  let '(e, todo) := sc_acquire e id in
  match todo with
  | ScRetry => Some (e, AReplied lock_protocol.RETRY)
  | ScRevoke => Some (e, ARevoke)
  | ScGrant => '(ci, t) ← sc_grant e id; Some (Some ci, AGranted t)
  end.

(** A revoke handler of [h] is giving the lock back. *)
Definition giving_back (s : csys) (h : string) : Prop :=
  exists c k, cs_clients s !! c = Some k /\ (cl_acq k = ARevokeRel h \/ cl_acq k = ARevokeDone h).

Section System.
(** [careful]: no thread takes the lock from the cache while a handler gives it back. *)
Context (careful : bool).

Inductive cstep_cache (s : csys) : csys -> Prop :=
  | cc_step_acquire c k l todo :
      cs_clients s !! c = Some k -> cc_acquire (cl_info k) = (l, todo) ->
      (careful = true -> todo = Taken -> ~ giving_back s c) ->
      cstep_cache s (cs_set s c (CClient l (match todo with CallServer => ASent | _ => cl_acq k end) (cl_rel k) (match todo with Taken => S (cl_held k) | _ => cl_held k end)))
  | cc_step_server c k e a :
      cs_clients s !! c = Some k -> cl_acq k = ASent -> sc_call (cs_entry s) c = Some (e, a) ->
      cstep_cache s (CSys e (<[c := with_acq k a]> (cs_clients s)))
  (** The holder's name is read when the mutex is free again. *)
  | cc_step_call c k ci :
      cs_clients s !! c = Some k -> cl_acq k = ARevoke -> cs_entry s = Some ci ->
      cstep_cache s (cs_set s c (with_acq k (ARevokeSent (si_cid ci))))
  | cc_step_revoke c k h kh l (back : bool) :
      cs_clients s !! c = Some k -> cl_acq k = ARevokeSent h ->
      cs_clients (cs_set s c (with_acq k (if back then ARevokeRel h else AWait))) !! h = Some kh -> cc_revoke (cl_info kh) = (l, back) ->
      cstep_cache s (cs_set (cs_set s c (with_acq k (if back then ARevokeRel h else AWait))) h (CClient l (cl_acq kh) (cl_rel kh) (cl_held kh)))
  | cc_step_handler_release c k h :
      cs_clients s !! c = Some k -> cl_acq k = ARevokeRel h ->
      cstep_cache s (CSys (sc_release (cs_entry s) h) (<[c := with_acq k (ARevokeDone h)]> (cs_clients s)))
  | cc_step_handler_done c k h kh :
      cs_clients s !! c = Some k -> cl_acq k = ARevokeDone h -> cs_clients (cs_set s c (with_acq k AWait)) !! h = Some kh ->
      cstep_cache s (cs_set (cs_set s c (with_acq k AWait)) h (CClient (cc_released (cl_info kh)) (cl_acq kh) (cl_rel kh) (cl_held kh)))
  | cc_step_woken c k ci ci' t :
      cs_clients s !! c = Some k -> cl_acq k = AWait -> cs_entry s = Some ci -> si_available ci = true ->
      sc_grant (Some (sc_woken ci)) c = Some (ci', t) ->
      cstep_cache s (CSys (Some ci') (<[c := with_acq k (AGranted t)]> (cs_clients s)))
  | cc_step_retry c k r kr :
      cs_clients s !! c = Some k -> cl_acq k = AGranted (Some r) -> cs_clients (cs_set s c (with_acq k (AReplied lock_protocol.OK))) !! r = Some kr ->
      cstep_cache s (cs_set (cs_set s c (with_acq k (AReplied lock_protocol.OK))) r (CClient (cc_retry (cl_info kr)) (cl_acq kr) (cl_rel kr) (cl_held kr)))
  | cc_step_no_retry c k :
      cs_clients s !! c = Some k -> cl_acq k = AGranted None -> cstep_cache s (cs_set s c (with_acq k (AReplied lock_protocol.OK)))
  | cc_step_reply c k ret l (again : bool) :
      cs_clients s !! c = Some k -> cl_acq k = AReplied ret -> cc_reply (cl_info k) ret = Some (l, again) ->
      cstep_cache s (cs_set s c (CClient l (if again then AAwaitRetry else ANone) (cl_rel k) (if again then cl_held k else S (cl_held k))))
  | cc_step_again c k :
      cs_clients s !! c = Some k -> cl_acq k = AAwaitRetry -> li_retry (cl_info k) = true -> cstep_cache s (cs_set s c (with_acq k ASent))
  (** A thread that holds the lock calls [release]. *)
  | cc_step_release c k l (back : bool) :
      cs_clients s !! c = Some k -> (0 < cl_held k)%nat -> cc_release (cl_info k) = Some (l, back) ->
      cstep_cache s (cs_set s c (CClient l (cl_acq k) (if back then RSent else cl_rel k) (pred (cl_held k))))
  | cc_step_server_release c k :
      cs_clients s !! c = Some k -> cl_rel k = RSent ->
      cstep_cache s (CSys (sc_release (cs_entry s) c) (<[c := CClient (cl_info k) (cl_acq k) RReplied (cl_held k)]> (cs_clients s)))
  | cc_step_released c k :
      cs_clients s !! c = Some k -> cl_rel k = RReplied ->
      cstep_cache s (cs_set s c (CClient (cc_released (cl_info k)) (cl_acq k) RNone (cl_held k))).

Definition csys_init (clients : list string) : csys :=
  CSys None (list_to_map ((fun c => (c, CClient lock_info_new ANone RNone 0)) <$> clients)).
Definition cache_reachable (clients : list string) : csys -> Prop := rtc cstep_cache (csys_init clients).
End System.

(** [n] threads of [c] hold the lock. *)
Definition cache_held (s : csys) (c : string) (n : nat) : Prop := exists k, cs_clients s !! c = Some k /\ cl_held k = n.

(** ** The invariant *)

Definition cclient_wf (k : cclient) : Prop :=
  match cl_acq k with
  | ANone => match li_stat (cl_info k) with
             | NONE | LOCKED | FREE => cl_rel k = RNone
             | RELEASING => cl_rel k <> RNone
             | ACQUIRING => False
             end
  | _ => li_stat (cl_info k) = ACQUIRING /\ cl_rel k = RNone
  end.

(** The call has set [waiting]. *)
Definition requesting (a : acq_phase) : bool :=
  match a with ARevoke | ARevokeSent _ | ARevokeRel _ | ARevokeDone _ | AWait => true | _ => false end.
(** The client whose revoke handler gives the lock back, and the one whose handler has. *)
Definition given_by (a : acq_phase) : option string := match a with ARevokeRel h | ARevokeDone h => Some h | _ => None end.
Definition given (req : option (string * acq_phase)) : option string :=
  match req with Some (_, ARevokeDone h) => Some h | _ => None end.

Definition granted (a : acq_phase) : Prop := match a with AGranted _ => True | AReplied ret => ret = lock_protocol.OK | _ => False end.
Definition cowns (g : option string) (c : string) (k : cclient) : Prop :=
  granted (cl_acq k) \/ li_stat (cl_info k) = LOCKED \/ (li_stat (cl_info k) = FREE /\ g <> Some c) \/ cl_rel k = RSent.

Definition cholder (e : option sinfo) : option string := ci ← e; if si_available ci then None else Some (si_cid ci).
Definition cwaiting (e : option sinfo) : bool := match e with Some ci => si_waiting ci | None => false end.

(** [req] is the one call that revokes the lock and waits. *)
Record cache_inv_at (s : csys) (req : option (string * acq_phase)) : Prop := {
  ca_wf c k : cs_clients s !! c = Some k -> cclient_wf k;
  ca_req c k : cs_clients s !! c = Some k -> requesting (cl_acq k) = true -> req = Some (c, cl_acq k);
  ca_some c a : req = Some (c, a) -> requesting a = true /\ exists k, cs_clients s !! c = Some k /\ cl_acq k = a;
  ca_waiting : req <> None -> cwaiting (cs_entry s) = true;
  ca_free c a h : req = Some (c, a) -> given_by a = Some h -> exists kh, cs_clients s !! h = Some kh /\ li_stat (cl_info kh) = FREE;
  ca_owns c k : cs_clients s !! c = Some k -> cowns (given req) c k -> cholder (cs_entry s) = Some c }.

(** A client changes, but not the phase of a call that revokes. *)
Lemma ca_client s req c k k' e : cache_inv_at s req -> cs_clients s !! c = Some k -> cclient_wf k' ->
  (cl_acq k' = cl_acq k \/ (requesting (cl_acq k) = false /\ requesting (cl_acq k') = false)) ->
  (req <> None -> cwaiting e = true) -> (li_stat (cl_info k') = FREE \/ (forall x a, req = Some (x, a) -> given_by a <> Some c)) ->
  (forall c' k0, <[c := k']> (cs_clients s) !! c' = Some k0 -> cowns (given req) c' k0 -> cholder e = Some c') ->
  cache_inv_at (CSys e (<[c := k']> (cs_clients s))) req.
Proof.
  intros [Hw Hr Hs Hwt Hf Ho] Hc Hk Ha He Hfree Hown. split; cbn [cs_clients cs_entry].
  - intros c' k0. rewrite lookup_insert. case_decide; [by intros [= <-]|apply Hw].
  - intros c' k0. rewrite lookup_insert. case_decide as E; [|apply Hr]. subst c'. intros [= <-] Hq. destruct Ha as [Ha|[_ Ha]]; [|congruence]. rewrite Ha in *. by apply Hr.
  - intros c' a Hreq. destruct (Hs c' a Hreq) as (Ha' & k0 & Hk0 & Hka). split; [done|]. destruct (decide (c = c')) as [<-|Hne]; [|exists k0; by rewrite lookup_insert_ne].
    exists k'. rewrite lookup_insert_eq. split; [done|]. simplify_eq. destruct Ha as [->|[? _]]; [done|congruence].
  - done.
  - intros c' a h Hreq Hg. destruct (Hf c' a h Hreq Hg) as (kh & Hkh & Hst). destruct (decide (c = h)) as [<-|Hne]; [|exists kh; by rewrite lookup_insert_ne].
    exists k'. rewrite lookup_insert_eq. split; [done|]. destruct Hfree as [?|H]; [done|]. by destruct (H c' a Hreq).
  - done.
Qed.

(** The call that revokes, or one that begins to, goes on. *)
Lemma ca_request s req c k a e : cache_inv_at s req -> cs_clients s !! c = Some k -> (req = None \/ req = Some (c, cl_acq k)) -> cclient_wf (with_acq k a) ->
  let req' := if requesting a then Some (c, a) else None in
  (requesting a = true -> cwaiting e = true) -> (forall h, given_by a = Some h -> exists kh, cs_clients s !! h = Some kh /\ h <> c /\ li_stat (cl_info kh) = FREE) ->
  (forall c' k0, <[c := with_acq k a]> (cs_clients s) !! c' = Some k0 -> cowns (given req') c' k0 -> cholder e = Some c') ->
  cache_inv_at (CSys e (<[c := with_acq k a]> (cs_clients s))) req'.
Proof.
  intros [Hw Hr Hs Hwt Hf Ho] Hc Hreq Hk req' He Hfree Hown. split; cbn [cs_clients cs_entry].
  - intros c' k0. rewrite lookup_insert. case_decide; [by intros [= <-]|apply Hw].
  - intros c' k0. rewrite lookup_insert. case_decide as E.
    + subst c'. intros [= <-] Hq. cbn in *. unfold req'. by rewrite Hq.
    + intros Hk0 Hq. specialize (Hr _ _ Hk0 Hq). destruct Hreq; congruence.
  - intros c' a'. unfold req'. destruct (requesting a) eqn:E; [|done]. intros [= <- <-]. split; [done|]. exists (with_acq k a). by rewrite lookup_insert_eq.
  - intros Hn. apply He. unfold req' in Hn. by destruct (requesting a).
  - intros c' a' h. unfold req'. destruct (requesting a) eqn:E; [|done]. intros [= <- <-] Hg. destruct (Hfree h Hg) as (kh & Hkh & Hne & Hst). exists kh. by rewrite lookup_insert_ne.
  - done.
Qed.

Lemma owns_set s req c k' : cache_inv_at s req -> (cowns (given req) c k' -> cholder (cs_entry s) = Some c) ->
  forall c' k0, <[c := k']> (cs_clients s) !! c' = Some k0 -> cowns (given req) c' k0 -> cholder (cs_entry s) = Some c'.
Proof. intros I H c' k0. rewrite lookup_insert. case_decide; [subst; by intros [= <-]|apply (ca_owns _ _ I)]. Qed.

(** A client changes and the server does not. *)
Lemma ca_local s req c k k' : cache_inv_at s req -> cs_clients s !! c = Some k -> cclient_wf k' ->
  (cl_acq k' = cl_acq k \/ (requesting (cl_acq k) = false /\ requesting (cl_acq k') = false)) ->
  (li_stat (cl_info k') = FREE \/ (forall x a, req = Some (x, a) -> given_by a <> Some c)) ->
  (cowns (given req) c k' -> cowns (given req) c k) -> cache_inv_at (cs_set s c k') req.
Proof.
  intros I Hc Hk Ha Hf Ho. eapply ca_client; [exact I|exact Hc|done|done|apply I|done|]. apply owns_set; [done|]. intros H%Ho. by eapply ca_owns.
Qed.

(** A client that is not FREE is not being revoked by its own handler. *)
Lemma not_given s req c k : cache_inv_at s req -> cs_clients s !! c = Some k -> li_stat (cl_info k) <> FREE ->
  forall x a, req = Some (x, a) -> given_by a <> Some c.
Proof. intros I Hc Hst x a Hr Hg. destruct (ca_free _ _ I x a c Hr Hg) as (k0 & Hk0 & ?). congruence. Qed.

Lemma given_not s req c k : cache_inv_at s req -> cs_clients s !! c = Some k -> li_stat (cl_info k) <> FREE -> given req <> Some c.
Proof.
  intros I Hc Hst Hg. destruct req as [[x a]|]; [|done]. apply (not_given _ _ _ _ I Hc Hst x a eq_refl). destruct a; cbn in Hg; cbn; congruence.
Qed.

(** When the server does not take the lock for held, no client has it. *)
Lemma nobody_owns s req c k : cache_inv_at s req -> cholder (cs_entry s) = None -> cs_clients s !! c = Some k -> ~ cowns (given req) c k.
Proof. intros I Hn Hc Ho. rewrite (ca_owns _ _ I c k Hc Ho) in Hn. done. Qed.

Ltac cache_cases := unfold cclient_wf, cowns, granted, with_acq, cc_released, cc_retry in *; cbn in *; repeat case_match; simplify_eq/=; naive_solver.

Lemma sc_call_cases e c e' a : sc_call e c = Some (e', a) ->
  (a = AReplied lock_protocol.RETRY /\ cholder e' = cholder e /\ cwaiting e' = cwaiting e) \/
  (a = ARevoke /\ cholder e' = cholder e /\ cwaiting e = false /\ cwaiting e' = true) \/
  (exists t, a = AGranted t /\ cholder e = None /\ cholder e' = Some c /\ cwaiting e' = cwaiting e).
Proof.
  unfold sc_call, sc_acquire. destruct e as [ci|]; [|intros [= <- <-]; right; right; by eexists]. destruct (si_available ci && bool_decide (si_waited ci = ∅)) eqn:E1.
  - apply andb_true_iff in E1 as [Ea _]. unfold sc_grant, VERIFY. rewrite Ea. intros [= <- <-]. right; right. eexists. cbn. by rewrite Ea.
  - destruct (negb (si_available ci) && negb (si_waiting ci) && _) eqn:E2; intros [= <- <-]; [right; left|left]; cbn; [|done].
    apply andb_true_iff in E2 as [E2 _]. apply andb_true_iff in E2 as [_ E2]. apply negb_true_iff in E2. done.
Qed.

Lemma ca_server s req c k e a : cache_inv_at s req -> cs_clients s !! c = Some k -> cl_acq k = ASent -> sc_call (cs_entry s) c = Some (e, a) ->
  exists req', cache_inv_at (CSys e (<[c := with_acq k a]> (cs_clients s))) req'.
Proof.
  intros I Hc Ha Hcall. pose proof (ca_wf _ _ I c k Hc) as Hw. assert (Hst : li_stat (cl_info k) = ACQUIRING /\ cl_rel k = RNone) by (unfold cclient_wf in Hw; by rewrite Ha in Hw).
  destruct Hst as [Hst Hrel]. assert (Hng := not_given _ _ _ _ I Hc ltac:(congruence)).
  assert (Hno : forall g, ~ cowns g c k) by (intros g; unfold cowns; rewrite Ha, Hst, Hrel; cbn; naive_solver).
  destruct (sc_call_cases _ _ _ _ Hcall) as [(-> & Hh & Hwt)|[(-> & Hh & Hw0 & Hw1)|(t & -> & Hh0 & Hh1 & Hwt)]].
  - exists req. eapply ca_client; [exact I|exact Hc|cache_cases|right; by rewrite Ha|rewrite Hwt; apply I|by right|]. rewrite Hh. apply owns_set; [done|]. cbn. unfold cowns. cbn. rewrite Hst, Hrel. naive_solver.
  - assert (req = None) as -> by (destruct req as [|]; [|done]; pose proof (ca_waiting _ _ I ltac:(done)); congruence). exists (Some (c, ARevoke)).
    apply (ca_request s None c k ARevoke e I Hc); [by left|cache_cases|done|done|]. rewrite Hh. cbn. apply (owns_set s None); [done|]. unfold cowns. cbn. rewrite Hst, Hrel. naive_solver.
  - exists req. eapply ca_client; [exact I|exact Hc|cache_cases|right; by rewrite Ha|rewrite Hwt; apply I|by right|]. intros c' k0. rewrite lookup_insert.
    case_decide as E; [subst c'; by rewrite Hh1|]. intros Hk0 Ho. by destruct (nobody_owns _ _ _ _ I Hh0 Hk0).
Qed.

Lemma sc_release_holder e h : cholder e = Some h -> cholder (sc_release e h) = None /\ cwaiting (sc_release e h) = cwaiting e.
Proof.
  unfold cholder, sc_release. destruct e as [ci|]; [|done]. cbn. destruct (si_available ci) eqn:Ea; [done|]. intros [= ->]. rewrite String.eqb_refl. done.
Qed.

(** The facts about a client whose call revokes the lock. *)
Lemma requester s req c k : cache_inv_at s req -> cs_clients s !! c = Some k -> requesting (cl_acq k) = true ->
  req = Some (c, cl_acq k) /\ li_stat (cl_info k) = ACQUIRING /\ cl_rel k = RNone /\ cwaiting (cs_entry s) = true.
Proof.
  intros I Hc Hq. pose proof (ca_req _ _ I c k Hc Hq) as Hr. pose proof (ca_wf _ _ I c k Hc) as Hw. pose proof (ca_waiting _ _ I) as Hwt. rewrite Hr in Hwt. specialize (Hwt ltac:(done)).
  unfold cclient_wf in Hw. split; [done|]. destruct (cl_acq k); cbn in Hq; try done; destruct Hw; done.
Qed.

(** The phase of such a call changes and nothing else. *)
Lemma ca_phase s req c k a : cache_inv_at s req -> cs_clients s !! c = Some k -> requesting (cl_acq k) = true -> given_by (cl_acq k) = None -> requesting a = true ->
  (forall h, given_by a = Some h -> a = ARevokeRel h /\ exists kh, cs_clients s !! h = Some kh /\ li_stat (cl_info kh) = FREE) ->
  cache_inv_at (cs_set s c (with_acq k a)) (Some (c, a)).
Proof.
  intros I Hc Hq Hg Ha Hfree. destruct (requester _ _ _ _ I Hc Hq) as (-> & Hst & Hrel & Hwt).
  pose proof (ca_request s _ c k a (cs_entry s) I Hc) as H. cbn zeta in H. rewrite Ha in H. apply H; [by right| |done| |].
  - unfold cclient_wf, with_acq. cbn. destruct a; cbn in Ha; done.
  - intros h Hh. destruct (Hfree h Hh) as (_ & kh & Hkh & Hs). exists kh. split; [done|]. split; [|done]. intros ->. congruence.
  - assert (given (Some (c, a)) = None) as -> by (destruct a; cbn; try done; destruct (Hfree h eq_refl); done).
    assert (Eg : given (Some (c, cl_acq k)) = None) by (destruct (cl_acq k); done). intros c' k0 Hk0 Ho. rewrite <- Eg in Ho. eapply (owns_set s _ c (with_acq k a) I); [|exact Hk0|exact Ho].
    unfold cowns, with_acq. cbn. rewrite Hst, Hrel. intros [Hgr|?]; [destruct a; done|naive_solver].
Qed.

Lemma ca_revoke s req c k h kh l back : cache_inv_at s req -> cs_clients s !! c = Some k -> cl_acq k = ARevokeSent h ->
  let a := if back : bool then ARevokeRel h else AWait in
  cs_clients (cs_set s c (with_acq k a)) !! h = Some kh -> cc_revoke (cl_info kh) = (l, back) ->
  exists req', cache_inv_at (cs_set (cs_set s c (with_acq k a)) h (CClient l (cl_acq kh) (cl_rel kh) (cl_held kh))) req'.
Proof.
  intros I Hc Ha a Hh Hl. injection Hl as <- Hb. pose proof (requester _ _ _ _ I Hc ltac:(by rewrite Ha)) as (_ & Hst & _ & _).
  assert (I1 : cache_inv_at (cs_set s c (with_acq k a)) (Some (c, a))).
  { apply (ca_phase s req); [done|done|by rewrite Ha|by rewrite Ha|by subst a; destruct back|]. intros h' Hg. subst a. destruct back; [|done]. injection Hg as <-. split; [done|].
    apply bool_decide_eq_true in Hb. cbn in Hh. rewrite lookup_insert in Hh. case_decide; [simplify_eq; cbn in Hb; congruence|]. by exists kh. }
  exists (Some (c, a)). eapply ca_local; [exact I1|exact Hh| |by left| |].
  - pose proof (ca_wf _ _ I1 _ _ Hh). cache_cases.
  - cbn. destruct (decide (li_stat (cl_info kh) = FREE)); [by left|]. right. by apply (not_given _ _ _ _ I1 Hh).
  - unfold cowns. by cbn.
Qed.

Lemma free_idle k : cclient_wf k -> li_stat (cl_info k) = FREE -> cl_acq k = ANone /\ cl_rel k = RNone.
Proof. unfold cclient_wf. intros Hwf Hf. destruct (cl_acq k); rewrite Hf in Hwf; [done|by destruct Hwf..]. Qed.

Lemma ca_handler_release s req c k h : cache_inv_at s req -> cs_clients s !! c = Some k -> cl_acq k = ARevokeRel h ->
  cache_inv_at (CSys (sc_release (cs_entry s) h) (<[c := with_acq k (ARevokeDone h)]> (cs_clients s))) (Some (c, ARevokeDone h)).
Proof.
  intros I Hc Ha. destruct (requester _ _ _ _ I Hc ltac:(by rewrite Ha)) as (-> & Hst & Hrel & Hwt). rewrite Ha in I. destruct (ca_free _ _ I c _ h eq_refl eq_refl) as (kh & Hkh & Hf).
  assert (Hh : cholder (cs_entry s) = Some h) by (apply (ca_owns _ _ I h kh Hkh); right; right; left; done). destruct (sc_release_holder _ _ Hh) as [Hn Hw].
  apply (ca_request s _ c k (ARevokeDone h) _ I Hc); [right; by rewrite Ha|done|intros _; by rewrite Hw| |].
  - intros h' [= <-]. exists kh. split; [done|]. split; [intros ->; congruence|done].
  - cbn. intros c' k0. rewrite lookup_insert. case_decide as E; [subst c'; intros [= <-]; unfold cowns; cbn; rewrite Hst, Hrel; naive_solver|].
    intros Hk0 Ho. assert (Hc' : cholder (cs_entry s) = Some c') by (apply (ca_owns _ _ I c' k0 Hk0); unfold cowns in *; naive_solver). assert (c' = h) as -> by congruence.
    assert (k0 = kh) as -> by congruence. destruct (free_idle _ (ca_wf _ _ I h kh Hkh) Hf) as [Hka Hkr]. unfold cowns in Ho. rewrite Hf, Hka, Hkr in Ho. naive_solver.
Qed.

Lemma ca_handler_done s req c k h kh : cache_inv_at s req -> cs_clients s !! c = Some k -> cl_acq k = ARevokeDone h ->
  cs_clients (cs_set s c (with_acq k AWait)) !! h = Some kh ->
  cache_inv_at (cs_set (cs_set s c (with_acq k AWait)) h (CClient (cc_released (cl_info kh)) (cl_acq kh) (cl_rel kh) (cl_held kh))) (Some (c, AWait)).
Proof.
  intros I Hc Ha Hh. destruct (requester _ _ _ _ I Hc ltac:(by rewrite Ha)) as (-> & Hst & Hrel & Hwt). rewrite Ha in I. destruct (ca_free _ _ I c _ h eq_refl eq_refl) as (kh' & Hkh' & Hf).
  assert (Hne : c <> h) by (intros ->; congruence). cbn in Hh. rewrite lookup_insert_ne in Hh by done. assert (kh' = kh) as -> by congruence.
  destruct (free_idle _ (ca_wf _ _ I h kh Hkh') Hf) as [Hka Hkr]. split; cbn [cs_set cs_clients cs_entry].
  - intros c' k0. rewrite lookup_insert. case_decide; [intros [= <-]; unfold cclient_wf; cbn; by rewrite Hka|]. rewrite lookup_insert. case_decide; [by intros [= <-]|apply (ca_wf _ _ I)].
  - intros c' k0. rewrite lookup_insert. case_decide; [intros [= <-]; cbn; by rewrite Hka|]. rewrite lookup_insert. case_decide; [subst; by intros [= <-]|].
    intros Hk0 Hq. pose proof (ca_req _ _ I _ _ Hk0 Hq). congruence.
  - intros c' a [= <- <-]. split; [done|]. exists (with_acq k AWait). by rewrite lookup_insert_ne, lookup_insert_eq by done.
  - done.
  - by intros c' a h' [= <- <-].
  - cbn. intros c' k0. rewrite lookup_insert. case_decide; [intros [= <-]; unfold cowns; cbn; rewrite Hka, Hkr; naive_solver|].
    rewrite lookup_insert. case_decide; [intros [= <-]; unfold cowns; cbn; rewrite Hst, Hrel; naive_solver|]. intros Hk0 Ho. apply (ca_owns _ _ I c' k0 Hk0). unfold cowns in *. cbn. naive_solver.
Qed.

Lemma ca_woken s req c k ci ci' t : cache_inv_at s req -> cs_clients s !! c = Some k -> cl_acq k = AWait -> cs_entry s = Some ci -> si_available ci = true ->
  sc_grant (Some (sc_woken ci)) c = Some (ci', t) -> cache_inv_at (CSys (Some ci') (<[c := with_acq k (AGranted t)]> (cs_clients s))) None.
Proof.
  intros I Hc Ha He Hav Hg. destruct (requester _ _ _ _ I Hc ltac:(by rewrite Ha)) as (-> & Hst & Hrel & Hwt). rewrite Ha in I.
  unfold sc_grant, VERIFY in Hg. cbn in Hg. rewrite Hav in Hg. injection Hg as <- <-.
  apply (ca_request s _ c k (AGranted _) _ I Hc); [right; by rewrite Ha|done|done|done|]. cbn. intros c' k0. rewrite lookup_insert.
  case_decide as E; [by subst|]. intros Hk0 Ho. destruct (nobody_owns _ _ c' k0 I); [by rewrite He; cbn; rewrite Hav|done|]. done.
Qed.

Lemma rel_busy k : cclient_wf k -> cl_rel k <> RNone -> cl_acq k = ANone /\ li_stat (cl_info k) = RELEASING.
Proof. unfold cclient_wf. intros Hwf Hr. destruct (cl_acq k); [|by destruct Hwf..]. by destruct (li_stat (cl_info k)). Qed.

Lemma ca_server_release s req c k : cache_inv_at s req -> cs_clients s !! c = Some k -> cl_rel k = RSent ->
  cache_inv_at (CSys (sc_release (cs_entry s) c) (<[c := CClient (cl_info k) (cl_acq k) RReplied (cl_held k)]> (cs_clients s))) req.
Proof.
  intros I Hc Hr. destruct (rel_busy _ (ca_wf _ _ I c k Hc) ltac:(congruence)) as [Ha Hst].
  assert (Hh : cholder (cs_entry s) = Some c) by (apply (ca_owns _ _ I c k Hc); unfold cowns; auto). destruct (sc_release_holder _ _ Hh) as [Hn Hwt].
  eapply ca_client; [exact I|exact Hc|unfold cclient_wf; cbn; by rewrite Ha, Hst|by left|rewrite Hwt; apply I|right; apply (not_given _ _ _ _ I Hc); congruence|].
  intros c' k0. rewrite lookup_insert. case_decide as E; [subst; intros [= <-]; unfold cowns; cbn; rewrite Ha, Hst; naive_solver|].
  intros Hk0 Ho. pose proof (ca_owns _ _ I c' k0 Hk0 Ho). congruence.
Qed.

Lemma ca_same s req c k : cache_inv_at s req -> cs_clients s !! c = Some k -> cache_inv_at (cs_set s c (CClient (cl_info k) (cl_acq k) (cl_rel k) (cl_held k))) req.
Proof. intros I Hc. destruct s, k. unfold cs_set. cbn in *. by rewrite insert_id. Qed.

Lemma ca_acquire s req c k l todo : cache_inv_at s req -> cs_clients s !! c = Some k -> cc_acquire (cl_info k) = (l, todo) -> (todo = Taken -> ~ giving_back s c) ->
  cache_inv_at (cs_set s c (CClient l (match todo with CallServer => ASent | _ => cl_acq k end) (cl_rel k) (match todo with Taken => S (cl_held k) | _ => cl_held k end))) req.
Proof.
  intros I Hc Hl Hcare. pose proof (ca_wf _ _ I c k Hc) as Hw. unfold cc_acquire in Hl. destruct (li_stat (cl_info k)) eqn:Hst; injection Hl as <- <-.
  - assert (Ha : cl_acq k = ANone /\ cl_rel k = RNone) by (unfold cclient_wf in Hw; rewrite Hst in Hw; destruct (cl_acq k); naive_solver). destruct Ha as [Ha Hr].
    eapply ca_local; [exact I|exact Hc|done|right; by rewrite Ha|right; apply (not_given _ _ _ _ I Hc); congruence|]. unfold cowns. cbn. rewrite Hr. naive_solver.
  - by apply ca_same.
  - by apply ca_same.
  - by apply ca_same.
  - destruct (free_idle _ Hw Hst) as [Ha Hr]. assert (Hng : forall x a, req = Some (x, a) -> given_by a <> Some c).
    { intros x a Hreq Hg. destruct (ca_some _ _ I x a Hreq) as (_ & k0 & Hk0 & Hka). apply Hcare; [done|]. exists x, k0. split; [done|]. rewrite Hka. destruct a; cbn in Hg; naive_solver. }
    eapply ca_local; [exact I|exact Hc|unfold cclient_wf; cbn; by rewrite Ha|by left|by right|]. intros _. right; right; left. split; [done|].
    intros Hg. destruct req as [[x a]|]; [|done]. apply (Hng x a eq_refl). destruct a; cbn in Hg; cbn; congruence.
Qed.

Lemma ca_reply s req c k ret l (again : bool) : cache_inv_at s req -> cs_clients s !! c = Some k -> cl_acq k = AReplied ret -> cc_reply (cl_info k) ret = Some (l, again) ->
  cache_inv_at (cs_set s c (CClient l (if again then AAwaitRetry else ANone) (cl_rel k) (if again then cl_held k else S (cl_held k)))) req.
Proof.
  intros I Hc Ha Hl. pose proof (ca_wf _ _ I c k Hc) as Hw. unfold cclient_wf in Hw. rewrite Ha in Hw. destruct Hw as [Hst Hr]. unfold cc_reply in Hl.
  assert (Hng := not_given _ _ _ _ I Hc ltac:(congruence)). destruct (ret =? lock_protocol.RETRY).
  - injection Hl as <- <-. eapply ca_local; [exact I|exact Hc|done|right; by rewrite Ha|by right|]. unfold cowns. cbn. rewrite Hst, Hr. naive_solver.
  - destruct (ret =? lock_protocol.OK) eqn:E; [|done]. injection Hl as <- <-. apply Z.eqb_eq in E. eapply ca_local; [exact I|exact Hc|done|right; by rewrite Ha|by right|].
    intros _. left. by rewrite Ha.
Qed.

Lemma ca_release s req c k l (back : bool) : cache_inv_at s req -> cs_clients s !! c = Some k -> li_stat (cl_info k) = LOCKED -> cc_release (cl_info k) = Some (l, back) ->
  cache_inv_at (cs_set s c (CClient l (cl_acq k) (if back then RSent else cl_rel k) (pred (cl_held k)))) req.
Proof.
  intros I Hc Hst Hl. pose proof (ca_wf _ _ I c k Hc) as Hw. assert (Ha : cl_acq k = ANone /\ cl_rel k = RNone) by (unfold cclient_wf in Hw; rewrite Hst in Hw; destruct (cl_acq k); naive_solver).
  destruct Ha as [Ha Hr]. assert (Hng := not_given _ _ _ _ I Hc ltac:(congruence)). unfold cc_release in Hl. rewrite Hst in Hl.
  destruct (li_revoked (cl_info k)); injection Hl as <- <-; (eapply ca_local; [exact I|exact Hc|unfold cclient_wf; cbn; by rewrite Ha|by left|by right|]); intros _; right; by left.
Qed.

Lemma ca_released s req c k : cache_inv_at s req -> cs_clients s !! c = Some k -> cl_rel k = RReplied -> cache_inv_at (cs_set s c (CClient (cc_released (cl_info k)) (cl_acq k) RNone (cl_held k))) req.
Proof.
  intros I Hc Hr. destruct (rel_busy _ (ca_wf _ _ I c k Hc) ltac:(congruence)) as [Ha Hst]. assert (Hng := not_given _ _ _ _ I Hc ltac:(congruence)).
  eapply ca_local; [exact I|exact Hc|unfold cclient_wf; cbn; by rewrite Ha|by left|by right|]. unfold cowns. cbn. rewrite Ha. cbn. naive_solver.
Qed.

(** A call that does not revoke goes on to a phase that has no more of the lock. *)
Lemma ca_waiting_call s req c k a : cache_inv_at s req -> cs_clients s !! c = Some k -> (cl_acq k <> ANone /\ requesting (cl_acq k) = false) ->
  (a <> ANone /\ requesting a = false /\ (granted a -> granted (cl_acq k))) -> cache_inv_at (cs_set s c (with_acq k a)) req.
Proof.
  intros I Hc [Hn Hq] (Hn' & Hq' & Hg). pose proof (ca_wf _ _ I c k Hc) as Hw. assert (Hst : li_stat (cl_info k) = ACQUIRING /\ cl_rel k = RNone) by (unfold cclient_wf in Hw; by destruct (cl_acq k)).
  assert (Hng := not_given _ _ _ _ I Hc ltac:(destruct Hst; congruence)).
  eapply ca_local; [exact I|exact Hc|unfold cclient_wf; cbn; by destruct a|by right|by right|]. unfold cowns. cbn. naive_solver.
Qed.

Lemma ca_granted s req c k t : cache_inv_at s req -> cs_clients s !! c = Some k -> cl_acq k = AGranted t -> cache_inv_at (cs_set s c (with_acq k (AReplied lock_protocol.OK))) req.
Proof. intros I Hc Ha. eapply ca_waiting_call; [exact I|exact Hc|by rewrite Ha|by rewrite Ha]. Qed.

Lemma ca_retried s req c k : cache_inv_at s req -> cs_clients s !! c = Some k -> cache_inv_at (cs_set s c (CClient (cc_retry (cl_info k)) (cl_acq k) (cl_rel k) (cl_held k))) req.
Proof.
  intros I Hc. eapply ca_local; [exact I|exact Hc|exact (ca_wf _ _ I c k Hc)|by left| |by unfold cowns]. cbn.
  destruct (decide (li_stat (cl_info k) = FREE)); [by left|right]. by apply (not_given _ _ _ _ I Hc).
Qed.

(** In a careful system a thread holds the lock while [stat] is LOCKED, and only then. *)
Definition held_wf (k : cclient) : Prop := cl_held k = if decide (li_stat (cl_info k) = LOCKED) then 1%nat else 0%nat.
Definition held_ok (s : csys) : Prop := map_Forall (fun _ => held_wf) (cs_clients s).

Lemma held_set s e c k : held_ok s -> held_wf k -> held_ok (CSys e (<[c := k]> (cs_clients s))).
Proof. intros H Hk. by apply map_Forall_insert_2. Qed.
Lemma held_same s c k k' e : held_ok s -> cs_clients s !! c = Some k -> li_stat (cl_info k') = li_stat (cl_info k) -> cl_held k' = cl_held k ->
  held_ok (CSys e (<[c := k']> (cs_clients s))).
Proof. intros H Hc Hs Hh. apply held_set; [done|]. unfold held_wf. rewrite Hs, Hh. exact (H _ _ Hc). Qed.
Lemma held_unlocked s c k e k' : held_ok s -> cs_clients s !! c = Some k -> li_stat (cl_info k) <> LOCKED -> li_stat (cl_info k') <> LOCKED -> cl_held k' = cl_held k ->
  held_ok (CSys e (<[c := k']> (cs_clients s))).
Proof. intros H Hc Hs Hs' Hh. apply held_set; [done|]. unfold held_wf. specialize (H _ _ Hc). unfold held_wf in H. rewrite Hh, H. by rewrite !decide_False. Qed.
Lemma held_locked s c k : held_ok s -> cs_clients s !! c = Some k -> (0 < cl_held k)%nat -> li_stat (cl_info k) = LOCKED /\ cl_held k = 1%nat.
Proof. intros H Hc Hh. specialize (H _ _ Hc). unfold held_wf in H. case_decide; [done|lia]. Qed.

(** The clients whose state the steps below change. *)
Lemma held_acquire s c k l todo : held_ok s -> cs_clients s !! c = Some k -> cc_acquire (cl_info k) = (l, todo) ->
  held_ok (cs_set s c (CClient l (match todo with CallServer => ASent | _ => cl_acq k end) (cl_rel k) (match todo with Taken => S (cl_held k) | _ => cl_held k end))).
Proof.
  intros H Hc Hl. unfold cc_acquire in Hl. pose proof (H _ _ Hc) as Hk. unfold held_wf in Hk.
  destruct (li_stat (cl_info k)) eqn:Hst; injection Hl as <- <-; (apply held_set; [done|]); unfold held_wf; cbn; rewrite ?Hst, Hk; done.
Qed.
Lemma held_reply s req c k ret l (again : bool) : cache_inv_at s req -> held_ok s -> cs_clients s !! c = Some k -> cl_acq k = AReplied ret -> cc_reply (cl_info k) ret = Some (l, again) ->
  held_ok (cs_set s c (CClient l (if again then AAwaitRetry else ANone) (cl_rel k) (if again then cl_held k else S (cl_held k)))).
Proof.
  intros I H Hc Ha Hl. pose proof (ca_wf _ _ I c k Hc) as Hw. unfold cclient_wf in Hw. rewrite Ha in Hw. destruct Hw as [Hst _]. pose proof (H _ _ Hc) as Hk. unfold held_wf in Hk.
  rewrite Hst in Hk. unfold cc_reply in Hl. destruct (ret =? lock_protocol.RETRY); [injection Hl as <- <-; by eapply held_same|].
  destruct (ret =? lock_protocol.OK); [|done]. injection Hl as <- <-. apply held_set; [done|]. unfold held_wf. cbn. by rewrite Hk.
Qed.
Lemma held_release s c k l (back : bool) : held_ok s -> cs_clients s !! c = Some k -> (0 < cl_held k)%nat -> cc_release (cl_info k) = Some (l, back) ->
  held_ok (cs_set s c (CClient l (cl_acq k) (if back then RSent else cl_rel k) (pred (cl_held k)))).
Proof.
  intros H Hc Hh Hl. destruct (held_locked _ _ _ H Hc Hh) as [Hst H1]. unfold cc_release in Hl. rewrite Hst in Hl. apply held_set; [done|]. unfold held_wf. cbn. rewrite H1.
  destruct (li_revoked (cl_info k)); injection Hl as <- <-; done.
Qed.
Lemma held_handler_done s req c k h kh : cache_inv_at s req -> held_ok s -> cs_clients s !! c = Some k -> cl_acq k = ARevokeDone h -> cs_clients (cs_set s c (with_acq k AWait)) !! h = Some kh ->
  held_ok (cs_set (cs_set s c (with_acq k AWait)) h (CClient (cc_released (cl_info kh)) (cl_acq kh) (cl_rel kh) (cl_held kh))).
Proof.
  intros I H Hc Ha Hh. destruct (requester _ _ _ _ I Hc ltac:(by rewrite Ha)) as (-> & Hst & _ & _). rewrite Ha in I. destruct (ca_free _ _ I c _ h eq_refl eq_refl) as (kh' & Hkh' & Hf).
  assert (Hne : c <> h) by (intros ->; congruence). assert (kh' = kh) as -> by (cbn in Hh; rewrite lookup_insert_ne in Hh by done; congruence).
  eapply held_unlocked; [by eapply held_same|exact Hh|congruence|done|done].
Qed.

(** A step of a careful system keeps the invariant. *)
Lemma cache_step_inv s s' req : cache_inv_at s req -> held_ok s -> cstep_cache true s s' -> (exists req', cache_inv_at s' req') /\ held_ok s'.
Proof.
  intros I H Hs. destruct Hs as [c k l todo Hc Hl Hcare|c k e a Hc Ha Hcall|c k ci Hc Ha He|c k h kh l back Hc Ha Hh Hl|c k h Hc Ha|c k h kh Hc Ha Hh
    |c k ci ci' t Hc Ha He Hav Hg|c k r kr Hc Ha Hr|c k Hc Ha|c k ret l again Hc Ha Hl|c k Hc Ha Hr|c k l back Hc Hh Hl|c k Hc Hr|c k Hc Hr].
  - split; [|by apply held_acquire]. exists req. apply ca_acquire; auto.
  - split; [by eapply ca_server|by eapply held_same].
  - split; [|by eapply held_same]. eexists. eapply ca_phase; [exact I|exact Hc|by rewrite Ha|by rewrite Ha|done|done].
  - split; [by eapply ca_revoke|]. injection Hl as <- _. eapply held_same; [by eapply held_same|exact Hh|done|done].
  - split; [|by eapply held_same]. eexists. by eapply ca_handler_release.
  - split; [|by eapply held_handler_done]. eexists. by eapply ca_handler_done.
  - split; [|by eapply held_same]. eexists. by eapply ca_woken.
  - split; [|eapply held_same; [by eapply held_same|exact Hr|done|done]]. exists req. apply ca_retried; [by eapply ca_granted|done].
  - split; [|by eapply held_same]. exists req. by eapply ca_granted.
  - split; [|by eapply held_reply]. exists req. by eapply ca_reply.
  - split; [|by eapply held_same]. exists req. eapply ca_waiting_call; [exact I|exact Hc|by rewrite Ha|done].
  - split; [|by apply held_release]. exists req. apply ca_release; [done|done|by eapply held_locked|done].
  - split; [|by eapply held_same]. exists req. by apply ca_server_release.
  - split; [exists req; by apply ca_released|]. destruct (rel_busy _ (ca_wf _ _ I c k Hc) ltac:(congruence)) as [_ Hst]. eapply held_unlocked; [exact H|exact Hc|congruence|done|done].
Qed.

Lemma csys_init_lookup clients c k : cs_clients (csys_init clients) !! c = Some k -> k = CClient lock_info_new ANone RNone 0.
Proof. intros Hk. apply elem_of_list_to_map_2 in Hk. apply list_elem_of_fmap_1 in Hk as (? & ? & _). congruence. Qed.
Lemma cache_init_inv clients : cache_inv_at (csys_init clients) None /\ held_ok (csys_init clients).
Proof.
  split; [split; [| |done..|]; intros c k ->%csys_init_lookup; [done|done|]; unfold cowns; cbn; naive_solver|]. by intros c k ->%csys_init_lookup.
Qed.

Lemma cache_reachable_inv clients s : cache_reachable true clients s -> (exists req, cache_inv_at s req) /\ held_ok s.
Proof.
  intros Hr. destruct (cache_init_inv clients) as [I0 H0]. apply (rtc_ind_r (fun s => (exists req, cache_inv_at s req) /\ held_ok s) (csys_init clients)) with (3 := Hr); [by split; [eexists|]|].
  intros ? ? _ Hs [[req I] H]. by eapply cache_step_inv.
Qed.

(** ** The race of the revoke handler *)

(** "b" asks for the lock while "a" has it cached; a thread of "a" takes it from the cache
    while the revoke handler gives it back. *)
Definition racing : csys :=
  CSys (Some (SInfo "b" false false ∅))
    (<["a" := CClient (LockInfo false NONE false) ANone RNone 1]> {["b" := CClient (LockInfo false LOCKED false) ANone RNone 1]}).

Lemma racing_reachable : cache_reachable false ["a"; "b"] racing.
Proof.
  eapply rtc_l; [by eapply (cc_step_acquire _ _ "a")|].
  eapply rtc_l; [by eapply (cc_step_server _ _ "a")|].
  eapply rtc_l; [by eapply (cc_step_no_retry _ _ "a")|].
  eapply rtc_l; [by eapply (cc_step_reply _ _ "a")|].
  eapply rtc_l; [eapply (cc_step_release _ _ "a"); [done|cbn; lia|done]|].
  eapply rtc_l; [by eapply (cc_step_acquire _ _ "b")|].
  eapply rtc_l; [by eapply (cc_step_server _ _ "b")|].
  eapply rtc_l; [by eapply (cc_step_call _ _ "b")|].
  eapply rtc_l; [by eapply (cc_step_revoke _ _ "b" _ "a" _ _ true)|].
  eapply rtc_l; [by eapply (cc_step_acquire _ _ "a")|].
  eapply rtc_l; [by eapply (cc_step_handler_release _ _ "b")|].
  eapply rtc_l; [by eapply (cc_step_handler_done _ _ "b")|].
  eapply rtc_l; [by eapply (cc_step_woken _ _ "b")|].
  eapply rtc_l; [by eapply (cc_step_no_retry _ _ "b")|].
  eapply rtc_l; [by eapply (cc_step_reply _ _ "b")|].
  apply eq_subrelation; [apply _|]. vm_compute. reflexivity.
Qed.

(** C5. The caching lock service without replication: as long as no thread takes the lock
    from its client's cache while the revoke handler of that client gives it back, the lock
    is exclusive, for any clients and any order of calls, callbacks and replies: a client
    with a thread that holds the lock has just one, and the server has the lock for that
    client, so no other client has one.  The code does not prevent such a thread: from the
    start two clients reach a state in which a thread of each holds the lock. *)
Theorem lock_cache_exclusion :
  (forall clients s, cache_reachable true clients s -> forall c n, cache_held s c (S n) ->
     n = 0%nat /\ cholder (cs_entry s) = Some c /\ forall c' n', cache_held s c' (S n') -> c' = c) /\
  (exists s, cache_reachable false ["a"; "b"] s /\ cache_held s "a" 1 /\ cache_held s "b" 1).
Proof.
  split; [|exists racing; split; [exact racing_reachable|split; eexists; split; reflexivity]].
  intros clients s Hr. destruct (cache_reachable_inv _ _ Hr) as [[req I] H].
  assert (Hold : forall c n, cache_held s c (S n) -> n = 0%nat /\ cholder (cs_entry s) = Some c).
  { intros c n (k & Hc & Hn). destruct (held_locked _ _ _ H Hc ltac:(lia)) as [Hst H1]. split; [lia|]. apply (ca_owns _ _ I c k Hc). unfold cowns. auto. }
  intros c n Hc. destruct (Hold c n Hc) as [-> Hh]. split; [done|]. split; [done|]. intros c' n' Hc'. destruct (Hold c' n' Hc') as [_ Hh']. congruence.
Qed.
