(* ===== verification/Rsm.v ===== *)
(** * The replicated state machine

    Models src/mit_6.824/rsm.cc and rsm.h: the handlers a service registers, the
    execution of a request, the primary's [client_invoke] and the backups' [invoke],
    state transfer, joining, the choice of the primary and the recovery steps.  The
    service is a parameter; [Replicated] states what it promises: the part of its
    state that is replicated changes the same way at every replica, primary or not.
    [RsmView] runs the primary and its backups of one view together. *)

From Stdlib Require Import ZArith Lia Ascii String.
From stdpp Require Import base list strings gmap sets relations.
From S2P Require Import Prelude Marshall Protocols Rpc PaxosAcceptor Paxos Config.

Local Open Scope Z_scope.
Local Open Scope cpp_scope.

(** ** Handlers and the execution of a request *)

(** A service method sees whether it runs on the primary ([rsm::amiprimary]). *)
Abbreviation rsm_handler S := (bool -> handler S).

(** The handlers made by [rsm::reg] for one to four arguments, read in order;
    [None] is [VERIFY(args.okdone())]. *)
Definition rsm_h1 {S A R : Type} `{Wire A, Wire R} (meth : bool -> S -> A -> option (S * R * Z)) : rsm_handler S :=
  fun prim sob args ret =>
    '(args, a) ← wget args;
    VERIFY! okdone args ;;
    '(sob, r, b) ← meth prim sob a;
    ret ← wput ret r;
    Some (sob, ret, b).

Section Execute.
Context {S : Type} (procs : gmap Z (rsm_handler S)) (junk : ascii).

(** [rsm::execute] on the service state; [None] if no handler is registered. *)
Definition execute (prim : bool) (st : S) (procno : Z) (req : string) : option (S * string) :=
  match procs !! procno with
  | None => None
  | Some h =>
      args ← take_content junk req;
      '(st, rep, ret) ← h prim st args (marshall_new junk);
      rep1 ← put_int (marshall_new junk) ret;
      reps ← m_str rep;
      rep1 ← put_string rep1 reps;
      r ← m_str rep1;
      Some (st, r)
  end.

(** ** State and operations of a replica *)

Record rsm := Rsm {
  r_me : string; r_state : S; r_myvs : viewstamp; r_last_myvs : viewstamp; r_primary : string;
  r_insync : bool; r_inviewchange : bool; r_vid_commit : Z; r_vid_insync : Z; r_backups : list string }.

(** The constructor, up to the commit of the first view and the recovery thread. *)
Definition rsm_new (st : S) (uninit : Z) (first me : string) : rsm :=
  Rsm me st (Viewstamp 0 1) (Viewstamp 0 0) first false true 0 uninit [].

Definition vs_next (vs : viewstamp) : viewstamp := Viewstamp (vid vs) (wrap 32 (seqno vs + 1)).

(** The service has executed: [last_myvs = myvs; myvs.seqno++]. *)
Definition executed (r : rsm) (st : S) : rsm :=
  Rsm (r_me r) st (vs_next (r_myvs r)) (r_myvs r) (r_primary r) (r_insync r) (r_inviewchange r)
    (r_vid_commit r) (r_vid_insync r) (r_backups r).

(** The guards of [client_invoke]: a status, or the members to ask. *)
Definition client_invoke_check (r : rsm) (acc : acceptor) : Z + list string :=
  if r_inviewchange r then inl rsm_client_protocol.BUSY
  else if negb (String.eqb (r_primary r) (r_me r)) then inl rsm_client_protocol.NOTPRIMARY
  else inr (get_view_wo acc (r_vid_commit r)).

(** The members [client_invoke] sends the request to, in this order. *)
Definition invoke_targets (r : rsm) (mems : list string) : list string :=
  filter (fun m => m <> r_me r) mems.

(** What the primary does once all of them have answered OK. *)
Definition client_invoke_execute (r : rsm) (prim : bool) (procno : Z) (req : string) : option (rsm * string) :=
  '(st, rep) ← execute prim (r_state r) procno req; Some (executed r st, rep).

(** [rsm::invoke] at a backup releases [rsm_mutex] between its test and the end of the
    execution.  Its three parts: the test, the execution, which changes the state of the
    service alone, and the end, which counts the request under the mutex again. *)
Definition invoke_check (r : rsm) (acc : acceptor) (vs : viewstamp) : bool :=
  negb (r_inviewchange r || negb (ismember acc (r_me r) (r_vid_commit r))) &&
  negb (negb (vid vs =? vid (r_myvs r)) || negb (seqno vs =? seqno (r_myvs r))).
Definition invoke_run (r : rsm) (prim : bool) (proc : Z) (req : string) : option rsm :=
  '(st, _) ← execute prim (r_state r) proc req;
  Some (Rsm (r_me r) st (r_myvs r) (r_last_myvs r) (r_primary r) (r_insync r) (r_inviewchange r)
    (r_vid_commit r) (r_vid_insync r) (r_backups r)).
Definition invoke_end (r : rsm) : rsm := executed r (r_state r).

(** [rsm::amiprimary] *)
Definition amiprimary (r : rsm) : bool := String.eqb (r_primary r) (r_me r) && negb (r_inviewchange r).

(** [rsm::client_members]: the view and, last, the primary. *)
Definition client_members (r : rsm) (acc : acceptor) : list string :=
  get_view_wo acc (r_vid_commit r) ++ [r_primary r].

(** ** View changes *)

Fixpoint first_in (p c : list string) : option string :=
  match p with
  | [] => None
  | x :: p => if isamember x c then Some x else first_in p c
  end.

(** [rsm::set_primary]: [None] is one of its three VERIFYs. *)
Definition set_primary (primary : string) (acc : acceptor) (vid : Z) : option string :=
  let c := get_view_wo acc vid in
  let p := get_view_wo acc (wrap 32 (vid - 1)) in
  VERIFY! (0 <? Z.of_nat (length c)) ;;
  if isamember primary c then Some primary
  else VERIFY! (0 <? Z.of_nat (length p)) ;; first_in p c.

Definition commit_change_wo (r : rsm) (acc : acceptor) (vid : Z) : option rsm :=
  if vid <=? r_vid_commit r then Some r
  else
    p ← set_primary (r_primary r) acc vid;
    Some (Rsm (r_me r) (r_state r) (r_myvs r) (r_last_myvs r) p (r_insync r) true vid
            (r_vid_insync r) (r_backups r)).

(** [rsm::transferreq]; [marshal] is the service's [marshal_state], if it has one. *)
Definition transferreq (marshal : option (S -> option string)) (r : rsm) (last : viewstamp) (vid : Z)
    : option (Z * rsm_protocol.transferres) :=
  if negb (r_insync r) || negb (vid =? r_vid_insync r)
  then Some (rsm_protocol.BUSY, rsm_protocol.TransferRes "" viewstamp_default)
  else
    state ← match marshal with
            | Some f => if viewstamp_neq last (r_last_myvs r) then f (r_state r) else Some ""%string
            | None => Some ""%string
            end;
    Some (rsm_protocol.OK, rsm_protocol.TransferRes state (r_last_myvs r)).

Definition erase_first (m : string) (l : list string) : list string :=
  (fix go l := match l with [] => [] | x :: l => if String.eqb x m then l else x :: go l end) l.

(** [rsm::transferdonereq]: the status, and whether the recovery thread is woken. *)
Definition transferdonereq (r : rsm) (m : string) (vid : Z) : rsm * Z * bool :=
  if negb (r_insync r) || negb (vid =? r_vid_insync r) then (r, rsm_protocol.BUSY, false)
  else
    let b := erase_first m (r_backups r) in
    (Rsm (r_me r) (r_state r) (r_myvs r) (r_last_myvs r) (r_primary r) (r_insync r) (r_inviewchange r)
       (r_vid_commit r) (r_vid_insync r) b, rsm_protocol.OK, bool_decide (b = [])).

(** [rsm::statetransfer] when its call has returned: [None] for the reply is a
    call that failed. *)
Definition statetransfer (unmarshal : option (S -> string -> option S)) (r : rsm)
    (reply : option (Z * rsm_protocol.transferres)) : option (rsm * bool) :=
  match reply with
  | None => Some (r, false)
  | Some (ret, t) =>
      if negb (ret =? rsm_protocol.OK) then Some (r, false)
      else
        st ← match unmarshal with
             | Some f =>
                 if viewstamp_neq (r_last_myvs r) (rsm_protocol.tr_last t)
                 then f (r_state r) (rsm_protocol.tr_state t) else Some (r_state r)
             | None => Some (r_state r)
             end;
        Some (Rsm (r_me r) st (r_myvs r) (rsm_protocol.tr_last t) (r_primary r) (r_insync r) (r_inviewchange r)
                (r_vid_commit r) (r_vid_insync r) (r_backups r), true)
  end.

(** The parts of [rsm::recovery]: start synchronising for the committed view, the
    primary's list of backups, and the end of a synchronisation with result [res];
    true if the thread starts over. *)
Definition recovery_begin (r : rsm) : rsm :=
  Rsm (r_me r) (r_state r) (r_myvs r) (r_last_myvs r) (r_primary r) (r_insync r) (r_inviewchange r)
    (r_vid_commit r) (r_vid_commit r) (r_backups r).

(** [sync_with_backups] before and after its wait. *)
Definition sync_with_backups_begin (r : rsm) (acc : acceptor) : rsm * bool :=
  if negb (r_vid_insync r =? r_vid_commit r) then (r, false)
  else (Rsm (r_me r) (r_state r) (r_myvs r) (r_last_myvs r) (r_primary r) true (r_inviewchange r)
          (r_vid_commit r) (r_vid_insync r) (invoke_targets r (get_view_wo acc (r_vid_commit r))), true).
Definition sync_with_backups_end (r : rsm) : rsm * bool :=
  (Rsm (r_me r) (r_state r) (r_myvs r) (r_last_myvs r) (r_primary r) false (r_inviewchange r)
     (r_vid_commit r) (r_vid_insync r) (r_backups r), r_vid_insync r =? r_vid_commit r).

Definition recovery_end (r : rsm) (res : bool) : rsm * bool :=
  if negb (r_vid_insync r =? r_vid_commit r) then (r, true)
  else if res then
    (Rsm (r_me r) (r_state r) (Viewstamp (r_vid_commit r) 1) (r_last_myvs r) (r_primary r) (r_insync r) false
       (r_vid_commit r) (r_vid_insync r) (r_backups r), false)
  else (r, false).

(** [rsm::joinreq] before its call of [config::add]: a final answer, or the view
    number to add the node to; and after it. *)
Definition joinreq_begin (r : rsm) (acc : acceptor) (m : string) : (Z * rsm_protocol.joinres) + Z :=
  if ismember acc m (r_vid_commit r) then inl (rsm_protocol.OK, rsm_protocol.JoinRes (dump acc))
  else if negb (String.eqb (r_me r) (r_primary r)) then inl (rsm_protocol.BUSY, rsm_protocol.JoinRes "")
  else inr (r_vid_commit r).
Definition joinreq_end (c : config) (acc : acceptor) (m : string) : Z * rsm_protocol.joinres :=
  if ismember acc m (cf_myvid c) then (rsm_protocol.OK, rsm_protocol.JoinRes (dump acc))
  else (rsm_protocol.BUSY, rsm_protocol.JoinRes "").
End Execute.
Arguments rsm : clear implicits.

(** ** What a service promises *)

(** [core] is the replicated part of the state; executing a request changes it, and
    answers, the same way whatever the rest of the state and the role of the node. *)
Class Replicated {S C : Type} (procs : gmap Z (rsm_handler S)) (junk : ascii) := {
  core : S -> C;
  exec_core : C -> Z -> string -> option (C * string);
  execute_core prim st proc req :
    (fun '(st', r) => (core st', r)) <$> execute procs junk prim st proc req = exec_core (core st) proc req }.

Lemma execute_core_Some {S C} {procs junk} `{!@Replicated S C procs junk} prim st proc req st' r :
  execute procs junk prim st proc req = Some (st', r) -> exec_core (core st) proc req = Some (core st', r).
Proof. intros He. by rewrite <- (execute_core prim), He. Qed.

(** ** One view: the primary and its backups *)

Section RsmView.
Context {S C : Type} (procs : gmap Z (rsm_handler S)) (junk : ascii) `{!@Replicated S C procs junk}.
Context (acc : acceptor).
(** [all_bound]: every [safebind] of the primary succeeds.
    [serial]: an invoke reaches a backup only when no other invoke is running there.  The
    code does not see to that: the primary gives up a call after a second and goes on to the
    next request, with the same viewstamp, while the backup may still be executing. *)
Context (all_bound serial : bool).

(** An [invoke] RPC on its way: the number of the call, the backup, the arguments. *)
Record invoke_msg := InvokeMsg {
  im_id : nat; im_to : string; im_vs : viewstamp; im_proc : Z; im_req : string }.

(** The [client_invoke] that holds [invoke_mutex]: its request, the members it still
    has to ask, and, while it waits for the first of them, the reply if it came. *)
Record client_call := ClientCall {
  cc_proc : Z; cc_req : string; cc_todo : list string; cc_wait : option (nat * option Z) }.

(** [g_running]: the invokes that have passed their test and not ended, and whether they have
    executed. *)
Record rsys := RSys {
  g_primary : rsm S; g_backups : gmap string (rsm S); g_net : list invoke_msg;
  g_running : list (invoke_msg * bool); g_next : nat; g_call : option client_call }.

(** The invoke numbered [id] has returned [ret]. *)
Definition after_invoke (c : option client_call) (id : nat) (ret : Z) : option client_call :=
  match c with
  | Some (ClientCall proc req todo (Some (i, None))) =>
      Some (ClientCall proc req todo (Some (i, if Nat.eqb i id then Some ret else None)))
  | c => c
  end.

(** A step, and the reply a client gets OK with in it. *)
Inductive rstep (s : rsys) : option (Z * string * string) -> rsys -> Prop :=
  | rs_begin proc req mems :
      g_call s = None -> client_invoke_check (g_primary s) acc = inr mems ->
      rstep s None (RSys (g_primary s) (g_backups s) (g_net s) (g_running s) (g_next s)
        (Some (ClientCall proc req (invoke_targets (g_primary s) mems) None)))
  (** [safebind] returned no handle: the member is passed over. *)
  | rs_unbound proc req b todo :
      all_bound = false -> g_call s = Some (ClientCall proc req (b :: todo) None) ->
      rstep s None (RSys (g_primary s) (g_backups s) (g_net s) (g_running s) (g_next s) (Some (ClientCall proc req todo None)))
  | rs_send proc req b todo :
      g_call s = Some (ClientCall proc req (b :: todo) None) ->
      rstep s None (RSys (g_primary s) (g_backups s)
        (InvokeMsg (g_next s) b (r_myvs (g_primary s)) proc req :: g_net s) (g_running s) (g_next s + 1)
        (Some (ClientCall proc req (b :: todo) (Some (g_next s, None)))))
  (** An invoke reaches a backup, at once or long after the primary gave up.  The test
      fails and ERR is answered, or the backup goes on to execute. *)
  | rs_refuse n1 msg n2 rb :
      g_net s = n1 ++ msg :: n2 -> g_backups s !! im_to msg = Some rb ->
      invoke_check rb acc (im_vs msg) = false ->
      rstep s None (RSys (g_primary s) (g_backups s) (n1 ++ n2) (g_running s) (g_next s)
        (after_invoke (g_call s) (im_id msg) rsm_client_protocol.ERR))
  | rs_check n1 msg n2 rb :
      g_net s = n1 ++ msg :: n2 -> g_backups s !! im_to msg = Some rb ->
      invoke_check rb acc (im_vs msg) = true ->
      (serial = true -> forall m e, (m, e) ∈ g_running s -> im_to m <> im_to msg) ->
      rstep s None (RSys (g_primary s) (g_backups s) (n1 ++ n2) ((msg, false) :: g_running s) (g_next s) (g_call s))
  | rs_run k1 msg k2 rb prim rb' :
      g_running s = k1 ++ (msg, false) :: k2 -> g_backups s !! im_to msg = Some rb ->
      invoke_run procs junk rb prim (im_proc msg) (im_req msg) = Some rb' ->
      rstep s None (RSys (g_primary s) (<[im_to msg := rb']> (g_backups s)) (g_net s) (k1 ++ (msg, true) :: k2)
        (g_next s) (g_call s))
  | rs_end k1 msg k2 rb :
      g_running s = k1 ++ (msg, true) :: k2 -> g_backups s !! im_to msg = Some rb ->
      rstep s None (RSys (g_primary s) (<[im_to msg := invoke_end rb]> (g_backups s)) (g_net s) (k1 ++ k2)
        (g_next s) (after_invoke (g_call s) (im_id msg) rsm_protocol.OK))
  | rs_reply proc req b todo id :
      g_call s = Some (ClientCall proc req (b :: todo) (Some (id, Some rsm_protocol.OK))) ->
      rstep s None (RSys (g_primary s) (g_backups s) (g_net s) (g_running s) (g_next s) (Some (ClientCall proc req todo None)))
  (** Another reply, or none in time: the client is told BUSY. *)
  | rs_give_up c w :
      g_call s = Some c -> cc_wait c = Some w ->
      rstep s None (RSys (g_primary s) (g_backups s) (g_net s) (g_running s) (g_next s) None)
  (** A request is lost. *)
  | rs_drop n1 msg n2 :
      g_net s = n1 ++ msg :: n2 ->
      rstep s None (RSys (g_primary s) (g_backups s) (n1 ++ n2) (g_running s) (g_next s) (g_call s))
  (** All have answered OK: the primary executes.  Sequence numbers are taken not to
      wrap around within the view. *)
  | rs_finish proc req prim p' rep :
      g_call s = Some (ClientCall proc req [] None) ->
      client_invoke_execute procs junk (g_primary s) prim proc req = Some (p', rep) ->
      seqno (r_myvs (g_primary s)) < 2 ^ 32 - 2 ->
      rstep s (Some (proc, req, rep)) (RSys p' (g_backups s) (g_net s) (g_running s) (g_next s) None).

(** The view starts when recovery is over: every member is at the first viewstamp of
    the view with the same replicated state, and nothing is on its way. *)
Definition in_step (p b : rsm S) : Prop := r_myvs b = r_myvs p /\ core (r_state b) = core (r_state p).
Record view_start (s : rsys) : Prop := {
  vs_seq : 0 <= seqno (r_myvs (g_primary s)) < 2 ^ 32 - 1;
  vs_backups b rb : g_backups s !! b = Some rb -> in_step (g_primary s) rb;
  vs_members b : is_Some (g_backups s !! b) ->
    b ∈ invoke_targets (g_primary s) (get_view_wo acc (r_vid_commit (g_primary s)));
  vs_net : g_net s = [];
  vs_running : g_running s = [];
  vs_call : g_call s = None }.

Inductive view_reachable : rsys -> Prop :=
  | vr_start s : view_start s -> view_reachable s
  | vr_step s l s' : view_reachable s -> rstep s l s' -> view_reachable s'.
End RsmView.
Arguments rsys : clear implicits.
Arguments RSys {S}.
Arguments g_primary {S}. Arguments g_backups {S}. Arguments g_net {S}. Arguments g_running {S}. Arguments g_next {S}. Arguments g_call {S}.
