(* ===== verification/RsmSafety.v ===== *)
(** * Replicas stay in step

    The invariant of one view of the replicated state machine (src/mit_6.824/rsm.cc):
    the primary asks the backups in a fixed order and executes last, so a backup is
    at the primary's viewstamp with the same state or one request ahead of it, and
    those ahead have executed the same request.  This takes that invokes do not overlap
    at a backup. *)

From Stdlib Require Import ZArith Lia Ascii String.
From stdpp Require Import base list strings gmap sets relations.
From S2P Require Import Prelude Marshall Protocols Rpc PaxosAcceptor Paxos Config Rsm.

Local Open Scope Z_scope.

(** The members asked before [b]. *)
Fixpoint earlier (b : string) (l : list string) : list string :=
  match l with
  | [] => []
  | x :: l => if decide (x = b) then [] else x :: earlier b l
  end.

Lemma earlier_ne b l c : c ∈ earlier b l -> c <> b.
Proof.
  induction l as [|x l IH]; cbn; [by intros ?%elem_of_nil|]. case_decide; [by intros ?%elem_of_nil|].
  intros [->|?]%elem_of_cons; auto.
Qed.

Lemma earlier_done b pre post : forall c, c ∈ earlier b (pre ++ b :: post) -> c ∈ pre.
Proof.
  induction pre as [|x pre IH]; intros c; cbn.
  - rewrite decide_True by done. by intros ?%elem_of_nil.
  - case_decide; [by intros ?%elem_of_nil|]. intros [->|?%IH]%elem_of_cons; by constructor.
Qed.

Lemma earlier_total l : forall a b, a ∈ l -> b ∈ l -> a = b \/ a ∈ earlier b l \/ b ∈ earlier a l.
Proof.
  induction l as [|x l IH]; intros a b Ha Hb; [by apply elem_of_nil in Ha|]. cbn.
  destruct (decide (a = b)) as [->|Hne]; [by left|right].
  destruct (decide (x = b)) as [->|Hxb]; [right|].
  { rewrite decide_False by done. constructor. }
  destruct (decide (x = a)) as [->|Hxa]; [left; constructor|].
  apply elem_of_cons in Ha as [->|Ha]; [done|]. apply elem_of_cons in Hb as [->|Hb]; [done|].
  destruct (IH a b Ha Hb) as [?|[?|?]]; [done|left|right]; by constructor.
Qed.

Section Safety.
Context {S C : Type} (procs : gmap Z (rsm_handler S)) (junk : ascii) `{!@Replicated S C procs junk}.
Context (acc : acceptor).

Definition targets (s : rsys S) : list string :=
  invoke_targets (g_primary s) (get_view_wo acc (r_vid_commit (g_primary s))).

(** Backup [b] has executed one request, [req], that the primary has not. *)
Definition ahead (s : rsys S) (b : string) (proc : Z) (req : string) : Prop :=
  exists rb, g_backups s !! b = Some rb /\ r_myvs rb = vs_next (r_myvs (g_primary s)) /\
    exists out, exec_core (core (r_state (g_primary s))) proc req = Some (core (r_state rb), out).

(** An invoke that has passed its test; [e]: it has executed. *)
Definition running_ok (s : rsys S) (m : invoke_msg) (e : bool) : Prop :=
  exists rb, g_backups s !! im_to m = Some rb /\ r_myvs rb = r_myvs (g_primary s) /\
    if e then exists out, exec_core (core (r_state (g_primary s))) (im_proc m) (im_req m) = Some (core (r_state rb), out)
    else core (r_state rb) = core (r_state (g_primary s)).

(** A request that is on its way or is being executed. *)
Definition pending (s : rsys S) (m : invoke_msg) : Prop := m ∈ g_net s \/ exists e, (m, e) ∈ g_running s.

Definition wait_ok (s : rsys S) (c : client_call) : Prop :=
  match cc_wait c with
  | None => True
  | Some (id, rep) => (id < g_next s)%nat /\ exists b todo, cc_todo c = b :: todo /\
      (forall m, pending s m -> im_id m = id -> im_to m = b /\ im_proc m = cc_proc c /\ im_req m = cc_req c) /\
      (rep = Some rsm_protocol.OK -> ahead s b (cc_proc c) (cc_req c))
  end.

Record view_inv (s : rsys S) : Prop := {
  v_seq : 0 <= seqno (r_myvs (g_primary s)) < 2 ^ 32 - 1;
  v_members b : is_Some (g_backups s !! b) -> b ∈ targets s;
  v_state b rb : g_backups s !! b = Some rb -> in_step procs junk (g_primary s) rb \/
    (exists proc req, ahead s b proc req /\ forall c, c ∈ earlier b (targets s) -> ahead s c proc req) \/
    exists m, (m, true) ∈ g_running s /\ im_to m = b;
  v_msg m : m ∈ g_net s -> (im_id m < g_next s)%nat /\ vid (im_vs m) = vid (r_myvs (g_primary s)) /\
    seqno (im_vs m) <= seqno (r_myvs (g_primary s)) /\
    (im_vs m = r_myvs (g_primary s) ->
     forall c, c ∈ earlier (im_to m) (targets s) -> ahead s c (im_proc m) (im_req m));
  v_run m e : (m, e) ∈ g_running s -> (im_id m < g_next s)%nat /\ running_ok s m e /\
    forall c, c ∈ earlier (im_to m) (targets s) -> ahead s c (im_proc m) (im_req m);
  v_alone : NoDup ((fun x => im_to (fst x)) <$> g_running s);
  v_call c : g_call s = Some c -> wait_ok s c /\ exists asked, targets s = asked ++ cc_todo c /\
    forall b, b ∈ asked -> ahead s b (cc_proc c) (cc_req c) }.

Lemma vs_next_seq s : view_inv s -> seqno (vs_next (r_myvs (g_primary s))) = seqno (r_myvs (g_primary s)) + 1.
Proof using. intros Hs. pose proof (v_seq _ Hs). cbn. apply wrap_small. lia. Qed.

Lemma not_ahead s b rb proc req : view_inv s -> g_backups s !! b = Some rb ->
  r_myvs rb = r_myvs (g_primary s) -> ~ ahead s b proc req.
Proof using.
  intros Hs Hb Hvs (rb0 & Hb0 & Hvs0 & _). assert (rb0 = rb) as -> by congruence.
  pose proof (vs_next_seq s Hs) as Hn. rewrite <- Hvs0, Hvs in Hn. lia.
Qed.

(** A step that changes neither the replicas nor the messages. *)
Lemma view_inv_call s c : view_inv s ->
  (forall cc, c = Some cc -> wait_ok s cc /\ exists asked, targets s = asked ++ cc_todo cc /\
     forall b, b ∈ asked -> ahead s b (cc_proc cc) (cc_req cc)) ->
  view_inv (RSys (g_primary s) (g_backups s) (g_net s) (g_running s) (g_next s) c).
Proof using. intros [? ? ? ? ? ? ?] Hc. by split. Qed.

Lemma view_inv_send s proc req b todo : view_inv s -> g_call s = Some (ClientCall proc req (b :: todo) None) ->
  view_inv (RSys (g_primary s) (g_backups s)
    (InvokeMsg (g_next s) b (r_myvs (g_primary s)) proc req :: g_net s) (g_running s) (g_next s + 1)
    (Some (ClientCall proc req (b :: todo) (Some (g_next s, None))))).
Proof using.
  intros [Hq Hm Hst Hmsg Hrun Hal Hc] Hcall. destruct (Hc _ Hcall) as (_ & asked & HT & Hasked). cbn in *. split; try done.
  - cbn. intros m [->|Hin]%elem_of_cons; cbn.
    + split; [lia|]. split; [done|]. split; [lia|]. intros _ c Hc'. apply Hasked.
      change (targets _) with (targets s) in Hc'. rewrite HT in Hc'. by eapply earlier_done.
    + destruct (Hmsg m Hin) as (? & ?). split; [lia|done].
  - cbn. intros m e Hin. destruct (Hrun m e Hin) as (? & ?). split; [lia|done].
  - cbn. intros c [= <-]. split; [|by exists asked]. cbn. split; [lia|]. exists b, todo. split; [done|].
    split; [|done]. intros m [[->|Hin]%elem_of_cons|[e Hin]]; [done|..]; intros Hid;
      [destruct (Hmsg m Hin)|destruct (Hrun m e Hin)]; lia.
Qed.

(** Requests disappear; the call gets no answer that says they were executed. *)
Lemma wait_ok_less s s' c : wait_ok s c -> g_next s' = g_next s ->
  (forall b proc req, ahead s b proc req -> ahead s' b proc req) -> (forall m, pending s' m -> pending s m) -> wait_ok s' c.
Proof using.
  intros Hw Hn Ha Hp. unfold wait_ok in *. destruct (cc_wait c) as [[id rep]|]; [|done]. rewrite Hn.
  destruct Hw as (? & b & todo & ? & Hmw & Hok). split; [done|]. exists b, todo. split; [done|]. split; [|by auto].
  intros m Hm'. by apply Hmw, Hp.
Qed.

(** [after_invoke] on the waiting call: what must hold when the answer is OK. *)
Lemma wait_ok_answer s s' c id ret cc : wait_ok s c -> after_invoke (Some c) id ret = Some cc -> g_next s' = g_next s ->
  (forall b proc req, ahead s b proc req -> ahead s' b proc req) -> (forall m, pending s' m -> pending s m) ->
  (ret = rsm_protocol.OK -> exists msg, pending s msg /\ im_id msg = id /\ ahead s' (im_to msg) (im_proc msg) (im_req msg)) ->
  wait_ok s' cc /\ cc_todo cc = cc_todo c /\ cc_proc cc = cc_proc c /\ cc_req cc = cc_req c.
Proof using.
  intros Hw Ha Hn Hah Hp Hok. destruct c as [proc req todo w]. cbn in Ha.
  destruct w as [[i [rep|]]|]; injection Ha as <-; (split; [|done]).
  - by apply (wait_ok_less s).
  - unfold wait_ok in *. cbn in *. destruct Hw as (? & b & todo' & -> & Hmw & _). rewrite Hn. split; [done|].
    exists b, todo'. split; [done|]. split; [intros m Hm'; by apply Hmw, Hp|].
    destruct (Nat.eqb_spec i id) as [Heq|]; [|done]. intros [= Hret].
    destruct (Hok Hret) as (msg & Hpm & Hid & Hahm). destruct (Hmw msg Hpm) as (<- & <- & <-); [congruence|done].
  - by apply (wait_ok_less s).
Qed.

Lemma view_inv_drop s n1 msg n2 : view_inv s -> g_net s = n1 ++ msg :: n2 ->
  view_inv (RSys (g_primary s) (g_backups s) (n1 ++ n2) (g_running s) (g_next s) (g_call s)).
Proof using.
  intros [Hq Hm Hst Hmsg Hrun Hal Hc] Hn.
  assert (Hin : forall m, m ∈ n1 ++ n2 -> m ∈ g_net s) by (intros m; rewrite Hn; set_solver).
  split; try done; cbn.
  - intros m Hm'. by apply Hmsg, Hin.
  - intros c Hcall. destruct (Hc c Hcall) as [Hw Ha]. split; [|done].
    apply (wait_ok_less s); [done|done|done|]. intros m [?|?]; [left; by apply Hin|by right].
Qed.

(** The invoke fails its test: the primary is told ERR. *)
Lemma view_inv_refuse s n1 msg n2 : view_inv s -> g_net s = n1 ++ msg :: n2 ->
  view_inv (RSys (g_primary s) (g_backups s) (n1 ++ n2) (g_running s) (g_next s)
    (after_invoke (g_call s) (im_id msg) rsm_client_protocol.ERR)).
Proof using.
  intros Hs Hn. pose proof (view_inv_drop _ _ _ _ Hs Hn) as [Hq Hm Hst Hmsg Hrun Hal Hc]. split; try done; cbn.
  intros cc Hcc. destruct (g_call s) as [c|] eqn:E; [|done]. destruct (Hc c eq_refl) as (Hw & asked & HT & Ha).
  destruct (wait_ok_answer _ (RSys (g_primary s) (g_backups s) (n1 ++ n2) (g_running s) (g_next s) (Some cc)) c
    (im_id msg) rsm_client_protocol.ERR cc Hw Hcc) as (Hw' & -> & -> & ->); try done.
  split; [done|]. by exists asked.
Qed.

(** The invoke passes its test: the backup is in step. *)
Lemma view_inv_check s n1 msg n2 rb : view_inv s -> g_net s = n1 ++ msg :: n2 ->
  g_backups s !! im_to msg = Some rb -> invoke_check rb acc (im_vs msg) = true ->
  (forall m e, (m, e) ∈ g_running s -> im_to m <> im_to msg) ->
  view_inv (RSys (g_primary s) (g_backups s) (n1 ++ n2) ((msg, false) :: g_running s) (g_next s) (g_call s)).
Proof using.
  intros Hs Hn Hb Hck Hser. assert (Hmsg : msg ∈ g_net s) by (rewrite Hn; set_solver).
  assert (Hin : forall m, m ∈ n1 ++ n2 -> m ∈ g_net s) by (intros m; rewrite Hn; set_solver).
  destruct (v_msg _ Hs _ Hmsg) as (Hid & _ & Hle & Hearl).
  assert (Hvs : im_vs msg = r_myvs rb).
  { unfold invoke_check in Hck. apply andb_true_iff in Hck as [_ E]. rewrite <- negb_andb, negb_involutive in E.
    apply andb_true_iff in E as [Hv%Z.eqb_eq Hsq%Z.eqb_eq]. destruct (im_vs msg), (r_myvs rb); cbn in *; congruence. }
  assert (Hst : in_step procs junk (g_primary s) rb).
  { destruct (v_state _ Hs _ _ Hb) as [?|[(? & ? & (rb0 & Hb0 & Hvs0 & _) & _)|(m & Hm & Hto)]]; [done| |].
    - pose proof (vs_next_seq s Hs) as Hq. assert (rb0 = rb) as -> by congruence. rewrite <- Hvs0, <- Hvs in Hq. lia.
    - by destruct (Hser m true Hm). }
  destruct Hst as [Hsv Hsc]. destruct Hs as [Hq Hm Hst Hmsgs Hrun Hal Hc]. split; cbn; try done.
  - intros b0 rb0 Hb0. destruct (Hst _ _ Hb0) as [?|[?|(m & ? & ?)]]; [by left|by right; left|right; right].
    exists m. split; [by constructor|done].
  - intros m Hm'. by apply Hmsgs, Hin.
  - intros m e [[= -> ->]|Hm']%elem_of_cons; [|by apply Hrun]. split; [done|]. split; [by exists rb|].
    apply Hearl. congruence.
  - constructor; [|done]. intros ([m e] & Heq & Hm')%list_elem_of_fmap. by apply (Hser m e).
  - intros c Hcall. destruct (Hc c Hcall) as [Hw Ha]. split; [|done].
    apply (wait_ok_less s); [done|done|done|]. intros m [?|[e [[= -> _]|?]%elem_of_cons]]; [left; by apply Hin|by left|right; by exists e].
Qed.

(** Replicas other than [b], whose viewstamp is the primary's, are ahead as before. *)
Lemma ahead_insert s b rb rb' net run c b' proc req : view_inv s -> g_backups s !! b = Some rb ->
  r_myvs rb = r_myvs (g_primary s) -> ahead s b' proc req ->
  ahead (RSys (g_primary s) (<[b := rb']> (g_backups s)) net run (g_next s) c) b' proc req.
Proof using.
  intros Hs Hb Hvs Ha. destruct (decide (b' = b)) as [->|Hne]; [by destruct (not_ahead s b rb proc req Hs Hb Hvs)|].
  destruct Ha as (rb0 & Hb0 & ?). exists rb0. split; [|done]. cbn. by rewrite lookup_insert_ne.
Qed.

Lemma alone_ne (k1 k2 : list (invoke_msg * bool)) msg (e : bool) :
  NoDup ((fun x => im_to (fst x)) <$> k1 ++ (msg, e) :: k2) -> forall m e', (m, e') ∈ k1 ++ k2 -> im_to m <> im_to msg.
Proof using.
  rewrite fmap_app, fmap_cons, NoDup_app, NoDup_cons. cbn. intros (_ & H1 & H2 & _) m e' [Hm|Hm]%elem_of_app E.
  - apply (H1 (im_to m)); [by apply list_elem_of_fmap; exists (m, e')|]. rewrite E. left.
  - apply H2. rewrite <- E. by apply list_elem_of_fmap; exists (m, e').
Qed.

(** The invoke executes. *)
Lemma view_inv_run s k1 msg k2 rb prim rb' : view_inv s -> g_running s = k1 ++ (msg, false) :: k2 ->
  g_backups s !! im_to msg = Some rb -> invoke_run procs junk rb prim (im_proc msg) (im_req msg) = Some rb' ->
  view_inv (RSys (g_primary s) (<[im_to msg := rb']> (g_backups s)) (g_net s) (k1 ++ (msg, true) :: k2) (g_next s) (g_call s)).
Proof using.
  intros Hs Hk Hb Hr. assert (Hin : (msg, false) ∈ g_running s) by (rewrite Hk; set_solver).
  destruct (v_run _ Hs _ _ Hin) as (Hid & (rb0 & Hb0 & Hvs & Hcore) & Hearl). assert (rb0 = rb) as -> by congruence.
  unfold invoke_run in Hr. destruct (execute procs junk prim (r_state rb) _ _) as [[st out]|] eqn:He; [|done].
  cbn in Hr. injection Hr as <-. apply (execute_core_Some prim) in He. rewrite Hcore in He.
  set (s' := RSys _ _ _ _ _ _). assert (Hg : forall b proc req, ahead s b proc req -> ahead s' b proc req).
  { intros b proc req. by apply (ahead_insert s _ rb). }
  assert (Hother : forall m e, (m, e) ∈ k1 ++ k2 -> im_to m <> im_to msg).
  { apply (alone_ne k1 k2 msg false). rewrite <- Hk. apply (v_alone _ Hs). }
  assert (Hsub : forall m e, (m, e) ∈ k1 ++ (msg, true) :: k2 -> (m, e) = (msg, true) \/ ((m, e) ∈ k1 ++ k2 /\ (m, e) ∈ g_running s)).
  { intros m e. rewrite Hk, !elem_of_app, !elem_of_cons. set_solver. }
  split.
  - apply (v_seq _ Hs).
  - intros b. cbn. rewrite lookup_insert. case_decide as E; [intros _; subst|apply (v_members _ Hs)].
    apply (v_members _ Hs). by exists rb.
  - intros b rb1. cbn. rewrite lookup_insert. case_decide as E.
    + intros [= <-]. right. right. exists msg. split; [set_solver|done].
    + intros Hb1. destruct (v_state _ Hs _ _ Hb1) as [?|[(p & q & ? & ?)|(m & Hm & Hto)]]; [by left|right; left|right; right].
      * exists p, q. by auto.
      * exists m. split; [|done]. rewrite Hk in Hm. set_solver.
  - intros m Hm. destruct (v_msg _ Hs _ Hm) as (? & ? & ? & ?). split_and!; try done. auto.
  - intros m e Hm. destruct (Hsub m e Hm) as [[= -> ->]|[Hm1 Hm2]].
    + split; [done|]. split; [|by auto]. eexists. cbn. rewrite lookup_insert_eq. split; [done|]. split; [done|]. by exists out.
    + destruct (v_run _ Hs _ _ Hm2) as (? & (rb1 & Hb1 & ?) & ?). split; [done|]. split; [|by auto].
      exists rb1. split; [|done]. cbn. rewrite lookup_insert_ne; [done|]. intros E. by apply (Hother m e).
  - cbn. pose proof (v_alone _ Hs) as Hal. rewrite Hk, !fmap_app, !fmap_cons in Hal. by rewrite fmap_app, fmap_cons.
  - intros c Hcall. destruct (v_call _ Hs c Hcall) as (Hw & asked & HT & Ha). split; [|exists asked; by auto].
    apply (wait_ok_less s); [done|done|done|]. intros m [?|[e Hm]]; [by left|right].
    destruct (Hsub m e Hm) as [[= -> _]|[_ ?]]; by eexists.
Qed.

(** The invoke ends: the backup is ahead by this request. *)
Lemma view_inv_end s k1 msg k2 rb : view_inv s -> g_running s = k1 ++ (msg, true) :: k2 ->
  g_backups s !! im_to msg = Some rb ->
  view_inv (RSys (g_primary s) (<[im_to msg := invoke_end rb]> (g_backups s)) (g_net s) (k1 ++ k2)
    (g_next s) (after_invoke (g_call s) (im_id msg) rsm_protocol.OK)).
Proof using.
  intros Hs Hk Hb. assert (Hin : (msg, true) ∈ g_running s) by (rewrite Hk; set_solver).
  destruct (v_run _ Hs _ _ Hin) as (Hid & (rb0 & Hb0 & Hvs & out & Hex) & Hearl). assert (rb0 = rb) as -> by congruence.
  set (s' := RSys _ _ _ _ _ _). assert (Hg : forall b proc req, ahead s b proc req -> ahead s' b proc req).
  { intros b proc req. by apply (ahead_insert s _ rb). }
  assert (Hnow : ahead s' (im_to msg) (im_proc msg) (im_req msg)).
  { eexists. cbn. rewrite lookup_insert_eq. split; [done|]. cbn. rewrite Hvs. split; [done|]. by exists out. }
  assert (Hother : forall m e, (m, e) ∈ k1 ++ k2 -> im_to m <> im_to msg).
  { apply (alone_ne k1 k2 msg true). rewrite <- Hk. apply (v_alone _ Hs). }
  assert (Hsub : forall m e, (m, e) ∈ k1 ++ k2 -> (m, e) ∈ g_running s) by (intros m e; rewrite Hk; set_solver).
  split.
  - apply (v_seq _ Hs).
  - intros b. cbn. rewrite lookup_insert. case_decide as E; [intros _; subst|apply (v_members _ Hs)].
    apply (v_members _ Hs). by exists rb.
  - intros b rb1. cbn. rewrite lookup_insert. case_decide as E.
    + intros [= <-]. subst b. right. left. eexists _, _. split; [exact Hnow|]. by auto.
    + intros Hb1. destruct (v_state _ Hs _ _ Hb1) as [?|[(p & q & ? & ?)|(m & Hm & Hto)]]; [by left|right; left|right; right].
      * exists p, q. by auto.
      * exists m. split; [|done]. rewrite Hk in Hm. set_solver.
  - intros m Hm. destruct (v_msg _ Hs _ Hm) as (? & ? & ? & ?). split_and!; try done. auto.
  - intros m e Hm. destruct (v_run _ Hs _ _ (Hsub _ _ Hm)) as (? & (rb1 & Hb1 & ?) & ?). split; [done|]. split; [|by auto].
    exists rb1. split; [|done]. cbn. rewrite lookup_insert_ne; [done|]. intros E. by apply (Hother m e).
  - cbn. pose proof (v_alone _ Hs) as Hal. rewrite Hk, !fmap_app, !fmap_cons in Hal. rewrite fmap_app.
    apply NoDup_app in Hal as (? & Hd & [_ ?]%NoDup_cons). apply NoDup_app. split; [done|]. split; [|done]. set_solver.
  - intros cc Hcc. cbn in Hcc. pose proof (v_call _ Hs) as Hc. destruct (g_call s) as [c|] eqn:E; [|done].
    destruct (Hc c eq_refl) as (Hw & asked & HT & Ha).
    destruct (wait_ok_answer s s' c (im_id msg) rsm_protocol.OK cc Hw Hcc) as (Hw' & -> & -> & ->); [done|done| | |].
    + intros m [?|[e ?]]; [by left|right; exists e; by auto].
    + intros _. exists msg. split; [right; by exists true|]. by split.
    + split; [done|]. exists asked. by auto.
Qed.

Lemma view_inv_finish s proc req prim p' rep : view_inv s ->
  g_call s = Some (ClientCall proc req [] None) ->
  client_invoke_execute procs junk (g_primary s) prim proc req = Some (p', rep) ->
  seqno (r_myvs (g_primary s)) < 2 ^ 32 - 2 ->
  let s' := RSys p' (g_backups s) (g_net s) (g_running s) (g_next s) None in
  view_inv s' /\ (forall b rb, g_backups s' !! b = Some rb -> in_step procs junk p' rb) /\
  exec_core (core (r_state (g_primary s))) proc req = Some (core (r_state p'), rep).
Proof using.
  intros Hs Hcall Hex Hlt s'. pose proof (vs_next_seq s Hs) as Hseq.
  unfold client_invoke_execute in Hex.
  destruct (execute procs junk prim (r_state (g_primary s)) proc req) as [[st out]|] eqn:He; [|done].
  cbn in Hex. injection Hex as <- <-. apply (execute_core_Some prim) in He.
  destruct (v_call _ Hs _ Hcall) as (_ & asked & HT & Hasked). cbn in HT, Hasked. rewrite app_nil_r in HT.
  assert (Hahead : forall b, is_Some (g_backups s !! b) -> ahead s b proc req).
  { intros b Hb. apply Hasked. rewrite <- HT. by apply (v_members _ Hs). }
  assert (Hnone : g_running s = []).
  { destruct (g_running s) as [|[m e] l] eqn:E; [done|].
    destruct (v_run _ Hs m e) as (_ & (rb & Hb & Hvs & _) & _); [rewrite E; left|].
    destruct (not_ahead s _ rb proc req Hs Hb Hvs). apply Hahead. by exists rb. }
  destruct Hs as [Hq Hm Hst Hmsg Hrun Hal Hc].
  assert (Hall : forall b rb, g_backups s' !! b = Some rb -> in_step procs junk (g_primary s') rb).
  { intros b rb Hb. destruct (Hahead b) as (rb' & Hb' & Hvs & out' & Hex'); [by exists rb|].
    cbn in Hb. assert (rb' = rb) as -> by congruence. split; [done|]. cbn. congruence. }
  split; [|split; [exact Hall|done]]. split; cbn; try done.
  - rewrite wrap_small by lia. lia.
  - intros b rb Hb. left. by apply (Hall b).
  - intros m Hin. destruct (Hmsg m Hin) as (? & ? & ? & _). rewrite wrap_small by lia. split_and!; [done..|lia|].
    intros E. apply (f_equal seqno) in E. cbn in E. rewrite wrap_small in E by lia. lia.
  - rewrite Hnone. by intros m e ?%elem_of_nil.
Qed.

Lemma view_inv_step s l s' : view_inv s -> rstep procs junk acc true true s l s' -> view_inv s'.
Proof using.
  intros Hs Hstep. destruct Hstep as [proc req mems Hc Hck|proc req b todo Hb Hc|proc req b todo Hc
    |n1 msg n2 rb Hn Hb Hck|n1 msg n2 rb Hn Hb Hck Hser|k1 msg k2 rb prim rb' Hk Hb Hr|k1 msg k2 rb Hk Hb
    |proc req b todo id Hc|c w Hc Hw|n1 msg n2 Hn|proc req prim p' rep Hc He Hlt].
  - apply view_inv_call; [done|]. intros cc [= <-]. split; [done|]. exists []. split; [|by intros ? ?%elem_of_nil].
    unfold client_invoke_check in Hck. repeat case_match; try done. injection Hck as <-. done.
  - done.
  - by apply view_inv_send.
  - by eapply view_inv_refuse.
  - eapply view_inv_check; eauto.
  - by eapply view_inv_run.
  - by eapply view_inv_end.
  - apply view_inv_call; [done|]. intros cc [= <-]. split; [done|].
    destruct (v_call _ Hs _ Hc) as (Hw & asked & HT & Ha). cbn in *.
    destruct Hw as (_ & b' & todo' & [= <- <-] & _ & Hok). exists (asked ++ [b]).
    rewrite <- app_assoc. split; [done|]. intros c [?|[-> |?%elem_of_nil]%elem_of_cons]%elem_of_app; [by auto|by auto|done].
  - by apply view_inv_call.
  - by eapply view_inv_drop.
  - by eapply (view_inv_finish s).
Qed.

Lemma view_inv_reachable s : view_reachable procs junk acc true true s -> view_inv s.
Proof using.
  induction 1 as [s [Hq Hb Hm Hn Hr Hc]|s l s' _ IH Hst]; [|by eapply view_inv_step].
  split; [done|done| | | | |].
  - intros b rb Hl. left. by eapply Hb.
  - rewrite Hn. by intros m ?%elem_of_nil.
  - rewrite Hr. by intros m e ?%elem_of_nil.
  - rewrite Hr. constructor.
  - by rewrite Hc.
Qed.

(** C6. Replicas stay in step within a view, when every backup can be bound and invokes do
    not overlap at a backup (RsmRecovery.unbound_backup_is_left_behind and
    RsmRecovery.overlapping_invokes_diverge show what happens otherwise): in every
    interleaving of client requests, lost, late and timed out invoke RPCs, each backup has
    the primary's replicated state, or has executed exactly one request more, and then its
    viewstamp is the next one, or will be when the invoke that runs there ends; and backups
    with the same viewstamp at which no invoke is running have the same state. *)
Theorem replicas_in_step s : view_reachable procs junk acc true true s ->
  (forall b rb, g_backups s !! b = Some rb ->
     in_step procs junk (g_primary s) rb \/
     exists proc req out, exec_core (core (r_state (g_primary s))) proc req = Some (core (r_state rb), out) /\
       (r_myvs rb = vs_next (r_myvs (g_primary s)) \/
        r_myvs rb = r_myvs (g_primary s) /\ exists m, (m, true) ∈ g_running s /\ im_to m = b /\ im_proc m = proc /\ im_req m = req)) /\
  (forall b1 b2 rb1 rb2, g_backups s !! b1 = Some rb1 -> g_backups s !! b2 = Some rb2 ->
     r_myvs rb1 = r_myvs rb2 -> (forall m, (m, true) ∈ g_running s -> im_to m <> b1 /\ im_to m <> b2) ->
     core (r_state rb1) = core (r_state rb2)).
Proof using.
  intros Hs%view_inv_reachable. split.
  - intros b rb Hb. destruct (v_state _ Hs _ _ Hb) as [?|[(proc & req & (rb' & Hb' & Hvs & out & He) & _)|(m & Hm & <-)]]; [by left|right..].
    + assert (rb' = rb) as -> by congruence. exists proc, req, out. by auto.
    + destruct (v_run _ Hs _ _ Hm) as (_ & (rb' & Hb' & Hvs & out & He) & _). assert (rb' = rb) as -> by congruence.
      eexists _, _, out. split; [exact He|]. right. split; [done|]. by exists m.
  - assert (Hne : r_myvs (g_primary s) <> vs_next (r_myvs (g_primary s))).
    { intros E%(f_equal seqno). rewrite (vs_next_seq s Hs) in E. lia. }
    assert (Hpair : forall b1 b2 rb1 rb2 proc req, g_backups s !! b1 = Some rb1 -> g_backups s !! b2 = Some rb2 ->
      ahead s b1 proc req -> ahead s b2 proc req -> core (r_state rb1) = core (r_state rb2)).
    { intros b1 b2 rb1 rb2 proc req H1 H2 (x1 & Hx1 & _ & o1 & He1) (x2 & Hx2 & _ & o2 & He2). congruence. }
    intros b1 b2 rb1 rb2 H1 H2 Heq Hidle.
    destruct (v_state _ Hs _ _ H1) as [[Hv1 Hc1]|[(p1 & q1 & Ha1 & He1)|(m & Hm & E)]]; [| |by destruct (Hidle m Hm)];
      (destruct (v_state _ Hs _ _ H2) as [[Hv2 Hc2]|[(p2 & q2 & Ha2 & He2)|(m & Hm & E)]]; [| |by destruct (Hidle m Hm)]).
    + congruence.
    + destruct Ha2 as (x & Hx & Hv & _). congruence.
    + destruct Ha1 as (x & Hx & Hv & _). congruence.
    + destruct (earlier_total (targets s) b1 b2) as [->|[Hin|Hin]]; [apply (v_members _ Hs); by eexists..|congruence| |].
      * by eapply (Hpair b1 b2 rb1 rb2 p2 q2); eauto.
      * by eapply (Hpair b1 b2 rb1 rb2 p1 q1); eauto.
Qed.

(** C22. An acknowledged request is everywhere, when every backup can be bound and invokes do
    not overlap at a backup: the step in which a client is answered OK leaves all replicas of
    the view at the same viewstamp with the same replicated state, and state and reply are
    those of executing that request once more on the common state. *)
Theorem acknowledged_everywhere s proc req rep s' : view_reachable procs junk acc true true s ->
  rstep procs junk acc true true s (Some (proc, req, rep)) s' ->
  (forall b rb, g_backups s' !! b = Some rb -> in_step procs junk (g_primary s') rb) /\
  exec_core (core (r_state (g_primary s))) proc req = Some (core (r_state (g_primary s')), rep) /\
  r_myvs (g_primary s') = vs_next (r_myvs (g_primary s)).
Proof using.
  intros Hs%view_inv_reachable Hstep. inversion Hstep as [| | | | | | | | | |? ? prim p' ? Hc He Hlt]; subst.
  destruct (view_inv_finish s _ _ _ _ _ Hs Hc He Hlt) as (_ & Hall & Hex).
  split; [exact Hall|]. split; [exact Hex|]. unfold client_invoke_execute in He.
  destruct (execute _ _ _ _ _ _) as [[? ?]|]; [|done]. by injection He as <- _.
Qed.
End Safety.
