(* ===== verification/RsmService.v ===== *)
(** * Services on the replicated state machine and their clients

    The lock server as a service (the registrations of src/mit_6.824/lock_smain.cc):
    its table is the replicated part of its state, the queues of its threads are not.
    The client side, rsm_client.cc and rsm_client.h: the call template, the list of
    known members and the search for a primary.  Runs of one view with the lock
    service. *)

From Stdlib Require Import ZArith Lia Ascii String.
From stdpp Require Import base list strings gmap sets relations.
From S2P Require Import Prelude Marshall Protocols Rpc PaxosAcceptor Paxos Config Rsm RsmSafety Locks LockState.

Local Open Scope Z_scope.
Local Open Scope cpp_scope.

(** ** The lock service *)

(** Values the methods leave uninitialised: the [int &] result of [acquire] and the
    member [nacquire]. *)
Section LockService.
Context (uninit : Z).

Definition acquire_meth (prim : bool) (s : lock_server) (a : c_ull * string * c_ull)
    : option (lock_server * c_int * Z) :=
  let '(lid, id, xid) := a in
  '(s, ret) ← server_acquire prim s (ull_val lid) id (ull_val xid); Some (s, CInt uninit, ret).

Definition release_meth (prim : bool) (s : lock_server) (a : c_ull * string * c_ull)
    : option (lock_server * c_int * Z) :=
  let '(lid, id, _) := a in
  let '(s, ret, r) := server_release s (ull_val lid) id in Some (s, CInt r, ret).

Definition stat_meth (prim : bool) (s : lock_server) (lid : c_ull) : option (lock_server * c_int * Z) :=
  Some (s, CInt uninit, lock_protocol.OK).

(** acquire = 0x7001, release, stat *)
Definition lock_procs : gmap Z (rsm_handler lock_server) :=
  <[28673 := rsm_h1 acquire_meth]> (<[28674 := rsm_h1 release_meth]> {[28675 := rsm_h1 stat_meth]}).

(** *** It is a replicated service *)

Definition table_only (s : lock_server) : lock_server := LockServer (ls_clients s) [] [].

Definition same_core {R : Type} (x y : option (lock_server * R)) : Prop :=
  (fun '(s, r) => (ls_clients s, r)) <$> x = (fun '(s, r) => (ls_clients s, r)) <$> y.

Lemma server_acquire_core prim s lid id xid :
  same_core (server_acquire prim s lid id xid) (server_acquire false (table_only s) lid id xid).
Proof using.
  unfold same_core, server_acquire, table_only. cbn.
  destruct (ls_clients s !! lid) as [ci|]; [|done].
  repeat (case_match; cbn; try done); unfold ls_enq_revoke; repeat case_match; done.
Qed.

Definition core_handler (h : rsm_handler lock_server) : Prop := forall prim s args m,
  same_core ('(s, rep, ret) ← h prim s args m; Some (s, (rep, ret)))
            ('(s, rep, ret) ← h false (table_only s) args m; Some (s, (rep, ret))).

Lemma rsm_h1_core {A R} `{Wire A, Wire R} (meth : bool -> lock_server -> A -> option (lock_server * R * Z)) :
  (forall prim s a, same_core ('(s, r, ret) ← meth prim s a; Some (s, (r, ret)))
                     ('(s, r, ret) ← meth false (table_only s) a; Some (s, (r, ret)))) ->
  core_handler (rsm_h1 meth).
Proof using.
  intros Hm prim s args m. unfold rsm_h1. destruct (wget args) as [[args' a]|]; [|done]. cbn.
  unfold VERIFY. destruct (okdone args'); [|done]. specialize (Hm prim s a). unfold same_core in *.
  destruct (meth prim s a) as [[[s1 r1] b1]|], (meth false (table_only s) a) as [[[s2 r2] b2]|]; cbn in *; try done.
  injection Hm as Hs -> ->. destruct (wput m r2); cbn; congruence.
Qed.

Lemma lock_procs_core proc h : lock_procs !! proc = Some h -> core_handler h.
Proof using.
  unfold lock_procs. rewrite lookup_insert, lookup_insert, lookup_singleton.
  repeat case_decide; try done; intros [= <-]; apply rsm_h1_core.
  - intros prim s [[lid id] xid]. unfold acquire_meth. pose proof (server_acquire_core prim s (ull_val lid) id (ull_val xid)) as Hc.
    unfold same_core in *. destruct (server_acquire prim _ _ _ _) as [[s1 r1]|],
      (server_acquire false _ _ _ _) as [[s2 r2]|]; cbn in *; congruence.
  - intros prim s [[lid id] xid]. unfold release_meth, server_release, table_only, same_core. cbn.
    destruct (ls_clients s !! ull_val lid) as [ci|]; [|done]. by destruct (String.eqb _ _).
  - done.
Qed.

#[export, refine] Instance lock_replicated (junk : ascii) :
    @Replicated lock_server (gmap Z client_info) lock_procs junk :=
  { core := ls_clients;
    exec_core c proc req :=
      (fun '(s, r) => (ls_clients s, r)) <$> execute lock_procs junk false (LockServer c [] []) proc req }.
Proof using.
  intros prim st proc req. unfold execute. destruct (lock_procs !! proc) as [h|] eqn:Hh; [|done]. cbn.
  destruct (take_content junk req) as [args|]; [|done]. cbn.
  pose proof (lock_procs_core proc h Hh prim st args (marshall_new junk)) as Hc.
  unfold same_core, table_only in Hc.
  destruct (h prim st args (marshall_new junk)) as [[[s1 rep1] ret1]|],
    (h false (LockServer (ls_clients st) [] []) args (marshall_new junk)) as [[[s2 rep2] ret2]|]; cbn in *; try done.
  injection Hc as Hs -> ->.
  destruct (put_int _ _) as [m|]; cbn; [|done]. destruct (m_str rep2) as [reps|]; cbn; [|done].
  destruct (put_string m reps) as [m'|]; cbn; [|done]. destruct (m_str m') as [r|]; cbn; congruence.
Defined.
End LockService.

(** ** The client: rsm_client.h *)

(** [rsm_client::call_m] on what [rsm_client::invoke] returned. *)
Definition rsm_call_m {R : Type} `{Wire R} (junk : ascii) (intret : Z) (rep : string) : option (Z * option R) :=
  VERIFY! (intret =? rsm_client_protocol.OK) ;;
  u ← take_content junk rep;
  '(u, intret) ← get_int u;
  if intret <? 0 then Some (intret, None)
  else
    '(u, res) ← get_string u "";
    VERIFY! okdone u ;;
    u1 ← take_content junk res;
    '(u1, r) ← wget u1;
    VERIFY! okdone u1 ;;
    Some (intret, Some r).

(** The request string that the [call] templates make. *)
Definition rsm_request {A : Type} `{Wire A} (junk : ascii) (a : A) : option string :=
  m ← wput (marshall_new junk) a; m_str m.

(** A call through the replicated state machine returns what the method
    computes: the request string a client marshals makes [execute] run the registered
    method on exactly those arguments, and the client's [call_m] gets the method's
    status and result out of the reply string. *)
Theorem rsm_call_correct {S A R : Type} `{WireSpec A, WireSpec R} (procs : gmap Z (rsm_handler S))
    jc js jc' prim (st st' : S) proc (a : A) (meth : bool -> S -> A -> option (S * R * Z)) (r : R) ret :
  procs !! proc = Some (rsm_h1 meth) -> meth prim st a = Some (st', r, ret) -> 0 <= ret < 2 ^ 31 ->
  wwf a -> RPC_HEADER_SZ + Z.of_nat (length (wenc a)) <= MAX_CONTENT ->
  wwf r -> RPC_HEADER_SZ + 8 + Z.of_nat (length (wenc r)) <= MAX_CONTENT ->
  exists req rep, rsm_request jc a = Some req /\ execute procs js prim st proc req = Some (st', rep) /\
    rsm_call_m jc' rsm_client_protocol.OK rep = Some (ret, Some r).
Proof.
  intros Hproc Hmeth Hret Ha Hasz Hr Hrsz.
  destruct (string_wire (fun m => wput m a) wget jc js _ a (wput_spec a Ha) (wget_spec a Ha) Hasz)
    as (m & u & u' & Hm & Hms & Hu & Hg & Hd).
  destruct (string_wire (fun m => wput m r) wget js jc' _ r (wput_spec r Hr) (wget_spec r Hr) ltac:(lia))
    as (mr & ur & ur' & Hmr & Hmrs & Hur & Hgr & Hdr).
  set (reps := str_of (wenc r)) in *.
  assert (Hlen : Z.of_nat (length (wenc r)) = str_size reps).
  { unfold reps. by rewrite <- length_bytes_of, bytes_of_str_of. }
  unfold MAX_CONTENT in *. change RPC_HEADER_SZ with 24 in *.
  destruct (string_wire (fun m => m ← put_int m ret; put_string m reps)
    (fun u => '(u, i) ← get_int u; '(u, s) ← get_string u ""; Some (u, (i, s))) js jc'
    (enc_u32 ret ++ enc_string reps) (ret, reps)) as (m1 & u1 & u1' & Hm1 & Hm1s & Hu1 & Hg1 & Hd1).
  { apply put_ok_bind; [apply put_int_ok|apply put_string_ok; lia]. }
  { eapply (get_ok_bind _ (fun _ _ => _)); [apply get_int_ok; unfold in_i32; lia|cbv beta].
    apply (get_ok_map _ (pair ret)), get_string_ok. lia. }
  { unfold enc_string. rewrite !length_app. change (length (enc_u32 _)) with 4%nat.
    change (length (enc_u32 _)) with 4%nat. unfold MAX_CONTENT. change RPC_HEADER_SZ with 24.
    pose proof (length_bytes_of reps). lia. }
  eexists _, _. split; [unfold rsm_request; rewrite Hm; exact Hms|]. split.
  - unfold execute. destruct (procs !! proc) as [h|] eqn:Hh; [|congruence].
    assert (h = rsm_h1 meth) as -> by congruence. rewrite Hu. cbn [mbind option_bind].
    unfold rsm_h1. rewrite Hg. cbn [mbind option_bind]. rewrite Hd. unfold VERIFY.
    rewrite Hmeth. cbn [mbind option_bind]. rewrite Hmr. cbn [mbind option_bind].
    destruct (put_int (marshall_new js) ret) as [m0|]; [|done]. cbn [mbind option_bind] in *.
    rewrite Hmrs. cbn [mbind option_bind]. rewrite Hm1. cbn [mbind option_bind]. rewrite Hm1s. reflexivity.
  - unfold rsm_call_m, VERIFY. cbn [Z.eqb rsm_client_protocol.OK]. rewrite Hu1. cbn [mbind option_bind].
    destruct (get_int u1) as [[u2 i]|]; [|done]. cbn [mbind option_bind] in Hg1 |- *.
    destruct (get_string u2 "") as [[u3 s3]|]; [|done]. cbn [mbind option_bind] in Hg1 |- *. injection Hg1 as -> -> ->.
    rewrite (proj2 (Z.ltb_ge ret 0)) by lia. rewrite Hd1, Hur. cbn [mbind option_bind].
    rewrite Hgr. cbn [mbind option_bind]. by rewrite Hdr.
Qed.

Lemma rsm_call_correct_witness :
  let s := LockServer ∅ [] [] in
  exists req rep, rsm_request "000" (CUll 7, "a"%string, CUll 1) = Some req /\
    execute (lock_procs 0) "000" true s 28673 req = Some (LockServer {[7 := ClientInfo "a" 1 false ∅]} [] [], rep) /\
    rsm_call_m "000" rsm_client_protocol.OK rep = Some (0, Some (CInt 0)).
Proof.
  intros s. apply (rsm_call_correct (lock_procs 0) "000" "000" "000" true s _ 28673
    (CUll 7, "a"%string, CUll 1) (acquire_meth 0) (CInt 0) 0).
  - reflexivity.
  - reflexivity.
  - lia.
  - cbn. unfold in_u64, str_size. cbn. lia.
  - vm_compute. discriminate.
  - cbn. unfold in_i32. lia.
  - vm_compute. discriminate.
Defined.
