(* ===== verification/RsmRecovery.v ===== *)
(** * View changes, recovery and the client's search for the primary

    Theorems on the remaining parts of src/mit_6.824/rsm.cc ([set_primary], the state
    transfer of [recovery]) and on rsm_client.cc; runs of one view with the lock
    service that show the theorems apply, and what goes wrong when a backup cannot be
    bound or two invokes overlap. *)

From Stdlib Require Import ZArith Lia Ascii String.
From stdpp Require Import base list strings gmap sets relations.
From S2P Require Import Prelude Marshall Protocols Rpc PaxosAcceptor Paxos Config Rsm RsmSafety Locks LockState RsmService.

Local Open Scope Z_scope.
Local Open Scope cpp_scope.

(** ** rsm_client.cc *)

Record rsm_client := RsmClient { rc_primary : string; rc_known : list string }.

(** [init_members] on the answer of the primary; [None] for no handle.  The call
    fails on an empty list, which the code answers with VERIFY(0). *)
Definition init_members (c : rsm_client) (answer : option (Z * list string)) : option (rsm_client * bool) :=
  match answer with
  | None => Some (c, false)
  | Some (ret, new_view) =>
      if negb (ret =? rsm_protocol.OK) then Some (c, false)
      else
        match rev new_view with
        | [] => None
        | p :: _ => Some (RsmClient p (removelast new_view), true)
        end
  end.

(** [primary_failure]: the known members in order; [ask] is what each would answer. *)
Fixpoint primary_failure_loop (ask : string -> option (Z * list string)) (mems : list string) (c : rsm_client)
    : option rsm_client :=
  match mems with
  | [] => Some c
  | x :: mems =>
      if String.eqb x (rc_primary c) then primary_failure_loop ask mems c
      else
        '(c', ok) ← init_members (RsmClient x (rc_known c)) (ask x);
        if (ok : bool) then Some c' else primary_failure_loop ask mems c'
  end.
Definition primary_failure (ask : string -> option (Z * list string)) (c : rsm_client) : option rsm_client :=
  primary_failure_loop ask (rc_known c) c.

(** One turn of the loop of [rsm_client::invoke] on the answer of its call ([None]:
    no handle): the client, and the status and reply if it returns. *)
Definition rc_invoke_turn (c : rsm_client) (answer : option (Z * string)) (ask : string -> option (Z * list string))
    : option (rsm_client * option (Z * string)) :=
  match answer with
  | None => c' ← primary_failure ask c; Some (c', None)
  | Some (ret, rep) =>
      if ret =? rsm_client_protocol.OK then Some (c, Some (ret, rep))
      else if ret =? rsm_client_protocol.BUSY then Some (c, None)
      else if ret =? rsm_client_protocol.NOTPRIMARY then
        '(c', ok) ← init_members c (ask (rc_primary c));
        if (ok : bool) then Some (c', None) else c'' ← primary_failure ask c'; Some (c'', None)
      else c' ← primary_failure ask c; Some (c', None)
  end.

Lemma init_members_reply {S} c (r : rsm S) acc :
  init_members c (Some (rsm_protocol.OK, client_members r acc)) =
    Some (RsmClient (r_primary r) (get_view_wo acc (r_vid_commit r)), true).
Proof. unfold init_members, client_members. cbn. by rewrite rev_app_distr, removelast_last. Qed.

Section Failover.
Context {S : Type} (replicas : gmap string (rsm S * acceptor)).

(** What the replicas that are up answer to [members]. *)
Definition ask_members (m : string) : option (Z * list string) :=
  '(r, acc) ← replicas !! m; Some (rsm_protocol.OK, client_members r acc).

Lemma primary_failure_loop_finds mems c : (exists m, m ∈ mems /\ m <> rc_primary c /\ is_Some (replicas !! m)) ->
  (rc_primary c ∈ mems -> is_Some (replicas !! rc_primary c) -> False) ->
  exists m r acc, m ∈ mems /\ replicas !! m = Some (r, acc) /\
    primary_failure_loop ask_members mems c =
      Some (RsmClient (r_primary r) (get_view_wo acc (r_vid_commit r))).
Proof using.
  revert c. induction mems as [|x mems IH]; intros c (m & Hm & Hne & Hup) Hdown; [by apply elem_of_nil in Hm|].
  cbn [primary_failure_loop]. destruct (String.eqb_spec x (rc_primary c)) as [->|Hx].
  - destruct (IH c) as (m' & r & acc & Hin & ?).
    + apply elem_of_cons in Hm as [->|Hm]; [done|]. by exists m.
    + intros Hin. apply Hdown. by constructor.
    + exists m', r, acc. split; [by constructor|done].
  - assert (Hask : ask_members x = '(r, acc) ← replicas !! x; Some (rsm_protocol.OK, client_members r acc)) by done.
    rewrite Hask. clear Hask. destruct (replicas !! x) as [[r acc]|] eqn:Hr.
    + cbn [mbind option_bind]. rewrite init_members_reply. exists x, r, acc. split; [constructor|done].
    + cbn [mbind option_bind init_members]. destruct (IH (RsmClient x (rc_known c))) as (m' & r & acc & Hin & ?).
      * apply elem_of_cons in Hm as [->|Hm]; [by destruct Hup; congruence|]. exists m. cbn.
        split_and!; [done| |done]. intros ->. destruct Hup. congruence.
      * cbn. intros _ [? ?]. congruence.
      * exists m', r, acc. split; [by constructor|done].
Qed.

(** Failover of a client: when its primary does not answer any more but some
    member it knows of does, [primary_failure] ends with the primary and the view
    that one of the answering members has. *)
Theorem client_finds_primary c : ~ is_Some (replicas !! rc_primary c) ->
  (exists m, m ∈ rc_known c /\ is_Some (replicas !! m)) ->
  exists m r acc, m ∈ rc_known c /\ replicas !! m = Some (r, acc) /\
    primary_failure ask_members c = Some (RsmClient (r_primary r) (get_view_wo acc (r_vid_commit r))).
Proof using.
  intros Hdown (m & Hm & Hup). apply primary_failure_loop_finds; [|by intros _ ?].
  exists m. split_and!; [done| |done]. intros ->. by apply Hdown.
Qed.
End Failover.

(** ** The primary of a new view *)

Lemma first_in_Some p c m : m ∈ p -> isamember m c = true -> exists x, first_in p c = Some x /\ x ∈ p /\ isamember x c = true.
Proof.
  induction p as [|y p IH]; intros Hm Hc; [by apply elem_of_nil in Hm|]. cbn.
  destruct (isamember y c) eqn:Hy; [exists y; split_and!; [done|constructor|done]|].
  apply elem_of_cons in Hm as [->|Hm]; [congruence|]. destruct (IH Hm Hc) as (x & ? & ? & ?).
  exists x. split_and!; [done|by constructor|done].
Qed.

(** A committed view change elects: if consecutive views share a member, no
    VERIFY of [set_primary] fails when the new view is committed, the primary it
    leaves is a member of the new view, and it is the old primary whenever that one is
    still a member. *)
Theorem commit_change_elects {S} (r : rsm S) acc vid m : r_vid_commit r < vid ->
  m ∈ get_view_wo acc (wrap 32 (vid - 1)) -> isamember m (get_view_wo acc vid) = true ->
  exists r', commit_change_wo r acc vid = Some r' /\ r_vid_commit r' = vid /\ r_inviewchange r' = true /\
    isamember (r_primary r') (get_view_wo acc vid) = true /\
    (isamember (r_primary r) (get_view_wo acc vid) = true -> r_primary r' = r_primary r) /\
    (isamember (r_primary r) (get_view_wo acc vid) = false -> r_primary r' ∈ get_view_wo acc (wrap 32 (vid - 1))).
Proof.
  intros Hv Hm Hc. unfold commit_change_wo. rewrite (proj2 (Z.leb_gt _ _)) by lia. unfold set_primary, VERIFY.
  assert ((0 <? Z.of_nat (length (get_view_wo acc vid))) = true) as ->.
  { apply Z.ltb_lt. destruct (get_view_wo acc vid); [done|cbn; lia]. }
  assert ((0 <? Z.of_nat (length (get_view_wo acc (wrap 32 (vid - 1))))) = true) as ->.
  { apply Z.ltb_lt. destruct (get_view_wo acc (wrap 32 _)); [by apply elem_of_nil in Hm|cbn; lia]. }
  destruct (isamember (r_primary r) (get_view_wo acc vid)) eqn:Hp.
  - eexists. split; [done|]. by split_and!.
  - destruct (first_in_Some _ _ _ Hm Hc) as (x & -> & ? & ?). eexists. split; [done|]. by split_and!.
Qed.

(** ** State transfer *)

(** What a service promises that can be transferred: a replica whose replicated state
    is an earlier one ([st_le]) gets the sender's. *)
Class StateTransfer {S C : Type} (core : S -> C) (marshal : S -> option string)
    (unmarshal : S -> string -> option S) := {
  st_le : C -> C -> Prop;
  st_ok : S -> Prop;
  st_transfer s old : st_ok s -> st_le (core old) (core s) ->
    exists state s', marshal s = Some state /\ unmarshal old state = Some s' /\ core s' = core s }.

(** The lock server: locks are never forgotten, so an earlier table has no locks the
    later one does not have. *)
#[export, refine] Instance lock_state_transfers junk junk' :
    StateTransfer ls_clients (marshal_state junk) (unmarshal_state junk') :=
  { st_le c c' := dom c ⊆ dom c';
    st_ok s := lock_server_wf s /\ RPC_HEADER_SZ + Z.of_nat (length (enc_state s)) <= MAX_CONTENT }.
Proof.
  intros s old [Hwf Hsz] Hdom. destruct (marshalled_table junk junk' s old Hwf Hsz) as (state & Hm & Hu).
  exists state. eexists. split; [exact Hm|]. split; [exact Hu|]. cbn. apply map_eq. intros lid.
  destruct (ls_clients s !! lid) as [ci|] eqn:E; [by apply lookup_union_Some_l|].
  rewrite lookup_union_r by done. apply not_elem_of_dom. apply not_elem_of_dom in E. set_solver.
Defined.

Section Recovery.
Context {S C : Type} (procs : gmap Z (rsm_handler S)) (junk : ascii) `{!@Replicated S C procs junk}.
Context (marshal : S -> option string) (unmarshal : S -> string -> option S).
Context `{!StateTransfer core marshal unmarshal}.

(** Recovery brings a backup in step: when primary and backup synchronise for the
    same committed view, the backup's state is an earlier one and equal viewstamps
    mean equal states, the primary answers the backup's transferreq OK, the backup
    takes the answer over, and when both end their recovery they are at the first
    viewstamp of the view with the same replicated state, out of the view change. *)
Theorem recovery_in_step (p b : rsm S) v :
  r_vid_commit p = v -> r_vid_insync p = v -> r_vid_commit b = v -> r_vid_insync b = v -> r_insync p = true ->
  st_ok (r_state p) -> st_le (core (r_state b)) (core (r_state p)) ->
  (r_last_myvs b = r_last_myvs p -> core (r_state b) = core (r_state p)) ->
  exists t b', transferreq (Some marshal) p (r_last_myvs b) v = Some (rsm_protocol.OK, t) /\
    statetransfer (Some unmarshal) b (Some (rsm_protocol.OK, t)) = Some (b', true) /\
    let p1 := (recovery_end (sync_with_backups_end p).1 (sync_with_backups_end p).2).1 in
    let b1 := (recovery_end b' true).1 in
    in_step procs junk p1 b1 /\ r_myvs p1 = Viewstamp v 1 /\ r_last_myvs b1 = r_last_myvs p1 /\
    r_inviewchange p1 = false /\ r_inviewchange b1 = false.
Proof using.
  intros Hcp Hip Hcb Hib Hsync Hok Hle Heq. unfold transferreq. rewrite Hsync, Hip, Z.eqb_refl. cbn [negb orb].
  rewrite viewstamp_neq_spec. destruct (viewstamp_eqb (r_last_myvs b) (r_last_myvs p)) eqn:E; cbn [negb].
  - apply viewstamp_eqb_spec in E. eexists _, _. split; [done|]. cbn.
    rewrite viewstamp_neq_spec, E, (proj2 (viewstamp_eqb_spec _ _) eq_refl). cbn. split; [done|].
    unfold recovery_end. cbn. rewrite Hip, Hcp, Hib, Hcb, Z.eqb_refl. cbn. split; [|done]. split; [done|]. by apply Heq.
  - destruct (st_transfer (r_state p) (r_state b) Hok Hle) as (state & s' & Hm & Hu & Hc). rewrite Hm.
    eexists _, _. split; [done|]. cbn. rewrite viewstamp_neq_spec, E. cbn. rewrite Hu. cbn. split; [done|].
    unfold recovery_end. cbn. rewrite Hip, Hcp, Hib, Hcb, Z.eqb_refl. cbn. split; [|done]. by split.
Qed.
End Recovery.

(** ** A view of two replicas of the lock server *)

Definition two_view : acceptor := Acceptor "a" (Prop_t 0 "") (Prop_t 0 "") "" 1 {[1 := "a b "%string]} [].
Definition replica (me : string) (st : lock_server) (n : Z) : rsm lock_server :=
  Rsm me st (Viewstamp 1 n) (Viewstamp 1 (n - 1)) "a" false false 1 1 [].

Definition no_locks : lock_server := LockServer ∅ [] [].
Definition lock7 : lock_server := LockServer {[7 := ClientInfo "c" 1 false ∅]} [] [].
Definition acquire7 : string := default ""%string (rsm_request "000" (CUll 7, "c"%string, CUll 1)).

Definition started : rsys lock_server :=
  RSys (replica "a" no_locks 1) {["b" := replica "b" no_locks 1]} [] [] 0 None.
(** Client "c" asks for lock 7; "b" has executed the request and not yet answered. *)
Definition backup_ahead : rsys lock_server :=
  RSys (replica "a" no_locks 1) {["b" := replica "b" lock7 2]} [] [] 1
    (Some (ClientCall 28673 acquire7 ["b"] (Some (0%nat, Some rsm_protocol.OK)))).
Definition all_asked : rsys lock_server :=
  RSys (replica "a" no_locks 1) {["b" := replica "b" lock7 2]} [] [] 1 (Some (ClientCall 28673 acquire7 [] None)).

Lemma started_view : view_start (lock_procs 0) "000" two_view started.
Proof.
  split; [cbn; lia| | |done|done|done]; intros b.
  - intros rb. cbn. intros [<- <-]%lookup_singleton_Some. done.
  - cbn. intros [rb [<- _]%lookup_singleton_Some]. vm_compute. constructor.
Qed.

Lemma view_step {S C} {procs junk} `{!@Replicated S C procs junk} acc bound serial (s s' s'' : rsys S) l :
  view_reachable procs junk acc bound serial s -> rstep procs junk acc bound serial s l s' -> s' = s'' ->
  view_reachable procs junk acc bound serial s''.
Proof. intros ? ? <-. by eapply vr_step. Qed.

Definition msg7 : invoke_msg := InvokeMsg 0 "b" (Viewstamp 1 1) 28673 acquire7.

(** The primary has sent the request, and the backup has tested it. *)
Definition tested7 (c : option client_call) : rsys lock_server :=
  RSys (replica "a" no_locks 1) {["b" := replica "b" no_locks 1]} [] [(msg7, false)] 1 c.
Lemma tested7_reachable serial : view_reachable (lock_procs 0) "000" two_view true serial
  (tested7 (Some (ClientCall 28673 acquire7 ["b"] (Some (0%nat, None))))).
Proof.
  eapply view_step; [eapply view_step; [eapply view_step; [apply vr_start, started_view|..]|..]|..].
  - apply (rs_begin _ _ _ _ _ started 28673 acquire7 ["a"; "b"]%string); vm_compute; reflexivity.
  - reflexivity.
  - apply (rs_send _ _ _ _ _ _ 28673 acquire7 "b" []). vm_compute. reflexivity.
  - reflexivity.
  - apply (rs_check _ _ _ _ _ _ [] msg7 [] (replica "b" no_locks 1)); [vm_compute; reflexivity..|].
    intros _ m e Hm. by apply elem_of_nil in Hm.
  - vm_compute. reflexivity.
Qed.

Lemma backup_ahead_reachable : view_reachable (lock_procs 0) "000" two_view true true backup_ahead.
Proof.
  eapply view_step; [eapply view_step; [apply (tested7_reachable true)|..]|..].
  - apply (rs_run _ _ _ _ _ _ [] msg7 [] (replica "b" no_locks 1) false
      (Rsm "b" lock7 (Viewstamp 1 1) (Viewstamp 1 0) "a" false false 1 1 [])); vm_compute; reflexivity.
  - reflexivity.
  - apply (rs_end _ _ _ _ _ _ [] msg7 [] (Rsm "b" lock7 (Viewstamp 1 1) (Viewstamp 1 0) "a" false false 1 1 []));
      vm_compute; reflexivity.
  - vm_compute. reflexivity.
Qed.

Lemma all_asked_reachable : view_reachable (lock_procs 0) "000" two_view true true all_asked.
Proof.
  eapply view_step; [apply backup_ahead_reachable| |].
  - apply (rs_reply _ _ _ _ _ _ 28673 acquire7 "b" [] 0). reflexivity.
  - reflexivity.
Qed.

Definition acquire7_reply : string :=
  match execute (lock_procs 0) "000" true no_locks 28673 acquire7 with Some (_, r) => r | None => "" end.
Definition acknowledged : rsys lock_server :=
  RSys (replica "a" lock7 2) {["b" := replica "b" lock7 2]} [] [] 1 None.

Abbreviation core7 := (@core _ _ (lock_procs 0) "000"%char _).
Abbreviation exec7 := (@exec_core _ _ (lock_procs 0) "000"%char _).

Lemma replicas_in_step_witness :
  g_backups backup_ahead !! "b"%string = Some (replica "b" lock7 2) /\
  (in_step (lock_procs 0) "000" (g_primary backup_ahead) (replica "b" lock7 2) \/
   exists proc req out, exec7 (core7 (r_state (g_primary backup_ahead))) proc req =
        Some (core7 (r_state (replica "b" lock7 2)), out)).
Proof.
  split; [reflexivity|].
  destruct (proj1 (replicas_in_step (lock_procs 0) "000" two_view backup_ahead backup_ahead_reachable) "b"%string
    (replica "b" lock7 2) eq_refl) as [H|(proc & req & out & H & _)]; [left; exact H|right].
  exists proc, req, out. exact H.
Defined.

Lemma acknowledged_everywhere_witness :
  rstep (lock_procs 0) "000" two_view true true all_asked (Some (28673, acquire7, acquire7_reply)) acknowledged /\
  (forall b rb, g_backups acknowledged !! b = Some rb ->
     in_step (lock_procs 0) "000" (g_primary acknowledged) rb) /\
  exec7 (core7 (r_state (g_primary all_asked))) 28673 acquire7 =
    Some (core7 (r_state (g_primary acknowledged)), acquire7_reply) /\
  r_myvs (g_primary acknowledged) = vs_next (r_myvs (g_primary all_asked)).
Proof.
  assert (Hst : rstep (lock_procs 0) "000" two_view true true all_asked (Some (28673, acquire7, acquire7_reply)) acknowledged).
  { apply (rs_finish _ _ _ _ _ all_asked 28673 acquire7 true (replica "a" lock7 2) acquire7_reply).
    - reflexivity.
    - vm_compute. reflexivity.
    - reflexivity. }
  split; [exact Hst|].
  apply (acknowledged_everywhere (lock_procs 0) "000" two_view all_asked 28673 acquire7 acquire7_reply acknowledged
    all_asked_reachable Hst).
Defined.

Definition passed_over : rsys lock_server :=
  RSys (replica "a" no_locks 1) {["b" := replica "b" no_locks 1]} [] [] 0 (Some (ClientCall 28673 acquire7 [] None)).

(** A backup that cannot be bound is passed over: [client_invoke] answers the
    client OK although the backup has not executed the request, and leaves it behind
    the primary with another replicated state. *)
Theorem unbound_backup_is_left_behind : exists s s' rb,
  view_reachable (lock_procs 0) "000" two_view false true s /\
  rstep (lock_procs 0) "000" two_view false true s (Some (28673, acquire7, acquire7_reply)) s' /\
  g_backups s' !! "b"%string = Some rb /\
  r_myvs rb = Viewstamp 1 1 /\ r_myvs (g_primary s') = Viewstamp 1 2 /\
  core7 (r_state rb) <> core7 (r_state (g_primary s')).
Proof.
  exists passed_over, (RSys (replica "a" lock7 2) {["b" := replica "b" no_locks 1]} [] [] 0 None), (replica "b" no_locks 1).
  split; [|split; [|split; [reflexivity|split; [reflexivity|split; [reflexivity|]]]]].
  - eapply view_step; [eapply view_step; [apply vr_start, started_view|..]|..].
    + apply (rs_begin _ _ _ _ _ started 28673 acquire7 ["a"; "b"]%string); vm_compute; reflexivity.
    + reflexivity.
    + apply (rs_unbound _ _ _ _ _ _ 28673 acquire7 "b" []); [reflexivity|vm_compute; reflexivity].
    + reflexivity.
  - apply (rs_finish _ _ _ _ _ passed_over 28673 acquire7 true (replica "a" lock7 2) acquire7_reply).
    + reflexivity.
    + vm_compute. reflexivity.
    + reflexivity.
  - vm_compute. discriminate.
Qed.

(** *** Overlapping invokes *)

Definition acquire8 : string := default ""%string (rsm_request "000" (CUll 8, "d"%string, CUll 1)).
Definition msg8 : invoke_msg := InvokeMsg 1 "b" (Viewstamp 1 1) 28673 acquire8.
Definition lock8 : lock_server := LockServer {[8 := ClientInfo "d" 1 false ∅]} [] [].
Definition lock78 : lock_server := LockServer (<[8 := ClientInfo "d" 1 false ∅]> (ls_clients lock7)) [] [].
Definition acquire8_reply : string :=
  match execute (lock_procs 0) "000" true no_locks 28673 acquire8 with Some (_, r) => r | None => "" end.
(** "b", with a state of the service and viewstamp, and the call for lock 8. *)
Definition overlapping (st : lock_server) (n : Z) (running : list (invoke_msg * bool)) (c : option client_call) : rsys lock_server :=
  RSys (replica "a" no_locks 1)
    {["b" := Rsm "b" st (Viewstamp 1 n) (Viewstamp 1 (n - 1)) "a" false false 1 1 []]} [] running 2 c.

(** The primary gives up the first call and makes the second, with the same viewstamp, while
    "b" is still between the test and the execution of the first. *)
Lemma overlapping_reachable : view_reachable (lock_procs 0) "000" two_view true false
  (overlapping no_locks 1 [(msg8, false); (msg7, false)] (Some (ClientCall 28673 acquire8 ["b"] (Some (1%nat, None))))).
Proof.
  eapply view_step; [eapply view_step; [eapply view_step; [eapply view_step; [apply (tested7_reachable false)|..]|..]|..]|..].
  - apply (rs_give_up _ _ _ _ _ _ (ClientCall 28673 acquire7 ["b"] (Some (0%nat, None))) (0%nat, None)); reflexivity.
  - reflexivity.
  - apply (rs_begin _ _ _ _ _ (tested7 None) 28673 acquire8 ["a"; "b"]%string); vm_compute; reflexivity.
  - reflexivity.
  - apply (rs_send _ _ _ _ _ _ 28673 acquire8 "b" []). vm_compute. reflexivity.
  - reflexivity.
  - apply (rs_check _ _ _ _ _ _ [] msg8 [] (replica "b" no_locks 1)); [vm_compute; reflexivity..|done].
  - vm_compute. reflexivity.
Qed.

(** C39. Overlapping invokes break the replication, even when every backup is bound:
    [invoke] gives up [rsm_mutex] between its test of the viewstamp and the execution, and the
    primary gives up a call after a second.  A backup that is slow to execute a request that
    timed out passes the test for the next request with the same viewstamp too and executes
    both; the client of the second is answered OK although backup and primary now differ in
    their replicated state and their viewstamps. *)
Theorem overlapping_invokes_diverge : exists s s' rb,
  view_reachable (lock_procs 0) "000" two_view true false s /\
  rstep (lock_procs 0) "000" two_view true false s (Some (28673, acquire8, acquire8_reply)) s' /\
  g_backups s' !! "b"%string = Some rb /\ g_running s' = [] /\
  r_myvs rb = Viewstamp 1 3 /\ r_myvs (g_primary s') = Viewstamp 1 2 /\
  core7 (r_state rb) <> core7 (r_state (g_primary s')).
Proof.
  exists (overlapping lock78 3 [] (Some (ClientCall 28673 acquire8 [] None))),
    (RSys (replica "a" lock8 2) {["b" := replica "b" lock78 3]} [] [] 2 None), (replica "b" lock78 3).
  split; [|split; [|split; [reflexivity|split; [reflexivity|split; [reflexivity|split; [reflexivity|]]]]]].
  - eapply view_step; [eapply view_step; [eapply view_step; [eapply view_step; [eapply view_step; [apply overlapping_reachable|..]|..]|..]|..]|..].
    + apply (rs_run _ _ _ _ _ _ [(msg8, false)] msg7 [] (replica "b" no_locks 1) false
        (Rsm "b" lock7 (Viewstamp 1 1) (Viewstamp 1 0) "a" false false 1 1 [])); vm_compute; reflexivity.
    + reflexivity.
    + apply (rs_run _ _ _ _ _ _ [] msg8 [(msg7, true)] (Rsm "b" lock7 (Viewstamp 1 1) (Viewstamp 1 0) "a" false false 1 1 []) false
        (Rsm "b" lock78 (Viewstamp 1 1) (Viewstamp 1 0) "a" false false 1 1 [])); vm_compute; reflexivity.
    + reflexivity.
    + apply (rs_end _ _ _ _ _ _ [(msg8, true)] msg7 [] (Rsm "b" lock78 (Viewstamp 1 1) (Viewstamp 1 0) "a" false false 1 1 []));
        vm_compute; reflexivity.
    + reflexivity.
    + apply (rs_end _ _ _ _ _ _ [] msg8 [] (Rsm "b" lock78 (Viewstamp 1 2) (Viewstamp 1 1) "a" false false 1 1 []));
        vm_compute; reflexivity.
    + reflexivity.
    + apply (rs_reply _ _ _ _ _ _ 28673 acquire8 "b" [] 1). vm_compute. reflexivity.
    + vm_compute. reflexivity.
  - eapply (rs_finish _ _ _ _ _ (overlapping lock78 3 [] (Some (ClientCall 28673 acquire8 [] None))) 28673 acquire8 true (replica "a" lock8 2) acquire8_reply).
    + reflexivity.
    + vm_compute. reflexivity.
    + reflexivity.
  - vm_compute. discriminate.
Qed.

(** ** Witnesses for recovery, election and failover *)

Definition syncing (me : string) (st : lock_server) (last : viewstamp) (ins : bool) : rsm lock_server :=
  Rsm me st (Viewstamp 1 3) last "a" ins true 2 2 [].

Lemma recovery_in_step_witness : exists t b',
  transferreq (Some (marshal_state "000")) (syncing "a" lock7 (Viewstamp 1 2) true) (Viewstamp 0 0) 2 =
    Some (rsm_protocol.OK, t) /\
  statetransfer (Some (unmarshal_state "000")) (syncing "b" no_locks (Viewstamp 0 0) false)
    (Some (rsm_protocol.OK, t)) = Some (b', true) /\
  r_myvs (recovery_end b' true).1 = Viewstamp 2 1.
Proof.
  destruct (recovery_in_step (lock_procs 0) "000" (marshal_state "000") (unmarshal_state "000")
    (syncing "a" lock7 (Viewstamp 1 2) true) (syncing "b" no_locks (Viewstamp 0 0) false) 2
    eq_refl eq_refl eq_refl eq_refl eq_refl) as (t & b' & Ht & Hs & Hin & Hvs & _).
  - split; [|vm_compute; discriminate]. split; [vm_compute; reflexivity|]. apply map_Forall_singleton.
    unfold in_u64, client_info_wf, short, in_u64. cbn.
    split; [lia|]. split; [vm_compute; reflexivity|]. split; [lia|]. split; [vm_compute; reflexivity|]. set_solver.
  - cbn. set_solver.
  - intros [=].
  - exists t, b'. split; [exact Ht|]. split; [exact Hs|]. destruct Hin as [-> _]. exact Hvs.
Defined.

Definition shrinking_view : acceptor :=
  Acceptor "b" (Prop_t 0 "") (Prop_t 0 "") "" 2 (<[2 := "b "%string]> {[1 := "a b "%string]}) [].

Lemma commit_change_elects_witness : exists r',
  commit_change_wo (replica "b" no_locks 1) shrinking_view 2 = Some r' /\
    isamember (r_primary r') (get_view_wo shrinking_view 2) = true.
Proof.
  destruct (commit_change_elects (replica "b" no_locks 1) shrinking_view 2 "b") as (r' & Hr & _ & _ & Hm & _).
  - reflexivity.
  - vm_compute. do 2 constructor.
  - vm_compute. reflexivity.
  - exists r'. split; [exact Hr|exact Hm].
Defined.

Lemma client_finds_primary_witness :
  primary_failure (ask_members {["b" := (replica "b" no_locks 1, shrinking_view)]})
    (RsmClient "a" ["a"; "b"]%string) = Some (RsmClient "a" ["a"; "b"]%string).
Proof.
  destruct (client_finds_primary {["b" := (replica "b" no_locks 1, shrinking_view)]}
    (RsmClient "a" ["a"; "b"]%string)) as (m & r & acc & _ & Hr & ->).
  - cbn. rewrite lookup_singleton_ne by done. by intros [? ?].
  - exists "b"%string. split; [do 2 constructor|]. cbn. rewrite lookup_singleton_eq. by eexists.
  - apply lookup_singleton_Some in Hr as [_ [= <- <-]]. vm_compute. reflexivity.
Defined.
