(* ===== verification/RsmSync.v ===== *)
(** * The synchronisation of a new view

    The recovery threads of src/mit_6.824/rsm.cc after a view has been committed: the
    primary runs [sync_with_backups], every other member [sync_with_primary], which calls
    [transferreq] and [transferdonereq] of the primary until both succeed.  Calls are lost,
    late or time out, and later views may be committed at any time, for which the threads
    then start over.  When the primary leaves the view change all members of its view have
    its replicated state, so the runs of RsmSafety.v start; what this takes, and what goes
    wrong without it, is shown as well.  [join] and the switches of the testing server are
    modelled too. *)

From Stdlib Require Import ZArith Lia Ascii String.
From stdpp Require Import base list strings gmap sets relations.
From S2P Require Import Prelude Marshall Protocols Rpc PaxosAcceptor Paxos Config Rsm RsmSafety Locks LockState RsmService RsmRecovery.

Local Open Scope Z_scope.
Local Open Scope cpp_scope.

(** ** Joining *)

(** [join] when its call has returned; [None] for the reply is a primary without a handle. *)
Definition join (junk : Z) (c : config) (acc : acceptor) (reply : option (Z * rsm_protocol.joinres)) : option (config * acceptor * bool) :=
  match reply with
  | None => Some (c, acc, false)
  | Some (ret, r) =>
      if negb (ret =? rsm_protocol.OK) then Some (c, acc, false)
      else '(c, acc) ← config_restore junk c acc (rsm_protocol.jr_log r); Some (c, acc, true)
  end.

(** One turn of the loop in which [recovery] joins. *)
Definition recovery_join {S} (junk : Z) (r : rsm S) (c : config) (acc : acceptor) (reply : option (Z * rsm_protocol.joinres))
    : option (rsm S * config * acceptor) :=
  if ismember acc (r_me r) (r_vid_commit r) then Some (r, c, acc)
  else
    '(c, acc, ok) ← join junk c acc reply;
    if (ok : bool) then r ← commit_change_wo r acc (cf_myvid c); Some (r, c, acc) else Some (r, c, acc).

(** ** The switches of the testing server *)

Module rsm_test_protocol.
Definition OK : Z := 0.
Definition ERR : Z := 1.
End rsm_test_protocol.

Record rsm_test := RsmTest { t_partitioned : bool; t_dopartition : bool; t_break1 : bool; t_break2 : bool }.

(** [net_repair_wo]: the members whose handles change; the node's own server changes too. *)
Definition net_repair_wo {S} (r : rsm S) (acc : acceptor) : list string := invoke_targets r (get_view_wo acc (r_vid_commit r)).
(** [test_net_repairreq], and [partition1], with the nodes that are cut off or reached again. *)
Definition test_net_repairreq {S} (r : rsm S) (acc : acceptor) (t : rsm_test) (heal : Z) : rsm_test * list (string * bool) :=
  if negb (heal =? 0) then (RsmTest false (t_dopartition t) (t_break1 t) (t_break2 t), (fun m => (m, true)) <$> net_repair_wo r acc)
  else (RsmTest false true (t_break1 t) (t_break2 t), []).
Definition partition1 {S} (r : rsm S) (acc : acceptor) (t : rsm_test) : rsm_test * list (string * bool) :=
  if t_dopartition t then (RsmTest true false (t_break1 t) (t_break2 t), (fun m => (m, false)) <$> net_repair_wo r acc)
  else (t, []).
(** [breakpointreq]; 3 and 4 are passed on to the acceptor. *)
Definition breakpointreq (t : rsm_test) (b : Z) : rsm_test * Z :=
  if b =? 1 then (RsmTest (t_partitioned t) (t_dopartition t) true (t_break2 t), rsm_test_protocol.OK)
  else if b =? 2 then (RsmTest (t_partitioned t) (t_dopartition t) (t_break1 t) true, rsm_test_protocol.OK)
  else if (b =? 3) || (b =? 4) then (t, rsm_test_protocol.OK)
  else (t, rsm_test_protocol.ERR).
(** [commit_change]: [None] also when the node dies at breakpoint 2. *)
Definition commit_change {S} (r : rsm S) (acc : acceptor) (t : rsm_test) (vid : Z) : option (rsm S) :=
  r ← commit_change_wo r acc vid; if t_break2 t then None else Some r.

(** ** Synchronising for a view *)

(** [statetransferdone] when its call has returned; without a handle it tests [ret]
    uninitialised. *)
Definition statetransferdone (uninit : Z) (reply : option Z) : bool := default uninit reply =? rsm_protocol.OK.

(** Where [sync_with_primary] of a backup stands: about to ask for the state, with the
    answer, about to report, waiting for call [id], with its status, in the view, where
    [recovery] waits for the next one, and back at the start of [recovery]. *)
Inductive bphase := BSync | BAnswer (reply : option (Z * rsm_protocol.transferres)) | BReport | BWait (id : nat) | BReplied (ret : Z) | BOver | BRestart.
(** Where the primary stands: before [sync_with_backups], waiting in it, in the view, back at
    the start of [recovery].  In the view it serves clients, and the synchronisation is over. *)
Inductive pphase := PBegin | PWait | POver | PRestart.

(** A [transferdonereq] on its way. *)
Record done_msg := DoneMsg { dm_id : nat; dm_from : string; dm_vid : Z }.

Record syncsys (S : Type) := SyncSys {
  y_primary : rsm S; y_pphase : pphase; y_signal : bool; y_backups : gmap string (rsm S * bphase);
  y_net : list done_msg; y_next : nat }.
Arguments SyncSys {S}. Arguments y_primary {S}. Arguments y_pphase {S}. Arguments y_signal {S}.
Arguments y_backups {S}. Arguments y_net {S}. Arguments y_next {S}.

(** A transfer or report failed: restart if a later view was committed, else try again. *)
Definition sync_failed {S} (r : rsm S) : rsm S * bphase :=
  if negb (r_vid_insync r =? r_vid_commit r) then ((recovery_end r false).1, if (recovery_end r false).2 then BRestart else BSync) else (r, BSync).
(** [sync_with_primary] after [statetransferdone]. *)
Definition sync_reported {S} (r : rsm S) (ok : bool) : rsm S * bphase :=
  if ok then ((recovery_end r true).1, if (recovery_end r true).2 then BRestart else BOver) else sync_failed r.
(** [sync_with_primary] after [statetransfer]. *)
Definition sync_transferred {S} (r : rsm S) (ok : bool) : rsm S * bphase := if ok then (r, BReport) else sync_failed r.

(** The primary, back from [sync_with_backups]. *)
Definition primary_synced {S} (x : rsm S * bool) : rsm S * pphase :=
  ((recovery_end x.1 x.2).1, if (recovery_end x.1 x.2).2 then PRestart else POver).

Section Sync.
Context {S : Type} (marshal : S -> option string) (unmarshal : S -> string -> option S).
(** What the nodes know of the views. *)
Context (acc : acceptor).
(** [spurious]: [pthread_cond_wait] may return without a signal.  Neither wait of the recovery
    thread is in a loop that tests what it waits for. *)
Context (spurious : bool).

Definition set_backup (s : syncsys S) (b : string) (x : rsm S * bphase) : syncsys S :=
  SyncSys (y_primary s) (y_pphase s) (y_signal s) (<[b := x]> (y_backups s)) (y_net s) (y_next s).

(** The answer to call [id] reaches the backup if it still waits for it. *)
Definition reply_to (bs : gmap string (rsm S * bphase)) (m : string) (id : nat) (ret : Z) : gmap string (rsm S * bphase) :=
  match bs !! m with
  | Some (r, BWait i) => if Nat.eqb i id then <[m := (r, BReplied ret)]> bs else bs
  | _ => bs
  end.

Inductive sync_step (s : syncsys S) : syncsys S -> Prop :=
  | sy_begin p ok :
      y_pphase s = PBegin -> sync_with_backups_begin (y_primary s) acc = (p, ok) ->
      sync_step s (if (ok : bool) then SyncSys p PWait false (y_backups s) (y_net s) (y_next s)
                   else SyncSys (primary_synced (p, false)).1 (primary_synced (p, false)).2 false (y_backups s) (y_net s) (y_next s))
  | sy_wake :
      y_pphase s = PWait -> y_signal s = true \/ spurious = true ->
      sync_step s (SyncSys (primary_synced (sync_with_backups_end (y_primary s))).1 (primary_synced (sync_with_backups_end (y_primary s))).2 false
                     (y_backups s) (y_net s) (y_next s))
  | sy_transfer b r ret t :
      y_backups s !! b = Some (r, BSync) -> transferreq (Some marshal) (y_primary s) (r_last_myvs r) (r_vid_insync r) = Some (ret, t) ->
      sync_step s (set_backup s b (r, BAnswer (Some (ret, t))))
  | sy_transfer_fails b r :
      y_backups s !! b = Some (r, BSync) -> sync_step s (set_backup s b (r, BAnswer None))
  | sy_take b r reply r' ok :
      y_backups s !! b = Some (r, BAnswer reply) -> statetransfer (Some unmarshal) r reply = Some (r', ok) ->
      sync_step s (set_backup s b (sync_transferred r' ok))
  | sy_report b r :
      y_backups s !! b = Some (r, BReport) ->
      sync_step s (SyncSys (y_primary s) (y_pphase s) (y_signal s) (<[b := (r, BWait (y_next s))]> (y_backups s))
                     (DoneMsg (y_next s) b (r_vid_insync r) :: y_net s) (y_next s + 1))
  | sy_report_unbound b r uninit :
      y_backups s !! b = Some (r, BReport) -> sync_step s (set_backup s b (sync_reported r (statetransferdone uninit None)))
  (** The primary runs [transferdonereq]; its answer may be lost. *)
  | sy_done n1 msg n2 p ret wake (lost : bool) :
      y_net s = n1 ++ msg :: n2 -> transferdonereq (y_primary s) (dm_from msg) (dm_vid msg) = (p, ret, wake) ->
      sync_step s (SyncSys p (y_pphase s) (y_signal s || wake) (if lost then y_backups s else reply_to (y_backups s) (dm_from msg) (dm_id msg) ret)
                     (n1 ++ n2) (y_next s))
  | sy_drop n1 msg n2 :
      y_net s = n1 ++ msg :: n2 -> sync_step s (SyncSys (y_primary s) (y_pphase s) (y_signal s) (y_backups s) (n1 ++ n2) (y_next s))
  | sy_replied b r ret uninit :
      y_backups s !! b = Some (r, BReplied ret) -> sync_step s (set_backup s b (sync_reported r (statetransferdone uninit (Some ret))))
  | sy_timeout b r id uninit :
      y_backups s !! b = Some (r, BWait id) ->
      sync_step s (set_backup s b (sync_reported r (statetransferdone uninit (Some rpc_const.timeout_failure))))
  (** [recovery] starts over for the view that is committed now, as long as the node has the
      same role in it. *)
  | sy_restart :
      y_pphase s = PRestart -> r_primary (y_primary s) = r_me (y_primary s) ->
      sync_step s (SyncSys (recovery_begin (y_primary s)) PBegin false (y_backups s) (y_net s) (y_next s))
  | sy_restart_backup b r :
      y_backups s !! b = Some (r, BRestart) -> r_primary r = r_me (y_primary s) ->
      sync_step s (set_backup s b (recovery_begin r, BSync))
  (** A backup in the view is woken by the commit of a later one, or by nothing. *)
  | sy_wake_backup b r :
      y_backups s !! b = Some (r, BOver) -> r_vid_insync r <> r_vid_commit r \/ spurious = true ->
      sync_step s (set_backup s b (r, BRestart))
  (** A later view is committed, at the primary or at a backup; the primary's wait is
      signalled. *)
  | sy_commit p vid :
      r_vid_commit (y_primary s) < vid -> commit_change_wo (y_primary s) acc vid = Some p ->
      sync_step s (SyncSys p (y_pphase s) (match y_pphase s with PWait => true | _ => y_signal s end) (y_backups s) (y_net s) (y_next s))
  | sy_commit_backup b r ph r' vid :
      y_backups s !! b = Some (r, ph) -> r_vid_commit r < vid -> commit_change_wo r acc vid = Some r' ->
      sync_step s (set_backup s b (r', ph)).
End Sync.

Section SyncSafety.
Context {S C : Type} (procs : gmap Z (rsm_handler S)) (junk : ascii) `{!@Replicated S C procs junk}.
Context (marshal : S -> option string) (unmarshal : S -> string -> option S).
Context `{!StateTransfer core marshal unmarshal}.
Context (acc : acceptor) (v : Z).

(** The members of view [w] other than the primary. *)
Definition others (s : syncsys S) (w : Z) : list string := invoke_targets (y_primary s) (get_view_wo acc w).

(** The primary has committed view [v] and starts to synchronise for it; so do the backups, for
    the views they know.  Two things are needed of their states, which the code relies on: no
    backup is ahead of the primary ([st_le]), and equal last viewstamps mean equal states.
    Reports for earlier views may still be on their way. *)
Record sync_start (s : syncsys S) : Prop := {
  ss_primary : r_vid_commit (y_primary s) = v /\ r_vid_insync (y_primary s) = v /\ r_inviewchange (y_primary s) = true /\ r_insync (y_primary s) = false;
  ss_state : st_ok (r_state (y_primary s));
  ss_phase : y_pphase s = PBegin /\ y_signal s = false;
  ss_backups b r ph : y_backups s !! b = Some (r, ph) ->
    ph = BSync /\ r_vid_insync r = r_vid_commit r /\ r_inviewchange r = true /\
    st_le (core (r_state r)) (core (r_state (y_primary s))) /\
    (r_last_myvs r = r_last_myvs (y_primary s) -> core (r_state r) = core (r_state (y_primary s)));
  ss_net : Forall (fun m => dm_vid m < v) (y_net s) }.

Definition sync_reachable (s : syncsys S) : Prop := exists s0, sync_start s0 /\ rtc (sync_step marshal unmarshal acc false) s0 s.

(** A backup has the primary's state. *)
Definition synced (p r : rsm S) : Prop := r_last_myvs r = r_last_myvs p /\ core (r_state r) = core (r_state p).
Definition syncable (p r : rsm S) : Prop :=
  synced p r \/ (r_last_myvs r <> r_last_myvs p /\ st_le (core (r_state r)) (core (r_state p))).

Definition backup_ok (p r : rsm S) (ph : bphase) : Prop :=
  match ph with
  | BSync | BAnswer None | BRestart => syncable p r
  | BAnswer (Some (ret, t)) => syncable p r /\ (ret = rsm_protocol.OK -> rsm_protocol.tr_last t = r_last_myvs p /\
      (r_last_myvs r <> r_last_myvs p -> marshal (r_state p) = Some (rsm_protocol.tr_state t)))
  | BReport | BWait _ | BReplied _ | BOver => synced p r
  end.

Lemma synced_syncable p r ph : backup_ok p r ph -> syncable p r.
Proof using. destruct ph as [|[[ret t]|]| | | | |]; cbn; try done; try (by left). by intros [? _]. Qed.

Record sync_inv (s : syncsys S) : Prop := {
  si_state : st_ok (r_state (y_primary s));
  si_vid : v <= r_vid_insync (y_primary s) <= r_vid_commit (y_primary s);
  si_backups b r ph : y_backups s !! b = Some (r, ph) -> backup_ok (y_primary s) r ph;
  si_over b r ph : y_backups s !! b = Some (r, ph) -> r_inviewchange r = false -> r_myvs r = Viewstamp (r_vid_commit r) 1;
  si_net m r ph : m ∈ y_net s -> y_backups s !! dm_from m = Some (r, ph) -> dm_vid m < v \/ synced (y_primary s) r;
  si_insync : r_insync (y_primary s) = true -> y_pphase s = PWait;
  si_left b r ph : y_pphase s = PWait -> b ∈ others s (r_vid_insync (y_primary s)) -> y_backups s !! b = Some (r, ph) ->
    b ∈ r_backups (y_primary s) \/ synced (y_primary s) r;
  si_signal : y_pphase s = PWait -> y_signal s = true ->
    r_backups (y_primary s) = [] \/ r_vid_commit (y_primary s) <> r_vid_insync (y_primary s);
  si_primary b r ph : r_inviewchange (y_primary s) = false -> b ∈ others s (r_vid_commit (y_primary s)) ->
    y_backups s !! b = Some (r, ph) -> synced (y_primary s) r;
  si_stamp : r_inviewchange (y_primary s) = false -> r_myvs (y_primary s) = Viewstamp (r_vid_commit (y_primary s)) 1 /\
    r_vid_insync (y_primary s) = r_vid_commit (y_primary s) }.

Lemma sync_start_inv s : sync_start s -> sync_inv s.
Proof using.
  intros [Hp Hst [Hph Hsg] Hb Hn]. destruct Hp as (Hc & Hi & Hv & Hs). split; try done; try congruence; try lia.
  - intros b r ph Hbr. destruct (Hb _ _ _ Hbr) as (-> & ? & ? & Hle & Heq). cbn.
    destruct (decide (r_last_myvs r = r_last_myvs (y_primary s))) as [E|E]; [left; split; auto|by right].
  - intros b r ph Hbr Hf. destruct (Hb _ _ _ Hbr) as (_ & ? & ? & _). congruence.
  - intros m r ph Hin. rewrite Forall_forall in Hn. left. by apply Hn.
Qed.

(** A backup goes on, perhaps sending a report; what has the primary's state keeps it. *)
Lemma inv_backup s b r ph r' ph' net n : sync_inv s -> y_backups s !! b = Some (r, ph) ->
  backup_ok (y_primary s) r' ph' -> (synced (y_primary s) r -> synced (y_primary s) r') ->
  (r_inviewchange r' = false -> r_myvs r' = Viewstamp (r_vid_commit r') 1) ->
  (forall m, m ∈ net -> m ∈ y_net s \/ (dm_from m = b /\ synced (y_primary s) r')) ->
  sync_inv (SyncSys (y_primary s) (y_pphase s) (y_signal s) (<[b := (r', ph')]> (y_backups s)) net n).
Proof using.
  intros [] Hb Hok Hsy Hov Hnet. split; cbn; try done.
  - intros b' r0 ph0. destruct (decide (b = b')) as [<-|Hne]; [rewrite lookup_insert_eq; by intros [= <- <-]|]. rewrite lookup_insert_ne by done. apply si_backups0.
  - intros b' r0 ph0. destruct (decide (b = b')) as [<-|Hne]; [rewrite lookup_insert_eq; by intros [= <- <-]|]. rewrite lookup_insert_ne by done. apply si_over0.
  - intros m r0 ph0 Hm. destruct (decide (b = dm_from m)) as [E|Hne].
    + rewrite E, lookup_insert_eq. intros [= <- <-]. destruct (Hnet m Hm) as [Hm'|[_ ?]]; [|by right].
      destruct (si_net0 m r ph Hm') as [?|?]; [by rewrite <- E|by left|right; auto].
    + rewrite lookup_insert_ne by done. destruct (Hnet m Hm) as [Hm'|[? _]]; [by apply si_net0|congruence].
  - intros b' r0 ph0 Hw Ho. destruct (decide (b = b')) as [<-|Hne]; [|rewrite lookup_insert_ne by done; by apply si_left0].
    rewrite lookup_insert_eq. intros [= <- <-]. destruct (si_left0 b r ph Hw Ho Hb); auto.
  - intros b' r0 ph0 Hf Ho. destruct (decide (b = b')) as [<-|Hne]; [|rewrite lookup_insert_ne by done; by apply si_primary0].
    rewrite lookup_insert_eq. intros [= <- <-]. apply Hsy. by apply (si_primary0 b r ph).
Qed.

(** The phase alone changes. *)
Lemma inv_phase s b r ph ph' : sync_inv s -> y_backups s !! b = Some (r, ph) -> backup_ok (y_primary s) r ph' -> sync_inv (set_backup s b (r, ph')).
Proof using.
  intros I Hb Hok. eapply inv_backup; [done|exact Hb|done|done| |by left]. by apply (si_over _ I b r ph).
Qed.

Lemma inv_failed s b r ph : sync_inv s -> y_backups s !! b = Some (r, ph) -> syncable (y_primary s) r -> sync_inv (set_backup s b (sync_failed r)).
Proof using.
  intros I Hb Hs. unfold sync_failed, recovery_end. destruct (r_vid_insync r =? r_vid_commit r) eqn:E; cbn [negb]; by eapply inv_phase.
Qed.

Lemma inv_reported s b r ph ok : sync_inv s -> y_backups s !! b = Some (r, ph) -> synced (y_primary s) r -> sync_inv (set_backup s b (sync_reported r ok)).
Proof using.
  intros I Hb Hs. destruct ok; cbn [sync_reported]; [|eapply inv_failed; [done|exact Hb|by left]]. unfold recovery_end.
  destruct (Z.eqb_spec (r_vid_insync r) (r_vid_commit r)) as [E|E]; cbn [negb fst snd]; [|eapply inv_phase; [done|exact Hb|by left]].
  eapply inv_backup; [done|exact Hb|done|done|done|by left].
Qed.

Lemma inv_take s b r reply r' ok : sync_inv s -> y_backups s !! b = Some (r, BAnswer reply) -> statetransfer (Some unmarshal) r reply = Some (r', ok) ->
  sync_inv (set_backup s b (sync_transferred r' ok)).
Proof using Type*.
  intros I Hb Ht. pose proof (si_backups _ I _ _ _ Hb) as Hok. unfold statetransfer in Ht. destruct reply as [[ret t]|]; [|injection Ht as <- <-; by eapply inv_failed].
  destruct Hok as [Hs Hans]. destruct (Z.eqb_spec ret rsm_protocol.OK) as [E|E]; cbn [negb] in Ht; [|injection Ht as <- <-; by eapply inv_failed].
  destruct (Hans E) as [Hlast Hst]. rewrite Hlast, viewstamp_neq_spec in Ht.
  assert (Hs' : exists st, r' = Rsm (r_me r) st (r_myvs r) (r_last_myvs (y_primary s)) (r_primary r) (r_insync r) (r_inviewchange r) (r_vid_commit r) (r_vid_insync r) (r_backups r) /\
    ok = true /\ core st = core (r_state (y_primary s))).
  { destruct Hs as [[El Ec]|[Hne Hle]].
    - rewrite (proj2 (viewstamp_eqb_spec _ _) El) in Ht. cbn in Ht. injection Ht as <- <-. by eexists.
    - destruct (viewstamp_eqb (r_last_myvs r) (r_last_myvs (y_primary s))) eqn:Ev; [by apply viewstamp_eqb_spec in Ev|]. cbn [negb] in Ht.
      destruct (st_transfer (r_state (y_primary s)) (r_state r) (si_state _ I) Hle) as (state & s' & Hm & Hu & Hcore).
      rewrite (Hst Hne) in Hm. injection Hm as <-. rewrite Hu in Ht. cbn in Ht. injection Ht as <- <-. by eexists. }
  destruct Hs' as (st & -> & -> & Hcore). cbn [sync_transferred]. eapply inv_backup; [done|exact Hb|done|done| |by left]. cbn. intros Hf. by apply (si_over _ I b r _ Hb).
Qed.

Definition same_state (p p' : rsm S) : Prop := r_me p' = r_me p /\ r_state p' = r_state p /\ r_last_myvs p' = r_last_myvs p.

Lemma synced_same p p' r : same_state p p' -> synced p r <-> synced p' r.
Proof using. intros (_ & Hs & Hl). unfold synced. by rewrite Hs, Hl. Qed.

(** The primary goes on: its state does not change. *)
Lemma inv_primary s p ph sig : sync_inv s -> same_state (y_primary s) p -> v <= r_vid_insync p <= r_vid_commit p ->
  (r_insync p = true -> ph = PWait) ->
  (forall b r x, ph = PWait -> b ∈ others s (r_vid_insync p) -> y_backups s !! b = Some (r, x) -> b ∈ r_backups p \/ synced (y_primary s) r) ->
  (ph = PWait -> sig = true -> r_backups p = [] \/ r_vid_commit p <> r_vid_insync p) ->
  (r_inviewchange p = false -> (r_myvs p = Viewstamp (r_vid_commit p) 1 /\ r_vid_insync p = r_vid_commit p) /\
     forall b r x, b ∈ others s (r_vid_commit p) -> y_backups s !! b = Some (r, x) -> synced (y_primary s) r) ->
  sync_inv (SyncSys p ph sig (y_backups s) (y_net s) (y_next s)).
Proof using.
  intros [] Hsame Hc Hin Hleft Hsig Hov. destruct (Hsame) as (Hme & Hst & Hlast).
  assert (Ho : forall w, others (SyncSys p ph sig (y_backups s) (y_net s) (y_next s)) w = others s w).
  { intros w. unfold others, invoke_targets. cbn. by rewrite Hme. }
  split; cbn [y_primary y_pphase y_signal y_backups y_net]; rewrite ?Ho; try done.
  - by rewrite Hst.
  - intros b r x Hb. pose proof (si_backups0 b r x Hb) as Hok. unfold backup_ok, syncable, synced in *. by rewrite Hst, Hlast.
  - intros m r x Hm Hb. rewrite <- (synced_same _ _ r Hsame). by eapply si_net0.
  - intros b r x Hw. rewrite <- (synced_same _ _ r Hsame). by eapply Hleft.
  - intros b r x Hf. rewrite <- (synced_same _ _ r Hsame). by eapply (Hov Hf).
  - intros Hf. by apply Hov.
Qed.

Lemma inv_begin s p ok : sync_inv s -> y_pphase s = PBegin -> sync_with_backups_begin (y_primary s) acc = (p, ok) ->
  sync_inv (if (ok : bool) then SyncSys p PWait false (y_backups s) (y_net s) (y_next s)
            else SyncSys (primary_synced (p, false)).1 (primary_synced (p, false)).2 false (y_backups s) (y_net s) (y_next s)).
Proof using.
  intros I Hph Hb. unfold sync_with_backups_begin in Hb. pose proof (si_vid _ I) as Hv.
  assert (Hin : r_insync (y_primary s) = true -> False) by (intros E; apply (si_insync _ I) in E; congruence).
  destruct (Z.eqb_spec (r_vid_insync (y_primary s)) (r_vid_commit (y_primary s))) as [E|E]; cbn [negb] in Hb; injection Hb as <- <-.
  - apply inv_primary; cbn; try done.
    + intros b r x _ Ho Hb. left. by rewrite <- E.
    + intros Hf. split; [by apply (si_stamp _ I)|]. intros b r x. by eapply (si_primary _ I).
  - unfold primary_synced, recovery_end. cbn [fst snd]. rewrite (proj2 (Z.eqb_neq _ _) E). cbn [negb fst snd]. apply inv_primary; try done.
    intros Hf. destruct (si_stamp _ I Hf). congruence.
Qed.

Lemma inv_wake s : sync_inv s -> y_pphase s = PWait -> y_signal s = true ->
  sync_inv (SyncSys (primary_synced (sync_with_backups_end (y_primary s))).1 (primary_synced (sync_with_backups_end (y_primary s))).2 false
              (y_backups s) (y_net s) (y_next s)).
Proof using.
  intros I Hph Hsig. pose proof (si_vid _ I) as Hv. unfold primary_synced, sync_with_backups_end, recovery_end. cbn [fst snd r_vid_insync r_vid_commit].
  destruct (Z.eqb_spec (r_vid_insync (y_primary s)) (r_vid_commit (y_primary s))) as [E|E]; cbn [negb fst snd].
  - apply inv_primary; cbn; try done. intros _. split; [done|]. intros b r x Ho Hb. rewrite <- E in Ho.
    destruct (si_left _ I b r x Hph Ho Hb) as [Hin|]; [|done].
    destruct (si_signal _ I Hph Hsig) as [Hnil|]; [rewrite Hnil in Hin; by apply elem_of_nil in Hin|congruence].
  - apply inv_primary; cbn; try done. intros Hf. destruct (si_stamp _ I Hf). congruence.
Qed.

Lemma commit_change_wo_cases r a vid r' : commit_change_wo r a vid = Some r' -> r_vid_commit r < vid ->
  same_state r r' /\ r_vid_commit r' = vid /\ r_vid_insync r' = r_vid_insync r /\ r_insync r' = r_insync r /\ r_inviewchange r' = true /\ r_backups r' = r_backups r.
Proof using.
  intros Hc Hv. unfold commit_change_wo in Hc. rewrite (proj2 (Z.leb_gt _ _)) in Hc by lia.
  destruct (set_primary (r_primary r) a vid) as [p|]; [|done]. injection Hc as <-. done.
Qed.

Lemma inv_transfer s b r ret t : sync_inv s -> y_backups s !! b = Some (r, BSync) ->
  transferreq (Some marshal) (y_primary s) (r_last_myvs r) (r_vid_insync r) = Some (ret, t) -> sync_inv (set_backup s b (r, BAnswer (Some (ret, t)))).
Proof using.
  intros I Hb Ht. pose proof (si_backups _ I _ _ _ Hb) as Hs. eapply inv_phase; [done|exact Hb|]. split; [exact Hs|]. intros ->.
  unfold transferreq in Ht. destruct (negb (r_insync _) || _); [by injection Ht|]. rewrite viewstamp_neq_spec in Ht.
  destruct (viewstamp_eqb (r_last_myvs r) (r_last_myvs (y_primary s))) eqn:E; cbn [negb] in Ht.
  - apply viewstamp_eqb_spec in E. injection Ht as <-. cbn. by rewrite E.
  - destruct (marshal (r_state (y_primary s))) as [st|] eqn:Em; [|done]. injection Ht as <-. done.
Qed.

Lemma erase_first_spec m l x : x ∈ l -> x ∈ erase_first m l \/ x = m.
Proof using.
  induction l as [|y l IH]; [by intros ?%elem_of_nil|]. cbn. destruct (String.eqb_spec y m) as [->|Hne]; rewrite !elem_of_cons; [naive_solver|]. unfold erase_first in IH. naive_solver.
Qed.

Lemma inv_reply s m id ret : sync_inv s ->
  sync_inv (SyncSys (y_primary s) (y_pphase s) (y_signal s) (reply_to (y_backups s) m id ret) (y_net s) (y_next s)).
Proof using.
  intros I. unfold reply_to. assert (Hid : sync_inv (SyncSys (y_primary s) (y_pphase s) (y_signal s) (y_backups s) (y_net s) (y_next s))) by (by destruct s).
  destruct (y_backups s !! m) as [[r ph]|] eqn:Hb; [|done]. destruct ph; try done. destruct (Nat.eqb _ _); [|done].
  apply (inv_phase s m r (BWait id0)); [done|done|]. by apply (si_backups _ I _ _ _ Hb).
Qed.

Lemma inv_drop s n1 msg n2 : sync_inv s -> y_net s = n1 ++ msg :: n2 -> sync_inv (SyncSys (y_primary s) (y_pphase s) (y_signal s) (y_backups s) (n1 ++ n2) (y_next s)).
Proof using.
  intros [] Hn. split; try done. cbn. intros m r ph Hm. apply si_net0. rewrite Hn. rewrite elem_of_app in *. rewrite elem_of_cons. naive_solver.
Qed.

Lemma inv_done s n1 msg n2 p ret wake : sync_inv s -> y_net s = n1 ++ msg :: n2 -> transferdonereq (y_primary s) (dm_from msg) (dm_vid msg) = (p, ret, wake) ->
  sync_inv (SyncSys p (y_pphase s) (y_signal s || wake) (y_backups s) (y_net s) (y_next s)).
Proof using.
  intros I Hn Hd. unfold transferdonereq in Hd. pose proof (si_vid _ I) as Hv. destruct (r_insync (y_primary s)) eqn:Hin; cbn [negb orb] in Hd.
  2: { injection Hd as <- _ <-. rewrite orb_false_r. by destruct s. }
  destruct (Z.eqb_spec (dm_vid msg) (r_vid_insync (y_primary s))) as [E|E]; cbn [negb] in Hd; injection Hd as <- _ <-; [|rewrite orb_false_r; by destruct s].
  pose proof (si_insync _ I Hin) as Hph. apply inv_primary; cbn; try done.
  - intros b r x _ Ho Hb. destruct (si_left _ I b r x Hph Ho Hb) as [Hl|]; [|by right]. destruct (erase_first_spec (dm_from msg) _ _ Hl) as [|Heq]; [by left|]. right.
    destruct (si_net _ I msg r x); [rewrite Hn, elem_of_app, elem_of_cons; auto|by rewrite <- Heq|lia|done].
  - intros _ Hsig. apply orb_true_iff in Hsig as [Hsig|Hsig]; [|left; by apply bool_decide_eq_true in Hsig].
    destruct (si_signal _ I Hph Hsig) as [Hnil|]; [left; by rewrite Hnil|by right].
  - intros Hf. split; [by apply (si_stamp _ I)|]. intros b r x. by eapply (si_primary _ I).
Qed.

Lemma sync_step_inv s s' : sync_inv s -> sync_step marshal unmarshal acc false s s' -> sync_inv s'.
Proof using Type*.
  intros I Hs. destruct Hs as [p ok Hph Hb|Hph Hsig|b r ret t Hb Ht|b r Hb|b r reply r' ok Hb Ht|b r Hb|b r uninit Hb|n1 msg n2 p ret wake lost Hn Hd
    |n1 msg n2 Hn|b r ret uninit Hb|b r id uninit Hb|Hph Hme|b r Hb Hme|b r Hb Hw|p vid Hv Hc|b r ph r' vid Hb Hv Hc].
  - by apply inv_begin.
  - apply inv_wake; [done|done|]. by destruct Hsig.
  - by eapply inv_transfer.
  - eapply inv_phase; [done|exact Hb|]. by apply (si_backups _ I _ _ _ Hb).
  - by eapply inv_take.
  - pose proof (si_backups _ I _ _ _ Hb) as Hok. eapply inv_backup; [done|exact Hb|done|done|by apply (si_over _ I b r _ Hb)|].
    intros m [->|Hm]%elem_of_cons; [right; by split|by left].
  - eapply inv_reported; [done|exact Hb|by apply (si_backups _ I _ _ _ Hb)].
  - pose proof (inv_done _ _ _ _ _ _ _ I Hn Hd) as I1. pose proof (inv_drop _ n1 msg n2 I1 Hn) as I2. destruct lost; [exact I2|]. exact (inv_reply _ _ _ _ I2).
  - by eapply inv_drop.
  - eapply inv_reported; [done|exact Hb|by apply (si_backups _ I _ _ _ Hb)].
  - eapply inv_reported; [done|exact Hb|by apply (si_backups _ I _ _ _ Hb)].
  - pose proof (si_vid _ I). assert (Hin : r_insync (y_primary s) = true -> False) by (intros E; apply (si_insync _ I) in E; congruence).
    apply inv_primary; cbn; try done; [lia|]. intros Hf. split; [split; [by apply (si_stamp _ I)|done]|]. intros b r x. by eapply (si_primary _ I).
  - eapply inv_backup; [done|exact Hb| |done| |by left]; [exact (si_backups _ I _ _ _ Hb)|by apply (si_over _ I b r _ Hb)].
  - eapply inv_phase; [done|exact Hb|]. left. exact (si_backups _ I _ _ _ Hb).
  - destruct (commit_change_wo_cases _ _ _ _ Hc Hv) as (Hsame & Hc' & Hi' & Hin' & Hf' & Hb'). pose proof (si_vid _ I). apply inv_primary; [done|done|lia| | |right; lia|congruence].
    + rewrite Hin'. apply (si_insync _ I).
    + intros b r x. rewrite Hb', Hi'. apply (si_left _ I).
  - destruct (commit_change_wo_cases _ _ _ _ Hc Hv) as (Hsame & Hc' & Hi' & Hin' & Hf' & Hb'). pose proof (si_backups _ I _ _ _ Hb) as Hok.
    eapply inv_backup; [done|exact Hb| | |congruence|by left]; destruct Hsame as (_ & Hst & Hl); unfold backup_ok, syncable, synced in *; by rewrite Hst, Hl.
Qed.

Lemma sync_reachable_inv s : sync_reachable s -> sync_inv s.
Proof using Type*.
  intros (s0 & H0 & Hr). apply (rtc_ind_r sync_inv s0) with (3 := Hr); [by apply sync_start_inv|]. intros ? ? _ Hs I. by eapply sync_step_inv.
Qed.

(** The members of the primary's view among the backups. *)
Definition member_backups (s : syncsys S) : gmap string (rsm S) :=
  fst <$> filter (fun x => x.1 ∈ others s (r_vid_commit (y_primary s))) (y_backups s).

End SyncSafety.

(** A node that has taken part in nothing joins: the primary [d] has made it a member and
    answers with its log.  The node then has the primary's views, has committed the latest,
    is a member of it and so leaves the loop in which it joins; the primary it takes is a
    member too. *)
Lemma join_enters_view {S} junk (r : rsm S) c a d :
  log_ok d -> acc_equiv a (blank (a_me a) []) -> r_vid_commit r = 0 -> 0 < a_instance_h d ->
  ismember a (r_me r) 0 = false -> ismember d (r_me r) (a_instance_h d) = true -> ismember d (r_primary r) (a_instance_h d) = true ->
  exists r' c' a', recovery_join junk r c a (Some (rsm_protocol.OK, rsm_protocol.JoinRes (dump d))) = Some (r', c', a') /\
    r_vid_commit r' = a_instance_h d /\ cf_myvid c' = a_instance_h d /\ (forall i, get_view_wo a' i = get_view_wo d i) /\
    recovery_join junk r' c' a' None = Some (r', c', a') /\ r_primary r' = r_primary r /\ r_inviewchange r' = true.
Proof.
  intros Hlog Ha H0 Hi Hno Hme Hprim. destruct (restore_dump junk a d Hlog) as (a' & Hres & HR & _).
  assert (Hin : a_instance_h a' = a_instance_h d) by (apply (restored_votes _ _ _ HR); left; lia).
  assert (Hval : forall i, value_at a' i = value_at d i).
  { intros i. destruct (restored_values _ _ _ i HR) as [?|[-> ->]]; [done|]. apply (ae_values _ _ Ha). }
  assert (Hview : forall i, get_view_wo a' i = get_view_wo d i) by (intros i; unfold get_view_wo; by rewrite Hval).
  unfold recovery_join, join, config_restore. rewrite H0, Hno. cbn [negb]. rewrite Z.eqb_refl. cbn [negb rsm_protocol.jr_log]. rewrite Hres. cbn [mbind option_bind].
  unfold reconstruct. rewrite Hin, (proj2 (Z.ltb_lt _ _) Hi). cbn [cf_myvid]. unfold commit_change_wo. rewrite (proj2 (Z.leb_gt _ _)) by lia.
  unfold set_primary. unfold ismember in Hprim, Hme. rewrite !Hview, Hprim.
  assert ((0 <? Z.of_nat (length (get_view_wo d (a_instance_h d)))) = true) as -> by (apply Z.ltb_lt; destruct (get_view_wo d _); [done|cbn; lia]).
  cbn [VERIFY mbind option_bind]. eexists _, _, _. split; [done|]. cbn [r_me r_vid_commit r_primary r_inviewchange cf_myvid]. split; [done|]. split; [done|]. split; [done|].
  unfold ismember. by rewrite Hview, Hme.
Qed.

(** What the testing server cut off in a view it connects again in that view. *)
Lemma heal_undoes_partition {S} (r : rsm S) acc t h m : h <> 0 -> t_dopartition t = true ->
  (m, false) ∈ (partition1 r acc t).2 -> let '(t', l) := test_net_repairreq r acc (partition1 r acc t).1 h in (m, true) ∈ l /\ t_partitioned t' = false /\ t_dopartition t' = false.
Proof.
  intros Hh Ht. unfold partition1, test_net_repairreq. rewrite Ht, (proj2 (Z.eqb_neq _ _) Hh). cbn.
  intros (x & [= ->] & Hx)%list_elem_of_fmap_1. split; [|done]. apply list_elem_of_fmap. by exists x.
Qed.

(** ** Runs of the lock service *)

Definition joining (me : string) (st : lock_server) (last : viewstamp) (ins : bool) (bs : list string) : rsm lock_server :=
  Rsm me st (Viewstamp 0 6) last "a" ins true 1 1 bs.
Definition in_view (me : string) (st : lock_server) (last : viewstamp) : rsm lock_server := Rsm me st (Viewstamp 1 1) last "a" false false 1 1 [].

(** View 1 of "a" and "b" is committed; the primary "a" has state [sa], "b" has [sb]. *)
Definition committed (sa sb : lock_server) (la lb : viewstamp) : syncsys lock_server :=
  SyncSys (joining "a" sa la false []) PBegin false {["b" := (joining "b" sb lb false [], BSync)]} [] 0.
Definition entered (sa sb : lock_server) (la : viewstamp) : syncsys lock_server :=
  SyncSys (in_view "a" sa la) POver false {["b" := (in_view "b" sb la, BOver)]} [] 1.

Abbreviation lock_sync := (sync_step (marshal_state "000") (unmarshal_state "000") two_view).

Lemma lock7_ok : @st_ok _ _ _ _ _ (lock_state_transfers "000" "000") lock7.
Proof.
  split; [|vm_compute; discriminate]. split; [vm_compute; reflexivity|]. apply map_Forall_singleton.
  unfold in_u64, client_info_wf, short, in_u64. cbn.
  split; [lia|]. split; [vm_compute; reflexivity|]. split; [lia|]. split; [vm_compute; reflexivity|]. set_solver.
Qed.

(** "b" asks, takes what "a" sends over, and reports; "a" is woken. *)
Lemma state_exchanged sp (sa sb : lock_server) la lb : @st_ok _ _ _ _ _ (lock_state_transfers "000" "000") sa -> la <> lb ->
  rtc (lock_sync sp) (committed sa sb la lb)
    (entered sa (LockServer (ls_clients sa ∪ ls_clients sb) (ls_revoker_queue sb) (ls_retryer_queue sb)) la).
Proof.
  intros [Hwf Hsz] Hne. destruct (marshalled_table "000" "000" sa sb Hwf Hsz) as (state & Hm & Hu).
  assert (Hvs : viewstamp_neq lb la = true).
  { rewrite viewstamp_neq_spec. destruct (viewstamp_eqb lb la) eqn:E; [|done]. by apply viewstamp_eqb_spec in E. }
  eapply rtc_l; [apply (sy_begin _ _ _ _ (committed sa sb la lb) (joining "a" sa la true ["b"%string]) true); reflexivity|].
  eapply rtc_l; [eapply (sy_transfer _ _ _ _ _ "b"); [apply lookup_singleton_eq|cbn; rewrite Hvs, Hm; reflexivity]|]. unfold set_backup; cbn. rewrite insert_singleton_eq.
  eapply rtc_l; [eapply (sy_take _ _ _ _ _ "b"); [apply lookup_singleton_eq|cbn; rewrite Hvs, Hu; reflexivity]|]. unfold set_backup; cbn. rewrite insert_singleton_eq.
  eapply rtc_l; [eapply (sy_report _ _ _ _ _ "b"); apply lookup_singleton_eq|]. unfold set_backup; cbn. rewrite insert_singleton_eq.
  eapply rtc_l; [eapply (sy_done _ _ _ _ _ [] _ [] _ _ _ false); [reflexivity|reflexivity]|]. cbn.
  unfold reply_to. rewrite lookup_singleton_eq. unfold set_backup; cbn. rewrite insert_singleton_eq.
  eapply rtc_l; [eapply (sy_replied _ _ _ _ _ "b" _ _ 0); apply lookup_singleton_eq|]. unfold set_backup; cbn. rewrite insert_singleton_eq.
  eapply rtc_l; [eapply sy_wake; [reflexivity|by left]|]. reflexivity.
Qed.


(** C40. Both conditions are needed.  A backup that is ahead of the primary when a view is
    committed, as one is that has executed a request the failed primary had not yet sent to
    the new one, keeps the locks the primary does not know, since [unmarshal_state] adds to the
    table that is there: whatever the two tables are, the synchronisation can end with primary
    and backup in the view at the same viewstamps while the backup still has every such lock.
    And when the wait of the primary returns without a signal, the primary is in the view, and
    no longer sends its state, while the backup has done nothing yet. *)
Theorem recovery_leaves_backup_behind_or_ahead sa sb la lb : lock_server_wf sa ->
  RPC_HEADER_SZ + Z.of_nat (length (enc_state sa)) <= MAX_CONTENT -> la <> lb ->
  (exists sb', rtc (lock_sync false) (committed sa sb la lb) (entered sa sb' la) /\
     (forall lid ci, ls_clients sa !! lid = None -> ls_clients sb !! lid = Some ci -> ls_clients sb' !! lid = Some ci)) /\
  (exists s, rtc (lock_sync true) (committed sa sb la lb) s /\ r_inviewchange (y_primary s) = false /\ r_myvs (y_primary s) = Viewstamp 1 1 /\
     y_backups s = y_backups (committed sa sb la lb) /\
     forall last vid, transferreq (Some (marshal_state "000")) (y_primary s) last vid = Some (rsm_protocol.BUSY, rsm_protocol.TransferRes "" (Viewstamp 0 0))).
Proof.
  intros Hwf Hsz Hne. split.
  - eexists. split; [by apply (state_exchanged false)|]. intros lid ci Ha Hb. cbn. by apply lookup_union_Some_raw; right.
  - eexists. split; [|split; [|split; [|split]]].
    + eapply rtc_l; [apply (sy_begin _ _ _ _ (committed sa sb la lb) (joining "a" sa la true ["b"%string]) true); reflexivity|].
      eapply rtc_l; [eapply sy_wake; [reflexivity|by right]|]. reflexivity.
    + reflexivity.
    + reflexivity.
    + reflexivity.
    + intros last vid. reflexivity.
Qed.

Lemma recovery_leaves_backup_behind_or_ahead_witness : exists sb',
  rtc (lock_sync false) (committed no_locks lock7 (Viewstamp 0 5) (Viewstamp 0 6)) (entered no_locks sb' (Viewstamp 0 5)) /\
  ls_clients sb' !! 7 = Some (ClientInfo "c" 1 false ∅).
Proof.
  destruct (recovery_leaves_backup_behind_or_ahead no_locks lock7 (Viewstamp 0 5) (Viewstamp 0 6)) as [(sb' & Hr & Hl) _].
  - split; [vm_compute; reflexivity|]. apply map_Forall_empty.
  - vm_compute. discriminate.
  - done.
  - exists sb'. split; [exact Hr|]. by apply Hl.
Defined.
