(* ===== verification/Extent.v ===== *)
(** * Extents: the server and its write-back client

    Models src/mit_6.824/extent_server.cc and extent_client.cc.  A client keeps the
    extents it works on until the lock on them is given back and [flush] is called.
    The RPCs of the client have no timeout; they return what the server does.  Clock
    readings ([time(NULL)]) are arguments.  The main theorem: client and server
    together refine a store of contents and sizes with pending changes. *)

From Stdlib Require Import ZArith Lia Ascii String.
From stdpp Require Import base list strings gmap sets.
From S2P Require Import Prelude Marshall Protocols.
Import extent_protocol.

Local Open Scope Z_scope.
Local Open Scope cpp_scope.

(** ** The server *)

Record extent_server := ExtentServer { es_extents : gmap Z string; es_attrs : gmap Z attr }.

(** A map entry made by [operator[]]. *)
Definition attr0 : attr := Attr 0 0 0 0.
Definition attr_of (m : gmap Z attr) (id : Z) : attr := default attr0 (m !! id).

Definition es_new : extent_server := ExtentServer {[1 := ""%string]} ∅.

Definition es_put (s : extent_server) (id : Z) (buf : string) (now : Z) : extent_server * Z :=
  let t := match es_attrs s !! id with Some a => atime a | None => now end in
  (ExtentServer (<[id := buf]> (es_extents s)) (<[id := Attr t now now (wrap 32 (str_size buf))]> (es_attrs s)), OK).

(** [get]: the status and the contents when it is OK. *)
Definition es_get (s : extent_server) (id : Z) (now : Z) : extent_server * Z * string :=
  match es_extents s !! id with
  | None => (s, NOENT, ""%string)
  | Some b =>
      let a := attr_of (es_attrs s) id in
      (ExtentServer (es_extents s) (<[id := Attr now (mtime a) (ctime a) (size a)]> (es_attrs s)), OK,
       String.substring 0 (Z.to_nat (size a)) b)
  end.

(** [a = attrs_[id]] makes an entry if there is none. *)
Definition es_getattr (s : extent_server) (id : Z) : extent_server * Z * attr :=
  let a := attr_of (es_attrs s) id in (ExtentServer (es_extents s) (<[id := a]> (es_attrs s)), OK, a).

Definition zeros (n : Z) : string := str_of (replicate (Z.to_nat n) "000"%char).

Definition es_setattr (s : extent_server) (id : Z) (a : attr) (now : Z) : extent_server * Z :=
  let old := attr_of (es_attrs s) id in
  let ext := if size old <? size a
             then <[id := String.append (default ""%string (es_extents s !! id)) (zeros (size a - size old))]> (es_extents s)
             else es_extents s in
  (ExtentServer ext (<[id := Attr (atime old) now now (size a)]> (es_attrs s)), OK).

Definition es_remove (s : extent_server) (id : Z) : extent_server * Z :=
  match es_extents s !! id with
  | None => (s, NOENT)
  | Some _ => (ExtentServer (delete id (es_extents s)) (delete id (es_attrs s)), OK)
  end.

(** ** The client *)

Record extent_client := ExtentClient {
  ec_extents : gmap Z string; ec_dirty : gset Z; ec_attrs : gmap Z attr; ec_dirty_attrs : gset Z;
  ec_removed : gset Z }.
Definition ec_new : extent_client := ExtentClient ∅ ∅ ∅ ∅ ∅.

(** [get]; [None] is the assertion on the server's answer. *)
Definition ec_get (c : extent_client) (s : extent_server) (eid now : Z)
    : option (extent_client * extent_server * Z * string) :=
  match ec_extents c !! eid with
  | Some b =>
      match ec_attrs c !! eid with
      | Some _ => Some (c, s, OK, b)
      | None =>
          let '(s, ret, a) := es_getattr s eid in
          VERIFY! (ret =? OK) ;;
          Some (ExtentClient (ec_extents c) (ec_dirty c)
                  (<[eid := Attr now (mtime a) (ctime a) (size a)]> (ec_attrs c)) (ec_dirty_attrs c)
                  (ec_removed c), s, ret, b)
      end
  | None =>
      let '(s, ret, b) := es_get s eid now in
      Some (if ret =? OK
            then ExtentClient (<[eid := b]> (ec_extents c)) (ec_dirty c) (ec_attrs c) (ec_dirty_attrs c) (ec_removed c)
            else c, s, ret, b)
  end.

Definition ec_getattr (c : extent_client) (s : extent_server) (eid : Z) : extent_client * extent_server * Z * attr :=
  match ec_attrs c !! eid with
  | Some a => (c, s, OK, a)
  | None =>
      let '(s, ret, a) := es_getattr s eid in
      (if ret =? OK
       then ExtentClient (ec_extents c) (ec_dirty c) (<[eid := a]> (ec_attrs c)) (ec_dirty_attrs c) (ec_removed c)
       else c, s, ret, a)
  end.

Definition ec_setattr (c : extent_client) (eid : Z) (a : attr) : extent_client * Z :=
  (ExtentClient (ec_extents c) (ec_dirty c) (<[eid := a]> (ec_attrs c)) ({[eid]} ∪ ec_dirty_attrs c) (ec_removed c), OK).

Definition ec_put (c : extent_client) (s : extent_server) (eid : Z) (buf : string) (now : Z)
    : extent_client * extent_server * Z :=
  let '(s, ret, t) :=
    match ec_attrs c !! eid with
    | Some a => (s, OK, atime a)
    | None => let '(s, ret, a) := es_getattr s eid in (s, ret, if ret =? OK then atime a else now)
    end in
  (ExtentClient (<[eid := buf]> (ec_extents c)) ({[eid]} ∪ ec_dirty c)
     (<[eid := Attr t now now (wrap 32 (str_size buf))]> (ec_attrs c)) ({[eid]} ∪ ec_dirty_attrs c)
     (ec_removed c ∖ {[eid]}), s, ret).

Definition ec_remove (c : extent_client) (s : extent_server) (eid now : Z) : extent_client * extent_server * Z :=
  let '(s, ret, _) := es_get s eid now in
  if negb (ret =? OK) && bool_decide (ec_extents c !! eid = None) then (c, s, NOENT)
  else (ExtentClient (delete eid (ec_extents c)) (ec_dirty c ∖ {[eid]}) (ec_attrs c) (ec_dirty_attrs c ∖ {[eid]})
          (if ret =? OK then {[eid]} ∪ ec_removed c else ec_removed c), s, OK).

(** [flush]; [None] is an assertion on an answer of the server. *)
Definition ec_flush (c : extent_client) (s : extent_server) (eid now : Z)
    : option (extent_client * extent_server * Z) :=
  let done (c : extent_client) : extent_client :=
    ExtentClient (delete eid (ec_extents c)) (ec_dirty c) (delete eid (ec_attrs c)) (ec_dirty_attrs c) (ec_removed c) in
  if bool_decide (eid ∈ ec_dirty c) then
    let '(s, ret) := es_put s eid (default ""%string (ec_extents c !! eid)) now in
    VERIFY! (ret =? OK) ;;
    Some (done (ExtentClient (ec_extents c) (ec_dirty c ∖ {[eid]}) (ec_attrs c) (ec_dirty_attrs c ∖ {[eid]})
                  (ec_removed c)), s, ret)
  else if bool_decide (eid ∈ ec_removed c) then
    let '(s, ret) := es_remove s eid in
    VERIFY! (ret =? OK) ;;
    Some (done (ExtentClient (ec_extents c) (ec_dirty c) (ec_attrs c) (ec_dirty_attrs c) (ec_removed c ∖ {[eid]})), s, ret)
  else Some (done c, s, OK).

(** ** The contents client and server stand for *)

Definition server_content (s : extent_server) (id : Z) : option string :=
  b ← es_extents s !! id; Some (String.substring 0 (Z.to_nat (size (attr_of (es_attrs s) id))) b).

Definition content (c : extent_client) (s : extent_server) (id : Z) : option string :=
  if bool_decide (id ∈ ec_dirty c) then ec_extents c !! id
  else if bool_decide (id ∈ ec_removed c) then None
  else server_content s id.

Record cache_inv (c : extent_client) (s : extent_server) : Prop := {
  ci_dirty id : id ∈ ec_dirty c -> exists b, ec_extents c !! id = Some b /\ str_size b < 2 ^ 32;
  ci_clean id b : id ∉ ec_dirty c -> ec_extents c !! id = Some b -> server_content s id = Some b;
  ci_removed id : id ∈ ec_removed c -> (id ∉ ec_dirty c) /\ is_Some (es_extents s !! id) }.

(** The operations of a client.  Of the attributes the result has the size. *)
Inductive extent_op := OpGet (id : Z) | OpPut (id : Z) (buf : string) | OpRemove (id : Z) | OpFlush (id : Z)
  | OpGetattr (id : Z) | OpSetattr (id : Z) (a : attr).
Inductive extent_result := RStatus (ret : Z) | RData (ret : Z) (buf : string) | RSize (ret : Z) (n : Z).

Definition extent_exec (c : extent_client) (s : extent_server) (now : Z) (op : extent_op)
    : option (extent_client * extent_server * extent_result) :=
  match op with
  | OpGet id => '(c, s, ret, b) ← ec_get c s id now; Some (c, s, if (ret =? OK) then RData ret b else RStatus ret)
  | OpPut id buf => let '(c, s, ret) := ec_put c s id buf now in Some (c, s, RStatus ret)
  | OpRemove id => let '(c, s, ret) := ec_remove c s id now in Some (c, s, RStatus ret)
  | OpFlush id => '(c, s, ret) ← ec_flush c s id now; Some (c, s, RStatus ret)
  | OpGetattr id => let '(c, s, ret, a) := ec_getattr c s id in Some (c, s, RSize ret (size a))
  | OpSetattr id a => let '(c, ret) := ec_setattr c id a in Some (c, s, RStatus ret)
  end.
Fixpoint extent_run (c : extent_client) (s : extent_server) (ops : list (Z * extent_op)) : option (list extent_result) :=
  match ops with
  | [] => Some []
  | (now, op) :: ops => '(c, s, r) ← extent_exec c s now op; rs ← extent_run c s ops; Some (r :: rs)
  end.

(** What they should do: a store of contents, what has been changed and not written back, and
    the size that is known of each extent. *)
Inductive change := Written (buf : string) | Removed.
Record store := Store { stored : Z -> option string; pending : Z -> option change; known_size : Z -> Z }.
Definition upd {A} (f : Z -> A) (id : Z) (x : A) : Z -> A := fun i => if decide (i = id) then x else f i.
(** The contents, with the changes. *)
Definition current (t : store) (id : Z) : option string :=
  match pending t id with Some (Written b) => Some b | Some Removed => None | None => stored t id end.
(** What [get] finds: an extent that was removed is still there. *)
Definition visible (t : store) (id : Z) : option string :=
  match pending t id with Some (Written b) => Some b | _ => stored t id end.

Definition spec_exec (t : store) (op : extent_op) : store * extent_result :=
  match op with
  | OpGet id => (t, match visible t id with Some b => RData OK b | None => RStatus NOENT end)
  | OpPut id buf => (Store (stored t) (upd (pending t) id (Some (Written buf))) (upd (known_size t) id (str_size buf)), RStatus OK)
  | OpRemove id =>
      match visible t id with
      | Some _ => (Store (stored t) (upd (pending t) id (match stored t id with Some _ => Some Removed | None => None end)) (known_size t), RStatus OK)
      | None => (t, RStatus NOENT)
      end
  | OpFlush id =>
      (Store (upd (stored t) id (current t id)) (upd (pending t) id None)
         (upd (known_size t) id (str_size (default ""%string (current t id)))), RStatus OK)
  | OpGetattr id => (t, RSize OK (known_size t id))
  | OpSetattr id a => (Store (stored t) (pending t) (upd (known_size t) id (size a)), RStatus OK)
  end.
Fixpoint spec_run (t : store) (ops : list (Z * extent_op)) : list extent_result :=
  match ops with [] => [] | (_, op) :: ops => (spec_exec t op).2 :: spec_run (spec_exec t op).1 ops end.

(** Extents are shorter than 4 GB. *)
Definition op_ok (op : extent_op) : Prop := match op with OpPut _ buf => str_size buf < 2 ^ 32 | _ => True end.

Lemma substring_all b n : (String.length b <= n)%nat -> String.substring 0 n b = b.
Proof.
  revert n. induction b as [|x b IH]; intros [|n] Hn; cbn in *; try done; [lia|]. f_equal. apply IH. lia.
Qed.

Lemma attr_of_insert m id a id' : attr_of (<[id := a]> m) id' = if decide (id = id') then a else attr_of m id'.
Proof. unfold attr_of. rewrite lookup_insert. by case_decide. Qed.

Lemma es_get_content s id now : let '(s', ret, b) := es_get s id now in
  es_extents s' = es_extents s /\ (forall i, server_content s' i = server_content s i) /\
  match server_content s id with Some x => ret = OK /\ b = x | None => ret = NOENT end.
Proof.
  unfold es_get. destruct (es_extents s !! id) as [b|] eqn:Hb.
  - split; [done|]. split; [|unfold server_content; by rewrite Hb]. intros i. unfold server_content. cbn.
    rewrite attr_of_insert. by case_decide; subst.
  - split; [done|]. split; [done|]. unfold server_content. by rewrite Hb.
Qed.

Lemma es_getattr_content s id : let '(s', ret, a) := es_getattr s id in
  es_extents s' = es_extents s /\ ret = OK /\ (forall i, server_content s' i = server_content s i).
Proof.
  cbn. split; [done|]. split; [done|]. intros i. unfold server_content. cbn. rewrite attr_of_insert. by case_decide; subst.
Qed.

Lemma es_put_content s id buf now : str_size buf < 2 ^ 32 ->
  forall i, server_content (es_put s id buf now).1 i = if decide (i = id) then Some buf else server_content s i.
Proof.
  intros Hsz i. unfold server_content. cbn. rewrite lookup_insert, attr_of_insert.
  destruct (decide (id = i)) as [<-|Hne]; [rewrite decide_True by done|by rewrite decide_False].
  cbn. f_equal. apply substring_all. unfold str_size in *. rewrite wrap_small by lia. lia.
Qed.

Lemma server_content_None s id : server_content s id = None <-> es_extents s !! id = None.
Proof. unfold server_content. by destruct (es_extents s !! id). Qed.

Lemma es_remove_content s id : is_Some (es_extents s !! id) -> (es_remove s id).2 = OK /\
  forall i, server_content (es_remove s id).1 i = if decide (i = id) then None else server_content s i.
Proof.
  intros [b Hb]. unfold es_remove. rewrite Hb. split; [done|]. intros i. cbn. unfold server_content. cbn.
  destruct (decide (i = id)) as [->|Hne]; [by rewrite lookup_delete_eq|].
  rewrite lookup_delete_ne by done. unfold attr_of. by rewrite lookup_delete_ne.
Qed.

(** Same extents and contents at the server, same cache up to attributes. *)
Lemma cache_same c s c' s' : cache_inv c s -> ec_extents c' = ec_extents c -> ec_dirty c' = ec_dirty c ->
  ec_removed c' = ec_removed c -> es_extents s' = es_extents s ->
  (forall i, server_content s' i = server_content s i) ->
  cache_inv c' s' /\ forall i, content c' s' i = content c s i.
Proof.
  intros [Hd Hc Hr] He Hdd Hrr Hs Hsc. split.
  - split; intros i; rewrite ?He, ?Hdd, ?Hrr, ?Hs, ?Hsc; auto.
  - intros i. unfold content. by rewrite He, Hdd, Hrr, Hsc.
Qed.

Lemma get_refines c s id now : cache_inv c s -> id ∉ ec_removed c -> exists c' s' ret b,
  ec_get c s id now = Some (c', s', ret, b) /\ cache_inv c' s' /\ (forall i, content c' s' i = content c s i) /\
  match content c s id with Some x => ret = OK /\ b = x | None => ret = NOENT end.
Proof.
  intros Hi Hrem. unfold ec_get. destruct (ec_extents c !! id) as [b|] eqn:Hb.
  - assert (Hcont : content c s id = Some b).
    { unfold content. case_bool_decide as Hd; [done|]. rewrite bool_decide_eq_false_2 by done. by apply (ci_clean _ _ Hi). }
    rewrite Hcont. destruct (ec_attrs c !! id) as [a|]; [by exists c, s, OK, b|].
    pose proof (es_getattr_content s id) as Hg. destruct (es_getattr s id) as [[s' ret] a]. destruct Hg as (He & -> & Hs).
    eexists _, s', OK, b. split; [done|]. eapply and_assoc. split; [|done]. by apply (cache_same c s).
  - assert (Hnd : id ∉ ec_dirty c) by (intros Hd; destruct (ci_dirty _ _ Hi _ Hd) as (? & ? & _); congruence).
    assert (Hcont : content c s id = server_content s id).
    { unfold content. by rewrite !bool_decide_eq_false_2. }
    pose proof (es_get_content s id now) as Hg. destruct (es_get s id now) as [[s' ret] b]. destruct Hg as (He & Hs & Hret).
    rewrite Hcont. eexists _, s', ret, b. split; [done|].
    destruct (server_content s id) as [x|] eqn:Hx; [destruct Hret as [-> ->]|subst ret]; cbn.
    + destruct Hi as [Hd Hc Hr]. eapply and_assoc. split; [|done]. split; [split; cbn|].
      * intros i Hin. rewrite lookup_insert. case_decide; [by subst|by apply Hd].
      * intros i b' Hin. rewrite lookup_insert, Hs. case_decide as E; [subst i; congruence|by apply Hc].
      * intros i Hin. rewrite He. by apply Hr.
      * intros i. unfold content. cbn. rewrite Hs. case_bool_decide; [|done]. rewrite lookup_insert_ne; [done|]. by intros ->.
    + eapply and_assoc. split; [|done]. by apply (cache_same c s).
Qed.

Lemma put_refines c s id buf now : cache_inv c s -> str_size buf < 2 ^ 32 ->
  let '(c', s', ret) := ec_put c s id buf now in
  ret = OK /\ cache_inv c' s' /\ forall i, content c' s' i = if decide (i = id) then Some buf else content c s i.
Proof.
  intros [Hd Hc Hr] Hsz. unfold ec_put.
  assert (H : exists s' t, (match ec_attrs c !! id with
      | Some a => (s, OK, atime a)
      | None => let '(s, ret, a) := es_getattr s id in (s, ret, if ret =? OK then atime a else now)
      end) = (s', OK, t) /\ es_extents s' = es_extents s /\ forall i, server_content s' i = server_content s i).
  { destruct (ec_attrs c !! id); [by eexists _, _|]. pose proof (es_getattr_content s id) as Hg.
    destruct (es_getattr s id) as [[s' ret] a]. destruct Hg as (? & -> & ?). by eexists _, _. }
  destruct H as (s' & t & -> & He & Hs). split; [done|]. split; [split; cbn|].
  - intros i Hin. rewrite lookup_insert. case_decide; [by exists buf|]. apply Hd. set_solver.
  - intros i b Hin. rewrite lookup_insert_ne by set_solver. rewrite Hs. apply Hc. set_solver.
  - intros i Hin. rewrite He. destruct (Hr i) as [? ?]; [set_solver|]. split; [set_solver|done].
  - intros i. unfold content. cbn. rewrite Hs. destruct (decide (i = id)) as [->|Hne].
    + rewrite bool_decide_eq_true_2 by set_solver. by rewrite lookup_insert_eq.
    + rewrite (bool_decide_ext (i ∈ {[id]} ∪ ec_dirty c) (i ∈ ec_dirty c)) by set_solver.
      rewrite (bool_decide_ext (i ∈ ec_removed c ∖ {[id]}) (i ∈ ec_removed c)) by set_solver.
      by rewrite lookup_insert_ne.
Qed.

Lemma remove_refines c s id now : cache_inv c s -> id ∉ ec_removed c ->
  let '(c', s', ret) := ec_remove c s id now in
  cache_inv c' s' /\ (forall i, content c' s' i = if decide (i = id) then None else content c s i) /\
  ret = match content c s id with Some _ => OK | None => NOENT end.
Proof.
  intros Hi Hrem. unfold ec_remove. pose proof (es_get_content s id now) as Hg.
  destruct (es_get s id now) as [[s' ret] b]. destruct Hg as (He & Hs & Hret).
  destruct (negb (ret =? OK) && bool_decide (ec_extents c !! id = None)) eqn:E.
  - apply andb_true_iff in E as [Hne Hnone%bool_decide_eq_true].
    destruct (server_content s id) eqn:Hsc; [destruct Hret as [-> _]; done|].
    assert (Hnd : id ∉ ec_dirty c) by (intros Hd; destruct (ci_dirty _ _ Hi _ Hd) as (? & ? & _); congruence).
    assert (Hcont : content c s id = None) by (unfold content; by rewrite !bool_decide_eq_false_2).
    destruct (cache_same c s c s' Hi) as [Hinv Hsame]; try done. rewrite Hcont. split; [done|]. split; [|done].
    intros i. rewrite Hsame. case_decide; [by subst|done].
  - assert (Hcont : is_Some (content c s id)).
    { unfold content. destruct (decide (id ∈ ec_dirty c)) as [Hd|Hd].
      { rewrite bool_decide_eq_true_2 by done. by destruct (ci_dirty _ _ Hi _ Hd) as (? & -> & _). }
      rewrite !bool_decide_eq_false_2 by done. apply andb_false_iff in E as [E|E%bool_decide_eq_false].
      - destruct (server_content s id); [done|]. by subst ret.
      - destruct (ec_extents c !! id) as [x|] eqn:Hx; [|done]. by rewrite (ci_clean _ _ Hi _ _ Hd Hx). }
    destruct Hcont as [x Hcont]. rewrite Hcont. destruct Hi as [Hd Hc Hr]. split; [split; cbn|split; [|done]].
    + intros i Hin. rewrite lookup_delete_ne by set_solver. apply Hd. set_solver.
    + intros i b' Hin. rewrite Hs. intros Hl. apply lookup_delete_Some in Hl as [Hne Hl]. apply Hc; [set_solver|done].
    + intros i Hin. rewrite He. destruct (server_content s id) as [y|] eqn:Hsc; [destruct Hret as [-> _]|subst ret]; cbn in Hin.
      * apply elem_of_union in Hin as [->%elem_of_singleton|Hin]; [|destruct (Hr _ Hin); split; [set_solver|done]].
        split; [set_solver|]. destruct (es_extents s !! id) eqn:El; [done|]. apply server_content_None in El. congruence.
      * destruct (Hr _ Hin); split; [set_solver|done].
    + intros i. unfold content. cbn. rewrite Hs. destruct (decide (i = id)) as [->|Hne].
      * rewrite (bool_decide_eq_false_2 (id ∈ ec_dirty c ∖ {[id]})) by set_solver.
        destruct (server_content s id); [destruct Hret as [-> _]; cbn; by rewrite bool_decide_eq_true_2 by set_solver|].
        by match goal with |- (if ?b then _ else _) = _ => destruct b end.
      * rewrite (bool_decide_ext (i ∈ ec_dirty c ∖ {[id]}) (i ∈ ec_dirty c)) by set_solver.
        rewrite lookup_delete_ne by done. destruct (ret =? OK); [|done].
        by rewrite (bool_decide_ext (i ∈ {[id]} ∪ ec_removed c) (i ∈ ec_removed c)) by set_solver.
Qed.

(** What [flush] leaves: nothing cached, and the server has the contents. *)
Definition flushed (c : extent_client) (id : Z) : Prop :=
  (id ∉ ec_dirty c) /\ (id ∉ ec_removed c) /\ ec_extents c !! id = None /\ ec_attrs c !! id = None.

Lemma flush_refines c s id now : cache_inv c s -> exists c' s',
  ec_flush c s id now = Some (c', s', OK) /\ cache_inv c' s' /\ (forall i, content c' s' i = content c s i) /\
  flushed c' id /\ server_content s' id = content c s id.
Proof.
  intros [Hd Hc Hr]. unfold ec_flush. unfold flushed. unfold content at 3. case_bool_decide as Hdirty.
  - destruct (Hd _ Hdirty) as (b & Hb & Hsz). rewrite Hb. change (default ""%string (Some b)) with b.
    pose proof (es_put_content s id b now Hsz) as Hp.
    assert (Hpe : forall i, is_Some (es_extents s !! i) -> is_Some (es_extents (es_put s id b now).1 !! i)).
    { intros i Hi. cbn. rewrite lookup_insert. by case_decide. }
    assert (Hret : (es_put s id b now).2 = OK) by done.
    destruct (es_put s id b now) as [s' ret]. cbn in *. subst ret. eexists _, s'. split; [reflexivity|]. split; [split; cbn|].
    + intros i Hin. rewrite lookup_delete_ne by set_solver. apply Hd. set_solver.
    + intros i b' Hin Hl. apply lookup_delete_Some in Hl as [Hne Hl]. rewrite Hp, decide_False by done. apply Hc; [set_solver|done].
    + intros i Hin. destruct (Hr _ Hin). split; [set_solver|by apply Hpe].
    + assert (Hnr : id ∉ ec_removed c) by (intros Hin; by destruct (Hr _ Hin)).
      split; [|split; [|by rewrite Hp, decide_True]].
      2:{ cbn. rewrite !lookup_delete_eq. split_and!; [set_solver|done..]. }
      intros i. unfold content. cbn. rewrite Hp. destruct (decide (i = id)) as [->|Hne].
      * rewrite (bool_decide_eq_false_2 (id ∈ ec_dirty c ∖ {[id]})) by set_solver.
        rewrite (bool_decide_eq_false_2 (id ∈ ec_removed c)) by done. by rewrite bool_decide_eq_true_2.
      * rewrite (bool_decide_ext (i ∈ ec_dirty c ∖ {[id]}) (i ∈ ec_dirty c)) by set_solver. by rewrite lookup_delete_ne.
  - case_bool_decide as Hrm.
    + destruct (Hr _ Hrm) as [_ Hon]. destruct (es_remove_content s id Hon) as [Hret Hp].
      assert (Hpe : forall i, i <> id -> is_Some (es_extents s !! i) -> is_Some (es_extents (es_remove s id).1 !! i)).
      { intros i Hne Hi. unfold es_remove. destruct Hon as [? ->]. cbn. by rewrite lookup_delete_ne. }
      destruct (es_remove s id) as [s' ret]. cbn in *. subst ret. eexists _, s'. split; [reflexivity|]. split; [split; cbn|].
      * intros i Hin. rewrite lookup_delete_ne by set_solver. by apply Hd.
      * intros i b' Hin Hl. apply lookup_delete_Some in Hl as [Hne Hl]. rewrite Hp, decide_False by done. by apply Hc.
      * intros i Hin. destruct (Hr i); [set_solver|]. split; [done|]. apply Hpe; [set_solver|done].
      * split; [|split; [|by rewrite Hp, decide_True]].
        2:{ cbn. rewrite !lookup_delete_eq. split_and!; [done|set_solver|done..]. }
        intros i. unfold content. cbn. rewrite Hp. destruct (decide (i = id)) as [->|Hne].
        -- rewrite (bool_decide_eq_false_2 (id ∈ ec_dirty c)) by done.
           rewrite (bool_decide_eq_false_2 (id ∈ ec_removed c ∖ {[id]})) by set_solver. by rewrite bool_decide_eq_true_2.
        -- rewrite (bool_decide_ext (i ∈ ec_removed c ∖ {[id]}) (i ∈ ec_removed c)) by set_solver. by rewrite lookup_delete_ne.
    + eexists _, s. split; [done|]. split; [split; cbn|].
      * intros i Hin. rewrite lookup_delete_ne by set_solver. by apply Hd.
      * intros i b' Hin Hl. apply lookup_delete_Some in Hl as [Hne Hl]. by apply Hc.
      * done.
      * split; [|split; [cbn; by rewrite !lookup_delete_eq|done]]. intros i. unfold content. cbn.
        case_bool_decide; [|done]. rewrite lookup_delete_ne; [done|]. by intros ->.
Qed.

(** ** The refinement *)

(** The attributes at the server have the sizes of the extents. *)
Definition sizes_ok (s : extent_server) : Prop := forall id, size (attr_of (es_attrs s) id) = str_size (default ""%string (es_extents s !! id)).

Record represents (c : extent_client) (s : extent_server) (t : store) : Prop := {
  re_inv : cache_inv c s;
  re_sizes : sizes_ok s;
  re_stored id : stored t id = es_extents s !! id;
  re_pending id : pending t id = if bool_decide (id ∈ ec_dirty c) then Written <$> ec_extents c !! id
                                 else if bool_decide (id ∈ ec_removed c) then Some Removed else None;
  re_size id : known_size t id = size (match ec_attrs c !! id with Some a => a | None => attr_of (es_attrs s) id end) }.

Lemma server_content_sized s id : sizes_ok s -> server_content s id = es_extents s !! id.
Proof.
  intros Hs. unfold server_content. rewrite Hs. destruct (es_extents s !! id) as [b|]; [|done]. cbn. f_equal. apply substring_all. unfold str_size. lia.
Qed.

Lemma represents_current c s t id : represents c s t -> current t id = content c s id.
Proof.
  intros R. unfold current, content. rewrite (re_pending _ _ _ R), (server_content_sized s id (re_sizes _ _ _ R)), (re_stored _ _ _ R).
  case_bool_decide as Hd; [by destruct (ci_dirty _ _ (re_inv _ _ _ R) _ Hd) as (? & -> & _)|]. by case_bool_decide.
Qed.

(** What the extent is for [get], in the cache or at the server. *)
Lemma represents_visible c s t id : represents c s t ->
  visible t id = match ec_extents c !! id with Some b => Some b | None => es_extents s !! id end.
Proof.
  intros R. unfold visible. rewrite (re_pending _ _ _ R), (re_stored _ _ _ R).
  case_bool_decide as Hd; [by destruct (ci_dirty _ _ (re_inv _ _ _ R) _ Hd) as (? & -> & _)|].
  assert (Hc : es_extents s !! id = match ec_extents c !! id with Some b => Some b | None => es_extents s !! id end).
  { destruct (ec_extents c !! id) as [b|] eqn:E; [|done]. rewrite <- (server_content_sized s id (re_sizes _ _ _ R)). by apply (ci_clean _ _ (re_inv _ _ _ R)). }
  by case_bool_decide.
Qed.

(** Attributes change except for their sizes, and the cache may fill up with what the server has. *)
Lemma represents_attrs c s t c' s' : represents c s t -> cache_inv c' s' -> ec_dirty c' = ec_dirty c -> ec_removed c' = ec_removed c ->
  (forall id, id ∈ ec_dirty c -> ec_extents c' !! id = ec_extents c !! id) -> es_extents s' = es_extents s ->
  (forall id, size (attr_of (es_attrs s') id) = size (attr_of (es_attrs s) id)) ->
  (forall id a, ec_attrs c' !! id = Some a -> size a = known_size t id) -> (forall id, ec_attrs c' !! id = None -> ec_attrs c !! id = None) ->
  represents c' s' t.
Proof.
  intros R Hi Hd Hr He Hs Ha Hat Han. split.
  - done.
  - intros id. by rewrite Ha, Hs, (re_sizes _ _ _ R).
  - intros id. by rewrite Hs, (re_stored _ _ _ R).
  - intros id. rewrite Hd, Hr, (re_pending _ _ _ R). case_bool_decide as Hin; [by rewrite He|done].
  - intros id. destruct (ec_attrs c' !! id) as [a|] eqn:E; [symmetry; by apply Hat|]. by rewrite (re_size _ _ _ R), (Han _ E), Ha.
Qed.

Lemma attr_of_insert_size m id a i : size a = size (attr_of m id) -> size (attr_of (<[id := a]> m) i) = size (attr_of m i).
Proof. intros E. rewrite attr_of_insert. by case_decide; subst. Qed.

Lemma known_cached c s t id a : represents c s t -> ec_attrs c !! id = Some a -> size a = known_size t id.
Proof. intros R E. by rewrite (re_size _ _ _ R), E. Qed.
Lemma known_server c s t id : represents c s t -> ec_attrs c !! id = None -> size (attr_of (es_attrs s) id) = known_size t id.
Proof. intros R E. by rewrite (re_size _ _ _ R), E. Qed.

(** An attribute of the right size enters the cache. *)
Lemma known_insert c s t id a : represents c s t -> size a = known_size t id ->
  (forall i x, <[id := a]> (ec_attrs c) !! i = Some x -> size x = known_size t i) /\ (forall i, <[id := a]> (ec_attrs c) !! i = None -> ec_attrs c !! i = None).
Proof.
  intros R E. split; intros i.
  - intros x. rewrite lookup_insert. case_decide; [subst i; by intros [= <-]|by apply (known_cached c s)].
  - rewrite lookup_insert. by case_decide.
Qed.

Lemma get_represents c s t id now : represents c s t -> exists c' s' r, extent_exec c s now (OpGet id) = Some (c', s', r) /\
  represents c' s' t /\ r = (spec_exec t (OpGet id)).2.
Proof.
  intros R. pose proof (re_inv _ _ _ R) as Hi. cbn [extent_exec spec_exec snd]. unfold ec_get. rewrite (represents_visible c s t id R). destruct (ec_extents c !! id) as [b|] eqn:Hb.
  - destruct (ec_attrs c !! id) as [a|] eqn:Ea; [by exists c, s, (RData OK b)|]. unfold es_getattr, VERIFY. cbn [Z.eqb OK mbind option_bind]. eexists _, _, _. split; [done|]. split; [|done].
    destruct (known_insert c s t id (Attr now (mtime (attr_of (es_attrs s) id)) (ctime (attr_of (es_attrs s) id)) (size (attr_of (es_attrs s) id))) R (known_server c s t id R Ea)) as [K1 K2].
    eapply represents_attrs; [done| |done..| | |done|done].
    + destruct (es_getattr_content s id) as (_ & _ & Hc). by apply (cache_same c s).
    + done.
    + intros i. cbn. by apply attr_of_insert_size.
  - unfold es_get. destruct (es_extents s !! id) as [b|] eqn:Es; cbn [mbind option_bind Z.eqb OK NOENT]; [|by exists c, s, (RStatus NOENT)].
    assert (Hb' : String.substring 0 (Z.to_nat (size (attr_of (es_attrs s) id))) b = b).
    { rewrite (re_sizes _ _ _ R), Es. apply substring_all. unfold str_size. cbn. lia. }
    eexists _, _, _. split; [done|]. rewrite Hb'. split; [|done]. eapply represents_attrs; [done| |done|done| |done| |intros i x; by apply (known_cached c s)|done].
    + pose proof (es_get_content s id now) as Hg. unfold es_get in Hg. rewrite Es in Hg. destruct Hg as (_ & Hg & _). destruct Hi as [Hd Hc Hr]. split; cbn.
      * intros i Hin. rewrite lookup_insert. case_decide; [subst i; destruct (Hd _ Hin) as (? & ? & _); congruence|by apply Hd].
      * intros i x Hin. rewrite Hg, lookup_insert. case_decide as E; [subst i; intros [= <-]; by rewrite (server_content_sized s id (re_sizes _ _ _ R))|by apply Hc].
      * done.
    + intros i Hin. cbn. rewrite lookup_insert_ne; [done|]. intros ->. destruct (ci_dirty _ _ Hi _ Hin) as (? & ? & _). congruence.
    + intros i. cbn. by apply attr_of_insert_size.
Qed.

Lemma getattr_represents c s t id now : represents c s t -> exists c' s' r, extent_exec c s now (OpGetattr id) = Some (c', s', r) /\
  represents c' s' t /\ r = (spec_exec t (OpGetattr id)).2.
Proof.
  intros R. cbn [extent_exec spec_exec snd]. unfold ec_getattr. destruct (ec_attrs c !! id) as [a|] eqn:Ea.
  - eexists c, s, _. split; [done|]. by rewrite (known_cached c s t id a R Ea).
  - unfold es_getattr. cbn [Z.eqb OK]. eexists _, _, _. split; [done|]. split; [|by rewrite (known_server c s t id R Ea)].
    destruct (known_insert c s t id _ R (known_server c s t id R Ea)) as [K1 K2]. eapply represents_attrs; [done| |done..| |done|done].
    + destruct (es_getattr_content s id) as (_ & _ & Hc). apply (cache_same c s); try done. apply R.
    + intros i. cbn. by apply attr_of_insert_size.
Qed.

(** Something is written, removed or forgotten for one extent. *)
Lemma represents_one c s t c' s' t' id : represents c s t -> cache_inv c' s' -> sizes_ok s' ->
  (forall i, i <> id -> stored t' i = stored t i /\ pending t' i = pending t i /\ known_size t' i = known_size t i) ->
  (forall i, i <> id -> es_extents s' !! i = es_extents s !! i /\ attr_of (es_attrs s') i = attr_of (es_attrs s) i /\
     (i ∈ ec_dirty c' <-> i ∈ ec_dirty c) /\ (i ∈ ec_removed c' <-> i ∈ ec_removed c) /\ ec_extents c' !! i = ec_extents c !! i /\ ec_attrs c' !! i = ec_attrs c !! i) ->
  stored t' id = es_extents s' !! id ->
  pending t' id = (if bool_decide (id ∈ ec_dirty c') then Written <$> ec_extents c' !! id else if bool_decide (id ∈ ec_removed c') then Some Removed else None) ->
  known_size t' id = size (match ec_attrs c' !! id with Some a => a | None => attr_of (es_attrs s') id end) ->
  represents c' s' t'.
Proof.
  intros R Hi Hs Ht Hc H1 H2 H3. split; [done|done|..]; intros i; (destruct (decide (i = id)) as [->|Hne]; [done|]);
    destruct (Ht i Hne) as (T1 & T2 & T3); destruct (Hc i Hne) as (C1 & C2 & Hd & Hr & C3 & C4); rewrite ?T1, ?T2, ?T3, ?C1, ?C2, ?C3, ?C4.
  - apply R.
  - rewrite (re_pending _ _ _ R), (bool_decide_ext _ _ Hd), (bool_decide_ext _ _ Hr). done.
  - apply R.
Qed.

Lemma upd_spec {A} (f : Z -> A) id x : upd f id x id = x /\ forall i, i <> id -> upd f id x i = f i.
Proof. unfold upd. split; [by rewrite decide_True|intros i Hi; by rewrite decide_False]. Qed.

Ltac upd_solve := intros; cbn; rewrite ?(proj1 (upd_spec _ _ _)), ?(proj2 (upd_spec _ _ _)) by done; done.

Lemma put_represents c s t id buf now : represents c s t -> str_size buf < 2 ^ 32 -> exists c' s' r, extent_exec c s now (OpPut id buf) = Some (c', s', r) /\
  represents c' s' (spec_exec t (OpPut id buf)).1 /\ r = (spec_exec t (OpPut id buf)).2.
Proof.
  intros R Hsz. cbn [extent_exec spec_exec fst snd]. pose proof (put_refines c s id buf now (re_inv _ _ _ R) Hsz) as Hp. unfold ec_put in *.
  assert (Hat : exists s' x, (match ec_attrs c !! id with Some a => (s, OK, atime a)
      | None => let '(s, ret, a) := es_getattr s id in (s, ret, if ret =? OK then atime a else now) end) = (s', OK, x) /\
      es_extents s' = es_extents s /\ forall i, attr_of (es_attrs s') i = attr_of (es_attrs s) i).
  { destruct (ec_attrs c !! id); [by eexists _, _|]. eexists _, _. split; [done|]. split; [done|]. intros i. cbn. rewrite attr_of_insert. by case_decide; subst. }
  destruct Hat as (s' & x & Hat & He & Ha). rewrite Hat in *. eexists _, _, _. split; [done|]. split; [|done].
  eapply (represents_one c s t _ s' _ id); [done|apply Hp|intros i; rewrite Ha, He; apply R|upd_solve| | | |].
  - intros i Hne. cbn. rewrite He, Ha, !lookup_insert_ne by done. split_and!; try done; set_solver.
  - cbn. rewrite He. apply R.
  - cbn. rewrite (proj1 (upd_spec _ _ _)), bool_decide_eq_true_2 by set_solver. by rewrite lookup_insert_eq.
  - cbn. rewrite (proj1 (upd_spec _ _ _)), lookup_insert_eq. cbn. rewrite wrap_small; [done|]. unfold str_size in *. lia.
Qed.

Lemma sizes_touch s id a : sizes_ok s -> size a = size (attr_of (es_attrs s) id) -> sizes_ok (ExtentServer (es_extents s) (<[id := a]> (es_attrs s))).
Proof. intros Hs E i. cbn. by rewrite attr_of_insert_size. Qed.

Lemma ec_remove_inv c s id now : cache_inv c s -> let '(c', s', _) := ec_remove c s id now in cache_inv c' s'.
Proof.
  intros Hi. unfold ec_remove. pose proof (es_get_content s id now) as Hg. destruct (es_get s id now) as [[s' ret] b]. destruct Hg as (He & Hs & Hret).
  destruct (negb (ret =? OK) && bool_decide (ec_extents c !! id = None)); [by apply (cache_same c s)|]. destruct Hi as [Hd Hc Hr]. split; cbn.
  - intros i Hin. rewrite lookup_delete_ne by set_solver. apply Hd. set_solver.
  - intros i x Hin Hl. rewrite Hs. apply lookup_delete_Some in Hl as [Hne Hl]. apply Hc; [set_solver|done].
  - intros i Hin. rewrite He. destruct (server_content s id) as [y|] eqn:Hsc; [destruct Hret as [-> _]|subst ret]; cbn in Hin.
    + destruct (decide (i = id)) as [->|Hne]; [|destruct (Hr i); [set_solver|]; split; [set_solver|done]].
      split; [set_solver|]. destruct (es_extents s !! id) eqn:El; [done|]. apply server_content_None in El. congruence.
    + destruct (Hr _ Hin). split; [set_solver|done].
Qed.

Lemma remove_represents c s t id now : represents c s t -> exists c' s' r, extent_exec c s now (OpRemove id) = Some (c', s', r) /\
  represents c' s' (spec_exec t (OpRemove id)).1 /\ r = (spec_exec t (OpRemove id)).2.
Proof.
  intros R. cbn [extent_exec spec_exec]. pose proof (ec_remove_inv c s id now (re_inv _ _ _ R)) as Hi. unfold ec_remove in *. rewrite (represents_visible c s t id R), (re_stored _ _ _ R).
  assert (Hnr : forall i, es_extents s !! i = None -> i ∉ ec_removed c) by (intros i E Hin; destruct (ci_removed _ _ (re_inv _ _ _ R) _ Hin) as [_ [? ?]]; congruence).
  unfold es_get in *. destruct (es_extents s !! id) as [b|] eqn:Es; cbn [negb andb Z.eqb OK NOENT] in *.
  - set (a' := Attr now _ _ _) in *. assert (exists x, match ec_extents c !! id with Some b => Some b | None => Some b end = Some x) as [x ->] by (destruct (ec_extents c !! id); by eexists).
    eexists _, _, _. split; [done|]. split; [|done].
    eapply (represents_one c s t _ _ _ id); [done|exact Hi|apply sizes_touch; [apply R|done]|upd_solve| | | |].
    + intros i Hne. cbn. rewrite lookup_delete_ne, attr_of_insert, decide_False by done. split_and!; try done; set_solver.
    + cbn. apply R.
    + cbn. rewrite (proj1 (upd_spec _ _ _)), bool_decide_eq_false_2, bool_decide_eq_true_2 by set_solver. done.
    + cbn. rewrite (re_size _ _ _ R). destruct (ec_attrs c !! id); [done|]. rewrite attr_of_insert, decide_True by done. done.
  - destruct (ec_extents c !! id) as [b|] eqn:Eb; cbn in Hi |- *.
    + eexists _, _, _. split; [done|]. split; [|done].
      eapply (represents_one c s t _ _ _ id); [done|exact Hi|apply R|upd_solve| | | |].
      * intros i Hne. cbn. rewrite lookup_delete_ne by done. split_and!; try done; set_solver.
      * cbn. apply R.
      * cbn. rewrite (proj1 (upd_spec _ _ _)), !bool_decide_eq_false_2; [done|by apply Hnr|set_solver].
      * cbn. apply R.
    + by eexists _, _, _.
Qed.

Lemma flush_represents c s t id now : represents c s t -> exists c' s' r, extent_exec c s now (OpFlush id) = Some (c', s', r) /\
  represents c' s' (spec_exec t (OpFlush id)).1 /\ r = (spec_exec t (OpFlush id)).2.
Proof.
  intros R. cbn [extent_exec spec_exec fst snd]. destruct (flush_refines c s id now (re_inv _ _ _ R)) as (c' & s' & Hf & Hi & _ & (Hf1 & Hf2 & Hf3 & Hf4) & Hsc).
  assert (Hs : sizes_ok s').
  { pose proof (re_sizes _ _ _ R) as Hs. unfold ec_flush, VERIFY in Hf. case_bool_decide as Hd.
    - cbn in Hf. injection Hf as _ <-. intros i. cbn. rewrite attr_of_insert, lookup_insert. destruct (ci_dirty _ _ (re_inv _ _ _ R) _ Hd) as (b & -> & Hb).
      case_decide; [|apply Hs]. cbn. rewrite wrap_small; [done|]. unfold str_size in *. lia.
    - unfold es_remove in Hf. case_bool_decide as Hr; [|by injection Hf as _ <-]. destruct (es_extents s !! id); [|done]. cbn in Hf. injection Hf as _ <-.
      intros i. cbn. unfold attr_of. rewrite !lookup_delete. case_decide; [done|apply Hs]. }
  rewrite Hf. cbn [mbind option_bind]. eexists c', s', _. split; [done|]. split; [|done].
  eapply (represents_one c s t _ _ _ id); [done|exact Hi|exact Hs|upd_solve| | | |].
  - intros i Hne. unfold ec_flush, es_remove, VERIFY in Hf. repeat case_bool_decide; [| |]; cbn in Hf; [|destruct (es_extents s !! id); [|done]; cbn in Hf|]; injection Hf as <- <-; cbn;
      unfold attr_of; rewrite ?lookup_delete_ne, ?lookup_insert_ne by done; split_and!; try done; set_solver.
  - cbn. rewrite (proj1 (upd_spec _ _ _)), (represents_current c s t id R), <- Hsc. by apply server_content_sized.
  - cbn. by rewrite (proj1 (upd_spec _ _ _)), !bool_decide_eq_false_2.
  - cbn. rewrite (proj1 (upd_spec _ _ _)), Hf4, Hs, (represents_current c s t id R), <- Hsc. by rewrite (server_content_sized s' id Hs).
Qed.

Lemma exec_represents c s t now op : represents c s t -> op_ok op -> exists c' s' r, extent_exec c s now op = Some (c', s', r) /\
  represents c' s' (spec_exec t op).1 /\ r = (spec_exec t op).2.
Proof.
  intros R Hok. destruct op as [id|id buf|id|id|id|id a]; [by apply get_represents|by apply put_represents|by apply remove_represents|by apply flush_represents|by apply getattr_represents|].
  cbn. eexists _, s, _. split; [done|]. split; [|done]. eapply (represents_one c s t _ _ _ id); [done| |apply R|upd_solve| | | |]; try apply R.
  - apply (cache_same c s); try done. apply R.
  - intros i Hne. cbn. by rewrite lookup_insert_ne.
  - cbn. rewrite (proj1 (upd_spec _ _ _)). by rewrite lookup_insert_eq.
Qed.

(** The empty root directory. *)
Definition store_new : store := Store (fun id => if decide (id = 1) then Some ""%string else None) (fun _ => None) (fun _ => 0).

(** C11. The write-back cache refines a store with pending changes: whatever sequence of get, put,
    remove, flush, getattr and setattr a client calls on a new server, with extents shorter
    than 4 GB, all calls succeed or answer NOENT exactly as that store does, with its data
    and its sizes.  In it [put] and [remove] leave a change pending that [flush] writes back,
    [get] returns what was put, [setattr] and [put] set the size that [getattr] returns until
    [flush], when it is that of the contents again; and an extent that was removed and not yet
    flushed is, as the code has it, still found by [get] and [remove].  (The times among the
    attributes are left out.) *)
Theorem extent_cache_refines ops : Forall (fun x => op_ok x.2) ops -> extent_run ec_new es_new ops = Some (spec_run store_new ops).
Proof.
  assert (R : represents ec_new es_new store_new).
  { split; [split; cbn; intros; set_solver| | |done|done]; intros id; cbn; (destruct (decide (id = 1)) as [->|Hne]; [done|]); by rewrite lookup_singleton_ne. }
  revert R. generalize ec_new, es_new, store_new. induction ops as [|[now op] ops IH]; intros c s t R Hok; [done|]. apply Forall_cons in Hok as [Hop Hok].
  cbn [extent_run spec_run]. destruct (exec_represents c s t now op R Hop) as (c' & s' & r & -> & R' & ->). cbn [mbind option_bind]. by rewrite (IH c' s' _ R' Hok).
Qed.

Lemma extent_cache_refines_witness :
  extent_run ec_new es_new [(1, OpPut 5 "abc"); (2, OpFlush 5); (3, OpRemove 5); (4, OpGet 5); (5, OpFlush 5); (6, OpGet 5); (7, OpGetattr 5)] =
  Some [RStatus OK; RStatus OK; RStatus OK; RData OK "abc"; RStatus OK; RStatus NOENT; RSize OK 0].
Proof.
  rewrite (extent_cache_refines [(1, OpPut 5 "abc"); (2, OpFlush 5); (3, OpRemove 5); (4, OpGet 5); (5, OpFlush 5); (6, OpGet 5); (7, OpGetattr 5)]).
  - vm_compute. reflexivity.
  - repeat constructor.
Defined.

(** [flush], which runs before a lock goes back to the lock server, leaves
    nothing of the extent in the cache, and the server alone then has the contents
    that client and server stood for, so the next holder of the lock reads them. *)
Theorem flush_writes_back c s id now : cache_inv c s -> exists c' s',
  ec_flush c s id now = Some (c', s', OK) /\ flushed c' id /\ server_content s' id = content c s id /\
  exists c2 s2 ret b, ec_get ec_new s' id now = Some (c2, s2, ret, b) /\
    match content c s id with Some x => ret = OK /\ b = x | None => ret = NOENT end.
Proof.
  intros Hi. destruct (flush_refines c s id now Hi) as (c' & s' & Hf & _ & _ & Hfl & Hsc).
  exists c', s'. split; [done|]. split; [done|]. split; [done|].
  destruct (get_refines ec_new s' id now) as (c3 & s3 & ret & b & Hg & _ & _ & Hr).
  - split; cbn; intros; set_solver.
  - cbn. set_solver.
  - exists c3, s3, ret, b. split; [done|]. by rewrite <- Hsc.
Qed.

(** A changed size is lost: after [setattr] on an extent that is cached but not
    written, [flush] sends nothing to the server and drops the attributes, so a later
    [getattr] returns the server's old ones. *)
Theorem setattr_lost_at_flush c s id a now : id ∉ ec_dirty c -> id ∉ ec_removed c ->
  exists c', ec_flush (ec_setattr c id a).1 s id now = Some (c', s, OK) /\
    (ec_getattr c' s id).2 = attr_of (es_attrs s) id.
Proof.
  intros Hd Hr. unfold ec_flush. cbn. rewrite !bool_decide_eq_false_2 by done. eexists. split; [reflexivity|].
  unfold ec_getattr. cbn. by rewrite lookup_delete_eq.
Qed.

(** The server does not forget what was cut off: an extent that is shrunk and
    grown again by [setattr] shows its old bytes, not zeros. *)
Theorem regrown_extent_shows_old_bytes : exists s1 s2 s3,
  es_put es_new 5 "abcdef" 1 = (s1, OK) /\ es_setattr s1 5 (Attr 0 0 0 2) 2 = (s2, OK) /\
  server_content s2 5 = Some "ab"%string /\
  es_setattr s2 5 (Attr 0 0 0 4) 3 = (s3, OK) /\ server_content s3 5 = Some "abcd"%string.
Proof. do 3 eexists. split_and!; vm_compute; reflexivity. Qed.

(** A cache with one clean, one written and one removed extent. *)
Definition server_abc : extent_server :=
  ExtentServer (<[5 := "abc"%string]> {[6 := "x"%string]}) (<[5 := Attr 1 1 1 3]> {[6 := Attr 1 1 1 1]}).
Definition working : extent_client :=
  ExtentClient (<[5 := "abc"%string]> {[7 := "new"%string]}) {[7]} ∅ {[7]} {[6]}.

Lemma working_inv : cache_inv working server_abc.
Proof.
  split; cbn.
  - intros id ->%elem_of_singleton. exists "new"%string. split; [done|vm_compute; reflexivity].
  - intros id b Hd. rewrite lookup_insert, lookup_singleton. case_decide as E; [intros [= <-]; subst; reflexivity|].
    case_decide; [subst; set_solver|done].
  - intros id ->%elem_of_singleton. split; [set_solver|]. by eexists.
Qed.

Lemma flush_writes_back_witness : exists c' s',
  ec_flush working server_abc 7 9 = Some (c', s', OK) /\ server_content s' 7 = Some "new"%string.
Proof.
  destruct (flush_writes_back working server_abc 7 9 working_inv) as (c' & s' & Hf & _ & Hs & _).
  exists c', s'. split; [exact Hf|exact Hs].
Defined.

Lemma setattr_lost_at_flush_witness : exists c',
  ec_flush (ec_setattr working 5 (Attr 0 0 0 1)).1 server_abc 5 9 = Some (c', server_abc, OK) /\
  (ec_getattr c' server_abc 5).2 = Attr 1 1 1 3.
Proof.
  apply (setattr_lost_at_flush working server_abc 5 (Attr 0 0 0 1) 9); cbn; set_solver.
Defined.
