(* ===== verification/Yfs.v ===== *)
(** * The file system client

    Models src/mit_6.824/yfs_client.cc: inode numbers, directories as strings, and the
    file operations over the extent client, under the locks of the caching lock client.
    The tokenizer of the boost library is a parameter.  [revoked t l] tells whether the
    lock [l] has been revoked when it is given up in the [t]-th release: then the lock client
    calls [dorelease], which flushes the extent.  A lock that is revoked while nobody
    holds it is returned at once ([lc_revoke]). *)

From Stdlib Require Import ZArith Lia Ascii String.
From stdpp Require Import base list strings gmap sets.
From S2P Require Import Prelude Marshall Protocols IoStream Extent.

Local Open Scope Z_scope.
Local Open Scope cpp_scope.

Module yfs_status.
Definition OK : Z := 0.
Definition RPCERR : Z := 1.
Definition NOENT : Z := 2.
Definition IOERR : Z := 3.
Definition EXIST : Z := 4.
End yfs_status.
Import yfs_status.

Definition FILE_BASE : Z := 2147483648.
Definition isfile (inum : Z) : bool := negb (Z.land inum FILE_BASE =? 0).
Definition isdir (inum : Z) : bool := negb (isfile inum).

Record dirent := Dirent { d_name : string; d_inum : Z }.
#[export] Instance dirent_eq_dec : EqDecision dirent.
Proof. solve_decision. Defined.

(** [y_clock] counts the releases; no code reads it. *)
Record yfs := Yfs { y_ec : extent_client; y_srv : extent_server; y_used : gset Z; y_held : list Z; y_clock : nat }.

Section YfsClient.
(** [uninit] stands for variables the code does not initialise. *)
Context (tokenize : string -> list string) (revoked : nat -> Z -> bool) (uninit : Z) (now : Z).

(** ** Locks *)

(** Acquiring a lock twice waits for itself for ever: [None]. *)
Definition lc_acquire (y : yfs) (l : Z) : option yfs :=
  if bool_decide (l ∈ y_held y) then None else Some (Yfs (y_ec y) (y_srv y) (y_used y) (l :: y_held y) (y_clock y)).

Fixpoint remove_lock (l : Z) (held : list Z) : list Z :=
  match held with
  | [] => []
  | x :: held => if x =? l then held else x :: remove_lock l held
  end.

(** [lock_client_cache::release], with [lock_release_flusher::dorelease]; nothing
    happens to a lock that is not held. *)
Definition lc_release (y : yfs) (l : Z) : option yfs :=
  let held := remove_lock l (y_held y) in
  if negb (bool_decide (l ∈ y_held y)) then Some y
  else if revoked (y_clock y) l then
    '(ec, srv, _) ← ec_flush (y_ec y) (y_srv y) l now; Some (Yfs ec srv (y_used y) held (S (y_clock y)))
  else Some (Yfs (y_ec y) (y_srv y) (y_used y) held (S (y_clock y))).

(** [revoke_handler] of the lock client between two operations: a lock that nobody holds
    is given back, with [dorelease]. *)
Definition lc_revoke (y : yfs) (l : Z) : option yfs :=
  if bool_decide (l ∈ y_held y) then Some y
  else '(ec, srv, _) ← ec_flush (y_ec y) (y_srv y) l now; Some (Yfs ec srv (y_used y) (y_held y) (y_clock y)).

(** ** Extents *)

Definition y_get (y : yfs) (id : Z) : option (yfs * Z * string) :=
  '(ec, srv, ret, b) ← ec_get (y_ec y) (y_srv y) id now; Some (Yfs ec srv (y_used y) (y_held y) (y_clock y), ret, b).
Definition y_put (y : yfs) (id : Z) (buf : string) : yfs * Z :=
  let '(ec, srv, ret) := ec_put (y_ec y) (y_srv y) id buf now in (Yfs ec srv (y_used y) (y_held y) (y_clock y), ret).
Definition y_remove (y : yfs) (id : Z) : yfs * Z :=
  let '(ec, srv, ret) := ec_remove (y_ec y) (y_srv y) id now in (Yfs ec srv (y_used y) (y_held y) (y_clock y), ret).
Definition y_getattr (y : yfs) (id : Z) : yfs * Z * extent_protocol.attr :=
  let '(ec, srv, ret, a) := ec_getattr (y_ec y) (y_srv y) id in (Yfs ec srv (y_used y) (y_held y) (y_clock y), ret, a).
Definition y_setattr (y : yfs) (id : Z) (a : extent_protocol.attr) : yfs * Z :=
  let '(ec, ret) := ec_setattr (y_ec y) id a in (Yfs ec (y_srv y) (y_used y) (y_held y) (y_clock y), ret).

(** ** Directories as strings *)

Definition n2i (n : string) : Z := (read_number 64 (open_stream (bytes_of n)) uninit).2.
Definition i2n (inum : Z) : string := str_of (print_unsigned inum).

(** [find(":")]: the position, or [npos]. *)
Fixpoint find_colon (s : string) (i : Z) : Z :=
  match s with
  | EmptyString => 2 ^ 64 - 1
  | String c s => if (c =? ":")%char then i else find_colon s (i + 1)
  end.

(** One token of a directory.  [unsigned pos] cuts [npos] to 32 bits, so the assertion
    that follows never fails; [None] is [substr] beyond the end. *)
Definition parse_entry (tok : string) : option dirent :=
  let pos := wrap 32 (find_colon tok 0) in
  let from := wrap 32 (pos + 1) in
  VERIFY! negb (pos =? 2 ^ 64 - 1) ;;
  VERIFY! (from <=? str_size tok) ;;
  Some (Dirent (String.substring 0 (Z.to_nat pos) tok)
          (n2i (String.substring (Z.to_nat from) (Z.to_nat (str_size tok - from)) tok))).

Fixpoint parse_entries (toks : list string) : option (list dirent) :=
  match toks with
  | [] => Some []
  | t :: toks => d ← parse_entry t; ds ← parse_entries toks; Some (d :: ds)
  end.

Definition readdir_internal (y : yfs) (inum : Z) : option (yfs * Z * list dirent) :=
  '(y, ret, buf) ← y_get y inum;
  if negb (ret =? extent_protocol.OK) then Some (y, IOERR, [])
  else ds ← parse_entries (tokenize buf); Some (y, OK, ds).

Definition entry_str (d : dirent) : string := String.append (String.append (d_name d) ":") (i2n (d_inum d)).
Fixpoint dir_string (ds : list dirent) : string :=
  match ds with
  | [] => ""
  | [d] => entry_str d
  | d :: ds => String.append (String.append (entry_str d) ";") (dir_string ds)
  end.

Definition writedir (y : yfs) (inum : Z) (ds : list dirent) : yfs * Z :=
  let '(y, ret) := y_put y inum (dir_string ds) in
  (y, if negb (ret =? extent_protocol.OK) then IOERR else OK).

Definition has_name (name : string) (ds : list dirent) : bool :=
  existsb (fun d => String.eqb name (d_name d)) ds.

(** ** New inode numbers *)

(** [rands] is what [rand()] returns after [srand(getpid())]; [None] if no number of
    it will do. *)
Fixpoint new_uniq_number (used : gset Z) (rands : list Z) : option Z :=
  match rands with
  | [] => None
  | x :: rands =>
      let remain := x mod FILE_BASE in
      if (remain <=? 1) || bool_decide (remain ∈ used) then new_uniq_number used rands else Some remain
  end.
Definition y_new_number (y : yfs) (rands : list Z) : option (yfs * Z) :=
  n ← new_uniq_number (y_used y) rands; Some (Yfs (y_ec y) (y_srv y) ({[n]} ∪ y_used y) (y_held y) (y_clock y), n).

(** ** Operations *)

Definition create_body (y : yfs) (parent : Z) (name : string) (ino : Z) : option (yfs * Z) :=
  '(y, r, ds) ← readdir_internal y parent;
  if negb (r =? OK) then Some (y, r)
  else if has_name name ds then Some (y, EXIST)
  else
    let '(y, ret) := y_put y ino "" in
    if negb (ret =? extent_protocol.OK) then Some (y, IOERR)
    else Some (writedir y parent (ds ++ [Dirent name ino])).

Definition create (y : yfs) (parent : Z) (name : string) (rands : list Z) : option (yfs * Z * Z) :=
  y ← lc_acquire y parent;
  '(y, n) ← y_new_number y rands;
  let ino := FILE_BASE + n in
  y ← lc_acquire y ino;
  '(y, r) ← create_body y parent name ino;
  y ← lc_release y parent;
  y ← lc_release y ino;
  Some (y, r, ino).

Fixpoint find_name (name : string) (ds : list dirent) : option (nat * dirent) :=
  match ds with
  | [] => None
  | d :: ds => if String.eqb name (d_name d) then Some (O, d) else '(i, e) ← find_name name ds; Some (S i, e)
  end.

(** [unlink]; a name that is not there makes the code use [dirents[dirents.size()]]. *)
Definition unlink (y : yfs) (parent : Z) (name : string) : option (yfs * Z) :=
  y ← lc_acquire y parent;
  '(y, r, ds) ← readdir_internal y parent;
  if negb (r =? OK) then y ← lc_release y parent; Some (y, NOENT)
  else
    '(i, d) ← find_name name ds;
    y ← lc_acquire y (d_inum d);
    let '(y, r, gone) :=
      if isdir (d_inum d) then (y, NOENT, false)
      else
        let '(y, ret) := y_remove y (d_inum d) in
        if negb (ret =? extent_protocol.OK) then (y, IOERR, false)
        else
          let '(y, ret) := writedir y parent (delete i ds) in
          (y, if negb (ret =? OK) then IOERR else OK, true) in
    y ← lc_release y parent;
    (** after the erase, [dirents[i]] is the entry that followed *)
    d' ← (if gone then delete i ds !! i else Some d);
    y ← lc_release y (d_inum d');
    Some (y, r).

Definition mkdir (y : yfs) (parent : Z) (name : string) (rands : list Z) : option (yfs * Z * Z) :=
  y ← lc_acquire y parent;
  '(y, r, ds) ← readdir_internal y parent;
  if negb (r =? OK) then y ← lc_release y parent; Some (y, NOENT, uninit)
  else if has_name name ds then y ← lc_release y parent; Some (y, EXIST, uninit)
  else
    '(y, ino) ← y_new_number y rands;
    y ← lc_acquire y ino;
    let '(y, ret) := y_put y ino "" in
    let '(y, r) :=
      if negb (ret =? extent_protocol.OK) then (y, IOERR)
      else let '(y, ret) := writedir y parent (ds ++ [Dirent name ino]) in
           (y, if negb (ret =? OK) then IOERR else OK) in
    y ← lc_release y parent;
    y ← lc_release y ino;
    Some (y, r, ino).

Definition readdir (y : yfs) (inum : Z) : option (yfs * Z * list dirent) :=
  y ← lc_acquire y inum;
  '(y, r, ds) ← readdir_internal y inum;
  y ← lc_release y inum;
  Some (y, r, ds).

(** [read]; [None] is the exception of [substr] for an offset beyond the end. *)
Definition read (y : yfs) (inum : Z) (size off : Z) : option (yfs * Z * string) :=
  y ← lc_acquire y inum;
  '(y, ret, tmpbuf) ← y_get y inum;
  if negb (ret =? extent_protocol.OK) then y ← lc_release y inum; Some (y, IOERR, ""%string)
  else
    VERIFY! (off <=? str_size tmpbuf) ;;
    let buf := String.substring (Z.to_nat off) (Z.to_nat size) tmpbuf in
    y ← lc_release y inum;
    Some (y, OK, buf).

(** The new contents when [buf] is written at [off]. *)
Definition overwrite (tmpbuf buf : string) (off : Z) : string :=
  if off <=? str_size tmpbuf then
    String.append (String.append (String.substring 0 (Z.to_nat off) tmpbuf) buf)
      (String.substring (Z.to_nat (off + str_size buf)) (Z.to_nat (str_size tmpbuf)) tmpbuf)
  else String.append (String.append tmpbuf (zeros (off - str_size tmpbuf))) buf.

(** [write] of the whole buffer; the times of [a] are not initialised. *)
Definition write (y : yfs) (inum : Z) (buf : string) (off : Z) : option (yfs * Z) :=
  y ← lc_acquire y inum;
  '(y, ret, tmpbuf) ← y_get y inum;
  let '(y, r) :=
    if negb (ret =? extent_protocol.OK) then (y, IOERR)
    else
      let tmpbuf := overwrite tmpbuf buf off in
      let '(y, ret) := y_put y inum tmpbuf in
      if negb (ret =? extent_protocol.OK) then (y, IOERR)
      else
        let '(y, ret) := y_setattr y inum (extent_protocol.Attr uninit uninit uninit (wrap 32 (str_size tmpbuf))) in
        (y, if negb (ret =? extent_protocol.OK) then IOERR else OK) in
  y ← lc_release y inum;
  Some (y, r).

Record fileinfo := FileInfo { fi_size : Z; fi_atime : Z; fi_mtime : Z; fi_ctime : Z }.
Definition getfile (y : yfs) (inum : Z) : option (yfs * Z * option fileinfo) :=
  y ← lc_acquire y inum;
  let '(y, ret, a) := y_getattr y inum in
  let '(r, fin) :=
    if negb (ret =? extent_protocol.OK) then (IOERR, None)
    else (OK, Some (FileInfo (extent_protocol.size a) (extent_protocol.atime a) (extent_protocol.mtime a)
                      (extent_protocol.ctime a))) in
  y ← lc_release y inum;
  Some (y, r, fin).

Record dirinfo := DirInfo { di_atime : Z; di_mtime : Z; di_ctime : Z }.
Definition getdir (y : yfs) (inum : Z) : option (yfs * Z * option dirinfo) :=
  y ← lc_acquire y inum;
  let '(y, ret, a) := y_getattr y inum in
  let '(r, din) :=
    if negb (ret =? extent_protocol.OK) then (IOERR, None)
    else (OK, Some (DirInfo (extent_protocol.atime a) (extent_protocol.mtime a) (extent_protocol.ctime a))) in
  y ← lc_release y inum;
  Some (y, r, din).

Definition yfs_setattr (y : yfs) (inum : Z) (st : extent_protocol.attr) : option (yfs * Z) :=
  y ← lc_acquire y inum;
  let '(y, ret) := y_setattr y inum st in
  y ← lc_release y inum;
  Some (y, if negb (ret =? extent_protocol.OK) then IOERR else OK).

(** ** A directory can be read back *)

(** Names of entries: no separators.  The tokens of a directory string are short. *)
Definition clean (c : ascii) : bool := negb (c =? ":")%char && negb (c =? ";")%char.
Definition name_ok (name : string) : Prop :=
  Forall (fun c => clean c = true) (bytes_of name) /\ str_size name < 2 ^ 31.
Definition dirent_ok (d : dirent) : Prop := name_ok (d_name d) /\ in_u64 (d_inum d).

Lemma length_append a b : String.length (String.append a b) = (String.length a + String.length b)%nat.
Proof using. induction a as [|c a IH]; [done|]. exact (f_equal S IH). Qed.

Lemma substring_append_l a b : String.substring 0 (String.length a) (String.append a b) = a.
Proof using. induction a as [|c a IH]; [by destruct b|]. exact (f_equal (String c) IH). Qed.

Lemma substring_append_r a b n : (String.length b <= n)%nat ->
  String.substring (String.length a) n (String.append a b) = b.
Proof using. intros Hn. induction a as [|c a IH]; [by apply substring_all|exact IH]. Qed.

Lemma append_assoc_str a b c : String.append (String.append a b) c = String.append a (String.append b c).
Proof using. induction a as [|x a IH]; [done|]. exact (f_equal (String x) IH). Qed.

Lemma find_colon_append name rest i : Forall (fun c => clean c = true) (bytes_of name) ->
  find_colon (String.append name (String ":" rest)) i = i + Z.of_nat (String.length name).
Proof using.
  revert i. induction name as [|c name IH]; intros i Hc.
  - change (i = i + 0). lia.
  - apply Forall_cons in Hc as [Hc Hn]. unfold clean in Hc. apply andb_true_iff in Hc as [Hc _].
    change ((if (c =? ":")%char then i else find_colon (String.append name (String ":" rest)) (i + 1)) =
      i + Z.of_nat (S (String.length name))).
    destruct (c =? ":")%char; [done|]. rewrite IH by done. lia.
Qed.

Lemma i2n_length n : (String.length (i2n n) <= 20)%nat.
Proof using.
  unfold i2n, print_unsigned.
  assert (H : forall fuel n acc, (length (digits_loop fuel n acc) <= fuel + length acc)%nat).
  { induction fuel as [|fuel IH]; intros k acc; cbn [digits_loop]; [lia|].
    destruct (k <? 10); [cbn; lia|]. specialize (IH (k / 10) (char_of (48 + k mod 10) :: acc)). cbn in IH. lia. }
  specialize (H 20%nat n []). cbn [length] in H.
  pose proof (length_bytes_of (str_of (digits_loop 20 n []))) as Hl. rewrite bytes_of_str_of in Hl. unfold str_size in Hl. lia.
Qed.

Lemma n2i_i2n n : in_u64 n -> n2i (i2n n) = n.
Proof using.
  intros Hn. unfold n2i, i2n. rewrite bytes_of_str_of, read_number_end; [done| |lia]. apply Hn.
Qed.

Lemma parse_entry_str d : dirent_ok d -> parse_entry (entry_str d) = Some d.
Proof using.
  destruct d as [name inum]. intros [[Hc Hs] Hi]. unfold parse_entry, entry_str, str_size in *. cbn [d_name d_inum] in *.
  assert (Hn : (String.length (i2n inum) <= 20)%nat) by apply i2n_length.
  rewrite append_assoc_str. change (String.append ":" (i2n inum)) with (String ":" (i2n inum)).
  rewrite find_colon_append by done. rewrite length_append. cbn [String.length].
  rewrite (wrap_small 32 (0 + _)) by lia. rewrite (wrap_small 32 (0 + _ + 1)) by lia. unfold VERIFY.
  rewrite (proj2 (Z.eqb_neq _ _)) by lia. rewrite (proj2 (Z.leb_le _ _)) by lia. cbn [negb].
  rewrite Z.add_0_l, Nat2Z.id, substring_append_l. do 2 f_equal.
  replace (String.append name (String ":" (i2n inum))) with (String.append (String.append name ":") (i2n inum))
    by apply append_assoc_str.
  replace (Z.to_nat (Z.of_nat (String.length name) + 1)) with (String.length (String.append name ":"))
    by (rewrite length_append; cbn; lia).
  rewrite substring_append_r by lia. by apply n2i_i2n.
Qed.

(** What boost documents of [char_separator(";")]: separators are dropped and so are
    empty tokens. *)
Definition no_semicolon (t : string) : Prop := Forall (fun c => c <> ";"%char) (bytes_of t).
Record tokenizer_spec : Prop := {
  tok_nil : tokenize "" = [];
  tok_last t : t <> ""%string -> no_semicolon t -> tokenize t = [t];
  tok_cons t rest : t <> ""%string -> no_semicolon t ->
    tokenize (String.append (String.append t ";") rest) = t :: tokenize rest }.

Lemma bytes_of_append a b : bytes_of (String.append a b) = bytes_of a ++ bytes_of b.
Proof using. induction a as [|c a IH]; [done|]. exact (f_equal (cons c) IH). Qed.

Lemma i2n_no_semicolon n : 0 <= n -> no_semicolon (i2n n).
Proof using.
  intros Hn. unfold no_semicolon, i2n, print_unsigned. rewrite bytes_of_str_of.
  assert (H : forall fuel n acc, Forall (fun c => c <> ";"%char) acc -> Forall (fun c => c <> ";"%char) (digits_loop fuel n acc)).
  { induction fuel as [|fuel IH]; intros k acc Hacc; cbn [digits_loop]; [done|].
    assert (Hm : 0 <= k mod 10 < 10) by (apply Z.mod_pos_bound; lia).
    assert (Hc : char_of (48 + k mod 10) <> ";"%char).
    { intros E%(f_equal char_u). rewrite (proj2 (digit_char _ Hm)) in E. change (char_u ";") with 59 in E. lia. }
    destruct (k <? 10); [by constructor|]. apply IH. by constructor. }
  by apply H.
Qed.

Lemma entry_str_token d : dirent_ok d -> entry_str d <> ""%string /\ no_semicolon (entry_str d).
Proof using.
  intros [[Hc _] Hi]. split.
  - unfold entry_str. rewrite append_assoc_str. intros E%(f_equal String.length). rewrite length_append in E.
    change (String.length (String.append ":" (i2n (d_inum d)))) with (S (String.length (i2n (d_inum d)))) in E.
    cbn [String.length] in E. lia.
  - unfold no_semicolon, entry_str. rewrite !bytes_of_append, !Forall_app. split_and!.
    + eapply Forall_impl; [exact Hc|]. intros c. unfold clean. intros [_ H]%andb_true_iff ->. done.
    + by repeat constructor.
    + apply i2n_no_semicolon. apply Hi.
Qed.

Lemma dir_parse ds : tokenizer_spec -> Forall dirent_ok ds -> parse_entries (tokenize (dir_string ds)) = Some ds.
Proof using.
  intros Ht Hds. induction Hds as [|d ds Hd Hds IH]; [cbn [dir_string]; by rewrite (tok_nil Ht)|].
  destruct (entry_str_token d Hd) as [Hne Hsc]. destruct ds as [|d' ds].
  - change (dir_string [d]) with (entry_str d). rewrite (tok_last Ht) by done. cbn [parse_entries].
    by rewrite parse_entry_str.
  - change (dir_string (d :: d' :: ds)) with (String.append (String.append (entry_str d) ";") (dir_string (d' :: ds))).
    rewrite (tok_cons Ht) by done. cbn [parse_entries]. rewrite parse_entry_str by done. cbn [mbind option_bind].
    by rewrite IH.
Qed.

(** ** Operations on the contents *)

Definition y_content (y : yfs) : Z -> option string := content (y_ec y) (y_srv y).
Definition y_inv (y : yfs) : Prop := cache_inv (y_ec y) (y_srv y).

(** The size that [getattr] gives for an extent is that of its contents, and stays so when
    what is cached of it is flushed. *)
Definition attrs_ok (y : yfs) (id n : Z) : Prop :=
  (forall a, ec_attrs (y_ec y) !! id = Some a -> extent_protocol.size a = n) /\
  (id ∈ ec_dirty (y_ec y) -> is_Some (ec_attrs (y_ec y) !! id)) /\
  (id ∉ ec_dirty (y_ec y) -> extent_protocol.size (attr_of (es_attrs (y_srv y)) id) = n).
Definition sized (y : yfs) (id : Z) : Prop := forall b, y_content y id = Some b -> attrs_ok y id (wrap 32 (str_size b)).

(** [y'] is [y] with contents [m]: consistent, nothing more removed, same numbers used, and
    sizes that were right are right. *)
Record y_upd (y y' : yfs) (m : Z -> option string) : Prop := {
  yu_inv : y_inv y';
  yu_content i : y_content y' i = m i;
  yu_removed : ec_removed (y_ec y') ⊆ ec_removed (y_ec y);
  yu_used : y_used y' = y_used y;
  yu_sized i : sized y i -> sized y' i }.

Lemma y_upd_weaken y y' m m' : y_upd y y' m -> (forall i, m i = m' i) -> y_upd y y' m'.
Proof using. intros [? H ? ? ?] E. split; [done|intros i; by rewrite H|done..]. Qed.
Lemma y_upd_trans y1 y2 y3 m : y_upd y1 y2 (y_content y1) -> y_upd y2 y3 m -> y_upd y1 y3 m.
Proof using. intros [? ? ? ? ?] [? ? ? ? ?]. split; [done|done|by etransitivity|congruence|auto]. Qed.

(** Attributes that a map keeps. *)
Lemma attr_of_delete m id i : i <> id -> attr_of (base.delete id m) i = attr_of m i.
Proof using. intros Hne. unfold attr_of. by rewrite lookup_delete_ne. Qed.
Lemma attr_of_same m id i : attr_of (<[id := attr_of m id]> m) i = attr_of m i.
Proof using. rewrite attr_of_insert. case_decide; [by subst|done]. Qed.

Lemma flush_sized y l c' s' used held t i : y_inv y -> ec_flush (y_ec y) (y_srv y) l now = Some (c', s', OK) ->
  content c' s' i = y_content y i -> sized y i -> sized (Yfs c' s' used held t) i.
Proof using.
  clear tokenize revoked uninit. intros Hi Hf Hc Hs b Hb. unfold y_content in Hb. cbn [y_ec y_srv] in Hb. rewrite Hc in Hb. destruct (Hs b Hb) as (H1 & H2 & H3).
  unfold attrs_ok. cbn [y_ec y_srv]. unfold ec_flush, es_put, es_remove in Hf. cbn zeta beta in Hf. case_bool_decide as Hd.
  - cbn in Hf. injection Hf as <- <-. cbn. destruct (decide (i = l)) as [->|Hne].
    + rewrite lookup_delete_eq, attr_of_insert, decide_True by done. split; [done|]. split; [set_solver|]. intros _. cbn.
      unfold y_content, content in Hb. rewrite bool_decide_eq_true_2 in Hb by done. by rewrite Hb.
    + rewrite lookup_delete_ne by done. split; [done|]. split; [intros ?; apply H2; set_solver|]. intros ?. rewrite attr_of_insert, decide_False by done. apply H3. set_solver.
  - assert (Hl : i = l -> l ∉ ec_removed (y_ec y)).
    { intros -> Hrm. unfold y_content, content in Hb. rewrite bool_decide_eq_false_2, bool_decide_eq_true_2 in Hb by done. done. }
    assert (Hdel : attrs_ok (Yfs (ExtentClient (base.delete l (ec_extents (y_ec y))) (ec_dirty (y_ec y)) (base.delete l (ec_attrs (y_ec y))) (ec_dirty_attrs (y_ec y)) ∅) (y_srv y) used held t) i (wrap 32 (str_size b))).
    { unfold attrs_ok. cbn. destruct (decide (i = l)) as [->|Hne]; [rewrite lookup_delete_eq; done|by rewrite lookup_delete_ne by done]. }
    destruct Hdel as (D1 & D2 & D3). cbn in D1, D2, D3. case_bool_decide as Hrm.
    + destruct (es_extents (y_srv y) !! l); cbn in Hf; [|done]. injection Hf as <- <-. cbn. rewrite attr_of_delete by (intros ->; by apply Hl). done.
    + injection Hf as <- <-. done.
Qed.

Lemma lc_acquire_ok y l : l ∉ y_held y -> y_inv y -> exists y', lc_acquire y l = Some y' /\
  y_upd y y' (y_content y) /\ y_held y' = l :: y_held y.
Proof using.
  intros Hl Hi. unfold lc_acquire. rewrite bool_decide_eq_false_2 by done. eexists. split; [done|]. by split.
Qed.

Lemma lc_release_ok y l : l ∈ y_held y -> y_inv y -> exists y', lc_release y l = Some y' /\
  y_upd y y' (y_content y) /\ y_held y' = remove_lock l (y_held y).
Proof using.
  intros Hl Hi. unfold lc_release. rewrite bool_decide_eq_true_2 by done. cbn [negb].
  destruct (revoked (y_clock y) l); [|eexists; split; [done|]; by split].
  destruct (flush_refines (y_ec y) (y_srv y) l now Hi) as (c' & s' & Hf & Hinv & Hc & _). rewrite Hf.
  eexists. split; [done|]. split; [|done]. split; [done|done| |done|].
  - cbn. unfold ec_flush in Hf. repeat case_bool_decide; unfold VERIFY in Hf; repeat case_match; simplify_eq/=; set_solver.
  - intros i Hs. apply (flush_sized y l c' s'); [done|done|apply Hc|done].
Qed.

Lemma lc_revoke_ok y l : y_inv y -> exists y', lc_revoke y l = Some y' /\ y_upd y y' (y_content y) /\ y_held y' = y_held y.
Proof using.
  intros Hi. unfold lc_revoke. case_bool_decide; [eexists; split; [done|]; by split|].
  destruct (flush_refines (y_ec y) (y_srv y) l now Hi) as (c' & s' & Hf & Hinv & Hc & _). rewrite Hf.
  eexists. split; [done|]. split; [|done]. split; [done|done| |done|].
  - cbn. unfold ec_flush in Hf. repeat case_bool_decide; unfold VERIFY in Hf; repeat case_match; simplify_eq/=; set_solver.
  - intros i Hs. apply (flush_sized y l c' s'); [done|done|apply Hc|done].
Qed.

Lemma y_get_ok y id b : y_inv y -> id ∉ ec_removed (y_ec y) -> y_content y id = Some b ->
  exists y', y_get y id = Some (y', extent_protocol.OK, b) /\ y_upd y y' (y_content y) /\ y_held y' = y_held y.
Proof using.
  intros Hi Hr Hb. destruct (get_refines (y_ec y) (y_srv y) id now Hi Hr) as (c' & s' & ret & x & Hg & Hinv & Hc & Hret).
  unfold y_content in Hb. rewrite Hb in Hret. destruct Hret as [-> ->]. unfold y_get. rewrite Hg.
  eexists. split; [done|]. split; [|done]. split; [done|done| |done|].
  - cbn. unfold ec_get, VERIFY in Hg. repeat case_match; simplify_eq/=; done.
  - intros i Hs b' Hb'. unfold y_content in Hb'. cbn [y_ec y_srv] in Hb'. rewrite Hc in Hb'. destruct (Hs b' Hb') as (H1 & H2 & H3).
    unfold ec_get, es_getattr, es_get, VERIFY in Hg. repeat case_match; simplify_eq/=; unfold attrs_ok; cbn; [done|..].
    + rewrite attr_of_same. destruct (decide (id = i)) as [<-|Hne]; [|by rewrite lookup_insert_ne by done]. rewrite lookup_insert_eq. split; [|done].
      intros a [= <-]. cbn. apply H3. intros Hd. destruct (H2 Hd) as [? ?]. congruence.
    + split; [done|]. split; [done|]. intros Hd. rewrite attr_of_insert. case_decide; [subst; by apply H3|by apply H3].
Qed.

Lemma y_put_ok y id buf : y_inv y -> str_size buf < 2 ^ 32 -> exists y', y_put y id buf = (y', extent_protocol.OK) /\
  y_upd y y' (fun i => if decide (i = id) then Some buf else y_content y i) /\ y_held y' = y_held y /\ sized y' id.
Proof using.
  clear tokenize revoked uninit. intros Hi Hsz. pose proof (put_refines (y_ec y) (y_srv y) id buf now Hi Hsz) as Hp. unfold y_put.
  assert (Hrm : ec_removed (ec_put (y_ec y) (y_srv y) id buf now).1.1 ⊆ ec_removed (y_ec y)).
  { unfold ec_put. destruct (match ec_attrs _ !! id with Some _ => _ | None => _ end) as [[? ?] ?]. cbn. set_solver. }
  assert (Hsized : forall i, (i <> id -> sized y i) -> let '(c', s', _) := ec_put (y_ec y) (y_srv y) id buf now in
    content c' s' i = (if decide (i = id) then Some buf else y_content y i) -> sized (Yfs c' s' (y_used y) (y_held y) (y_clock y)) i).
  { intros i Hs. unfold ec_put, es_getattr.
    assert (Hat : exists s' t, (match ec_attrs (y_ec y) !! id with Some a => (y_srv y, extent_protocol.OK, extent_protocol.atime a)
        | None => let '(s, ret, a) := (ExtentServer (es_extents (y_srv y)) (<[id := attr_of (es_attrs (y_srv y)) id]> (es_attrs (y_srv y))), extent_protocol.OK, attr_of (es_attrs (y_srv y)) id) in
            (s, ret, if ret =? extent_protocol.OK then extent_protocol.atime a else now) end) = (s', extent_protocol.OK, t) /\
        forall i, attr_of (es_attrs s') i = attr_of (es_attrs (y_srv y)) i).
    { destruct (ec_attrs (y_ec y) !! id); eexists _, _; (split; [done|]); [done|]. intros j. cbn. apply attr_of_same. }
    destruct Hat as (s' & t & -> & Hat). intros Hc b Hb. unfold y_content in Hb. cbn [y_ec y_srv] in Hb. rewrite Hc in Hb. unfold attrs_ok. cbn. rewrite Hat.
    destruct (decide (i = id)) as [->|Hne].
    - injection Hb as <-. rewrite lookup_insert_eq. split; [by intros a [= <-]|]. split; [done|set_solver].
    - destruct (Hs Hne b Hb) as (H1 & H2 & H3). rewrite lookup_insert_ne by done. split; [done|]. split; [intros ?; apply H2; set_solver|intros ?; apply H3; set_solver]. }
  destruct (ec_put (y_ec y) (y_srv y) id buf now) as [[c' s'] ret]. destruct Hp as (-> & ? & Hc).
  eexists. split; [done|]. split; [|split; [done|apply Hsized; [done|apply Hc]]]. split; [done|done|done|done|]. intros i Hs. apply Hsized; [done|apply Hc].
Qed.

Lemma readdir_ok y p ds : tokenizer_spec -> Forall dirent_ok ds -> y_inv y -> p ∉ ec_removed (y_ec y) ->
  y_content y p = Some (dir_string ds) ->
  exists y', readdir_internal y p = Some (y', OK, ds) /\ y_upd y y' (y_content y) /\ y_held y' = y_held y.
Proof using.
  intros Ht Hds Hi Hr Hp. destruct (y_get_ok y p _ Hi Hr Hp) as (y' & Hg & Hu & Hh). exists y'. split; [|done].
  unfold readdir_internal. rewrite Hg. cbn [mbind option_bind negb Z.eqb extent_protocol.OK]. by rewrite dir_parse.
Qed.

Lemma writedir_ok y p ds : y_inv y -> str_size (dir_string ds) < 2 ^ 32 -> exists y', writedir y p ds = (y', OK) /\
  y_upd y y' (fun i => if decide (i = p) then Some (dir_string ds) else y_content y i) /\ y_held y' = y_held y.
Proof using.
  intros Hi Hsz. destruct (y_put_ok y p _ Hi Hsz) as (y' & Hp & Hu & Hh & _). exists y'. unfold writedir. by rewrite Hp.
Qed.

Lemma readdir_after y p ds : tokenizer_spec -> Forall dirent_ok ds -> y_inv y -> p ∉ ec_removed (y_ec y) ->
  y_content y p = Some (dir_string ds) -> p ∉ y_held y -> exists y', readdir y p = Some (y', OK, ds).
Proof using.
  intros Ht Hds Hi Hr Hp Hh. unfold readdir. destruct (lc_acquire_ok y p Hh Hi) as (y1 & -> & Hu1 & Hh1).
  cbn [mbind option_bind]. destruct (readdir_ok y1 p ds Ht Hds) as (y2 & -> & Hu2 & Hh2).
  - apply Hu1.
  - intros Hin. by apply Hr, (yu_removed _ _ _ Hu1).
  - by rewrite (yu_content _ _ _ Hu1).
  - cbn [mbind option_bind]. destruct (lc_release_ok y2 p) as (y3 & -> & _); [rewrite Hh2, Hh1; constructor|apply Hu2|].
    by exists y3.
Qed.

(** A directory is read back as it was written: for entries whose names have no
    separators, [readdir_internal] after [writedir] returns the same entries in order
    with their inode numbers, whatever was in the directory before. *)
Theorem dir_round_trip y p ds : tokenizer_spec -> y_inv y -> p ∉ ec_removed (y_ec y) -> Forall dirent_ok ds ->
  str_size (dir_string ds) < 2 ^ 32 ->
  exists y1 y2, writedir y p ds = (y1, OK) /\ readdir_internal y1 p = Some (y2, OK, ds).
Proof using.
  intros Ht Hi Hr Hds Hsz. destruct (writedir_ok y p ds Hi Hsz) as (y1 & Hw & Hu & _).
  destruct (readdir_ok y1 p ds Ht Hds (yu_inv _ _ _ Hu)) as (y2 & Hrd & _).
  - intros Hin. by apply Hr, (yu_removed _ _ _ Hu).
  - rewrite (yu_content _ _ _ Hu). by rewrite decide_True.
  - by exists y1, y2.
Qed.

Lemma new_uniq_number_range used rands n : new_uniq_number used rands = Some n -> 1 < n < FILE_BASE /\ n ∉ used.
Proof using.
  induction rands as [|x rands IH]; cbn [new_uniq_number]; [done|].
  destruct (_ || _) eqn:E; [apply IH|]. intros [= <-]. apply orb_false_iff in E as [E1%Z.leb_gt E2%bool_decide_eq_false].
  pose proof (Z.mod_pos_bound x FILE_BASE ltac:(unfold FILE_BASE; lia)). split; [lia|done].
Qed.

Lemma remove_lock_head l held : remove_lock l (l :: held) = held.
Proof using. cbn. by rewrite Z.eqb_refl. Qed.
Lemma remove_lock_second l l' held : l <> l' -> remove_lock l (l' :: l :: held) = l' :: held.
Proof using. intros Hne. cbn. by rewrite (proj2 (Z.eqb_neq l' l)), Z.eqb_refl by congruence. Qed.

Lemma create_body_ok y p name ino ds : tokenizer_spec -> Forall dirent_ok ds -> has_name name ds = false ->
  str_size (dir_string (ds ++ [Dirent name ino])) < 2 ^ 32 -> y_inv y -> p ∉ ec_removed (y_ec y) ->
  y_content y p = Some (dir_string ds) -> p <> ino ->
  exists y', create_body y p name ino = Some (y', OK) /\
    y_upd y y' (fun i => if decide (i = p) then Some (dir_string (ds ++ [Dirent name ino]))
                         else if decide (i = ino) then Some ""%string else y_content y i) /\ y_held y' = y_held y /\ sized y' ino.
Proof using.
  intros Ht Hds Hnew Hsz Hi Hr Hp Hne. unfold create_body.
  destruct (readdir_ok y p ds Ht Hds Hi Hr Hp) as (y1 & -> & Hu1 & Hh1).
  cbn [mbind option_bind negb Z.eqb OK]. rewrite Hnew.
  destruct (y_put_ok y1 ino "" (yu_inv _ _ _ Hu1) ltac:(done)) as (y2 & -> & Hu2 & Hh2 & Hsz2).
  cbn [negb Z.eqb extent_protocol.OK].
  destruct (writedir_ok y2 p _ (yu_inv _ _ _ Hu2) Hsz) as (y3 & -> & Hu3 & Hh3).
  exists y3. split; [done|]. split; [|split; [congruence|by apply (yu_sized _ _ _ Hu3)]]. split.
  - apply Hu3.
  - intros i. rewrite (yu_content _ _ _ Hu3). case_decide; [done|]. rewrite (yu_content _ _ _ Hu2).
    case_decide; [done|]. apply (yu_content _ _ _ Hu1).
  - etransitivity; [apply Hu3|]. etransitivity; [apply Hu2|apply Hu1].
  - rewrite (yu_used _ _ _ Hu3), (yu_used _ _ _ Hu2). apply Hu1.
  - intros i Hs. by apply (yu_sized _ _ _ Hu3), (yu_sized _ _ _ Hu2), (yu_sized _ _ _ Hu1).
Qed.

Lemma create_ok y p name rands ds n : tokenizer_spec -> y_inv y -> p ∉ ec_removed (y_ec y) ->
  Forall dirent_ok ds -> y_content y p = Some (dir_string ds) -> has_name name ds = false ->
  new_uniq_number (y_used y) rands = Some n -> p <> FILE_BASE + n -> p ∉ y_held y -> FILE_BASE + n ∉ y_held y ->
  str_size (dir_string (ds ++ [Dirent name (FILE_BASE + n)])) < 2 ^ 32 ->
  exists y', create y p name rands = Some (y', OK, FILE_BASE + n) /\ y_held y' = y_held y /\ y_inv y' /\ (n ∈ y_used y') /\
    (forall i, y_content y' i = if decide (i = p) then Some (dir_string (ds ++ [Dirent name (FILE_BASE + n)]))
                                else if decide (i = FILE_BASE + n) then Some ""%string else y_content y i) /\
    ec_removed (y_ec y') ⊆ ec_removed (y_ec y) /\ sized y' (FILE_BASE + n).
Proof using.
  intros Ht Hi Hr Hds Hp Hnew Hn Hne Hph Hih Hsz.
  unfold create. destruct (lc_acquire_ok y p Hph Hi) as (y1 & -> & Hu1 & Hh1). cbn [mbind option_bind].
  unfold y_new_number. rewrite (yu_used _ _ _ Hu1), Hn. cbn [mbind option_bind].
  set (y2 := Yfs (y_ec y1) (y_srv y1) ({[n]} ∪ y_used y) (y_held y1) (y_clock y1)).
  destruct (lc_acquire_ok y2 (FILE_BASE + n)) as (y3 & -> & Hu3 & Hh3); [cbn; rewrite Hh1; by apply not_elem_of_cons|apply Hu1|].
  cbn [mbind option_bind].
  assert (Hc3 : forall i, y_content y3 i = y_content y i).
  { intros i. rewrite (yu_content _ _ _ Hu3). apply (yu_content _ _ _ Hu1). }
  assert (Hr3 : ec_removed (y_ec y3) ⊆ ec_removed (y_ec y)) by (etransitivity; [apply Hu3|apply Hu1]).
  destruct (create_body_ok y3 p name (FILE_BASE + n) ds) as (y4 & -> & Hu4 & Hh4 & Hsz4); try done;
    [apply Hu3|by intros Hin; apply Hr, Hr3|by rewrite Hc3|]. cbn [mbind option_bind].
  assert (Hh : y_held y4 = FILE_BASE + n :: p :: y_held y) by (rewrite Hh4, Hh3; cbn; by rewrite Hh1).
  destruct (lc_release_ok y4 p) as (y5 & -> & Hu5 & Hh5); [rewrite Hh; set_solver|apply Hu4|]. cbn [mbind option_bind].
  rewrite Hh, remove_lock_second in Hh5 by done.
  destruct (lc_release_ok y5 (FILE_BASE + n)) as (y6 & -> & Hu6 & Hh6); [rewrite Hh5; set_solver|apply Hu5|]. cbn [mbind option_bind].
  rewrite Hh5, remove_lock_head in Hh6. exists y6. split; [done|]. split; [done|]. split; [apply Hu6|]. split_and!.
  - rewrite (yu_used _ _ _ Hu6), (yu_used _ _ _ Hu5), (yu_used _ _ _ Hu4), (yu_used _ _ _ Hu3). cbn. set_solver.
  - intros i. rewrite (yu_content _ _ _ Hu6), (yu_content _ _ _ Hu5), (yu_content _ _ _ Hu4), Hc3. done.
  - etransitivity; [apply Hu6|]. etransitivity; [apply Hu5|]. etransitivity; [apply Hu4|done].
  - by apply (yu_sized _ _ _ Hu6), (yu_sized _ _ _ Hu5).
Qed.

(** [create] makes an empty file and enters it: with a name that is new and has
    no separators, it returns OK with an unused file inode number, the directory is
    its old entries and the new one, the new extent is empty, every other extent is
    as it was, all locks it took are released, and a [readdir] that follows lists the
    new entry last. *)
Theorem create_adds_entry y p name rands ds n : tokenizer_spec -> y_inv y -> p ∉ ec_removed (y_ec y) ->
  Forall dirent_ok ds -> y_content y p = Some (dir_string ds) -> name_ok name -> has_name name ds = false ->
  new_uniq_number (y_used y) rands = Some n -> p <> FILE_BASE + n -> p ∉ y_held y -> FILE_BASE + n ∉ y_held y ->
  str_size (dir_string (ds ++ [Dirent name (FILE_BASE + n)])) < 2 ^ 32 ->
  exists y' y'', create y p name rands = Some (y', OK, FILE_BASE + n) /\ y_held y' = y_held y /\ y_inv y' /\
    (n ∉ y_used y) /\ (n ∈ y_used y') /\
    (forall i, y_content y' i = if decide (i = p) then Some (dir_string (ds ++ [Dirent name (FILE_BASE + n)]))
                                else if decide (i = FILE_BASE + n) then Some ""%string else y_content y i) /\
    readdir y' p = Some (y'', OK, ds ++ [Dirent name (FILE_BASE + n)]).
Proof using.
  intros Ht Hi Hr Hds Hp Hname Hnew Hn Hne Hph Hih Hsz. destruct (new_uniq_number_range _ _ _ Hn) as [Hrange Hfresh].
  destruct (create_ok y p name rands ds n Ht Hi Hr Hds Hp Hnew Hn Hne Hph Hih Hsz) as (y' & Hc & Hh & Hi' & Hu & Hcont & Hrem & _).
  destruct (readdir_after y' p (ds ++ [Dirent name (FILE_BASE + n)])) as (y'' & Hrd); [done| |done|set_solver| |by rewrite Hh|].
  - apply Forall_app. split; [done|]. constructor; [|done]. split; [done|]. unfold in_u64, FILE_BASE in *. cbn. lia.
  - by rewrite Hcont, decide_True.
  - exists y', y''. by split_and!.
Qed.

Lemma substring_skip a b k n : String.substring (String.length a + k) n (String.append a b) = String.substring k n b.
Proof using. induction a as [|c a IH]; [done|exact IH]. Qed.

Lemma substring_0_length n : forall b, (n <= String.length b)%nat -> String.length (String.substring 0 n b) = n.
Proof using.
  induction n as [|n IH]; intros [|c b] Hn; cbn in *; try lia. by rewrite IH by lia.
Qed.

Lemma length_zeros n : 0 <= n -> String.length (zeros n) = Z.to_nat n.
Proof using.
  intros Hn. pose proof (length_bytes_of (zeros n)) as H. unfold zeros, str_size in *.
  rewrite bytes_of_str_of, length_replicate in H. lia.
Qed.

Lemma overwrite_read b buf off : 0 <= off ->
  off <= str_size (overwrite b buf off) /\
  String.substring (Z.to_nat off) (Z.to_nat (str_size buf)) (overwrite b buf off) = buf.
Proof using.
  intros Hoff. unfold overwrite, str_size. destruct (Z.leb_spec off (Z.of_nat (String.length b))).
  - assert (Hl : String.length (String.substring 0 (Z.to_nat off) b) = Z.to_nat off) by (apply substring_0_length; lia).
    rewrite append_assoc_str. split; [rewrite !length_append, Hl; lia|].
    rewrite <- Hl at 1. rewrite <- (Nat.add_0_r (String.length _)), substring_skip, Nat2Z.id. apply substring_append_l.
  - assert (Hl : String.length (String.append b (zeros (off - Z.of_nat (String.length b)))) = Z.to_nat off).
    { rewrite length_append, length_zeros by lia. lia. }
    split; [rewrite length_append, Hl; lia|].
    rewrite <- Hl at 1. rewrite <- (Nat.add_0_r (String.length _)), substring_skip, Nat2Z.id. by apply substring_all.
Qed.

Lemma y_setattr_ok y id a b : y_inv y -> y_content y id = Some b -> extent_protocol.size a = wrap 32 (str_size b) ->
  exists y', y_setattr y id a = (y', extent_protocol.OK) /\ y_upd y y' (y_content y) /\ y_held y' = y_held y.
Proof using.
  intros Hi Hb Ha. unfold y_setattr. cbn. eexists. split; [done|]. split; [|done].
  destruct (cache_same (y_ec y) (y_srv y) (ec_setattr (y_ec y) id a).1 (y_srv y) Hi) as [? Hc]; [done..|]. split; [done|done|done|done|].
  intros i Hs b' Hb'. unfold y_content in Hb'. cbn [y_ec y_srv] in Hb'. cbn in Hc. rewrite Hc in Hb'. destruct (Hs b' Hb') as (H1 & H2 & H3). unfold attrs_ok. cbn.
  destruct (decide (id = i)) as [<-|Hne]; [|by rewrite lookup_insert_ne by done]. rewrite lookup_insert_eq. split; [|done].
  intros a' [= <-]. unfold y_content in Hb. congruence.
Qed.

(** [write] and [read] on the contents. *)
Lemma write_ok y inum b buf off : y_inv y -> inum ∉ ec_removed (y_ec y) -> inum ∉ y_held y ->
  y_content y inum = Some b -> str_size (overwrite b buf off) < 2 ^ 32 ->
  exists y', write y inum buf off = Some (y', OK) /\ y_held y' = y_held y /\ sized y' inum /\
    y_upd y y' (fun i => if decide (i = inum) then Some (overwrite b buf off) else y_content y i).
Proof using.
  intros Hi Hr Hh Hb Hsz. unfold write. destruct (lc_acquire_ok y inum Hh Hi) as (y1 & -> & Hu1 & Hh1). cbn [mbind option_bind].
  destruct (y_get_ok y1 inum b) as (y2 & -> & Hu2 & Hh2);
    [apply Hu1|by intros ?%(yu_removed _ _ _ Hu1)|by rewrite (yu_content _ _ _ Hu1)|].
  cbn [mbind option_bind negb Z.eqb extent_protocol.OK].
  destruct (y_put_ok y2 inum _ (yu_inv _ _ _ Hu2) Hsz) as (y3 & -> & Hu3 & Hh3 & Hs3). cbn [negb Z.eqb extent_protocol.OK].
  destruct (y_setattr_ok y3 inum (extent_protocol.Attr uninit uninit uninit (wrap 32 (str_size (overwrite b buf off)))) (overwrite b buf off)
    (yu_inv _ _ _ Hu3)) as (y4 & -> & Hu4 & Hh4); [by rewrite (yu_content _ _ _ Hu3), decide_True|done|]. cbn [negb Z.eqb extent_protocol.OK].
  assert (Hh4' : y_held y4 = inum :: y_held y) by congruence.
  destruct (lc_release_ok y4 inum) as (y5 & -> & Hu5 & Hh5); [rewrite Hh4'; constructor|apply Hu4|]. cbn [mbind option_bind].
  rewrite Hh4', remove_lock_head in Hh5. exists y5. split; [done|]. split; [done|]. split; [by apply (yu_sized _ _ _ Hu5), (yu_sized _ _ _ Hu4)|]. split.
  - apply Hu5.
  - intros i. rewrite (yu_content _ _ _ Hu5), (yu_content _ _ _ Hu4), (yu_content _ _ _ Hu3).
    case_decide; [done|]. rewrite (yu_content _ _ _ Hu2). apply (yu_content _ _ _ Hu1).
  - intros i Hin. by apply (yu_removed _ _ _ Hu1), (yu_removed _ _ _ Hu2), (yu_removed _ _ _ Hu3), (yu_removed _ _ _ Hu4), (yu_removed _ _ _ Hu5).
  - rewrite (yu_used _ _ _ Hu5), (yu_used _ _ _ Hu4), (yu_used _ _ _ Hu3), (yu_used _ _ _ Hu2). apply Hu1.
  - intros i Hs. by apply (yu_sized _ _ _ Hu5), (yu_sized _ _ _ Hu4), (yu_sized _ _ _ Hu3), (yu_sized _ _ _ Hu2), (yu_sized _ _ _ Hu1).
Qed.

Lemma read_ok y inum b size off : y_inv y -> inum ∉ ec_removed (y_ec y) -> inum ∉ y_held y ->
  y_content y inum = Some b -> off <= str_size b ->
  exists y', read y inum size off = Some (y', OK, String.substring (Z.to_nat off) (Z.to_nat size) b) /\ y_held y' = y_held y /\ y_upd y y' (y_content y).
Proof using.
  intros Hi Hr Hh Hb Hoff. unfold read. destruct (lc_acquire_ok y inum Hh Hi) as (y1 & -> & Hu1 & Hh1). cbn [mbind option_bind].
  destruct (y_get_ok y1 inum b) as (y2 & -> & Hu2 & Hh2);
    [apply Hu1|by intros ?%(yu_removed _ _ _ Hu1)|by rewrite (yu_content _ _ _ Hu1)|].
  cbn [mbind option_bind negb Z.eqb extent_protocol.OK]. unfold VERIFY. rewrite (proj2 (Z.leb_le _ _)) by lia.
  destruct (lc_release_ok y2 inum) as (y3 & -> & Hu3 & Hh3); [rewrite Hh2, Hh1; constructor|apply Hu2|]. cbn [mbind option_bind].
  exists y3. split; [done|]. split; [by rewrite Hh3, Hh2, Hh1, remove_lock_head|].
  apply (y_upd_trans _ y1); [done|]. eapply y_upd_weaken; [apply (y_upd_trans _ y2); [exact Hu2|exact Hu3]|].
  intros i. rewrite (yu_content _ _ _ Hu2). apply (yu_content _ _ _ Hu1).
Qed.

(** Data written can be read: [write] at any offset, beyond the end too, returns
    OK, makes the contents of the file its old bytes with the buffer put in at the
    offset and zeros in a gap, changes no other extent, releases the lock, and a
    [read] of that range returns the buffer. *)
Theorem write_then_read y inum b buf off : y_inv y -> inum ∉ ec_removed (y_ec y) -> inum ∉ y_held y ->
  y_content y inum = Some b -> 0 <= off -> str_size (overwrite b buf off) < 2 ^ 32 ->
  exists y1 y2, write y inum buf off = Some (y1, OK) /\ y_held y1 = y_held y /\
    (forall i, y_content y1 i = if decide (i = inum) then Some (overwrite b buf off) else y_content y i) /\
    read y1 inum (str_size buf) off = Some (y2, OK, buf) /\ y_held y2 = y_held y.
Proof using.
  intros Hi Hr Hh Hb Hoff Hsz. destruct (overwrite_read b buf off Hoff) as [Hlen Hread].
  destruct (write_ok y inum b buf off Hi Hr Hh Hb Hsz) as (y1 & Hw & Hh1 & _ & Hu).
  destruct (read_ok y1 inum (overwrite b buf off) (str_size buf) off) as (y2 & Hrd & Hh2 & _);
    [apply Hu|by intros ?%(yu_removed _ _ _ Hu)|by rewrite Hh1|by rewrite (yu_content _ _ _ Hu), decide_True|done|].
  exists y1, y2. rewrite Hread in Hrd. split_and!; [done|done|apply Hu|done|congruence].
Qed.

Lemma y_remove_ok y id b : y_inv y -> id ∉ ec_removed (y_ec y) -> y_content y id = Some b ->
  exists y', y_remove y id = (y', extent_protocol.OK) /\ y_inv y' /\ y_held y' = y_held y /\
    forall i, y_content y' i = if decide (i = id) then None else y_content y i.
Proof using.
  intros Hi Hr Hb. pose proof (remove_refines (y_ec y) (y_srv y) id now Hi Hr) as Hp. unfold y_remove.
  destruct (ec_remove (y_ec y) (y_srv y) id now) as [[c' s'] ret]. destruct Hp as (Hinv & Hc & ->).
  unfold y_content in Hb. rewrite Hb. eexists. split; [done|]. by split_and!.
Qed.

Lemma unlink_found y p name ds i d b : tokenizer_spec -> y_inv y -> p ∉ ec_removed (y_ec y) ->
  d_inum d ∉ ec_removed (y_ec y) -> Forall dirent_ok ds -> y_content y p = Some (dir_string ds) ->
  find_name name ds = Some (i, d) -> isfile (d_inum d) = true -> y_content y (d_inum d) = Some b ->
  p <> d_inum d -> p ∉ y_held y -> d_inum d ∉ y_held y -> str_size (dir_string (delete i ds)) < 2 ^ 32 ->
  exists y', y_inv y' /\ y_held y' = d_inum d :: y_held y /\
    (forall j, y_content y' j = if decide (j = p) then Some (dir_string (delete i ds))
                                else if decide (j = d_inum d) then None else y_content y j) /\
    unlink y p name = (d' ← delete i ds !! i; y'' ← lc_release y' (d_inum d'); Some (y'', OK)).
Proof using.
  intros Ht Hi Hr Hrd Hds Hp Hf Hfile Hb Hne Hph Hdh Hsz. unfold unlink.
  destruct (lc_acquire_ok y p Hph Hi) as (y1 & -> & Hu1 & Hh1). cbn [mbind option_bind].
  destruct (readdir_ok y1 p ds Ht Hds) as (y2 & -> & Hu2 & Hh2);
    [apply Hu1|by intros ?%(yu_removed _ _ _ Hu1)|by rewrite (yu_content _ _ _ Hu1)|].
  cbn [mbind option_bind negb Z.eqb OK]. rewrite Hf. cbn [mbind option_bind].
  destruct (lc_acquire_ok y2 (d_inum d)) as (y3 & -> & Hu3 & Hh3);
    [rewrite Hh2, Hh1; apply not_elem_of_cons; by split|apply Hu2|]. cbn [mbind option_bind].
  unfold isdir. rewrite Hfile. cbn [negb].
  assert (Hc3 : forall j, y_content y3 j = y_content y j).
  { intros j. rewrite (yu_content _ _ _ Hu3), (yu_content _ _ _ Hu2). apply (yu_content _ _ _ Hu1). }
  destruct (y_remove_ok y3 (d_inum d) b) as (y4 & -> & Hi4 & Hh4 & Hc4); [apply Hu3| |by rewrite Hc3|].
  { intros Hin. apply Hrd, (yu_removed _ _ _ Hu1), (yu_removed _ _ _ Hu2), (yu_removed _ _ _ Hu3), Hin. }
  cbn [negb Z.eqb extent_protocol.OK].
  destruct (writedir_ok y4 p (delete i ds) Hi4 Hsz) as (y5 & -> & Hu5 & Hh5). cbn [negb Z.eqb OK].
  assert (Hh : y_held y5 = d_inum d :: p :: y_held y) by congruence.
  destruct (lc_release_ok y5 p) as (y6 & -> & Hu6 & Hh6); [rewrite Hh; set_solver|apply Hu5|]. cbn [mbind option_bind].
  rewrite Hh, remove_lock_second in Hh6 by done.
  exists y6. split; [apply Hu6|]. split; [done|]. split; [|done].
  intros j. rewrite (yu_content _ _ _ Hu6), (yu_content _ _ _ Hu5). case_decide; [done|]. by rewrite Hc4, Hc3.
Qed.

(** [unlink] releases the wrong lock: after it has erased the entry it looks the
    lock up in the directory again, at the same position.  When another entry follows
    the file is gone and the directory rewritten, but the lock of the removed inode
    stays held and the release goes to the next entry's; when the removed entry was
    the last one, the code reads beyond the end of the vector. *)
Theorem unlink_releases_wrong_lock y p name ds i d b : tokenizer_spec -> y_inv y -> p ∉ ec_removed (y_ec y) ->
  d_inum d ∉ ec_removed (y_ec y) -> Forall dirent_ok ds -> y_content y p = Some (dir_string ds) ->
  find_name name ds = Some (i, d) -> isfile (d_inum d) = true -> y_content y (d_inum d) = Some b ->
  p <> d_inum d -> p ∉ y_held y -> d_inum d ∉ y_held y -> str_size (dir_string (delete i ds)) < 2 ^ 32 ->
  match ds !! S i with
  | Some d' => d_inum d' <> d_inum d -> d_inum d' ∉ y_held y ->
      exists y', unlink y p name = Some (y', OK) /\ d_inum d ∈ y_held y' /\
        y_content y' p = Some (dir_string (delete i ds)) /\ y_content y' (d_inum d) = None
  | None => unlink y p name = None
  end.
Proof using.
  intros Ht Hi Hr Hrd Hds Hp Hf Hfile Hb Hne Hph Hdh Hsz.
  destruct (unlink_found y p name ds i d b) as (y' & Hi' & Hh & Hc & ->); try done.
  rewrite list_lookup_delete_ge by done. destruct (ds !! S i) as [d'|]; [|done]. intros Hne' Hd'. cbn [mbind option_bind].
  unfold lc_release. rewrite bool_decide_eq_false_2; [|rewrite Hh; apply not_elem_of_cons; by split]. cbn [negb].
  cbn [mbind option_bind]. exists y'. split; [done|]. split; [rewrite Hh; constructor|].
  split; rewrite Hc; [by rewrite decide_True|]. rewrite decide_False by congruence. by rewrite decide_True.
Qed.

(** [unlink] of a name that is not in the directory has no defined result: the
    code takes [dirents[dirents.size()]] before it compares the index with the size. *)
Theorem unlink_missing_is_undefined y p name ds : tokenizer_spec -> y_inv y -> p ∉ ec_removed (y_ec y) ->
  Forall dirent_ok ds -> y_content y p = Some (dir_string ds) -> p ∉ y_held y ->
  find_name name ds = None -> unlink y p name = None.
Proof using.
  intros Ht Hi Hr Hds Hp Hh Hf. unfold unlink.
  destruct (lc_acquire_ok y p Hh Hi) as (y1 & -> & Hu1 & Hh1). cbn [mbind option_bind].
  destruct (readdir_ok y1 p ds Ht Hds) as (y2 & -> & _);
    [apply Hu1|by intros ?%(yu_removed _ _ _ Hu1)|by rewrite (yu_content _ _ _ Hu1)|].
  cbn [mbind option_bind negb Z.eqb OK]. by rewrite Hf.
Qed.
End YfsClient.

(** ** A tokenizer and a small file system *)

Fixpoint semi_tokens (l cur : list ascii) : list string :=
  match l with
  | [] => match cur with [] => [] | _ => [str_of cur] end
  | c :: l =>
      if (c =? ";")%char then match cur with [] => semi_tokens l [] | _ => str_of cur :: semi_tokens l [] end
      else semi_tokens l (cur ++ [c])
  end.
Definition tokens (s : string) : list string := semi_tokens (bytes_of s) [].

Lemma semi_tokens_run t rest cur : no_semicolon t -> semi_tokens (bytes_of t ++ rest) cur = semi_tokens rest (cur ++ bytes_of t).
Proof.
  unfold no_semicolon. intros Ht. revert cur. induction Ht as [|c l Hc _ IH]; intros cur; cbn [app semi_tokens].
  - by rewrite app_nil_r.
  - destruct (Ascii.eqb_spec c ";"); [done|]. rewrite IH. by rewrite <- app_assoc.
Qed.

Lemma tokens_spec : tokenizer_spec tokens.
Proof.
  split; [done| |].
  - intros t Hne Ht. unfold tokens. rewrite <- (app_nil_r (bytes_of t)), semi_tokens_run by done. cbn.
    rewrite str_of_bytes_of. destruct t; [done|]. done.
  - intros t rest Hne Ht. unfold tokens. rewrite !bytes_of_append, <- app_assoc, semi_tokens_run by done. cbn.
    rewrite str_of_bytes_of. destruct t; [done|]. done.
Qed.

Definition two_files : list dirent := [Dirent "a" (FILE_BASE + 5); Dirent "b" (FILE_BASE + 6)].
Definition small_fs : yfs :=
  Yfs ec_new
    (es_put (es_put (es_put es_new 1 (dir_string two_files) 1).1 (FILE_BASE + 5) "hello" 2).1 (FILE_BASE + 6) "x" 3).1
    {[5; 6]} [] 0.
Definition never (t : nat) (l : Z) : bool := false.

Lemma small_fs_inv : y_inv small_fs.
Proof. split; cbn; intros; set_solver. Qed.

Lemma two_files_ok : Forall dirent_ok two_files.
Proof.
  assert (H : forall c n, clean c = true -> in_u64 n -> dirent_ok (Dirent (String c "") n)).
  { intros c n Hc Hn. split; [split; [by constructor|vm_compute; reflexivity]|done]. }
  unfold two_files, FILE_BASE. constructor; [|constructor; [|done]]; apply H; (done || (unfold in_u64; lia)).
Qed.

Lemma dir_round_trip_witness : exists y1 y2,
  writedir 9 small_fs 1 two_files = (y1, OK) /\ readdir_internal tokens 0 9 y1 1 = Some (y2, OK, two_files).
Proof.
  apply (dir_round_trip tokens 0 9 small_fs 1 two_files tokens_spec small_fs_inv).
  - cbn. set_solver.
  - exact two_files_ok.
  - vm_compute. reflexivity.
Defined.

Lemma create_adds_entry_witness : exists y' y'',
  create tokens never 0 9 small_fs 1 "c" [0; 5; 7] = Some (y', OK, FILE_BASE + 7) /\
  readdir tokens never 0 9 y' 1 = Some (y'', OK, two_files ++ [Dirent "c" (FILE_BASE + 7)]).
Proof.
  destruct (create_adds_entry tokens never 0 9 small_fs 1 "c" [0; 5; 7] two_files 7 tokens_spec small_fs_inv)
    as (y' & y'' & Hc & _ & _ & _ & _ & _ & Hr).
  - cbn. set_solver.
  - exact two_files_ok.
  - vm_compute. reflexivity.
  - split; [by repeat constructor|vm_compute; reflexivity].
  - reflexivity.
  - vm_compute. reflexivity.
  - discriminate.
  - cbn. set_solver.
  - cbn. set_solver.
  - vm_compute. reflexivity.
  - exists y', y''. split; [exact Hc|exact Hr].
Defined.

Lemma write_then_read_witness : exists y1 y2,
  write never 7 9 small_fs (FILE_BASE + 5) "xyz" 8 = Some (y1, OK) /\
  read never 9 y1 (FILE_BASE + 5) 3 8 = Some (y2, OK, "xyz"%string).
Proof.
  destruct (write_then_read never 7 9 small_fs (FILE_BASE + 5) "hello" "xyz" 8 small_fs_inv)
    as (y1 & y2 & Hw & _ & _ & Hr & _).
  - cbn. set_solver.
  - cbn. set_solver.
  - vm_compute. reflexivity.
  - lia.
  - vm_compute. reflexivity.
  - exists y1, y2. split; [exact Hw|exact Hr].
Defined.

Lemma unlink_releases_wrong_lock_witness : exists y',
  unlink tokens never 0 9 small_fs 1 "a" = Some (y', OK) /\ FILE_BASE + 5 ∈ y_held y'.
Proof.
  destruct (unlink_releases_wrong_lock tokens never 0 9 small_fs 1 "a" two_files 0 (Dirent "a" (FILE_BASE + 5)) "hello"
    tokens_spec small_fs_inv) as (y' & Hu & Hh & _).
  - cbn. set_solver.
  - cbn. set_solver.
  - exact two_files_ok.
  - vm_compute. reflexivity.
  - reflexivity.
  - reflexivity.
  - vm_compute. reflexivity.
  - discriminate.
  - cbn. set_solver.
  - cbn. set_solver.
  - vm_compute. reflexivity.
  - discriminate.
  - cbn. set_solver.
  - exists y'. split; [exact Hu|exact Hh].
Defined.

Lemma unlink_missing_is_undefined_witness : unlink tokens never 0 9 small_fs 1 "zz" = None.
Proof.
  apply (unlink_missing_is_undefined tokens never 0 9 small_fs 1 "zz" two_files tokens_spec small_fs_inv).
  - cbn. set_solver.
  - exact two_files_ok.
  - vm_compute. reflexivity.
  - cbn. set_solver.
  - reflexivity.
Defined.
