(* ===== verification/Fuse.v ===== *)
(** * The file system the kernel sees

    Models src/mit_6.824/fuse.cc: the handlers that FUSE calls, over the file system client of
    Yfs.v.  A handler gives the new state and the replies it sends; [None] is what is
    undefined in the client.  [fuse_dirent_size] and [fuse_add_dirent] of the FUSE library are
    parameters.  The theorem at the end follows a file through the handlers: it is created,
    written, read, asked for its attributes and looked up, through the cache of the extents
    and whatever locks are revoked on the way. *)

From Stdlib Require Import ZArith Lia Ascii String.
From stdpp Require Import base list strings gmap sets.
From S2P Require Import Prelude Marshall Protocols IoStream Extent Yfs.

Local Open Scope Z_scope.
Local Open Scope cpp_scope.
Import yfs_status.

(** ** Replies *)

Record stat := Stat { st_ino : Z; st_mode : Z; st_nlink : Z; st_size : Z; st_atime : Z; st_mtime : Z; st_ctime : Z }.
(** After [bzero]. *)
Definition stat0 (ino : Z) : stat := Stat ino 0 0 0 0 0 0.

(** [struct fuse_entry_param]; the timeouts and the generation are sometimes 0. *)
Record fuse_entry_param := EntryParam { e_ino : Z; e_attr : stat }.

Inductive reply := ReplyErr (errno : Z) | ReplyAttr (st : stat) | ReplyBuf (buf : string) | ReplyWrite (size : Z)
  | ReplyCreate (e : fuse_entry_param) | ReplyEntry (e : fuse_entry_param) | ReplyOpen | ReplyStatfs (namemax bsize : Z).

Definition ENOENT : Z := 2.
Definition EEXIST : Z := 17.
Definition ENOTDIR : Z := 20.
Definition ENOSYS : Z := 38.
Definition FUSE_SET_ATTR_SIZE : Z := 8.
(** [S_IFREG | 0666] and [S_IFDIR | 0777] *)
Definition REG_MODE : Z := Z.lor 32768 438.
Definition DIR_MODE : Z := Z.lor 16384 511.

(** A string up to the first null byte. *)
Fixpoint c_str (s : string) : string :=
  match s with EmptyString => "" | String c s => if (c =? "000")%char then "" else String c (c_str s) end.

Section Fuse.
Context (tokenize : string -> list string) (revoked : nat -> Z -> bool) (uninit : Z) (now : Z).
Context (fuse_dirent_size : Z -> Z) (fuse_add_dirent : string -> stat -> Z -> string).

Definition getattr (y : yfs) (inum : Z) : option (yfs * Z * stat) :=
  if isfile inum then
    '(y, ret, info) ← getfile revoked now y inum;
    match info with
    | Some i => Some (y, ret, Stat inum REG_MODE 1 (fi_size i) (fi_atime i) (fi_mtime i) (fi_ctime i))
    | None => Some (y, ret, stat0 inum)
    end
  else
    '(y, ret, info) ← getdir revoked now y inum;
    match info with
    | Some i => Some (y, ret, Stat inum DIR_MODE 2 0 (di_atime i) (di_mtime i) (di_ctime i))
    | None => Some (y, ret, stat0 inum)
    end.

Definition fuseserver_getattr (y : yfs) (ino : Z) : option (yfs * list reply) :=
  '(y, ret, st) ← getattr y ino;
  Some (y, [if negb (ret =? OK) then ReplyErr ENOENT else ReplyAttr st]).

Definition fuseserver_setattr (y : yfs) (ino : Z) (attr : stat) (to_set : Z) : option (yfs * list reply) :=
  if negb (Z.land FUSE_SET_ATTR_SIZE to_set =? 0) then
    '(y, ret) ← yfs_setattr revoked now y ino
      (extent_protocol.Attr (wrap 32 (st_atime attr)) (wrap 32 (st_mtime attr)) (wrap 32 (st_ctime attr)) (wrap 32 (st_size attr)));
    if negb (ret =? OK) then Some (y, [ReplyErr ENOENT])
    else '(y, _, st) ← getattr y ino; Some (y, [ReplyAttr st])
  else Some (y, [ReplyErr ENOSYS]).

Definition fuseserver_read (y : yfs) (ino size off : Z) : option (yfs * list reply) :=
  '(y, ret, buf) ← read revoked now y ino size off;
  Some (y, [if negb (ret =? OK) then ReplyErr ENOENT else ReplyBuf buf]).

Definition fuseserver_write (y : yfs) (ino : Z) (buf : string) (off : Z) : option (yfs * list reply) :=
  '(y, ret) ← write revoked uninit now y ino buf off;
  Some (y, [if negb (ret =? OK) then ReplyErr ENOENT else ReplyWrite (str_size buf)]).

(** The status, and the entry when it is OK. *)
Definition fuseserver_createhelper (y : yfs) (parent : Z) (name : string) (rands : list Z) : option (yfs * Z * fuse_entry_param) :=
  '(y, ret, ino) ← create tokenize revoked uninit now y parent name rands;
  if negb (ret =? OK) then Some (y, ret, EntryParam uninit (stat0 uninit))
  else '(y, ret, st) ← getattr y ino; Some (y, ret, EntryParam ino st).

(** What [fuseserver_create] and [fuseserver_mknod] reply to an error. *)
Definition create_error (ret : Z) : reply := ReplyErr (if ret =? EXIST then EEXIST else ENOENT).

Definition fuseserver_create (y : yfs) (parent : Z) (name : string) (rands : list Z) : option (yfs * list reply) :=
  '(y, ret, e) ← fuseserver_createhelper y parent name rands;
  Some (y, [if ret =? OK then ReplyCreate e else create_error ret]).
Definition fuseserver_mknod (y : yfs) (parent : Z) (name : string) (rands : list Z) : option (yfs * list reply) :=
  '(y, ret, e) ← fuseserver_createhelper y parent name rands;
  Some (y, [if ret =? OK then ReplyEntry e else create_error ret]).

(** The loop of [fuseserver_lookup]: [found] and [e]. *)
Fixpoint lookup_loop (y : yfs) (name : string) (dirents : list dirent) (e : option fuse_entry_param)
    : option (yfs * option fuse_entry_param) :=
  match dirents with
  | [] => Some (y, e)
  | d :: dirents =>
      if String.eqb name (d_name d) then
        '(y, _, st) ← getattr y (d_inum d);
        lookup_loop y name dirents (Some (EntryParam (d_inum d) st))
      else lookup_loop y name dirents e
  end.

Definition fuseserver_lookup (y : yfs) (parent : Z) (name : string) : option (yfs * list reply) :=
  '(y, ret, dirents) ← readdir tokenize revoked uninit now y parent;
  if negb (ret =? OK) then Some (y, [ReplyErr ENOENT])
  else
    '(y, e) ← lookup_loop y name dirents None;
    Some (y, [match e with Some e => ReplyEntry e | None => ReplyErr ENOENT end]).

(** The buffer after [dirbuf_add]; the last argument of [fuse_add_dirent] is its new size. *)
Definition dirbuf_add (b : string) (name : string) (ino : Z) : string :=
  String.append b (fuse_add_dirent (c_str name) (stat0 ino) (str_size b + fuse_dirent_size (str_size (c_str name)))).

(** [(size_t)off] of a negative offset is beyond every buffer. *)
Definition reply_buf_limited (buf : string) (off maxsize : Z) : reply :=
  if wrap 64 off <? str_size buf
  then ReplyBuf (String.substring (Z.to_nat off) (Z.to_nat (Z.min (str_size buf - off) maxsize)) buf)
  else ReplyBuf "".

(** An error does not return: the empty buffer follows as a second reply. *)
Definition fuseserver_readdir (y : yfs) (ino size off : Z) : option (yfs * list reply) :=
  if negb (isdir ino) then Some (y, [ReplyErr ENOTDIR])
  else
    '(y, ret, dirents) ← readdir tokenize revoked uninit now y ino;
    let b := foldl (fun b d => dirbuf_add b (d_name d) (d_inum d)) ""%string dirents in
    Some (y, (if negb (ret =? OK) then [ReplyErr ENOENT] else []) ++ [reply_buf_limited b off size]).

Definition fuseserver_open (y : yfs) : option (yfs * list reply) := Some (y, [ReplyOpen]).

Definition fuseserver_mkdir (y : yfs) (parent : Z) (name : string) (rands : list Z) : option (yfs * list reply) :=
  '(y, ret, ino) ← mkdir tokenize revoked uninit now y parent name rands;
  if ret =? EXIST then Some (y, [ReplyErr EEXIST])
  else if negb (ret =? OK) then Some (y, [ReplyErr ENOENT])
  else '(y, _, st) ← getattr y ino; Some (y, [ReplyEntry (EntryParam ino st)]).

(** [fuse_reply_err] with 0 is success. *)
Definition fuseserver_unlink (y : yfs) (parent : Z) (name : string) : option (yfs * list reply) :=
  '(y, ret) ← unlink tokenize revoked uninit now y parent name;
  Some (y, [ReplyErr (if negb (ret =? OK) then ENOENT else 0)]).

Definition fuseserver_statfs (y : yfs) : option (yfs * list reply) := Some (y, [ReplyStatfs 255 512]).

(** The requests, and the handlers [main] gives them. *)
Inductive request := Getattr (ino : Z) | Statfs | Readdir (ino size off : Z) | Lookup (parent : Z) (name : string)
  | Create (parent : Z) (name : string) (rands : list Z) | Mknod (parent : Z) (name : string) (rands : list Z) | Open
  | Read (ino size off : Z) | Write (ino : Z) (buf : string) (off : Z) | Setattr (ino : Z) (attr : stat) (to_set : Z)
  | Unlink (parent : Z) (name : string) | Mkdir (parent : Z) (name : string) (rands : list Z).

Definition fuseserver_oper (y : yfs) (r : request) : option (yfs * list reply) :=
  match r with
  | Getattr ino => fuseserver_getattr y ino
  | Statfs => fuseserver_statfs y
  | Readdir ino size off => fuseserver_readdir y ino size off
  | Lookup parent name => fuseserver_lookup y parent name
  | Create parent name rands => fuseserver_create y parent name rands
  | Mknod parent name rands => fuseserver_mknod y parent name rands
  | Open => fuseserver_open y
  | Read ino size off => fuseserver_read y ino size off
  | Write ino buf off => fuseserver_write y ino buf off
  | Setattr ino attr to_set => fuseserver_setattr y ino attr to_set
  | Unlink parent name => fuseserver_unlink y parent name
  | Mkdir parent name rands => fuseserver_mkdir y parent name rands
  end.

(** ** Every request is answered once *)

(** A handler that returns has sent one reply, except [fuseserver_readdir] of a directory
    that cannot be read, which sends two. *)
Lemma one_reply y r y' rs : fuseserver_oper y r = Some (y', rs) ->
  length rs = 1%nat \/ exists ino size off, r = Readdir ino size off /\ rs = [ReplyErr ENOENT; reply_buf_limited "" off size].
Proof using.
  destruct r as [ino| |ino size off|p name|p name rands|p name rands| |ino size off|ino buf off|ino a t|p name|p name rands]; cbn [fuseserver_oper].
  3: { unfold fuseserver_readdir. destruct (negb (isdir ino)); [intros [= <- <-]; by left|]. intros H.
       destruct (readdir tokenize revoked uninit now y ino) as [[[y1 ret] ds]|] eqn:E; [|done]. cbn [mbind option_bind] in H. injection H as <- <-.
       destruct (Z.eqb_spec ret OK) as [->|Hne]; [by left|]. right. exists ino, size, off. split; [done|]. f_equal.
       unfold readdir, readdir_internal in E. destruct (lc_acquire y ino) as [y2|]; [|done]. cbn [mbind option_bind] in E.
       destruct (y_get now y2 ino) as [[[y3 r3] b]|]; [|done]. cbn [mbind option_bind] in E. destruct (negb (r3 =? extent_protocol.OK)).
       - cbn [mbind option_bind] in E. destruct (lc_release revoked now y3 ino); [|done]. by injection E as <- <- <-.
       - destruct (parse_entries uninit (tokenize b)) as [l|]; [|done]. cbn [mbind option_bind] in E. destruct (lc_release revoked now y3 ino); [|done].
         cbn [mbind option_bind] in E. congruence. }
  all: intros H; left; revert H; unfold fuseserver_getattr, fuseserver_statfs, fuseserver_lookup, fuseserver_create, fuseserver_mknod, fuseserver_open, fuseserver_read, fuseserver_write,
    fuseserver_setattr, fuseserver_unlink, fuseserver_mkdir; unfold mbind, option_bind; repeat case_match; intros [= <- <-]; done.
Qed.

(** ** Attributes *)

Lemma y_getattr_ok y id : y_inv y -> exists y' a, y_getattr y id = (y', extent_protocol.OK, a) /\ y_upd y y' (y_content y) /\ y_held y' = y_held y /\
  (forall b, sized y id -> y_content y id = Some b -> extent_protocol.size a = wrap 32 (str_size b)).
Proof using.
  intros Hi. unfold y_getattr, ec_getattr. destruct (ec_attrs (y_ec y) !! id) as [a|] eqn:Ea.
  - eexists _, a. split; [done|]. split; [by destruct y|]. split; [done|]. intros b Hs Hb. by apply (Hs b Hb).
  - pose proof (es_getattr_content (y_srv y) id) as Hg. unfold es_getattr in *. cbn in Hg. destruct Hg as (_ & _ & Hg).
    eexists _, _. split; [done|]. split; [|split; [done|]].
    + destruct (cache_same (y_ec y) (y_srv y) (ExtentClient (ec_extents (y_ec y)) (ec_dirty (y_ec y)) (<[id := attr_of (es_attrs (y_srv y)) id]> (ec_attrs (y_ec y))) (ec_dirty_attrs (y_ec y)) (ec_removed (y_ec y)))
        (ExtentServer (es_extents (y_srv y)) (<[id := attr_of (es_attrs (y_srv y)) id]> (es_attrs (y_srv y)))) Hi) as [Hi' Hc]; [done..|].
      split; [done|done|done|done|]. intros i Hs b Hb. unfold y_content in Hb. cbn in Hb, Hc. rewrite Hc in Hb. destruct (Hs b Hb) as (H1 & H2 & H3).
      unfold attrs_ok. cbn. rewrite attr_of_same. destruct (decide (id = i)) as [<-|Hne]; [|by rewrite lookup_insert_ne by done]. rewrite lookup_insert_eq.
      split; [|done]. intros a [= <-]. apply H3. intros Hd. destruct (H2 Hd) as [? ?]. congruence.
    + intros b Hs Hb. destruct (Hs b Hb) as (H1 & H2 & H3). apply H3. intros Hd. destruct (H2 Hd) as [? ?]. congruence.
Qed.

(** [getattr] succeeds for every number, whether there is a file or not; the size of a file
    is that of its contents. *)
Lemma getattr_ok y id : y_inv y -> id ∉ y_held y -> exists y' st, getattr y id = Some (y', OK, st) /\ y_upd y y' (y_content y) /\ y_held y' = y_held y /\
  (isfile id = true -> st_mode st = REG_MODE /\ forall b, sized y id -> y_content y id = Some b -> str_size b < 2 ^ 32 -> st_size st = str_size b).
Proof using.
  intros Hi Hh. destruct (lc_acquire_ok y id Hh Hi) as (y1 & Ha & Hu1 & Hh1). destruct (y_getattr_ok y1 id (yu_inv _ _ _ Hu1)) as (y2 & a & Hg & Hu2 & Hh2 & Hsz).
  destruct (lc_release_ok revoked now y2 id) as (y3 & Hr & Hu3 & Hh3); [rewrite Hh2, Hh1; constructor|apply Hu2|].
  assert (Hheld : y_held y3 = y_held y) by (by rewrite Hh3, Hh2, Hh1, remove_lock_head).
  assert (Hu : y_upd y y3 (y_content y)).
  { apply (y_upd_trans _ y1); [done|]. eapply y_upd_weaken; [apply (y_upd_trans _ y2); [exact Hu2|exact Hu3]|].
    intros i. rewrite (yu_content _ _ _ Hu2). apply (yu_content _ _ _ Hu1). }
  unfold getattr, getfile, getdir. rewrite Ha. cbn [mbind option_bind]. rewrite Hg. cbn [negb Z.eqb extent_protocol.OK]. rewrite Hr. cbn [mbind option_bind].
  destruct (isfile id); eexists _, _; (split; [done|]); (split; [exact Hu|]); (split; [done|]); [|done]. intros _. split; [done|].
  intros b Hs Hb Hlt. cbn. rewrite (Hsz b); [apply wrap_small; pose proof (str_size_nonneg b); lia|by apply (yu_sized _ _ _ Hu1)|by rewrite (yu_content _ _ _ Hu1)].
Qed.

Lemma readdir_upd y p ds : tokenizer_spec tokenize -> Forall dirent_ok ds -> y_inv y -> p ∉ ec_removed (y_ec y) ->
  y_content y p = Some (dir_string ds) -> p ∉ y_held y ->
  exists y', readdir tokenize revoked uninit now y p = Some (y', OK, ds) /\ y_upd y y' (y_content y) /\ y_held y' = y_held y.
Proof using.
  intros Ht Hds Hi Hr Hp Hh. unfold readdir. destruct (lc_acquire_ok y p Hh Hi) as (y1 & -> & Hu1 & Hh1). cbn [mbind option_bind].
  destruct (readdir_ok tokenize uninit now y1 p ds Ht Hds) as (y2 & -> & Hu2 & Hh2); [apply Hu1|by intros ?%(yu_removed _ _ _ Hu1)|by rewrite (yu_content _ _ _ Hu1)|].
  cbn [mbind option_bind]. destruct (lc_release_ok revoked now y2 p) as (y3 & -> & Hu3 & Hh3); [rewrite Hh2, Hh1; constructor|apply Hu2|].
  exists y3. split; [done|]. split; [|by rewrite Hh3, Hh2, Hh1, remove_lock_head].
  apply (y_upd_trans _ y1); [done|]. eapply y_upd_weaken; [apply (y_upd_trans _ y2); [exact Hu2|exact Hu3]|].
  intros i. rewrite (yu_content _ _ _ Hu2). apply (yu_content _ _ _ Hu1).
Qed.

(** Other clients ask for the locks [ls]. *)
Fixpoint revokes (y : yfs) (ls : list Z) : option yfs :=
  match ls with [] => Some y | l :: ls => y ← lc_revoke now y l; revokes y ls end.

Lemma revokes_ok ls : forall y, y_inv y -> exists y', revokes y ls = Some y' /\ y_upd y y' (y_content y) /\ y_held y' = y_held y.
Proof using.
  clear tokenize fuse_dirent_size fuse_add_dirent. induction ls as [|l ls IH]; intros y Hi; cbn [revokes]; [exists y; split; [done|]; by split|].
  destruct (lc_revoke_ok now y l Hi) as (y1 & -> & Hu1 & Hh1). cbn [mbind option_bind]. destruct (IH y1 (yu_inv _ _ _ Hu1)) as (y2 & -> & Hu2 & Hh2).
  exists y2. split; [done|]. split; [|congruence]. apply (y_upd_trans _ y1); [done|]. eapply y_upd_weaken; [exact Hu2|]. intros i. by rewrite (yu_content _ _ _ Hu1).
Qed.

(** A file that is there: nothing holds its lock, and its size is known. *)
Record live (y : yfs) (id : Z) (b : string) : Prop := {
  lv_inv : y_inv y; lv_removed : id ∉ ec_removed (y_ec y); lv_held : id ∉ y_held y; lv_content : y_content y id = Some b; lv_sized : sized y id }.

Lemma live_upd y y' id b : live y id b -> y_upd y y' (y_content y) -> y_held y' = y_held y -> live y' id b.
Proof using. intros [Hi Hr Hh Hc Hs] Hu Hheld. split; [apply Hu|by intros ?%(yu_removed _ _ _ Hu)|by rewrite Hheld|by rewrite (yu_content _ _ _ Hu)|by apply (yu_sized _ _ _ Hu)]. Qed.

Lemma fuse_getattr_ok y id b : live y id b -> isfile id = true -> str_size b < 2 ^ 32 -> exists y' st, fuseserver_getattr y id = Some (y', [ReplyAttr st]) /\
  st_mode st = REG_MODE /\ st_size st = str_size b /\ y_upd y y' (y_content y) /\ y_held y' = y_held y.
Proof using.
  intros L Hf Hlt. destruct (getattr_ok y id (lv_inv _ _ _ L) (lv_held _ _ _ L)) as (y' & st & Hg & Hu & Hh & Hst). destruct (Hst Hf) as [Hm Hsz].
  exists y', st. unfold fuseserver_getattr. rewrite Hg. split; [done|]. split; [done|]. split; [|done]. apply Hsz; [apply L|apply L|done].
Qed.

Lemma fuse_create_ok y p name rands ds n : tokenizer_spec tokenize -> y_inv y -> p ∉ ec_removed (y_ec y) ->
  Forall dirent_ok ds -> y_content y p = Some (dir_string ds) -> has_name name ds = false ->
  new_uniq_number (y_used y) rands = Some n -> p <> FILE_BASE + n -> p ∉ y_held y -> FILE_BASE + n ∉ y_held y -> FILE_BASE + n ∉ ec_removed (y_ec y) ->
  str_size (dir_string (ds ++ [Dirent name (FILE_BASE + n)])) < 2 ^ 32 -> isfile (FILE_BASE + n) = true ->
  exists y' st, fuseserver_create y p name rands = Some (y', [ReplyCreate (EntryParam (FILE_BASE + n) st)]) /\ st_mode st = REG_MODE /\ st_size st = 0 /\
    live y' (FILE_BASE + n) "" /\ y_content y' p = Some (dir_string (ds ++ [Dirent name (FILE_BASE + n)])) /\ (p ∉ ec_removed (y_ec y')) /\ y_held y' = y_held y.
Proof using.
  clear fuse_dirent_size fuse_add_dirent. intros Ht Hi Hr Hds Hp Hnew Hn Hne Hph Hih Hir Hsz Hf. unfold fuseserver_create, fuseserver_createhelper.
  destruct (create_ok tokenize revoked uninit now y p name rands ds n) as (y1 & -> & Hh1 & Hi1 & _ & Hc1 & Hrm1 & Hs1); [done..|]. cbn [mbind option_bind negb Z.eqb OK].
  assert (L : live y1 (FILE_BASE + n) "").
  { split; [done|set_solver|by rewrite Hh1| |done]. rewrite Hc1, decide_False by congruence. by rewrite decide_True. }
  destruct (getattr_ok y1 (FILE_BASE + n) Hi1) as (y2 & st & -> & Hu & Hh2 & Hst); [apply L|]. cbn [mbind option_bind Z.eqb OK]. destruct (Hst Hf) as [Hm Hsize].
  exists y2, st. split; [done|]. split; [done|]. split; [by rewrite (Hsize ""%string (lv_sized _ _ _ L) (lv_content _ _ _ L))|].
  split; [by apply (live_upd y1)|]. split; [by rewrite (yu_content _ _ _ Hu), Hc1, decide_True|]. split; [|congruence]. intros ?%(yu_removed _ _ _ Hu). set_solver.
Qed.

Lemma has_name_false name ds : has_name name ds = false -> Forall (fun d => String.eqb name (d_name d) = false) ds.
Proof using. intros H. induction ds as [|d ds IH]; [constructor|]. cbn in H. apply orb_false_iff in H as [H1 H2]. constructor; [done|by apply IH]. Qed.

(** The last entry of a directory is found, with the size of its file. *)
Lemma fuse_lookup_last y p name ds id b : tokenizer_spec tokenize -> Forall dirent_ok (ds ++ [Dirent name id]) -> p ∉ ec_removed (y_ec y) -> p ∉ y_held y ->
  y_content y p = Some (dir_string (ds ++ [Dirent name id])) -> has_name name ds = false -> live y id b -> isfile id = true -> str_size b < 2 ^ 32 ->
  exists y' st, fuseserver_lookup y p name = Some (y', [ReplyEntry (EntryParam id st)]) /\ st_mode st = REG_MODE /\ st_size st = str_size b.
Proof using.
  intros Ht Hds Hr Hh Hp Hnew L Hf Hlt. unfold fuseserver_lookup.
  destruct (readdir_upd y p _ Ht Hds (lv_inv _ _ _ L) Hr Hp Hh) as (y1 & -> & Hu1 & Hh1). cbn [mbind option_bind negb Z.eqb OK].
  assert (L1 : live y1 id b) by (by apply (live_upd y)).
  assert (Hloop : forall l, Forall (fun d => String.eqb name (d_name d) = false) l -> forall e, lookup_loop y1 name (l ++ [Dirent name id]) e = lookup_loop y1 name [Dirent name id] e).
  { intros l Hl. induction Hl as [|d l Hd _ IH]; intros e; [done|]. cbn [app lookup_loop]. rewrite Hd. apply IH. }
  rewrite Hloop by (by apply has_name_false). cbn [lookup_loop d_name d_inum]. rewrite String.eqb_refl.
  destruct (getattr_ok y1 id (lv_inv _ _ _ L1) (lv_held _ _ _ L1)) as (y2 & st & -> & _ & _ & Hst). cbn [mbind option_bind]. destruct (Hst Hf) as [Hm Hsz].
  exists y2, st. split; [done|]. split; [done|]. apply Hsz; [apply L1|apply L1|done].
Qed.

Lemma isfile_new n : 0 <= n < FILE_BASE -> isfile (FILE_BASE + n) = true.
Proof using.
  intros Hn. unfold isfile. apply negb_true_iff, Z.eqb_neq. intros E. assert (Z.testbit (Z.land (FILE_BASE + n) FILE_BASE) 31 = false) as H by (rewrite E; apply Z.bits_0).
  rewrite Z.land_spec in H. change (Z.testbit FILE_BASE 31) with true in H. rewrite andb_true_r in H.
  assert (Z.testbit (FILE_BASE + n) 31 = true); [|congruence].
  apply Z.testbit_true; [lia|]. unfold FILE_BASE in *. change (2 ^ 31) with 2147483648.
  replace (2147483648 + n) with (n + 1 * 2147483648) by lia. rewrite Z.div_add by lia. rewrite (Z.div_small n) by lia. done.
Qed.

Lemma overwrite_empty buf off : 0 <= off -> str_size (overwrite "" buf off) = off + str_size buf.
Proof using.
  intros Hoff. unfold overwrite, str_size. change (Z.of_nat (String.length "")) with 0. destruct (Z.leb_spec off 0).
  - assert (off = 0) as -> by lia. change (Z.to_nat 0) with 0%nat. rewrite !length_append. change (String.substring 0 0 "") with ""%string.
    assert (String.substring (Z.to_nat (0 + Z.of_nat (String.length buf))) 0 "" = ""%string) as -> by (by destruct (Z.to_nat _)). cbn. lia.
  - rewrite !length_append, length_zeros by lia. cbn. lia.
Qed.

(** C34. The life of a file through the handlers of FUSE, called one after the other, whichever
    locks are revoked when they are released and whichever are revoked between the calls, and
    hence flushed: [create] of a name that the directory does not have replies a new regular
    file of size 0, [write] at any offset replies the number of bytes, [read] of the same range
    replies the data, [getattr] replies the end of the data as the size, and [lookup] of the
    name in the directory replies the same number and size.  This takes that the tokenizer
    splits at the semicolons; that the name and the names in the directory have no colon or
    semicolon; that the directory and the file stay below 4 GB, the size in the attributes
    having 32 bits; that no other client writes the extents meanwhile; and that neither the
    directory nor the new inode number is locked or removed without having been flushed. *)
Theorem fuse_file_life y p name rands ds n buf off ls1 ls2 ls3 ls4 : tokenizer_spec tokenize -> y_inv y -> p ∉ ec_removed (y_ec y) -> p ∉ y_held y ->
  Forall dirent_ok ds -> y_content y p = Some (dir_string ds) -> name_ok name -> has_name name ds = false ->
  new_uniq_number (y_used y) rands = Some n -> p <> FILE_BASE + n -> FILE_BASE + n ∉ y_held y -> FILE_BASE + n ∉ ec_removed (y_ec y) ->
  str_size (dir_string (ds ++ [Dirent name (FILE_BASE + n)])) < 2 ^ 32 -> 0 <= off -> off + str_size buf < 2 ^ 32 ->
  let ino := FILE_BASE + n in
  exists y1 y1' y2 y2' y3 y3' y4 y4' y5 st1 st4 st5,
    fuseserver_oper y (Create p name rands) = Some (y1, [ReplyCreate (EntryParam ino st1)]) /\ st_mode st1 = REG_MODE /\ st_size st1 = 0 /\ revokes y1 ls1 = Some y1' /\
    fuseserver_oper y1' (Write ino buf off) = Some (y2, [ReplyWrite (str_size buf)]) /\ revokes y2 ls2 = Some y2' /\
    fuseserver_oper y2' (Read ino (str_size buf) off) = Some (y3, [ReplyBuf buf]) /\ revokes y3 ls3 = Some y3' /\
    fuseserver_oper y3' (Getattr ino) = Some (y4, [ReplyAttr st4]) /\ st_size st4 = off + str_size buf /\ revokes y4 ls4 = Some y4' /\
    fuseserver_oper y4' (Lookup p name) = Some (y5, [ReplyEntry (EntryParam ino st5)]) /\ st_size st5 = off + str_size buf.
Proof using.
  intros Ht Hi Hr Hph Hds Hp Hname Hnew Hn Hne Hih Hir Hsz Hoff Hlen ino. destruct (new_uniq_number_range _ _ _ Hn) as [Hrange _].
  assert (Hf : isfile ino = true) by (apply isfile_new; lia). pose proof (overwrite_empty buf off Hoff) as Hov. destruct (overwrite_read "" buf off Hoff) as [Hle Hread].
  destruct (fuse_create_ok y p name rands ds n) as (y1 & st1 & E1 & Hm1 & Hs1 & L1 & Hp1 & Hr1 & Hh1); [done..|].
  destruct (revokes_ok ls1 y1 (lv_inv _ _ _ L1)) as (y1' & R1 & Hv1 & Hk1). apply (live_upd y1 y1') in L1; [|done..].
  destruct (write_ok revoked uninit now y1' ino "" buf off) as (y2 & E2 & Hh2 & Hs2 & Hu2); [apply L1..|lia|].
  assert (L2 : live y2 ino (overwrite "" buf off)).
  { split; [apply Hu2|intros ?%(yu_removed _ _ _ Hu2); by apply (lv_removed _ _ _ L1)|rewrite Hh2; apply L1|by rewrite (yu_content _ _ _ Hu2), decide_True|done]. }
  destruct (revokes_ok ls2 y2 (lv_inv _ _ _ L2)) as (y2' & R2 & Hv2 & Hk2). apply (live_upd y2 y2') in L2; [|done..].
  destruct (read_ok revoked now y2' ino (overwrite "" buf off) (str_size buf) off) as (y3 & E3 & Hh3 & Hu3); [apply L2..|done|].
  assert (L3 : live y3 ino (overwrite "" buf off)) by (by apply (live_upd y2')).
  destruct (revokes_ok ls3 y3 (lv_inv _ _ _ L3)) as (y3' & R3 & Hv3 & Hk3). apply (live_upd y3 y3') in L3; [|done..].
  destruct (fuse_getattr_ok y3' ino _ L3 Hf ltac:(lia)) as (y4 & st4 & E4 & _ & Hs4 & Hu4 & Hh4). assert (L4 : live y4 ino (overwrite "" buf off)) by (by apply (live_upd y3')).
  destruct (revokes_ok ls4 y4 (lv_inv _ _ _ L4)) as (y4' & R4 & Hv4 & Hk4). apply (live_upd y4 y4') in L4; [|done..].
  destruct (fuse_lookup_last y4' p name ds ino (overwrite "" buf off)) as (y5 & st5 & E5 & _ & Hs5).
  - done.
  - apply Forall_app. split; [done|]. constructor; [|done]. split; [done|]. unfold in_u64, ino, FILE_BASE in *. cbn. lia.
  - intros ?%(yu_removed _ _ _ Hv4)%(yu_removed _ _ _ Hu4)%(yu_removed _ _ _ Hv3)%(yu_removed _ _ _ Hu3)%(yu_removed _ _ _ Hv2)%(yu_removed _ _ _ Hu2)%(yu_removed _ _ _ Hv1). done.
  - by rewrite Hk4, Hh4, Hk3, Hh3, Hk2, Hh2, Hk1, Hh1.
  - rewrite (yu_content _ _ _ Hv4), (yu_content _ _ _ Hu4), (yu_content _ _ _ Hv3), (yu_content _ _ _ Hu3), (yu_content _ _ _ Hv2), (yu_content _ _ _ Hu2).
    rewrite decide_False by done. by rewrite (yu_content _ _ _ Hv1).
  - done.
  - done.
  - done.
  - lia.
  - exists y1, y1', y2, y2', y3, y3', y4, y4', y5, st1, st4, st5. cbn [fuseserver_oper]. split; [done|]. split; [done|]. split; [done|]. split; [done|]. split; [by unfold fuseserver_write; rewrite E2|]. split; [done|].
    split; [unfold fuseserver_read; rewrite E3; cbn; by rewrite Hread|]. rewrite <- Hov. by split_and!.
Qed.

(** A read beyond the end is not answered with no bytes, as the comment asks: the exception
    of [substr] ends the process. *)
Lemma fuse_read_past_end y ino b size off : live y ino b -> str_size b < off -> fuseserver_read y ino size off = None.
Proof using.
  intros L Hoff. unfold fuseserver_read, read. destruct (lc_acquire_ok y ino (lv_held _ _ _ L) (lv_inv _ _ _ L)) as (y1 & -> & Hu1 & _). cbn [mbind option_bind].
  destruct (y_get_ok now y1 ino b) as (y2 & -> & _); [apply Hu1|intros ?%(yu_removed _ _ _ Hu1); by apply (lv_removed _ _ _ L)|rewrite (yu_content _ _ _ Hu1); apply L|].
  cbn [mbind option_bind negb Z.eqb extent_protocol.OK]. unfold VERIFY. destruct (Z.leb_spec off (str_size b)); [lia|done].
Qed.
End Fuse.

(** Every second release flushes the extent to the server. *)
Definition sometimes (t : nat) (l : Z) : bool := Nat.even t.
Definition no_dirent (name : string) (st : stat) (off : Z) : string := name.

Lemma fuse_file_life_witness : exists y1 y1' y2 y2' y3 y3' y4 y4' y5 st1 st4 st5,
  let oper := fuseserver_oper tokens sometimes 7 9 (fun n => n) no_dirent in
  oper small_fs (Create 1 "c" [0; 5; 7]) = Some (y1, [ReplyCreate (EntryParam (FILE_BASE + 7) st1)]) /\ st_mode st1 = REG_MODE /\ st_size st1 = 0 /\ revokes 9 y1 [1; 2] = Some y1' /\
  oper y1' (Write (FILE_BASE + 7) "xyz" 8) = Some (y2, [ReplyWrite (str_size "xyz")]) /\ revokes 9 y2 [FILE_BASE + 7] = Some y2' /\
  oper y2' (Read (FILE_BASE + 7) (str_size "xyz") 8) = Some (y3, [ReplyBuf "xyz"]) /\ revokes 9 y3 [] = Some y3' /\
  oper y3' (Getattr (FILE_BASE + 7)) = Some (y4, [ReplyAttr st4]) /\ st_size st4 = 8 + str_size "xyz" /\ revokes 9 y4 [1] = Some y4' /\
  oper y4' (Lookup 1 "c") = Some (y5, [ReplyEntry (EntryParam (FILE_BASE + 7) st5)]) /\ st_size st5 = 8 + str_size "xyz".
Proof.
  apply (fuse_file_life tokens sometimes 7 9 (fun n => n) no_dirent small_fs 1 "c" [0; 5; 7] two_files 7 "xyz" 8 [1; 2] [FILE_BASE + 7] [] [1] tokens_spec small_fs_inv).
  - cbn. set_solver.
  - cbn. set_solver.
  - exact two_files_ok.
  - vm_compute. reflexivity.
  - split; [by repeat constructor|vm_compute; reflexivity].
  - reflexivity.
  - vm_compute. reflexivity.
  - discriminate.
  - cbn. set_solver.
  - cbn. set_solver.
  - vm_compute. reflexivity.
  - lia.
  - vm_compute. reflexivity.
Defined.

(** Attributes are given for a number that no file has. *)
Example attributes_of_nothing : exists y' st, fuseserver_oper tokens never 7 9 (fun n => n) no_dirent small_fs (Getattr (FILE_BASE + 99)) = Some (y', [ReplyAttr st]) /\ st_size st = 0.
Proof. eexists _, _. split; [vm_compute; reflexivity|reflexivity]. Qed.

(** A directory that does not exist is answered twice. *)
Example two_replies : exists y', fuseserver_oper tokens never 7 9 (fun n => n) no_dirent small_fs (Readdir 77 100 0) = Some (y', [ReplyErr ENOENT; ReplyBuf ""]).
Proof. eexists. vm_compute. reflexivity. Qed.
