(* ===== verification/BPlusTree.v ===== *)
(** * The in-memory B+ tree

    Models src/b+tree/b+tree.c.  A node is its array of keys up to [nkeys] with the
    values or children beside them; the list that links the leaves is their order in
    the tree.  The recursion is by height ([None] also stands for a failed assertion
    or an index outside an array); the theorems show that the height of the tree is
    enough.  Keys are [int]s. *)

From Stdlib Require Import ZArith Lia.
From stdpp Require Import base list sorting gmap.
From S2P Require Import Prelude.

Local Open Scope nat_scope.
Local Open Scope cpp_scope.

Inductive node :=
  | Leaf (cells : list (Z * Z))
  | Index (keys : list Z) (child : list node).

Record btree := BTree { root : node; bt_t : nat }.

Definition is_leaf_node (n : node) : bool := match n with Leaf _ => true | Index _ _ => false end.
Definition nkeys (n : node) : nat := match n with Leaf l => length l | Index ks _ => length ks end.

Definition btree_new (t : nat) : btree := BTree (Leaf []) t.

(** The loops [for (i = nkeys-1; i >= 0 && key < keys[i]; i--)]: [i + 1]. *)
Fixpoint slot (key : Z) (keys : list Z) : nat :=
  match keys with
  | [] => 0
  | k :: ks => match slot key ks with
               | 0 => if (key <? k)%Z then 0 else 1
               | S i => S (S i)
               end
  end.

(** The loop of [btree_get], from the left. *)
Fixpoint slot_from_left (key : Z) (keys : list Z) : nat :=
  match keys with
  | k :: ks => if (k <=? key)%Z then S (slot_from_left key ks) else 0
  | [] => 0
  end.

(** ** Insertion *)

(** [btree_split]: child [ci] into two, its middle key into the parent. *)
Definition split_node (t : nat) (c : node) : option (node * Z * node) :=
  match c with
  | Leaf l => up ← l !! (t - 1); Some (Leaf (take (t - 1) l), fst up, Leaf (take t (drop (t - 1) l)))
  | Index ks cs =>
      up ← ks !! (t - 1);
      Some (Index (take (t - 1) ks) (take t cs), up, Index (take (t - 1) (drop t ks)) (take t (drop t cs)))
  end.

Definition btree_split (t : nat) (keys : list Z) (child : list node) (ci : nat) : option (list Z * list node) :=
  c ← child !! ci;
  '(l, up, r) ← split_node t c;
  Some (take ci keys ++ up :: drop ci keys, take ci child ++ l :: r :: drop (ci + 1) child).

Fixpoint btree_insert_internal (fuel t : nat) (bp : node) (key val : Z) : option node :=
  match fuel with
  | 0 => None
  | S fuel =>
      match bp with
      | Leaf l => let i := slot key l.*1 in Some (Leaf (take i l ++ (key, val) :: drop i l))
      | Index keys child =>
          let i := slot key keys in
          c ← child !! i;
          '(keys, child, i) ←
            (if nkeys c =? 2 * t - 1 then
               '(keys, child) ← btree_split t keys child i;
               k ← keys !! i;
               Some (keys, child, if (k <=? key)%Z then S i else i)
             else Some (keys, child, i));
          c ← child !! i;
          c ← btree_insert_internal fuel t c key val;
          Some (Index keys (<[i := c]> child))
      end
  end.

Definition btree_insert (fuel : nat) (bt : btree) (key val : Z) : option btree :=
  let t := bt_t bt in
  if nkeys (root bt) =? 2 * t - 1 then
    '(keys, child) ← btree_split t [] [root bt] 0;
    r ← btree_insert_internal fuel t (Index keys child) key val;
    Some (BTree r t)
  else
    r ← btree_insert_internal fuel t (root bt) key val;
    Some (BTree r t).

(** ** Deletion *)

(** [redistribute] on the node to fill, the node to borrow from, and the key between
    them: the two nodes and the new key. *)
Definition redistribute_nodes (t : nat) (me_is_left : bool) (me borrow : node) (pkey : Z)
    : option (node * node * Z) :=
  VERIFY! (nkeys me <? t - 1) && (t - 1 <? nkeys borrow) ;;
  let nborrow := (nkeys me + nkeys borrow) / 2 - nkeys me in
  VERIFY! (nborrow <? nkeys borrow) ;;
  match me, borrow with
  | Leaf m, Leaf b =>
      if me_is_left then
        up ← b !! nborrow;
        Some (Leaf (m ++ take nborrow b), Leaf (drop nborrow b), fst up)
      else
        let moved := drop (length b - nborrow) b in
        up ← (moved ++ m) !! 0;
        Some (Leaf (moved ++ m), Leaf (take (length b - nborrow) b), fst up)
  | Index mk mc, Index bk bc =>
      if me_is_left then
        up ← bk !! (nborrow - 1);
        Some (Index (mk ++ pkey :: take (nborrow - 1) bk) (mc ++ take nborrow bc),
              Index (drop nborrow bk) (drop nborrow bc), up)
      else
        last ← bc !! length bk;
        let start := length bk - nborrow in
        let keep := Index (take (length bk - nborrow) bk) (take (length bk - nborrow + 1) bc) in
        (** the cells at [start], [nborrow - 1] of them, then the parent's key and the
            last child *)
        let me' := Index (take (nborrow - 1) (drop start bk) ++ pkey :: mk)
                     (take (nborrow - 1) (drop start bc) ++ last :: mc) in
        if 0 <? nborrow - 1 then up ← bk !! (start - 1); Some (me', keep, up)
        else up ← bk !! start; Some (me', keep, up)
  | _, _ => None
  end.

Definition redistribute (t : nat) (keys : list Z) (child : list node) (me borrow_from : nat)
    : option (list Z * list node) :=
  m ← child !! me;
  b ← child !! borrow_from;
  let p := if me <? borrow_from then me else borrow_from in
  pkey ← keys !! p;
  '(m, b, up) ← redistribute_nodes t (me <? borrow_from) m b pkey;
  Some (<[p := up]> keys, <[borrow_from := b]> (<[me := m]> child)).

Definition merge_nodes (l r : node) (pkey : Z) : option node :=
  match l, r with
  | Leaf x, Leaf y => Some (Leaf (x ++ y))
  | Index lk lc, Index rk rc => Some (Index (lk ++ pkey :: rk) (lc ++ rc))
  | _, _ => None
  end.

Definition merge (keys : list Z) (child : list node) (me to_merge : nat) : option (list Z * list node) :=
  let lo := if to_merge <? me then to_merge else me in
  let hi := if to_merge <? me then me else to_merge in
  l ← child !! lo;
  r ← child !! hi;
  pkey ← keys !! lo;
  n ← merge_nodes l r pkey;
  Some (delete lo keys, delete (S lo) (<[lo := n]> child)).

(** [balance]: prefer the left sibling. *)
Definition balance (t : nat) (keys : list Z) (child : list node) (ci : nat) : option (list Z * list node) :=
  let fat (j : nat) : bool := match child !! j with Some c => t - 1 <? nkeys c | None => false end in
  if (0 <? ci) && fat (ci - 1) then redistribute t keys child ci (ci - 1)
  else if (ci <? length keys) && fat (ci + 1) then redistribute t keys child ci (ci + 1)
  else if 0 <? ci then merge keys child ci (ci - 1)
  else VERIFY! (ci <? length keys) ;; merge keys child ci (ci + 1).

Fixpoint btree_delete_internal (fuel t : nat) (bp : node) (key : Z) : option (node * bool) :=
  match fuel with
  | 0 => None
  | S fuel =>
      match bp with
      | Leaf l =>
          let i := slot key l.*1 in
          match i with
          | 0 => Some (Leaf l, false)
          | S i =>
              match l !! i with
              | Some (k, _) =>
                  if (key =? k)%Z then let l := delete i l in Some (Leaf l, length l <? t - 1)
                  else Some (Leaf l, false)
              | None => None
              end
          end
      | Index keys child =>
          let i := slot key keys in
          c ← child !! i;
          '(c, tmp) ← btree_delete_internal fuel t c key;
          let child := <[i := c]> child in
          '(keys, child) ← (if (tmp : bool) then balance t keys child i else Some (keys, child));
          Some (Index keys child, length keys <? t - 1)
      end
  end.

Definition btree_delete (fuel : nat) (bt : btree) (key : Z) : option btree :=
  '(r, _) ← btree_delete_internal fuel (bt_t bt) (root bt) key;
  match r with
  | Index [] child => c ← child !! 0; Some (BTree c (bt_t bt))
  | _ => Some (BTree r (bt_t bt))
  end.

(** ** Lookup *)

(** [btree_get]: the cell instead of the leaf and the slot in it. *)
Fixpoint btree_get (fuel : nat) (bp : node) (key : Z) : option (option (Z * Z)) :=
  match fuel with
  | 0 => None
  | S fuel =>
      match bp with
      | Index keys child => c ← child !! slot_from_left key keys; btree_get fuel c key
      | Leaf l =>
          match slot_from_left key l.*1 with
          | 0 => Some None
          | S i => c ← l !! i; Some (if (fst c =? key)%Z then Some c else None)
          end
      end
  end.

(** ** The invariant *)

Fixpoint elems (n : node) : list (Z * Z) :=
  match n with
  | Leaf l => l
  | Index _ cs => concat (map elems cs)
  end.

Definition cell_lt (p q : Z * Z) : Prop := (p.1 < q.1)%Z.
Definition within (lo hi : Z) (p : Z * Z) : Prop := (lo <= p.1 < hi)%Z.

(** Children between the keys: [P lo hi c] for each child and its two neighbours. *)
Fixpoint chain (P : Z -> Z -> node -> Prop) (lo : Z) (keys : list Z) (child : list node) (hi : Z) : Prop :=
  match keys, child with
  | [], [c] => (lo <= hi)%Z /\ P lo hi c
  | k :: ks, c :: cs => (lo <= k)%Z /\ P lo k c /\ chain P k ks cs hi
  | _, _ => False
  end.

(** A node of height [h] with keys from [lo] (included) to [hi] (excluded), at least
    [m] of them in the node itself and [t - 1] in each node below. *)
Fixpoint wf (t h m : nat) (lo hi : Z) (n : node) : Prop :=
  match h, n with
  | 0, Leaf l => m <= length l <= 2 * t - 1 /\ StronglySorted cell_lt l /\ Forall (within lo hi) l
  | S h, Index keys child => m <= length keys <= 2 * t - 1 /\ chain (wf t h (t - 1)) lo keys child hi
  | _, _ => False
  end.

(** The root may have fewer keys, but an index root has one. *)
Definition bt_wf (bt : btree) (h : nat) : Prop :=
  2 <= bt_t bt /\ wf (bt_t bt) h (match h with 0 => 0 | S _ => 1 end) (- 2 ^ 31) (2 ^ 31) (root bt).

(** *** Chains and their parts *)

(** The children before a point and after it. *)
Fixpoint chain_pre (P : Z -> Z -> node -> Prop) (lo : Z) (keys : list Z) (child : list node) (mid : Z) : Prop :=
  match keys, child with
  | [], [] => lo = mid
  | k :: ks, c :: cs => (lo <= k)%Z /\ P lo k c /\ chain_pre P k ks cs mid
  | _, _ => False
  end.
Definition chain_post (P : Z -> Z -> node -> Prop) (nxt : Z) (keys : list Z) (child : list node) (hi : Z) : Prop :=
  match keys with
  | [] => child = [] /\ nxt = hi
  | k :: ks => nxt = k /\ chain P k ks child hi
  end.

Section Chain.
Context (P : Z -> Z -> node -> Prop).

Lemma chain_length lo keys child hi : chain P lo keys child hi -> length child = S (length keys).
Proof using.
  revert lo child. induction keys as [|k ks IH]; intros lo [|c cs]; cbn; try done.
  - destruct cs; [done|done].
  - intros (_ & _ & H%IH). lia.
Qed.

Lemma chain_split lo ks1 ks2 cs1 c cs2 hi : length ks1 = length cs1 ->
  chain P lo (ks1 ++ ks2) (cs1 ++ c :: cs2) hi <->
  exists mid nxt, chain_pre P lo ks1 cs1 mid /\ (mid <= nxt)%Z /\ P mid nxt c /\ chain_post P nxt ks2 cs2 hi.
Proof using.
  revert lo cs1. induction ks1 as [|k ks1 IH]; intros lo [|c1 cs1] Hl; cbn in Hl; try lia; cbn [app].
  - destruct ks2 as [|k ks2]; cbn.
    + destruct cs2; [|naive_solver]. split; [intros [? ?]; exists lo, hi; naive_solver|naive_solver].
    + split; [intros (? & ? & ?); exists lo, k; naive_solver|naive_solver].
  - cbn. rewrite IH by lia. split; [intros (? & ? & mid & nxt & ?); exists mid, nxt; naive_solver|].
    intros (mid & nxt & (? & ? & ?) & ?). split; [done|]. split; [done|]. exists mid, nxt. naive_solver.
Qed.

Lemma chain_pre_le lo ks cs mid : chain_pre P lo ks cs mid -> (lo <= mid)%Z /\ Forall (fun k => (lo <= k <= mid)%Z) ks.
Proof using.
  revert lo cs. induction ks as [|k ks IH]; intros lo [|c cs]; cbn; try done.
  - intros ->. split; [lia|done].
  - intros (? & _ & [? H]%IH). split; [lia|]. constructor; [lia|]. eapply Forall_impl; [exact H|]. cbn. lia.
Qed.

Lemma chain_le lo ks cs hi : chain P lo ks cs hi -> (lo <= hi)%Z /\ Forall (fun k => (lo <= k <= hi)%Z) ks.
Proof using.
  revert lo cs. induction ks as [|k ks IH]; intros lo [|c cs]; cbn; try done.
  - destruct cs; [|done]. intros [? _]. split; [done|done].
  - intros (? & _ & [? H]%IH). split; [lia|]. constructor; [lia|]. eapply Forall_impl; [exact H|]. cbn. lia.
Qed.

Lemma chain_post_le nxt ks cs hi : chain_post P nxt ks cs hi -> (nxt <= hi)%Z /\ Forall (fun k => (nxt <= k)%Z) ks.
Proof using.
  destruct ks as [|k ks]; cbn; [intros [_ ->]; split; [lia|done]|].
  intros [-> [? H]%chain_le]. split; [done|]. constructor; [lia|]. eapply Forall_impl; [exact H|]. cbn. lia.
Qed.

Lemma chain_pre_length lo ks cs mid : chain_pre P lo ks cs mid -> length ks = length cs.
Proof using.
  revert lo cs. induction ks as [|k ks IH]; intros lo [|c cs]; cbn; try done. intros (_ & _ & ->%IH). done.
Qed.

(** Where the search for a key goes. *)
Lemma slot_app key ks1 ks2 : Forall (fun k => (k <= key)%Z) ks1 ->
  Forall (fun k => (key < k)%Z) ks2 -> slot key (ks1 ++ ks2) = length ks1.
Proof using.
  intros H1 H2. assert (H0 : slot key ks2 = 0).
  { induction H2 as [|k ks Hk _ IH]; cbn; [done|]. rewrite IH. destruct (Z.ltb_spec key k); lia. }
  induction H1 as [|k ks1 Hk _ IH]; cbn; [done|]. rewrite IH.
  destruct (length ks1); [destruct (Z.ltb_spec key k); lia|done].
Qed.

Lemma slot_from_left_app key ks1 ks2 : Forall (fun k => (k <= key)%Z) ks1 ->
  Forall (fun k => (key < k)%Z) ks2 -> slot_from_left key (ks1 ++ ks2) = length ks1.
Proof using.
  intros H1 H2. induction H1 as [|k ks Hk _ IH]; cbn.
  - destruct H2 as [|k ks2 Hk _]; cbn; [done|]. destruct (Z.leb_spec k key); lia.
  - destruct (Z.leb_spec k key); [by rewrite IH|lia].
Qed.

(** A sorted list of keys falls into those up to [key] and those above it. *)
Lemma keys_split key ks : StronglySorted Z.le ks -> exists ks1 ks2, ks = ks1 ++ ks2 /\
  Forall (fun k => (k <= key)%Z) ks1 /\ Forall (fun k => (key < k)%Z) ks2.
Proof using.
  induction 1 as [|k ks Hs (ks1 & ks2 & -> & H1 & H2) Hk]; [by exists [], []|].
  destruct (Z.le_gt_cases k key).
  - exists (k :: ks1), ks2. split; [done|]. split; [by constructor|done].
  - exists [], (k :: ks1 ++ ks2). split; [done|]. split; [done|]. constructor; [lia|].
    eapply Forall_impl; [exact Hk|]. cbn. lia.
Qed.

Lemma chain_sorted lo ks cs hi : chain P lo ks cs hi -> StronglySorted Z.le ks.
Proof using.
  revert lo cs. induction ks as [|k ks IH]; intros lo [|c cs]; cbn; try done; [constructor|].
  intros (_ & _ & H). constructor; [by eapply IH|]. apply chain_le in H as [_ H].
  eapply Forall_impl; [exact H|]. cbn. lia.
Qed.

(** Two chains with a key between them. *)
Lemma chain_app lo ks1 k ks2 cs1 cs2 hi : length cs1 = S (length ks1) ->
  chain P lo (ks1 ++ k :: ks2) (cs1 ++ cs2) hi <-> chain P lo ks1 cs1 k /\ chain P k ks2 cs2 hi.
Proof using.
  revert lo cs1. induction ks1 as [|k1 ks1 IH]; intros lo [|c1 cs1] Hl; cbn in Hl; try lia; cbn.
  - destruct cs1; [|cbn in *; lia]. cbn. naive_solver.
  - rewrite IH by lia. naive_solver.
Qed.

(** The child the search for [key] goes to. *)
Lemma chain_descend lo keys child hi key : chain P lo keys child hi -> (lo <= key < hi)%Z ->
  exists ks1 ks2 cs1 c cs2 mid nxt, keys = ks1 ++ ks2 /\ child = cs1 ++ c :: cs2 /\ length ks1 = length cs1 /\
    slot key keys = length cs1 /\ slot_from_left key keys = length cs1 /\
    chain_pre P lo ks1 cs1 mid /\ (mid <= key < nxt)%Z /\ P mid nxt c /\ chain_post P nxt ks2 cs2 hi.
Proof using.
  intros Hc Hkey. destruct (keys_split key keys (chain_sorted _ _ _ _ Hc)) as (ks1 & ks2 & -> & H1 & H2).
  pose proof (chain_length _ _ _ _ Hc) as Hl. rewrite length_app in Hl.
  destruct (lookup_lt_is_Some_2 child (length ks1)) as [c Hlk]; [lia|].
  rewrite <- (take_drop_middle _ _ _ Hlk) in Hc.
  assert (Hl1 : length ks1 = length (take (length ks1) child)) by (rewrite length_take; lia).
  apply (chain_split lo ks1 ks2 (take (length ks1) child) c) in Hc as (mid & nxt & Hpre & Hle & Hp & Hpost); [|done].
  exists ks1, ks2, (take (length ks1) child), c, (drop (S (length ks1)) child), mid, nxt.
  rewrite (take_drop_middle _ _ _ Hlk), slot_app, slot_from_left_app by done. repeat split; try done.
  - clear -H1 Hpre Hkey. revert Hpre. generalize (take (length ks1) child) as cs. revert lo Hkey.
    induction H1 as [|k ks Hk _ IH]; intros lo Hkey [|c cs]; cbn; try done; [lia|].
    intros (? & _ & H). eapply (IH k); [lia|exact H].
  - destruct H2 as [|k ks2 Hk _]; cbn in Hpost; [lia|]. destruct Hpost as [-> _]. done.
Qed.
End Chain.

Lemma chain_pair P lo ks1 k ks2 cs1 l r cs2 hi : length ks1 = length cs1 ->
  chain P lo (ks1 ++ k :: ks2) (cs1 ++ l :: r :: cs2) hi <->
  exists mid nxt, chain_pre P lo ks1 cs1 mid /\ (mid <= k <= nxt)%Z /\ P mid k l /\ P k nxt r /\ chain_post P nxt ks2 cs2 hi.
Proof.
  intros Hl. rewrite chain_split by done. cbn [chain_post].
  pose proof (fun k => chain_split P k [] ks2 [] r cs2 hi eq_refl) as Hs. cbn in Hs. split.
  - intros (mid & nxt & ? & ? & ? & -> & (m' & n' & <- & H)%Hs). exists mid, n'. naive_solver lia.
  - intros (mid & nxt & ? & ? & ? & ? & ?). exists mid, k. repeat split; try done; [lia|].
    apply Hs. exists k, nxt. naive_solver lia.
Qed.

(** *** The cells of a well-formed node *)

Lemma within_mono lo hi lo' hi' l : (lo' <= lo)%Z -> (hi <= hi')%Z -> Forall (within lo hi) l -> Forall (within lo' hi') l.
Proof. intros ? ? H. eapply Forall_impl; [exact H|]. unfold within. intros; lia. Qed.

Lemma sorted_app l1 l2 k lo hi : StronglySorted cell_lt l1 -> StronglySorted cell_lt l2 ->
  Forall (within lo k) l1 -> Forall (within k hi) l2 -> StronglySorted cell_lt (l1 ++ l2).
Proof.
  intros H1 H2 F1 F2. induction H1 as [|p l1 _ IH Hp]; cbn; [done|]. apply Forall_cons in F1 as [Fp F1].
  constructor; [by apply IH|]. apply Forall_app. split; [done|].
  eapply Forall_impl; [exact F2|]. unfold within, cell_lt in *. intros; lia.
Qed.

Definition ordered (lo hi : Z) (l : list (Z * Z)) : Prop := StronglySorted cell_lt l /\ Forall (within lo hi) l.

Lemma ordered_app lo k hi l1 l2 : (lo <= k <= hi)%Z -> ordered lo k l1 -> ordered k hi l2 -> ordered lo hi (l1 ++ l2).
Proof.
  intros ? [S1 F1] [S2 F2]. split; [by eapply sorted_app|].
  apply Forall_app. split; eapply within_mono; try eassumption; lia.
Qed.

Lemma chain_ordered (P : Z -> Z -> node -> Prop) lo keys child hi :
  (forall a b c, P a b c -> ordered a b (elems c)) -> chain P lo keys child hi ->
  ordered lo hi (concat (map elems child)).
Proof.
  intros HP. revert lo child. induction keys as [|k ks IH]; intros lo [|c cs]; cbn; try done.
  - destruct cs; [|done]. intros [_ H%HP]. cbn. by rewrite app_nil_r.
  - intros (Hle & H%HP & Hc). pose proof (chain_le _ _ _ _ _ Hc) as [? _].
    eapply ordered_app; [|done|by apply IH]. lia.
Qed.

Lemma wf_ordered t h m lo hi n : wf t h m lo hi n -> ordered lo hi (elems n).
Proof.
  revert m lo hi n. induction h as [|h IH]; intros m lo hi [l|keys child]; cbn; try done.
  - intros (_ & ? & ?). done.
  - intros [_ Hc]. eapply chain_ordered; [|exact Hc]. intros a b c. apply IH.
Qed.

Lemma chain_pre_within (P : Z -> Z -> node -> Prop) lo ks cs mid :
  (forall a b c, P a b c -> ordered a b (elems c)) -> chain_pre P lo ks cs mid ->
  Forall (within lo mid) (concat (map elems cs)).
Proof.
  intros HP. revert lo cs. induction ks as [|k ks IH]; intros lo [|c cs]; cbn; try done.
  intros (Hle & [_ H]%HP & Hc). pose proof (chain_pre_le _ _ _ _ _ Hc) as [? _].
  apply Forall_app. split; [eapply within_mono; [| |exact H]; lia|].
  eapply within_mono; [| |exact (IH _ _ Hc)]; lia.
Qed.

Lemma chain_post_within (P : Z -> Z -> node -> Prop) nxt ks cs hi :
  (forall a b c, P a b c -> ordered a b (elems c)) -> chain_post P nxt ks cs hi ->
  Forall (within nxt hi) (concat (map elems cs)).
Proof.
  intros HP. destruct ks as [|k ks]; cbn; [intros [-> _]; constructor|].
  intros [-> Hc]. by eapply chain_ordered.
Qed.

Lemma wf_weaken t h m m' lo hi n : m' <= nkeys n -> wf t h m lo hi n -> wf t h m' lo hi n.
Proof. destruct h, n; cbn; intros ?; try done; intros (? & ?); repeat split; try lia; tauto. Qed.

Lemma elems_middle keys cs1 c cs2 :
  elems (Index keys (cs1 ++ c :: cs2)) = concat (map elems cs1) ++ elems c ++ concat (map elems cs2).
Proof. cbn. by rewrite map_app, concat_app. Qed.

(** *** Insertion *)

Lemma split_at {A} (l : list A) (i : nat) : i < length l -> exists l1 x l2, l = l1 ++ x :: l2 /\ length l1 = i.
Proof.
  intros [x Hx]%lookup_lt_is_Some_2. exists (take i l), x, (drop (S i) l).
  split; [by rewrite take_drop_middle|]. apply lookup_lt_Some in Hx. rewrite length_take. lia.
Qed.

Lemma split_at_app {A} (l : list A) (i : nat) : i <= length l -> exists l1 l2, l = l1 ++ l2 /\ length l1 = i.
Proof. intros H. exists (take i l), (drop i l). rewrite take_drop, length_take. split; [done|lia]. Qed.

Lemma sorted_app_inv l1 p l2 lo hi : ordered lo hi (l1 ++ p :: l2) ->
  (lo <= p.1 <= hi)%Z /\ ordered lo p.1 l1 /\ ordered p.1 hi (p :: l2).
Proof.
  unfold ordered. intros [S F]. apply Forall_app in F as [F1 F2]. apply StronglySorted_app in S as (Slt & S1 & S2).
  pose proof F2 as [Fp Fl2]%Forall_cons. unfold within in Fp. repeat split; try done; [lia|lia| |].
  - apply Forall_forall. intros q Hq. pose proof (proj1 (Forall_forall _ _) F1 q Hq).
    specialize (Slt q p Hq (list_elem_of_here _ _)). unfold within, cell_lt in *. lia.
  - apply StronglySorted_inv in S2 as [_ Hlt]. constructor; [unfold within; lia|].
    apply Forall_forall. intros q Hq. pose proof (proj1 (Forall_forall _ _) Fl2 q Hq).
    pose proof (proj1 (Forall_forall _ _) Hlt q Hq). unfold within, cell_lt in *. lia.
Qed.

Lemma split_node_ok t h lo hi c : 2 <= t -> wf t h (t - 1) lo hi c -> nkeys c = 2 * t - 1 ->
  exists l up r, split_node t c = Some (l, up, r) /\ (lo <= up <= hi)%Z /\
    wf t h (t - 1) lo up l /\ wf t h (t - 1) up hi r /\ elems c = elems l ++ elems r /\
    nkeys l < 2 * t - 1 /\ nkeys r < 2 * t - 1.
Proof.
  intros Ht Hwf Hn. destruct h as [|h], c as [l|ks cs]; cbn in Hwf; try done; cbn in Hn.
  - destruct Hwf as (_ & Ho). destruct (split_at l (t - 1)) as (l1 & p & l2 & -> & Hl1); [lia|].
    rewrite length_app in Hn. cbn in Hn. apply sorted_app_inv in Ho as (Hp & [] & []). cbn [split_node].
    rewrite list_lookup_middle, take_app_length', drop_app_length' by done. cbn [mbind option_bind].
    rewrite firstn_all2 by (cbn; lia). exists (Leaf l1), p.1, (Leaf (p :: l2)). cbn. repeat split; try done; lia.
  - destruct Hwf as (_ & Hc). destruct (split_at ks (t - 1)) as (k1 & up & k2 & -> & Hk1); [lia|].
    pose proof (chain_length _ _ _ _ _ Hc) as Hl. rewrite length_app in Hn, Hl. cbn in Hn, Hl.
    destruct (split_at_app cs t) as (c1 & c2 & -> & Hc1); [lia|]. rewrite length_app in Hl.
    apply chain_app in Hc as [H1 H2]; [|lia]. cbn [split_node].
    rewrite list_lookup_middle,  (take_app_length' k1), (take_app_length' c1), (drop_app_length' c1) by done. cbn [mbind option_bind].
    rewrite (drop_app_ge k1), (firstn_all2 c2), Hk1 by lia. replace (t - (t - 1)) with 1 by lia.
    cbn [drop]. rewrite drop_0, (firstn_all2 k2) by lia.
    exists (Index k1 c1), up, (Index k2 c2). pose proof (chain_le _ _ _ _ _ H1) as [? _].
    pose proof (chain_le _ _ _ _ _ H2) as [? _]. cbn. rewrite map_app, concat_app.
    repeat split; try done; lia.
Qed.

Lemma insert_middle {A} (l1 : list A) x y l2 i : i = length l1 -> <[i := y]> (l1 ++ x :: l2) = l1 ++ y :: l2.
Proof. intros ->. by rewrite insert_app_r_alt, Nat.sub_diag by lia. Qed.

Lemma btree_split_at t ks1 ks2 cs1 c cs2 l up r : length ks1 = length cs1 -> split_node t c = Some (l, up, r) ->
  btree_split t (ks1 ++ ks2) (cs1 ++ c :: cs2) (length cs1) = Some (ks1 ++ up :: ks2, cs1 ++ l :: r :: cs2).
Proof.
  intros Hl Hs. unfold btree_split. rewrite list_lookup_middle by done. cbn [mbind option_bind]. rewrite Hs.
  cbn [mbind option_bind]. rewrite take_app_length', drop_app_length', take_app_length by done.
  rewrite drop_app_ge by lia. replace (length cs1 + 1 - length cs1) with 1 by lia. done.
Qed.

(** A leaf's cells around a key. *)
Lemma cells_split key lo hi l : ordered lo hi l -> (lo <= key < hi)%Z -> exists l1 l2, l = l1 ++ l2 /\
  ordered lo (key + 1) l1 /\ ordered (key + 1) hi l2 /\ slot key l.*1 = length l1 /\ slot_from_left key l.*1 = length l1.
Proof.
  intros [S F] Hk.
  assert (exists l1 l2, l = l1 ++ l2 /\ ordered lo (key + 1) l1 /\ ordered (key + 1) hi l2) as (l1 & l2 & -> & H1 & H2).
  { revert F. induction S as [|p l S IH Hlt]; intros F; [exists [], []; by repeat split; constructor|].
    apply Forall_cons in F as [Fp F]. unfold within in Fp. destruct (Z.le_gt_cases p.1 key).
    - destruct (IH F) as (l1 & l2 & -> & H1 & H2). exists (p :: l1), l2. split; [done|]. split; [|done].
      destruct H1. split; [constructor; [done|]|constructor; [unfold within; lia|done]].
      by apply Forall_app in Hlt as [? _].
    - exists [], (p :: l). split; [done|]. split; [by split; constructor|]. split; [by constructor|].
      constructor; [unfold within; lia|]. apply Forall_forall. intros q Hq.
      pose proof (proj1 (Forall_forall _ _) Hlt q Hq). pose proof (proj1 (Forall_forall _ _) F q Hq).
      unfold within, cell_lt in *. lia. }
  exists l1, l2. split; [done|]. split; [done|]. split; [done|]. destruct H1 as [_ F1], H2 as [_ F2].
  assert (K1 : Forall (fun k => (k <= key)%Z) l1.*1)
    by (apply Forall_fmap; eapply Forall_impl; [exact F1|]; unfold within; cbn; intros; lia).
  assert (K2 : Forall (fun k => (key < k)%Z) l2.*1)
    by (apply Forall_fmap; eapply Forall_impl; [exact F2|]; unfold within; cbn; intros; lia).
  rewrite fmap_app, slot_app, slot_from_left_app, length_fmap by done. done.
Qed.

(** The cell is put between the smaller and the larger ones. *)
Definition added (key val : Z) (l l' : list (Z * Z)) : Prop :=
  exists l1 l2, l = l1 ++ l2 /\ l' = l1 ++ (key, val) :: l2.

Lemma added_middle key val a l l' b : added key val l l' -> added key val (a ++ l ++ b) (a ++ l' ++ b).
Proof. intros (l1 & l2 & -> & ->). exists (a ++ l1), (l2 ++ b). by rewrite <- !app_assoc. Qed.

Lemma insert_leaf_ok t m lo hi l key val : wf t 0 m lo hi (Leaf l) -> (lo <= key < hi)%Z -> key ∉ l.*1 ->
  length l < 2 * t - 1 -> exists l1 l2, l = l1 ++ l2 /\ slot key l.*1 = length l1 /\
    wf t 0 m lo hi (Leaf (l1 ++ (key, val) :: l2)).
Proof.
  intros (Hm & Ho) Hk Hnin Hl. destruct (cells_split key lo hi l Ho Hk) as (l1 & l2 & -> & [S1 F1] & H2 & Hs & _).
  exists l1, l2. split; [done|]. split; [done|]. cbn. rewrite length_app in *. cbn.
  split; [lia|]. eapply (ordered_app lo key hi); [lia| |].
  - split; [done|]. apply Forall_forall. intros q Hq. pose proof (proj1 (Forall_forall _ _) F1 q Hq).
    assert (q.1 <> key). { intros <-. apply Hnin. rewrite fmap_app. apply elem_of_app. left. by apply list_elem_of_fmap_2. }
    unfold within in *. lia.
  - destruct H2 as [S2 F2]. split.
    + constructor; [done|]. eapply Forall_impl; [exact F2|]. unfold within, cell_lt. cbn. intros; lia.
    + constructor; [unfold within; cbn; lia|]. eapply within_mono; [| |exact F2]; lia.
Qed.

Lemma chain_pre_snoc P lo ks cs mid k c : chain_pre P lo ks cs mid -> (mid <= k)%Z -> P mid k c ->
  chain_pre P lo (ks ++ [k]) (cs ++ [c]) k.
Proof.
  revert lo cs. induction ks as [|k1 ks IH]; intros lo [|c1 cs]; cbn; try done; [by intros ->|].
  intros (? & ? & ?) ? ?. split; [done|]. split; [done|]. by apply IH.
Qed.

Lemma chain_post_cons P k c nxt ks cs hi : (k <= nxt)%Z -> P k nxt c -> chain_post P nxt ks cs hi ->
  chain_post P k (k :: ks) (c :: cs) hi.
Proof. intros ? ? ?. cbn. split; [done|]. apply (chain_split P k [] ks [] c cs hi eq_refl). by exists k, nxt. Qed.

(** The step down: what holds of the child holds of the node. *)
Lemma insert_child t h m lo hi ks1 ks2 cs1 c cs2 mid nxt key val fuel i :
  (exists c', btree_insert_internal fuel t c key val = Some c' /\ wf t h (t - 1) mid nxt c' /\ added key val (elems c) (elems c')) ->
  chain_pre (wf t h (t - 1)) lo ks1 cs1 mid -> (mid <= nxt)%Z -> chain_post (wf t h (t - 1)) nxt ks2 cs2 hi ->
  i = length cs1 -> m <= length (ks1 ++ ks2) <= 2 * t - 1 ->
  exists n', (d ← (cs1 ++ c :: cs2) !! i; c' ← btree_insert_internal fuel t d key val;
              Some (Index (ks1 ++ ks2) (<[i := c']> (cs1 ++ c :: cs2)))) = Some n' /\
    wf t (S h) m lo hi n' /\ added key val (concat (map elems (cs1 ++ c :: cs2))) (elems n').
Proof.
  intros (c' & Hi & Hw & Ha) Hpre Hle Hpost -> Hm. rewrite list_lookup_middle by done. cbn [mbind option_bind].
  rewrite Hi. cbn [mbind option_bind]. rewrite insert_middle by done. eexists. split; [done|]. split.
  - split; [done|]. apply chain_split; [by eapply chain_pre_length|]. by exists mid, nxt.
  - change (concat (map elems (cs1 ++ c :: cs2))) with (elems (Index [] (cs1 ++ c :: cs2))).
    rewrite !elems_middle. by apply added_middle.
Qed.

Lemma btree_insert_internal_ok t h m lo hi n key val fuel : 2 <= t -> h < fuel -> wf t h m lo hi n ->
  (lo <= key < hi)%Z -> key ∉ (elems n).*1 -> nkeys n < 2 * t - 1 ->
  exists n', btree_insert_internal fuel t n key val = Some n' /\ wf t h m lo hi n' /\ added key val (elems n) (elems n').
Proof.
  intros Ht. revert h m lo hi n. induction fuel as [|fuel IH]; intros h m lo hi n Hf Hwf Hk Hnin Hn; [lia|].
  destruct h as [|h], n as [l|keys child]; try (by cbn in Hwf).
  - destruct (insert_leaf_ok t m lo hi l key val Hwf Hk Hnin Hn) as (l1 & l2 & -> & Hs & Hw).
    cbn [btree_insert_internal]. rewrite Hs, take_app_length, drop_app_length.
    eexists. split; [done|]. split; [done|]. by exists l1, l2.
  - destruct Hwf as [Hm Hc].
    destruct (chain_descend _ _ _ _ _ key Hc Hk) as (ks1 & ks2 & cs1 & c & cs2 & mid & nxt & -> & -> & Hl & Hs & _ & Hpre & Hmk & Hwc & Hpost).
    assert (Hni : key ∉ (elems c).*1).
    { intros Hin. apply Hnin. rewrite elems_middle, !fmap_app, !elem_of_app. tauto. }
    cbn [btree_insert_internal]. rewrite Hs, list_lookup_middle by done. cbn [mbind option_bind].
    cbn [nkeys] in Hn. destruct (Nat.eqb_spec (nkeys c) (2 * t - 1)) as [Hfull|Hnf].
    + destruct (split_node_ok t h mid nxt c Ht Hwc Hfull) as (l & up & r & Hsp & Hup & Hwl & Hwr & He & Hnl & Hnr).
      rewrite (btree_split_at t ks1 ks2 cs1 c cs2 l up r Hl Hsp). cbn [mbind option_bind].
      rewrite list_lookup_middle by done. cbn [mbind option_bind].
      assert (Hel : elems (Index (ks1 ++ ks2) (cs1 ++ c :: cs2)) = concat (map elems (cs1 ++ l :: r :: cs2))).
      { rewrite elems_middle, He, map_app, concat_app. cbn. by rewrite <- app_assoc. }
      rewrite Hel. rewrite He, fmap_app, elem_of_app in Hni. rewrite length_app in Hm, Hn.
      destruct (Z.leb_spec up key).
      * rewrite (cons_middle up), (cons_middle l), !(app_assoc _ [_]).
        eapply (insert_child t h m lo hi (ks1 ++ [up]) ks2 (cs1 ++ [l]) r cs2 up nxt).
        -- apply IH; [lia|done|lia|tauto|done].
        -- eapply chain_pre_snoc; [done|lia|done].
        -- lia.
        -- done.
        -- rewrite length_app. cbn. lia.
        -- rewrite !length_app. cbn. lia.
      * eapply (insert_child t h m lo hi ks1 (up :: ks2) cs1 l (r :: cs2) mid up); try done; [|lia| |].
        -- apply IH; [lia|done|lia|tauto|done].
        -- eapply chain_post_cons; [|done|done]. lia.
        -- rewrite length_app. cbn. lia.
    + eapply (insert_child t h m lo hi ks1 ks2 cs1 c cs2 mid nxt); try done; [|lia].
      assert (nkeys c <= 2 * t - 1) by (destruct h, c; cbn in Hwc |- *; try done; lia).
      apply IH; [lia|done|lia|done|lia].
Qed.

(** *** Deletion *)

Lemma redistribute_right_ok t h a z me b pkey : 2 <= t -> (a <= pkey <= z)%Z ->
  wf t h (t - 2) a pkey me -> nkeys me < t - 1 -> wf t h (t - 1) pkey z b -> t - 1 < nkeys b ->
  exists me' b' up, redistribute_nodes t true me b pkey = Some (me', b', up) /\ (a <= up <= z)%Z /\
    wf t h (t - 1) a up me' /\ wf t h (t - 1) up z b' /\ elems me' ++ elems b' = elems me ++ elems b.
Proof.
  intros Ht Hp Hwm Hnm Hwb Hnb. unfold redistribute_nodes.
  rewrite (proj2 (Nat.ltb_lt (nkeys me) (t - 1)) Hnm), (proj2 (Nat.ltb_lt (t - 1) (nkeys b)) Hnb). cbn [andb].
  pose proof (Nat.div_mod_eq (nkeys me + nkeys b) 2) as Hd. pose proof (Nat.mod_upper_bound (nkeys me + nkeys b) 2).
  set (nb := (nkeys me + nkeys b) / 2 - nkeys me) in *.
  assert (Hnb' : 1 <= nb /\ nb < nkeys b /\ nkeys me + nb <= nkeys b - nb + 1 /\ nkeys b - nb <= nkeys me + nb + 1) by lia.
  clearbody nb. rewrite (proj2 (Nat.ltb_lt nb (nkeys b))) by lia.
  destruct h as [|h], me as [m|mk mc], b as [b|bk bc]; try (by cbn in Hwm, Hwb); cbn [nkeys] in *.
  - destruct Hwm as [Hm Hom], Hwb as [Hb Hob]. destruct (split_at b nb) as (b1 & p & b2 & -> & <-); [lia|].
    rewrite list_lookup_middle, take_app_length, drop_app_length by done. cbn [mbind option_bind fst].
    rewrite length_app in *. cbn in *. apply sorted_app_inv in Hob as (Hpz & Hb1 & Hb2).
    do 3 eexists. split; [done|]. split; [lia|]. cbn. rewrite length_app. split; [|split; [split; [lia|exact Hb2]|by rewrite <- app_assoc]].
    split; [lia|]. apply (ordered_app a pkey); [lia|exact Hom|exact Hb1].
  - destruct Hwm as [Hm Hcm], Hwb as [Hb Hcb]. destruct (split_at bk (nb - 1)) as (k1 & up & k2 & -> & Hk1); [lia|].
    pose proof (chain_length _ _ _ _ _ Hcb) as Hl. pose proof (chain_length _ _ _ _ _ Hcm) as Hlm. rewrite length_app in *. cbn in *.
    destruct (split_at_app bc nb) as (d1 & d2 & -> & Hd1); [lia|]. rewrite length_app in Hl.
    apply chain_app in Hcb as [H1 H2]; [|lia]. rewrite list_lookup_middle by done. cbn [mbind option_bind].
    rewrite (take_app_length' k1), (take_app_length' d1), (drop_app_length' d1), (drop_app_ge k1) by lia.
    replace (nb - length k1) with 1 by lia. cbn [drop]. rewrite drop_0.
    pose proof (chain_le _ _ _ _ _ H1) as [? _]. pose proof (chain_le _ _ _ _ _ H2) as [? _].
    do 3 eexists. split; [done|]. split; [lia|]. cbn. rewrite length_app, !map_app, !concat_app. cbn.
    split; [|split; [split; [lia|done]|by rewrite <- app_assoc]]. split; [lia|]. apply chain_app; [lia|done].
Qed.

Lemma redistribute_left_ok h a z me b pkey : (a <= pkey <= z)%Z ->
  wf 2 h 0 pkey z me -> nkeys me < 1 -> wf 2 h 1 a pkey b -> 1 < nkeys b ->
  exists me' b' up, redistribute_nodes 2 false me b pkey = Some (me', b', up) /\ (a <= up <= z)%Z /\
    wf 2 h 1 up z me' /\ wf 2 h 1 a up b' /\ elems b' ++ elems me' = elems b ++ elems me.
Proof.
  intros Hp Hwm Hnm Hwb Hnb. unfold redistribute_nodes.
  rewrite (proj2 (Nat.ltb_lt (nkeys me) (2 - 1)) Hnm), (proj2 (Nat.ltb_lt (2 - 1) (nkeys b)) Hnb). cbn [andb].
  assert (nkeys me = 0) as Hm0 by lia. rewrite Hm0. assert (Hb3 : nkeys b = 2 \/ nkeys b = 3).
  { destruct h, b; cbn in Hwb; try done; cbn in *; lia. }
  replace ((0 + nkeys b) / 2 - 0) with 1 by (destruct Hb3 as [-> | ->]; done).
  rewrite (proj2 (Nat.ltb_lt 1 (nkeys b))) by lia.
  destruct h as [|h], me as [m|mk mc], b as [b|bk bc]; try (by cbn in Hwm, Hwb); cbn [nkeys] in *.
  - destruct m; [|done]. destruct Hwm as [Hm Hom], Hwb as [Hb Hob].
    destruct (split_at b (length b - 1)) as (b1 & p & b2 & -> & Hl1); [lia|]. rewrite length_app in *. cbn in *.
    destruct b2; [|cbn in *; lia]. rewrite Hl1, drop_app_length', take_app_length' by lia. cbn.
    apply sorted_app_inv in Hob as (Hpz & Hb1 & Hb2).
    do 3 eexists. split; [done|]. split; [lia|]. cbn in *. split; [|split; [split; [lia|exact Hb1]|by rewrite ?app_nil_r]].
    split; [lia|]. split; [apply Hb2|]. eapply within_mono; [| |apply Hb2]; lia.
  - destruct mk; [|done]. destruct Hwm as [Hm Hcm], Hwb as [Hb Hcb].
    destruct (split_at bk (length bk - 1)) as (k1 & up & k2 & -> & Hk1); [lia|]. rewrite length_app in *.
    destruct k2; [|cbn in *; lia]. pose proof (chain_length _ _ _ _ _ Hcb) as Hl. rewrite length_app in Hl. cbn in Hl, Hk1, Hb, Hb3 |- *.
    destruct (split_at_app bc (length k1 + 1)) as (d1 & d2 & -> & Hd1); [lia|]. rewrite length_app in Hl.
    apply chain_app in Hcb as [H1 H2]; [|lia]. destruct d2 as [|x [|? ?]]; cbn in Hl; try lia.
    rewrite (list_lookup_middle d1) by lia. cbn. replace (length k1 + 1 - 1) with (length k1) by lia.
    rewrite list_lookup_middle, take_app_length, take_app_length' by lia. cbn.
    pose proof (chain_le _ _ _ _ _ H1) as [? _]. destruct H2 as [? Hx].
    do 3 eexists. split; [done|]. split; [lia|]. cbn. rewrite !take_0. cbn.
    rewrite map_app, concat_app. cbn. rewrite app_nil_r, <- app_assoc.
    repeat split; try lia; try done.
Qed.

Lemma merge_nodes_ok t h a z l r pkey : 2 <= t -> (a <= pkey <= z)%Z -> nkeys l + nkeys r = 2 * t - 3 ->
  wf t h (t - 2) a pkey l -> wf t h (t - 2) pkey z r ->
  exists n, merge_nodes l r pkey = Some n /\ wf t h (t - 1) a z n /\ elems n = elems l ++ elems r.
Proof.
  intros Ht Hp Hn Hwl Hwr. destruct h as [|h], l as [x|lk lc], r as [y|rk rc]; try (by cbn in Hwl, Hwr); cbn [nkeys] in Hn.
  - destruct Hwl as [Hl Hol], Hwr as [Hr Hor]. eexists. split; [done|]. split; [|done]. cbn. rewrite length_app.
    split; [lia|]. by apply (ordered_app a pkey).
  - destruct Hwl as [Hl Hcl], Hwr as [Hr Hcr]. eexists. split; [done|]. cbn. rewrite map_app, concat_app, length_app. cbn.
    split; [|done]. split; [lia|]. apply chain_app; [by eapply chain_length|done].
Qed.

(** Two neighbours replaced in the parent. *)
Section Pair.
Context (t : nat) (ks1 ks2 : list Z) (cs1 cs2 : list node) (k : Z) (l r : node) (Hl : length ks1 = length cs1).

Lemma pair_l : (cs1 ++ l :: r :: cs2) !! length cs1 = Some l.
Proof using. by rewrite list_lookup_middle. Qed.
Lemma pair_r : (cs1 ++ l :: r :: cs2) !! S (length cs1) = Some r.
Proof using. clear Hl. rewrite (cons_middle l), app_assoc. rewrite list_lookup_middle; [done|]. rewrite length_app. cbn. lia. Qed.
Lemma pair_set_r r' : <[S (length cs1) := r']> (cs1 ++ l :: r :: cs2) = cs1 ++ l :: r' :: cs2.
Proof using.
  clear Hl. rewrite (cons_middle l), app_assoc, insert_middle by (rewrite length_app; cbn; lia). by rewrite <- app_assoc.
Qed.

Lemma redistribute_right_at l' r' up : redistribute_nodes t true l r k = Some (l', r', up) ->
  redistribute t (ks1 ++ k :: ks2) (cs1 ++ l :: r :: cs2) (length cs1) (S (length cs1)) =
  Some (ks1 ++ up :: ks2, cs1 ++ l' :: r' :: cs2).
Proof using Hl.
  intros Hr. unfold redistribute. rewrite pair_l, pair_r. cbn [mbind option_bind].
  rewrite (proj2 (Nat.ltb_lt (length cs1) (S (length cs1)))) by lia. rewrite list_lookup_middle by done.
  cbn [mbind option_bind]. rewrite Hr. cbn [mbind option_bind]. rewrite !insert_middle by done.
  rewrite (cons_middle l'), app_assoc, insert_middle by (rewrite length_app; cbn; lia). by rewrite <- app_assoc.
Qed.

Lemma redistribute_left_at l' r' up : redistribute_nodes t false r l k = Some (r', l', up) ->
  redistribute t (ks1 ++ k :: ks2) (cs1 ++ l :: r :: cs2) (S (length cs1)) (length cs1) =
  Some (ks1 ++ up :: ks2, cs1 ++ l' :: r' :: cs2).
Proof using Hl.
  intros Hr. unfold redistribute. rewrite pair_l, pair_r. cbn [mbind option_bind].
  rewrite (proj2 (Nat.ltb_ge (S (length cs1)) (length cs1))) by lia. rewrite list_lookup_middle by done.
  cbn [mbind option_bind]. rewrite Hr. cbn [mbind option_bind]. by rewrite pair_set_r, !insert_middle by done.
Qed.

Lemma merge_at n me to_merge : merge_nodes l r k = Some n ->
  (me = length cs1 /\ to_merge = S (length cs1)) \/ (me = S (length cs1) /\ to_merge = length cs1) ->
  merge (ks1 ++ k :: ks2) (cs1 ++ l :: r :: cs2) me to_merge = Some (ks1 ++ ks2, cs1 ++ n :: cs2).
Proof using Hl.
  intros Hn H. unfold merge.
  assert ((if to_merge <? me then to_merge else me) = length cs1 /\
          (if to_merge <? me then me else to_merge) = S (length cs1)) as [-> ->].
  { destruct H as [[-> ->] | [-> ->]].
    - by rewrite (proj2 (Nat.ltb_ge (S (length cs1)) (length cs1))) by lia.
    - by rewrite (proj2 (Nat.ltb_lt (length cs1) (S (length cs1)))) by lia. }
  rewrite pair_l, pair_r, list_lookup_middle by done. cbn [mbind option_bind]. rewrite Hn. cbn [mbind option_bind].
  rewrite insert_middle by done. f_equal. f_equal.
  - by rewrite <- Hl, delete_middle.
  - rewrite (cons_middle n), app_assoc.
    replace (S (length cs1)) with (length (cs1 ++ [n])) by (rewrite length_app; cbn; lia).
    by rewrite delete_middle, <- app_assoc.
Qed.

Lemma concat_pair l' r' : elems l' ++ elems r' = elems l ++ elems r ->
  concat (map elems (cs1 ++ l' :: r' :: cs2)) = concat (map elems (cs1 ++ l :: r :: cs2)).
Proof using. intros H. rewrite !map_app, !concat_app. cbn. by rewrite !(app_assoc (elems _)), H. Qed.
End Pair.

Lemma wf_nkeys t h m lo hi n : wf t h m lo hi n -> m <= nkeys n <= 2 * t - 1.
Proof. destruct h, n; cbn; tauto. Qed.

Definition balanced (t h : nat) (lo hi : Z) (keys : list Z) (child : list node) (res : option (list Z * list node)) : Prop :=
  exists keys' child', res = Some (keys', child') /\ chain (wf t h (t - 1)) lo keys' child' hi /\
    length keys - 1 <= length keys' <= length keys /\ concat (map elems child') = concat (map elems child).

(** The node that is too small is the left one of a pair. *)
Lemma balance_right_ok t h lo hi ks1 k ks2 cs1 l r cs2 mid nxt : 2 <= t -> length ks1 = length cs1 ->
  chain_pre (wf t h (t - 1)) lo ks1 cs1 mid -> (mid <= k <= nxt)%Z -> wf t h (t - 2) mid k l -> nkeys l < t - 1 ->
  wf t h (t - 1) k nxt r -> chain_post (wf t h (t - 1)) nxt ks2 cs2 hi ->
  balanced t h lo hi (ks1 ++ k :: ks2) (cs1 ++ l :: r :: cs2)
    (if t - 1 <? nkeys r then redistribute t (ks1 ++ k :: ks2) (cs1 ++ l :: r :: cs2) (length cs1) (S (length cs1))
     else merge (ks1 ++ k :: ks2) (cs1 ++ l :: r :: cs2) (length cs1) (S (length cs1))).
Proof.
  intros Ht Hl Hpre Hk Hwl Hnl Hwr Hpost. destruct (Nat.ltb_spec (t - 1) (nkeys r)) as [Hfat|Hthin].
  - destruct (redistribute_right_ok t h mid nxt l r k Ht Hk Hwl Hnl Hwr Hfat) as (l' & r' & up & Hr & Hup & Hl' & Hr' & He).
    rewrite (redistribute_right_at t ks1 ks2 cs1 cs2 k l r Hl l' r' up Hr).
    do 2 eexists. split; [done|]. rewrite !length_app. cbn. split; [|split; [lia|by apply concat_pair]].
    apply chain_pair; [done|]. by exists mid, nxt.
  - apply wf_nkeys in Hwr as Hr. apply wf_nkeys in Hwl as Hl0.
    destruct (merge_nodes_ok t h mid nxt l r k) as (n & Hn & Hwn & He); try done; [lia|by eapply wf_weaken; [|exact Hwr]; lia|].
    rewrite (merge_at ks1 ks2 cs1 cs2 k l r Hl n _ _ Hn) by tauto.
    do 2 eexists. split; [done|]. rewrite !length_app. cbn. split; [|split; [lia|]].
    + apply chain_split; [done|]. exists mid, nxt. repeat split; try done. lia.
    + rewrite !map_app, !concat_app. cbn. by rewrite He, <- app_assoc.
Qed.

(** The node that is too small is the right one. *)
Lemma balance_left_ok h lo hi ks1 k ks2 cs1 l r cs2 mid nxt : length ks1 = length cs1 ->
  chain_pre (wf 2 h 1) lo ks1 cs1 mid -> (mid <= k <= nxt)%Z -> wf 2 h 1 mid k l ->
  wf 2 h 0 k nxt r -> nkeys r < 1 -> chain_post (wf 2 h 1) nxt ks2 cs2 hi ->
  balanced 2 h lo hi (ks1 ++ k :: ks2) (cs1 ++ l :: r :: cs2)
    (if 1 <? nkeys l then redistribute 2 (ks1 ++ k :: ks2) (cs1 ++ l :: r :: cs2) (S (length cs1)) (length cs1)
     else merge (ks1 ++ k :: ks2) (cs1 ++ l :: r :: cs2) (S (length cs1)) (length cs1)).
Proof.
  intros Hl Hpre Hk Hwl Hwr Hnr Hpost. destruct (Nat.ltb_spec 1 (nkeys l)) as [Hfat|Hthin].
  - destruct (redistribute_left_ok h mid nxt r l k Hk Hwr Hnr Hwl Hfat) as (r' & l' & up & Hr & Hup & Hl' & Hr' & He).
    rewrite (redistribute_left_at 2 ks1 ks2 cs1 cs2 k l r Hl l' r' up Hr).
    do 2 eexists. split; [done|]. rewrite !length_app. cbn. split; [|split; [lia|by apply concat_pair]].
    apply chain_pair; [done|]. by exists mid, nxt.
  - apply wf_nkeys in Hwr as Hr. apply wf_nkeys in Hwl as Hl0.
    destruct (merge_nodes_ok 2 h mid nxt l r k) as (n & Hn & Hwn & He); try done; [lia|by eapply wf_weaken; [|exact Hwl]; lia|].
    rewrite (merge_at ks1 ks2 cs1 cs2 k l r Hl n _ _ Hn) by tauto.
    do 2 eexists. split; [done|]. rewrite !length_app. cbn. split; [|split; [lia|]].
    + apply chain_split; [done|]. exists mid, nxt. repeat split; try done. lia.
    + rewrite !map_app, !concat_app. cbn. by rewrite He, <- app_assoc.
Qed.

Lemma chain_pre_snoc_inv P lo ks k cs mid : chain_pre P lo (ks ++ [k]) cs mid ->
  mid = k /\ exists cs' c m, cs = cs' ++ [c] /\ chain_pre P lo ks cs' m /\ (m <= k)%Z /\ P m k c.
Proof.
  revert lo cs. induction ks as [|k1 ks IH]; intros lo [|c1 cs]; cbn; try done.
  - destruct cs; [|naive_solver]. intros (? & ? & <-). split; [done|]. exists [], c1, lo. done.
  - intros (? & ? & [-> (cs' & c & m & -> & ? & ? & ?)]%IH). split; [done|]. exists (c1 :: cs'), c, m. done.
Qed.

Lemma chain_post_cons_inv P nxt k ks cs hi : chain_post P nxt (k :: ks) cs hi ->
  nxt = k /\ exists c cs' n, cs = c :: cs' /\ (k <= n)%Z /\ P k n c /\ chain_post P n ks cs' hi.
Proof.
  cbn. intros [-> Hc]. split; [done|]. destruct cs as [|c cs]; [by destruct ks|].
  apply (chain_split P k [] ks [] c cs hi eq_refl) in Hc as (? & n & <- & ?). exists c, cs, n. tauto.
Qed.

Lemma balance_ok h lo hi ks1 ks2 cs1 c cs2 mid nxt : ks1 ++ ks2 <> [] ->
  chain_pre (wf 2 h 1) lo ks1 cs1 mid -> (mid <= nxt)%Z -> wf 2 h 0 mid nxt c -> nkeys c < 1 ->
  chain_post (wf 2 h 1) nxt ks2 cs2 hi ->
  balanced 2 h lo hi (ks1 ++ ks2) (cs1 ++ c :: cs2) (balance 2 (ks1 ++ ks2) (cs1 ++ c :: cs2) (length cs1)).
Proof.
  intros Hne Hpre Hle Hwc Hnc Hpost. pose proof (chain_pre_length _ _ _ _ _ Hpre) as Hl. unfold balance.
  destruct ks1 as [|k ks1 _] using rev_ind.
  - destruct cs1; [|done]. destruct ks2 as [|k ks2]; [done|]. cbn [length].
    pose proof Hpost as [-> (r & cs2' & n & -> & Hkn & Hr & Hpost')]%chain_post_cons_inv.
    change (0 <? 0) with false. change (0 <? length ([] ++ k :: ks2)) with true.
    cbn [andb app lookup list_lookup Nat.add].
    pose proof (balance_right_ok 2 h lo hi [] k ks2 [] c r cs2' mid n ltac:(lia) eq_refl Hpre ltac:(lia) Hwc Hnc Hr Hpost') as Hb.
    cbn [app length] in Hb. change (2 - 1) with 1 in *. destruct (1 <? nkeys r); exact Hb.
  - apply chain_pre_snoc_inv in Hpre as Hpre'. destruct Hpre' as [-> (cs' & l & m & -> & Hp' & Hmk & Hwl)].
    pose proof (chain_pre_length _ _ _ _ _ Hp') as Hl'. replace (length (cs' ++ [l])) with (S (length cs')) by (rewrite length_app; cbn; lia).
    pose proof (balance_left_ok h lo hi ks1 k ks2 cs' l c cs2 m nxt Hl' Hp' ltac:(lia) Hwl Hwc Hnc Hpost) as Hb.
    change (2 - 1) with 1. change (0 <? S (length cs')) with true. cbn [andb]. replace (S (length cs') - 1) with (length cs') by lia.
    rewrite <- !app_assoc. cbn [app]. rewrite pair_l. destruct (1 <? nkeys l) eqn:Hfat; [exact Hb|].
    destruct ks2 as [|k2 ks2].
    + rewrite (proj2 (Nat.ltb_ge (S (length cs')) (length (ks1 ++ [k])))) by (rewrite length_app; cbn; lia). exact Hb.
    + pose proof Hpost as [-> (r & cs2' & n & -> & Hkn & Hr & Hpost')]%chain_post_cons_inv.
      rewrite (proj2 (Nat.ltb_lt (S (length cs')) (length (ks1 ++ k :: k2 :: ks2)))) by (rewrite length_app; cbn; lia).
      replace (S (length cs') + 1) with (S (length (cs' ++ [l]))) by (rewrite length_app; cbn; lia).
      pose proof (balance_right_ok 2 h lo hi (ks1 ++ [k]) k2 ks2 (cs' ++ [l]) c r cs2' k n ltac:(lia) ltac:(done) Hpre ltac:(lia) Hwc Hnc Hr Hpost') as Hb2.
      pose proof (pair_r (cs' ++ [l]) cs2' c r) as Hr2. rewrite <- (app_assoc cs') in Hr2.
      rewrite <- (app_assoc cs'), <- (app_assoc ks1) in Hb2. cbn [app] in Hb2, Hr2. rewrite Hr2.
      replace (length (cs' ++ [l])) with (S (length cs')) in * by (rewrite length_app; cbn; lia).
      change (2 - 1) with 1 in Hb2. destruct (1 <? nkeys r); [exact Hb2|exact Hb].
Qed.

Definition removed (key : Z) (l : list (Z * Z)) : list (Z * Z) := filter (fun p => p.1 <> key) l.

Lemma removed_absent key l lo hi : Forall (within lo hi) l -> ~ (lo <= key < hi)%Z -> removed key l = l.
Proof.
  intros F Hk. induction F as [|p l Hp _ IH]; [done|]. unfold removed in *.
  rewrite filter_cons_True by (intros E; apply Hk; rewrite <- E; exact Hp). by rewrite IH.
Qed.

Lemma removed_app key l1 l2 : removed key (l1 ++ l2) = removed key l1 ++ removed key l2.
Proof. apply filter_app. Qed.

Lemma delete_leaf_ok t m lo hi l key : wf t 0 m lo hi (Leaf l) -> (lo <= key < hi)%Z ->
  exists l' b, btree_delete_internal 1 t (Leaf l) key = Some (Leaf l', b) /\ wf t 0 (m - 1) lo hi (Leaf l') /\
    l' = removed key l /\ (m = t - 1 -> b = (length l' <? t - 1)).
Proof.
  intros (Hm & Ho) Hk. destruct (cells_split key lo hi l Ho Hk) as (l1 & l2 & -> & H1 & H2 & Hs & _).
  cbn [btree_delete_internal]. rewrite Hs, removed_app, (removed_absent key l2 (key + 1) hi) by (destruct H2; done || lia).
  destruct l1 as [|p l1 _] using rev_ind.
  - do 2 eexists. split; [done|]. cbn in *. split; [split; [lia|done]|]. split; [done|]. intros ->.
    symmetry. apply Nat.ltb_ge. lia.
  - rewrite length_app, Nat.add_1_r, <- app_assoc. cbn [app]. rewrite list_lookup_middle by done.
    rewrite <- app_assoc in Ho, Hm. cbn [app] in Ho, Hm. apply sorted_app_inv in H1 as (Hp & H1 & Hpp).
    assert (Hpk : (p.1 <= key)%Z) by (destruct Hpp as [_ [Hw _]%Forall_cons]; unfold within in Hw; lia).
    apply sorted_app_inv in Ho as (_ & _ & Hpl). rewrite removed_app, (removed_absent key l1 lo p.1) by (destruct H1; done || lia).
    destruct p as [k v]. cbn [fst] in *. rewrite length_app in Hm. cbn in Hm. unfold removed at 1. rewrite filter_cons. destruct (Z.eqb_spec key k) as [<-|Hne].
    + rewrite decide_False by (cbn; tauto). do 2 eexists. split; [done|]. rewrite delete_middle. cbn. rewrite app_nil_r, length_app.
      split; [|done]. split; [lia|]. apply (ordered_app lo key hi); [lia|done|].
      destruct Hpl as [Hss Hff]. apply Forall_cons in Hff as [_ Hff]. apply StronglySorted_inv in Hss as [Hss _]. done.
    + rewrite decide_True by (cbn; congruence). do 2 eexists. split; [done|]. rewrite filter_nil, <- app_assoc. cbn. rewrite length_app. cbn.
      split; [|split; [done|intros ->; symmetry; apply Nat.ltb_ge; lia]]. split; [lia|]. apply (ordered_app lo k hi); [lia|done|done].
Qed.

Lemma removed_child key ks1 ks2 cs1 c c' cs2 lo mid nxt hi h :
  chain_pre (wf 2 h 1) lo ks1 cs1 mid -> (mid <= key < nxt)%Z -> chain_post (wf 2 h 1) nxt ks2 cs2 hi ->
  elems c' = removed key (elems c) ->
  concat (map elems (cs1 ++ c' :: cs2)) = removed key (concat (map elems (cs1 ++ c :: cs2))).
Proof.
  intros Hpre Hk Hpost He. rewrite !map_app, !concat_app. cbn [map concat]. rewrite !removed_app, He.
  rewrite (removed_absent key (concat (map elems cs1)) lo mid), (removed_absent key (concat (map elems cs2)) nxt hi);
    [done| |lia| |lia].
  - eapply chain_post_within; [|exact Hpost]. intros; by eapply wf_ordered.
  - eapply chain_pre_within; [|exact Hpre]. intros; by eapply wf_ordered.
Qed.

Lemma btree_delete_internal_ok h m lo hi n key fuel : h < fuel -> wf 2 h m lo hi n -> m <= 1 -> (h = 0 \/ m = 1) ->
  (lo <= key < hi)%Z ->
  exists n' b, btree_delete_internal fuel 2 n key = Some (n', b) /\ wf 2 h (m - 1) lo hi n' /\
    elems n' = removed key (elems n) /\ (m = 1 -> b = (nkeys n' <? 1)).
Proof.
  revert h m lo hi n. induction fuel as [|fuel IH]; intros h m lo hi n Hf Hwf Hm1 Hm Hk; [lia|].
  destruct h as [|h], n as [l|keys child]; try (by cbn in Hwf).
  - destruct (delete_leaf_ok 2 m lo hi l key Hwf Hk) as (l' & b & Hd & Hw & Hl & Hb). exists (Leaf l'), b. done.
  - destruct Hwf as [Hlen Hc]. assert (m = 1) as -> by (destruct Hm; [done|lia]).
    destruct (chain_descend _ _ _ _ _ key Hc Hk) as (ks1 & ks2 & cs1 & c & cs2 & mid & nxt & -> & -> & Hl & Hs & _ & Hpre & Hmk & Hwc & Hpost).
    cbn [btree_delete_internal]. rewrite Hs, list_lookup_middle by done. cbn [mbind option_bind].
    destruct (IH h 1 mid nxt c) as (c' & b & Hd & Hw & He & Hb); [lia|done|lia|tauto|done|].
    rewrite Hd. cbn [mbind option_bind]. rewrite insert_middle by done. rewrite (Hb eq_refl). change (2 - 1) with 1 in *.
    pose proof (removed_child key ks1 ks2 cs1 c c' cs2 lo mid nxt hi h Hpre Hmk Hpost He) as Hrem.
    destruct (Nat.ltb_spec (nkeys c') 1) as [Hsmall|Hbig].
    + destruct (balance_ok h lo hi ks1 ks2 cs1 c' cs2 mid nxt) as (keys' & child' & Hbal & Hch & Hkl & Hel); try done.
      * intros E. rewrite E in Hlen. cbn in Hlen. lia.
      * lia.
      * rewrite Hbal. cbn [mbind option_bind]. do 2 eexists. split; [done|]. cbn [elems nkeys]. rewrite Hel, Hrem.
        split; [|done]. split; [lia|done].
    + cbn [mbind option_bind]. do 2 eexists. split; [done|]. cbn [elems nkeys]. rewrite Hrem. split; [|done].
      split; [lia|]. apply chain_split; [done|]. exists mid, nxt. split; [done|]. split; [lia|]. split; [|done].
      eapply wf_weaken; [|exact Hw]. lia.
Qed.

(** ** The tree as a map *)

Definition contents (bt : btree) : gmap Z Z := list_to_map (elems (root bt)).

Lemma ordered_NoDup lo hi l : ordered lo hi l -> NoDup l.*1.
Proof.
  intros [S _]. induction S as [|p l _ IH Hlt]; cbn; constructor; [|done].
  intros (q & Hq & Hin)%list_elem_of_fmap. pose proof (proj1 (Forall_forall _ _) Hlt q Hin). unfold cell_lt in *. lia.
Qed.

Lemma added_contents key val l l' : NoDup l'.*1 -> added key val l l' ->
  list_to_map l' = <[key := val]> (list_to_map l : gmap Z Z).
Proof.
  intros Hnd (l1 & l2 & -> & ->). rewrite <- list_to_map_cons. apply list_to_map_proper; [done|].
  by rewrite Permutation_middle.
Qed.

Lemma removed_contents key l : NoDup l.*1 -> list_to_map (removed key l) = delete key (list_to_map l : gmap Z Z).
Proof.
  unfold removed. induction l as [|[k v] l IH]; cbn [fmap list_fmap]; intros Hnd; [by rewrite list_to_map_nil, delete_empty|].
  apply NoDup_cons in Hnd as [Hk Hnd]. rewrite filter_cons. cbn [fst]. destruct (decide (k <> key)) as [Hne|Heq].
  - rewrite !list_to_map_cons, IH by done. by rewrite delete_insert_ne by congruence.
  - assert (k = key) as -> by (destruct (decide (k = key)); tauto). rewrite list_to_map_cons, delete_insert_eq, IH by done.
    done.
Qed.

Definition int_range (k : Z) : Prop := (- 2 ^ 31 <= k < 2 ^ 31)%Z.

Lemma btree_insert_spec bt h key val fuel : bt_wf bt h -> int_range key -> contents bt !! key = None ->
  h + 2 <= fuel -> exists bt' h', btree_insert fuel bt key val = Some bt' /\ bt_wf bt' h' /\ h' <= S h /\
    bt_t bt' = bt_t bt /\ contents bt' = <[key := val]> (contents bt).
Proof.
  intros [Ht Hwf] Hk Hnone Hf. destruct bt as [n t]. cbn [bt_t root] in *.
  assert (Hnin : key ∉ (elems n).*1) by (by apply not_elem_of_list_to_map).
  unfold btree_insert. cbn [bt_t root]. destruct (Nat.eqb_spec (nkeys n) (2 * t - 1)) as [Hfull|Hnf].
  - destruct (split_node_ok t h (-2^31) (2^31) n Ht) as (l & up & r & Hsp & Hup & Hwl & Hwr & He & Hnl & Hnr); [|done|].
    { eapply wf_weaken; [|exact Hwf]. lia. }
    rewrite (btree_split_at t [] [] [] n [] l up r eq_refl Hsp : btree_split t [] [n] 0 = _). cbn [mbind option_bind].
    assert (Hw1 : wf t (S h) 1 (-2^31) (2^31) (Index [up] [l; r])).
    { cbn. repeat split; try done; lia. }
    destruct (btree_insert_internal_ok t (S h) 1 (-2^31) (2^31) (Index [up] [l; r]) key val fuel Ht) as (n' & Hi & Hw & Ha); try done.
    { lia. }
    { cbn [elems map concat]. by rewrite app_nil_r, <- He. }
    { cbn. lia. }
    cbn [app] in *. rewrite Hi. cbn [mbind option_bind]. exists (BTree n' t), (S h). split; [done|]. split; [done|]. split; [lia|].
    split; [done|]. unfold contents. cbn [root]. cbn [elems map concat] in Ha. rewrite app_nil_r, <- He in Ha.
    eapply added_contents; [|done]. by eapply ordered_NoDup, wf_ordered.
  - assert (nkeys n < 2 * t - 1) by (apply wf_nkeys in Hwf; lia).
    destruct (btree_insert_internal_ok t h _ (-2^31) (2^31) n key val fuel Ht ltac:(lia) Hwf Hk Hnin) as (n' & Hi & Hw & Ha); [done|].
    rewrite Hi. cbn [mbind option_bind]. exists (BTree n' t), h. split; [done|]. split; [done|]. split; [lia|].
    split; [done|]. eapply added_contents; [|done]. by eapply ordered_NoDup, wf_ordered.
Qed.

Lemma btree_delete_spec bt h key fuel : bt_wf bt h -> bt_t bt = 2 -> int_range key -> h < fuel ->
  exists bt' h', btree_delete fuel bt key = Some bt' /\ bt_wf bt' h' /\ h' <= h /\
    bt_t bt' = bt_t bt /\ contents bt' = delete key (contents bt).
Proof.
  intros [Ht Hwf] Ht2 Hk Hf. destruct bt as [n t]. cbn [bt_t root] in *. subst t.
  destruct (btree_delete_internal_ok h (match h with 0 => 0 | S _ => 1 end) (-2^31) (2^31) n key fuel) as (n' & b & Hd & Hw & He & _);
    [done|done|destruct h; lia|destruct h; tauto|done|].
  assert (Hc : list_to_map (elems n') = delete key (list_to_map (elems n) : gmap Z Z)).
  { rewrite He. apply removed_contents. by eapply ordered_NoDup, wf_ordered. }
  unfold btree_delete. cbn [bt_t root]. rewrite Hd. cbn [mbind option_bind].
  destruct h as [|h], n' as [l|keys child]; try (by cbn in Hw).
  - exists (BTree (Leaf l) 2), 0. split; [done|]. split; [done|]. done.
  - destruct keys as [|k keys].
    + destruct Hw as [_ Hch]. destruct child as [|c [|? ?]]; try done. destruct Hch as [_ Hwc]. cbn [lookup list_lookup mbind option_bind].
      exists (BTree c 2), h. split; [done|]. split; [split; [done|]|]. { cbn. eapply wf_weaken; [|exact Hwc]. apply wf_nkeys in Hwc. destruct h; lia. }
      split; [lia|]. split; [done|]. unfold contents. cbn [root]. rewrite <- Hc. cbn. by rewrite app_nil_r.
    + exists (BTree (Index (k :: keys) child) 2), (S h). split; [done|]. split; [|done]. split; [done|].
      cbn [bt_t root]. eapply wf_weaken; [|exact Hw]. cbn. lia.
Qed.

Lemma lookup_middle key (a l b : list (Z * Z)) : key ∉ a.*1 -> key ∉ b.*1 ->
  (list_to_map (a ++ l ++ b) : gmap Z Z) !! key = (list_to_map l : gmap Z Z) !! key.
Proof.
  intros Ha%not_elem_of_list_to_map Hb%not_elem_of_list_to_map. rewrite !list_to_map_app, lookup_union_r, lookup_union_l by done. done.
Qed.

Lemma within_not_in lo hi l key : Forall (within lo hi) l -> ~ (lo <= key < hi)%Z -> key ∉ l.*1.
Proof.
  intros F Hk (q & -> & Hin)%list_elem_of_fmap. exact (Hk (proj1 (Forall_forall _ _) F q Hin)).
Qed.

Lemma btree_get_spec t h m lo hi n key fuel : h < fuel -> wf t h m lo hi n -> (lo <= key < hi)%Z ->
  btree_get fuel n key = Some ((fun v => (key, v)) <$> (list_to_map (elems n) : gmap Z Z) !! key).
Proof.
  revert h m lo hi n. induction fuel as [|fuel IH]; intros h m lo hi n Hf Hwf Hk; [lia|].
  destruct h as [|h], n as [l|keys child]; try (by cbn in Hwf).
  - destruct Hwf as [_ Ho]. pose proof (ordered_NoDup _ _ _ Ho) as Hnd.
    destruct (cells_split key lo hi l Ho Hk) as (l1 & l2 & -> & H1 & H2 & _ & Hs).
    cbn [btree_get elems]. rewrite Hs. assert (Hl2 : key ∉ l2.*1) by (eapply (within_not_in (key+1) hi); [apply H2|lia]).
    destruct l1 as [|p l1 _] using rev_ind.
    + cbn [length app]. by rewrite (proj1 (not_elem_of_list_to_map l2 key) Hl2).
    + rewrite length_app, Nat.add_1_r, <- app_assoc in *. cbn [app] in *. rewrite list_lookup_middle by done. cbn [mbind option_bind].
      apply sorted_app_inv in H1 as (_ & H1 & Hpp).
      assert (Hpk : (p.1 <= key)%Z) by (destruct Hpp as [_ [Hw _]%Forall_cons]; unfold within in Hw; lia).
      rewrite (cons_middle p), (lookup_middle key l1 [p] l2) by (done || (eapply (within_not_in lo p.1); [apply H1|lia])).
      destruct p as [k v]. cbn [fst]. cbn in Hpk. rewrite list_to_map_cons. destruct (Z.eqb_spec k key) as [->|Hne].
      * by rewrite lookup_insert_eq.
      * by rewrite lookup_insert_ne by done.
  - destruct Hwf as [Hlen Hc].
    destruct (chain_descend _ _ _ _ _ key Hc Hk) as (ks1 & ks2 & cs1 & c & cs2 & mid & nxt & -> & -> & Hl & _ & Hs & Hpre & Hmk & Hwc & Hpost).
    cbn [btree_get]. rewrite Hs, list_lookup_middle by done. cbn [mbind option_bind].
    rewrite (IH h _ mid nxt c) by (done || lia). rewrite elems_middle, lookup_middle; [done| |].
    + eapply (within_not_in lo mid); [|lia]. eapply chain_pre_within; [|exact Hpre]. intros; by eapply wf_ordered.
    + eapply (within_not_in nxt hi); [|lia]. eapply chain_post_within; [|exact Hpost]. intros; by eapply wf_ordered.
Qed.

(** *** Height *)

Lemma chain_size P lo ks cs hi s : (forall a b c, P a b c -> s <= length (elems c)) ->
  chain P lo ks cs hi -> S (length ks) * s <= length (concat (map elems cs)).
Proof.
  intros HP. revert lo cs. induction ks as [|k ks IH]; intros lo [|c cs]; cbn [chain]; try done.
  - destruct cs; [|done]. intros [_ H%HP]. cbn. rewrite length_app. cbn. lia.
  - intros (_ & H%HP & Hc%IH). cbn [map concat length] in *. rewrite length_app. lia.
Qed.

Lemma wf_size t h m lo hi n : 2 <= t -> wf t h m lo hi n ->
  match h with 0 => m | S h' => S m * (t ^ h' * (t - 1)) end <= length (elems n).
Proof.
  intros Ht. revert m lo hi n. induction h as [|h IH]; intros m lo hi [l|ks cs] Hwf; cbn [wf] in Hwf; try done; [cbn; lia|].
  destruct Hwf as [Hm Hc]. cbn [elems]. etransitivity; [|eapply (chain_size _ lo ks cs hi (t ^ h * (t - 1))); [|exact Hc]].
  - apply Nat.mul_le_mono_r. lia.
  - intros a b c Hw%IH. destruct h as [|h]; [cbn in *; lia|]. replace (S (t - 1)) with t in Hw by lia. cbn [Nat.pow]. nia.
Qed.

(** The height of the tree is logarithmic: a tree of height [h] holds at least
    [2 * t^(h-1) * (t-1)] cells. *)
Theorem btree_height_logarithmic bt h : bt_wf bt (S h) ->
  2 * (bt_t bt ^ h * (bt_t bt - 1)) <= length (elems (root bt)).
Proof. intros [Ht Hw]. exact (wf_size _ _ _ _ _ _ Ht Hw). Qed.

Lemma ordered_size lo hi l : (lo <= hi)%Z -> ordered lo hi l -> (Z.of_nat (length l) <= hi - lo)%Z.
Proof.
  intros Hle [S F]. revert lo Hle F. induction S as [|p l _ IH Hlt]; intros lo Hle F; cbn; [lia|].
  apply Forall_cons in F as [Hp F]. unfold within in Hp. enough (Z.of_nat (length l) <= hi - (p.1 + 1))%Z by lia.
  apply IH; [lia|]. apply Forall_forall. intros q Hq. pose proof (proj1 (Forall_forall _ _) F q Hq).
  pose proof (proj1 (Forall_forall _ _) Hlt q Hq). unfold within, cell_lt in *. lia.
Qed.

(** Distinct [int] keys do not make a tree higher than 32. *)
Lemma bt_wf_height bt h : bt_wf bt h -> h <= 32.
Proof.
  intros [Ht Hw]. destruct h as [|h]; [lia|]. pose proof (wf_size _ _ _ _ _ _ Ht Hw : 2 * (bt_t bt ^ h * (bt_t bt - 1)) <= _) as Hs.
  pose proof (ordered_size (- 2 ^ 31) (2 ^ 31) _ ltac:(done) (wf_ordered _ _ _ _ _ _ Hw)) as Hlen.
  assert (Hpow : 2 ^ h <= bt_t bt ^ h) by (apply Nat.pow_le_mono_l; lia).
  assert (Hz : (2 ^ Z.of_nat (S h) <= 2 ^ 32)%Z).
  { rewrite Nat2Z.inj_succ, Z.pow_succ_r by lia. change 2%Z with (Z.of_nat 2) at 2. rewrite <- Nat2Z.inj_pow.
    change (2 ^ 31 - - 2 ^ 31)%Z with (2 ^ 32)%Z in Hlen.
    assert (2 ^ h * 1 <= bt_t bt ^ h * (bt_t bt - 1)) by (apply Nat.mul_le_mono; lia).
    lia. }
  apply (Z.pow_le_mono_r_iff 2 (Z.of_nat (S h)) 32) in Hz; lia.
Qed.

(** Deep enough for every tree. *)
Definition max_depth : nat := 34.

(** ** Sequences of calls *)

Inductive tree_op := Insert (key val : Z) | Delete (key : Z) | Get (key : Z).

Definition tree_step (bt : btree) (o : tree_op) : option (btree * option (option (Z * Z))) :=
  match o with
  | Insert key val => bt' ← btree_insert max_depth bt key val; Some (bt', None)
  | Delete key => bt' ← btree_delete max_depth bt key; Some (bt', None)
  | Get key => r ← btree_get max_depth (root bt) key; Some (bt, Some r)
  end.

Fixpoint tree_run (bt : btree) (ops : list tree_op) : option (btree * list (option (option (Z * Z)))) :=
  match ops with
  | [] => Some (bt, [])
  | o :: ops =>
      '(bt, r) ← tree_step bt o;
      '(bt, rs) ← tree_run bt ops;
      Some (bt, r :: rs)
  end.

(** The contract: a finite map. *)
Definition map_step (m : gmap Z Z) (o : tree_op) : gmap Z Z * option (option (Z * Z)) :=
  match o with
  | Insert key val => (<[key := val]> m, None)
  | Delete key => (delete key m, None)
  | Get key => (m, Some ((fun v => (key, v)) <$> m !! key))
  end.

Fixpoint map_run (m : gmap Z Z) (ops : list tree_op) : gmap Z Z * list (option (option (Z * Z))) :=
  match ops with
  | [] => (m, [])
  | o :: ops => let '(m, r) := map_step m o in let '(m, rs) := map_run m ops in (m, r :: rs)
  end.

(** Keys are [int]s and no key is inserted that is in the tree. *)
Fixpoint inserts_new (m : gmap Z Z) (ops : list tree_op) : Prop :=
  match ops with
  | [] => True
  | o :: ops =>
      match o with
      | Insert key _ => int_range key /\ m !! key = None
      | Delete key | Get key => int_range key
      end /\ inserts_new (map_step m o).1 ops
  end.

Lemma tree_step_ok bt h o : bt_wf bt h -> bt_t bt = 2 -> inserts_new (contents bt) [o] ->
  exists bt' h', tree_step bt o = Some (bt', (map_step (contents bt) o).2) /\ bt_wf bt' h' /\ bt_t bt' = 2 /\
    contents bt' = (map_step (contents bt) o).1.
Proof.
  intros Hw Ht [Ho _]. pose proof (bt_wf_height bt h Hw) as Hh. destruct o as [key val|key|key]; cbn [tree_step map_step fst snd].
  - destruct Ho as [Hk Hn]. destruct (btree_insert_spec bt h key val max_depth Hw Hk Hn) as (bt' & h' & -> & ? & _ & ? & ?); [unfold max_depth; lia|].
    exists bt', h'. split; [done|]. split; [done|]. split; [congruence|done].
  - destruct (btree_delete_spec bt h key max_depth Hw Ht Ho) as (bt' & h' & -> & ? & _ & ? & ?); [unfold max_depth; lia|].
    exists bt', h'. split; [done|]. split; [done|]. split; [congruence|done].
  - exists bt, h. split; [|done]. destruct Hw as [_ Hw]. rewrite (btree_get_spec _ h _ _ _ _ key max_depth) with (2 := Hw); [done|unfold max_depth; lia|done].
Qed.

Lemma tree_run_ok bt h ops : bt_wf bt h -> bt_t bt = 2 -> inserts_new (contents bt) ops ->
  exists bt' h', tree_run bt ops = Some (bt', (map_run (contents bt) ops).2) /\ bt_wf bt' h' /\
    contents bt' = (map_run (contents bt) ops).1.
Proof.
  revert bt h. induction ops as [|o ops IH]; intros bt h Hw Ht Hn; [by exists bt, h|].
  destruct Hn as [Ho Hn]. destruct (tree_step_ok bt h o Hw Ht) as (bt1 & h1 & Hs & Hw1 & Ht1 & Hc1); [by split|].
  rewrite <- Hc1 in Hn. destruct (IH bt1 h1 Hw1 Ht1 Hn) as (bt' & h' & Hr & Hw' & Hc').
  exists bt', h'. cbn. rewrite Hs. cbn. rewrite Hr. cbn. rewrite Hc', Hc1. destruct (map_step (contents bt) o) as [m r]. cbn.
  destruct (map_run m ops) as [m' rs]. done.
Qed.

(** C10. The tree as [main] uses it ([t = 2]) is a finite map: any sequence of
    insertions of new keys, deletions and lookups runs to its end from the empty tree,
    without a failed assertion, with the answers of the map; the tree stays balanced
    and in order, and the cells of its leaves are those of the map. *)
Theorem btree_refines_map ops : inserts_new ∅ ops ->
  exists bt h, tree_run (btree_new 2) ops = Some (bt, (map_run ∅ ops).2) /\ bt_wf bt h /\
    contents bt = (map_run ∅ ops).1.
Proof.
  intros Hn. apply (tree_run_ok (btree_new 2) 0); [|done|done].
  split; [done|]. cbn. repeat split; try lia; constructor.
Qed.

(** Insertion for every order [t >= 2]: a new key goes into the tree, nothing else
    changes, and the recursion ends within the height of the tree and two. *)
Theorem btree_insert_correct bt h key val : bt_wf bt h -> int_range key -> contents bt !! key = None ->
  exists bt' h', btree_insert (h + 2) bt key val = Some bt' /\ bt_wf bt' h' /\ h' <= S h /\
    bt_t bt' = bt_t bt /\ contents bt' = <[key := val]> (contents bt).
Proof. intros Hw Hk Hn. by apply (btree_insert_spec bt h key val). Qed.

(** [n] keys from [a + n - 1] down to [a]. *)
Definition keys_down (a n : nat) : list Z := rev (map Z.of_nat (seq a n)).
Definition fill (n : nat) : list tree_op := map (fun k => Insert k k) (keys_down 1 n).

(** With [t = 3] a deletion loses other keys: an index node that borrows two
    children from its left sibling takes the wrong ones, so one subtree is there twice
    and one is gone.  Deleting 27, 26 and 25 from a tree of 1 to 27 loses 13, 14 and 15,
    whose cells the map still has. *)
Example btree_delete_loses_keys : exists bt,
  tree_run (btree_new 3) (fill 27 ++ [Delete 27; Delete 26]) = Some (bt, replicate 29 None) /\
  contents bt = (map_run ∅ (fill 27 ++ [Delete 27; Delete 26])).1 /\
  exists bt', tree_run bt [Delete 25] = Some (bt', [None]) /\
    Forall (fun k => contents bt !! k = Some k /\ contents bt' !! k = None) [13; 14; 15]%Z.
Proof.
  eexists. split; [vm_compute; reflexivity|]. split; [apply (bool_decide_unpack _); vm_compute; exact I|].
  eexists. split; [vm_compute; reflexivity|]. repeat constructor.
Qed.

Definition small_tree : btree :=
  BTree (Index [6] [Index [4; 5] [Leaf [(1, 1); (2, 2); (3, 3)]; Leaf [(4, 4)]; Leaf [(5, 5)]];
                    Index [7; 8] [Leaf [(6, 6)]; Leaf [(7, 7)]; Leaf [(8, 8); (9, 9)]]])%Z 2.

Lemma btree_height_logarithmic_witness : bt_wf small_tree 2 /\ 2 * (2 ^ 1 * 1) <= length (elems (root small_tree)).
Proof.
  assert (H : bt_wf small_tree 2).
  { split; [cbn; lia|]. cbn. repeat split; try lia; repeat constructor; cbn; try lia. }
  split; [exact H|]. exact (btree_height_logarithmic small_tree 1 H).
Defined.

Definition small_ops : list tree_op :=
  (fill 9 ++ [Delete 4; Get 4; Get 5; Delete 9; Delete 1; Delete 2; Insert 4 40; Get 4; Delete 100])%Z.

Lemma btree_refines_map_witness :
  inserts_new ∅ small_ops /\
  exists bt h, tree_run (btree_new 2) small_ops = Some (bt, (map_run ∅ small_ops).2) /\ bt_wf bt h /\
    contents bt = (map_run ∅ small_ops).1.
Proof.
  assert (H : inserts_new ∅ small_ops) by (cbn; unfold int_range; repeat split; lia).
  split; [exact H|]. exact (btree_refines_map small_ops H).
Defined.

Lemma btree_insert_correct_witness :
  exists bt' h', btree_insert 2 (BTree (Leaf [(1, 1); (5, 5); (9, 9)]%Z) 2) 7 70 = Some bt' /\ bt_wf bt' h' /\ h' <= 1 /\
    bt_t bt' = 2 /\ contents bt' = <[7%Z := 70%Z]> (contents (BTree (Leaf [(1, 1); (5, 5); (9, 9)]%Z) 2)).
Proof.
  apply (btree_insert_correct (BTree (Leaf [(1, 1); (5, 5); (9, 9)]%Z) 2) 0 7 70).
  - split; [cbn; lia|]. split; [cbn; lia|]. split; repeat constructor; cbn; lia.
  - unfold int_range. lia.
  - reflexivity.
Defined.
