(* ===== verification/DbFile.v ===== *)
(** * The files of the key-value store

    Models src/db/utils.cpp ([Lseek], [Read], [Write]) on a file with its offset, and
    the records src/db/db.cpp keeps in files: [Link] and [Node], little-endian as the
    platform lays out [size_t], [off_t] and [int].  [None] is a call of [exit] or a use
    of memory that was not written. *)

From Stdlib Require Import ZArith Lia Ascii String.
From stdpp Require Import base list gmap strings.
From S2P Require Import Prelude.

Local Open Scope Z_scope.
Local Open Scope cpp_scope.

(** ** Files *)

(** The bytes that are not zero, the size and the offset. *)
Record file := File { fbytes : gmap Z ascii; fsize : Z; fpos : Z }.

Definition byte_at (m : gmap Z ascii) (i : Z) : ascii := default "000"%char (m !! i).
Definition pread (m : gmap Z ascii) (off : Z) (n : nat) : list ascii := (fun i => byte_at m (off + Z.of_nat i)) <$> seq 0 n.

Fixpoint write_bytes (m : gmap Z ascii) (off : Z) (d : list ascii) : gmap Z ascii :=
  match d with
  | [] => m
  | c :: d => write_bytes (if char_u c =? 0 then delete off m else <[off := c]> m) (off + 1) d
  end.

Definition empty_file : file := File ∅ 0 0.
Definition file_len (d : list ascii) : Z := Z.of_nat (length d).

Definition Lseek (f : file) (off : Z) : file := File (fbytes f) (fsize f) off.
Definition Lseek_end (f : file) : file * Z := (Lseek f (fsize f), fsize f).

(** A short read leaves the rest of the buffer as [new char[]] made it. *)
Definition Read (f : file) (n : Z) : option (file * list ascii) :=
  VERIFY! (0 <=? n) && (fpos f + n <=? fsize f) ;;
  Some (Lseek f (fpos f + n), pread (fbytes f) (fpos f) (Z.to_nat n)).

(** Beyond the largest offset [write] fails. *)
Definition Write (f : file) (d : list ascii) : option file :=
  VERIFY! (fpos f + file_len d <? 2 ^ 63) ;;
  Some (File (write_bytes (fbytes f) (fpos f) d)
          (match d with [] => fsize f | _ => Z.max (fsize f) (fpos f + file_len d) end) (fpos f + file_len d)).

(** ** Little-endian integers *)

Fixpoint le (k : nat) (x : Z) : list ascii :=
  match k with
  | O => []
  | S k => char_of x :: le k (x / 256)
  end.
Definition unle (l : list ascii) : Z := foldr (fun c x => char_u c + 256 * x) 0 l.

(** ** Links *)

Record link := Link { total_size : Z; size : Z; offset : Z }.

Definition null_link : link := Link 0 0 0.
Definition IsNull (l : link) : bool := offset l =? 0.
Definition LinkSize : Z := 24.

Definition link_encode (l : link) : list ascii := le 8 (total_size l) ++ le 8 (size l) ++ le 8 (offset l).
Definition link_decode (b : list ascii) : link :=
  Link (unle (take 8 b)) (unle (take 8 (drop 8 b))) (to_signed 64 (unle (take 8 (drop 16 b)))).

Definition link_write (f : file) (l : link) (off : Z) : option file := Write (Lseek f off) (link_encode l).
Definition link_read (f : file) (off : Z) : option (file * link) :=
  '(f, b) ← Read (Lseek f off) LinkSize;
  Some (f, link_decode b).

(** ** Nodes *)

Record dnode := DNode { valid : bool; nkey : string; val_link : link; next : link }.

(** [strlen] stops at the first zero. *)
Fixpoint cstr (s : string) : list ascii :=
  match s with
  | EmptyString => []
  | String c s => if char_u c =? 0 then [] else c :: cstr s
  end.

Definition node_size (n : dnode) : Z := 1 + 4 + file_len (cstr (nkey n)) + LinkSize + LinkSize.

Definition node_encode (n : dnode) : option (list ascii) :=
  VERIFY! file_len (cstr (nkey n)) <? 2 ^ 31 ;;
  Some ((if valid n then "001" else "000")%char :: le 4 (file_len (cstr (nkey n))) ++ cstr (nkey n) ++
        link_encode (val_link n) ++ link_encode (next n)).

(** Reads of the buffer are checked against its length. *)
Definition node_decode (b : list ascii) : option dnode :=
  v ← b !! 0%nat;
  VERIFY! (5 <=? file_len b) ;;
  let key_len := to_signed 32 (unle (take 4 (drop 1 b))) in
  VERIFY! (0 <=? key_len) && (5 + key_len + 48 <=? file_len b) ;;
  let k := Z.to_nat key_len in
  Some (DNode (negb (char_u v =? 0)) (str_of (take k (drop 5 b)))
          (link_decode (take 24 (drop (5 + k) b))) (link_decode (take 24 (drop (5 + k + 24) b)))).

(** ** Lemmas on files *)

Lemma write_bytes_at m off d i :
  byte_at (write_bytes m off d) i =
  if decide (off <= i < off + file_len d) then default "000"%char (d !! Z.to_nat (i - off)) else byte_at m i.
Proof.
  revert m off. induction d as [|c d IH]; intros m off; cbn [write_bytes].
  - unfold file_len. cbn. destruct (decide _) as [?|?]; [lia|done].
  - rewrite IH. unfold file_len in *. cbn [length].
    destruct (decide (off + 1 <= i < off + 1 + Z.of_nat (length d))), (decide (off <= i < off + Z.of_nat (S (length d)))); try lia.
    + replace (Z.to_nat (i - off)) with (S (Z.to_nat (i - (off + 1)))) by lia. done.
    + assert (i = off) as -> by lia. rewrite Z.sub_diag. unfold byte_at. destruct (Z.eqb_spec (char_u c) 0) as [Hz|].
      * rewrite lookup_delete_eq. change ("000"%char = c). apply char_u_inj. by rewrite Hz.
      * by rewrite lookup_insert_eq.
    + unfold byte_at. destruct (char_u c =? 0); [by rewrite lookup_delete_ne by lia|by rewrite lookup_insert_ne by lia].
Qed.

Lemma pread_length f off n : length (pread f off n) = n.
Proof. unfold pread. by rewrite length_fmap, length_seq. Qed.

Lemma pread_lookup f off n i : (i < n)%nat -> pread f off n !! i = Some (byte_at f (off + Z.of_nat i)).
Proof. intros H. unfold pread. rewrite list_lookup_fmap, lookup_seq_lt by done. done. Qed.

(** Two reads are equal when their bytes are. *)
Lemma pread_ext f g off n : (forall i, off <= i < off + Z.of_nat n -> byte_at f i = byte_at g i) -> pread f off n = pread g off n.
Proof.
  intros H. apply list_eq_same_length with n; rewrite ?pread_length; try done.
  intros i x y Hi. rewrite !pread_lookup by done. intros [= <-] [= <-]. apply H. lia.
Qed.

Lemma pread_take f off n k : (k <= n)%nat -> take k (pread f off n) = pread f off k.
Proof. intros H. unfold pread. rewrite <- fmap_take, take_seq. by rewrite Nat.min_l by lia. Qed.

Lemma byte_at_write f d i f' : Write f d = Some f' ->
  byte_at (fbytes f') i =
  if decide (fpos f <= i < fpos f + file_len d) then default "000"%char (d !! Z.to_nat (i - fpos f)) else byte_at (fbytes f) i.
Proof.
  unfold Write. intros H. inv_some. cbn [fbytes]. apply write_bytes_at.
Qed.

(** What was written is read back. *)
Lemma pread_write_same f d f' : Write f d = Some f' -> pread (fbytes f') (fpos f) (length d) = d.
Proof.
  intros H. apply list_eq_same_length with (length d); rewrite ?pread_length; try done.
  intros i x y Hi. rewrite pread_lookup by done. rewrite (byte_at_write _ _ _ _ H).
  unfold file_len. rewrite decide_True by lia. replace (Z.to_nat (fpos f + Z.of_nat i - fpos f)) with i by lia.
  intros [= <-] Hy. by rewrite Hy.
Qed.

(** Other places are not touched. *)
Lemma pread_write_other f d f' off n : Write f d = Some f' ->
  (off + Z.of_nat n <= fpos f \/ fpos f + file_len d <= off) -> pread (fbytes f') off n = pread (fbytes f) off n.
Proof.
  intros H Hd. apply pread_ext. intros i Hi. rewrite (byte_at_write _ _ _ _ H). by rewrite decide_False by lia.
Qed.

Lemma Write_ok f d : fpos f + file_len d < 2 ^ 63 -> exists f', Write f d = Some f'.
Proof. intros H. unfold Write. destruct (Z.ltb_spec (fpos f + file_len d) (2 ^ 63)); [by eexists|lia]. Qed.

Lemma Write_size f d f' : Write f d = Some f' -> fpos f <= fsize f ->
  fsize f' = Z.max (fsize f) (fpos f + file_len d) /\ fpos f' = fpos f + file_len d.
Proof.
  unfold Write. intros H ?. inv_some. cbn. split; [|done]. destruct d; [unfold file_len; cbn; lia|done].
Qed.

Lemma Read_ok f n : 0 <= n -> fpos f + n <= fsize f -> Read f n = Some (Lseek f (fpos f + n), pread (fbytes f) (fpos f) (Z.to_nat n)).
Proof.
  intros. unfold Read. by rewrite (proj2 (Z.leb_le 0 n)), (proj2 (Z.leb_le (fpos f + n) (fsize f))) by done.
Qed.

(** ** Round trips of the records *)

Lemma le_length k x : length (le k x) = k.
Proof. revert x. induction k; intros; cbn; [done|]. by rewrite IHk. Qed.

Lemma unle_le k x : 0 <= x < 256 ^ Z.of_nat k -> unle (le k x) = x.
Proof.
  revert x. induction k as [|k IH]; intros x Hx; [cbn in *; lia|]. rewrite Nat2Z.inj_succ, Z.pow_succ_r in Hx by lia.
  cbn [le unle foldr]. fold (unle (le k (x / 256))). rewrite IH by (split; [apply Z.div_pos; lia|apply Z.div_lt_upper_bound; lia]).
  rewrite char_u_of. unfold wrap. change (2 ^ 8) with 256. pose proof (Z.div_mod x 256). lia.
Qed.

Definition link_ok (l : link) : Prop := in_u64 (total_size l) /\ in_u64 (size l) /\ 0 <= offset l < 2 ^ 63.

Lemma link_encode_length l : length (link_encode l) = 24%nat.
Proof. unfold link_encode. by rewrite !length_app, !le_length. Qed.

Lemma link_roundtrip l : link_ok l -> link_decode (link_encode l) = l.
Proof.
  intros (H1 & H2 & H3). unfold link_decode, link_encode, in_u64 in *.
  rewrite take_app_length', drop_app_length' by (by rewrite le_length).
  rewrite take_app_length' by (by rewrite le_length).
  rewrite (app_assoc (le 8 (total_size l))), drop_app_length' by (by rewrite length_app, !le_length).
  rewrite firstn_all2 by (rewrite le_length; lia). rewrite !unle_le by (change (256 ^ Z.of_nat 8) with (2 ^ 64); lia).
  unfold to_signed, wrap. rewrite Z.mod_small by lia. rewrite (proj2 (Z.ltb_lt (offset l) (2 ^ (64 - 1)))) by (cbn; lia).
  by destruct l.
Qed.

#[local] Opaque link_encode le.

(** A key as the store can keep it. *)
Definition key_ok (k : string) : Prop := cstr k = bytes_of k /\ file_len (cstr k) < 2 ^ 31.

Lemma node_encode_length n b : node_encode n = Some b -> file_len b = node_size n.
Proof.
  unfold node_encode, node_size, VERIFY. destruct (_ <? _); [|done]. intros [= <-]. unfold file_len. cbn [length].
  rewrite !length_app, !link_encode_length, le_length. unfold LinkSize. lia.
Qed.

(** A node is read back from a buffer that begins with it. *)
Lemma node_roundtrip n rest : key_ok (nkey n) -> link_ok (val_link n) -> link_ok (next n) ->
  exists b, node_encode n = Some b /\ node_decode (b ++ rest) = Some n.
Proof.
  intros [Hk Hl] Hv Hn. unfold node_encode. rewrite (proj2 (Z.ltb_lt _ _) Hl). cbn [VERIFY]. eexists. split; [done|].
  set (k := cstr (nkey n)) in *. set (v := (if valid n then "001" else "000")%char).
  set (b := (v :: _) ++ rest).
  assert (Hlen : to_signed 32 (file_len k) = file_len k).
  { unfold to_signed, wrap. rewrite Z.mod_small by (unfold file_len in *; lia).
    by rewrite (proj2 (Z.ltb_lt (file_len k) (2 ^ (32 - 1)))) by (cbn; lia). }
  assert (Hbuf : 53 + file_len k <= file_len b).
  { unfold file_len, b. cbn [length app]. rewrite !length_app, le_length, !link_encode_length. lia. }
  assert (H1 : take 4 (drop 1 b) = le 4 (file_len k)).
  { unfold b. cbn [app drop]. rewrite <- !app_assoc. apply take_app_length'. by rewrite le_length. }
  assert (H5 : take (length k) (drop 5 b) = k).
  { change b with ((v :: le 4 (file_len k) ++ k ++ link_encode (val_link n) ++ link_encode (next n)) ++ rest).
    rewrite app_comm_cons, <- app_assoc, drop_app_length' by (cbn [length]; by rewrite le_length).
    rewrite <- app_assoc. by apply take_app_length'. }
  assert (H6 : drop (5 + length k) b = link_encode (val_link n) ++ link_encode (next n) ++ rest).
  { replace b with (((v :: le 4 (file_len k)) ++ k) ++ link_encode (val_link n) ++ link_encode (next n) ++ rest)
      by (unfold b; cbn [app]; by rewrite <- !app_assoc).
    apply drop_app_length'. rewrite length_app. cbn [length]. by rewrite le_length. }
  assert (H7 : drop (5 + length k + 24) b = link_encode (next n) ++ rest).
  { rewrite <- drop_drop, H6. apply drop_app_length'. by rewrite link_encode_length. }
  assert (H0 : b !! 0%nat = Some v) by done. clearbody b. unfold node_decode. rewrite H0. cbn [mbind option_bind].
  rewrite H1, unle_le, Hlen by (unfold file_len in *; change (256 ^ Z.of_nat 4) with (2 ^ 32); lia). unfold VERIFY.
  rewrite (proj2 (Z.leb_le 5 _)) by (unfold file_len in *; lia). rewrite (proj2 (Z.leb_le 0 _)) by (unfold file_len in *; lia).
  rewrite (proj2 (Z.leb_le (5 + file_len k + 48) _)) by lia. cbn [andb].
  replace (Z.to_nat (file_len k)) with (length k) by (unfold file_len; lia).
  rewrite H5, H6, H7, !take_app_length', !link_roundtrip by (done || by rewrite link_encode_length).
  rewrite Hk, str_of_bytes_of. unfold v. destruct n as [[] ? ? ?]; done.
Qed.
