(* ===== verification/DiscList.v ===== *)
(** * A list in a file

    Models src/disc_list.cpp: a singly linked list of strings kept in a file.  The file
    starts with the link to the first node; a node is appended for every string that is added,
    and a string that is deleted is marked in place.  Files are those of DbFile.v; [None] is a
    call of [exit] or a read outside a buffer.

    The theorem: whatever is added and deleted, and however often the program is started
    again on the same file, what it prints is what a list in memory would give. *)

From Stdlib Require Import ZArith Lia Ascii String.
From stdpp Require Import base list strings gmap.
From S2P Require Import Prelude DbFile.

Local Open Scope Z_scope.
Local Open Scope cpp_scope.

(** ** The file *)

(** [Link]: size and offset of a node, offset 0 for none. *)
Record llink := LLink { node_bytes : Z; node_off : Z }.
Record lnode := LNode { lvalid : bool; ldata : string; lnext : llink }.
(** [fd] and the global [head]. *)
Record disc := Disc { d_file : file; d_head : llink }.

Definition head_size : Z := 16.
Definition head_encode (l : llink) : list ascii := le 8 (node_bytes l) ++ le 8 (node_off l).
Definition head_decode (b : list ascii) : llink := LLink (unle (take 8 b)) (to_signed 64 (unle (take 8 (drop 8 b)))).

Definition write_head (s : disc) : option disc :=
  f ← Write (Lseek (d_file s) 0) (head_encode (d_head s)); Some (Disc f (d_head s)).
Definition read_head (f : file) : option disc :=
  '(f, b) ← Read (Lseek f 0) head_size; Some (Disc f (head_decode b)).

(** [list_init] at the start of the program; [None] for a file that does not exist. *)
Definition list_init (existing : option file) : option disc :=
  match existing with
  | None => write_head (Disc empty_file (LLink 0 0))
  | Some f => read_head f
  end.

(** [node_encode]: the size of the data is an [int]. *)
Definition lnode_encode (n : lnode) : option (list ascii) :=
  VERIFY! file_len (cstr (ldata n)) + 1 <? 2 ^ 31 ;;
  Some ((if lvalid n then "001" else "000")%char :: cstr (ldata n) ++ ["000"%char] ++ head_encode (lnext n)).

(** [strdup]: up to the first zero, which has to be there; also what follows it. *)
Fixpoint split_zero (b : list ascii) : option (list ascii * list ascii) :=
  match b with
  | [] => None
  | c :: b => if char_u c =? 0 then Some ([], b) else '(s, r) ← split_zero b; Some (c :: s, r)
  end.
Definition lnode_decode (b : list ascii) : option lnode :=
  v ← b !! 0%nat;
  '(s, r) ← split_zero (drop 1 b);
  VERIFY! 16 <=? file_len r ;;
  Some (LNode (negb (char_u v =? 0)) (str_of s) (head_decode r)).

Definition lnode_size (n : lnode) : Z := 1 + (file_len (cstr (ldata n)) + 1) + 8 + 8.

Definition lnode_read (f : file) (l : llink) : option (file * lnode) :=
  '(f, b) ← Read (Lseek f (node_off l)) (node_bytes l); n ← lnode_decode b; Some (f, n).
Definition node_write_inplace (f : file) (n : lnode) (off : Z) : option file :=
  b ← lnode_encode n; Write (Lseek f off) b.

(** ** Operations *)

(** The loop of [list_print]; [fuel] bounds its turns. *)
Fixpoint list_print_loop (fuel : nat) (f : file) (p : llink) : option (list string) :=
  match fuel with
  | O => None
  | S fuel =>
      if node_off p =? 0 then Some []
      else '(f, n) ← lnode_read f p; l ← list_print_loop fuel f (lnext n); Some (if lvalid n then ldata n :: l else l)
  end.
Definition enough (f : file) : nat := S (Z.to_nat (fsize f)).
Definition list_print (s : disc) : option (list string) := list_print_loop (enough (d_file s)) (d_file s) (d_head s).

Definition list_add (s : disc) (data : string) : option disc :=
  let n := LNode true data (d_head s) in
  rep ← lnode_encode n;
  let '(f, off) := Lseek_end (d_file s) in
  f ← Write f rep;
  write_head (Disc f (LLink (lnode_size n) off)).

(** [strcmp]: the strings up to their first zero. *)
Definition strcmp_eq (a b : string) : bool := bool_decide (cstr a = cstr b).

Fixpoint list_del_loop (fuel : nat) (f : file) (p : llink) (data : string) : option (file * bool) :=
  match fuel with
  | O => None
  | S fuel =>
      if node_off p =? 0 then Some (f, false)
      else
        '(f, n) ← lnode_read f p;
        if lvalid n && strcmp_eq (ldata n) data then f ← node_write_inplace f (LNode false (ldata n) (lnext n)) (node_off p); Some (f, true)
        else list_del_loop fuel f (lnext n) data
  end.
Definition list_del (s : disc) (data : string) : option (disc * bool) :=
  '(f, ok) ← list_del_loop (enough (d_file s)) (d_file s) (d_head s) data; Some (Disc f (d_head s), ok).

(** The commands of [main]; [Restart] ends the program and starts it again. *)
Inductive lcmd := LAdd (data : string) | LDel (data : string) | LRestart.
Definition run_cmd (s : disc) (c : lcmd) : option (disc * list string) :=
  s ← match c with
      | LAdd x => list_add s x
      | LDel x => '(s, _) ← list_del s x; Some s
      | LRestart => list_init (Some (d_file s))
      end;
  l ← list_print s;
  Some (s, l).
Fixpoint run_cmds (s : disc) (cs : list lcmd) : option (list (list string)) :=
  match cs with
  | [] => Some []
  | c :: cs => '(s, l) ← run_cmd s c; ls ← run_cmds s cs; Some (l :: ls)
  end.

(** ** What it should do *)

Fixpoint remove_first (x : string) (l : list string) : list string :=
  match l with [] => [] | y :: l => if decide (y = x) then l else y :: remove_first x l end.
Definition spec_cmd (l : list string) (c : lcmd) : list string :=
  match c with LAdd x => x :: l | LDel x => remove_first x l | LRestart => l end.
Fixpoint spec_cmds (l : list string) (cs : list lcmd) : list (list string) :=
  match cs with [] => [] | c :: cs => spec_cmd l c :: spec_cmds (spec_cmd l c) cs end.

(** ** Round trips *)

Definition data_ok (x : string) : Prop := cstr x = bytes_of x /\ file_len (cstr x) + 1 < 2 ^ 31.
Definition llink_ok (l : llink) : Prop := in_u64 (node_bytes l) /\ 0 <= node_off l < 2 ^ 63.

Lemma head_encode_length l : length (head_encode l) = 16%nat.
Proof. unfold head_encode. by rewrite length_app, !le_length. Qed.

Lemma head_roundtrip l : llink_ok l -> head_decode (head_encode l) = l.
Proof.
  intros (H1 & H2). unfold head_decode, head_encode, in_u64 in *. rewrite take_app_length', drop_app_length' by (by rewrite le_length).
  rewrite firstn_all2 by (rewrite le_length; lia). rewrite !unle_le by (change (256 ^ Z.of_nat 8) with (2 ^ 64); lia).
  unfold to_signed, wrap. rewrite Z.mod_small by lia. rewrite (proj2 (Z.ltb_lt (node_off l) (2 ^ (64 - 1)))) by (cbn; lia). by destruct l.
Qed.

Lemma split_zero_app s rest : Forall (fun c => char_u c <> 0) s -> split_zero (s ++ "000"%char :: rest) = Some (s, rest).
Proof.
  induction 1 as [|c s Hc _ IH]; [done|]. cbn [app split_zero]. rewrite (proj2 (Z.eqb_neq _ _) Hc). by rewrite IH.
Qed.

Lemma cstr_nonzero x : Forall (fun c => char_u c <> 0) (cstr x).
Proof. induction x as [|c x IH]; cbn [cstr]; [constructor|]. destruct (Z.eqb_spec (char_u c) 0); [constructor|by constructor]. Qed.

#[local] Opaque head_encode.

Lemma lnode_roundtrip n : data_ok (ldata n) -> llink_ok (lnext n) -> exists b, lnode_encode n = Some b /\ file_len b = lnode_size n /\ lnode_decode b = Some n.
Proof.
  intros [Hd Hl] Hn. unfold lnode_encode. rewrite (proj2 (Z.ltb_lt _ _)) by lia. cbn [VERIFY]. eexists. split; [done|]. split.
  - unfold file_len, lnode_size. cbn [length app]. rewrite length_app. cbn [length]. rewrite head_encode_length. unfold file_len. lia.
  - assert (Hdec : forall v l, lnode_decode (v :: l) = '(s, r) ← split_zero l; VERIFY! 16 <=? file_len r ;; Some (LNode (negb (char_u v =? 0)) (str_of s) (head_decode r))) by done.
    rewrite Hdec. change (["000"%char] ++ head_encode (lnext n)) with ("000"%char :: head_encode (lnext n)). rewrite split_zero_app by apply cstr_nonzero. cbn [mbind option_bind].
    assert ((16 <=? file_len (head_encode (lnext n))) = true) as -> by (unfold file_len; by rewrite head_encode_length). cbn [VERIFY].
    rewrite head_roundtrip, Hd, str_of_bytes_of by done. destruct n as [[] d nx]; done.
Qed.

(** ** The list in the file *)

(** The nodes from link [p] on, each before [bd], which is where the one before it starts. *)
Fixpoint nodes_at (f : gmap Z ascii) (p : llink) (bd : Z) (xs : list (bool * string)) : Prop :=
  match xs with
  | [] => node_off p = 0
  | (v, d) :: xs => exists nx b,
      lnode_encode (LNode v d nx) = Some b /\ node_bytes p = file_len b /\ pread f (node_off p) (length b) = b /\
      head_size <= node_off p /\ node_off p + node_bytes p <= bd /\ data_ok d /\ llink_ok nx /\ nodes_at f nx (node_off p) xs
  end.

Record disc_inv (s : disc) (xs : list (bool * string)) : Prop := {
  di_head : pread (fbytes (d_file s)) 0 16 = head_encode (d_head s);
  di_size : head_size <= fsize (d_file s) < 2 ^ 63;
  di_link : llink_ok (d_head s);
  di_nodes : nodes_at (fbytes (d_file s)) (d_head s) (fsize (d_file s)) xs }.

(** What is printed. *)
Definition visible (xs : list (bool * string)) : list string := snd <$> filter (fun x => fst x = true) xs.
Fixpoint mark_first (x : string) (xs : list (bool * string)) : list (bool * string) :=
  match xs with
  | [] => []
  | (v, d) :: xs => if v && bool_decide (d = x) then (false, d) :: xs else (v, d) :: mark_first x xs
  end.

Lemma visible_cons v d xs : visible ((v, d) :: xs) = if v then d :: visible xs else visible xs.
Proof. unfold visible. rewrite filter_cons. by destruct v. Qed.

Lemma visible_mark x xs : visible (mark_first x xs) = remove_first x (visible xs).
Proof.
  induction xs as [|[v d] xs IH]; [done|]. cbn [mark_first]. destruct v; cbn [andb]; [|by rewrite !visible_cons].
  case_bool_decide as E; rewrite !visible_cons; cbn [remove_first]; [by rewrite decide_True|by rewrite decide_False, IH].
Qed.

Lemma encode_size n b : lnode_encode n = Some b -> file_len b = lnode_size n /\ 18 <= file_len b.
Proof.
  unfold lnode_encode. destruct (_ <? _); [|done]. intros [= <-]. unfold file_len, lnode_size, file_len. cbn [length app]. rewrite length_app. cbn [length]. rewrite head_encode_length. lia.
Qed.

Lemma nodes_count f p bd xs : nodes_at f p bd xs -> 0 <= bd -> Z.of_nat (length xs) <= bd.
Proof.
  revert p bd. induction xs as [|[v d] xs IH]; intros p bd H Hbd; [cbn; lia|]. destruct H as (nx & b & He & Hb & _ & Ho & Hend & _ & _ & Hr).
  destruct (encode_size _ _ He) as [_ H18]. unfold head_size in Ho. specialize (IH nx (node_off p) Hr ltac:(lia)). cbn [length]. lia.
Qed.

(** The nodes are still there in a file that agrees with the old one below [bd]. *)
Lemma nodes_frame f g p bd xs : nodes_at f p bd xs -> (forall off n, head_size <= off -> off + Z.of_nat n <= bd -> pread g off n = pread f off n) -> nodes_at g p bd xs.
Proof.
  revert p bd. induction xs as [|[v d] xs IH]; intros p bd H Hfr; [done|]. destruct H as (nx & b & He & Hb & Hp & Ho & Hend & Hd & Hn & Hr). exists nx, b.
  destruct (encode_size _ _ He) as [_ H18]. split_and!; try done.
  - rewrite Hfr; [done|done|]. unfold file_len in *. lia.
  - apply (IH nx (node_off p)); [done|]. intros off n H1 H2. apply Hfr; [done|lia].
Qed.

Lemma nodes_bd f p bd bd' xs : nodes_at f p bd xs -> bd <= bd' -> nodes_at f p bd' xs.
Proof. destruct xs as [|[v d] xs]; [done|]. intros (nx & b & He & Hb & Hp & Ho & Hend & Hd & Hn & Hr) Hle. exists nx, b. split_and!; try done. lia. Qed.

Lemma read_first f p bd v d xs : nodes_at (fbytes f) p bd ((v, d) :: xs) -> bd <= fsize f ->
  exists f' nx, lnode_read f p = Some (f', LNode v d nx) /\ fbytes f' = fbytes f /\ fsize f' = fsize f /\ (node_off p =? 0) = false /\ data_ok d /\ llink_ok nx /\ nodes_at (fbytes f) nx (node_off p) xs /\ node_off p <= bd.
Proof.
  intros (nx & b & He & Hb & Hp & Ho & Hend & Hd & Hn & Hr) Hle. destruct (encode_size _ _ He) as [_ H18]. destruct (lnode_roundtrip (LNode v d nx) Hd Hn) as (b' & He' & _ & Hdec). rewrite He in He'. injection He' as <-.
  unfold head_size in Ho. unfold lnode_read. rewrite Read_ok by (cbn; lia). cbn [mbind option_bind Lseek fpos fbytes].
  assert (Hlen : Z.to_nat (node_bytes p) = length b) by (unfold file_len in Hb; lia). rewrite Hlen, Hp, Hdec. cbn [mbind option_bind]. eexists _, nx. split; [done|].
  split_and!; try done; [apply Z.eqb_neq|]; lia.
Qed.

Lemma print_loop_ok xs : forall fuel f p bd, nodes_at (fbytes f) p bd xs -> bd <= fsize f -> (length xs < fuel)%nat -> list_print_loop fuel f p = Some (visible xs).
Proof.
  induction xs as [|[v d] xs IH]; intros fuel f p bd H Hbd Hf; (destruct fuel as [|fuel]; [cbn in Hf; lia|]); cbn [list_print_loop].
  - cbn in H. by rewrite H.
  - destruct (read_first f p bd v d xs H Hbd) as (f' & nx & Hr & Hb & Hs & Hz & _ & _ & Hn & Hlt). rewrite Hz, Hr. cbn [mbind option_bind lnext lvalid ldata].
    rewrite (IH fuel f' nx (node_off p)); [|by rewrite Hb|rewrite Hs; lia|cbn in Hf; lia]. cbn [mbind option_bind]. rewrite visible_cons. by destruct v.
Qed.

Lemma list_print_ok s xs : disc_inv s xs -> list_print s = Some (visible xs).
Proof.
  intros [H1 H2 H3 H4]. unfold list_print, enough, head_size in *. eapply print_loop_ok; [exact H4|lia|]. pose proof (nodes_count _ _ _ _ H4 ltac:(lia)). lia.
Qed.

Lemma strcmp_eq_spec a b : data_ok a -> data_ok b -> strcmp_eq a b = bool_decide (a = b).
Proof.
  intros [Ha _] [Hb _]. unfold strcmp_eq. apply bool_decide_ext. rewrite Ha, Hb. split; [|by intros ->]. intros E. rewrite <- (str_of_bytes_of a), E. apply str_of_bytes_of.
Qed.

Lemma encode_valid v v' d nx b : lnode_encode (LNode v d nx) = Some b -> exists b', lnode_encode (LNode v' d nx) = Some b' /\ length b' = length b.
Proof.
  unfold lnode_encode. cbn [ldata lnext]. destruct (_ <? _); [|done]. cbn [VERIFY]. intros [= <-]. eexists. split; [done|]. by destruct v, v'.
Qed.

Lemma del_loop_ok data xs : data_ok data -> forall fuel f p bd, nodes_at (fbytes f) p bd xs -> bd <= fsize f -> fsize f < 2 ^ 63 -> (length xs < fuel)%nat ->
  exists f' ok, list_del_loop fuel f p data = Some (f', ok) /\ nodes_at (fbytes f') p bd (mark_first data xs) /\ fsize f' = fsize f /\
    forall off n, off + Z.of_nat n <= head_size \/ bd <= off -> pread (fbytes f') off n = pread (fbytes f) off n.
Proof.
  intros Hdata. induction xs as [|[v d] xs IH]; intros fuel f p bd H Hbd Hsz Hf; (destruct fuel as [|fuel]; [cbn in Hf; lia|]); cbn [list_del_loop].
  - cbn in H. rewrite H. by eexists _, _.
  - pose proof H as (nx & b & He & Hb & Hp & Ho & Hend & Hd & Hn & Hr). destruct (read_first f p bd v d xs H Hbd) as (f1 & nx' & Hrd & Hb1 & Hs1 & Hz & _). rewrite Hz, Hrd. cbn [mbind option_bind lnext lvalid ldata].
    assert (nx' = nx) as ->.
    { unfold lnode_read in Hrd. rewrite Read_ok in Hrd by (unfold head_size in Ho; cbn; unfold file_len in *; lia). cbn in Hrd. replace (Z.to_nat (node_bytes p)) with (length b) in Hrd by (unfold file_len in Hb; lia).
      rewrite Hp in Hrd. destruct (lnode_roundtrip (LNode v d nx) Hd Hn) as (b' & He' & _ & Hdec). rewrite He in He'. injection He' as <-. rewrite Hdec in Hrd. cbn in Hrd. by injection Hrd as <-. }
    rewrite strcmp_eq_spec by done. cbn [mark_first]. destruct (v && bool_decide (d = data)).
    + destruct (encode_valid v false d nx b He) as (b' & He' & Hlen). unfold node_write_inplace. rewrite He'. cbn [mbind option_bind].
      destruct (Write_ok (Lseek f1 (node_off p)) b') as (f2 & Hw); [cbn; unfold file_len in *; lia|]. rewrite Hw. cbn [mbind option_bind]. eexists _, _. split; [done|].
      assert (Hoth : forall off n, off + Z.of_nat n <= node_off p \/ node_off p + file_len b <= off -> pread (fbytes f2) off n = pread (fbytes f) off n).
      { intros off n Hd'. rewrite (pread_write_other _ _ _ off n Hw); [cbn; by rewrite Hb1|]. cbn. unfold file_len in *. lia. }
      destruct (Write_size _ _ _ Hw) as [Hs2 _]; [cbn; unfold file_len in *; lia|]. cbn in Hs2. split_and!.
      * exists nx, b'. split_and!; try done; [unfold file_len in *; lia| |]; [pose proof (pread_write_same _ _ _ Hw) as Hsame; exact Hsame|].
        eapply nodes_frame; [exact Hr|]. intros off n _ Hle. apply Hoth. lia.
      * unfold file_len in *. lia.
      * intros off n Hout. apply Hoth. unfold head_size in *. lia.
    + destruct (IH fuel f1 nx (node_off p)) as (f2 & ok & Hl & Hn2 & Hs2 & Hfr); [by rewrite Hb1|unfold file_len in *; lia|lia|cbn in Hf; lia|]. rewrite Hl. eexists _, _. split; [done|].
      rewrite Hb1 in Hfr. split_and!; [|lia|].
      * exists nx, b. split_and!; try done. rewrite Hfr; [done|right; lia].
      * intros off n Hout. apply Hfr. unfold file_len in *. lia.
Qed.

Lemma list_del_ok s xs x : disc_inv s xs -> data_ok x -> exists s' ok, list_del s x = Some (s', ok) /\ disc_inv s' (mark_first x xs) /\ fsize (d_file s') = fsize (d_file s).
Proof.
  intros [H1 H2 H3 H4] Hx. unfold list_del, enough. pose proof (nodes_count _ _ _ _ H4 ltac:(unfold head_size in *; lia)) as Hn.
  destruct (del_loop_ok x xs Hx (S (Z.to_nat (fsize (d_file s)))) (d_file s) (d_head s) (fsize (d_file s)) H4) as (f' & ok & Hl & Hn' & Hs & Hfr); [lia|lia|lia|].
  rewrite Hl. cbn [mbind option_bind]. eexists _, _. split; [done|]. split; [|done]. split; cbn [d_file d_head]; [|by rewrite Hs|done|by rewrite Hs]. rewrite Hfr; [done|]. left. unfold head_size. lia.
Qed.

(** The head is written in place. *)
Lemma write_head_ok f l xs : head_size <= fsize f < 2 ^ 63 -> llink_ok l -> nodes_at (fbytes f) l (fsize f) xs ->
  exists s, write_head (Disc f l) = Some s /\ disc_inv s xs /\ fsize (d_file s) = fsize f.
Proof.
  intros Hs Hl Hn. unfold write_head, head_size in *. cbn [d_file d_head]. destruct (Write_ok (Lseek f 0) (head_encode l)) as (f' & Hw); [cbn; unfold file_len; rewrite head_encode_length; lia|].
  rewrite Hw. cbn [mbind option_bind]. eexists. split; [done|]. destruct (Write_size _ _ _ Hw) as [Hs' _]; [cbn; lia|]. cbn in Hs'. unfold file_len in Hs'. rewrite head_encode_length in Hs'.
  assert (E : fsize f' = fsize f) by lia. split; [|done]. split; cbn [d_file d_head]; [|rewrite E; done|done|].
  - pose proof (pread_write_same _ _ _ Hw) as Hp. rewrite head_encode_length in Hp. exact Hp.
  - rewrite E. eapply nodes_frame; [exact Hn|]. intros off n H1 _. rewrite (pread_write_other _ _ _ off n Hw); [done|]. right. cbn. unfold file_len. rewrite head_encode_length. unfold head_size in H1. lia.
Qed.

Lemma list_add_ok s xs x : disc_inv s xs -> data_ok x -> fsize (d_file s) + lnode_size (LNode true x (d_head s)) < 2 ^ 63 ->
  exists s', list_add s x = Some s' /\ disc_inv s' ((true, x) :: xs) /\ fsize (d_file s') = fsize (d_file s) + lnode_size (LNode true x (d_head s)).
Proof.
  intros [H1 H2 H3 H4] Hx Hsz. unfold list_add. destruct (lnode_roundtrip (LNode true x (d_head s)) Hx H3) as (b & He & Hlen & _). rewrite He. cbn [mbind option_bind Lseek_end].
  destruct (encode_size _ _ He) as [_ H18]. destruct (Write_ok (Lseek (d_file s) (fsize (d_file s))) b) as (f' & Hw); [cbn; lia|]. rewrite Hw. cbn [mbind option_bind].
  destruct (Write_size _ _ _ Hw) as [Hs' _]; [cbn; lia|]. cbn in Hs'. assert (E : fsize f' = fsize (d_file s) + file_len b) by lia.
  destruct (write_head_ok f' (LLink (lnode_size (LNode true x (d_head s))) (fsize (d_file s))) ((true, x) :: xs)) as (s' & Hwh & Hinv & Hsz').
  - unfold head_size in *. lia.
  - unfold llink_ok, in_u64, head_size in *. cbn. lia.
  - exists (d_head s), b. cbn [node_bytes node_off]. split_and!; try done; try (unfold head_size in *; lia).
    + exact (pread_write_same _ _ _ Hw).
    + eapply nodes_frame; [exact H4|]. intros off n _ Hle. apply (pread_write_other _ _ _ off n Hw). left. exact Hle.
  - exists s'. split; [exact Hwh|]. split; [exact Hinv|]. lia.
Qed.

Lemma list_restart_ok s xs : disc_inv s xs -> exists s', list_init (Some (d_file s)) = Some s' /\ disc_inv s' xs /\ fsize (d_file s') = fsize (d_file s).
Proof.
  intros [H1 H2 H3 H4]. cbn [list_init]. unfold read_head, head_size in *. rewrite Read_ok by (cbn; lia). cbn [mbind option_bind Lseek fpos fbytes]. change (Z.to_nat 16) with 16%nat. rewrite H1, head_roundtrip by done.
  eexists. split; [done|]. split; [|done]. by split.
Qed.

Lemma list_new_ok : exists s, list_init None = Some s /\ disc_inv s [] /\ fsize (d_file s) = head_size.
Proof.
  eexists. split; [vm_compute; reflexivity|]. split; [|done]. split; cbn; [by vm_compute|unfold head_size; lia|unfold llink_ok, in_u64; cbn; lia|done].
Qed.

(** The bytes a command adds to the file. *)
Definition cmd_bytes (c : lcmd) : Z := match c with LAdd x => file_len (cstr x) + 18 | _ => 0 end.
Definition cmd_ok (c : lcmd) : Prop := match c with LAdd x | LDel x => data_ok x | LRestart => True end.

Lemma run_cmd_ok s xs c : disc_inv s xs -> cmd_ok c -> fsize (d_file s) + cmd_bytes c < 2 ^ 63 ->
  exists s' xs', run_cmd s c = Some (s', visible xs') /\ disc_inv s' xs' /\ visible xs' = spec_cmd (visible xs) c /\ fsize (d_file s') = fsize (d_file s) + cmd_bytes c.
Proof.
  intros I Hc Hsz. unfold run_cmd. destruct c as [x|x|]; cbn [cmd_ok cmd_bytes spec_cmd] in *.
  - destruct (list_add_ok s xs x I Hc) as (s' & Ha & I' & Hs); [unfold lnode_size; cbn; lia|]. rewrite Ha. cbn [mbind option_bind]. rewrite (list_print_ok _ _ I'). cbn [mbind option_bind].
    eexists s', _. split; [done|]. split; [exact I'|]. split; [by rewrite visible_cons|]. rewrite Hs. unfold lnode_size. cbn. lia.
  - destruct (list_del_ok s xs x I Hc) as (s' & ok & Hd & I' & Hs). rewrite Hd. cbn [mbind option_bind]. rewrite (list_print_ok _ _ I'). cbn [mbind option_bind].
    eexists s', _. split; [done|]. split; [exact I'|]. split; [by apply visible_mark|]. lia.
  - destruct (list_restart_ok s xs I) as (s' & Hr & I' & Hs). rewrite Hr. cbn [mbind option_bind]. rewrite (list_print_ok _ _ I'). cbn [mbind option_bind]. eexists s', _. split; [done|]. split; [exact I'|]. split; [done|]. lia.
Qed.

Lemma run_cmds_ok cs : forall s xs, disc_inv s xs -> Forall cmd_ok cs -> fsize (d_file s) + foldr Z.add 0 (cmd_bytes <$> cs) < 2 ^ 63 ->
  run_cmds s cs = Some (spec_cmds (visible xs) cs).
Proof.
  induction cs as [|c cs IH]; intros s xs I Hok Hsz; [done|]. apply Forall_cons in Hok as [Hc Hok]. cbn in Hsz.
  assert (Hpos : 0 <= foldr Z.add 0 (cmd_bytes <$> cs)) by (clear; induction cs as [|c cs IH]; cbn; [lia|]; destruct c; cbn; unfold file_len; lia).
  destruct (run_cmd_ok s xs c I Hc ltac:(lia)) as (s' & xs' & Hr & I' & Hv & Hs). cbn [run_cmds]. rewrite Hr. cbn [mbind option_bind].
  rewrite (IH s' xs' I' Hok) by lia. cbn [mbind option_bind spec_cmds]. by rewrite Hv.
Qed.

(** C17. The list on disc refines a list in memory: for any sequence of additions, deletions
    and restarts of the program, from a new file that the nodes do not make larger than the
    largest offset, every command succeeds, no loop runs out of fuel or reads outside its
    buffer, and what is printed after each command is the list with the strings added in front
    and the first occurrence of each deleted string removed. *)
Theorem disc_list_refines cs : Forall cmd_ok cs -> head_size + foldr Z.add 0 (cmd_bytes <$> cs) < 2 ^ 63 ->
  (s ← list_init None; run_cmds s cs) = Some (spec_cmds [] cs).
Proof.
  intros Hok Hsz. destruct list_new_ok as (s & Hs & I & Hf). rewrite Hs. cbn [mbind option_bind]. rewrite (run_cmds_ok cs s [] I Hok); [done|]. lia.
Qed.

Lemma disc_list_refines_witness :
  (s ← list_init None; run_cmds s [LAdd "a"; LAdd "b"; LAdd "a"; LDel "a"; LRestart; LDel "c"]) =
    Some [["a"]; ["b"; "a"]; ["a"; "b"; "a"]; ["b"; "a"]; ["b"; "a"]; ["b"; "a"]]%string.
Proof.
  apply (disc_list_refines [LAdd "a"; LAdd "b"; LAdd "a"; LDel "a"; LRestart; LDel "c"]).
  - repeat constructor.
  - reflexivity.
Defined.
