(* ===== verification/Arena.v ===== *)
(** * The allocator of a page

    Models src/diskbased_bplus_tree/arena.c: memory inside a page of 4096 bytes, handed out in
    units of a list node (8 bytes) from a free list that is kept in the page itself, sorted by
    address, first fit, with neighbours joined when a piece is freed.  Two maps hold the
    fields [size] and [next] of the list nodes by their offset; [None] is a field that was
    never written, the failure of an assertion, or a loop that ran out of fuel.

    The theorems: the allocator does what an allocator on the sequence of the pieces of the
    page does; pieces that are handed out lie in the page and apart from each other; and when
    all of them have been given back the page is one free piece again. *)

From Stdlib Require Import ZArith Lia.
From stdpp Require Import base list gmap.
From S2P Require Import Prelude.

Local Open Scope Z_scope.
Local Open Scope cpp_scope.

Definition PAGE_SIZE : Z := 4096.
(** [sizeof(list_node)], [sizeof(btree_node)]. *)
Definition UNIT : Z := 8.
Definition NODE : Z := 16.

(** ** The code *)

Record arena := Arena { a_size : gmap Z Z; a_next : gmap Z Z; free_mem_header : Z }.
Definition set_size (a : arena) (p x : Z) : arena := Arena (<[p := x]> (a_size a)) (a_next a) (free_mem_header a).
Definition set_next (a : arena) (p x : Z) : arena := Arena (a_size a) (<[p := x]> (a_next a)) (free_mem_header a).

Definition arena_init (header : Z) : arena :=
  let start := header + UNIT in
  let a := Arena ∅ ∅ header in
  set_next (set_size (set_next (set_size a start ((PAGE_SIZE - start) / UNIT)) start 0) header 0) header start.
(** [btree_node_init] puts the header behind the fields of the node. *)
Definition btree_node_init : arena := arena_init NODE.

(** The loop of [arena_alloc]; 0 if no piece is large enough. *)
Fixpoint alloc_loop (fuel : nat) (a : arena) (prev ptr nunits : Z) : option (arena * Z) :=
  match fuel with
  | O => None
  | S fuel =>
      if ptr =? 0 then Some (a, 0)
      else
        size ← a_size a !! ptr;
        if nunits <=? size then
          if size =? nunits then next ← a_next a !! ptr; Some (set_next a prev next, ptr + UNIT)
          else
            let ptr' := ptr + (size - nunits) * UNIT in
            Some (set_size (set_size a ptr (size - nunits)) ptr' nunits, ptr' + UNIT)
        else next ← a_next a !! ptr; alloc_loop fuel a ptr next nunits
  end.
(** More turns than there are pieces in a page. *)
Definition turns : nat := Z.to_nat PAGE_SIZE.
Definition units (nbytes : Z) : Z := (nbytes + UNIT - 1) / UNIT + 1.
Definition arena_alloc (a : arena) (nbytes : Z) : option (arena * Z) :=
  first ← a_next a !! free_mem_header a;
  alloc_loop turns a (free_mem_header a) first (units nbytes).

(** The loop of [arena_free]: the free pieces before and after [ptr]. *)
Fixpoint free_loop (fuel : nat) (a : arena) (prev p ptr : Z) : option (Z * Z) :=
  match fuel with
  | O => None
  | S fuel =>
      if negb (p =? 0) && (p <? ptr) then next ← a_next a !! p; free_loop fuel a p next ptr
      else Some (prev, p)
  end.
(** The rest of [arena_free]: [ptr] is joined with the piece after it, then with the one before. *)
Definition join_next (a : arena) (p ptr : Z) : option arena :=
  size ← a_size a !! ptr;
  if ptr + size * UNIT =? p then
    psize ← a_size a !! p; pnext ← a_next a !! p; Some (set_next (set_size a ptr (size + psize)) ptr pnext)
  else Some (set_next a ptr p).
Definition join_prev (a : arena) (prev ptr : Z) : option arena :=
  psize ← a_size a !! prev;
  if prev + psize * UNIT =? ptr then
    size ← a_size a !! ptr; next ← a_next a !! ptr; Some (set_next (set_size a prev (psize + size)) prev next)
  else Some (set_next a prev ptr).
Definition free_from (fuel : nat) (a : arena) (prev first ptr : Z) : option arena :=
  '(prev, p) ← free_loop fuel a prev first ptr;
  VERIFY! (p =? 0) || (ptr <? p) ;;
  a ← join_next a p ptr;
  join_prev a prev ptr.
Definition arena_free (a : arena) (mp : Z) : option arena :=
  first ← a_next a !! free_mem_header a;
  free_from turns a (free_mem_header a) first (mp - UNIT).

(** ** The pieces of a page *)

(** A piece is free or not, and has a number of units; the pieces follow each other. *)
Definition pieces : Type := list (bool * Z).
Fixpoint len (l : pieces) : Z := match l with [] => 0 | (_, u) :: l => u + len l end.

(** The free pieces of [l], which starts at [off], with their offsets. *)
Fixpoint frees (off : Z) (l : pieces) : list (Z * Z) :=
  match l with
  | [] => []
  | (b, u) :: l => (if b : bool then [(off, u)] else []) ++ frees (off + u * UNIT) l
  end.

(** First fit: the end of the first free piece that is large enough; its offset. *)
Fixpoint take_piece (off n : Z) (l : pieces) : option (pieces * Z) :=
  match l with
  | [] => None
  | (b, u) :: l =>
      if b && (n <=? u) then Some (if u =? n then (false, n) :: l else (true, u - n) :: (false, n) :: l, off + (u - n) * UNIT)
      else '(l, p) ← take_piece (off + u * UNIT) n l; Some ((b, u) :: l, p)
  end.

(** A free piece of [u] units in front of [l]: joined with the first piece if that is free. *)
Definition put_free (u : Z) (l : pieces) : pieces :=
  match l with (true, v) :: l => (true, u + v) :: l | _ => (true, u) :: l end.
(** The piece at [p] is given back and joined with its neighbours. *)
Fixpoint give_piece (off p : Z) (l : pieces) : option pieces :=
  match l with
  | [] => None
  | (b, u) :: l =>
      if off =? p then if b then None else Some (put_free u l)
      else l ← give_piece (off + u * UNIT) p l; Some (if b then put_free u l else (b, u) :: l)
  end.

(** No two free pieces are next to each other. *)
Definition hd_free (l : pieces) : bool := match l with (b, _) :: _ => b | [] => false end.
Fixpoint apart (l : pieces) : Prop :=
  match l with [] => True | (b, _) :: l => b && hd_free l = false /\ apart l end.
Definition sized (l : pieces) : Prop := Forall (fun x => 1 <= snd x) l.

(** ** The free list in the page *)

(** [next] of [prev] and the nodes after it are the free pieces [fl]. *)
Fixpoint linked (a : arena) (prev : Z) (fl : list (Z * Z)) : Prop :=
  match fl with
  | [] => a_next a !! prev = Some 0
  | (o, u) :: fl => a_next a !! prev = Some o /\ a_size a !! o = Some u /\ linked a o fl
  end.

(** Every piece has its size in front. *)
Fixpoint has_sizes (a : arena) (off : Z) (l : pieces) : Prop :=
  match l with [] => True | (_, u) :: l => a_size a !! off = Some u /\ has_sizes a (off + u * UNIT) l end.

Definition START : Z := NODE + UNIT.
Record arena_rep (a : arena) (l : pieces) : Prop := {
  ar_header : free_mem_header a = NODE /\ a_size a !! NODE = Some 0;
  ar_linked : linked a NODE (frees START l);
  ar_sizes : has_sizes a START l;
  ar_pieces : sized l /\ apart l /\ START + len l * UNIT = PAGE_SIZE }.

(** The pieces that are handed out, with their offsets. *)
Fixpoint taken (off : Z) (l : pieces) : list (Z * Z) :=
  match l with
  | [] => []
  | (b, u) :: l => (if b : bool then [] else [(off, u)]) ++ taken (off + u * UNIT) l
  end.

(** ** The free list under changes elsewhere *)

(** [a'] has the fields of [a] at [off] and after. *)
Definition same_from (off : Z) (a a' : arena) : Prop :=
  forall q, off <= q -> a_size a' !! q = a_size a !! q /\ a_next a' !! q = a_next a !! q.
(** [a'] has the fields of [a] before [off], but for [next] of [prev]. *)
Definition same_below (prev off : Z) (a a' : arena) : Prop :=
  free_mem_header a' = free_mem_header a
  /\ forall q, q < off -> a_size a' !! q = a_size a !! q /\ (q <> prev -> a_next a' !! q = a_next a !! q).

Lemma has_sizes_frame a a' l : forall off,
  sized l -> has_sizes a off l -> same_from off a a' -> has_sizes a' off l.
Proof.
  induction l as [|[b u] l IH]; intros off Hs Hh Hf; [done|]. inversion Hs as [|? ? Hu Hs']; subst.
  cbn in *. destruct Hh as [Hh1 Hh2]. split; [by rewrite (proj1 (Hf off ltac:(lia)))|].
  apply IH; [done..|]. intros q Hq. apply Hf. unfold UNIT in *. lia.
Qed.

Lemma linked_frame a a' l : forall off o prev,
  sized l -> linked a o (frees off l) -> a_next a' !! prev = a_next a !! o -> same_from off a a' ->
  linked a' prev (frees off l).
Proof.
  induction l as [|[b u] l IH]; intros off o prev Hs Hl Hn Hf; cbn in *; [congruence|].
  inversion Hs as [|? ? Hu Hs']; subst. cbn in Hu.
  assert (Hf' : same_from (off + u * UNIT) a a') by (intros q Hq; apply Hf; unfold UNIT in *; lia).
  destruct b; cbn in *; [|by eapply IH].
  destruct Hl as (H1 & H2 & H3), (Hf off ltac:(lia)) as [Hf1 Hf2].
  split_and!; [congruence..|]. by eapply IH.
Qed.

Lemma linked_first a l : forall off prev, sized l -> linked a prev (frees off l) ->
  exists first, a_next a !! prev = Some first /\ (first = 0 \/ off <= first).
Proof.
  induction l as [|[b u] l IH]; intros off prev Hs Hl; cbn in *; [eauto|].
  inversion Hs as [|? ? Hu Hs']; subst. cbn in Hu. destruct b; cbn in *.
  - destruct Hl as (H1 & _). exists off. split; [done|lia].
  - destruct (IH _ _ Hs' Hl) as (f & Hf & Hr). exists f. split; [done|]. unfold UNIT in *. lia.
Qed.

(** ** Allocation *)

(** The two ways a piece is taken: all of it, or its end. *)
Lemma take_all a l off prev nx n :
  prev < off -> 1 <= n -> sized l -> linked a off (frees (off + n * UNIT) l) -> has_sizes a (off + n * UNIT) l ->
  a_size a !! off = Some n -> a_next a !! off = Some nx ->
  let a' := set_next a prev nx in
  linked a' prev (frees off ((false, n) :: l)) /\ has_sizes a' off ((false, n) :: l) /\ same_below prev off a a'.
Proof.
  intros Hp Hn Hs Hl Hh Ho Hx a'.
  assert (Hf : same_from (off + n * UNIT) a a').
  { intros q Hq. unfold UNIT in Hq. cbn. rewrite lookup_insert_ne by lia. done. }
  split; [|split; [cbn; split; [exact Ho|by eapply has_sizes_frame]|split; [done|]]].
  - cbn [frees app]. eapply linked_frame; [done|exact Hl| |done]. cbn. rewrite lookup_insert_eq. congruence.
  - intros q Hq. split; [done|]. intros Hne. cbn. by rewrite lookup_insert_ne.
Qed.

Lemma take_end a l off prev u n :
  prev < off -> 1 <= n < u -> sized l -> linked a prev (frees off ((true, u) :: l)) -> has_sizes a (off + u * UNIT) l ->
  let a' := set_size (set_size a off (u - n)) (off + (u - n) * UNIT) n in
  linked a' prev (frees off ((true, u - n) :: (false, n) :: l)) /\ has_sizes a' off ((true, u - n) :: (false, n) :: l)
  /\ same_below prev off a a'.
Proof.
  intros Hp Hn Hs (Hl1 & Hl2 & Hl3) Hh a'.
  assert (Hf : same_from (off + u * UNIT) a a').
  { intros q Hq. cbn. unfold UNIT in *. rewrite !lookup_insert_ne by lia. done. }
  assert (Ho : a_size a' !! off = Some (u - n)).
  { cbn. rewrite lookup_insert_ne, lookup_insert_eq by (unfold UNIT; lia). done. }
  cbn [frees linked has_sizes app].
  replace (off + (u - n) * UNIT + n * UNIT) with (off + u * UNIT) by lia.
  split_and!; try done.
  - by eapply linked_frame.
  - cbn. by rewrite lookup_insert_eq.
  - by eapply has_sizes_frame.
  - split; [done|]. intros q Hq. cbn. unfold UNIT in *. rewrite !lookup_insert_ne by lia. done.
Qed.

(** A free piece in front of those that were changed. *)
Lemma linked_cons a a' u l prev off :
  1 <= u -> prev < off -> a_next a !! prev = Some off -> a_size a !! off = Some u ->
  linked a' off (frees (off + u * UNIT) l) -> same_below off (off + u * UNIT) a a' ->
  linked a' prev (frees off ((true, u) :: l)) /\ same_below prev off a a'.
Proof.
  intros Hu Hp Hn Ho Hl [Hh Hb]. unfold UNIT in Hb. cbn. split_and!; try done.
  - rewrite (proj2 (Hb prev ltac:(lia))) by lia. done.
  - by rewrite (proj1 (Hb off ltac:(lia))).
  - split; [done|]. intros q Hq. destruct (Hb q ltac:(lia)) as [H1 H2]. split; [done|]. intros _. apply H2. lia.
Qed.
Lemma same_below_weaken a a' prev off off' : off <= off' -> same_below prev off' a a' -> same_below prev off a a'.
Proof. intros Hle [H1 H2]. split; [done|]. intros q Hq. apply H2. lia. Qed.

Lemma alloc_loop_spec n l : forall off prev fuel a first,
  (length l < fuel)%nat -> 0 < prev < off -> 1 <= n -> sized l ->
  linked a prev (frees off l) -> has_sizes a off l -> a_next a !! prev = Some first ->
  match take_piece off n l with
  | None => alloc_loop fuel a prev first n = Some (a, 0)
  | Some (l', p) => exists a', alloc_loop fuel a prev first n = Some (a', p + UNIT)
      /\ linked a' prev (frees off l') /\ has_sizes a' off l' /\ same_below prev off a a'
  end.
Proof.
  induction l as [|[b u] l IH]; intros off prev [|fuel] a first Hfu Hp Hn Hs Hl Hh Hf; cbn [length] in Hfu; try lia.
  { cbn in *. replace first with 0 by congruence. done. }
  inversion Hs as [|? ? Hu Hs']; subst. cbn in Hu. pose proof Hh as [Hh1 Hh2].
  assert (Hup : off < off + u * UNIT) by (unfold UNIT; lia).
  cbn [take_piece]. destruct b; cbn [andb].
  - pose proof Hl as (Hl1 & Hl2 & Hl3). assert (first = off) as -> by congruence.
    destruct (linked_first _ _ _ _ Hs' Hl3) as (nx & Hnx & _).
    cbn [alloc_loop]. rewrite (proj2 (Z.eqb_neq off 0)), Hl2 by lia. cbn [mbind option_bind].
    destruct (Z.leb_spec n u) as [Hle|Hgt]; [destruct (Z.eqb_spec u n) as [->|Hne]|].
    + rewrite Hnx. cbn [mbind option_bind]. eexists. split; [repeat f_equal; unfold UNIT; lia|].
      apply take_all; (done || lia).
    + eexists. split; [reflexivity|]. apply take_end; (done || lia).
    + rewrite Hnx. cbn [mbind option_bind].
      specialize (IH (off + u * UNIT) off fuel a nx ltac:(lia) ltac:(lia) Hn Hs' Hl3 Hh2 Hnx).
      destruct (take_piece (off + u * UNIT) n l) as [[l' p]|]; [|done].
      destruct IH as (a' & -> & H1 & H2 & H3). exists a'. split; [done|].
      destruct (linked_cons a a' u l' prev off) as [H4 H5]; [done || lia..|].
      split_and!; [done|cbn; split; [apply H4|done]|done..].
  - specialize (IH (off + u * UNIT) prev (S fuel) a first ltac:(lia) ltac:(lia) Hn Hs' Hl Hh2 Hf).
    destruct (take_piece (off + u * UNIT) n l) as [[l' p]|]; [|done].
    destruct IH as (a' & -> & H1 & H2 & H3). exists a'. split_and!; try done.
    + cbn. split; [|done]. rewrite (proj1 (proj2 H3 off ltac:(lia))). done.
    + eapply same_below_weaken; [|done]. lia.
Qed.

(** ** Giving back *)

Lemma give_piece_from p l : forall off l', sized l -> give_piece off p l = Some l' -> off <= p.
Proof.
  induction l as [|[b u] l IH]; intros off l' Hs Hg; cbn in Hg; [done|].
  inversion Hs as [|? ? Hu Hs']; subst. cbn in Hu. destruct (Z.eqb_spec off p); [lia|].
  destruct (give_piece (off + u * UNIT) p l) as [l2|] eqn:E; [|done].
  specialize (IH _ _ Hs' E). unfold UNIT in IH. lia.
Qed.

Lemma put_free_taken v l : hd_free l = false -> put_free v l = (true, v) :: l.
Proof. destruct l as [|[[] w] l]; done. Qed.

Lemma first_not_adjacent a l off prev first :
  0 < off -> sized l -> hd_free l = false -> linked a prev (frees off l) -> a_next a !! prev = Some first -> first <> off.
Proof.
  intros Ho Hs Hh Hl Hf. destruct l as [|[[] w] l]; [|done|]; cbn in *; [rewrite Hl in Hf; by injection Hf; lia|].
  inversion Hs as [|? ? Hw Hs']; subst. cbn in Hw.
  destruct (linked_first _ _ _ _ Hs' Hl) as (f & Hf2 & Hr). unfold UNIT in Hr. assert (f = first) as -> by congruence. lia.
Qed.

(** The piece at [off] is joined with the one after it: the head of [put_free v l]. *)
Lemma join_next_spec a prev off v l first :
  0 < prev < off -> 1 <= v -> sized l -> linked a prev (frees (off + v * UNIT) l) -> has_sizes a (off + v * UNIT) l ->
  a_size a !! off = Some v -> a_next a !! prev = Some first ->
  exists a' w l2, join_next a first off = Some a' /\ put_free v l = (true, w) :: l2 /\ v <= w
    /\ a_size a' !! off = Some w /\ linked a' off (frees (off + w * UNIT) l2) /\ has_sizes a' (off + w * UNIT) l2
    /\ sized l2 /\ same_below off off a a'.
Proof.
  intros Ho Hv Hs Hl Hh Hsz Hf. unfold join_next. rewrite Hsz. cbn [mbind option_bind].
  destruct (hd_free l) eqn:Hd.
  - destruct l as [|[[] w] l]; try done. inversion Hs as [|? ? Hw Hs']; subst. cbn in Hw.
    destruct Hl as (Hl1 & Hl2 & Hl3), Hh as [_ Hh]. assert (first = off + v * UNIT) as -> by congruence.
    destruct (linked_first _ _ _ _ Hs' Hl3) as (nx & Hnx & _). rewrite Z.eqb_refl, Hl2, Hnx. cbn [mbind option_bind].
    set (a' := set_next _ _ _). exists a', (v + w), l. split; [done|].
    assert (Hfr : same_from (off + v * UNIT + w * UNIT) a a').
    { intros q Hq. unfold UNIT in Hq. cbn. rewrite !lookup_insert_ne by lia. done. }
    replace (off + (v + w) * UNIT) with (off + v * UNIT + w * UNIT) by lia.
    split_and!; try done; [lia|cbn; by rewrite lookup_insert_eq| |by eapply has_sizes_frame|].
    + eapply linked_frame; [done|exact Hl3| |done]. cbn. rewrite lookup_insert_eq. congruence.
    + split; [done|]. intros q Hq. cbn. rewrite !lookup_insert_ne by lia. done.
  - assert (Hna : first <> off + v * UNIT) by (eapply first_not_adjacent; [unfold UNIT; lia|done..]).
    rewrite (proj2 (Z.eqb_neq _ _)), put_free_taken by done. set (a' := set_next _ _ _). exists a', v, l.
    assert (Hfr : same_from (off + v * UNIT) a a').
    { intros q Hq. unfold UNIT in Hq. cbn. rewrite lookup_insert_ne by lia. done. }
    split_and!; try done; [| |].
    + eapply linked_frame; [done|exact Hl| |done]. cbn. rewrite lookup_insert_eq. congruence.
    + by eapply has_sizes_frame.
    + split; [done|]. intros q Hq. cbn. rewrite !lookup_insert_ne by lia. done.
Qed.

(** The search stops in front of [off] when the free pieces begin after it. *)
Lemma free_loop_stop fuel a prev first ptr :
  (first = 0 \/ ptr < first) -> free_from (S fuel) a prev first ptr = a ← join_next a first ptr; join_prev a prev ptr.
Proof.
  intros H. unfold free_from. cbn [free_loop].
  replace (negb (first =? 0) && (first <? ptr)) with false by (destruct H as [->|H]; [done|]; symmetry; apply andb_false_iff; right; lia).
  cbn. replace ((first =? 0) || (ptr <? first)) with true; [done|].
  destruct H as [->|H]; [done|]. symmetry. apply orb_true_iff. right. lia.
Qed.
Lemma free_loop_step fuel a prev first ptr next :
  0 < first < ptr -> a_next a !! first = Some next -> free_from (S fuel) a prev first ptr = free_from fuel a first next ptr.
Proof.
  intros H Hn. unfold free_from. cbn [free_loop].
  replace (negb (first =? 0) && (first <? ptr)) with true by (symmetry; apply andb_true_iff; split; [apply negb_true_iff|]; lia).
  rewrite Hn. done.
Qed.

Definition given_back (a : arena) (prev off : Z) (l' : pieces) (r : option arena) : Prop :=
  exists a', r = Some a' /\ linked a' prev (frees off l') /\ has_sizes a' off l' /\ same_below prev off a a'.

(** The piece is at [off], and [prev] does not end there. *)
Lemma give_first a prev ps off v l first fuel :
  0 < prev < off -> 1 <= v -> sized l -> linked a prev (frees off ((false, v) :: l)) -> has_sizes a off ((false, v) :: l) ->
  a_next a !! prev = Some first -> a_size a !! prev = Some ps -> prev + ps * UNIT <> off ->
  given_back a prev off (put_free v l) (free_from (S fuel) a prev first off).
Proof.
  intros Hp Hv Hs Hl [Hh1 Hh2] Hf Hps Hne. cbn [frees app] in Hl.
  destruct (linked_first _ _ _ _ Hs Hl) as (f & Hf2 & Hr). assert (f = first) as -> by congruence.
  rewrite free_loop_stop by (unfold UNIT in Hr; lia).
  destruct (join_next_spec a prev off v l first) as (a1 & w & l2 & -> & -> & Hw & H1 & H2 & H3 & H4 & Hh & H5); [done..|].
  unfold join_prev. cbn [mbind option_bind]. destruct (H5 prev ltac:(lia)) as [H6 _]. rewrite H6, Hps. cbn [mbind option_bind].
  rewrite (proj2 (Z.eqb_neq _ _) Hne). set (a' := set_next _ _ _). exists a'. split; [done|].
  assert (Hfr : same_from off a1 a') by (intros q Hq; cbn; rewrite lookup_insert_ne by lia; done).
  assert (Hfr' : same_from (off + w * UNIT) a1 a') by (intros q Hq; apply Hfr; unfold UNIT in Hq; lia).
  cbn [frees linked has_sizes app]. rewrite (proj1 (Hfr off ltac:(lia))). split_and!; try done.
  - cbn. by rewrite lookup_insert_eq.
  - eapply linked_frame; [done|exact H2| |done]. apply Hfr. lia.
  - by eapply has_sizes_frame.
  - split; [done|]. intros q Hq. destruct (H5 q Hq) as [H7 H8]. split; [done|].
    intros Hq2. cbn. rewrite lookup_insert_ne by lia. apply H8. lia.
Qed.

(** The piece follows the free piece at [off]. *)
Lemma give_second a prev off u v l fuel :
  0 < prev < off -> 1 <= u -> 1 <= v -> sized l ->
  linked a prev (frees off ((true, u) :: (false, v) :: l)) -> has_sizes a off ((true, u) :: (false, v) :: l) ->
  given_back a prev off (put_free u (put_free v l)) (free_from (S (S fuel)) a prev off (off + u * UNIT)).
Proof.
  intros Hp Hu Hv Hs (Hl1 & Hl2 & Hl3) (Hh1 & Hh2 & Hh3). cbn [frees app] in Hl3.
  set (ptr := off + u * UNIT) in *. assert (Hup : off < ptr) by (unfold ptr, UNIT; lia).
  destruct (linked_first _ _ _ _ Hs Hl3) as (nx & Hnx & Hr).
  rewrite (free_loop_step _ _ _ _ _ nx) by (lia || done). rewrite free_loop_stop by (unfold UNIT in Hr; lia).
  destruct (join_next_spec a off ptr v l nx) as (a1 & w & l2 & -> & -> & Hw & H1 & H2 & H3 & H4 & Hh & H5); [done || lia..|].
  unfold join_prev. cbn [mbind option_bind]. destruct (H5 off ltac:(lia)) as [H6 H7]. rewrite H6, Hl2. cbn [mbind option_bind].
  destruct (linked_first _ _ _ _ H4 H2) as (n2 & Hn2 & _).
  unfold ptr at 1. rewrite Z.eqb_refl, H1, Hn2. cbn [mbind option_bind put_free].
  set (a' := set_next _ _ _). exists a'. split; [done|].
  assert (Hfr : same_from (ptr + w * UNIT) a1 a').
  { intros q Hq. unfold UNIT in Hq. cbn. rewrite !lookup_insert_ne by lia. done. }
  cbn [frees linked has_sizes app].
  replace (off + (u + w) * UNIT) with (ptr + w * UNIT) by (unfold ptr; lia).
  assert (Hso : a_size a' !! off = Some (u + w)) by (cbn; by rewrite lookup_insert_eq).
  split_and!; try done.
  - cbn. rewrite lookup_insert_ne by lia. rewrite (proj2 (H5 prev ltac:(lia))) by lia. done.
  - eapply linked_frame; [done|exact H2| |done]. cbn. rewrite lookup_insert_eq. congruence.
  - by eapply has_sizes_frame.
  - split; [done|]. intros q Hq. destruct (H5 q ltac:(lia)) as [H8 H9]. cbn. rewrite !lookup_insert_ne by lia.
    split; [done|]. intros _. apply H9. lia.
Qed.

Lemma give_head p l off l' : hd_free l = false -> off <> p -> give_piece off p l = Some l' -> hd_free l' = false.
Proof.
  destruct l as [|[[] u] l]; intros Hd Hne Hg; try done. cbn in Hg. rewrite (proj2 (Z.eqb_neq _ _) Hne) in Hg.
  destruct (give_piece (off + u * UNIT) p l); [|done]. cbn in Hg. by simplify_eq.
Qed.

Lemma free_from_spec ptr l : forall off prev ps fuel a first l',
  (length l < fuel)%nat -> 0 < prev < off -> sized l -> apart l -> give_piece off ptr l = Some l' ->
  linked a prev (frees off l) -> has_sizes a off l ->
  a_next a !! prev = Some first -> a_size a !! prev = Some ps -> prev + ps * UNIT <> ptr ->
  given_back a prev off l' (free_from fuel a prev first ptr).
Proof.
  induction l as [|[b u] l IH]; intros off prev ps [|fuel] a first l' Hfu Hp Hs Ha Hg Hl Hh Hf Hps Hne;
    cbn [length] in Hfu; try lia; [done|].
  pose proof Hs as Hs0. inversion Hs as [|? ? Hu Hs']; subst. cbn in Hu. pose proof Hh as [Hh1 Hh2].
  destruct Ha as [Had Ha]. assert (Hup : off < off + u * UNIT) by (unfold UNIT; lia).
  cbn [give_piece] in Hg. destruct (Z.eqb_spec off ptr) as [<-|Hop].
  { destruct b; [done|]. simplify_eq. by eapply give_first. }
  destruct (give_piece (off + u * UNIT) ptr l) as [l2|] eqn:E; [|done]. cbn in Hg.
  pose proof (give_piece_from _ _ _ _ Hs' E) as Hge. destruct b; simplify_eq.
  - destruct (decide (off + u * UNIT = ptr)) as [<-|Hnp].
    + destruct l as [|[[] v] l]; [done|done|]. cbn in E. rewrite Z.eqb_refl in E. simplify_eq.
      inversion Hs'; subst. destruct fuel as [|fuel]; cbn in Hfu; [lia|].
      assert (first = off) as -> by (pose proof Hl as (? & _); congruence). by apply give_second.
    + pose proof Hl as (Hl1 & Hl2 & Hl3). assert (first = off) as -> by congruence.
      destruct (linked_first _ _ _ _ Hs' Hl3) as (nx & Hnx & _).
      rewrite (free_loop_step _ _ _ _ _ nx), put_free_taken by (done || lia || by eapply give_head).
      destruct (IH (off + u * UNIT) off u fuel a nx _ ltac:(lia) ltac:(lia) Hs' Ha E Hl3 Hh2 Hnx Hl2 Hnp) as (a' & -> & H1 & H2 & H3).
      destruct (linked_cons a a' u l2 prev off) as [H4 H5]; [done || lia..|].
      exists a'. split_and!; [done..|cbn; split; [apply H4|done]|done].
  - destruct (IH (off + u * UNIT) prev ps (S fuel) a first _ ltac:(lia) ltac:(lia) Hs' Ha E Hl Hh2 Hf Hps Hne) as (a' & -> & H1 & H2 & H3).
    exists a'. split_and!; try done.
    + cbn. split; [|done]. rewrite (proj1 (proj2 H3 off ltac:(lia))). done.
    + eapply same_below_weaken; [|done]. lia.
Qed.

(** ** The pieces under allocation and giving back *)

Lemma take_piece_pieces n l : forall off l' p,
  1 <= n -> sized l -> apart l -> take_piece off n l = Some (l', p) ->
  sized l' /\ apart l' /\ len l' = len l /\ (hd_free l = false -> hd_free l' = false)
  /\ taken off l' ≡ₚ (p, n) :: taken off l /\ off <= p.
Proof.
  induction l as [|[b u] l IH]; intros off l' p Hn Hs Ha Ht; cbn in Ht; [done|].
  inversion Hs as [|? ? Hu Hs']; subst. cbn in Hu. destruct Ha as [Hd Ha].
  destruct (b && (n <=? u)) eqn:Hc.
  - apply andb_true_iff in Hc as [-> Hle]. cbn in Hd. destruct (Z.eqb_spec u n) as [->|Hne]; simplify_eq.
    + split_and!; try done; [by constructor| |unfold UNIT; lia]. cbn. rewrite Z.sub_diag, Z.mul_0_l, Z.add_0_r. done.
    + split_and!; try done; [repeat constructor; (done || cbn; lia)|cbn; lia| |unfold UNIT; lia].
      cbn. replace (off + (u - n) * UNIT + n * UNIT) with (off + u * UNIT) by lia. done.
  - destruct (take_piece (off + u * UNIT) n l) as [[l2 q]|] eqn:E; [|done]. cbn in Ht. simplify_eq.
    destruct (IH _ _ _ Hn Hs' Ha E) as (H1 & H2 & H3 & H4 & H5 & H6).
    split_and!; try done; [by constructor| |cbn; lia| |unfold UNIT in H6; lia].
    + destruct b; [|done]. split; [by apply H4|done].
    + cbn. rewrite H5. destruct b; cbn; [done|]. constructor.
Qed.

Lemma put_free_pieces u l off :
  1 <= u -> sized l -> apart l ->
  sized (put_free u l) /\ apart (put_free u l) /\ len (put_free u l) = u + len l
  /\ taken off (put_free u l) = taken (off + u * UNIT) l.
Proof.
  intros Hu Hs Ha. destruct l as [|[[] v] l]; cbn in *; [split_and!; try done; by constructor| |].
  - inversion Hs as [|? ? Hv Hs']; subst. cbn in Hv. split_and!; [constructor; [cbn; lia|done]|apply Ha..|lia|].
    f_equal. lia.
  - split_and!; try done; [by constructor|apply Ha].
Qed.

Lemma give_piece_pieces p l : forall off l',
  sized l -> apart l -> give_piece off p l = Some l' ->
  sized l' /\ apart l' /\ len l' = len l /\ exists u, taken off l ≡ₚ (p, u) :: taken off l'.
Proof.
  induction l as [|[b u] l IH]; intros off l' Hs Ha Hg; cbn in Hg; [done|].
  inversion Hs as [|? ? Hu Hs']; subst. cbn in Hu. destruct Ha as [Hd Ha].
  destruct (Z.eqb_spec off p) as [<-|Hne].
  - destruct b; [done|]. simplify_eq.
    destruct (put_free_pieces u l off Hu Hs' Ha) as (H1 & H2 & H3 & H4). split_and!; try done. exists u. cbn. by rewrite H4.
  - destruct (give_piece (off + u * UNIT) p l) as [l2|] eqn:E; [|done]. cbn in Hg.
    destruct (IH _ _ Hs' Ha E) as (H1 & H2 & H3 & v & H4). destruct b; simplify_eq; cbn.
    + destruct (put_free_pieces u l2 off Hu H1 H2) as (H5 & H6 & H7 & H8).
      split_and!; [done..|lia|]. exists v. by rewrite H8.
    + split_and!; [by constructor|done..|lia|]. exists v. rewrite H4. constructor.
Qed.

Lemma give_piece_taken p u l : forall off,
  sized l -> (p, u) ∈ taken off l -> is_Some (give_piece off p l) /\ off <= p.
Proof.
  induction l as [|[b v] l IH]; intros off Hs Hin; cbn in *; [by apply not_elem_of_nil in Hin|].
  inversion Hs as [|? ? Hv Hs']; subst. cbn in Hv. destruct (Z.eqb_spec off p) as [<-|Hne].
  - destruct b; [|split; [eauto|lia]]. destruct (IH _ Hs' Hin) as [_ H]. unfold UNIT in H. lia.
  - assert (Hin' : (p, u) ∈ taken (off + v * UNIT) l).
    { destruct b; [done|]. cbn in Hin. apply elem_of_cons in Hin as [[=]|]; [congruence|done]. }
    destruct (IH _ Hs' Hin') as [[l2 ->] H]. unfold UNIT in H. split; [cbn; eauto|lia].
Qed.

Definition ahead (x y : Z * Z) : Prop := fst x + snd x * UNIT <= fst y \/ fst y + snd y * UNIT <= fst x.

Lemma taken_in l : forall off, sized l ->
  Forall (fun x => off <= fst x /\ fst x + snd x * UNIT <= off + len l * UNIT) (taken off l) /\ 0 <= len l.
Proof.
  induction l as [|[b u] l IH]; intros off Hs; cbn; [split; [constructor|lia]|].
  inversion Hs as [|? ? Hu Hs']; subst. cbn in Hu. destruct (IH (off + u * UNIT) Hs') as [H1 H2]. split; [|lia].
  assert (H3 : Forall (fun x => off <= fst x /\ fst x + snd x * UNIT <= off + (u + len l) * UNIT) (taken (off + u * UNIT) l)).
  { eapply Forall_impl; [exact H1|]. intros x Hx. unfold UNIT in *. lia. }
  destruct b; [done|]. cbn. constructor; [cbn; unfold UNIT; lia|done].
Qed.
Lemma taken_ahead l : forall off, sized l -> ForallOrdPairs ahead (taken off l).
Proof.
  induction l as [|[b u] l IH]; intros off Hs; cbn; [constructor|].
  inversion Hs as [|? ? Hu Hs']; subst. destruct b; cbn; [by apply IH|]. constructor; [|by apply IH].
  eapply Forall_impl; [exact (proj1 (taken_in l (off + u * UNIT) Hs'))|]. intros x Hx. cbn in Hx. unfold ahead. cbn [fst snd]. lia.
Qed.

Lemma pairs_permutation {A} (R : A -> A -> Prop) (l l' : list A) :
  (forall x y, R x y -> R y x) -> l ≡ₚ l' -> ForallOrdPairs R l -> ForallOrdPairs R l'.
Proof.
  intros Hsym Hp. induction Hp as [|x l l' Hp IH|x y l|l l2 l3 _ IH1 _ IH2]; intros H; [done| | |auto].
  - inversion H; subst. constructor; [by rewrite <- Hp|auto].
  - inversion H as [|? ? H1 H2]; subst. inversion H1; subst. inversion H2; subst. repeat constructor; auto.
Qed.

Lemma all_free l : sized l -> apart l -> 0 < len l -> taken START l = [] -> l = [(true, len l)].
Proof.
  destruct l as [|[[] u] [|[[] v] l]]; cbn; intros Hs Ha Hl Ht; try done; [|by destruct Ha].
  by rewrite Z.add_0_r.
Qed.

(** ** The programs that use a page *)

(** What a page can become, with the memory that is handed out: addresses and sizes. *)
Inductive arena_reach : arena -> list (Z * Z) -> Prop :=
| reach_init : arena_reach btree_node_init []
| reach_alloc a live n a' p : arena_reach a live -> 0 <= n < 2 ^ 31 -> arena_alloc a n = Some (a', p) ->
    arena_reach a' (if p =? 0 then live else (p, n) :: live)
| reach_free a live live' p n a' : arena_reach a live -> live ≡ₚ (p, n) :: live' -> arena_free a p = Some a' ->
    arena_reach a' live'.

Definition piece_of (x : Z * Z) : Z * Z := (fst x - UNIT, units (snd x)).
Definition arena_inv (a : arena) (live : list (Z * Z)) (l : pieces) : Prop :=
  arena_rep a l /\ taken START l ≡ₚ map piece_of live /\ Forall (fun x => 0 <= snd x) live.

Lemma units_pos n : 0 <= n -> 1 <= units n /\ n <= (units n - 1) * UNIT.
Proof. intros Hn. unfold units, UNIT. pose proof (Z.div_mod (n + 8 - 1) 8). pose proof (Z.mod_pos_bound (n + 8 - 1) 8). lia. Qed.

Lemma turns_enough l : sized l -> START + len l * UNIT = PAGE_SIZE -> (length l < turns)%nat.
Proof.
  intros Hs Hl. assert (H : Z.of_nat (length l) <= len l).
  { clear Hl. induction l as [|[b u] l IH]; cbn; [lia|]. inversion Hs; subst. cbn in *. specialize (IH ltac:(done)). lia. }
  unfold turns. unfold START, NODE, UNIT, PAGE_SIZE in *. lia.
Qed.

Lemma page_init_inv : arena_inv btree_node_init [] [(true, 509)].
Proof. split; [|by repeat constructor]. by repeat constructor. Qed.

(** Allocation is first fit on the pieces. *)
Lemma alloc_refines a l n : arena_rep a l -> 0 <= n ->
  match take_piece START (units n) l with
  | None => arena_alloc a n = Some (a, 0)
  | Some (l', p) => START <= p /\ exists a', arena_alloc a n = Some (a', p + UNIT) /\ arena_rep a' l'
  end.
Proof.
  intros [[Hh Hz] Hl Hsz (Hs & Ha & Hn)] Hp. destruct (units_pos n Hp) as [Hu _]. unfold arena_alloc. rewrite Hh.
  destruct (linked_first _ _ _ _ Hs Hl) as (first & Hf & _). rewrite Hf. cbn [mbind option_bind].
  pose proof (alloc_loop_spec (units n) l START NODE turns a first (turns_enough l Hs Hn) ltac:(done) Hu Hs Hl Hsz Hf) as H.
  destruct (take_piece START (units n) l) as [[l' p]|] eqn:E; [|done].
  destruct H as (a' & H1 & H2 & H3 & H4 & H5), (take_piece_pieces _ _ _ _ _ Hu Hs Ha E) as (G1 & G2 & G3 & _ & _ & G4).
  split; [done|]. exists a'. split; [done|]. constructor; [|done..|rewrite G3; done].
  rewrite H4. split; [done|]. by rewrite (proj1 (H5 NODE ltac:(done))).
Qed.

Lemma free_refines a l l' p : arena_rep a l -> give_piece START (p - UNIT) l = Some l' ->
  exists a', arena_free a p = Some a' /\ arena_rep a' l'.
Proof.
  intros [[Hh Hz] Hl Hsz (Hs & Ha & Hn)] Hg. unfold arena_free. rewrite Hh.
  destruct (linked_first _ _ _ _ Hs Hl) as (first & Hf & _). rewrite Hf. cbn [mbind option_bind].
  pose proof (give_piece_from _ _ _ _ Hs Hg) as Hge. unfold START in Hge.
  destruct (free_from_spec (p - UNIT) l START NODE 0 turns a first l') as (a' & H1 & H2 & H3 & H4 & H5);
    [by apply turns_enough|done..|unfold UNIT in *; lia|].
  destruct (give_piece_pieces _ _ _ _ Hs Ha Hg) as (G1 & G2 & G3 & _).
  exists a'. split; [done|]. constructor; [|done..|rewrite G3; done].
  rewrite H4. split; [done|]. by rewrite (proj1 (H5 NODE ltac:(done))).
Qed.

Lemma taken_unique l p u v : forall off, sized l -> (p, u) ∈ taken off l -> (p, v) ∈ taken off l -> u = v.
Proof.
  induction l as [|[b w] l IH]; intros off Hs Hu Hv; cbn in *; [by apply not_elem_of_nil in Hu|].
  inversion Hs as [|? ? Hw Hs']; subst. cbn in Hw. destruct b; [by eapply IH|]. cbn in *.
  pose proof (proj1 (taken_in l (off + w * UNIT) Hs')) as Hin. rewrite Forall_forall in Hin.
  unfold UNIT in *. apply elem_of_cons in Hu as [[= -> ->]|Hu], Hv as [[=]|Hv]; try done.
  - apply Hin in Hv. cbn in Hv. lia.
  - subst. apply Hin in Hu. cbn in Hu. lia.
  - by eapply IH.
Qed.

Lemma reach_inv a live : arena_reach a live -> exists l, arena_inv a live l.
Proof.
  induction 1 as [|a live n a' p _ (l & Hr & Ht & Hn0) Hn Ha|a live live' p n a' _ (l & Hr & Ht & Hn0) Hp Hf].
  - exists [(true, 509)]. apply page_init_inv.
  - pose proof (alloc_refines a l n Hr ltac:(lia)) as H. destruct (units_pos n ltac:(lia)) as [Hu _].
    destruct (take_piece START (units n) l) as [[l' q]|] eqn:E; [|by rewrite H in Ha; simplify_eq; exists l].
    destruct H as (Hq & a2 & H1 & H2). rewrite H1 in Ha. simplify_eq. exists l'.
    destruct Hr as [_ _ _ (Hs & Hap & _)]. destruct (take_piece_pieces _ _ _ _ _ Hu Hs Hap E) as (_ & _ & _ & _ & G & _).
    unfold START, NODE in Hq. rewrite (proj2 (Z.eqb_neq (q + UNIT) 0)) by (unfold UNIT in *; lia).
    split_and!; [done| |constructor; [cbn; lia|done]]. rewrite G, Ht. cbn. unfold piece_of at 2. cbn.
    by replace (q + UNIT - UNIT) with q by lia.
  - assert (Hin : (p - UNIT, units n) ∈ taken START l).
    { rewrite Ht, Hp. cbn. apply elem_of_cons. by left. }
    pose proof Hr as [_ _ _ (Hs & Hap & _)]. destruct (give_piece_taken _ _ _ _ Hs Hin) as [[l' Hg] _].
    destruct (free_refines _ _ _ _ Hr Hg) as (a2 & H1 & H2). rewrite H1 in Hf. simplify_eq. exists l'.
    destruct (give_piece_pieces _ _ _ _ Hs Hap Hg) as (_ & _ & _ & u & G).
    assert (units n = u) as <-. { eapply taken_unique; [exact Hs|exact Hin|]. rewrite G. apply elem_of_cons. by left. }
    split_and!; [done| |].
    + apply (Permutation_cons_inv (a := (p - UNIT, units n))). rewrite <- G, Ht, Hp. done.
    + rewrite Hp in Hn0. by inversion Hn0.
Qed.

(** The sizes in the free list are those of the free pieces: none is large enough when the
    search over the pieces fails. *)
Lemma take_piece_none n l : forall off, take_piece off n l = None <-> Forall (fun x => snd x < n) (frees off l).
Proof.
  induction l as [|[b u] l IH]; intros off; cbn; [split; [constructor|done]|].
  specialize (IH (off + u * UNIT)). destruct b; cbn.
  - rewrite Forall_cons. cbn. destruct (Z.leb_spec n u); [split; [done|lia]|].
    rewrite <- IH. destruct (take_piece (off + u * UNIT) n l) as [[? ?]|]; cbn; [|done]. split; [done|by intros []].
  - rewrite <- IH. by destruct (take_piece (off + u * UNIT) n l) as [[? ?]|].
Qed.

(** What lies between two pieces of memory that are handed out: they do not meet, and neither
    reaches the list node in front of the other. *)
Definition disjoint (x y : Z * Z) : Prop := fst x + snd x <= fst y - UNIT \/ fst y + snd y <= fst x - UNIT.

Lemma live_disjoint live : Forall (fun x => 0 <= snd x) live ->
  ForallOrdPairs ahead (map piece_of live) -> ForallOrdPairs disjoint live.
Proof.
  induction live as [|x live IH]; intros Hn0 H; [constructor|]. inversion H as [|? ? H1 H2]; subst.
  inversion Hn0 as [|? ? Hx Hn]; subst. constructor; [|by apply IH].
  apply (proj1 (Forall_map _ _ _)) in H1. apply Forall_forall. intros y Hy.
  rewrite Forall_forall in H1, Hn. specialize (H1 y Hy).
  destruct (units_pos (snd x) Hx), (units_pos (snd y) (Hn y Hy)).
  unfold ahead, disjoint, piece_of in *. cbn in H1. unfold UNIT in *. lia.
Qed.

(** C18. The allocator of a page, after any sequence of allocations and of giving back memory that
    was handed out: an allocation and a giving back always end, without reading what was not
    written and without a failed assertion; the pieces handed out lie in the page, do not meet,
    and leave the nodes in front of them alone; an allocation fails exactly when every piece of
    the free list is too small; and when everything was given back the free list is that of a new
    page, one piece of 509 units. *)
Theorem arena_correct (a : arena) (live : list (Z * Z)) :
  arena_reach a live ->
  (forall n, 0 <= n < 2 ^ 31 -> is_Some (arena_alloc a n))
  /\ (forall p n, (p, n) ∈ live -> is_Some (arena_free a p))
  /\ Forall (fun x => START + UNIT <= fst x /\ fst x + snd x <= PAGE_SIZE) live
  /\ ForallOrdPairs disjoint live
  /\ exists fl, linked a NODE fl /\ (live = [] -> fl = [(START, 509)])
     /\ forall n, 0 <= n < 2 ^ 31 -> (arena_alloc a n = Some (a, 0) <-> Forall (fun x => snd x < units n) fl).
Proof.
  intros (l & Hr & Ht & Hn0)%reach_inv. pose proof Hr as [_ Hl _ (Hs & Hap & Hlen)].
  assert (Hal : forall n, 0 <= n -> is_Some (arena_alloc a n) /\
    (arena_alloc a n = Some (a, 0) <-> take_piece START (units n) l = None)).
  { intros n Hn. pose proof (alloc_refines a l n Hr Hn) as H.
    destruct (take_piece START (units n) l) as [[l' q]|]; [|rewrite H; by split].
    destruct H as (Hq & a' & -> & _). split; [done|]. split; [|done]. intros [= _ H]. unfold START, NODE, UNIT in *. lia. }
  split_and!.
  - intros n Hn. apply Hal. lia.
  - intros p n Hin. destruct (give_piece_taken (p - UNIT) (units n) l START Hs) as [[l' Hg] _].
    { rewrite Ht. apply (list_elem_of_fmap_2 piece_of live (p, n)) in Hin. exact Hin. }
    destruct (free_refines _ _ _ _ Hr Hg) as (a' & -> & _). done.
  - pose proof (proj1 (taken_in l START Hs)) as H. rewrite Ht, Hlen in H. apply Forall_map in H.
    apply Forall_forall. intros x Hx. rewrite Forall_forall in H, Hn0.
    destruct (units_pos (snd x) (Hn0 x Hx)). specialize (H x Hx). cbn in H. unfold UNIT in *. lia.
  - assert (H : ForallOrdPairs ahead (map piece_of live)).
    { eapply pairs_permutation; [|exact Ht|by apply taken_ahead]. unfold ahead. intros x y. lia. }
    by apply live_disjoint.
  - exists (frees START l). split; [done|]. split.
    + intros ->. cbn in Ht. apply Permutation_nil_r in Ht.
      assert (Hlv : len l = 509) by (unfold START, NODE, UNIT, PAGE_SIZE in Hlen; lia).
      rewrite (all_free l Hs Hap ltac:(lia) Ht), Hlv. done.
    + intros n Hn. rewrite <- take_piece_none. apply Hal. lia.
Qed.

(** A program: memory of a size is asked for, or the memory at a place of the list of what was
    handed out is given back. *)
Fixpoint arena_run (ops : list (Z + nat)) (a : arena) (live : list (Z * Z)) : option (arena * list (Z * Z)) :=
  match ops with
  | [] => Some (a, live)
  | inl n :: ops =>
      guard (0 <= n < 2 ^ 31);; '(a, p) ← arena_alloc a n; arena_run ops a (if p =? 0 then live else (p, n) :: live)
  | inr i :: ops => x ← live !! i; a ← arena_free a (fst x); arena_run ops a (delete i live)
  end.
Lemma arena_run_reach ops : forall a live a' live', arena_reach a live -> arena_run ops a live = Some (a', live') ->
  arena_reach a' live'.
Proof.
  induction ops as [|[n|i] ops IH]; intros a live a' live' Hr H; cbn in H; [by simplify_eq| |].
  - case_guard; [|done]. cbn in H. destruct (arena_alloc a n) as [[a1 p]|] eqn:E; [|done]. cbn in H.
    eapply IH; [|exact H]. by eapply reach_alloc.
  - destruct (live !! i) as [[p n]|] eqn:E; [|done]. cbn in H. destruct (arena_free a p) as [a1|] eqn:E1; [|done].
    cbn in H. eapply IH; [|exact H]. eapply (reach_free a live _ p n); [done| |done]. by apply delete_Permutation.
Qed.

(** The demonstration of the code: 100, 50 and 3881 bytes fill the page; then the piece in the
    middle of the page is given back. *)
Lemma arena_correct_witness : exists a live,
  arena_reach a live /\ live = [(32, 3881); (3992, 100)] /\ ForallOrdPairs disjoint live.
Proof.
  destruct (arena_run [inl 100; inl 50; inl 3881; inr 1%nat] btree_node_init []) as [[a live]|] eqn:E.
  - exists a, live. assert (Hr : arena_reach a live) by (eapply arena_run_reach; [apply reach_init|exact E]).
    split; [exact Hr|]. split; [|apply (arena_correct a live Hr)].
    apply (f_equal (option_map snd)) in E. vm_compute in E. by injection E.
  - apply (f_equal (option_map snd)) in E. vm_compute in E. discriminate.
Defined.
