(* ===== verification/Db.v ===== *)
(** * The key-value store: cache, bucket lists and the store itself

    Models src/db/db.cpp, one call at a time: [LRUCache], [DList] and [DB].  The nodes of
    the 4993 bucket lists are in the index file, the values in the data file, and the
    space of what was removed in two free maps that every bucket shares.  The walk along
    a list has fuel; the refinement theorem shows that one more than the number of keys
    is enough. *)

From Stdlib Require Import ZArith Lia Ascii String.
From stdpp Require Import base list gmap strings.
From S2P Require Import Prelude DbFile.

Local Open Scope Z_scope.
Local Open Scope cpp_scope.

Definition HASH_TABLE_SIZE : nat := 4993.
Definition MAX_CACHE_SIZE : nat := 5.

(** ** LRUCache

    The doubly linked list, most recent first; [cache_] maps each key in it to its node. *)

Abbreviation lru := (list (string * string)).

Fixpoint cache_find (c : lru) (key : string) : option string :=
  match c with
  | [] => None
  | (k, v) :: c => if bool_decide (k = key) then Some v else cache_find c key
  end.
Definition cache_unlink (c : lru) (key : string) : lru := filter (fun p => p.1 <> key) c.

Definition cache_set (c : lru) (key val : string) : lru :=
  match cache_find c key with
  | None =>
      let c := if (MAX_CACHE_SIZE <=? length c)%nat then take (length c - 1) c else c in
      (key, val) :: c
  | Some _ => (key, val) :: cache_unlink c key
  end.
Definition cache_del (c : lru) (key : string) : lru := cache_unlink c key.
Definition cache_get (c : lru) (key : string) : lru * option string :=
  match cache_find c key with
  | Some v => ((key, v) :: cache_unlink c key, Some v)
  | None => (c, None)
  end.

(** ** The free maps: [std::map<size_t, Link>] in the order of its keys *)

Abbreviation free_map := (list (Z * link)).

Fixpoint fm_set (m : free_map) (k : Z) (l : link) : free_map :=
  match m with
  | [] => [(k, l)]
  | (k', l') :: m' => if k <? k' then (k, l) :: m else if k =? k' then (k, l) :: m' else (k', l') :: fm_set m' k l
  end.
Fixpoint fm_lower_bound (m : free_map) (k : Z) : option (Z * link) :=
  match m with
  | [] => None
  | (k', l) :: m => if k <=? k' then Some (k', l) else fm_lower_bound m k
  end.
Definition fm_erase (m : free_map) (k : Z) : free_map := filter (fun p => p.1 <> k) m.

(** ** The store *)

Record db := Db {
  idx : file;
  data : file;
  heads : list link;
  free_node : free_map;
  free_data : free_map;
  cache : lru
}.

Definition NodeRead (f : file) (l : link) : option (file * dnode) :=
  '(f, b) ← Read (Lseek f (offset l)) (size l);
  n ← node_decode b;
  Some (f, n).

Definition NodeWriteInplace (f : file) (n : dnode) (off : Z) : option file :=
  b ← node_encode n;
  Write (Lseek f off) b.

Definition GetVal (f : file) (l : link) : option (file * string) :=
  '(f, b) ← Read (Lseek f (offset l)) (size l);
  Some (f, str_of b).

(** The link of the free map is used as it is: its [size] is that of the value that was
    there before. *)
Definition FindRooMAndWrite (d : list ascii) (f : file) (free : free_map) : option (link * file * free_map) :=
  match fm_lower_bound free (file_len d) with
  | Some (k, l) =>
      f ← Write (Lseek f (offset l)) d;
      Some (l, f, fm_erase free k)
  | None =>
      let '(f, off) := Lseek_end f in
      f ← Write f d;
      Some (Link (file_len d) (file_len d) off, f, free)
  end.

(** [head_offset_] as [DB::Open] gives it to list [h]. *)
Definition head_offset (h : nat) : Z := Z.of_nat h * LinkSize.
Definition HeadWrite (f : file) (off : Z) (hd : link) : option file := link_write f hd off.
Definition HeadRead (f : file) (off : Z) : option (file * link) := link_read f off.

(** [Find]: the node and its link with those of the node before it. *)
Definition found_node : Type := (dnode * link * option (dnode * link))%type.

Fixpoint Find (fuel : nat) (f : file) (key : string) (l : link) (prev : option (dnode * link))
    : option (file * option found_node) :=
  match fuel with
  | O => None
  | S fuel =>
      if IsNull l then Some (f, None)
      else
        '(f, np) ← NodeRead f l;
        if valid np && bool_decide (nkey np = key) then Some (f, Some (np, l, prev))
        else Find fuel f key (next np) (Some (np, l))
  end.

Definition with_val_link (n : dnode) (l : link) : dnode := DNode (valid n) (nkey n) l (next n).
Definition with_next (n : dnode) (l : link) : dnode := DNode (valid n) (nkey n) (val_link n) l.

Section DList.
Context (fuel h : nat).

Definition AddInternal (s : db) (key val : string) : option (db * bool) :=
  head ← heads s !! h;
  '(i, r) ← Find fuel (idx s) key head None;
  match r with
  | Some _ => Some (Db i (data s) (heads s) (free_node s) (free_data s) (cache s), false)
  | None =>
      '(vl, d, fd) ← FindRooMAndWrite (bytes_of val) (data s) (free_data s);
      rep ← node_encode (DNode true key vl head);
      '(head, i, fn) ← FindRooMAndWrite rep i (free_node s);
      i ← HeadWrite i (head_offset h) head;
      Some (Db i d (<[h := head]> (heads s)) fn fd (cache s), true)
  end.

Definition SetInternal (s : db) (key val : string) : option (db * bool) :=
  head ← heads s !! h;
  '(i, r) ← Find fuel (idx s) key head None;
  match r with
  | None => Some (Db i (data s) (heads s) (free_node s) (free_data s) (cache s), false)
  | Some (np, l, _) =>
      let vl := val_link np in
      '(vl, d, fd) ←
        (if file_len (bytes_of val) <=? total_size vl then
           Some (Link (total_size vl) (file_len (bytes_of val)) (offset vl), Lseek (data s) (offset vl), free_data s)
         else FindRooMAndWrite (bytes_of val) (data s) (fm_set (free_data s) (total_size vl) vl));
      d ← Write d (bytes_of val);
      i ← NodeWriteInplace i (with_val_link np vl) (offset l);
      Some (Db i d (heads s) (free_node s) fd (cache s), true)
  end.

Definition DelInternal (s : db) (key : string) : option (db * bool) :=
  head ← heads s !! h;
  '(i, r) ← Find fuel (idx s) key head None;
  match r with
  | None => Some (Db i (data s) (heads s) (free_node s) (free_data s) (cache s), false)
  | Some (np, l, prev) =>
      '(i, hs) ←
        match prev with
        | None => i ← HeadWrite i (head_offset h) (next np); Some (i, <[h := next np]> (heads s))
        | Some (prev_np, prev_l) =>
            i ← NodeWriteInplace i (with_next prev_np (next np)) (offset prev_l); Some (i, heads s)
        end;
      Some (Db i (data s) hs (fm_set (free_node s) (total_size l) l)
              (fm_set (free_data s) (total_size (val_link np)) (val_link np)) (cache s), true)
  end.

(** [Writer]: the key leaves the cache first. *)
Definition with_cache (s : db) (c : lru) : db := Db (idx s) (data s) (heads s) (free_node s) (free_data s) c.
Definition Writer (op : db -> option (db * bool)) (s : db) (key : string) : option (db * bool) :=
  op (with_cache s (cache_del (cache s) key)).

Definition list_Add (s : db) (key val : string) : option (db * bool) := Writer (fun s => AddInternal s key val) s key.
Definition list_Set (s : db) (key val : string) : option (db * bool) := Writer (fun s => SetInternal s key val) s key.
Definition list_Del (s : db) (key : string) : option (db * bool) := Writer (fun s => DelInternal s key) s key.

Definition list_Get (s : db) (key : string) : option (db * option string) :=
  match cache_get (cache s) key with
  | (c, Some v) => Some (with_cache s c, Some v)
  | (c, None) =>
      head ← heads s !! h;
      '(i, r) ← Find fuel (idx s) key head None;
      match r with
      | None => Some (Db i (data s) (heads s) (free_node s) (free_data s) c, None)
      | Some (np, _, _) =>
          '(d, v) ← GetVal (data s) (val_link np);
          Some (Db i d (heads s) (free_node s) (free_data s) (cache_set c key v), Some v)
      end
  end.
End DList.

(** [DB::hash]: [char] is signed, so the remainder can be negative. *)
Definition hash (key : string) : Z :=
  fold_left (fun h c => Z.rem (31 * h + char_s c) (Z.of_nat HASH_TABLE_SIZE)) (cstr key) 0.

(** [list_arr_[h]] *)
Definition bucket {A} (key : string) (k : nat -> option A) : option A :=
  VERIFY! 0 <=? hash key ;; k (Z.to_nat (hash key)).

Definition DB_Add (fuel : nat) (s : db) (key val : string) := bucket key (fun h => list_Add fuel h s key val).
Definition DB_Set (fuel : nat) (s : db) (key val : string) := bucket key (fun h => list_Set fuel h s key val).
Definition DB_Del (fuel : nat) (s : db) (key : string) := bucket key (fun h => list_Del fuel h s key).
Definition DB_Get (fuel : nat) (s : db) (key : string) := bucket key (fun h => list_Get fuel h s key).

(** ** Opening and closing *)

Fixpoint write_heads (f : file) (off : Z) (n : nat) : option file :=
  match n with
  | O => Some f
  | S n => f ← HeadWrite f off null_link; write_heads f (off + LinkSize) n
  end.
Fixpoint read_heads (f : file) (off : Z) (n : nat) : option (file * list link) :=
  match n with
  | O => Some (f, [])
  | S n => '(f, l) ← HeadRead f off; '(f, ls) ← read_heads f (off + LinkSize) n; Some (f, l :: ls)
  end.

(** The files of a store on disk: index, data and free maps. *)
Record disk := Disk { d_idx : file; d_data : file; d_free : option file }.

Fixpoint read_links (f : file) (n : nat) (m : free_map) : option (file * free_map) :=
  match n with
  | O => Some (f, m)
  | S n =>
      '(f, b) ← Read f LinkSize;
      let l := link_decode b in
      read_links f n (fm_set m (total_size l) l)
  end.
Fixpoint write_links (f : file) (m : free_map) : option file :=
  match m with
  | [] => Some f
  | (_, l) :: m => f ← Write f (link_encode l); write_links f m
  end.

(** The counts are [int]s. *)
Definition InitFreeMaps (free : option file) : option (free_map * free_map) :=
  match free with
  | None => Some ([], [])
  | Some f =>
      '(f, b1) ← Read (Lseek f 0) 4;
      '(f, b2) ← Read f 4;
      '(f, fn) ← read_links f (Z.to_nat (to_signed 32 (unle b1))) [];
      '(_, fd) ← read_links f (Z.to_nat (to_signed 32 (unle b2))) [];
      Some (fn, fd)
  end.
Definition WriteFreeMaps (fn fd : free_map) : option file :=
  f ← Write empty_file (le 4 (wrap 32 (Z.of_nat (length fn))));
  f ← Write f (le 4 (wrap 32 (Z.of_nat (length fd))));
  f ← write_links f fn;
  write_links f fd.

(** [None] for the disk: there is no data file yet. *)
Definition open_table (nbuckets : nat) (d : option disk) : option db :=
  '(fn, fd) ← InitFreeMaps (d ≫= d_free);
  match d with
  | None =>
      i ← write_heads empty_file 0 nbuckets;
      Some (Db i empty_file (replicate nbuckets null_link) fn fd [])
  | Some d =>
      '(i, hs) ← read_heads (d_idx d) 0 nbuckets;
      Some (Db i (d_data d) hs fn fd [])
  end.
Definition DB_Open (d : option disk) : option db := open_table HASH_TABLE_SIZE d.
Definition DB_Close (s : db) : option disk :=
  f ← WriteFreeMaps (free_node s) (free_data s);
  Some (Disk (idx s) (data s) (Some f)).
