(* ===== verification/DbSafety.v ===== *)
(** * The key-value store refines a map

    The invariant of the store: every bucket is a list of nodes in the index file, every
    value is in the data file, and the places of what is live and of what is free do not
    overlap.  Each operation keeps it and changes the map of keys and values as it
    should, as long as no value is put into free space of another size. *)

From Stdlib Require Import ZArith Lia Ascii String.
From stdpp Require Import base list gmap strings sorting.
From S2P Require Import Prelude DbFile Db.

Local Open Scope Z_scope.

(** ** Places in a file *)

Definition region : Type := (Z * Z)%type.
Definition reg (l : link) : region := (offset l, total_size l).
Definition disj (r s : region) : Prop := r.1 + r.2 <= s.1 \/ s.1 + s.2 <= r.1.
Definition inside (limit : Z) (r : region) : Prop := 0 <= r.1 /\ 0 <= r.2 /\ r.1 + r.2 <= limit.

Fixpoint apart (rs : list region) : Prop :=
  match rs with
  | [] => True
  | r :: rs => Forall (disj r) rs /\ apart rs
  end.
Definition separate (limit : Z) (rs : list region) : Prop := Forall (inside limit) rs /\ apart rs.

Lemma disj_sym r s : disj r s -> disj s r.
Proof. unfold disj. tauto. Qed.

Lemma apart_perm rs rs' : rs ≡ₚ rs' -> apart rs -> apart rs'.
Proof.
  induction 1 as [|r rs rs' Hp IH|r s rs|rs1 rs2 rs3 _ IH1 _ IH2]; cbn; try tauto.
  - intros [Hf Ha]. split; [by rewrite <- Hp|by apply IH].
  - intros (Hr & Hs & Ha). apply Forall_cons in Hr as [Hrs Hr].
    split; [constructor; [by apply disj_sym|done]|done].
Qed.

Lemma separate_perm limit rs rs' : rs ≡ₚ rs' -> separate limit rs -> separate limit rs'.
Proof. intros Hp [Hi Ha]. split; [by rewrite <- Hp|by eapply apart_perm]. Qed.

Lemma apart_app_r rs rs' : apart (rs ++ rs') -> apart rs'.
Proof. induction rs; cbn; [done|]. intros [_ H]. auto. Qed.

(** Giving up some places. *)
Lemma separate_sub limit rs rs' : rs' ⊆+ rs -> separate limit rs -> separate limit rs'.
Proof.
  intros (k & Hk)%submseteq_Permutation Hs. rewrite Permutation_app_comm in Hk.
  apply (separate_perm _ _ _ Hk) in Hs as [Hi Ha]. split; [by apply Forall_app in Hi as [_ ?]|by eapply apart_app_r].
Qed.

Lemma separate_limit limit limit' rs : limit <= limit' -> separate limit rs -> separate limit' rs.
Proof. intros Hl [Hi Ha]. split; [|done]. eapply Forall_impl; [exact Hi|]. unfold inside. intros; lia. Qed.

(** New space at the end. *)
Lemma separate_extend limit n rs : 0 <= limit -> 0 <= n -> separate limit rs -> separate (limit + n) ((limit, n) :: rs).
Proof.
  intros ? ? [Hi Ha]. split.
  - constructor; [unfold inside; cbn; lia|]. eapply Forall_impl; [exact Hi|]. unfold inside. intros; lia.
  - cbn. split; [|done]. eapply Forall_impl; [exact Hi|]. unfold inside, disj. cbn. intros; lia.
Qed.

(** ** Free maps *)

Definition free_regs (m : free_map) : list region := (fun p => reg p.2) <$> m.
Definition free_ok (m : free_map) : Prop :=
  StronglySorted Z.lt m.*1 /\ Forall (fun p => p.1 = total_size p.2 /\ link_ok p.2 /\ size p.2 <= total_size p.2) m.

Lemma fm_set_sub m k l : fm_set m k l ⊆+ (k, l) :: m.
Proof.
  induction m as [|[k' l'] m IH]; cbn; [done|]. destruct (k <? k'); [done|]. destruct (k =? k').
  - apply submseteq_skip, submseteq_cons. done.
  - etransitivity; [apply submseteq_skip, IH|]. by rewrite Permutation_swap.
Qed.

Lemma fm_set_keys m k l k0 : k0 ∈ (fm_set m k l).*1 -> k0 = k \/ k0 ∈ m.*1.
Proof.
  intros (p & -> & Hp)%list_elem_of_fmap.
  pose proof (elem_of_submseteq _ _ _ Hp (fm_set_sub m k l)) as Hin.
  apply elem_of_cons in Hin as [-> | Hin]; [by left|]. right. by apply list_elem_of_fmap_2.
Qed.

Lemma fm_set_sorted m k l : StronglySorted Z.lt m.*1 -> StronglySorted Z.lt (fm_set m k l).*1.
Proof.
  induction m as [|[k' l'] m IH]; cbn; intros Hs; [repeat constructor|]. apply StronglySorted_inv in Hs as [Hs Hlt].
  destruct (Z.ltb_spec k k'); cbn.
  - constructor; [by constructor|]. constructor; [done|]. eapply Forall_impl; [exact Hlt|]. cbn. lia.
  - destruct (Z.eqb_spec k k') as [->|Hne]; cbn; [by constructor|]. constructor; [by apply IH|].
    apply Forall_forall. intros x [-> | Hx]%fm_set_keys; [lia|]. by apply (proj1 (Forall_forall _ _) Hlt).
Qed.

Lemma fm_set_ok m l : free_ok m -> link_ok l -> size l <= total_size l -> free_ok (fm_set m (total_size l) l).
Proof.
  intros [Hs Hf] Hl Hsz. split; [by apply fm_set_sorted|]. apply Forall_forall. intros p Hp.
  pose proof (elem_of_submseteq _ _ _ Hp (fm_set_sub m (total_size l) l)) as Hin.
  apply elem_of_cons in Hin as [-> | Hin]; [done|]. by apply (proj1 (Forall_forall _ _) Hf).
Qed.

Lemma fm_set_regs m l : free_regs (fm_set m (total_size l) l) ⊆+ reg l :: free_regs m.
Proof. exact (fmap_submseteq (fun p : Z * link => reg p.2) _ _ (fm_set_sub m (total_size l) l)). Qed.

Lemma fm_erase_absent m k : k ∉ m.*1 -> fm_erase m k = m.
Proof.
  unfold fm_erase. induction m as [|[k' l] m IH]; [done|]. rewrite fmap_cons, elem_of_cons. cbn [fst]. intros Hn.
  rewrite filter_cons_True by (cbn; intros ->; tauto). by rewrite IH by tauto.
Qed.

(** What [lower_bound] finds is taken out of the map. *)
Lemma fm_lower_bound_spec m n k l : free_ok m -> fm_lower_bound m n = Some (k, l) ->
  n <= k /\ k = total_size l /\ link_ok l /\ size l <= total_size l /\ free_ok (fm_erase m k) /\ m ≡ₚ (k, l) :: fm_erase m k.
Proof.
  intros [Hs Hf]. induction m as [|[k' l'] m IH]; cbn [fm_lower_bound]; [done|].
  apply Forall_cons in Hf as [[Hk' Hl'] Hf]. cbn [fst snd] in *. cbn in Hs. apply StronglySorted_inv in Hs as [Hs Hlt].
  destruct (Z.leb_spec n k') as [Hle|Hgt].
  - intros [= -> ->]. assert (He : fm_erase ((k, l) :: m) k = m).
    { unfold fm_erase. rewrite filter_cons_False by (cbn; tauto). apply fm_erase_absent. intros Hin.
      pose proof (proj1 (Forall_forall _ _) Hlt k Hin). cbn in *. lia. }
    rewrite He. do 2 (split; [done|]). split; [tauto|]. split; [tauto|]. done.
  - intros Hlb. destruct (IH Hs Hf Hlb) as (Hn & Hk & Hl & Hsz & [Hs' Hf'] & Hp).
    assert (He : fm_erase ((k', l') :: m) k = (k', l') :: fm_erase m k).
    { unfold fm_erase. rewrite filter_cons_True; [done|]. cbn. lia. }
    rewrite He. do 4 (split; [done|]). split; [split|].
    + cbn. constructor; [done|]. apply Forall_forall. intros x (p & -> & Hp')%list_elem_of_fmap.
      apply (proj1 (Forall_forall _ _) Hlt). apply list_elem_of_fmap_2. unfold fm_erase in Hp'. by apply list_elem_of_filter in Hp' as [_ ?].
    + constructor; [done|done].
    + rewrite Hp at 1. by rewrite Permutation_swap.
Qed.

(** ** Finding room *)

Lemma find_room_ok d f free live : separate (fsize f) (live ++ free_regs free) -> free_ok free -> 0 <= fsize f ->
  fsize f + file_len d < 2 ^ 63 ->
  exists l f' free', FindRooMAndWrite d f free = Some (l, f', free') /\
    fsize f <= fsize f' <= fsize f + file_len d /\ fpos f' = offset l + file_len d /\
    pread (fbytes f') (offset l) (length d) = d /\ file_len d <= total_size l /\ link_ok l /\ size l <= total_size l /\
    (forall off n, disj (off, Z.of_nat n) (reg l) -> pread (fbytes f') off n = pread (fbytes f) off n) /\
    separate (fsize f') (reg l :: live ++ free_regs free') /\ free_ok free' /\ free' ⊆+ free /\
    match fm_lower_bound free (file_len d) with
    | Some (k, l') => l = l' /\ (k, l) ∈ free
    | None => l = Link (file_len d) (file_len d) (fsize f) /\ free' = free
    end.
Proof.
  intros Hsep Hfree Hsz Hroom. assert (0 <= file_len d) by (unfold file_len; lia). unfold FindRooMAndWrite.
  destruct (fm_lower_bound free (file_len d)) as [[k l]|] eqn:Hlb.
  - destruct (fm_lower_bound_spec _ _ _ _ Hfree Hlb) as (Hle & -> & Hl & Hsl & Hfree' & Hp).
    assert (Hp' : live ++ free_regs free ≡ₚ reg l :: live ++ free_regs (fm_erase free (total_size l))).
    { rewrite Permutation_middle. apply Permutation_app_head. unfold free_regs. by rewrite Hp at 1. }
    pose proof (separate_perm _ _ _ Hp' Hsep) as Hsep'. pose proof Hsep' as [Hin _].
    apply Forall_cons in Hin as [Hin _]. unfold inside in Hin. cbn in Hin.
    destruct (Write_ok (Lseek f (offset l)) d) as [f' Hw]; [cbn; lia|]. rewrite Hw. cbn [mbind option_bind].
    destruct (Write_size _ _ _ Hw) as [Hs' Hpos]; [cbn; lia|]. cbn in Hs', Hpos.
    exists l, f', (fm_erase free (total_size l)). split; [done|]. split; [lia|]. split; [done|].
    split; [exact (pread_write_same _ _ _ Hw)|]. split; [done|]. split; [done|]. split; [done|]. split; [|split; [|split; [done|]]].
    + intros off n Hd. apply (pread_write_other _ _ _ _ _ Hw). unfold disj in Hd. cbn in *. lia.
    + replace (fsize f') with (fsize f) by lia. done.
    + split; [rewrite Hp at 2; by apply submseteq_cons|]. split; [done|]. rewrite Hp. by apply elem_of_cons; left.
  - cbn [Lseek_end]. destruct (Write_ok (Lseek f (fsize f)) d) as [f' Hw]; [cbn; lia|]. rewrite Hw. cbn [mbind option_bind].
    destruct (Write_size _ _ _ Hw) as [Hs' Hpos]; [cbn; lia|]. cbn in Hs', Hpos.
    do 3 eexists. split; [done|]. cbn [offset total_size size]. split; [lia|]. split; [done|].
    split; [exact (pread_write_same _ _ _ Hw)|]. split; [lia|]. split; [unfold link_ok, in_u64; cbn; lia|]. split; [lia|].
    split; [|split; [|done]].
    + intros off n Hd. apply (pread_write_other _ _ _ _ _ Hw). unfold disj in Hd. cbn in *. lia.
    + replace (fsize f') with (fsize f + file_len d) by lia. by apply separate_extend.
Qed.

(** ** Entries and buckets *)

(** A key that is in the store: where its node is, where its value is, and the value. *)
Record entry := Entry { e_link : link; e_key : string; e_vl : link; e_val : string }.

Definition entry_node (e : entry) (nx : link) : dnode := DNode true (e_key e) (e_vl e) nx.
Definition node_len (e : entry) : Z := 53 + file_len (cstr (e_key e)).

Definition entry_ok (e : entry) : Prop :=
  key_ok (e_key e) /\ link_ok (e_link e) /\ link_ok (e_vl e) /\ offset (e_link e) <> 0 /\
  size (e_link e) = total_size (e_link e) /\ node_len e <= total_size (e_link e) /\
  size (e_vl e) = file_len (bytes_of (e_val e)) /\ size (e_vl e) <= total_size (e_vl e).

Definition node_at (m : gmap Z ascii) (e : entry) (nx : link) : Prop :=
  exists rep, node_encode (entry_node e nx) = Some rep /\ pread m (offset (e_link e)) (length rep) = rep.
Definition val_at (m : gmap Z ascii) (e : entry) : Prop :=
  pread m (offset (e_vl e)) (length (bytes_of (e_val e))) = bytes_of (e_val e).

Definition next_of (es : list entry) (nx : link) : link := match es with [] => nx | e :: _ => e_link e end.

(** Nodes that follow each other, the last one before [nx]. *)
Fixpoint seg (m : gmap Z ascii) (es : list entry) (nx : link) : Prop :=
  match es with
  | [] => True
  | e :: es => node_at m e (next_of es nx) /\ seg m es nx
  end.

Lemma next_of_app es1 es2 nx : next_of (es1 ++ es2) nx = next_of es1 (next_of es2 nx).
Proof. by destruct es1. Qed.

Lemma seg_app m es1 es2 nx : seg m (es1 ++ es2) nx <-> seg m es1 (next_of es2 nx) /\ seg m es2 nx.
Proof. induction es1 as [|e es1 IH]; cbn; [tauto|]. rewrite IH, next_of_app. tauto. Qed.

Lemma node_len_spec e nx rep : node_encode (entry_node e nx) = Some rep -> file_len rep = node_len e.
Proof. intros H. rewrite (node_encode_length _ _ H). unfold node_size, node_len, LinkSize. cbn. lia. Qed.

(** A change elsewhere. *)
Definition same_on (m m' : gmap Z ascii) (r : region) : Prop :=
  forall off n, r.1 <= off -> off + Z.of_nat n <= r.1 + r.2 -> pread m' off n = pread m off n.

Lemma node_at_same m m' e nx : entry_ok e -> same_on m m' (reg (e_link e)) -> node_at m e nx -> node_at m' e nx.
Proof.
  intros (_ & _ & _ & _ & _ & Hlen & _) Hs (rep & He & Hr). exists rep. split; [done|].
  pose proof (node_len_spec _ _ _ He) as Hl. unfold file_len in Hl. rewrite Hs; [done|done|]. cbn. lia.
Qed.

Lemma seg_same m m' es nx : Forall entry_ok es -> Forall (fun e => same_on m m' (reg (e_link e))) es -> seg m es nx -> seg m' es nx.
Proof.
  induction es as [|e es IH]; cbn; [done|]. intros [He Hes]%Forall_cons [Hs Hss]%Forall_cons [Hn Hg].
  split; [by eapply node_at_same|by apply IH].
Qed.

Lemma val_at_same m m' e : entry_ok e -> same_on m m' (reg (e_vl e)) -> val_at m e -> val_at m' e.
Proof.
  intros (_ & _ & _ & _ & _ & _ & Hsz & Hle) Hs Hv. unfold val_at in *. rewrite Hs; [done|done|]. unfold file_len in *. cbn. lia.
Qed.

(** *** Reading *)

Lemma NodeRead_ok f e nx : entry_ok e -> link_ok nx -> node_at (fbytes f) e nx -> inside (fsize f) (reg (e_link e)) ->
  exists p, NodeRead f (e_link e) = Some (Lseek f p, entry_node e nx).
Proof.
  intros (Hk & Hl & Hv & _ & Hsz & Hlen & _) Hnx (rep & He & Hr) (_ & Ht & Hin). cbn in Ht, Hin.
  unfold NodeRead. rewrite Read_ok by (cbn; lia). cbn [mbind option_bind Lseek fpos fbytes].
  pose proof (node_len_spec _ _ _ He) as Hrl. unfold file_len in Hrl.
  assert (Hpre : exists rest, pread (fbytes f) (offset (e_link e)) (Z.to_nat (size (e_link e))) = rep ++ rest).
  { exists (drop (length rep) (pread (fbytes f) (offset (e_link e)) (Z.to_nat (size (e_link e))))).
    etransitivity; [symmetry; apply (take_drop (length rep))|]. f_equal. by rewrite pread_take by lia. }
  destruct Hpre as [rest ->]. destruct (node_roundtrip (entry_node e nx) rest Hk Hv Hnx) as (rep' & He' & Hd).
  assert (rep' = rep) as -> by congruence. rewrite Hd. cbn. by eexists.
Qed.

Lemma GetVal_ok f e : entry_ok e -> val_at (fbytes f) e -> inside (fsize f) (reg (e_vl e)) ->
  exists p, GetVal f (e_vl e) = Some (Lseek f p, e_val e).
Proof.
  intros (_ & _ & _ & _ & _ & _ & Hsz & Hle) Hv (_ & Ht & Hin). cbn in Ht, Hin. unfold GetVal.
  rewrite Read_ok by (unfold file_len in *; cbn; lia). cbn [mbind option_bind Lseek fpos fbytes fsize].
  rewrite Hsz. unfold file_len. rewrite Nat2Z.id, Hv, str_of_bytes_of. by eexists.
Qed.

(** [Find] goes along the bucket. *)
Definition before (es1 : list entry) (l : link) (prev : option (dnode * link)) : option (dnode * link) :=
  match last es1 with Some p => Some (entry_node p l, e_link p) | None => prev end.

Lemma links_ok_next es : Forall entry_ok es -> link_ok (next_of es null_link).
Proof. intros [|e es' (_ & H & _) _]; [|exact H]. unfold link_ok, in_u64. cbn. lia. Qed.

Lemma Find_absent f key es prev fuel : Forall entry_ok es -> Forall (fun e => inside (fsize f) (reg (e_link e))) es ->
  seg (fbytes f) es null_link -> (length es < fuel)%nat -> key ∉ e_key <$> es ->
  exists p, Find fuel f key (next_of es null_link) prev = Some (Lseek f p, None).
Proof.
  revert f prev fuel. induction es as [|e es IH]; intros f prev [|fuel] Hok Hin Hs Hf Hk; cbn in Hf; try lia.
  - exists (fpos f). cbn. by destruct f.
  - apply Forall_cons in Hok as [He Hok], Hin as [Hi Hin]. destruct Hs as [Hn Hs]. cbn [Find next_of].
    rewrite fmap_cons, elem_of_cons in Hk. pose proof He as (_ & _ & _ & Hz & _).
    unfold IsNull. rewrite (proj2 (Z.eqb_neq _ 0) Hz).
    destruct (NodeRead_ok f e (next_of es null_link) He (links_ok_next _ Hok) Hn Hi) as [p ->]. cbn [mbind option_bind entry_node valid nkey next andb].
    rewrite bool_decide_false by (intros E; apply Hk; left; congruence).
    destruct (IH (Lseek f p) (Some (entry_node e (next_of es null_link), e_link e)) fuel) as [q Hq]; try done; [lia|tauto|].
    by exists q.
Qed.

Lemma Find_present f es1 e es2 prev fuel : Forall entry_ok (es1 ++ e :: es2) ->
  Forall (fun e => inside (fsize f) (reg (e_link e))) (es1 ++ e :: es2) ->
  seg (fbytes f) (es1 ++ e :: es2) null_link -> (length (es1 ++ e :: es2) < fuel)%nat -> e_key e ∉ e_key <$> es1 ->
  exists p, Find fuel f (e_key e) (next_of (es1 ++ e :: es2) null_link) prev =
    Some (Lseek f p, Some (entry_node e (next_of es2 null_link), e_link e, before es1 (e_link e) prev)).
Proof.
  revert f prev fuel. induction es1 as [|e1 es1 IH]; intros f prev [|fuel] Hok Hin Hs Hf Hk; cbn in Hf; try lia; cbn [app] in *.
  - apply Forall_cons in Hok as [He Hok], Hin as [Hi Hin]. destruct Hs as [Hn Hs]. cbn [Find next_of].
    pose proof He as (_ & _ & _ & Hz & _). unfold IsNull. rewrite (proj2 (Z.eqb_neq _ 0) Hz).
    destruct (NodeRead_ok f e (next_of es2 null_link) He (links_ok_next _ Hok) Hn Hi) as [p ->]. cbn [mbind option_bind].
    cbn [entry_node valid nkey andb]. rewrite bool_decide_true by done. by exists p.
  - apply Forall_cons in Hok as [He Hok], Hin as [Hi Hin]. destruct Hs as [Hn Hs]. cbn [Find next_of].
    rewrite fmap_cons, elem_of_cons in Hk. pose proof He as (_ & _ & _ & Hz & _).
    unfold IsNull. rewrite (proj2 (Z.eqb_neq _ 0) Hz).
    destruct (NodeRead_ok f e1 _ He (links_ok_next _ Hok) Hn Hi) as [p ->]. cbn [mbind option_bind].
    cbn [entry_node valid nkey next andb]. rewrite bool_decide_false by (intros E; apply Hk; left; congruence).
    destruct (IH (Lseek f p) (Some (entry_node e1 (next_of (es1 ++ e :: es2) null_link), e_link e1)) fuel) as [q Hq]; try done; [lia|tauto|].
    exists q. etransitivity; [exact Hq|]. unfold before. rewrite last_cons. destruct (last es1) eqn:El; [done|].
    apply last_None in El as ->. done.
Qed.

(** ** The invariant *)

Definition header : region := (0, Z.of_nat HASH_TABLE_SIZE * LinkSize).
Definition idx_regs (live : list entry) (fn : free_map) : list region := header :: ((fun e => reg (e_link e)) <$> live) ++ free_regs fn.
Definition data_regs (live : list entry) (fd : free_map) : list region := ((fun e => reg (e_vl e)) <$> live) ++ free_regs fd.

(** The head of bucket [h] is kept in the index file. *)
Definition head_at (m : gmap Z ascii) (h : nat) (hd : link) : Prop := pread m (Z.of_nat h * LinkSize) 24 = link_encode hd.

Record inv (s : db) (chains : list (list entry)) : Prop := Inv {
  inv_heads : heads s = (fun es => next_of es null_link) <$> chains;
  inv_len : length chains = HASH_TABLE_SIZE;
  inv_seg : Forall (fun es => seg (fbytes (idx s)) es null_link) chains;
  inv_hash : forall h es, chains !! h = Some es -> Forall (fun e => hash (e_key e) = Z.of_nat h) es;
  inv_keys : Forall (fun es => NoDup (e_key <$> es)) chains;
  inv_ok : Forall entry_ok (concat chains);
  inv_vals : Forall (val_at (fbytes (data s))) (concat chains);
  inv_idx : separate (fsize (idx s)) (idx_regs (concat chains) (free_node s));
  inv_data : separate (fsize (data s)) (data_regs (concat chains) (free_data s));
  inv_fn : free_ok (free_node s) /\ Forall (fun p => size p.2 = total_size p.2) (free_node s);
  inv_fd : free_ok (free_data s);
  inv_disk : forall h hd, heads s !! h = Some hd -> head_at (fbytes (idx s)) h hd;
  inv_size : 0 <= fsize (data s)
}.

Definition kvl (es : list entry) : gmap string string := list_to_map ((fun e => (e_key e, e_val e)) <$> es).
Definition kv (chains : list (list entry)) : gmap string string := kvl (concat chains).

Lemma nodup_concat (chains : list (list entry)) (h0 : nat) : Forall (fun es => NoDup (e_key <$> es)) chains ->
  (forall h es, chains !! h = Some es -> Forall (fun e => hash (e_key e) = Z.of_nat (h0 + h)) es) ->
  NoDup (e_key <$> concat chains).
Proof.
  revert h0. induction chains as [|es chains IH]; intros h0 Hk Hh; cbn; [constructor|].
  apply Forall_cons in Hk as [Hes Hk]. rewrite fmap_app. apply NoDup_app. split; [done|]. split.
  - intros k (e & -> & He)%list_elem_of_fmap (e' & Hee & He')%list_elem_of_fmap.
    pose proof (proj1 (Forall_forall _ _) (Hh 0%nat es eq_refl) e He) as H0. cbn in H0.
    apply list_elem_of_In, in_concat in He' as (es' & Hin & Hine). apply list_elem_of_In, list_elem_of_lookup in Hin as [i Hi].
    apply list_elem_of_In in Hine. pose proof (proj1 (Forall_forall _ _) (Hh (S i) es' Hi) e' Hine) as H1. cbn in H1.
    rewrite Hee in H0. lia.
  - apply (IH (S h0)); [done|]. intros h es' H'. specialize (Hh (S h) es' H'). replace (S h0 + h)%nat with (h0 + S h)%nat by lia. done.
Qed.

Lemma inv_nodup s chains : inv s chains -> NoDup (e_key <$> concat chains).
Proof. intros H. apply (nodup_concat chains 0); [apply H|]. intros h es. apply (inv_hash _ _ H). Qed.

Lemma kvl_perm es es' : NoDup (e_key <$> es) -> es ≡ₚ es' -> kvl es = kvl es'.
Proof.
  intros Hn Hp. unfold kvl. apply list_to_map_proper; [|by rewrite Hp].
  rewrite <- list_fmap_compose. exact Hn.
Qed.

Lemma kvl_cons e es : kvl (e :: es) = <[e_key e := e_val e]> (kvl es).
Proof. done. Qed.

Lemma kvl_lookup_None es k : kvl es !! k = None <-> k ∉ e_key <$> es.
Proof. unfold kvl. rewrite <- not_elem_of_list_to_map, <- list_fmap_compose. done. Qed.

(** *** Where writes do not reach *)

Lemma same_on_trans m1 m2 m3 r : same_on m1 m2 r -> same_on m2 m3 r -> same_on m1 m3 r.
Proof. intros H1 H2 off n ? ?. by rewrite H2, H1. Qed.

Lemma same_on_room m m' l r : (forall off n, disj (off, Z.of_nat n) (reg l) -> pread m' off n = pread m off n) ->
  disj (reg l) r -> same_on m m' r.
Proof. intros H Hd off n ? ?. apply H. unfold disj in *. cbn in *. lia. Qed.

Lemma same_on_write f d f' l r : Write (Lseek f (offset l)) d = Some f' -> file_len d <= total_size l ->
  disj (reg l) r -> same_on (fbytes f) (fbytes f') r.
Proof.
  intros H Hl Hd off n ? ?. rewrite (pread_write_other _ _ _ _ _ H); [done|]. unfold disj in *. cbn in *. lia.
Qed.

Lemma separate_first limit r rs : separate limit (r :: rs) -> inside limit r /\ Forall (disj r) rs.
Proof. intros [Hi [Hd _]]. apply Forall_cons in Hi as [? _]. done. Qed.

(** *** The heads *)

Lemma HeadWrite_ok f h hd : (h < HASH_TABLE_SIZE)%nat -> inside (fsize f) header ->
  exists f', HeadWrite f (head_offset h) hd = Some f' /\ fsize f' = fsize f /\ head_at (fbytes f') h hd /\
    (forall r, disj header r -> same_on (fbytes f) (fbytes f') r) /\
    (forall h' hd', h' <> h -> head_at (fbytes f) h' hd' -> head_at (fbytes f') h' hd').
Proof.
  intros Hh Hin. unfold HeadWrite, link_write, head_offset. unfold inside, header in Hin. cbn [fst snd] in Hin.
  unfold HASH_TABLE_SIZE, LinkSize in *.
  destruct (Write_ok (Lseek f (Z.of_nat h * 24)) (link_encode hd)) as [f' Hw].
  { cbn [fpos Lseek]. unfold file_len. rewrite link_encode_length. lia. }
  rewrite Hw. exists f'. split; [done|].
  destruct (Write_size _ _ _ Hw) as [Hs _]; [cbn; lia|]. cbn [fsize Lseek fpos] in Hs. unfold file_len in Hs. rewrite link_encode_length in Hs.
  split; [lia|]. split; [|split].
  - unfold head_at, LinkSize. pose proof (pread_write_same _ _ _ Hw) as Hr. by rewrite link_encode_length in Hr.
  - intros r Hd off n ? ?. rewrite (pread_write_other _ _ _ _ _ Hw); [done|]. cbn [fpos Lseek]. unfold file_len. rewrite link_encode_length.
    unfold disj, header, HASH_TABLE_SIZE, LinkSize in Hd. cbn [fst snd] in *. lia.
  - unfold head_at, LinkSize. intros h' hd' Hne <-. apply (pread_write_other _ _ _ _ _ Hw). cbn [fpos Lseek]. unfold file_len.
    rewrite link_encode_length. lia.
Qed.

(** *** Replacing one bucket *)

Section Update.
Context (s s' : db) (c1 c2 : list (list entry)) (es es' : list entry).
Context (Hinv : inv s (c1 ++ es :: c2)).

Lemma update_perm (x : list entry) : concat (c1 ++ x :: c2) ≡ₚ x ++ concat (c1 ++ c2).
Proof using.
  rewrite !concat_app. cbn. rewrite !app_assoc. apply Permutation_app_tail. apply Permutation_app_comm.
Qed.

Lemma inv_update :
  heads s' = <[length c1 := next_of es' null_link]> (heads s) ->
  seg (fbytes (idx s')) es' null_link ->
  Forall (fun e => same_on (fbytes (idx s)) (fbytes (idx s')) (reg (e_link e))) (concat (c1 ++ c2)) ->
  Forall (fun e => same_on (fbytes (data s)) (fbytes (data s')) (reg (e_vl e))) (concat (c1 ++ c2)) ->
  Forall (fun e => hash (e_key e) = Z.of_nat (length c1)) es' -> NoDup (e_key <$> es') ->
  Forall entry_ok es' -> Forall (val_at (fbytes (data s'))) es' ->
  separate (fsize (idx s')) (idx_regs (es' ++ concat (c1 ++ c2)) (free_node s')) ->
  separate (fsize (data s')) (data_regs (es' ++ concat (c1 ++ c2)) (free_data s')) ->
  free_ok (free_node s') /\ Forall (fun p => size p.2 = total_size p.2) (free_node s') -> free_ok (free_data s') ->
  (forall h hd, heads s' !! h = Some hd -> head_at (fbytes (idx s')) h hd) -> 0 <= fsize (data s') ->
  inv s' (c1 ++ es' :: c2).
Proof using Hinv.
  intros Hh Hs Hsi Hsd Hhash Hnd Hok Hv Hidx Hdat Hfn Hfd Hdisk Hsz. destruct Hinv as [Ih Il Is Iha Ik Io Iv _ _ _ _ _ _].
  assert (Hother : Forall entry_ok (concat (c1 ++ c2))).
  { rewrite (update_perm es) in Io. by apply Forall_app in Io as [_ ?]. }
  constructor; try done.
  - rewrite Hh, Ih, !fmap_app, !fmap_cons. by rewrite insert_app_r_alt, length_fmap, Nat.sub_diag by (rewrite length_fmap; lia).
  - rewrite length_app in *. cbn in *. lia.
  - apply Forall_app in Is as [I1 I2]. apply Forall_cons in I2 as [_ I2].
    assert (Hk : forall c, (forall x e, x ∈ c -> e ∈ x -> e ∈ concat (c1 ++ c2)) -> Forall (fun es => seg (fbytes (idx s)) es null_link) c ->
      Forall (fun es => seg (fbytes (idx s')) es null_link) c).
    { intros c Hc HF. apply Forall_forall. intros x Hx. eapply seg_same; [| |exact (proj1 (Forall_forall _ _) HF x Hx)].
      - apply Forall_forall. intros e He. exact (proj1 (Forall_forall _ _) Hother e (Hc x e Hx He)).
      - apply Forall_forall. intros e He. exact (proj1 (Forall_forall _ _) Hsi e (Hc x e Hx He)). }
    assert (Hin : forall x e, x ∈ c1 ++ c2 -> e ∈ x -> e ∈ concat (c1 ++ c2)).
    { intros x e Hx He. apply list_elem_of_In, in_concat. exists x. split; by apply list_elem_of_In. }
    apply Forall_app. split; [|constructor; [done|]]; apply Hk; try done; intros x e Hx He; apply (Hin x e); try done; apply elem_of_app; tauto.
  - intros h x Hx. destruct (decide (h = length c1)) as [->|Hne].
    + rewrite list_lookup_middle in Hx by done. by injection Hx as <-.
    + apply Iha. rewrite <- Hx. destruct (decide (h < length c1)%nat).
      * by rewrite !lookup_app_l.
      * rewrite !lookup_app_r by lia. destruct (h - length c1)%nat eqn:E; [lia|done].
  - apply Forall_app in Ik as [K1 K2]. apply Forall_cons in K2 as [_ K2]. apply Forall_app. split; [done|by constructor].
  - rewrite update_perm. by apply Forall_app.
  - rewrite update_perm. apply Forall_app. split; [done|]. rewrite (update_perm es) in Iv. apply Forall_app in Iv as [_ Iv].
    apply Forall_forall. intros e He. eapply val_at_same; [exact (proj1 (Forall_forall _ _) Hother e He)|exact (proj1 (Forall_forall _ _) Hsd e He)|].
    exact (proj1 (Forall_forall _ _) Iv e He).
  - eapply separate_perm; [|exact Hidx]. unfold idx_regs. by rewrite update_perm.
  - eapply separate_perm; [|exact Hdat]. unfold data_regs. by rewrite update_perm.
Qed.
End Update.
