(* ===== verification/DbRefines.v ===== *)
(** * The operations of the key-value store

    Each operation of [Db] on a state with the invariant of [DbSafety]: its answer, the
    new map, the invariant, and how much the files grow. *)

From Stdlib Require Import ZArith Lia Ascii String.
From stdpp Require Import base list gmap strings sorting.
From S2P Require Import Prelude DbFile Db DbSafety.

Local Open Scope Z_scope.

Definition val_len (v : string) : Z := file_len (bytes_of v).
Definition key_len (k : string) : Z := 53 + file_len (cstr k).

(** How much a call may add to the files. *)
Definition grown (s s' : db) (di dd : Z) : Prop :=
  fsize (idx s) <= fsize (idx s') <= fsize (idx s) + di /\ fsize (data s) <= fsize (data s') <= fsize (data s) + dd.

(** The state of one bucket and the rest. *)
Section Bucket.
Context (s : db) (c1 c2 : list (list entry)) (es : list entry).
Context (Hinv : inv s (c1 ++ es :: c2)).
Local Abbreviation h := (length c1).
Local Abbreviation rest := (concat (c1 ++ c2)).

Lemma bucket_head : heads s !! h = Some (next_of es null_link).
Proof using Hinv.
  rewrite (inv_heads _ _ Hinv), fmap_app, lookup_app_r by (rewrite length_fmap; lia). by rewrite length_fmap, Nat.sub_diag.
Qed.
Lemma bucket_lt : (h < HASH_TABLE_SIZE)%nat.
Proof using Hinv. rewrite <- (inv_len _ _ Hinv), length_app. cbn. lia. Qed.
Lemma bucket_ok : Forall entry_ok es /\ Forall entry_ok rest.
Proof using Hinv. pose proof (inv_ok _ _ Hinv) as H. rewrite update_perm in H. by apply Forall_app. Qed.
Lemma bucket_vals : Forall (val_at (fbytes (data s))) es.
Proof using Hinv. pose proof (inv_vals _ _ Hinv) as H. rewrite update_perm in H. by apply Forall_app in H as [? _]. Qed.
Lemma bucket_seg : seg (fbytes (idx s)) es null_link.
Proof using Hinv. pose proof (inv_seg _ _ Hinv) as H. apply Forall_app in H as [_ H]. by apply Forall_cons in H as [? _]. Qed.
Lemma bucket_keys : NoDup (e_key <$> es).
Proof using Hinv. pose proof (inv_keys _ _ Hinv) as H. apply Forall_app in H as [_ H]. by apply Forall_cons in H as [? _]. Qed.
Lemma bucket_hash : Forall (fun e => hash (e_key e) = Z.of_nat h) es.
Proof using Hinv. apply (inv_hash _ _ Hinv h). by rewrite list_lookup_middle. Qed.
Lemma bucket_idx : separate (fsize (idx s)) (idx_regs (es ++ rest) (free_node s)).
Proof using Hinv. eapply separate_perm; [|exact (inv_idx _ _ Hinv)]. unfold idx_regs. by rewrite update_perm. Qed.
Lemma bucket_data : separate (fsize (data s)) (data_regs (es ++ rest) (free_data s)).
Proof using Hinv. eapply separate_perm; [|exact (inv_data _ _ Hinv)]. unfold data_regs. by rewrite update_perm. Qed.
Lemma bucket_header : inside (fsize (idx s)) header.
Proof using Hinv. exact (proj1 (separate_first _ _ _ bucket_idx)). Qed.
Lemma bucket_inside : Forall (fun e => inside (fsize (idx s)) (reg (e_link e))) es.
Proof using Hinv.
  destruct bucket_idx as [Hi _]. unfold idx_regs in Hi. apply Forall_cons in Hi as [_ Hi]. rewrite fmap_app in Hi.
  rewrite <- app_assoc in Hi. apply Forall_app in Hi as [Hi _]. exact (proj1 (Forall_fmap _ _ _) Hi).
Qed.
Lemma bucket_kv : kv (c1 ++ es :: c2) = kvl (es ++ rest) /\ NoDup (e_key <$> es ++ rest).
Proof using Hinv.
  pose proof (inv_nodup _ _ Hinv) as Hn. split; [apply kvl_perm; [done|apply update_perm]|]. by rewrite update_perm in Hn.
Qed.

(** A key of this bucket is in the map when it is in the list. *)
Lemma bucket_absent key : hash key = Z.of_nat h -> kv (c1 ++ es :: c2) !! key = None <-> key ∉ e_key <$> es.
Proof using Hinv.
  intros Hh. rewrite (proj1 bucket_kv), kvl_lookup_None, fmap_app, elem_of_app. split; [tauto|]. intros Hn [?|Hin]; [done|].
  apply list_elem_of_fmap in Hin as (e & -> & He). apply list_elem_of_In, in_concat in He as (x & Hx & He).
  apply list_elem_of_In in Hx, He.
  assert (exists i, i <> h /\ (c1 ++ es :: c2) !! i = Some x) as (i & Hi & Hl).
  { apply elem_of_app in Hx as [[i Hi]%list_elem_of_lookup | [i Hi]%list_elem_of_lookup].
    - exists i. pose proof (lookup_lt_Some _ _ _ Hi). split; [lia|]. by rewrite lookup_app_l.
    - exists (S (length c1 + i)). split; [lia|]. rewrite lookup_app_r by lia.
      replace (S (length c1 + i) - length c1)%nat with (S i) by lia. done. }
  pose proof (proj1 (Forall_forall _ _) (inv_hash _ _ Hinv i x Hl) e He) as Hhe. cbn in Hhe. lia.
Qed.

Context (fuel : nat) (Hfuel : (length (concat (c1 ++ es :: c2)) < fuel)%nat).

Lemma bucket_fuel : (length es < fuel)%nat.
Proof using Hfuel. rewrite update_perm, length_app in Hfuel. lia. Qed.

Lemma bucket_find_absent key : key ∉ e_key <$> es ->
  exists p, Find fuel (idx s) key (next_of es null_link) None = Some (Lseek (idx s) p, None).
Proof using Hinv Hfuel.
  intros Hk. apply Find_absent; [apply bucket_ok|apply bucket_inside|apply bucket_seg|apply bucket_fuel|done].
Qed.
End Bucket.

Lemma disj_live {A} (f : A -> region) r (live : list A) fr :
  Forall (disj r) ((f <$> live) ++ fr) -> Forall (fun e => disj r (f e)) live.
Proof. intros H. apply Forall_app in H as [H _]. exact (proj1 (Forall_fmap _ _ _) H). Qed.

(** Nothing that is live is where a write goes. *)
Lemma same_live {A} (f : A -> region) r m m' (live : list A) : Forall (fun e => disj r (f e)) live ->
  (forall r', disj r r' -> same_on m m' r') -> Forall (fun e => same_on m m' (f e)) live.
Proof. intros H Hs. eapply Forall_impl; [exact H|]. intros e. apply Hs. Qed.

Lemma same_live_trans {A} (f : A -> region) m1 m2 m3 (live : list A) :
  Forall (fun e => same_on m1 m2 (f e)) live -> Forall (fun e => same_on m2 m3 (f e)) live ->
  Forall (fun e => same_on m1 m3 (f e)) live.
Proof.
  intros H1 H2. apply Forall_forall. intros e He. eapply same_on_trans; [exact (proj1 (Forall_forall _ _) H1 e He)|].
  exact (proj1 (Forall_forall _ _) H2 e He).
Qed.

Lemma vals_same m m' es : Forall entry_ok es -> Forall (fun e => same_on m m' (reg (e_vl e))) es ->
  Forall (val_at m) es -> Forall (val_at m') es.
Proof.
  intros Ho Hs Hv. apply Forall_forall. intros e He.
  eapply val_at_same; [exact (proj1 (Forall_forall _ _) Ho e He)|exact (proj1 (Forall_forall _ _) Hs e He)|].
  exact (proj1 (Forall_forall _ _) Hv e He).
Qed.

Lemma heads_kept s chains m' : inv s chains -> same_on (fbytes (idx s)) m' header ->
  forall h hd, heads s !! h = Some hd -> head_at m' h hd.
Proof.
  intros Hinv Hs h hd Hl. pose proof (inv_disk _ _ Hinv h hd Hl) as Hd. unfold head_at in *. rewrite Hs; [done| |].
  - cbn. unfold LinkSize. lia.
  - apply lookup_lt_Some in Hl. rewrite (inv_heads _ _ Hinv), length_fmap, (inv_len _ _ Hinv) in Hl.
    unfold HASH_TABLE_SIZE, LinkSize in *. unfold header, HASH_TABLE_SIZE, LinkSize. cbn [fst snd]. lia.
Qed.

(** The heads after one of them was written. *)
Lemma heads_written s chains (i i' : file) h hd : inv s chains -> same_on (fbytes (idx s)) (fbytes i) header ->
  head_at (fbytes i') h hd -> (forall h' hd', h' <> h -> head_at (fbytes i) h' hd' -> head_at (fbytes i') h' hd') ->
  forall h' hd', <[h := hd]> (heads s) !! h' = Some hd' -> head_at (fbytes i') h' hd'.
Proof.
  intros Hinv Hs Hh Ho h' hd' Hl. destruct (decide (h' = h)) as [->|Hne].
  - apply list_lookup_insert_Some in Hl as [(_ & <- & _)|(? & _)]; done.
  - rewrite list_lookup_insert_ne in Hl by done. apply Ho; [done|]. eapply heads_kept; [exact Hinv|done|done].
Qed.

(** ** Add *)

Section Add.
Context (s : db) (c1 c2 : list (list entry)) (es : list entry) (key val : string).
Context (Hinv : inv s (c1 ++ es :: c2)) (Hkey : key_ok key) (Hhash : hash key = Z.of_nat (length c1)).
Context (Hroom_d : fsize (data s) + val_len val < 2 ^ 63) (Hroom_i : fsize (idx s) + key_len key < 2 ^ 63).

(** No free space, or of the right size. *)
Definition exact_room (fd : free_map) (n : Z) : Prop :=
  match fm_lower_bound fd n with Some (_, l) => size l = n | None => True end.

Lemma add_ok fuel : (length (concat (c1 ++ es :: c2)) < fuel)%nat -> key ∉ e_key <$> es ->
  exact_room (free_data s) (val_len val) ->
  exists s' e, AddInternal fuel (length c1) s key val = Some (s', true) /\ inv s' (c1 ++ (e :: es) :: c2) /\
    e_key e = key /\ e_val e = val /\ cache s' = cache s /\ grown s s' (key_len key) (val_len val).
Proof using Hinv Hkey Hhash Hroom_d Hroom_i.
  intros Hfuel Hk Hex. unfold AddInternal. rewrite (bucket_head _ _ _ _ Hinv). cbn [mbind option_bind].
  destruct (bucket_find_absent _ _ _ _ Hinv fuel Hfuel key Hk) as [p ->]. cbn [mbind option_bind].
  destruct (find_room_ok (bytes_of val) (data s) (free_data s) _ (bucket_data _ _ _ _ Hinv) (inv_fd _ _ Hinv) (inv_size _ _ Hinv) Hroom_d)
    as (vl & d & fd & Hfr & Hds & _ & Hdr & Hdl & Hvl & Hvs & Hdo & Hdsep & Hfd & _ & Hdl').
  rewrite Hfr. cbn [mbind option_bind].
  assert (Hvsz : size vl = val_len val).
  { unfold exact_room in Hex. fold (val_len val) in *. destruct (fm_lower_bound (free_data s) (val_len val)) as [[k l]|]; [by destruct Hdl' as [-> _]|].
    destruct Hdl' as [-> _]. done. }
  pose proof (bucket_ok _ _ _ _ Hinv) as [Hoke Hokr].
  set (hd := next_of es null_link). assert (Hhd : link_ok hd) by (by apply links_ok_next).
  destruct (node_roundtrip (DNode true key vl hd) [] Hkey Hvl Hhd) as (rep & Hrep & _). rewrite Hrep. cbn [mbind option_bind].
  assert (Hrl : file_len rep = key_len key) by exact (node_len_spec (Entry null_link key vl val) hd rep Hrep).
  pose proof (bucket_header _ _ _ _ Hinv) as Hhin. assert (Hkl : 53 <= key_len key) by (unfold key_len, file_len; lia).
  destruct (inv_fn _ _ Hinv) as [Hfn Hfns].
  destruct (find_room_ok rep (Lseek (idx s) p) (free_node s) (header :: ((fun e => reg (e_link e)) <$> es ++ concat (c1 ++ c2))))
    as (l & i & fn & Hfr' & His & _ & Hir & Hil & Hl & Hls & Hio & Hisep & Hfn' & Hfsub & Hil'); [exact (bucket_idx _ _ _ _ Hinv)|done| |cbn; lia|].
  { unfold inside in Hhin. cbn in Hhin |- *. lia. }
  rewrite Hfr'. cbn [mbind option_bind]. cbn [fbytes fsize Lseek] in *.
  pose proof (separate_first _ _ _ Hisep) as [Hlin Hld]. apply Forall_cons in Hld as [Hlh Hld].
  destruct (HeadWrite_ok i (length c1) l (bucket_lt _ _ _ _ Hinv)) as (i' & Hhw & Hi's & Hhat & Hhsame & Hhother).
  { unfold inside in *. cbn in *. lia. }
  rewrite Hhw. cbn [mbind option_bind].
  assert (Hlz : size l = total_size l).
  { destruct (fm_lower_bound (free_node s) (file_len rep)) as [[k l']|]; [|by destruct Hil' as [-> _]].
    destruct Hil' as [_ Hin]. exact (proj1 (Forall_forall _ _) Hfns _ Hin). }
  set (e := Entry l key vl val). do 2 eexists. split; [reflexivity|]. split; [|split; [|split; [|split]]]; [|instantiate (1 := e); done|done|done|].
  2: { unfold grown. cbn. rewrite Hi's. unfold val_len. lia. }
  assert (Hsi : Forall (fun e => same_on (fbytes (idx s)) (fbytes i') (reg (e_link e))) (es ++ concat (c1 ++ c2))).
  { eapply same_live_trans.
    - eapply same_live; [exact (disj_live _ _ _ _ Hld)|]. intros r Hr. exact (same_on_room _ _ l r Hio Hr).
    - eapply same_live; [|exact Hhsame]. exact (disj_live _ _ _ _ (proj2 (separate_first _ _ _ (bucket_idx _ _ _ _ Hinv)))). }
  assert (Hsd : Forall (fun e => same_on (fbytes (data s)) (fbytes d) (reg (e_vl e))) (es ++ concat (c1 ++ c2))).
  { eapply same_live; [exact (disj_live _ _ _ _ (proj2 (separate_first _ _ _ Hdsep)))|]. intros r Hr. exact (same_on_room _ _ vl r Hdo Hr). }
  apply Forall_app in Hsi as [Hsi1 Hsi2]. apply Forall_app in Hsd as [Hsd1 Hsd2].
  apply (inv_update s _ c1 c2 es (e :: es) Hinv); cbn [heads idx data free_node free_data fbytes]; try done.
  - split.
    + exists rep. split; [done|]. cbn [e_link e]. etransitivity; [|exact Hir]. apply (Hhsame (reg l)); [by apply disj_sym|cbn; lia|].
      cbn. unfold file_len in Hil. lia.
    + eapply seg_same; [done|exact Hsi1|]. exact (bucket_seg _ _ _ _ Hinv).
  - constructor; [done|]. exact (bucket_hash _ _ _ _ Hinv).
  - rewrite fmap_cons. constructor; [done|]. exact (bucket_keys _ _ _ _ Hinv).
  - constructor; [|done]. unfold entry_ok, e, node_len. cbn. fold (key_len key). fold (val_len val).
    assert (offset l <> 0). { unfold disj, header, HASH_TABLE_SIZE, LinkSize in Hlh. cbn in Hlh. unfold inside in Hlin. cbn in Hlin. lia. }
    repeat (split; [first [done|lia]|]). lia.
  - constructor; [exact Hdr|]. eapply vals_same; [done|exact Hsd1|]. exact (bucket_vals _ _ _ _ Hinv).
  - rewrite Hi's. eapply separate_perm; [|exact Hisep]. apply Permutation_swap.
  - split; [done|]. apply Forall_forall. intros q Hq. exact (proj1 (Forall_forall _ _) Hfns q (elem_of_submseteq _ _ _ Hq Hfsub)).
  - eapply heads_written; [exact Hinv| |done|exact Hhother]. exact (same_on_room _ _ l header Hio Hlh).
  - pose proof (inv_size _ _ Hinv). lia.
Qed.
End Add.

(** ** Set *)

Lemma lower_bound_set_None m k l n : k < n -> fm_lower_bound m n = None -> fm_lower_bound (fm_set m k l) n = None.
Proof.
  intros Hk. induction m as [|[k' l'] m IH]; cbn.
  - intros _. destruct (Z.leb_spec n k); [lia|done].
  - destruct (Z.leb_spec n k') as [|Hlt]; [done|]. intros Hn.
    destruct (Z.ltb_spec k k'); cbn; [destruct (Z.leb_spec n k); [lia|]; destruct (Z.leb_spec n k'); [lia|done]|].
    destruct (Z.eqb_spec k k'); cbn; [destruct (Z.leb_spec n k); [lia|done]|]. destruct (Z.leb_spec n k'); [lia|]. by apply IH.
Qed.

(** The data file in [SetInternal]: in place, or at the end of the file and once more
    behind it. *)
Lemma set_data_ok f fd vl others val : separate (fsize f) (reg vl :: others ++ free_regs fd) -> free_ok fd -> link_ok vl ->
  size vl <= total_size vl -> 0 <= fsize f -> fsize f + 2 * val_len val < 2 ^ 63 ->
  (val_len val <= total_size vl \/ fm_lower_bound fd (val_len val) = None) ->
  exists vl' f0 fd' f',
    (if file_len (bytes_of val) <=? total_size vl
     then Some (Link (total_size vl) (file_len (bytes_of val)) (offset vl), Lseek f (offset vl), fd)
     else FindRooMAndWrite (bytes_of val) f (fm_set fd (total_size vl) vl)) = Some (vl', f0, fd') /\
    Write f0 (bytes_of val) = Some f' /\ fsize f <= fsize f' <= fsize f + 2 * val_len val /\
    pread (fbytes f') (offset vl') (length (bytes_of val)) = bytes_of val /\ link_ok vl' /\ size vl' = val_len val /\
    val_len val <= total_size vl' /\ Forall (same_on (fbytes f) (fbytes f')) others /\
    separate (fsize f') (reg vl' :: others ++ free_regs fd') /\ free_ok fd'.
Proof.
  intros Hsep Hfd Hvl Hsz Hf Hroom Hex. fold (val_len val). assert (0 <= val_len val) by (unfold val_len, file_len; lia).
  destruct (separate_first _ _ _ Hsep) as [Hin Hd]. apply Forall_app in Hd as [Hd _].
  destruct (Z.leb_spec (val_len val) (total_size vl)) as [Hfit|Hbig].
  - destruct (Write_ok (Lseek f (offset vl)) (bytes_of val)) as [f' Hw].
    { cbn. fold (val_len val). unfold inside in Hin. cbn in Hin. lia. }
    destruct (Write_size _ _ _ Hw) as [Hs' _]; [unfold inside in Hin; cbn in *; lia|]. cbn in Hs'. fold (val_len val) in Hs'.
    unfold inside in Hin. cbn in Hin. do 4 eexists. split; [done|]. split; [exact Hw|]. split; [lia|].
    split; [exact (pread_write_same _ _ _ Hw)|]. split; [destruct Hvl as (? & ? & ?); unfold link_ok, in_u64 in *; cbn; lia|].
    split; [done|]. split; [done|]. split; [|split; [|done]].
    + eapply Forall_impl; [exact Hd|]. intros r Hr. exact (same_on_write _ _ _ vl r Hw Hfit Hr).
    + replace (fsize f') with (fsize f) by lia. exact Hsep.
  - assert (Hn : fm_lower_bound fd (val_len val) = None) by (destruct Hex; [lia|done]).
    assert (Hsub : others ++ free_regs (fm_set fd (total_size vl) vl) ⊆+ reg vl :: others ++ free_regs fd).
    { rewrite Permutation_middle. apply submseteq_app; [done|]. apply fm_set_regs. }
    destruct (find_room_ok (bytes_of val) f (fm_set fd (total_size vl) vl) others) as (l & f0 & fd' & Hfr & Hs0 & Hp0 & Hr0 & Hl0 & Hl & Hls & Hother & Hsep' & Hfd' & _ & Hlb);
      [exact (separate_sub _ _ _ Hsub Hsep)|by apply fm_set_ok|done|fold (val_len val); lia|].
    fold (val_len val) in *. rewrite (lower_bound_set_None fd _ _ _ Hbig Hn) in Hlb. destruct Hlb as [-> ->].
    cbn [offset total_size size] in *.
    destruct (Write_ok f0 (bytes_of val)) as [f' Hw]; [fold (val_len val); lia|].
    destruct (Write_size _ _ _ Hw) as [Hs' _].
    { destruct (separate_first _ _ _ Hsep') as [Hin0 _]. unfold inside in Hin0. cbn in Hin0. lia. }
    fold (val_len val) in Hs'. destruct (separate_first _ _ _ Hsep') as [Hin0 Hd0]. unfold inside in Hin0. cbn in Hin0.
    do 4 eexists. split; [exact Hfr|]. split; [exact Hw|]. split; [lia|]. cbn [offset total_size size].
    assert (Hbeyond : forall off n, off + Z.of_nat n <= fsize f + val_len val -> pread (fbytes f') off n = pread (fbytes f0) off n).
    { intros off n ?. apply (pread_write_other _ _ _ _ _ Hw). left. lia. }
    split; [rewrite Hbeyond; [exact Hr0|unfold val_len, file_len; lia]|]. split; [done|]. split; [done|]. split; [lia|]. split; [|split; [|done]].
    + apply Forall_app in Hd0 as [Hd0 _]. destruct Hsep as [Hins _]. apply Forall_cons in Hins as [_ Hins]. apply Forall_app in Hins as [Hins _].
      apply Forall_forall. intros r Hr. pose proof (proj1 (Forall_forall _ _) Hd0 r Hr) as Hdr. pose proof (proj1 (Forall_forall _ _) Hins r Hr) as Hir.
      eapply same_on_trans; [eapply (same_on_room _ _ (Link (val_len val) (val_len val) (fsize f))); [exact Hother|exact Hdr]|].
      intros off n ? ?. apply Hbeyond. unfold inside in Hir. cbn in Hir. lia.
    + eapply separate_limit; [|exact Hsep']. lia.
Qed.

(** What the list of a bucket is around an entry. *)
Section Found.
Context (s : db) (c1 c2 : list (list entry)) (es1 es2 : list entry) (e : entry).
Context (Hinv : inv s (c1 ++ (es1 ++ e :: es2) :: c2)).
Local Abbreviation others := (es1 ++ es2 ++ concat (c1 ++ c2)).

Lemma found_idx : separate (fsize (idx s)) (reg (e_link e) :: header :: ((fun e => reg (e_link e)) <$> others) ++ free_regs (free_node s)).
Proof using Hinv.
  eapply separate_perm; [|exact (bucket_idx _ _ _ _ Hinv)]. unfold idx_regs. rewrite <- app_assoc. cbn [app].
  rewrite <- (Permutation_middle es1). rewrite fmap_cons. cbn. apply Permutation_swap.
Qed.
Lemma found_data : separate (fsize (data s)) (reg (e_vl e) :: ((fun e => reg (e_vl e)) <$> others) ++ free_regs (free_data s)).
Proof using Hinv.
  eapply separate_perm; [|exact (bucket_data _ _ _ _ Hinv)]. unfold data_regs. rewrite <- app_assoc. cbn [app].
  by rewrite <- (Permutation_middle es1).
Qed.
Lemma found_ok : entry_ok e /\ Forall entry_ok (es1 ++ es2).
Proof using Hinv.
  pose proof (bucket_ok _ _ _ _ Hinv) as [H _]. apply Forall_app in H as [H1 H2]. apply Forall_cons in H2 as [He H2].
  split; [done|]. by apply Forall_app.
Qed.
Lemma found_first : e_key e ∉ e_key <$> es1.
Proof using Hinv.
  pose proof (bucket_keys _ _ _ _ Hinv) as H. rewrite fmap_app, fmap_cons in H. apply NoDup_app in H as (_ & H & _).
  intros Hin. apply (H _ Hin). apply elem_of_cons. by left.
Qed.
Lemma found_seg : seg (fbytes (idx s)) es1 (e_link e) /\ node_at (fbytes (idx s)) e (next_of es2 null_link) /\ seg (fbytes (idx s)) es2 null_link.
Proof using Hinv. pose proof (bucket_seg _ _ _ _ Hinv) as H. rewrite seg_app in H. exact H. Qed.
Lemma found_kv : kv (c1 ++ (es1 ++ e :: es2) :: c2) = <[e_key e := e_val e]> (kvl others) /\ kvl others !! e_key e = None.
Proof using Hinv.
  destruct (bucket_kv _ _ _ _ Hinv) as [-> Hn].
  assert (Hp : (es1 ++ e :: es2) ++ concat (c1 ++ c2) ≡ₚ e :: others) by (rewrite <- app_assoc; cbn [app]; by rewrite <- Permutation_middle).
  split; [rewrite (kvl_perm _ _ Hn Hp); done|]. rewrite Hp in Hn. apply kvl_lookup_None. rewrite fmap_cons in Hn. by apply NoDup_cons in Hn as [? _].
Qed.
End Found.

(** A node written over the old one. *)
Lemma rewrite_node_ok f e n' nx r : entry_ok e -> node_len e < 2 ^ 63 - offset (e_link e) -> link_ok nx ->
  inside (fsize f) (reg (e_link e)) -> n' = entry_node (Entry (e_link e) (e_key e) r (e_val e)) nx -> link_ok r ->
  exists f', NodeWriteInplace f n' (offset (e_link e)) = Some f' /\ fsize f' = fsize f /\
    node_at (fbytes f') (Entry (e_link e) (e_key e) r (e_val e)) nx /\
    (forall r', disj (reg (e_link e)) r' -> same_on (fbytes f) (fbytes f') r').
Proof.
  intros (Hk & Hl & _ & _ & _ & Hlen & _) Hroom Hnx Hin -> Hr. unfold NodeWriteInplace.
  set (e' := Entry (e_link e) (e_key e) r (e_val e)).
  destruct (node_roundtrip (entry_node e' nx) [] Hk Hr Hnx) as (rep & Hrep & _). rewrite Hrep. cbn [mbind option_bind].
  pose proof (node_len_spec e' nx rep Hrep) as Hrl. change (node_len e') with (node_len e) in Hrl.
  destruct (Write_ok (Lseek f (offset (e_link e))) rep) as [f' Hw]; [cbn; lia|]. rewrite Hw. exists f'. split; [done|].
  unfold inside in Hin. cbn in Hin. destruct (Write_size _ _ _ Hw) as [Hs _]; [cbn; lia|]. cbn in Hs. split; [lia|]. split.
  - exists rep. split; [done|]. exact (pread_write_same _ _ _ Hw).
  - intros r' Hd. eapply same_on_write; [exact Hw|lia|done].
Qed.

Section Set_.
Context (s : db) (c1 c2 : list (list entry)) (es1 es2 : list entry) (e : entry) (val : string).
Context (Hinv : inv s (c1 ++ (es1 ++ e :: es2) :: c2)).

Lemma set_ok fuel : (length (concat (c1 ++ (es1 ++ e :: es2) :: c2)) < fuel)%nat ->
  fsize (data s) + 2 * val_len val < 2 ^ 63 -> fsize (idx s) < 2 ^ 63 ->
  (val_len val <= val_len (e_val e) \/ fm_lower_bound (free_data s) (val_len val) = None) ->
  exists s' vl, SetInternal fuel (length c1) s (e_key e) val = Some (s', true) /\
    inv s' (c1 ++ (es1 ++ Entry (e_link e) (e_key e) vl val :: es2) :: c2) /\
    cache s' = cache s /\ grown s s' 0 (2 * val_len val).
Proof using Hinv.
  intros Hfuel Hroom Hroomi Hex. unfold SetInternal. rewrite (bucket_head _ _ _ _ Hinv). cbn [mbind option_bind].
  pose proof (bucket_ok _ _ _ _ Hinv) as [Hoks Hokr].
  destruct (Find_present (idx s) es1 e es2 None fuel) as [p ->]; [done|exact (bucket_inside _ _ _ _ Hinv)|exact (bucket_seg _ _ _ _ Hinv)|
    exact (bucket_fuel _ _ _ _ Hfuel)|exact (found_first _ _ _ _ _ _ Hinv)|]. cbn [mbind option_bind entry_node val_link].
  destruct (found_ok _ _ _ _ _ _ Hinv) as [He Hoke]. pose proof He as (Hk & Hl & Hvl & Hnz & Hsz & Hlen & Hvsz & Hvle).
  destruct (set_data_ok (data s) (free_data s) (e_vl e) _ val (found_data _ _ _ _ _ _ Hinv) (inv_fd _ _ Hinv) Hvl Hvle (inv_size _ _ Hinv) Hroom)
    as (vl & f0 & fd & d & Hif & Hw & Hds & Hdr & Hvl' & Hvs' & Hvt' & Hdsame & Hdsep & Hfd).
  { unfold val_len in *. destruct Hex; [left; lia|by right]. }
  rewrite Hif. cbn [mbind option_bind]. rewrite Hw. cbn [mbind option_bind].
  destruct (separate_first _ _ _ (found_idx _ _ _ _ _ _ Hinv)) as [Hein Hed].
  assert (Hnx : link_ok (next_of es2 null_link)). { apply Forall_app in Hoke as [_ ?]. by apply links_ok_next. }
  destruct (rewrite_node_ok (Lseek (idx s) p) e (with_val_link (entry_node e (next_of es2 null_link)) vl) (next_of es2 null_link) vl He)
    as (i & Hni & His & Hnat & Hisame); [unfold inside in Hein; cbn in Hein; lia|done|done|done|done|].
  rewrite Hni. cbn [mbind option_bind fbytes Lseek fsize] in *.
  do 2 eexists. split; [reflexivity|]. split; [|split; [done|unfold grown; cbn; lia]].
  set (e' := Entry (e_link e) (e_key e) vl val).
  apply Forall_cons in Hed as [Hehd Hed]. pose proof (disj_live _ _ _ _ Hed) as Hed'.
  pose proof (same_live (fun e => reg (e_link e)) _ _ _ _ Hed' Hisame) as Hsi.
  pose proof (proj1 (Forall_fmap _ _ _) Hdsame) as Hsd.
  apply Forall_app in Hsi as [Hsi1 Hsi]. apply Forall_app in Hsi as [Hsi2 Hsir]. apply Forall_app in Hsd as [Hsd1 Hsd]. apply Forall_app in Hsd as [Hsd2 Hsdr].
  apply Forall_app in Hoke as [Hok1 Hok2]. pose proof (bucket_vals _ _ _ _ Hinv) as Hv. apply Forall_app in Hv as [Hv1 Hv2]. apply Forall_cons in Hv2 as [_ Hv2].
  destruct (found_seg _ _ _ _ _ _ Hinv) as (Hs1 & _ & Hs2).
  apply (inv_update s _ c1 c2 (es1 ++ e :: es2) (es1 ++ e' :: es2) Hinv); cbn [heads idx data free_node free_data fbytes]; try done.
  - symmetry. apply list_insert_id. rewrite (bucket_head _ _ _ _ Hinv). by rewrite !next_of_app.
  - apply seg_app. split; [by eapply seg_same|]. split; [done|]. by eapply seg_same.
  - pose proof (bucket_hash _ _ _ _ Hinv) as H. apply Forall_app in H as [H1 H2]. apply Forall_cons in H2 as [H0 H2].
    apply Forall_app. split; [done|]. by constructor.
  - pose proof (bucket_keys _ _ _ _ Hinv) as H. by rewrite fmap_app, fmap_cons in *.
  - apply Forall_app. split; [done|]. constructor; [|done]. unfold entry_ok. cbn. repeat (split; [first [done|lia]|]). lia.
  - apply Forall_app. split; [by eapply vals_same|]. constructor; [exact Hdr|by eapply vals_same].
  - rewrite His. eapply separate_perm; [|exact (bucket_idx _ _ _ _ Hinv)]. unfold idx_regs. by rewrite !fmap_app, !fmap_cons.
  - eapply separate_perm; [|exact Hdsep]. unfold data_regs. rewrite <- !app_assoc. cbn [app]. by rewrite <- (Permutation_middle es1).
  - exact (inv_fn _ _ Hinv).
  - eapply heads_kept; [exact Hinv|]. exact (Hisame header Hehd).
  - pose proof (inv_size _ _ Hinv). lia.
Qed.
End Set_.

(** ** Del *)

Section Del.
Context (s : db) (c1 c2 : list (list entry)) (es1 es2 : list entry) (e : entry).
Context (Hinv : inv s (c1 ++ (es1 ++ e :: es2) :: c2)).

(** The node before, or the head, is made to skip the entry. *)
Lemma unlink_ok p : fsize (idx s) < 2 ^ 63 ->
  exists i hs,
    match before es1 (e_link e) None with
    | None => i ← HeadWrite (Lseek (idx s) p) (head_offset (length c1)) (next_of es2 null_link); Some (i, <[length c1 := next_of es2 null_link]> (heads s))
    | Some (prev_np, prev_l) =>
        i ← NodeWriteInplace (Lseek (idx s) p) (with_next prev_np (next_of es2 null_link)) (offset prev_l); Some (i, heads s)
    end = Some (i, hs) /\ fsize i = fsize (idx s) /\ hs = <[length c1 := next_of (es1 ++ es2) null_link]> (heads s) /\
    seg (fbytes i) (es1 ++ es2) null_link /\
    Forall (fun e => same_on (fbytes (idx s)) (fbytes i) (reg (e_link e))) (concat (c1 ++ c2)) /\
    (forall h hd, hs !! h = Some hd -> head_at (fbytes i) h hd).
Proof using Hinv.
  intros Hroom. destruct (found_seg _ _ _ _ _ _ Hinv) as (Hs1 & _ & Hs2). destruct (found_ok _ _ _ _ _ _ Hinv) as [He Hoke].
  assert (Hnx : link_ok (next_of es2 null_link)). { apply Forall_app in Hoke as [_ ?]. by apply links_ok_next. }
  destruct (separate_first _ _ _ (bucket_idx _ _ _ _ Hinv)) as [Hhin Hhd]. pose proof (disj_live _ _ _ _ Hhd) as Hhl.
  destruct es1 as [|q es1' _] using rev_ind.
  - cbn [before last app]. destruct (HeadWrite_ok (Lseek (idx s) p) (length c1) (next_of es2 null_link) (bucket_lt _ _ _ _ Hinv)) as (i & Hw & Hsz & Hat & Hsame & Hoth); [done|].
    rewrite Hw. cbn [mbind option_bind]. do 2 eexists. split; [done|]. split; [done|]. split; [done|].
    pose proof (same_live (fun e => reg (e_link e)) _ _ _ _ Hhl Hsame) as Hsi. cbn [app] in Hsi. apply Forall_cons in Hsi as [_ Hsi].
    apply Forall_app in Hsi as [Hsi2 Hsir]. split; [|split; [done|]].
    + cbn in Hoke. by eapply seg_same.
    + eapply heads_written; [exact Hinv| |done|exact Hoth]. done.
  - unfold before. rewrite last_snoc. apply seg_app in Hs1 as [Hs1 [Hq _]].
    pose proof Hoke as Hok'. apply Forall_app in Hok' as [Hok1 Hok2]. apply Forall_app in Hok1 as [Hok1 Hokq]. apply Forall_cons in Hokq as [Hokq _].
    pose proof (found_idx s c1 c2 es1' (e :: es2) q) as Hsep. rewrite <- app_assoc in Hinv. cbn [app] in Hinv. specialize (Hsep Hinv).
    destruct (separate_first _ _ _ Hsep) as [Hqin Hqd]. apply Forall_cons in Hqd as [Hqh Hqd]. pose proof (disj_live _ _ _ _ Hqd) as Hql.
    destruct (rewrite_node_ok (Lseek (idx s) p) q (with_next (entry_node q (e_link e)) (next_of es2 null_link)) (next_of es2 null_link) (e_vl q) Hokq)
      as (i & Hw & Hsz & Hnat & Hsame); [|done|done|done|by destruct Hokq as (_ & _ & ? & _)|].
    { pose proof Hokq as (_ & _ & _ & _ & _ & ? & _). unfold inside in Hqin. cbn in Hqin. lia. }
    rewrite Hw. cbn [mbind option_bind]. do 2 eexists. split; [done|]. split; [done|].
    pose proof (same_live (fun e => reg (e_link e)) _ _ _ _ Hql Hsame) as Hsi. apply Forall_app in Hsi as [Hsi1 Hsi]. cbn [app] in Hsi.
    apply Forall_cons in Hsi as [_ Hsi]. apply Forall_app in Hsi as [Hsi2 Hsir]. cbn [Lseek fbytes] in *.
    split; [|split; [|split; [done|]]].
    + symmetry. apply list_insert_id. rewrite (bucket_head _ _ _ _ Hinv), <- app_assoc, !next_of_app. done.
    + rewrite <- app_assoc. apply seg_app. cbn [app]. split; [by eapply seg_same|]. split; [|by eapply seg_same]. destruct q. exact Hnat.
    + eapply heads_kept; [exact Hinv|]. exact (Hsame header Hqh).
Qed.

Lemma del_ok fuel : (length (concat (c1 ++ (es1 ++ e :: es2) :: c2)) < fuel)%nat -> fsize (idx s) < 2 ^ 63 ->
  exists s', DelInternal fuel (length c1) s (e_key e) = Some (s', true) /\ inv s' (c1 ++ (es1 ++ es2) :: c2) /\
    cache s' = cache s /\ grown s s' 0 0.
Proof using Hinv.
  intros Hfuel Hroom. unfold DelInternal. rewrite (bucket_head _ _ _ _ Hinv). cbn [mbind option_bind].
  pose proof (bucket_ok _ _ _ _ Hinv) as [Hoks Hokr].
  destruct (Find_present (idx s) es1 e es2 None fuel) as [p ->]; [done|exact (bucket_inside _ _ _ _ Hinv)|exact (bucket_seg _ _ _ _ Hinv)|
    exact (bucket_fuel _ _ _ _ Hfuel)|exact (found_first _ _ _ _ _ _ Hinv)|]. cbn [mbind option_bind entry_node val_link next].
  destruct (unlink_ok p Hroom) as (i & hs & Hu & Hsz & Hhs & Hseg & Hsame & Hheads). unfold entry_node in Hu. rewrite Hu. cbn [mbind option_bind].
  destruct (found_ok _ _ _ _ _ _ Hinv) as [He Hoke]. pose proof He as (Hk & Hl & Hvl & Hnz & Hlsz & Hlen & Hvsz & Hvle).
  eexists. split; [reflexivity|]. split; [|split; [done|unfold grown; cbn; lia]].
  destruct (inv_fn _ _ Hinv) as [Hfn Hfns].
  apply (inv_update s _ c1 c2 (es1 ++ e :: es2) (es1 ++ es2) Hinv); cbn [heads idx data free_node free_data fbytes]; try done.
  - apply Forall_forall. intros x _ off n ? ?. done.
  - pose proof (bucket_hash _ _ _ _ Hinv) as H. apply Forall_app in H as [H1 H2]. apply Forall_cons in H2 as [H0 H2]. by apply Forall_app.
  - pose proof (bucket_keys _ _ _ _ Hinv) as H. rewrite <- Permutation_middle in H. rewrite fmap_cons in H. by apply NoDup_cons in H as [_ ?].
  - pose proof (bucket_vals _ _ _ _ Hinv) as H. apply Forall_app in H as [H1 H2]. apply Forall_cons in H2 as [H0 H2]. by apply Forall_app.
  - rewrite Hsz. eapply separate_sub; [|exact (found_idx _ _ _ _ _ _ Hinv)]. unfold idx_regs. rewrite <- app_assoc.
    rewrite (Permutation_swap header). apply submseteq_skip. rewrite Permutation_middle. apply submseteq_app; [done|]. apply fm_set_regs.
  - eapply separate_sub; [|exact (found_data _ _ _ _ _ _ Hinv)]. unfold data_regs. rewrite <- app_assoc.
    rewrite Permutation_middle. apply submseteq_app; [done|]. apply fm_set_regs.
  - split; [apply fm_set_ok; [done|done|lia]|]. apply Forall_forall. intros x Hx.
    pose proof (elem_of_submseteq _ _ _ Hx (fm_set_sub _ _ _)) as Hin. apply elem_of_cons in Hin as [-> | Hin]; [done|]. exact (proj1 (Forall_forall _ _) Hfns x Hin).
  - apply fm_set_ok; [exact (inv_fd _ _ Hinv)|done|done].
  - exact (inv_size _ _ Hinv).
Qed.
End Del.
