(* ===== verification/DbStore.v ===== *)
(** * The key-value store as a map

    Histories of calls, with closing and opening the store again among them, against the
    map they stand for; and what the store does when freed space is used again. *)

From Stdlib Require Import ZArith Lia Ascii String.
From stdpp Require Import base list gmap strings sorting.
From S2P Require Import Prelude DbFile Db DbSafety DbRefines.

Local Open Scope Z_scope.

(** ** The cache *)

Definition cache_ok (c : lru) (M : gmap string string) : Prop :=
  (forall k v, cache_find c k = Some v -> M !! k = Some v) /\ (length c <= MAX_CACHE_SIZE)%nat.

Lemma cache_find_unlink c key k : cache_find (cache_unlink c key) k = if decide (k = key) then None else cache_find c k.
Proof.
  unfold cache_unlink. induction c as [|[k' v] c IH]; [by destruct (decide _)|]. rewrite filter_cons. cbn [fst].
  destruct (decide (k' <> key)) as [Hne|Heq]; cbn [cache_find].
  - rewrite IH. case_bool_decide; subst; [by rewrite decide_False|done].
  - rewrite IH. destruct (decide (k = key)) as [|Hk]; [done|]. rewrite bool_decide_false; [done|]. intros ->. tauto.
Qed.

Lemma cache_find_take c n k v : cache_find (take n c) k = Some v -> cache_find c k = Some v.
Proof.
  revert n. induction c as [|[k' v'] c IH]; intros [|n]; cbn; try done. case_bool_decide; [done|]. apply IH.
Qed.

Lemma unlink_length c key : (length (cache_unlink c key) <= length c)%nat.
Proof. apply length_filter. Qed.

Lemma cache_unlink_found c key v : cache_find c key = Some v -> (length (cache_unlink c key) < length c)%nat.
Proof.
  unfold cache_unlink. induction c as [|[k' v'] c IH]; [done|]. cbn [cache_find]. rewrite filter_cons. cbn [fst length].
  pose proof (unlink_length c key) as Hl. unfold cache_unlink in Hl. case_bool_decide as Hd.
  - intros _. rewrite decide_False by tauto. lia.
  - intros H. rewrite decide_True by done. cbn [length]. specialize (IH H). lia.
Qed.

Lemma cache_del_ok c M M' key : cache_ok c M -> (forall k, k <> key -> M' !! k = M !! k) -> cache_ok (cache_del c key) M'.
Proof.
  intros [H Hl] HM. split; [|pose proof (unlink_length c key); unfold cache_del; lia].
  intros k v. unfold cache_del. rewrite cache_find_unlink. destruct (decide (k = key)); [done|]. rewrite HM by done. apply H.
Qed.

Lemma cache_front_ok c (M : gmap string string) key v : (forall k w, cache_find c k = Some w -> M !! k = Some w) -> M !! key = Some v ->
  forall k w, cache_find ((key, v) :: c) k = Some w -> M !! k = Some w.
Proof. intros H Hk k w. cbn. case_bool_decide; [|apply H]. subst. by intros [= <-]. Qed.

Lemma cache_get_ok c M key : cache_ok c M ->
  cache_ok (cache_get c key).1 M /\ (forall v, (cache_get c key).2 = Some v -> M !! key = Some v).
Proof.
  intros [H Hl]. unfold cache_get. destruct (cache_find c key) as [v|] eqn:Hf; cbn [fst snd]; [|done].
  split; [|by intros ? [= <-]; apply H]. pose proof (cache_unlink_found _ _ _ Hf). split; [|cbn; lia].
  apply cache_front_ok; [|by apply H]. intros k w. rewrite cache_find_unlink. destruct (decide (k = key)); [done|apply H].
Qed.

Lemma cache_set_ok c M key v : cache_ok c M -> M !! key = Some v -> cache_ok (cache_set c key v) M.
Proof.
  intros [H Hl] Hk. unfold cache_set. destruct (cache_find c key) as [w|] eqn:Hf.
  - pose proof (cache_unlink_found _ _ _ Hf). split; [|cbn; lia]. apply cache_front_ok; [|done].
    intros k w'. rewrite cache_find_unlink. destruct (decide (k = key)); [done|apply H].
  - destruct (Nat.leb_spec MAX_CACHE_SIZE (length c)); (split; [|cbn; rewrite ?length_take; unfold MAX_CACHE_SIZE in *; lia]).
    + apply cache_front_ok; [|done]. intros k w Hw%cache_find_take. by apply H.
    + by apply cache_front_ok.
Qed.

(** ** Appending to a file *)

Definition content (f : file) : list ascii := pread (fbytes f) 0 (Z.to_nat (fsize f)).

Lemma pread_app m off a b : pread m off (a + b) = pread m off a ++ pread m (off + Z.of_nat a) b.
Proof.
  unfold pread. rewrite seq_app, fmap_app. f_equal. rewrite Nat.add_0_l.
  apply list_eq. intros i. rewrite !list_lookup_fmap. destruct (decide (i < b)%nat).
  - rewrite !lookup_seq_lt by done. cbn. do 2 f_equal. lia.
  - rewrite !lookup_seq_ge by lia. done.
Qed.

Lemma append_ok f d : 0 <= fsize f -> fpos f = fsize f -> fsize f + file_len d < 2 ^ 63 ->
  exists f', Write f d = Some f' /\ fpos f' = fsize f' /\ fsize f' = fsize f + file_len d /\ content f' = content f ++ d.
Proof.
  intros Hs Hp Hr. destruct (Write_ok f d) as [f' Hw]; [lia|]. destruct (Write_size _ _ _ Hw) as [Hs' Hp']; [lia|].
  assert (0 <= file_len d) by (unfold file_len; lia). exists f'. split; [done|]. split; [lia|]. split; [lia|]. unfold content.
  replace (Z.to_nat (fsize f')) with (Z.to_nat (fsize f) + length d)%nat by (unfold file_len in *; lia).
  rewrite pread_app. f_equal.
  - apply (pread_write_other _ _ _ _ _ Hw). lia.
  - rewrite <- (pread_write_same _ _ _ Hw) at 2. f_equal. lia.
Qed.

Lemma Read_content f n : 0 <= fpos f -> 0 <= n -> fpos f + n <= fsize f ->
  Read f n = Some (Lseek f (fpos f + n), take (Z.to_nat n) (drop (Z.to_nat (fpos f)) (content f))).
Proof.
  intros. rewrite Read_ok by lia. do 2 f_equal. unfold content.
  replace (Z.to_nat (fsize f)) with (Z.to_nat (fpos f) + (Z.to_nat n + Z.to_nat (fsize f - fpos f - n)))%nat by lia.
  rewrite !pread_app, drop_app_length', take_app_length' by (by rewrite pread_length). f_equal. lia.
Qed.

(** ** Opening a new store *)

Lemma table_size : Z.of_nat HASH_TABLE_SIZE = 4993.
Proof. done. Qed.
#[local] Opaque HASH_TABLE_SIZE.

Lemma write_heads_ok n : forall h f, Z.of_nat (h + n) < 2 ^ 32 -> fsize f = Z.of_nat h * LinkSize ->
  (forall h', (h' < h)%nat -> head_at (fbytes f) h' null_link) ->
  exists f', write_heads f (head_offset h) n = Some f' /\ fsize f' = Z.of_nat (h + n) * LinkSize /\
    forall h', (h' < h + n)%nat -> head_at (fbytes f') h' null_link.
Proof.
  unfold LinkSize. induction n as [|n IH]; intros h f Hn Hs Hh; cbn [write_heads].
  - exists f. rewrite Nat.add_0_r. done.
  - unfold HeadWrite, link_write, head_offset. unfold LinkSize.
    assert (Hle : file_len (link_encode null_link) = 24) by (unfold file_len; by rewrite link_encode_length).
    destruct (Write_ok (Lseek f (Z.of_nat h * 24)) (link_encode null_link)) as [f1 Hw]; [rewrite Hle; cbn [fpos Lseek]; lia|].
    destruct (Write_size _ _ _ Hw) as [Hs1 _]; [cbn [fpos fsize Lseek]; lia|]. cbn [fpos fsize Lseek] in Hs1. rewrite Hle in Hs1.
    rewrite Hw. cbn [mbind option_bind]. destruct (IH (S h) f1) as (f' & Hf' & Hs' & Hh'); [lia|lia| |].
    { intros h' Hlt. destruct (decide (h' = h)) as [->|Hne].
      - unfold head_at, LinkSize. pose proof (pread_write_same _ _ _ Hw) as Hr. by rewrite link_encode_length in Hr.
      - unfold head_at, LinkSize in *. rewrite <- (Hh h') by lia. apply (pread_write_other _ _ _ _ _ Hw). cbn [fpos Lseek]. lia. }
    exists f'. replace (Z.of_nat h * 24 + 24) with (head_offset (S h)) by (unfold head_offset, LinkSize; lia).
    split; [done|]. split; [lia|]. intros h' ?. apply Hh'. lia.
Qed.

Lemma concat_nils (n : nat) : concat (replicate n ([] : list entry)) = [].
Proof. by induction n. Qed.

Lemma new_inv n i : n = HASH_TABLE_SIZE -> fsize i = Z.of_nat n * LinkSize ->
  (forall h, (h < n)%nat -> head_at (fbytes i) h null_link) ->
  inv (Db i empty_file (replicate n null_link) [] [] []) (replicate n []).
Proof.
  intros Hn Hs Hh. constructor; cbn [idx data heads free_node free_data]; rewrite ?concat_nils.
  - by rewrite fmap_replicate.
  - by rewrite length_replicate.
  - by apply Forall_replicate.
  - intros h es [-> _]%lookup_replicate. constructor.
  - apply Forall_replicate. constructor.
  - constructor.
  - constructor.
  - rewrite Hs. split; [|repeat constructor]. unfold idx_regs. cbn [fmap list_fmap app]. apply Forall_singleton.
    unfold inside, header, LinkSize. cbn [fst snd]. rewrite Hn, table_size. lia.
  - split; constructor.
  - split; [split|]; constructor.
  - split; constructor.
  - intros h hd [-> Hlt]%lookup_replicate. by apply Hh.
  - cbn. lia.
Qed.

Lemma open_new_eq n i : write_heads empty_file 0 n = Some i ->
  open_table n None = Some (Db i empty_file (replicate n null_link) [] [] []).
Proof. intros H. unfold open_table. cbn [mbind option_bind InitFreeMaps]. by rewrite H. Qed.

Lemma open_new_ok : exists s, DB_Open None = Some s /\ inv s (replicate HASH_TABLE_SIZE []) /\ cache s = [] /\
  fsize (idx s) = Z.of_nat HASH_TABLE_SIZE * LinkSize /\ fsize (data s) = 0 /\ free_node s = [] /\ free_data s = [].
Proof.
  destruct (write_heads_ok HASH_TABLE_SIZE 0 empty_file) as (i & Hi & Hs & Hh); [rewrite Nat.add_0_l, table_size; lia|done|intros; lia|].
  rewrite Nat.add_0_l in Hs, Hh. eexists. split; [exact (open_new_eq _ i Hi)|]. split; [exact (new_inv _ i eq_refl Hs Hh)|].
  split; [reflexivity|]. split; [exact Hs|]. repeat split.
Qed.

(** ** Opening a store again *)

Lemma read_heads_ok n : forall f h hs, length hs = n ->
  (forall i hd, hs !! i = Some hd -> head_at (fbytes f) (h + i) hd /\ link_ok hd) -> Z.of_nat (h + n) * LinkSize <= fsize f ->
  exists p, read_heads f (head_offset h) n = Some (Lseek f p, hs).
Proof.
  unfold LinkSize. induction n as [|n IH]; intros f h [|hd hs] Hl Hh Hs; cbn in Hl; try lia; cbn [read_heads].
  - exists (fpos f). by destruct f.
  - unfold HeadRead, link_read, head_offset, LinkSize. rewrite Read_ok by (cbn [fpos fsize Lseek]; lia). cbn [mbind option_bind].
    destruct (Hh 0%nat hd eq_refl) as [Hat Hok]. unfold head_at, LinkSize in Hat. rewrite Nat.add_0_r in Hat.
    cbn [fpos fbytes Lseek]. change (Z.to_nat 24) with 24%nat. rewrite Hat, link_roundtrip by done.
    destruct (IH (Lseek (Lseek f (Z.of_nat h * 24)) (Z.of_nat h * 24 + 24)) (S h) hs) as [p Hp]; [lia| |cbn [fsize Lseek]; lia|].
    { intros i x Hx. specialize (Hh (S i) x Hx). rewrite Nat.add_succ_r in Hh. exact Hh. }
    replace (head_offset (S h)) with (Z.of_nat h * 24 + 24) in Hp by (unfold head_offset, LinkSize; lia).
    cbn [Lseek fbytes fsize] in Hp |- *. rewrite Hp. cbn. by exists p.
Qed.

Definition links_bytes (m : free_map) : list ascii := concat ((fun p => link_encode p.2) <$> m).

Lemma links_bytes_length m : length (links_bytes m) = (24 * length m)%nat.
Proof.
  induction m as [|p m IH]; [done|]. change (links_bytes (p :: m)) with (link_encode p.2 ++ links_bytes m).
  rewrite length_app, link_encode_length, IH. cbn [length]. lia.
Qed.

Lemma write_links_ok m : forall f, 0 <= fsize f -> fpos f = fsize f -> fsize f + 24 * Z.of_nat (length m) < 2 ^ 63 ->
  exists f', write_links f m = Some f' /\ fpos f' = fsize f' /\ fsize f' = fsize f + 24 * Z.of_nat (length m) /\
    content f' = content f ++ links_bytes m.
Proof.
  induction m as [|[k l] m IH]; intros f Hs Hp Hr; cbn [write_links].
  - exists f. split; [done|]. split; [done|]. split; [cbn; lia|]. by rewrite app_nil_r.
  - assert (Hle : file_len (link_encode l) = 24) by (unfold file_len; by rewrite link_encode_length). cbn [length] in Hr.
    destruct (append_ok f (link_encode l) Hs Hp) as (f1 & Hw & Hp1 & Hs1 & Hc1); [lia|]. rewrite Hw. cbn [mbind option_bind].
    destruct (IH f1) as (f' & Hf' & Hp' & Hs' & Hc'); [lia|done|lia|]. exists f'. split; [done|]. split; [done|]. split; [cbn [length]; lia|].
    rewrite Hc', Hc1, <- app_assoc. done.
Qed.

(** Putting keys in increasing order appends them. *)
Lemma fm_set_append m k l : Forall (fun p => p.1 < k) m -> fm_set m k l = m ++ [(k, l)].
Proof.
  induction 1 as [|[k' l'] m Hk _ IH]; cbn in *; [done|]. destruct (Z.ltb_spec k k'); [lia|]. destruct (Z.eqb_spec k k'); [lia|]. by rewrite IH.
Qed.

Lemma read_links_ok m : forall f acc rest, 0 <= fpos f -> drop (Z.to_nat (fpos f)) (content f) = links_bytes m ++ rest ->
  free_ok (acc ++ m) -> fpos f + 24 * Z.of_nat (length m) <= fsize f ->
  read_links f (length m) acc = Some (Lseek f (fpos f + 24 * Z.of_nat (length m)), acc ++ m).
Proof.
  induction m as [|[k l] m IH]; intros f acc rest Hp Hc Hok Hs; cbn [length read_links].
  - rewrite app_nil_r, Z.add_0_r. by destruct f.
  - cbn [length] in Hs. rewrite Read_content by (unfold LinkSize; lia). cbn [mbind option_bind].
    assert (Hc' : drop (Z.to_nat (fpos f)) (content f) = link_encode l ++ links_bytes m ++ rest) by (rewrite Hc; change (links_bytes ((k, l) :: m)) with (link_encode l ++ links_bytes m); by rewrite app_assoc).
    rewrite Hc'. change (Z.to_nat LinkSize) with 24%nat. rewrite take_app_length' by (by rewrite link_encode_length).
    pose proof Hok as [Hsrt Hall]. apply Forall_app in Hall as [Ha Hm]. apply Forall_cons in Hm as [(Hk & Hl & _) Hm]. cbn [fst snd] in *.
    rewrite link_roundtrip by done. rewrite <- Hk. rewrite fm_set_append.
    2: { rewrite fmap_app, fmap_cons in Hsrt. apply StronglySorted_app in Hsrt as (Hlt & _ & _). apply Forall_forall. intros x Hx.
         apply Hlt; [by apply list_elem_of_fmap_2|]. apply elem_of_cons. by left. }
    cbn [fpos Lseek]. unfold LinkSize. rewrite (IH (Lseek f (fpos f + 24)) (acc ++ [(k, l)]) rest); cbn [fpos fsize Lseek]; [|lia| |by rewrite <- app_assoc|lia].
    + unfold Lseek. cbn [fbytes fsize]. rewrite <- app_assoc. cbn [app]. do 3 f_equal. lia.
    + change (content (Lseek f (fpos f + 24))) with (content f). replace (Z.to_nat (fpos f + 24)) with (Z.to_nat (fpos f) + 24)%nat by lia.
      rewrite <- drop_drop, Hc'. apply drop_app_length'. by rewrite link_encode_length.
Qed.

Lemma free_maps_roundtrip fn fd : free_ok fn -> free_ok fd -> Z.of_nat (length fn) < 2 ^ 31 -> Z.of_nat (length fd) < 2 ^ 31 ->
  exists f, WriteFreeMaps fn fd = Some f /\ InitFreeMaps (Some f) = Some (fn, fd).
Proof.
  intros Hfn Hfd Hln Hld. unfold WriteFreeMaps. unfold wrap. rewrite !Z.mod_small by lia.
  assert (Hle : forall x, file_len (le 4 x) = 4) by (intros; unfold file_len; by rewrite le_length).
  destruct (append_ok empty_file (le 4 (Z.of_nat (length fn)))) as (f1 & Hw1 & Hp1 & Hs1 & Hc1); [done|done|rewrite Hle; cbn; lia|].
  rewrite Hw1. cbn [mbind option_bind]. rewrite Hle in Hs1. cbn [fsize empty_file] in Hs1.
  destruct (append_ok f1 (le 4 (Z.of_nat (length fd)))) as (f2 & Hw2 & Hp2 & Hs2 & Hc2); [lia|done|rewrite Hle; lia|].
  rewrite Hw2. cbn [mbind option_bind]. rewrite Hle in Hs2.
  destruct (write_links_ok fn f2) as (f3 & Hw3 & Hp3 & Hs3 & Hc3); [lia|done|lia|]. rewrite Hw3. cbn [mbind option_bind].
  destruct (write_links_ok fd f3) as (f & Hw & Hp & Hs & Hc); [lia|done|lia|]. exists f. split; [done|].
  assert (Hcont : content f = le 4 (Z.of_nat (length fn)) ++ le 4 (Z.of_nat (length fd)) ++ links_bytes fn ++ links_bytes fd ++ []).
  { rewrite Hc, Hc3, Hc2, Hc1, app_nil_r, <- !app_assoc. done. }
  assert (Hck : forall p, content (Lseek f p) = content f) by done.
  unfold InitFreeMaps. rewrite (Read_content (Lseek f 0)) by (cbn [fpos fsize Lseek]; lia). cbn [mbind option_bind].
  change (Lseek (Lseek f 0) (fpos (Lseek f 0) + 4)) with (Lseek f (0 + 4)).
  rewrite (Read_content (Lseek f (0 + 4))) by (cbn [fpos fsize Lseek]; lia). cbn [mbind option_bind]. rewrite !Hck.
  change (Lseek (Lseek f (0 + 4)) (fpos (Lseek f (0 + 4)) + 4)) with (Lseek f 8). cbn [fpos Lseek].
  change (Z.to_nat 0) with 0%nat. change (Z.to_nat (0 + 4)) with 4%nat. change (Z.to_nat 4) with 4%nat. rewrite drop_0, Hcont.
  rewrite take_app_length', drop_app_length', take_app_length' by (by rewrite le_length).
  assert (Hu : forall n, Z.of_nat n < 2 ^ 31 -> Z.to_nat (to_signed 32 (unle (le 4 (Z.of_nat n)))) = n).
  { intros n Hn. rewrite unle_le by (change (256 ^ Z.of_nat 4) with (2 ^ 32); lia). unfold to_signed, wrap. rewrite Z.mod_small by lia.
    rewrite (proj2 (Z.ltb_lt (Z.of_nat n) (2 ^ (32 - 1)))) by (cbn; lia). lia. }
  rewrite !Hu by done.
  change (File (fbytes f) (fsize f) 8) with (Lseek f 8).
  rewrite (read_links_ok fn _ [] (links_bytes fd ++ [])); cbn [fpos fsize Lseek]; [|lia| |done|lia].
  2: { change (File (fbytes f) (fsize f) 8) with (Lseek f 8). rewrite Hck, Hcont. rewrite app_assoc. apply drop_app_length'. by rewrite length_app, !le_length. }
  cbn [mbind option_bind app fbytes fsize].
  rewrite (read_links_ok fd _ [] []); cbn [fpos fsize Lseek]; [done|lia| |done|lia].
  match goal with |- context [content ?g] => change (content g) with (content f) end. rewrite Hcont. rewrite !app_assoc, <- (app_assoc _ _ []). apply drop_app_length'.
  rewrite !length_app, !le_length, links_bytes_length. lia.
Qed.

Definition reopen (s : db) : option db := d ← DB_Close s; DB_Open (Some d).

Lemma open_again_eq n d f fn fd p hs : d_free d = Some f -> InitFreeMaps (Some f) = Some (fn, fd) ->
  read_heads (d_idx d) 0 n = Some (Lseek (d_idx d) p, hs) ->
  open_table n (Some d) = Some (Db (Lseek (d_idx d) p) (d_data d) hs fn fd []).
Proof. intros Hf Hi Hr. unfold open_table. cbn [mbind option_bind]. by rewrite Hf, Hi, Hr. Qed.

Lemma reopen_inv s chains p : inv s chains ->
  inv (Db (Lseek (idx s) p) (data s) (heads s) (free_node s) (free_data s) []) chains.
Proof. intros []. by constructor. Qed.

Lemma reopen_ok s chains : inv s chains -> Z.of_nat (length (free_node s)) < 2 ^ 31 -> Z.of_nat (length (free_data s)) < 2 ^ 31 ->
  exists s', reopen s = Some s' /\ inv s' chains /\ cache s' = [] /\ fsize (idx s') = fsize (idx s) /\ fsize (data s') = fsize (data s) /\
    free_node s' = free_node s /\ free_data s' = free_data s.
Proof.
  intros Hinv Hn Hd. unfold reopen, DB_Close.
  destruct (free_maps_roundtrip (free_node s) (free_data s)) as (f & Hw & Hr); [apply (inv_fn _ _ Hinv)|apply (inv_fd _ _ Hinv)|done|done|].
  rewrite Hw. cbn [mbind option_bind]. unfold DB_Open.
  destruct (read_heads_ok HASH_TABLE_SIZE (idx s) 0 (heads s)) as [p Hp].
  - by rewrite (inv_heads _ _ Hinv), length_fmap, (inv_len _ _ Hinv).
  - intros i hd Hi. split; [by apply (inv_disk _ _ Hinv)|]. rewrite (inv_heads _ _ Hinv), list_lookup_fmap in Hi.
    destruct (chains !! i) as [es|] eqn:He; [|done]. injection Hi as <-. apply links_ok_next.
    pose proof (inv_ok _ _ Hinv) as Hok. apply Forall_forall. intros e Hin. apply (proj1 (Forall_forall _ _) Hok).
    apply list_elem_of_In, in_concat. exists es. split; apply list_elem_of_In; [|done]. by apply list_elem_of_lookup_2 with i.
  - pose proof (inv_idx _ _ Hinv) as [Hi _]. apply Forall_cons in Hi as [(_ & _ & Hi) _]. exact Hi.
  - rewrite (open_again_eq _ (Disk (idx s) (data s) (Some f)) f _ _ p (heads s) eq_refl Hr Hp).
    eexists. split; [reflexivity|]. split; [exact (reopen_inv s chains p Hinv)|]. done.
Qed.

(** ** Keys *)

(** Keys without zero bytes and without bytes above 127. *)
Definition plain_key (k : string) : Prop := Forall (fun c => 0 < char_u c < 128) (bytes_of k) /\ str_size k < 2 ^ 31.

Lemma cstr_plain k : Forall (fun c => 0 < char_u c < 128) (bytes_of k) -> cstr k = bytes_of k.
Proof.
  induction k as [|c k IH]; [done|]. intros [Hc Hk]%Forall_cons. cbn. rewrite (proj2 (Z.eqb_neq _ 0)) by lia. f_equal. by apply IH.
Qed.

Lemma plain_key_ok k : plain_key k -> key_ok k.
Proof.
  intros [Hf Hl]. rewrite <- length_bytes_of in Hl. split; [by apply cstr_plain|]. rewrite (cstr_plain k Hf). exact Hl.
Qed.

Lemma hash_plain k : plain_key k -> 0 <= hash k < Z.of_nat HASH_TABLE_SIZE.
Proof.
  intros [Hf _]. unfold hash. rewrite (cstr_plain k Hf). rewrite table_size.
  assert (H : forall l h, Forall (fun c => 0 < char_u c < 128) l -> 0 <= h < 4993 ->
    0 <= fold_left (fun h c => Z.rem (31 * h + char_s c) 4993) l h < 4993).
  { induction l as [|c l IH]; cbn; intros h Hl Hh; [done|]. apply Forall_cons in Hl as [Hc Hl]. apply IH; [done|].
    assert (char_s c = char_u c) as ->.
    { unfold char_s, to_signed, wrap. rewrite Z.mod_small by (change (2 ^ 8) with 256; lia).
      by rewrite (proj2 (Z.ltb_lt _ _)) by (change (2 ^ (8 - 1)) with 128; lia). }
    apply Z.rem_bound_pos; lia. }
  apply H; [done|lia].
Qed.

(** ** Histories *)

Inductive db_op := OpAdd (key val : string) | OpSet (key val : string) | OpDel (key : string) | OpGet (key : string) | OpReopen.
Inductive answer := Done (ok : bool) | Value (v : option string) | Opened.

Definition db_step (fuel : nat) (s : db) (o : db_op) : option (db * answer) :=
  match o with
  | OpAdd k v => '(s, b) ← DB_Add fuel s k v; Some (s, Done b)
  | OpSet k v => '(s, b) ← DB_Set fuel s k v; Some (s, Done b)
  | OpDel k => '(s, b) ← DB_Del fuel s k; Some (s, Done b)
  | OpGet k => '(s, r) ← DB_Get fuel s k; Some (s, Value r)
  | OpReopen => s ← reopen s; Some (s, Opened)
  end.

Fixpoint db_run (fuel : nat) (s : db) (ops : list db_op) : option (db * list answer) :=
  match ops with
  | [] => Some (s, [])
  | o :: ops => '(s, a) ← db_step fuel s o; '(s, r) ← db_run fuel s ops; Some (s, a :: r)
  end.

(** The contract: [Add] of a key that is there, [Set] and [Del] of one that is not, fail. *)
Definition spec_step (M : gmap string string) (o : db_op) : gmap string string * answer :=
  match o with
  | OpAdd k v => match M !! k with Some _ => (M, Done false) | None => (<[k := v]> M, Done true) end
  | OpSet k v => match M !! k with Some _ => (<[k := v]> M, Done true) | None => (M, Done false) end
  | OpDel k => match M !! k with Some _ => (delete k M, Done true) | None => (M, Done false) end
  | OpGet k => (M, Value (M !! k))
  | OpReopen => (M, Opened)
  end.

Fixpoint spec_run (M : gmap string string) (ops : list db_op) : gmap string string * list answer :=
  match ops with
  | [] => (M, [])
  | o :: ops => let '(M, a) := spec_step M o in let '(M, r) := spec_run M ops in (M, a :: r)
  end.

(** Keys of 7-bit characters, and freed data space is used only where that does no harm:
    [Add] finds none that is large enough, or some whose last value was exactly as long; [Set]
    stays within the old value or finds none at all, as it would write over what follows. *)
Definition sound_op (s : db) (M : gmap string string) (o : db_op) : Prop :=
  match o with
  | OpAdd k v => plain_key k /\ match M !! k with Some _ => True | None => exact_room (free_data s) (val_len v) end
  | OpSet k v => plain_key k /\
      match M !! k with
      | Some old => val_len v <= val_len old \/ fm_lower_bound (free_data s) (val_len v) = None
      | None => True
      end
  | OpDel k | OpGet k => plain_key k
  | OpReopen => Z.of_nat (length (free_node s)) < 2 ^ 31 /\ Z.of_nat (length (free_data s)) < 2 ^ 31
  end.

Fixpoint sound_run (fuel : nat) (s : db) (M : gmap string string) (ops : list db_op) : Prop :=
  match ops with
  | [] => True
  | o :: ops => sound_op s M o /\
      match db_step fuel s o with Some (s', _) => sound_run fuel s' (spec_step M o).1 ops | None => True end
  end.

(** How much a call adds to a file at most. *)
Definition op_cost (o : db_op) : Z :=
  match o with
  | OpAdd k v => key_len k + val_len v
  | OpSet k v => 2 * val_len v
  | OpDel _ | OpGet _ | OpReopen => 0
  end.
Definition run_cost (ops : list db_op) : Z := foldr (fun o n => op_cost o + n) 0 ops.

(** ** One call *)

Definition good (s : db) (M : gmap string string) (n : nat) (z : Z) : Prop :=
  exists chains, inv s chains /\ kv chains = M /\ cache_ok (cache s) M /\ (length (concat chains) <= n)%nat /\
    fsize (idx s) <= z /\ fsize (data s) <= z.

Lemma inv_cache s c chains : inv s chains -> inv (with_cache s c) chains.
Proof. intros []. by constructor. Qed.

Lemma inv_seek s chains p c : inv s chains -> inv (Db (Lseek (idx s) p) (data s) (heads s) (free_node s) (free_data s) c) chains.
Proof. intros []. by constructor. Qed.

Lemma split_bucket s chains key : inv s chains -> plain_key key ->
  exists c1 es c2, chains = c1 ++ es :: c2 /\ length c1 = Z.to_nat (hash key) /\ hash key = Z.of_nat (length c1) /\ 0 <= hash key.
Proof.
  intros Hinv Hk. pose proof (hash_plain key Hk). destruct (lookup_lt_is_Some_2 chains (Z.to_nat (hash key))) as [es He].
  { rewrite (inv_len _ _ Hinv). lia. }
  exists (take (Z.to_nat (hash key)) chains), es, (drop (S (Z.to_nat (hash key))) chains).
  rewrite take_drop_middle by done. apply lookup_lt_Some in He. rewrite length_take. repeat split; try lia.
Qed.

Lemma split_entry key es : key ∈ e_key <$> es -> exists es1 e es2, es = es1 ++ e :: es2 /\ e_key e = key.
Proof.
  intros (e & -> & He)%list_elem_of_fmap. apply list_elem_of_split in He as (es1 & es2 & ->). by exists es1, e, es2.
Qed.

Lemma bucket_eq {A} key (k : nat -> option A) h : 0 <= hash key -> h = Z.to_nat (hash key) -> bucket key k = k h.
Proof. intros H ->. unfold bucket. by rewrite (proj2 (Z.leb_le 0 _) H). Qed.

Lemma good_weaken s M n z n' z' : good s M n z -> (n <= n')%nat -> z <= z' -> good s M n' z'.
Proof. intros (chains & ? & ? & ? & ? & ? & ?) ? ?. exists chains. repeat (split; [done|]). split; [lia|]. split; lia. Qed.

Lemma key_len_pos k : 53 <= key_len k.
Proof. unfold key_len, file_len. lia. Qed.
Lemma val_len_pos v : 0 <= val_len v.
Proof. unfold val_len, file_len. lia. Qed.

Section Call.
Context (fuel : nat) (s : db) (M : gmap string string) (n : nat) (z : Z).
Context (Hgood : good s M n z) (Hfuel : (n < fuel)%nat).

(** The outcome of a call. *)
Definition call_ok (o : db_op) : Prop :=
  exists s', db_step fuel s o = Some (s', (spec_step M o).2) /\ good s' (spec_step M o).1 (S n) (z + op_cost o).

Lemma cache_del_insert key v : forall k, k <> key -> (<[key := v]> M) !! k = M !! k.
Proof using. intros. by rewrite lookup_insert_ne. Qed.

(** A bucket's list, with the key out of the cache. *)
Lemma call_bucket key : plain_key key -> exists c1 es c2, inv s (c1 ++ es :: c2) /\ kv (c1 ++ es :: c2) = M /\
  cache_ok (cache s) M /\ (length (concat (c1 ++ es :: c2)) <= n)%nat /\ fsize (idx s) <= z /\ fsize (data s) <= z /\
  hash key = Z.of_nat (length c1) /\ (forall A (k : nat -> option A), bucket key k = k (length c1)).
Proof using Hgood.
  intros Hk. destruct Hgood as (chains & Hinv & Hkv & Hc & Hn & Hi & Hd).
  destruct (split_bucket s chains key Hinv Hk) as (c1 & es & c2 & -> & Hl & Hh & Hp). exists c1, es, c2.
  repeat (split; [done|]). intros A k. by apply bucket_eq.
Qed.

Lemma absent_call key c : plain_key key -> M !! key = None -> cache_ok c M ->
  exists p, (forall c1 es c2, inv s (c1 ++ es :: c2) -> hash key = Z.of_nat (length c1) -> (length (concat (c1 ++ es :: c2)) <= n)%nat ->
    kv (c1 ++ es :: c2) = M -> Find fuel (idx s) key (next_of es null_link) None = Some (Lseek (idx s) p, None)) /\
    good (Db (Lseek (idx s) p) (data s) (heads s) (free_node s) (free_data s) c) M n z.
Proof using Hgood Hfuel.
  intros Hk Hno Hc. destruct (call_bucket key Hk) as (c1 & es & c2 & Hinv & Hkv & _ & Hn & Hi & Hd & Hh & _).
  rewrite <- Hkv in Hno. apply (bucket_absent _ _ _ _ Hinv key Hh) in Hno as Hab.
  destruct (bucket_find_absent _ _ _ _ Hinv fuel ltac:(lia) key Hab) as [p Hp]. exists p. split.
  - intros c1' es' c2' Hinv' Hh' Hn' _. assert (Hhd := bucket_head _ _ _ _ Hinv'). rewrite Hh in Hh'. apply Nat2Z.inj in Hh'.
    rewrite <- Hh' in Hhd. rewrite (bucket_head _ _ _ _ Hinv) in Hhd. injection Hhd as <-. exact Hp.
  - exists (c1 ++ es :: c2). split; [by apply inv_seek|]. done.
Qed.

Lemma add_call key val : sound_op s M (OpAdd key val) -> z + op_cost (OpAdd key val) < 2 ^ 63 -> call_ok (OpAdd key val).
Proof using Hgood Hfuel.
  intros [Hk Hex] Hz. destruct (call_bucket key Hk) as (c1 & es & c2 & Hinv & Hkv & Hc & Hn & Hi & Hd & Hh & Hb).
  pose proof (key_len_pos key). pose proof (val_len_pos val). cbn [op_cost] in *.
  unfold call_ok. cbn [db_step spec_step op_cost]. unfold DB_Add. rewrite Hb. unfold list_Add, Writer.
  destruct (M !! key) as [old|] eqn:Hl; cbn [fst snd] in *.
  - destruct (decide (key ∈ e_key <$> es)) as [Hin|Hnin].
    2: { apply (bucket_absent _ _ _ _ Hinv key Hh) in Hnin. congruence. }
    apply split_entry in Hin as (es1 & e & es2 & -> & <-). pose proof (bucket_ok _ _ _ _ Hinv) as [Hok _].
    destruct (Find_present (idx s) es1 e es2 None fuel) as [p Hp]; [done|exact (bucket_inside _ _ _ _ Hinv)|exact (bucket_seg _ _ _ _ Hinv)|
      apply (bucket_fuel c1 c2 _ fuel); lia|exact (found_first _ _ _ _ _ _ Hinv)|].
    unfold AddInternal. cbn [heads idx with_cache]. rewrite (bucket_head _ _ _ _ Hinv). cbn [mbind option_bind]. rewrite Hp. cbn [mbind option_bind].
    eexists. split; [reflexivity|]. apply (good_weaken _ _ n z); [|lia|lia]. eexists. split; [exact (inv_seek s _ p _ Hinv)|]. split; [done|].
    split; [|done]. cbn. eapply cache_del_ok; [done|done].
  - rewrite <- Hkv in Hl. apply (bucket_absent _ _ _ _ Hinv key Hh) in Hl as Hab.
    destruct (add_ok (with_cache s (cache_del (cache s) key)) c1 c2 es key val (inv_cache _ _ _ Hinv) (plain_key_ok _ Hk) Hh) with (fuel := fuel)
      as (s' & e & Ha & Hinv' & Hek & Hev & Hc' & Hg); [cbn; lia|cbn; lia|lia|done|done|].
    rewrite Ha. cbn [mbind option_bind]. exists s'. split; [done|]. exists (c1 ++ (e :: es) :: c2). split; [done|]. unfold grown in Hg. cbn in Hg.
    assert (Hkv' : kv (c1 ++ (e :: es) :: c2) = <[key := val]> M).
    { rewrite (proj1 (bucket_kv _ _ _ _ Hinv')). cbn [app]. rewrite kvl_cons, Hek, Hev, <- Hkv. f_equal. symmetry. apply (bucket_kv _ _ _ _ Hinv). }
    split; [done|]. split; [rewrite Hc'; eapply cache_del_ok; [done|apply cache_del_insert]|].
    rewrite update_perm in Hn |- *. rewrite length_app in *. cbn [length]. split; [lia|]. split; lia.
Qed.

Lemma set_call key val : sound_op s M (OpSet key val) -> z + op_cost (OpSet key val) < 2 ^ 63 -> call_ok (OpSet key val).
Proof using Hgood Hfuel.
  intros [Hk Hex] Hz. destruct (call_bucket key Hk) as (c1 & es & c2 & Hinv & Hkv & Hc & Hn & Hi & Hd & Hh & Hb).
  pose proof (val_len_pos val). cbn [op_cost] in *.
  unfold call_ok. cbn [db_step spec_step op_cost]. unfold DB_Set. rewrite Hb. unfold list_Set, Writer.
  destruct (M !! key) as [old|] eqn:Hl; cbn [fst snd] in *.
  - destruct (decide (key ∈ e_key <$> es)) as [Hin|Hnin].
    2: { apply (bucket_absent _ _ _ _ Hinv key Hh) in Hnin. congruence. }
    apply split_entry in Hin as (es1 & e & es2 & -> & <-). destruct (found_kv _ _ _ _ _ _ Hinv) as [Hfk _].
    assert (old = e_val e) as ->. { rewrite <- Hkv, Hfk, lookup_insert_eq in Hl. congruence. }
    destruct (set_ok (with_cache s (cache_del (cache s) (e_key e))) c1 c2 es1 es2 e val (inv_cache _ _ _ Hinv) fuel)
      as (s' & vl & Ha & Hinv' & Hc' & Hg); [lia|cbn; lia|cbn; lia|done|].
    rewrite Ha. cbn [mbind option_bind]. exists s'. split; [done|]. eexists. split; [exact Hinv'|]. unfold grown in Hg. cbn in Hg.
    split. { rewrite (proj1 (found_kv _ _ _ _ _ _ Hinv')). cbn [e_key e_val]. rewrite <- Hkv, Hfk. by rewrite insert_insert_eq. }
    split; [rewrite Hc'; eapply cache_del_ok; [done|apply cache_del_insert]|].
    rewrite update_perm in Hn |- *. rewrite !length_app in *. cbn [length] in *. split; [lia|]. split; lia.
  - edestruct (absent_call key (cache_del (cache s) key) Hk Hl) as (p & Hp & Hg); [eapply cache_del_ok; [done|done]|].
    unfold SetInternal. cbn [heads idx with_cache]. rewrite (bucket_head _ _ _ _ Hinv). cbn [mbind option_bind].
    rewrite (Hp c1 es c2) by done. cbn [mbind option_bind]. eexists. split; [reflexivity|]. apply (good_weaken _ _ n z); [exact Hg|lia|lia].
Qed.

Lemma del_call key : sound_op s M (OpDel key) -> z < 2 ^ 63 -> call_ok (OpDel key).
Proof using Hgood Hfuel.
  intros Hk Hz. destruct (call_bucket key Hk) as (c1 & es & c2 & Hinv & Hkv & Hc & Hn & Hi & Hd & Hh & Hb).
  unfold call_ok. cbn [db_step spec_step op_cost]. unfold DB_Del. rewrite Hb. unfold list_Del, Writer.
  destruct (M !! key) as [old|] eqn:Hl; cbn [fst snd] in *.
  - destruct (decide (key ∈ e_key <$> es)) as [Hin|Hnin].
    2: { apply (bucket_absent _ _ _ _ Hinv key Hh) in Hnin. congruence. }
    apply split_entry in Hin as (es1 & e & es2 & -> & <-). destruct (found_kv _ _ _ _ _ _ Hinv) as [Hfk Hno].
    destruct (del_ok (with_cache s (cache_del (cache s) (e_key e))) c1 c2 es1 es2 e (inv_cache _ _ _ Hinv) fuel)
      as (s' & Ha & Hinv' & Hc' & Hg); [lia|cbn; lia|].
    rewrite Ha. cbn [mbind option_bind]. exists s'. split; [done|]. eexists. split; [exact Hinv'|]. unfold grown in Hg. cbn in Hg.
    split. { rewrite (proj1 (bucket_kv _ _ _ _ Hinv')), <- app_assoc, <- Hkv, Hfk. by rewrite delete_insert_id. }
    split; [rewrite Hc'; eapply cache_del_ok; [done|]; intros k ?; by rewrite lookup_delete_ne|].
    rewrite update_perm in Hn |- *. rewrite !length_app in *. cbn [length] in *. split; [lia|]. split; lia.
  - edestruct (absent_call key (cache_del (cache s) key) Hk Hl) as (p & Hp & Hg); [eapply cache_del_ok; [done|done]|].
    unfold DelInternal. cbn [heads idx with_cache]. rewrite (bucket_head _ _ _ _ Hinv). cbn [mbind option_bind].
    rewrite (Hp c1 es c2) by done. cbn [mbind option_bind]. eexists. split; [reflexivity|]. apply (good_weaken _ _ n z); [exact Hg|lia|lia].
Qed.

Lemma get_call key : sound_op s M (OpGet key) -> call_ok (OpGet key).
Proof using Hgood Hfuel.
  intros Hk. destruct (call_bucket key Hk) as (c1 & es & c2 & Hinv & Hkv & Hc & Hn & Hi & Hd & Hh & Hb).
  unfold call_ok. cbn [db_step spec_step op_cost fst snd]. unfold DB_Get. rewrite Hb. unfold list_Get.
  destruct (cache_get_ok _ _ key Hc) as [Hc' Hv]. destruct (cache_get (cache s) key) as [c [v|]] eqn:Hcg; cbn [fst snd] in *.
  - cbn [mbind option_bind]. rewrite (Hv v eq_refl). eexists. split; [reflexivity|]. apply (good_weaken _ _ n z); [|lia|lia].
    eexists. split; [apply inv_cache; exact Hinv|]. done.
  - rewrite (bucket_head _ _ _ _ Hinv). cbn [mbind option_bind]. destruct (M !! key) as [old|] eqn:Hl.
    + destruct (decide (key ∈ e_key <$> es)) as [Hin|Hnin].
      2: { apply (bucket_absent _ _ _ _ Hinv key Hh) in Hnin. congruence. }
      apply split_entry in Hin as (es1 & e & es2 & -> & <-). destruct (found_kv _ _ _ _ _ _ Hinv) as [Hfk _].
      assert (old = e_val e) as ->. { rewrite <- Hkv, Hfk, lookup_insert_eq in Hl. congruence. }
      pose proof (bucket_ok _ _ _ _ Hinv) as [Hok _]. pose proof (found_ok _ _ _ _ _ _ Hinv) as [He _].
      destruct (Find_present (idx s) es1 e es2 None fuel) as [p Hp]; [done|exact (bucket_inside _ _ _ _ Hinv)|exact (bucket_seg _ _ _ _ Hinv)|
        apply (bucket_fuel c1 c2 _ fuel); lia|exact (found_first _ _ _ _ _ _ Hinv)|].
      rewrite Hp. cbn [mbind option_bind entry_node val_link].
      destruct (GetVal_ok (data s) e He) as [q Hq].
      { pose proof (bucket_vals _ _ _ _ Hinv) as Hvs. apply Forall_app in Hvs as [_ Hvs]. by apply Forall_cons in Hvs as [? _]. }
      { exact (proj1 (separate_first _ _ _ (found_data _ _ _ _ _ _ Hinv))). }
      rewrite Hq. cbn [mbind option_bind]. eexists. split; [reflexivity|]. apply (good_weaken _ _ n z); [|lia|lia].
      eexists. split; [|split; [exact Hkv|]]. { destruct Hinv. by constructor. }
      cbn [cache idx data fsize Lseek]. split; [by apply cache_set_ok|]. done.
    + destruct (absent_call key c Hk Hl Hc') as (p & Hp & Hg).
      rewrite (Hp c1 es c2) by done. cbn [mbind option_bind]. eexists. split; [reflexivity|]. apply (good_weaken _ _ n z); [exact Hg|lia|lia].
Qed.

Lemma reopen_call : sound_op s M OpReopen -> call_ok OpReopen.
Proof using Hgood Hfuel.
  intros [Hn Hd]. destruct Hgood as (chains & Hinv & Hkv & Hc & Hl & Hi & Hdd). unfold call_ok. cbn [db_step spec_step op_cost fst snd].
  destruct (reopen_ok s chains Hinv Hn Hd) as (s' & Hr & Hinv' & Hc' & Hi' & Hd' & _). rewrite Hr. cbn [mbind option_bind].
  exists s'. split; [done|]. exists chains. split; [done|]. split; [done|]. rewrite Hc'. split; [split; [done|cbn; lia]|]. split; [lia|]. lia.
Qed.

Lemma call_spec o : sound_op s M o -> z + op_cost o < 2 ^ 63 -> call_ok o.
Proof using Hgood Hfuel.
  destruct o; intros Hs Hz; [by apply add_call|by apply set_call|apply del_call|by apply get_call|by apply reopen_call]; [done|cbn in *; lia].
Qed.
End Call.

Lemma op_cost_pos o : 0 <= op_cost o.
Proof. destruct o; cbn [op_cost]; rewrite ?key_len_pos; try pose proof (val_len_pos val); try pose proof (key_len_pos key); lia. Qed.

Lemma run_cost_pos ops : 0 <= run_cost ops.
Proof.
  induction ops as [|o ops IH]; [done|]. change (run_cost (o :: ops)) with (op_cost o + run_cost ops).
  pose proof (op_cost_pos o). lia.
Qed.

Lemma db_run_ok fuel ops : forall s M n z, good s M n z -> (n + length ops < fuel)%nat -> z + run_cost ops < 2 ^ 63 ->
  sound_run fuel s M ops ->
  exists s' n' z', db_run fuel s ops = Some (s', (spec_run M ops).2) /\ good s' (spec_run M ops).1 n' z'.
Proof.
  induction ops as [|o ops IH]; intros s M n z Hg Hf Hz Hs; [by exists s, n, z|]. destruct Hs as [Ho Hs]. cbn [length] in Hf.
  change (run_cost (o :: ops)) with (op_cost o + run_cost ops) in Hz.
  pose proof (run_cost_pos ops) as Hrc.
  destruct (call_spec fuel s M n z Hg ltac:(lia) o Ho ltac:(lia)) as (s1 & Hstep & Hg1). rewrite Hstep in Hs.
  destruct (IH _ _ _ _ Hg1 ltac:(lia) ltac:(lia) Hs) as (s' & n' & z' & Hr & Hg').
  exists s', n', z'. cbn [db_run spec_run]. rewrite Hstep. cbn [mbind option_bind]. rewrite Hr. cbn [mbind option_bind].
  destruct (spec_step M o) as [M1 a]. cbn [fst snd] in *. destruct (spec_run M1 ops) as [M2 r]. done.
Qed.

(** ** The store *)

Definition db_history (fuel : nat) (ops : list db_op) : option (db * list answer) :=
  s ← DB_Open None; db_run fuel s ops.
Definition sound_history (fuel : nat) (ops : list db_op) : Prop :=
  match DB_Open None with Some s => sound_run fuel s ∅ ops | None => False end.

Lemma db_history_good fuel ops : (length ops < fuel)%nat ->
  Z.of_nat HASH_TABLE_SIZE * LinkSize + run_cost ops < 2 ^ 63 -> sound_history fuel ops ->
  exists s s' n z, DB_Open None = Some s /\ db_run fuel s ops = Some (s', (spec_run ∅ ops).2) /\ good s' (spec_run ∅ ops).1 n z.
Proof.
  intros Hf Hz Hs. unfold sound_history in *.
  destruct open_new_ok as (s & Ho & Hinv & Hc & Hi & Hd & _). rewrite Ho in Hs |- *.
  destruct (db_run_ok fuel ops s ∅ 0 (Z.of_nat HASH_TABLE_SIZE * LinkSize)) as (s' & n & z & Hr & Hg); [|exact Hf|exact Hz|exact Hs|].
  - exists (replicate HASH_TABLE_SIZE []). split; [exact Hinv|]. split; [unfold kv; by rewrite concat_nils|]. rewrite Hc.
    split; [split; [done|cbn; lia]|]. rewrite concat_nils. split; [cbn; lia|]. split; [rewrite Hi; apply Z.le_refl|]. rewrite Hd, table_size. unfold LinkSize. lia.
  - exists s, s', n, z. split; [reflexivity|]. split; [exact Hr|exact Hg].
Qed.

(** C7. The store refines a map: a new store answers any history of [Add], [Set], [Del],
    [Get] and of closing and opening it again as the map does, with every call returning,
    under these conditions.  Keys consist of characters 1 to 127, since a higher one can make
    the index of the bucket negative.  Freed data space is used only where that does no harm:
    an [Add] of a new key finds none that is large enough, or such whose last value was exactly
    as long as the new one; a [Set] to a longer value finds none that is large enough at all.
    The files stay below the largest offset, the maps of free space below 2^31 entries when the
    store is closed.  The cache never has more than five entries. *)
Theorem db_refines_map fuel ops : (length ops < fuel)%nat ->
  Z.of_nat HASH_TABLE_SIZE * LinkSize + run_cost ops < 2 ^ 63 -> sound_history fuel ops ->
  exists s, db_history fuel ops = Some (s, (spec_run ∅ ops).2) /\ (length (cache s) <= MAX_CACHE_SIZE)%nat.
Proof.
  intros Hf Hz Hs. destruct (db_history_good fuel ops Hf Hz Hs) as (s & s' & n & z & Ho & Hr & chains & _ & _ & [_ Hl] & _).
  exists s'. unfold db_history. rewrite Ho. split; [exact Hr|exact Hl].
Qed.

#[local] Instance plain_key_dec k : Decision (plain_key k).
Proof. unfold plain_key. apply _. Defined.
#[local] Instance exact_room_dec m n : Decision (exact_room m n).
Proof. unfold exact_room. destruct (fm_lower_bound m n) as [[k l]|]; apply _. Defined.
#[local] Instance sound_op_dec s M o : Decision (sound_op s M o).
Proof. destruct o; cbn [sound_op]; try destruct (M !! key); apply _. Defined.
#[local] Instance sound_run_dec fuel s M ops : Decision (sound_run fuel s M ops).
Proof.
  revert s M. induction ops as [|o ops IH]; intros s M; cbn [sound_run]; [apply _|].
  apply and_dec; [apply _|]. destruct (db_step fuel s o) as [[s' a]|]; apply _.
Defined.
#[local] Instance sound_history_dec fuel ops : Decision (sound_history fuel ops).
Proof. unfold sound_history. destruct (DB_Open None); apply _. Defined.

(** Two keys of one bucket, space used again, and the store opened again. *)
Definition demo : list db_op :=
  [OpAdd "k1" "one"; OpAdd "jP" "two"; OpGet "k1"; OpSet "k1" "a longer value"; OpDel "jP"; OpAdd "k2" "new";
   OpReopen; OpGet "k1"; OpGet "jP"; OpGet "k2"; OpSet "k2" "ab"; OpGet "k2"; OpAdd "k2" ""; OpDel "nothing"]%string.

Lemma db_refines_map_witness :
  hash "k1" = hash "jP" /\
  exists s, db_history 15 demo = Some (s, (spec_run ∅ demo).2) /\ (length (cache s) <= MAX_CACHE_SIZE)%nat.
Proof.
  split; [vm_compute; reflexivity|].
  refine (db_refines_map 15 demo _ _ _); [cbn; lia|vm_compute; reflexivity|].
  apply (bool_decide_unpack _). vm_compute. exact I.
Defined.

Definition answers (fuel : nat) (ops : list db_op) : option (list answer) := snd <$> db_history fuel ops.

(** Freed space keeps the length of the value that was there: after "0123456789" was
    deleted, adding "abc" makes [Get] return "abc3456789"; and after "0123456789" was set
    to "ab" and deleted, adding "hello" makes it return "he". *)
Example db_reuse_returns_wrong_value :
  answers 5 [OpAdd "k1" "0123456789"; OpDel "k1"; OpAdd "k2" "abc"; OpGet "k2"]%string =
    Some [Done true; Done true; Done true; Value (Some "abc3456789"%string)] /\
  answers 6 [OpAdd "k1" "0123456789"; OpSet "k1" "ab"; OpDel "k1"; OpAdd "k2" "hello"; OpGet "k2"]%string =
    Some [Done true; Done true; Done true; Done true; Value (Some "he"%string)].
Proof. split; vm_compute; reflexivity. Qed.

(** A [Set] that takes freed space writes the value twice, the second time over what
    follows: another key's value changes although no call named that key. *)
Example db_set_overwrites_other_key :
  answers 7 [OpAdd "k1" "0123456789"; OpAdd "k2" "neighbour"; OpAdd "k3" "x"; OpDel "k1"; OpSet "k3" "abcdefghij"; OpGet "k2"]%string =
    Some [Done true; Done true; Done true; Done true; Done true; Value (Some "abcdefghi"%string)].
Proof. vm_compute. reflexivity. Qed.

(** A byte above 127 makes the index of the bucket negative. *)
Lemma hash_negative : hash (String "255" EmptyString) = -1.
Proof. vm_compute. reflexivity. Qed.
