(* ===== verification/DbServer.v ===== *)
(** * The server of the key-value store

    Models src/db/server.cpp: a connection with its read buffer, the state machine of
    [handle_read_event] that parses commands in place, the tasks it hands to the thread
    pool, and what the event loop does when a connection can be read or written.  The store
    is that of Db.  Sockets and [epoll] are outside: an event carries the bytes that have
    arrived, or how many were taken.

    [None] is an access outside a buffer, through a null pointer, or an [int] that
    overflows. *)

From Stdlib Require Import ZArith Lia Ascii String.
From stdpp Require Import base list gmap strings.
From S2P Require Import Prelude Loops IoStream DbFile Db DbStore.

Local Open Scope Z_scope.
Local Open Scope cpp_scope.

(** ** C strings in a buffer *)

Definition NUL : ascii := "000"%char.
Definition CR : ascii := "013"%char.
Definition LF : ascii := "010"%char.
Definition SP : ascii := " "%char.

Fixpoint upto_nul (l : list ascii) : option (list ascii) :=
  match l with
  | [] => None
  | c :: l => if ascii_dec c NUL then Some [] else w ← upto_nul l; Some (c :: w)
  end.
Definition cstr_at (buf : list ascii) (i : Z) : option (list ascii) :=
  if 0 <=? i then upto_nul (drop (Z.to_nat i) buf) else None.

(** [memchr (buf, c, n)]; the result is an index. *)
Fixpoint memchr (buf : list ascii) (c : ascii) (n : nat) : option Z :=
  match n, buf with
  | S n, x :: buf => if ascii_dec x c then Some 0 else Z.succ <$> memchr buf c n
  | _, _ => None
  end.

(** [strtok (p, " ")]: the buffer, and the token with the place to go on from. *)
Definition skip_delim (buf : list ascii) (p : Z) : option Z :=
  loop (S (length buf)) (fun p => c ← get buf p; Some (if ascii_dec c SP then inl (p + 1) else inr p)) p.
Definition find_delim (buf : list ascii) (p : Z) : option Z :=
  loop (S (length buf)) (fun p => c ← get buf p; Some (if decide (c = SP \/ c = NUL) then inr p else inl (p + 1))) p.
Definition strtok (buf : list ascii) (p : Z) : option (list ascii * option (Z * Z)) :=
  p ← skip_delim buf p;
  c ← get buf p;
  if ascii_dec c NUL then Some (buf, None)
  else
    q ← find_delim buf p;
    d ← get buf q;
    if ascii_dec d NUL then Some (buf, Some (p, q))
    else buf ← set buf q NUL; Some (buf, Some (p, q + 1)).

(** [atoi]: white space, a sign, digits. *)
Definition atoi (l : list ascii) : option Z :=
  let l := skip_spaces l in
  match l with
  | [] => Some 0
  | c :: l' =>
      if ascii_dec c "-" then int32 (- (read_digits 0 l').1)
      else if ascii_dec c "+" then int32 (read_digits 0 l').1
      else int32 (read_digits 0 l).1
  end.

(** ** Connections *)

Definition MAX_BUFLEN : Z := 10000.
Definition MAX_CMD_PARTS : Z := 3.

Inductive State := CMD_CHECK | CMD_PARSE | GET_CMD | DEL_CMD | ADD_CMD | SET_CMD.
Inductive interest := EPOLLIN | EPOLLOUT.
Inductive task := GetTask | DelTask | AddTask | SetTask.

Record client := Client {
  readbuf : list ascii; rpos : Z; cmd_end : option Z; cmd_part : list (option Z); state : State;
  writebuf : list ascii; wpos : Z; wend : Z; registered : option interest }.

Definition client_new : client :=
  Client (replicate (Z.to_nat MAX_BUFLEN) NUL) 0 None [None; None; None] CMD_CHECK [] 0 0 (Some EPOLLIN).
Definition reset_for_next_read (c : client) : client :=
  Client (readbuf c) 0 None (cmd_part c) CMD_CHECK (writebuf c) (wpos c) (wend c) (registered c).
Definition set_state (c : client) (buf : list ascii) (e : option Z) (parts : list (option Z)) (s : State) : client :=
  Client buf (rpos c) e parts s (writebuf c) (wpos c) (wend c) (registered c).
Definition deregister (c : client) : client :=
  Client (readbuf c) (rpos c) (cmd_end c) (cmd_part c) (state c) (writebuf c) (wpos c) (wend c) None.
(** [sprintf (c->writebuf, ...)], then [get_ready_to_write]: the '\0' is sent too. *)
Definition get_ready_to_write (c : client) (reply : list ascii) : option client :=
  VERIFY! (alen reply + 1 <=? MAX_BUFLEN) ;;
  Some (Client (readbuf c) (rpos c) (cmd_end c) (cmd_part c) (state c) (reply ++ [NUL]) 0 (alen reply + 1) (Some EPOLLOUT)).

(** The tokens of the command; a fourth one is written past [cmd_part]. *)
Fixpoint tokens (fuel : nat) (buf : list ascii) (p npart : Z) (parts : list (option Z)) : option (list ascii * list (option Z)) :=
  match fuel with
  | O => None
  | S fuel =>
      '(buf, r) ← strtok buf p;
      match r with
      | None => Some (buf, parts)
      | Some (token, p) => parts ← set parts npart (Some token); tokens fuel buf p (npart + 1) parts
      end
  end.

(** The C string a part of the command points to. *)
Definition part_str (c : client) (i : Z) : option (list ascii) :=
  p ← get (cmd_part c) i; p ← p; cstr_at (readbuf c) p.

(** ** handle_read_event *)

(** Where [handle_read_event] is: going on, or returning a code with a task. *)
Definition hre_state : Type := (client * option (Z * option task))%type.

Definition cmd_of (w : list ascii) : option State :=
  if decide (str_of w = "get"%string) then Some GET_CMD
  else if decide (str_of w = "del"%string) then Some DEL_CMD
  else if decide (str_of w = "add"%string) then Some ADD_CMD
  else if decide (str_of w = "set"%string) then Some SET_CMD
  else None.

Definition hre_step (s : hre_state) : option (hre_state + hre_state) :=
  let '(c, _) := s in
  match state c with
  | CMD_CHECK =>
      match memchr (readbuf c) LF (Z.to_nat (rpos c)) with
      | None => Some (inr (set_state c (readbuf c) None (cmd_part c) CMD_CHECK, Some (0, None)))
      | Some e =>
          x ← get (readbuf c) (e - 1);
          if ascii_dec x CR then Some (inl (set_state c (readbuf c) (Some e) (cmd_part c) CMD_PARSE, None))
          else Some (inr (set_state c (readbuf c) (Some e) (cmd_part c) CMD_CHECK, Some (-1, None)))
      end
  | CMD_PARSE =>
      e ← cmd_end c;
      buf ← set (readbuf c) (e - 1) NUL;
      '(buf, parts) ← tokens (S (length buf)) buf 0 0 (cmd_part c);
      let c := set_state c buf (Some e) parts CMD_PARSE in
      w ← part_str c 0;
      match cmd_of w with
      | Some st => Some (inl (set_state c buf (Some e) parts st, None))
      | None => Some (inr (c, Some (-2, None)))
      end
  | GET_CMD => Some (inr (deregister c, Some (1, Some GetTask)))
  | DEL_CMD => Some (inr (deregister c, Some (1, Some DelTask)))
  | ADD_CMD | SET_CMD =>
      w ← part_str c 2;
      bytes ← atoi w;
      need ← int32 (bytes + 2);
      e ← cmd_end c;
      if rpos c - (e + 1) <? need then Some (inr (c, Some (0, None)))
      else Some (inr (deregister c, Some (1, Some (match state c with ADD_CMD => AddTask | _ => SetTask end))))
  end.

Definition handle_read_event (c : client) : option (client * Z * option task) :=
  '(c, r) ← loop 4 hre_step (c, None);
  '(code, t) ← r;
  Some (c, code, t).

(** ** Tasks *)

Definition crlf : list ascii := [CR; LF].
Definition line (s : string) : list ascii := bytes_of s ++ crlf.

(** The reply [sprintf] writes for the answer of the store. *)
Definition get_reply (key : string) (v : option string) : list ascii :=
  match v with
  | Some v => bytes_of "VALUE " ++ cstr key ++ [SP] ++ print_unsigned (str_size key) ++ crlf ++ cstr v ++ crlf
  | None => line "NOT_FOUND"
  end.
Definition reply (o : db_op) (a : answer) : list ascii :=
  match o, a with
  | OpGet key, Value v => get_reply key v
  | OpDel _, Done ok => line (if ok then "DELETED" else "NOT_FOUND")
  | OpAdd _ _, Done ok => line (if ok then "STORED" else "EXISTS")
  | OpSet _ _, Done ok => line (if ok then "STORED" else "NOT_FOUND")
  | _, _ => []
  end.

(** The call a task makes on the store; [AddTask] and [SetTask] first end the data. *)
Definition task_op (c : client) (t : task) : option (client * db_op) :=
  match t with
  | GetTask => key ← part_str c 1; Some (c, OpGet (str_of key))
  | DelTask => key ← part_str c 1; Some (c, OpDel (str_of key))
  | AddTask | SetTask =>
      buf ← set (readbuf c) (rpos c - 2) NUL;
      let c := set_state c buf (cmd_end c) (cmd_part c) (state c) in
      key ← part_str c 1;
      e ← cmd_end c;
      val ← cstr_at (readbuf c) (e + 1);
      Some (c, match t with AddTask => OpAdd (str_of key) (str_of val) | _ => OpSet (str_of key) (str_of val) end)
  end.

Definition Process (fuel : nat) (s : db) (c : client) (t : task) : option (db * client) :=
  '(c, o) ← task_op c t;
  '(s, a) ← db_step fuel s o;
  c ← get_ready_to_write c (reply o a);
  Some (s, c).

(** ** The event loop *)

(** How [read] and [write] end when nothing more can be transferred. *)
Inductive io_end := EAGAIN | EOF | EERR.

(** Bytes stored at [pos]. *)
Definition store (buf : list ascii) (pos : Z) (d : list ascii) : list ascii :=
  take (Z.to_nat pos) buf ++ d ++ drop (Z.to_nat pos + length d) buf.

(** A readable connection: [avail] has arrived, and [last] is what comes after it.  A full
    buffer makes [read] return 0, as a closed connection does.  The code, the number of
    [close] calls and the task. *)
Definition on_readable (c : client) (avail : list ascii) (last : io_end) : option (client * Z * Z * option task) :=
  let d := take (Z.to_nat (MAX_BUFLEN - rpos c)) avail in
  let c := Client (store (readbuf c) (rpos c) d) (rpos c + alen d) (cmd_end c) (cmd_part c) (state c)
             (writebuf c) (wpos c) (wend c) (registered c) in
  let last := if rpos c =? MAX_BUFLEN then EOF else last in
  let closed := match last with EAGAIN => 0 | _ => 1 end in
  '(c, res, t) ← handle_read_event c;
  Some (c, res, if res <? 0 then closed + 1 else closed, t).

(** A writable connection: [n] bytes are taken.  The bytes, and the connection, ready for
    the next command when all are written. *)
Definition on_writable (c : client) (n : Z) : client * list ascii :=
  let k := Z.min n (wend c - wpos c) in
  let out := take (Z.to_nat k) (drop (Z.to_nat (wpos c)) (writebuf c)) in
  let c := Client (readbuf c) (rpos c) (cmd_end c) (cmd_part c) (state c) (writebuf c) (wpos c + k) (wend c) (registered c) in
  if wend c =? wpos c then
    let c := reset_for_next_read c in
    (Client (readbuf c) (rpos c) (cmd_end c) (cmd_part c) (state c) (writebuf c) (wpos c) (wend c) (Some EPOLLIN), out)
  else (c, out).
