(* ===== verification/DbProtocol.v ===== *)
(** * The protocol of the key-value store

    A client that sends well-formed requests one at a time gets the answers of a map,
    whatever pieces its bytes arrive in: the parser of DbServer composed with the store of
    Db.  The replies are compared with those that the comment of db/server.cpp documents. *)

From Stdlib Require Import ZArith Lia Ascii String.
From stdpp Require Import base list gmap strings.
From S2P Require Import Prelude Loops IoStream DbFile Db DbStore DbServer.

Local Open Scope Z_scope.

(** ** Words of a command *)

(** Characters of a word: no end of string, space or end of line. *)
Definition plain (c : ascii) : Prop := c <> NUL /\ c <> SP /\ c <> LF.
Definition word (w : list ascii) : Prop := w <> [] /\ Forall plain w.

(** Words as they are sent, and as they are in the buffer when it is parsed. *)
Fixpoint join (ws : list (list ascii)) : list ascii :=
  match ws with [] => [] | [w] => w | w :: ws => w ++ SP :: join ws end.
Fixpoint cut (ws : list (list ascii)) : list ascii :=
  match ws with [] => [] | [w] => w | w :: ws => w ++ NUL :: cut ws end.
Fixpoint starts (o : Z) (ws : list (list ascii)) : list Z :=
  match ws with [] => [] | w :: ws => o :: starts (o + alen w + 1) ws end.

Lemma starts_length o ws : length (starts o ws) = length ws.
Proof. revert o. induction ws as [|w ws IH]; intros o; [done|]. cbn. by rewrite IH. Qed.

Lemma cut_length ws : alen (cut ws) = alen (join ws).
Proof. induction ws as [|w [|w' ws] IH]; [done|done|]. cbn [cut join] in *. rewrite !alen_app, !alen_cons, IH. done. Qed.

Lemma join_longer ws : Forall word ws -> (length ws <= length (join ws))%nat.
Proof.
  induction ws as [|w [|w' ws] IH]; intros Hws; [cbn; lia|..]; apply Forall_cons in Hws as [[Hne _] Hws]; (destruct w as [|c w]; [done|]); cbn [join length]; [lia|].
  rewrite length_app. cbn [length] in *. specialize (IH Hws). cbn [join] in IH. lia.
Qed.

Lemma join_no_lf ws : Forall word ws -> LF ∉ join ws.
Proof.
  assert (Hw : forall w, Forall plain w -> LF ∉ w) by (intros w Hw Hin; rewrite Forall_forall in Hw; by apply Hw in Hin as (_ & _ & ?)).
  induction ws as [|w [|w' ws] IH]; intros Hws; [set_solver|apply Forall_cons in Hws as [[_ H] _]; by apply Hw|].
  apply Forall_cons in Hws as [[_ H] Hws]. specialize (IH Hws). cbn [join] in *. rewrite elem_of_app, elem_of_cons. intros [?|[?|?]]; [by eapply Hw|done|done].
Qed.

(** ** strtok *)

Lemma skip_delim_here pre c post : c <> SP -> skip_delim (pre ++ c :: post) (alen pre) = Some (alen pre).
Proof. intros Hc. unfold skip_delim. cbn [loop]. rewrite get_middle. cbn [mbind option_bind]. by destruct (ascii_dec c SP). Qed.

Lemma find_delim_word pre w d post : Forall plain w -> d = SP \/ d = NUL ->
  find_delim (pre ++ w ++ d :: post) (alen pre) = Some (alen pre + alen w).
Proof.
  intros Hw Hd. unfold find_delim. pose proof (alen_nonneg w). pose proof (alen_nonneg pre).
  edestruct (loop_ok (fun p => alen pre <= p <= alen pre + alen w) (fun p => p = alen pre + alen w) (fun p => Z.to_nat (alen pre + alen w - p)))
    as (p & E & ->); [| | |exact E].
  - intros p Hp. destruct (decide (p = alen pre + alen w)) as [->|Hne].
    + rewrite app_assoc, <- alen_app, get_middle. cbn [mbind option_bind]. eexists. split; [done|]. rewrite decide_True by done. by rewrite alen_app.
    + rewrite get_app, (proj2 (Z.ltb_ge _ _)), get_app, (proj2 (Z.ltb_lt _ _)) by lia. destruct (get_in w (p - alen pre) ltac:(lia)) as [c Hc]. rewrite Hc.
      cbn [mbind option_bind]. eexists. split; [done|]. rewrite get_eq in Hc by lia. pose proof (Forall_lookup_1 _ _ _ _ Hw Hc) as (? & ? & _).
      rewrite decide_False by naive_solver. lia.
  - lia.
  - unfold alen. rewrite !length_app. cbn [length]. lia.
Qed.

Lemma word_head w : word w -> exists c w', w = c :: w' /\ c <> SP /\ c <> NUL.
Proof. intros [Hne Hw]. destruct w as [|c w]; [done|]. apply Forall_cons in Hw as [(? & ? & ?) _]. by exists c, w. Qed.

Lemma strtok_end pre post : strtok (pre ++ NUL :: post) (alen pre) = Some (pre ++ NUL :: post, None).
Proof. unfold strtok. rewrite skip_delim_here by done. cbn [mbind option_bind]. rewrite get_middle. cbn [mbind option_bind]. by destruct (ascii_dec NUL NUL). Qed.

Lemma strtok_word pre w d post : word w -> d = SP \/ d = NUL ->
  strtok (pre ++ w ++ d :: post) (alen pre) =
  Some (pre ++ w ++ NUL :: post, Some (alen pre, if ascii_dec d NUL then alen pre + alen w else alen pre + alen w + 1)).
Proof.
  intros Hw Hd. destruct (word_head w Hw) as (c & w' & E & Hsp & Hnul). unfold strtok.
  assert (Hskip : skip_delim (pre ++ w ++ d :: post) (alen pre) = Some (alen pre)) by (rewrite E; by apply skip_delim_here).
  rewrite Hskip. cbn [mbind option_bind]. assert (Hget : get (pre ++ w ++ d :: post) (alen pre) = Some c) by (rewrite E; apply get_middle).
  rewrite Hget. cbn [mbind option_bind]. destruct (ascii_dec c NUL); [done|]. rewrite find_delim_word by (done || apply Hw). cbn [mbind option_bind].
  rewrite app_assoc, <- alen_app, get_middle. cbn [mbind option_bind]. destruct (ascii_dec d NUL) as [->|]; [by rewrite <- app_assoc|].
  rewrite set_middle. cbn [mbind option_bind]. by rewrite <- app_assoc.
Qed.

Lemma tokens_ok ws : forall pre post dn rest fuel, Forall word ws -> (length ws < fuel)%nat -> (length ws <= length rest)%nat -> ws <> [] ->
  tokens fuel (pre ++ join ws ++ NUL :: post) (alen pre) (alen dn) (dn ++ rest) =
  Some (pre ++ cut ws ++ NUL :: post, dn ++ (Some <$> starts (alen pre) ws) ++ drop (length ws) rest).
Proof.
  induction ws as [|w ws IH]; intros pre post dn rest fuel Hws Hf Hr Hne; [done|]. apply Forall_cons in Hws as [Hw Hws].
  destruct fuel as [|fuel]; [cbn in Hf; lia|]. destruct rest as [|x rest]; [cbn in Hr; lia|]. cbn [tokens]. destruct ws as [|w' ws].
  - cbn [join cut starts]. rewrite strtok_word by (done || by right). cbn [mbind option_bind]. rewrite set_middle. cbn [mbind option_bind].
    destruct fuel as [|fuel]; [cbn in Hf; lia|]. cbn [tokens]. destruct (ascii_dec NUL NUL); [|done].
    rewrite app_assoc, <- alen_app, strtok_end. cbn [mbind option_bind]. by rewrite <- app_assoc.
  - change (join (w :: w' :: ws)) with (w ++ SP :: join (w' :: ws)). change (cut (w :: w' :: ws)) with (w ++ NUL :: cut (w' :: ws)).
    rewrite <- !app_assoc. cbn [app]. rewrite strtok_word by (done || by left). cbn [mbind option_bind]. rewrite set_middle. cbn [mbind option_bind].
    destruct (ascii_dec SP NUL); [done|]. replace (alen pre + alen w + 1) with (alen (pre ++ w ++ [NUL])) by (rewrite !alen_app, alen_cons; unfold alen; cbn; lia).
    replace (alen dn + 1) with (alen (dn ++ [Some (alen pre)])) by (rewrite alen_app, alen_cons; unfold alen; cbn; lia).
    replace (pre ++ w ++ NUL :: join (w' :: ws) ++ NUL :: post) with ((pre ++ w ++ [NUL]) ++ join (w' :: ws) ++ NUL :: post) by (by rewrite <- !app_assoc).
    replace (dn ++ Some (alen pre) :: rest) with ((dn ++ [Some (alen pre)]) ++ rest) by (by rewrite <- app_assoc).
    rewrite IH by (try done; cbn in *; lia). f_equal. f_equal; [by rewrite <- !app_assoc|]. rewrite <- !app_assoc. cbn [app starts]. rewrite !fmap_cons.
    cbn [app]. replace (alen (pre ++ w ++ [NUL])) with (alen pre + alen w + 1) by (rewrite !alen_app, alen_cons; unfold alen; cbn; lia). done.
Qed.

Lemma upto_nul_app w post : (NUL ∉ w) -> upto_nul (w ++ NUL :: post) = Some w.
Proof.
  induction w as [|c w IH]; intros Hw; cbn [upto_nul app]; [by destruct (ascii_dec NUL NUL)|]. rewrite not_elem_of_cons in Hw.
  destruct (ascii_dec c NUL) as [->|]; [naive_solver|]. by rewrite IH by naive_solver.
Qed.
Lemma cstr_at_app pre w post : (NUL ∉ w) -> cstr_at (pre ++ w ++ NUL :: post) (alen pre) = Some w.
Proof.
  intros Hw. unfold cstr_at. rewrite (proj2 (Z.leb_le _ _)) by apply alen_nonneg. unfold alen. rewrite Nat2Z.id, drop_app_length. by apply upto_nul_app.
Qed.
Lemma word_no_nul w : word w -> NUL ∉ w.
Proof. intros [_ Hw] Hin. rewrite Forall_forall in Hw. by apply Hw in Hin as (? & _). Qed.

Lemma cut_part ws : forall pre post i w s, Forall word ws -> ws !! i = Some w -> starts (alen pre) ws !! i = Some s ->
  cstr_at (pre ++ cut ws ++ NUL :: post) s = Some w.
Proof.
  induction ws as [|x ws IH]; intros pre post i w s Hws Hi Hs; [done|]. apply Forall_cons in Hws as [Hx Hws]. destruct i as [|i]; cbn in Hi, Hs.
  - simplify_eq. destruct ws as [|y ws]; cbn [cut]; [|rewrite <- app_assoc; cbn [app]]; apply cstr_at_app; by apply word_no_nul.
  - destruct ws as [|y ws]; [done|]. change (cut (x :: y :: ws)) with (x ++ NUL :: cut (y :: ws)). rewrite <- app_assoc. cbn [app].
    replace (pre ++ x ++ NUL :: cut (y :: ws) ++ NUL :: post) with ((pre ++ x ++ [NUL]) ++ cut (y :: ws) ++ NUL :: post) by (by rewrite <- !app_assoc).
    apply (IH _ _ i); [done|done|]. rewrite <- Hs. f_equal. f_equal. rewrite !alen_app, alen_cons. unfold alen. cbn. lia.
Qed.

Lemma memchr_found l c post n : (c ∉ l) -> (length l < n)%nat -> memchr (l ++ c :: post) c n = Some (alen l).
Proof.
  revert n. induction l as [|x l IH]; intros n Hc Hn; (destruct n as [|n]; [cbn in Hn; lia|]); cbn [memchr app].
  - by destruct (ascii_dec c c).
  - rewrite not_elem_of_cons in Hc. destruct (ascii_dec x c) as [->|]; [naive_solver|]. rewrite IH by (naive_solver || (cbn in Hn; lia)). cbn. by rewrite alen_cons, Z.add_1_l.
Qed.
Lemma memchr_absent l c post n : (c ∉ l) -> (n <= length l)%nat -> memchr (l ++ post) c n = None.
Proof.
  revert n. induction l as [|x l IH]; intros n Hc Hn; (destruct n as [|n]; [by destruct (_ ++ post)|]); cbn [memchr app]; [cbn in Hn; lia|].
  rewrite not_elem_of_cons in Hc. destruct (ascii_dec x c) as [->|]; [naive_solver|]. by rewrite IH by (naive_solver || (cbn in Hn; lia)).
Qed.

(** ** Requests *)

Inductive request := RGet (key : string) | RDel (key : string) | RAdd (key val : string) | RSet (key val : string).

Definition req_op (r : request) : db_op :=
  match r with RGet k => OpGet k | RDel k => OpDel k | RAdd k v => OpAdd k v | RSet k v => OpSet k v end.
Definition req_key (r : request) : string := match r with RGet k | RDel k | RAdd k _ | RSet k _ => k end.
Definition req_val (r : request) : option string := match r with RGet _ | RDel _ => None | RAdd _ v | RSet _ v => Some v end.
Definition req_state (r : request) : State :=
  match r with RGet _ => GET_CMD | RDel _ => DEL_CMD | RAdd _ _ => ADD_CMD | RSet _ _ => SET_CMD end.
Definition req_task (r : request) : task :=
  match r with RGet _ => GetTask | RDel _ => DelTask | RAdd _ _ => AddTask | RSet _ _ => SetTask end.
Definition req_name (r : request) : list ascii :=
  bytes_of match r with RGet _ => "get" | RDel _ => "del" | RAdd _ _ => "add" | RSet _ _ => "set" end.

Definition words (r : request) : list (list ascii) :=
  [req_name r; bytes_of (req_key r)] ++ match req_val r with Some v => [print_unsigned (str_size v)] | None => [] end.
Definition block (r : request) : list ascii := match req_val r with Some v => bytes_of v ++ crlf | None => [] end.

(** The bytes of a request, as the comment at the top of server.cpp describes them. *)
Definition encode (r : request) : list ascii := join (words r) ++ CR :: LF :: block r.

Definition request_ok (r : request) : Prop :=
  word (bytes_of (req_key r)) /\ match req_val r with Some v => NUL ∉ bytes_of v | None => True end /\ alen (encode r) < MAX_BUFLEN.

Lemma digit_plain c : isdigit c = true -> plain c.
Proof. intros H. split; [|split]; intros ->; done. Qed.

Lemma digits_loop_digits fuel : forall n acc, Forall (fun c => isdigit c = true) acc -> Forall (fun c => isdigit c = true) (digits_loop fuel n acc).
Proof.
  induction fuel as [|fuel IH]; intros n acc Hacc; [done|]. cbn [digits_loop].
  assert (Hd : Forall (fun c => isdigit c = true) (char_of (48 + n mod 10) :: acc)) by (constructor; [apply digit_char, Z.mod_pos_bound; lia|done]).
  case_bool; [done|]. by apply IH.
Qed.

Lemma print_word n : 0 <= n -> word (print_unsigned n).
Proof.
  intros Hn. destruct (print_unsigned_head n Hn) as (c & l & E & _). split; [by rewrite E|]. unfold print_unsigned.
  eapply Forall_impl; [apply digits_loop_digits; constructor|]. apply digit_plain.
Qed.

Lemma atoi_print n : 0 <= n < 2 ^ 31 -> atoi (print_unsigned n) = Some n.
Proof.
  intros Hn. pose proof (read_print_unsigned n [] ltac:(unfold in_u64; lia)) as Hr. rewrite app_nil_r in Hr. cbn [read_digits] in Hr.
  destruct (print_unsigned_head n ltac:(lia)) as (c & l & E & Hc). unfold atoi. rewrite E in *. destruct (isdigit_facts c Hc) as (Hs & Hm & Hp).
  cbn [skip_spaces]. rewrite Hs. destruct (ascii_dec c "-") as [->|H1]; [done|]. destruct (ascii_dec c "+") as [->|H2]; [done|].
  rewrite Hr. apply int32_ok. unfold in_i32. cbn. lia.
Qed.

Lemma words_ok r : request_ok r -> Forall word (words r).
Proof.
  intros (Hk & _ & _). unfold words. destruct r; cbn; repeat constructor; try done; try apply Hk; apply print_word; unfold str_size; lia.
Qed.

(** ** A request on its way *)

(** The length of the command line. *)
Definition line_len (r : request) : Z := alen (join (words r)) + 2.

(** The command line is parsed, and [d] of the data has arrived. *)
Definition parsed (r : request) (d : list ascii) (c : client) : Prop :=
  state c = req_state r /\ rpos c = line_len r + alen d /\ cmd_end c = Some (line_len r - 1) /\
  (exists tail, readbuf c = cut (words r) ++ NUL :: LF :: d ++ tail) /\ (exists rest, cmd_part c = (Some <$> starts 0 (words r)) ++ rest).

(** The connection is open for reading. *)
Definition listening (c : client) : Prop :=
  alen (readbuf c) = MAX_BUFLEN /\ length (cmd_part c) = 3%nat /\ registered c = Some EPOLLIN.

(** [k] bytes of the request, but not all of them, have arrived. *)
Definition receiving (r : request) (k : Z) (c : client) : Prop :=
  listening c /\ rpos c = k /\ 0 <= k < alen (encode r) /\
  ((k < line_len r /\ state c = CMD_CHECK /\ exists tail, readbuf c = take (Z.to_nat k) (encode r) ++ tail) \/
   (line_len r <= k /\ parsed r (take (Z.to_nat (k - line_len r)) (block r)) c)).

Lemma encode_length r : alen (encode r) = line_len r + alen (block r).
Proof. unfold encode, line_len. rewrite alen_app, !alen_cons. lia. Qed.

Lemma words_short r : (2 <= length (words r) <= 3)%nat.
Proof. unfold words. destruct r; cbn; lia. Qed.

Lemma part_parsed r d c i w : request_ok r -> parsed r d c -> words r !! i = Some w -> part_str c (Z.of_nat i) = Some w.
Proof.
  intros Hr (_ & _ & _ & (tail & Hb) & (rest & Hp)) Hi. unfold part_str. rewrite get_nat, Hp.
  assert (Hs : exists s, starts 0 (words r) !! i = Some s).
  { apply lookup_lt_is_Some. rewrite starts_length. by eapply lookup_lt_Some. }
  destruct Hs as [s Hs]. rewrite lookup_app_l by (rewrite length_fmap; by eapply lookup_lt_Some). rewrite list_lookup_fmap, Hs. cbn [fmap option_fmap option_map mbind option_bind].
  rewrite Hb. by apply (cut_part (words r) [] _ i w s (words_ok r Hr) Hi).
Qed.

(** The command line is found and cut into its words. *)
Lemma parse_line r d c x fuel : request_ok r -> state c = CMD_CHECK -> length (cmd_part c) = 3%nat -> rpos c = line_len r + alen d ->
  (exists tail, readbuf c = join (words r) ++ CR :: LF :: d ++ tail) ->
  exists c', loop (2 + fuel) hre_step (c, x) = loop fuel hre_step (c', None) /\ parsed r d c' /\
    alen (readbuf c') = alen (readbuf c) /\ length (cmd_part c') = 3%nat /\ registered c' = registered c.
Proof.
  intros Hr Hs Hp Hpos (tail & Hb). pose proof (words_ok r Hr) as Hw. pose proof (words_short r) as Hwl. set (j := join (words r)) in *.
  pose proof (alen_nonneg d) as Hd. pose proof (alen_nonneg j) as Hj. assert (Hll : line_len r = alen j + 2) by done.
  assert (Hmem : memchr (readbuf c) LF (Z.to_nat (rpos c)) = Some (alen j + 1)).
  { rewrite Hb. replace (j ++ CR :: LF :: d ++ tail) with ((j ++ [CR]) ++ LF :: d ++ tail) by (by rewrite <- app_assoc).
    rewrite memchr_found; [by rewrite alen_app| |].
    - rewrite elem_of_app. intros [Hin|Hin]; [by eapply join_no_lf|]. apply list_elem_of_singleton in Hin. done.
    - rewrite length_app. rewrite Hll in Hpos. unfold alen in *. cbn [length]. lia. }
  set (c1 := set_state c (readbuf c) (Some (alen j + 1)) (cmd_part c) CMD_PARSE).
  assert (E1 : hre_step (c, x) = Some (inl (c1, None))).
  { unfold hre_step. rewrite Hs, Hmem. replace (alen j + 1 - 1) with (alen j) by lia. rewrite Hb at 1. rewrite get_middle. cbn [mbind option_bind].
    by destruct (ascii_dec CR CR). }
  set (buf := cut (words r) ++ NUL :: LF :: d ++ tail). set (parts := (Some <$> starts 0 (words r)) ++ drop (length (words r)) (cmd_part c)).
  exists (set_state c buf (Some (alen j + 1)) parts (req_state r)).
  assert (Hpar : parsed r d (set_state c buf (Some (alen j + 1)) parts (req_state r))).
  { split; [done|]. split; [done|]. split; [cbn [set_state cmd_end]; f_equal; lia|]. split; [by exists tail|by eexists]. }
  assert (E2 : hre_step (c1, None) = Some (inl (set_state c buf (Some (alen j + 1)) parts (req_state r), None))).
  { unfold hre_step. cbn [c1 set_state state cmd_end readbuf cmd_part]. cbn [mbind option_bind]. replace (alen j + 1 - 1) with (alen j) by lia. rewrite Hb, set_middle. cbn [mbind option_bind].
    pose proof (tokens_ok (words r) [] (LF :: d ++ tail) [] (cmd_part c) (S (length (j ++ NUL :: LF :: d ++ tail))) Hw) as Ht. change (alen (@nil ascii)) with 0 in Ht.
    change (alen (@nil (option Z))) with 0 in Ht. cbn [app] in Ht. fold j in Ht. rewrite Ht; [|rewrite !length_app; cbn [length]; pose proof (join_longer (words r) Hw); fold j in H; lia|lia|by destruct (words r); [cbn in Hwl; lia|]].
    cbn [mbind option_bind]. fold buf parts. pose proof (part_parsed r d _ 0 (req_name r) Hr Hpar eq_refl) as H0. change (Z.of_nat 0) with 0 in H0.
    assert (Hps : part_str (set_state c1 buf (Some (alen j + 1)) parts CMD_PARSE) 0 = Some (req_name r)) by exact H0. rewrite Hps. cbn [mbind option_bind].
    unfold cmd_of. by destruct r. }
  split; [change (2 + fuel)%nat with (S (S fuel)); cbn [loop]; rewrite E1; cbn [mbind option_bind]; rewrite E2; done|]. split; [done|].
  cbn [set_state readbuf cmd_part registered]. split; [|split; [|done]].
  - rewrite Hb. unfold buf. rewrite !alen_app, !alen_cons, cut_length. done.
  - unfold parts. rewrite length_app, length_fmap, starts_length, length_drop. lia.
Qed.

(** The command when its line is parsed: it waits for the data, or becomes a task. *)
Lemma parsed_step r d c x fuel : request_ok r -> parsed r d c -> alen d <= alen (block r) ->
  loop (S fuel) hre_step (c, x) =
  Some (if alen d <? alen (block r) then (c, Some (0, None)) else (deregister c, Some (1, Some (req_task r)))).
Proof.
  intros Hr Hp Hd. cbn [loop]. pose proof Hp as (Hs & Hpos & He & _). pose proof (alen_nonneg d) as Hd0.
  enough (E : hre_step (c, x) = Some (inr (if alen d <? alen (block r) then (c, Some (0, None)) else (deregister c, Some (1, Some (req_task r)))))) by by rewrite E.
  unfold hre_step. rewrite Hs. destruct (req_val r) as [v|] eqn:Ev.
  - assert (Hb : alen (block r) = str_size v + 2) by (unfold block; rewrite Ev, alen_app; unfold alen; by rewrite length_bytes_of).
    assert (Hsz : 0 <= str_size v < 2 ^ 31).
    { destruct Hr as (_ & _ & Hl). rewrite encode_length, Hb in Hl. unfold line_len in Hl. pose proof (alen_nonneg (join (words r))).
      unfold MAX_BUFLEN in Hl. unfold str_size in *. lia. }
    assert (Hw : words r !! 2%nat = Some (print_unsigned (str_size v))) by (unfold words; by rewrite Ev).
    pose proof (part_parsed r d c 2 _ Hr Hp Hw) as Hpart. change (Z.of_nat 2) with 2 in Hpart.
    assert (E2 : rpos c - (line_len r - 1 + 1) = alen d) by lia.
    destruct r; try done; cbn [req_state req_task]; rewrite Hpart; cbn [mbind option_bind]; rewrite atoi_print by lia; cbn [mbind option_bind];
      rewrite int32_ok by (unfold in_i32; destruct Hr as (_ & _ & Hl); rewrite encode_length, Hb in Hl; unfold MAX_BUFLEN, line_len in Hl; pose proof (alen_nonneg (join (words (RAdd key val)))); pose proof (alen_nonneg (join (words (RSet key val)))); lia);
      cbn [mbind option_bind]; rewrite He; cbn [mbind option_bind]; rewrite E2, Hb; by case_bool.
  - assert (Hb : alen (block r) = 0) by (unfold block; by rewrite Ev). rewrite Hb, (proj2 (Z.ltb_ge _ _)) by lia. by destruct r.
Qed.

Lemma store_app p tail d : store (p ++ tail) (alen p) d = p ++ d ++ drop (length d) tail.
Proof. unfold store, alen. by rewrite Nat2Z.id, take_app_length, drop_app_ge, Nat.add_sub_swap, Nat.sub_diag by lia. Qed.

(** The next bytes [d] of a request of which [k] have arrived. *)
Definition next_bytes (r : request) (k : Z) (d : list ascii) : Prop := exists rest, drop (Z.to_nat k) (encode r) = d ++ rest.

Lemma next_take r k d : next_bytes r k d -> 0 <= k <= alen (encode r) ->
  take (Z.to_nat k) (encode r) ++ d = take (Z.to_nat (k + alen d)) (encode r) /\ k + alen d <= alen (encode r).
Proof.
  intros (rest & E) Hk. assert (He : encode r = take (Z.to_nat k) (encode r) ++ d ++ rest) by (rewrite <- E; symmetry; apply take_drop).
  assert (Hl : length (take (Z.to_nat k) (encode r)) = Z.to_nat k) by (rewrite length_take; unfold alen in Hk; lia).
  split.
  - rewrite He at 2. rewrite app_assoc. symmetry. apply take_app_length'. rewrite length_app. unfold alen. lia.
  - pose proof (f_equal length He) as Hlen. rewrite !length_app, Hl in Hlen. unfold alen in *. lia.
Qed.

(** From the line on, the bytes of the request are those of its data. *)
Lemma encode_take r k : line_len r <= k ->
  take (Z.to_nat k) (encode r) = join (words r) ++ CR :: LF :: take (Z.to_nat (k - line_len r)) (block r).
Proof.
  intros Hk. unfold encode. unfold line_len in *. pose proof (alen_nonneg (join (words r))). rewrite take_app_ge by (unfold alen in *; lia). f_equal.
  replace (Z.to_nat k - length (join (words r)))%nat with (S (S (Z.to_nat (k - (alen (join (words r)) + 2))))) by (unfold alen in *; lia). done.
Qed.

(** The whole request is there, and nothing more is read from the connection. *)
Definition complete (r : request) (c : client) : Prop :=
  parsed r (block r) c /\ alen (readbuf c) = MAX_BUFLEN /\ length (cmd_part c) = 3%nat /\ registered c = None.

(** What [handle_read_event] makes of a request of which [k] bytes are there. *)
Definition received (r : request) (k : Z) (res : option (client * Z * option task)) : Prop :=
  if k <? alen (encode r) then exists c, res = Some (c, 0, None) /\ receiving r k c
  else exists c, res = Some (c, 1, Some (req_task r)) /\ complete r c.

Lemma handle_parsed r k c fuel x : request_ok r -> listening c -> rpos c = k -> line_len r <= k <= alen (encode r) ->
  parsed r (take (Z.to_nat (k - line_len r)) (block r)) c ->
  received r k ('(c, r) ← loop (S fuel) hre_step (c, x); '(code, t) ← r; Some (c, code, t)).
Proof.
  intros Hr Hl Hpos Hk Hp. rewrite encode_length in Hk. set (d := take _ _) in *.
  assert (Hd : alen d = k - line_len r) by (unfold d, alen in *; rewrite length_take; lia).
  rewrite (parsed_step r d c x fuel Hr Hp) by lia. unfold received. rewrite encode_length, Hd.
  destruct (Z.ltb_spec (k - line_len r) (alen (block r))), (Z.ltb_spec k (line_len r + alen (block r))); try lia; cbn [mbind option_bind].
  - exists c. split; [done|]. split; [done|]. split; [done|]. rewrite encode_length. split; [unfold line_len in *; pose proof (alen_nonneg (join (words r))); lia|].
    right. split; [lia|done].
  - exists (deregister c). split; [done|]. destruct Hl as (? & ? & ?). split; [|done]. assert (d = block r) as <- by (apply take_ge; unfold alen in *; lia). exact Hp.
Qed.

Lemma handle_unparsed r k c : request_ok r -> listening c -> rpos c = k -> 0 <= k <= alen (encode r) -> state c = CMD_CHECK ->
  (exists tail, readbuf c = take (Z.to_nat k) (encode r) ++ tail) -> received r k (handle_read_event c).
Proof.
  intros Hr Hl Hpos Hk Hs (tail & Hb). destruct Hl as (L1 & L2 & L3). destruct (decide (k < line_len r)) as [Hlt|Hge].
  - unfold received, handle_read_event. rewrite encode_length. pose proof (alen_nonneg (block r)) as Hbl. rewrite (proj2 (Z.ltb_lt k _)).
    2: { rewrite encode_length in Hk. unfold line_len in *. lia. }
    assert (E : hre_step (c, None) = Some (inr (set_state c (readbuf c) None (cmd_part c) CMD_CHECK, Some (0, None)))).
    { unfold hre_step. rewrite Hs, Hpos, Hb, memchr_absent; [done| |].
      - unfold encode. unfold line_len in Hlt. intros Hin. assert (LF ∈ join (words r) ++ [CR]) as Hin'.
        { replace (join (words r) ++ CR :: LF :: block r) with ((join (words r) ++ [CR]) ++ LF :: block r) in Hin by (by rewrite <- app_assoc).
          rewrite take_app_le in Hin by (rewrite length_app; unfold alen in Hlt; cbn [length]; lia). apply elem_of_take in Hin as (i & Hi & _). by eapply list_elem_of_lookup_2. }
        rewrite elem_of_app in Hin'. destruct Hin' as [Hj|Hj]; [by eapply join_no_lf; [apply words_ok|]|]. apply list_elem_of_singleton in Hj. done.
      - rewrite length_take. unfold alen in Hk. lia. }
    cbn [loop]. rewrite E. cbn [mbind option_bind]. eexists. split; [done|]. split; [done|]. cbn [set_state rpos]. split; [done|].
    rewrite encode_length. split; [lia|]. left. split; [done|]. split; [done|]. by exists tail.
  - rewrite encode_take in Hb by lia. destruct (parse_line r (take (Z.to_nat (k - line_len r)) (block r)) c None 2 Hr Hs L2) as (c' & E & Hp & Ha & Hc & Hg).
    + rewrite Hpos. unfold alen. rewrite length_take. rewrite encode_length in Hk. unfold alen in Hk. lia.
    + exists tail. rewrite Hb, <- app_assoc. done.
    + unfold handle_read_event. change 4%nat with (2 + 2)%nat. rewrite E. apply handle_parsed; try done.
      * split; [by rewrite Ha|]. split; [done|]. by rewrite Hg.
      * destruct Hp as (_ & -> & _). unfold alen. rewrite length_take. rewrite encode_length in Hk. unfold alen in Hk. lia.
      * lia.
Qed.

Lemma on_readable_ok r k c d : request_ok r -> receiving r k c -> next_bytes r k d ->
  exists res, received r (k + alen d) res /\
    on_readable c d EAGAIN = ('(c, code, t) ← res; Some (c, code, 0, t)).
Proof.
  intros Hr ((L1 & L2 & L3) & Hpos & Hk & Hst) Hn. destruct (next_take r k d Hn ltac:(lia)) as [Htake Hle].
  pose proof Hr as (_ & _ & Hmax). pose proof (alen_nonneg d) as Hd0. unfold on_readable.
  rewrite take_ge by (unfold alen in *; lia). set (c1 := Client _ _ _ _ _ _ _ _ _).
  assert (H1 : rpos c1 = k + alen d) by (cbn; lia).
  assert (Hrec : received r (k + alen d) (handle_read_event c1)).
  { assert (Hlen : alen (store (readbuf c) (rpos c) d) = MAX_BUFLEN).
    { unfold store, alen in *. rewrite !length_app, length_take, length_drop. lia. }
    destruct Hst as [(Hlt & Hs & tail & Hb)|(Hge & Hs & Hp & He & (tail & Hb) & Hparts)].
    - apply handle_unparsed; try done; [lia|]. exists (drop (length d) tail). unfold c1. cbn [readbuf].
      rewrite Hb, <- Htake, <- app_assoc, <- store_app. f_equal. unfold alen. rewrite length_take. unfold alen in Hk. lia.
    - unfold handle_read_event. apply handle_parsed; try done; [lia|].
      assert (Hblk : take (Z.to_nat (k - line_len r)) (block r) ++ d = take (Z.to_nat (k + alen d - line_len r)) (block r)).
      { rewrite !encode_take in Htake by lia. rewrite <- app_assoc in Htake. by apply app_inv_head in Htake as [= ->]. }
      split; [done|]. split; [|split; [done|split; [|done]]].
      + rewrite <- Hblk, alen_app. cbn [c1 rpos]. lia.
      + exists (drop (length d) tail). cbn [c1 readbuf]. rewrite Hb, <- Hblk.
        set (pre := cut (words r) ++ NUL :: LF :: take (Z.to_nat (k - line_len r)) (block r)).
        replace (cut (words r) ++ NUL :: LF :: take (Z.to_nat (k - line_len r)) (block r) ++ tail) with (pre ++ tail) by (unfold pre; by rewrite <- app_assoc).
        replace (rpos c) with (alen pre); [rewrite store_app; unfold pre; by rewrite <- !app_assoc|].
        rewrite Hp. unfold pre, line_len. rewrite alen_app, !alen_cons, cut_length. lia. }
  exists (handle_read_event c1). split; [done|]. rewrite H1. rewrite (proj2 (Z.eqb_neq _ _)) by lia.
  unfold received in Hrec. case_bool; destruct Hrec as (c' & -> & _); done.
Qed.

(** ** The task of a request *)

Lemma parsed_data r d d' c buf : parsed r d c -> alen d' = alen d -> (exists tail, buf = cut (words r) ++ NUL :: LF :: d' ++ tail) ->
  parsed r d' (set_state c buf (cmd_end c) (cmd_part c) (state c)).
Proof. intros (H1 & H2 & H3 & _ & H5) Hd Hb. split; [done|]. split; [cbn [set_state rpos]; by rewrite Hd|]. done. Qed.

Lemma task_op_ok r c : request_ok r -> complete r c -> exists c', task_op c (req_task r) = Some (c', req_op r) /\
  alen (readbuf c') = MAX_BUFLEN /\ length (cmd_part c') = 3%nat.
Proof.
  intros Hr (Hp & L1 & L2 & _). pose proof (part_parsed r _ c 1 (bytes_of (req_key r)) Hr Hp eq_refl) as Hkey. change (Z.of_nat 1) with 1 in Hkey.
  destruct (req_val r) as [v|] eqn:Ev.
  - pose proof Hp as (_ & Hpos & He & (tail & Hb) & _). assert (Hblk : block r = bytes_of v ++ [CR; LF]) by (unfold block; by rewrite Ev).
    set (pre := cut (words r) ++ NUL :: LF :: bytes_of v). set (buf := pre ++ NUL :: LF :: tail).
    assert (Hset : set (readbuf c) (rpos c - 2) NUL = Some buf).
    { rewrite Hb, Hblk. replace (cut (words r) ++ NUL :: LF :: (bytes_of v ++ [CR; LF]) ++ tail) with (pre ++ CR :: LF :: tail) by (unfold pre; by rewrite <- !app_assoc).
      replace (rpos c - 2) with (alen pre); [apply set_middle|]. rewrite Hpos, Hblk. unfold pre, line_len. rewrite !alen_app, !alen_cons, cut_length.
      change (alen (@nil ascii)) with 0. lia. }
    set (c1 := set_state c buf (cmd_end c) (cmd_part c) (state c)).
    assert (Hp1 : parsed r (bytes_of v ++ [NUL; LF]) c1).
    { apply (parsed_data r (block r)); [done|rewrite Hblk, !alen_app; done|]. exists tail. unfold buf, pre. by rewrite <- !app_assoc. }
    pose proof (part_parsed r _ c1 1 (bytes_of (req_key r)) Hr Hp1 eq_refl) as Hk1. change (Z.of_nat 1) with 1 in Hk1.
    assert (Hv : cstr_at buf (line_len r - 1 + 1) = Some (bytes_of v)).
    { replace (line_len r - 1 + 1) with (alen (cut (words r) ++ [NUL; LF])) by (rewrite alen_app, cut_length; unfold line_len; change (alen [NUL; LF]) with 2; lia).
      replace buf with ((cut (words r) ++ [NUL; LF]) ++ bytes_of v ++ NUL :: LF :: tail) by (unfold buf, pre; by rewrite <- !app_assoc).
      apply cstr_at_app. destruct Hr as (_ & Hnul & _). by rewrite Ev in Hnul. }
    exists c1. split; [|split; [|done]].
    + destruct r; try done; injection Ev as <-; cbn [task_op req_task]; rewrite Hset; cbn [mbind option_bind]; fold c1; rewrite Hk1; cbn [mbind option_bind];
        cbn [c1 set_state cmd_end readbuf]; rewrite He; cbn [mbind option_bind]; rewrite Hv; cbn [mbind option_bind]; by rewrite !str_of_bytes_of.
    + cbn [c1 set_state readbuf]. rewrite <- L1, Hb, Hblk. unfold buf, pre. repeat (rewrite alen_app || rewrite alen_cons). change (alen (@nil ascii)) with 0. lia.
  - exists c. split; [|done]. destruct r; try done; cbn [task_op req_task]; rewrite Hkey; cbn [mbind option_bind]; by rewrite str_of_bytes_of.
Qed.

(** ** A session *)

(** The bytes of one request arrive in pieces; the task they become. *)
Fixpoint feed (c : client) (pieces : list (list ascii)) : option (client * task) :=
  match pieces with
  | [] => None
  | d :: pieces =>
      '(c, _, _, t) ← on_readable c d EAGAIN;
      match t with
      | Some t => match pieces with [] => Some (c, t) | _ => None end
      | None => feed c pieces
      end
  end.

(** The connection is written to, as much as it takes each time. *)
Fixpoint drain (c : client) (ns : list Z) : client * list ascii :=
  match ns with
  | [] => (c, [])
  | n :: ns => let '(c, out) := on_writable c n in let '(c, out') := drain c ns in (c, out ++ out')
  end.

(** A request as it is transferred: the pieces of the request, and of the reply. *)
Definition transfer : Type := (request * list (list ascii) * list Z)%type.

Definition serve (fuel : nat) (s : db) (c : client) (x : transfer) : option (db * client * list ascii) :=
  let '(_, pieces, ns) := x in
  '(c, t) ← feed c pieces;
  '(s, c) ← Process fuel s c t;
  let '(c, out) := drain c ns in
  Some (s, c, out).

Fixpoint serve_all (fuel : nat) (s : db) (c : client) (xs : list transfer) : option (db * client * list (list ascii)) :=
  match xs with
  | [] => Some (s, c, [])
  | x :: xs => '(s, c, out) ← serve fuel s c x; '(s, c, outs) ← serve_all fuel s c xs; Some (s, c, out :: outs)
  end.

(** No piece is empty and together they are the request; the writes take the whole reply. *)
Definition transfer_ok (x : transfer) (len : Z) : Prop :=
  let '(r, pieces, ns) := x in
  concat pieces = encode r /\ Forall (fun d => d <> []) pieces /\ Forall (fun n => 0 < n) ns /\
  exists ns' n, ns = ns' ++ [n] /\ foldr Z.add 0 ns' < len <= foldr Z.add 0 ns.

(** Between two requests. *)
Definition idle (c : client) : Prop := listening c /\ state c = CMD_CHECK /\ rpos c = 0.

Lemma feed_ok r pieces : request_ok r -> Forall (fun d => d <> []) pieces -> forall k c, receiving r k c ->
  drop (Z.to_nat k) (encode r) = concat pieces -> exists c', feed c pieces = Some (c', req_task r) /\ complete r c'.
Proof.
  intros Hr. induction pieces as [|d pieces IH]; intros Hne k c Hc Hd.
  - destruct Hc as (_ & _ & Hk & _). apply (f_equal length) in Hd. rewrite length_drop in Hd. cbn [concat length] in Hd. unfold alen in Hk. lia.
  - apply Forall_cons in Hne as [Hne1 Hne]. cbn [concat] in Hd. pose proof Hc as (_ & _ & Hk & _).
    destruct (on_readable_ok r k c d Hr Hc) as (res & Hrec & E); [by exists (concat pieces)|].
    assert (Hd' : drop (Z.to_nat (k + alen d)) (encode r) = concat pieces).
    { rewrite Z2Nat.inj_add by (apply alen_nonneg || lia). rewrite <- drop_drop, Hd. unfold alen. by rewrite Nat2Z.id, drop_app_length. }
    cbn [feed]. rewrite E. unfold received in Hrec. destruct (Z.ltb_spec (k + alen d) (alen (encode r))) as [Hlt|Hge]; destruct Hrec as (c' & -> & Hc'); cbn [mbind option_bind].
    + by apply (IH Hne (k + alen d)).
    + assert (concat pieces = []) as Hnil by (rewrite <- Hd'; apply drop_ge; unfold alen in *; lia).
      destruct pieces as [|d2 pieces]; [by exists c'|]. exfalso. apply Forall_cons in Hne as [Hne2 _]. destruct d2; [done|]. done.
Qed.

(** A reply that is being written. *)
Lemma drain_ok ns : forall c, 0 <= wpos c -> wend c = alen (writebuf c) -> Forall (fun n => 0 < n) ns ->
  alen (readbuf c) = MAX_BUFLEN -> length (cmd_part c) = 3%nat ->
  forall ns' n, ns = ns' ++ [n] -> wpos c + foldr Z.add 0 ns' < wend c <= wpos c + foldr Z.add 0 ns ->
  exists c', drain c ns = (c', drop (Z.to_nat (wpos c)) (writebuf c)) /\ idle c'.
Proof.
  induction ns as [|m ns IH]; intros c Hp He Hpos Hb Hparts ns' n Hns Hsum; [by destruct ns'|]. apply Forall_cons in Hpos as [Hm Hpos].
  cbn [drain]. unfold on_writable. destruct ns' as [|m' ns'].
  - cbn [app] in Hns. injection Hns as -> ->. cbn [foldr] in Hsum. rewrite Z.min_r by lia. cbn [wend wpos]. replace (wpos c + (wend c - wpos c)) with (wend c) by lia.
    rewrite Z.eqb_refl. cbn [drain]. eexists. split.
    + rewrite app_nil_r. f_equal. apply take_ge. rewrite length_drop. unfold alen in He. lia.
    + split; [split; [exact Hb|split; [exact Hparts|reflexivity]]|split; reflexivity].
  - cbn [app] in Hns. injection Hns as -> Hns. cbn [foldr] in Hsum.
    assert (0 <= foldr Z.add 0 ns').
    { rewrite Hns in Hpos. apply Forall_app in Hpos as [Hpos _]. clear -Hpos. induction Hpos; cbn; lia. }
    rewrite Z.min_l by lia. cbn [wend wpos]. rewrite (proj2 (Z.eqb_neq _ _)) by lia.
    set (c1 := Client _ _ _ _ _ _ _ _ _). destruct (IH c1 ltac:(cbn; lia) ltac:(done) Hpos ltac:(done) ltac:(done) ns' n Hns) as (c' & E & Hi); [cbn [c1 wpos wend]; lia|].
    rewrite E. exists c'. split; [|done]. f_equal. cbn [c1 wpos writebuf]. rewrite Z2Nat.inj_add, <- drop_drop by lia. apply take_drop.
Qed.

Definition reply_fits (o : db_op) (a : answer) : Prop := alen (reply o a) + 1 <= MAX_BUFLEN.

Lemma idle_receiving r c : idle c -> receiving r 0 c.
Proof.
  intros (Hl & Hs & Hp). pose proof (encode_length r). pose proof (alen_nonneg (block r)). pose proof (alen_nonneg (join (words r))).
  split; [done|]. split; [done|]. unfold line_len in *. split; [lia|]. left. unfold line_len. split; [lia|]. split; [done|]. by exists (readbuf c).
Qed.

Lemma serve_ok fuel s s' c x a : request_ok x.1.1 -> idle c -> db_step fuel s (req_op x.1.1) = Some (s', a) ->
  reply_fits (req_op x.1.1) a -> transfer_ok x (alen (reply (req_op x.1.1) a) + 1) ->
  exists c', serve fuel s c x = Some (s', c', reply (req_op x.1.1) a ++ [NUL]) /\ idle c'.
Proof.
  destruct x as [[r pieces] ns]. cbn [fst]. intros Hr Hi Hstep Hfit (Hcat & Hne & Hpos & ns' & n & Hns & Hsum). unfold serve.
  destruct (feed_ok r pieces Hr Hne 0 c (idle_receiving r c Hi)) as (c1 & -> & Hc1); [by rewrite drop_0|]. cbn [mbind option_bind].
  destruct (task_op_ok r c1 Hr Hc1) as (c2 & Ht & L1 & L2). unfold Process. rewrite Ht. cbn [mbind option_bind]. rewrite Hstep. cbn [mbind option_bind].
  unfold get_ready_to_write. rewrite (proj2 (Z.leb_le _ _)) by exact Hfit. cbn [VERIFY mbind option_bind]. set (c3 := Client _ _ _ _ _ _ _ _ _).
  destruct (drain_ok ns c3 ltac:(done) ltac:(cbn [c3 wend writebuf]; by rewrite alen_app) Hpos L1 L2 ns' n Hns) as (c4 & -> & H4); [exact Hsum|].
  exists c4. split; [|done]. done.
Qed.

(** The transfers of a session: the pieces of each request and of its reply. *)
Definition transfers_ok (xs : list transfer) (answers : list answer) : Prop :=
  Forall2 (fun x a => transfer_ok x (alen (reply (req_op x.1.1) a) + 1)) xs answers.

Definition ops_of (xs : list transfer) : list db_op := (fun x => req_op x.1.1) <$> xs.

Lemma serve_all_ok fuel xs : Forall (fun x => request_ok x.1.1) xs -> forall s c s' answers, idle c -> db_run fuel s (ops_of xs) = Some (s', answers) ->
  Forall2 reply_fits (ops_of xs) answers -> transfers_ok xs answers ->
  exists c', serve_all fuel s c xs = Some (s', c', zip_with (fun o a => reply o a ++ [NUL]) (ops_of xs) answers) /\ idle c'.
Proof.
  induction 1 as [|x xs Hx Hxs IH]; intros s c s' answers Hi Hrun Hfit Htr.
  - injection Hrun as <- <-. by exists c.
  - cbn [ops_of fmap list_fmap db_run] in Hrun. destruct (db_step fuel s (req_op x.1.1)) as [[s1 a]|] eqn:E1; [|done]. cbn [mbind option_bind] in Hrun.
    fold (ops_of xs) in Hrun. destruct (db_run fuel s1 (ops_of xs)) as [[s2 r]|] eqn:E2; [|done]. cbn [mbind option_bind] in Hrun. injection Hrun as <- <-.
    apply Forall2_cons in Hfit as [Hf1 Hf]. apply Forall2_cons in Htr as [Ht1 Ht].
    destruct (serve_ok fuel s s1 c x a Hx Hi E1 Hf1 Ht1) as (c1 & Es & Hi1). destruct (IH s1 c1 s2 r Hi1 E2 Hf Ht) as (c2 & Ea & Hi2).
    exists c2. split; [|done]. cbn [serve_all]. rewrite Es. cbn [mbind option_bind]. rewrite Ea. done.
Qed.

(** ** The lengths of requests and replies *)

(** Room for a key and a value in both buffers. *)
Definition small (k v : string) : Prop := str_size k + str_size v + 40 <= MAX_BUFLEN.
Definition small_request (r : request) : Prop :=
  word (bytes_of (req_key r)) /\
  match req_val r with Some v => (NUL ∉ bytes_of v) /\ small (req_key r) v | None => small (req_key r) "" end.
Definition small_map (M : gmap string string) : Prop := map_Forall small M.

Lemma digits_loop_length fuel : forall n acc, (length (digits_loop fuel n acc) <= fuel + length acc)%nat.
Proof.
  induction fuel as [|fuel IH]; intros n acc; [done|]. cbn [digits_loop]. case_bool; [cbn [length]; lia|].
  etransitivity; [apply IH|]. cbn [length]. lia.
Qed.
Lemma print_length n : 0 <= alen (print_unsigned n) <= 20.
Proof. split; [apply alen_nonneg|]. unfold print_unsigned, alen. pose proof (digits_loop_length 20 n []). cbn [length] in *. lia. Qed.

Lemma cstr_length s : 0 <= alen (cstr s) <= str_size s.
Proof.
  split; [apply alen_nonneg|]. unfold alen, str_size. induction s as [|a s IH]; [done|]. cbn [cstr String.length]. case_bool; cbn [length]; lia.
Qed.

Lemma bytes_length s : alen (bytes_of s) = str_size s.
Proof. apply length_bytes_of. Qed.

Lemma small_request_ok r : small_request r -> request_ok r.
Proof.
  intros (Hk & Hv). split; [exact Hk|]. split; [destruct (req_val r); [apply Hv|done]|]. rewrite encode_length. unfold line_len, words, block, small in *.
  assert (Hn : alen (req_name r) = 3) by (by destruct r). destruct (req_val r) as [v|]; [destruct Hv as [_ Hv]|]; cbn [app join];
    repeat (rewrite alen_app || rewrite alen_cons); rewrite ?bytes_length, Hn; [pose proof (print_length (str_size v))|change (str_size "") with 0 in Hv];
    change (alen crlf) with 2; change (alen (@nil ascii)) with 0; lia.
Qed.

Lemma line_fits s : str_size s <= 10 -> alen (line s) + 1 <= MAX_BUFLEN.
Proof. intros H. unfold line. rewrite alen_app, bytes_length. change (alen crlf) with 2. unfold MAX_BUFLEN. lia. Qed.

Lemma spec_fits M r : small_map M -> small_request r ->
  small_map (spec_step M (req_op r)).1 /\ reply_fits (req_op r) (spec_step M (req_op r)).2.
Proof.
  intros HM (_ & Hr). unfold reply_fits.
  destruct r as [k|k|k v|k v]; cbn [req_op spec_step req_key req_val] in *.
  - split; [exact HM|]. cbn [snd reply get_reply]. destruct (M !! k) as [v|] eqn:E; [|by apply line_fits]. specialize (HM k v E). unfold small in HM.
    cbn [get_reply]. repeat (rewrite alen_app || rewrite alen_cons). pose proof (cstr_length k). pose proof (cstr_length v). pose proof (print_length (str_size k)).
    rewrite bytes_length. change (str_size "VALUE ") with 6. change (alen crlf) with 2. change (alen (@nil ascii)) with 0. lia.
  - destruct (M !! k); cbn [fst snd reply]; (split; [|by apply line_fits]); [by apply map_Forall_delete|exact HM].
  - destruct (M !! k); cbn [fst snd reply]; (split; [|by apply line_fits]); [exact HM|apply map_Forall_insert_2; [apply Hr|exact HM]].
  - destruct (M !! k); cbn [fst snd reply]; (split; [|by apply line_fits]); [apply map_Forall_insert_2; [apply Hr|exact HM]|exact HM].
Qed.

Lemma spec_run_fits xs : Forall (fun x : transfer => small_request x.1.1) xs -> forall M, small_map M -> Forall2 reply_fits (ops_of xs) (spec_run M (ops_of xs)).2.
Proof.
  induction 1 as [|x xs Hx Hxs IH]; intros M HM; [done|]. cbn [ops_of fmap list_fmap spec_run]. fold (ops_of xs).
  destruct (spec_fits M x.1.1 HM Hx) as [HM1 Hf]. destruct (spec_step M (req_op x.1.1)) as [M1 a]. specialize (IH M1 HM1).
  destruct (spec_run M1 (ops_of xs)) as [M2 l]. by constructor.
Qed.

Lemma client_new_idle : idle client_new.
Proof. split; [|done]. split; [|done]. unfold client_new, alen. cbn [readbuf]. by rewrite length_replicate. Qed.

(** ** The server *)

(** The replies of the protocol, with the number [nbytes] that is announced for a value. *)
Definition protocol_reply (nbytes : string -> string -> Z) (o : db_op) (a : answer) : list ascii :=
  match o, a with
  | OpGet k, Value (Some v) => bytes_of "VALUE " ++ bytes_of k ++ [SP] ++ print_unsigned (nbytes k v) ++ crlf ++ bytes_of v ++ crlf
  | OpGet _, Value None => line "NOT_FOUND"
  | OpDel _, Done true => line "DELETED"
  | OpDel _, Done false => line "NOT_FOUND"
  | OpAdd _ _, Done true => line "STORED"
  | OpAdd _ _, Done false => line "EXISTS"
  | OpSet _ _, Done true => line "STORED"
  | OpSet _ _, Done false => line "NOT_FOUND"
  | _, _ => []
  end.
(** The protocol announces the length of the data block; the code prints that of the key. *)
Definition documented_reply : db_op -> answer -> list ascii := protocol_reply (fun _ v => str_size v).
Definition sent_reply : db_op -> answer -> list ascii := protocol_reply (fun k _ => str_size k).

Lemma cstr_bytes x : NUL ∉ bytes_of x -> cstr x = bytes_of x.
Proof.
  induction x as [|c x IH]; [done|]. intros Hn. change (bytes_of (String c x)) with (c :: bytes_of x) in *. apply not_elem_of_cons in Hn as [Hc Hx]. cbn [cstr].
  destruct (Z.eqb_spec (char_u c) 0) as [E|_]; [|f_equal; by apply IH]. exfalso. apply Hc. unfold char_u in E. rewrite <- (ascii_N_embedding c). unfold NUL. by replace (N_of_ascii c) with 0%N by lia.
Qed.

Definition no_nul (k v : string) : Prop := (NUL ∉ bytes_of k) /\ (NUL ∉ bytes_of v).

Lemma spec_sent M r : map_Forall no_nul M -> small_request r ->
  map_Forall no_nul (spec_step M (req_op r)).1 /\ reply (req_op r) (spec_step M (req_op r)).2 = sent_reply (req_op r) (spec_step M (req_op r)).2.
Proof.
  intros HM (Hw & Hr). assert (Hk : NUL ∉ bytes_of (req_key r)).
  { destruct Hw as [_ Hp]. intros Hin. rewrite Forall_forall in Hp. by destruct (Hp _ Hin). }
  destruct r as [k|k|k v|k v]; cbn [req_op spec_step req_key req_val] in *.
  - split; [exact HM|]. cbn [snd]. destruct (M !! k) as [v|] eqn:E; [|done]. destruct (HM k v E) as [_ Hv]. cbn. by rewrite !cstr_bytes.
  - destruct (M !! k); cbn [fst snd]; (split; [|done]); [by apply map_Forall_delete|exact HM].
  - destruct (M !! k); cbn [fst snd]; (split; [|done]); [exact HM|apply map_Forall_insert_2; [by split; [|apply Hr]|exact HM]].
  - destruct (M !! k); cbn [fst snd]; (split; [|done]); [apply map_Forall_insert_2; [by split; [|apply Hr]|exact HM]|exact HM].
Qed.

Lemma spec_run_sent xs : Forall (fun x : transfer => small_request x.1.1) xs -> forall M, map_Forall no_nul M ->
  zip_with (fun o a => reply o a ++ [NUL]) (ops_of xs) (spec_run M (ops_of xs)).2 = zip_with (fun o a => sent_reply o a ++ [NUL]) (ops_of xs) (spec_run M (ops_of xs)).2.
Proof.
  induction 1 as [|x xs Hx Hxs IH]; intros M HM; [done|]. cbn [ops_of fmap list_fmap spec_run]. fold (ops_of xs).
  destruct (spec_sent M x.1.1 HM Hx) as [HM1 Hf]. destruct (spec_step M (req_op x.1.1)) as [M1 a]. specialize (IH M1 HM1).
  destruct (spec_run M1 (ops_of xs)) as [M2 l]. cbn in *. by rewrite Hf, IH.
Qed.

Lemma sent_documented o a : sent_reply o a = documented_reply o a \/ exists k v, o = OpGet k /\ a = Value (Some v) /\ str_size k <> str_size v.
Proof.
  destruct o as [k v|k v|k|k|], a as [ok|[v'|]|]; try (left; reflexivity).
  destruct (decide (str_size k = str_size v')) as [E|E]; [left|right; by exists k, v']. unfold sent_reply, documented_reply, protocol_reply. by rewrite E.
Qed.


(** A session: a line in two pieces, data apart from its line, and replies in two pieces. *)
Definition session : list transfer :=
  [(RAdd "k1" "one two", [bytes_of "add k"; line "1 7"; line "one two"], [4; 9]);
   (RGet "k1", [bytes_of "get k1" ++ [CR]; [LF]], [20; 100]);
   (RSet "k1" "x", [line "set k1 1" ++ bytes_of "x"; crlf], [9]);
   (RGet "k1", [line "get k1"], [15; 1]);
   (RDel "k1", [bytes_of "del"; line " k1"], [10]);
   (RGet "k1", [line "get k1"], [12])].

Lemma transfer_ok_intro r pieces ns len ns' n : concat pieces = encode r -> forallb (fun d => 0 <? alen d) pieces = true ->
  forallb (Z.ltb 0) ns = true -> ns = ns' ++ [n] -> (foldr Z.add 0 ns' <? len) && (len <=? foldr Z.add 0 ns) = true -> transfer_ok (r, pieces, ns) len.
Proof.
  intros Hc Hp Hn Hns Hsum. apply andb_true_iff in Hsum as [H1 H2]. apply Z.ltb_lt in H1. apply Z.leb_le in H2. split; [exact Hc|].
  rewrite forallb_forall in Hp. rewrite forallb_forall in Hn. split; [|split].
  - apply Forall_forall. intros d Hd ->. by specialize (Hp [] ltac:(by apply list_elem_of_In)).
  - apply Forall_forall. intros m Hm. apply Z.ltb_lt, Hn. by apply list_elem_of_In.
  - by exists ns', n.
Qed.

Lemma session_small : Forall (fun x : transfer => small_request x.1.1) session.
Proof.
  assert (Hw : word (bytes_of "k1")) by (split; [done|]; repeat constructor; done).
  repeat constructor; cbn [fst req_key req_val]; try (apply (bool_decide_unpack _); vm_compute; exact I); try done.
Qed.

