(* ===== verification/DbConnection.v ===== *)
(** * Connections of the store server

    What the server does with any bytes a client sends: the state of a connection is well
    formed after every event, and no access leaves a buffer, as long as each command line
    is one the parser can hold (at most three words, those the command needs, and a length
    that is a number). *)

From Stdlib Require Import ZArith Lia Ascii String.
From stdpp Require Import base list gmap strings.
From S2P Require Import Prelude Loops IoStream DbFile Db DbStore DbServer DbProtocol.

Local Open Scope Z_scope.

(** ** The words of a line *)

Definition flush (w : list ascii) : list (list ascii) := match w with [] => [] | _ => [w] end.
Fixpoint split_sp (l cur : list ascii) : list (list ascii) :=
  match l with
  | [] => flush cur
  | c :: l => if ascii_dec c SP then flush cur ++ split_sp l [] else split_sp l (cur ++ [c])
  end.

(** Neither the end of a string nor of a line. *)
Definition inline (c : ascii) : Prop := c <> NUL /\ c <> LF.

(** Spaces, then nothing, or a word and what follows it. *)
Lemma split_word l : forall cur, Forall inline l -> Forall plain cur -> cur <> [] ->
  exists w l', word (cur ++ w) /\ ((l = w /\ split_sp l cur = [cur ++ w]) \/ (l = w ++ SP :: l' /\ split_sp l cur = (cur ++ w) :: split_sp l' [])).
Proof.
  induction l as [|c l IH]; intros cur Hl Hcur Hne.
  - exists [], []. rewrite app_nil_r. split; [done|]. left. split; [done|]. cbn. by destruct cur.
  - apply Forall_cons in Hl as [[Hn Hlf] Hl]. cbn [split_sp]. destruct (ascii_dec c SP) as [->|Hsp].
    + exists [], l. rewrite app_nil_r. split; [done|]. right. split; [done|]. by destruct cur.
    + destruct (IH (cur ++ [c]) Hl) as (w & l' & Hw & H); [apply Forall_app; split; [done|]; by repeat constructor|by destruct cur|].
      rewrite <- app_assoc in Hw, H. cbn [app] in Hw, H. exists (c :: w), l'. split; [done|].
      destruct H as [[-> ->]|[-> ->]]; [left|right]; done.
Qed.

Lemma split_first l : Forall inline l -> exists k,
  (l = replicate k SP /\ split_sp l [] = []) \/
  exists w l', word w /\ ((l = replicate k SP ++ w /\ split_sp l [] = [w]) \/ (l = replicate k SP ++ w ++ SP :: l' /\ split_sp l [] = w :: split_sp l' [])).
Proof.
  induction l as [|c l IH]; intros Hl; [by exists 0%nat; left|]. apply Forall_cons in Hl as [[Hn Hlf] Hl]. cbn [split_sp app].
  destruct (ascii_dec c SP) as [->|Hsp].
  - destruct (IH Hl) as (k & [[-> H]|(w & l' & Hw & H)]); exists (S k); [by left|]. right. exists w, l'. split; [done|].
    destruct H as [[-> H]|[-> H]]; [left|right]; done.
  - exists 0%nat. right. destruct (split_word l [c] Hl ltac:(by repeat constructor) ltac:(done)) as (w & l' & Hw & H). exists (c :: w), l'. split; [done|].
    destruct H as [[-> ->]|[-> ->]]; [left|right]; done.
Qed.

(** ** strtok on any line *)

Lemma alen_spaces k : alen (replicate k SP) = Z.of_nat k.
Proof. unfold alen. by rewrite length_replicate. Qed.

Lemma skip_delim_spaces k pre c post : c <> SP -> skip_delim (pre ++ replicate k SP ++ c :: post) (alen pre) = Some (alen pre + Z.of_nat k).
Proof.
  intros Hc. unfold skip_delim. pose proof (alen_nonneg pre). set (buf := pre ++ _).
  edestruct (loop_ok (fun p => alen pre <= p <= alen pre + Z.of_nat k) (fun p => p = alen pre + Z.of_nat k) (fun p => Z.to_nat (alen pre + Z.of_nat k - p)))
    as (p & E & ->); [| | |exact E].
  - intros p Hp. unfold buf. destruct (decide (p = alen pre + Z.of_nat k)) as [->|Hne].
    + rewrite app_assoc. replace (alen pre + Z.of_nat k) with (alen (pre ++ replicate k SP)) by (rewrite alen_app; unfold alen; by rewrite length_replicate).
      rewrite get_middle. cbn [mbind option_bind]. eexists. split; [done|]. by destruct (ascii_dec c SP).
    + rewrite get_app, (proj2 (Z.ltb_ge _ _)), get_app, (proj2 (Z.ltb_lt _ _)) by (unfold alen in *; rewrite ?length_replicate; lia).
      rewrite get_eq, lookup_replicate_2 by (unfold alen in *; rewrite ?length_replicate; lia). cbn [mbind option_bind]. eexists. split; [done|].
      destruct (ascii_dec SP SP); [lia|done].
  - lia.
  - unfold buf, alen. rewrite !length_app, length_replicate. cbn [length]. lia.
Qed.

Lemma strtok_spaces k pre c post : c <> SP ->
  strtok (pre ++ replicate k SP ++ c :: post) (alen pre) = strtok ((pre ++ replicate k SP) ++ c :: post) (alen (pre ++ replicate k SP)).
Proof.
  intros Hc. unfold strtok. rewrite skip_delim_spaces, skip_delim_here by done. rewrite <- app_assoc. cbn [mbind option_bind].
  by rewrite alen_app, alen_spaces.
Qed.

(** Words that stand in the buffer where [ts] points. *)
Definition words_at (buf : list ascii) (ts : list (option Z)) (ws : list (list ascii)) : Prop :=
  Forall2 (fun t w => exists p, t = Some p /\ cstr_at buf p = Some w) ts ws.

Lemma tokens_any n : forall l pre post dn rest fuel, (length l <= n)%nat -> Forall inline l -> (n < fuel)%nat ->
  (length (split_sp l []) <= length rest)%nat -> exists l' ts,
  tokens fuel (pre ++ l ++ NUL :: post) (alen pre) (alen dn) (dn ++ rest) = Some (pre ++ l' ++ NUL :: post, dn ++ ts ++ drop (length (split_sp l [])) rest) /\
  length l' = length l /\ words_at (pre ++ l' ++ [NUL]) ts (split_sp l []).
Proof.
  induction n as [n IH] using lt_wf_ind; intros l pre post dn rest fuel Hn Hl Hf Hr. destruct fuel as [|fuel]; [lia|]. cbn [tokens].
  destruct (split_first l Hl) as (k & [[-> Hs]|(w & l' & Hw & Hcase)]).
  - rewrite Hs. rewrite strtok_spaces, strtok_end by done. cbn [mbind option_bind]. exists (replicate k SP), []. rewrite <- app_assoc.
    split; [done|]. split; [done|constructor].
  - set (pre1 := pre ++ replicate k SP). destruct (word_head w Hw) as (c & w' & Ew & Hsp & _).
    assert (Htok : forall d post', d = SP \/ d = NUL -> strtok (pre ++ replicate k SP ++ w ++ d :: post') (alen pre) =
      Some (pre1 ++ w ++ NUL :: post', Some (alen pre1, if ascii_dec d NUL then alen pre1 + alen w else alen pre1 + alen w + 1))).
    { intros d post' Hd. rewrite <- strtok_word by done. rewrite Ew. cbn [app]. by rewrite strtok_spaces. }
    destruct Hcase as [[-> Hs]|[-> Hs]]; rewrite Hs in Hr |- *; (destruct rest as [|x rest]; [cbn in Hr; lia|]).
    + rewrite <- !app_assoc, Htok by (by right). cbn [mbind option_bind]. rewrite set_middle. cbn [mbind option_bind].
      destruct (ascii_dec NUL NUL); [|done]. rewrite length_app in Hn. pose proof (f_equal length Ew) as Hlen. cbn [length] in Hlen.
      destruct fuel as [|fuel]; [lia|]. cbn [tokens]. rewrite app_assoc, <- alen_app, strtok_end. cbn [mbind option_bind].
      exists (replicate k SP ++ w), [Some (alen pre1)]. unfold pre1. rewrite <- !app_assoc. split; [done|]. split; [done|].
      constructor; [|constructor]. exists (alen (pre ++ replicate k SP)). split; [done|]. rewrite app_assoc. apply cstr_at_app. by apply word_no_nul.
    + apply Forall_app in Hl as [_ Hl]. apply Forall_app in Hl as [_ Hl]. apply Forall_cons in Hl as [_ Hl]. rewrite !length_app in Hn. cbn [length] in Hn, Hr.
      rewrite <- !app_assoc. cbn [app]. rewrite Htok by (by left). cbn [mbind option_bind]. rewrite set_middle. cbn [mbind option_bind]. destruct (ascii_dec SP NUL); [done|].
      replace (alen pre1 + alen w + 1) with (alen (pre1 ++ w ++ [NUL])) by (rewrite !alen_app, alen_cons; unfold alen; cbn; lia).
      replace (alen dn + 1) with (alen (dn ++ [Some (alen pre1)])) by (rewrite alen_app, alen_cons; unfold alen; cbn; lia).
      replace (pre1 ++ w ++ NUL :: l' ++ NUL :: post) with ((pre1 ++ w ++ [NUL]) ++ l' ++ NUL :: post) by (by rewrite <- !app_assoc).
      replace (dn ++ Some (alen pre1) :: rest) with ((dn ++ [Some (alen pre1)]) ++ rest) by (by rewrite <- app_assoc).
      destruct (IH (length l') ltac:(lia) l' (pre1 ++ w ++ [NUL]) post (dn ++ [Some (alen pre1)]) rest fuel ltac:(lia) Hl ltac:(lia) ltac:(lia)) as (l'' & ts & -> & Hlen & Hat).
      exists (replicate k SP ++ w ++ NUL :: l''), (Some (alen pre1) :: ts). unfold pre1. rewrite <- !app_assoc. cbn [app length drop]. split; [done|].
      split; [rewrite !length_app; cbn [length]; lia|]. constructor.
      * exists (alen (pre ++ replicate k SP)). split; [done|]. rewrite app_assoc. apply cstr_at_app. by apply word_no_nul.
      * unfold words_at, pre1 in Hat. rewrite <- !app_assoc in Hat. cbn [app] in Hat. exact Hat.
Qed.

(** ** Lines the parser can hold *)

Definition before_nul (l : list ascii) : list ascii := default l (upto_nul l).
(** The words of a line, without its end. *)
Definition line_words (l : list ascii) : list (list ascii) := split_sp (before_nul l) [].

Definition number_ok (w : list ascii) : bool := match atoi w with Some n => (0 <=? n) && (n + 2 <? 2 ^ 31) | None => false end.

(** At most three words, with a key for [get] and [del], a key and a length for [add] and [set]. *)
Definition command_ok (st : State) (ws : list (list ascii)) : bool :=
  match st with
  | GET_CMD | DEL_CMD => (2 <=? length ws)%nat
  | _ => match ws !! 2%nat with Some w => number_ok w | None => false end
  end.
Definition words_fit (ws : list (list ascii)) : bool :=
  match ws with
  | [] => false
  | w :: _ => (length ws <=? 3)%nat && match cmd_of w with Some st => command_ok st ws | None => true end
  end.

(** The bytes received for a request: if its line is complete, it is such a line. *)
Definition line_ok (l : list ascii) : bool :=
  match memchr l LF (length l) with
  | None => true
  | Some e => match get l (e - 1) with None => false | Some x => if ascii_dec x CR then words_fit (line_words (take (Z.to_nat (e - 1)) l)) else true end
  end.

Lemma upto_nul_split l : match upto_nul l with Some w => exists post, l = w ++ NUL :: post /\ (NUL ∉ w) | None => NUL ∉ l end.
Proof.
  induction l as [|c l IH]; cbn [upto_nul]; [set_solver|]. destruct (ascii_dec c NUL) as [->|Hc]; [exists l; split; [done|set_solver]|].
  destruct (upto_nul l) as [w|]; cbn [mbind option_bind].
  - destruct IH as (post & -> & Hw). exists post. split; [done|]. rewrite not_elem_of_cons. done.
  - rewrite not_elem_of_cons. done.
Qed.

Lemma before_nul_split l rest : exists post, l ++ NUL :: rest = before_nul l ++ NUL :: post /\ (NUL ∉ before_nul l) /\ (length (before_nul l) <= length l)%nat /\ before_nul l ⊆ l.
Proof.
  unfold before_nul. pose proof (upto_nul_split l) as H. destruct (upto_nul l) as [w|]; cbn [from_option id].
  - destruct H as (post & -> & Hw). exists (post ++ NUL :: rest). rewrite <- app_assoc. split; [done|]. split; [done|]. rewrite length_app. split; [lia|set_solver].
  - by exists rest.
Qed.

Lemma memchr_some l c n e : memchr l c n = Some e -> exists a b, l = a ++ c :: b /\ alen a = e /\ (c ∉ a) /\ e < Z.of_nat n.
Proof.
  revert n e. induction l as [|x l IH]; intros [|n] e H; try done. cbn [memchr] in H. destruct (ascii_dec x c) as [->|Hx].
  - injection H as <-. exists [], l. split; [done|]. split; [done|]. split; [set_solver|lia].
  - destruct (memchr l c n) as [e'|] eqn:E; [|done]. cbn in H. injection H as <-. destruct (IH n e' E) as (a & b & -> & <- & Ha & Hn).
    exists (x :: a), b. rewrite alen_cons, not_elem_of_cons. split; [done|]. split; [lia|]. split; [done|lia].
Qed.

Lemma memchr_take l c n : memchr l c n = memchr (take n l) c (length (take n l)).
Proof. revert n. induction l as [|x l IH]; intros [|n]; [done..|]. cbn [memchr take length]. by rewrite <- IH. Qed.

(** ** Well-formed connections *)

(** Part [i] of the command is [w], and ends before [e]. *)
Definition part_in (c : client) (e : Z) (i : nat) (w : list ascii) : Prop :=
  exists t, cmd_part c !! i = Some (Some t) /\ cstr_at (take (Z.to_nat e) (readbuf c)) t = Some w.

Definition command_in (c : client) : Prop :=
  exists e ws, cmd_end c = Some e /\ 1 <= e < rpos c /\ (forall i w, ws !! i = Some w -> part_in c e i w) /\ command_ok (state c) ws = true.

Definition conn_ok (c : client) : Prop :=
  alen (readbuf c) = MAX_BUFLEN /\ 0 <= rpos c <= MAX_BUFLEN /\ length (cmd_part c) = 3%nat /\
  match state c with CMD_CHECK => True | CMD_PARSE => False | _ => command_in c end.

(** What a task does with the buffers of its connection: it finds its key and data, a
    reply that fits goes into [writebuf], and the connection reads again when it is sent, in
    whatever pieces. *)
Definition task_safe (c : client) (t : task) : Prop :=
  exists c' o, task_op c t = Some (c', o) /\
    forall r, alen r + 1 <= MAX_BUFLEN -> exists c2, get_ready_to_write c' r = Some c2 /\
      forall ns n, Forall (fun m => 0 < m) (ns ++ [n]) -> foldr Z.add 0 ns < alen r + 1 <= foldr Z.add 0 (ns ++ [n]) ->
      exists c3, drain c2 (ns ++ [n]) = (c3, r ++ [NUL]) /\ conn_ok c3 /\ registered c3 = Some EPOLLIN.

Lemma task_safe_intro c t c' o : task_op c t = Some (c', o) -> alen (readbuf c') = MAX_BUFLEN -> length (cmd_part c') = 3%nat -> task_safe c t.
Proof.
  intros Ht L1 L2. exists c', o. split; [done|]. intros r Hr. unfold get_ready_to_write. rewrite (proj2 (Z.leb_le _ _)) by exact Hr. cbn [VERIFY].
  eexists. split; [reflexivity|]. intros ns n Hpos Hsum. set (c2 := Client _ _ _ _ _ _ _ _ _).
  destruct (drain_ok (ns ++ [n]) c2 ltac:(done) ltac:(cbn [c2 wend writebuf]; by rewrite alen_app) Hpos L1 L2 ns n eq_refl) as (c3 & E & (H1 & H2 & H3) & Hst & Hp); [exact Hsum|].
  exists c3. split; [exact E|]. split; [|exact H3]. split; [exact H1|]. rewrite Hp. split; [unfold MAX_BUFLEN; lia|]. split; [exact H2|]. by rewrite Hst.
Qed.

(** What an event may leave: an error, a connection that waits for more, or a task. *)
Definition outcome_ok (c : client) (code : Z) (t : option task) : Prop :=
  (code = -1 \/ code = -2) /\ t = None \/
  code = 0 /\ t = None /\ conn_ok c /\ registered c = Some EPOLLIN \/
  code = 1 /\ conn_ok c /\ registered c = None /\ exists t', t = Some t' /\ task_safe c t'.

Lemma cstr_take buf n t w : cstr_at (take n buf) t = Some w -> cstr_at buf t = Some w.
Proof.
  unfold cstr_at. destruct (0 <=? t); [|done]. intros H. rewrite <- (take_drop n buf). rewrite drop_app.
  pose proof (upto_nul_split (drop (Z.to_nat t) (take n buf))) as Hs. rewrite H in Hs. destruct Hs as (post & -> & Hw). rewrite <- app_assoc. by apply upto_nul_app.
Qed.

Lemma cstr_app buf rest t w : cstr_at buf t = Some w -> cstr_at (buf ++ rest) t = Some w.
Proof. intros H. apply (cstr_take _ (length buf)). by rewrite take_app_length. Qed.

Lemma part_in_str c e i w : part_in c e i w -> part_str c (Z.of_nat i) = Some w.
Proof. intros (t & Ht & Hc). unfold part_str. rewrite get_nat, Ht. cbn [mbind option_bind]. by eapply cstr_take. Qed.

Lemma command_in_ext c c' : command_in c -> cmd_end c' = cmd_end c -> cmd_part c' = cmd_part c -> state c' = state c -> rpos c <= rpos c' ->
  (forall e, cmd_end c = Some e -> take (Z.to_nat e) (readbuf c') = take (Z.to_nat e) (readbuf c)) -> command_in c'.
Proof.
  intros (e & ws & He & Hr & Hw & Hok) E1 E2 E3 E4 E5. exists e, ws. rewrite E1, E3. split; [done|]. split; [lia|]. split; [|done].
  intros i w Hi. destruct (Hw i w Hi) as (t & Ht & Hc). exists t. rewrite E2, E5 by done. done.
Qed.

(** ** Tasks and their data *)

Lemma cstr_exists buf i k : 0 <= i <= k -> get buf k = Some NUL -> exists w, cstr_at buf i = Some w.
Proof.
  intros Hi Hk. unfold cstr_at. rewrite (proj2 (Z.leb_le _ _)) by lia. pose proof (upto_nul_split (drop (Z.to_nat i) buf)) as H.
  destruct (upto_nul (drop (Z.to_nat i) buf)) as [w|]; [by exists w|]. exfalso. apply H. apply (list_elem_of_lookup_2 _ (Z.to_nat (k - i))).
  rewrite get_eq in Hk by lia. rewrite lookup_drop. replace (Z.to_nat i + Z.to_nat (k - i))%nat with (Z.to_nat k) by lia. exact Hk.
Qed.

Lemma get_task_safe c t : conn_ok c -> command_in c -> (state c = GET_CMD /\ t = GetTask) \/ (state c = DEL_CMD /\ t = DelTask) -> task_safe (deregister c) t.
Proof.
  intros (L1 & _ & L2 & _) (e & ws & _ & _ & Hw & Hok) Ht.
  assert (Hk : exists k, ws !! 1%nat = Some k).
  { apply lookup_lt_is_Some. destruct Ht as [[Hs _]|[Hs _]]; rewrite Hs in Hok; cbn [command_ok] in Hok; apply Nat.leb_le in Hok; lia. }
  destruct Hk as [k Hk]. pose proof (part_in_str _ _ _ _ (Hw 1%nat k Hk)) as Hp. change (Z.of_nat 1) with 1 in Hp.
  assert (Hd : part_str (deregister c) 1 = Some k) by exact Hp. 
  destruct Ht as [[_ ->]|[_ ->]]; (eapply task_safe_intro; [cbn [task_op]; rewrite Hd; reflexivity|exact L1|exact L2]).
Qed.

Lemma store_task_safe c t e k : conn_ok c -> cmd_end c = Some e -> 1 <= e -> e + 3 <= rpos c -> part_in c e 1 k ->
  t = AddTask \/ t = SetTask -> task_safe (deregister c) t.
Proof.
  intros (L1 & L3 & L2 & _) He He1 Hdata (p & Hp & Hk) Ht.
  set (buf := <[Z.to_nat (rpos c - 2) := NUL]> (readbuf c)).
  assert (Hset : set (readbuf (deregister c)) (rpos (deregister c) - 2) NUL = Some buf) by (apply set_eq; cbn [deregister readbuf rpos]; lia).
  assert (Hlen : alen buf = MAX_BUFLEN) by (unfold buf, alen; rewrite length_insert; exact L1).
  destruct (cstr_exists buf (e + 1) (rpos c - 2)) as [v Hv]; [lia|rewrite get_eq by lia; apply list_lookup_insert_eq; unfold alen in *; lia|].
  assert (Htk : take (Z.to_nat e) buf = take (Z.to_nat e) (readbuf c)) by (apply take_insert_ge; lia).
  set (c1 := let d := deregister c in set_state d buf (cmd_end d) (cmd_part d) (state d)).
  assert (H1 : part_str c1 1 = Some k) by (apply (part_in_str c1 e 1); exists p; cbn [c1 set_state readbuf]; by rewrite Htk).
  destruct Ht as [->| ->]; (eapply (task_safe_intro _ _ c1); [|exact Hlen|exact L2]); cbn [task_op]; rewrite Hset; cbn [mbind option_bind]; fold c1; rewrite H1; cbn [mbind option_bind];
    change (cmd_end c1) with (cmd_end c); rewrite He; cbn [mbind option_bind]; change (readbuf c1) with buf; rewrite Hv; reflexivity.
Qed.

Lemma command_outcome c x : conn_ok c -> state c <> CMD_CHECK -> registered c = Some EPOLLIN ->
  exists c' code t, hre_step (c, x) = Some (inr (c', Some (code, t))) /\ outcome_ok c' code t.
Proof.
  intros Hc Hne Hreg. pose proof Hc as (L1 & L3 & L2 & Hst). assert (Hin : command_in c) by (by destruct (state c)). pose proof Hin as (e & ws & He & Hr & Hw & Hok). unfold hre_step.
  assert (Hdereg : conn_ok (deregister c)) by exact Hc.
  assert (Hsafe : forall t, task_safe (deregister c) t -> outcome_ok (deregister c) 1 (Some t)).
  { intros t Ht. right. right. split; [done|]. split; [done|]. split; [done|]. by exists t. }
  destruct (state c) eqn:Es; try done; cbn [command_ok] in Hok.
  1, 2: eexists _, _, _; split; [reflexivity|]; apply Hsafe, get_task_safe; rewrite ?Es; auto.
  1, 2: destruct (ws !! 2%nat) as [w|] eqn:E2; [|done]; unfold number_ok in Hok; destruct (atoi w) as [n|] eqn:En; [|done]; apply andb_true_iff in Hok as [Hn1 Hn2];
    apply Z.leb_le in Hn1; apply Z.ltb_lt in Hn2; pose proof (part_in_str _ _ _ _ (Hw 2%nat w E2)) as Hp; change (Z.of_nat 2) with 2 in Hp; rewrite Hp; cbn [mbind option_bind];
    rewrite En; cbn [mbind option_bind]; rewrite int32_ok by (unfold in_i32; lia); cbn [mbind option_bind]; rewrite He; cbn [mbind option_bind];
    (destruct (Z.ltb_spec (rpos c - (e + 1)) (n + 2)); [exists c, 0, None; split; [done|]; right; left; auto|]);
    eexists _, _, _; (split; [reflexivity|]); apply Hsafe;
    (destruct (lookup_lt_is_Some_2 ws 1) as [k Hk]; [apply lookup_lt_Some in E2; lia|]); apply (store_task_safe c _ e k); auto; lia.
Qed.

(** ** The parser *)

(** The line [l], its end and what follows it are in the buffer. *)
Lemma parse_outcome c x e l post : alen (readbuf c) = MAX_BUFLEN -> length (cmd_part c) = 3%nat -> registered c = Some EPOLLIN ->
  state c = CMD_PARSE -> cmd_end c = Some e -> readbuf c = l ++ CR :: LF :: post -> alen l = e - 1 -> (LF ∉ l) -> e < rpos c <= MAX_BUFLEN ->
  words_fit (line_words l) = true ->
  (exists c', hre_step (c, x) = Some (inr (c', Some (-2, None)))) \/
  (exists c', hre_step (c, x) = Some (inl (c', None)) /\ conn_ok c' /\ state c' <> CMD_CHECK /\ registered c' = Some EPOLLIN).
Proof.
  intros L1 L2 Hreg Hs He Hb Hl Hlf Hr Hfit. pose proof (alen_nonneg l) as Hl0. unfold hre_step. rewrite Hs, He. cbn [mbind option_bind].
  rewrite Hb, <- Hl, set_middle. cbn [mbind option_bind].
  destruct (before_nul_split l (LF :: post)) as (post' & Esplit & Hnul & Hshort & Hsub). fold (line_words l) in *.
  assert (Hin : Forall inline (before_nul l)).
  { apply Forall_forall. intros a Ha. split; [by intros ->|]. intros ->. by apply Hlf, Hsub. }
  set (ws := line_words l) in *. assert (Hws : (length ws <= 3)%nat) by (unfold words_fit in Hfit; destruct ws; [done|]; apply andb_true_iff in Hfit as [H _]; by apply Nat.leb_le in H).
  destruct (tokens_any (length (before_nul l)) (before_nul l) [] post' [] (cmd_part c) (S (length (l ++ NUL :: LF :: post))) ltac:(lia) Hin) as (l' & ts & Et & Hl' & Hat).
  { rewrite length_app. lia. } { unfold ws, line_words in Hws. lia. }
  set (fuel := S (length (l ++ NUL :: LF :: post))) in *. rewrite Esplit. change (alen (@nil ascii)) with 0 in Et. change (alen (@nil (option Z))) with 0 in Et. cbn [app] in Et. rewrite Et. cbn [mbind option_bind].
  fold (line_words l) ws in Hat |- *. set (buf := l' ++ NUL :: post'). set (parts := ts ++ drop (length ws) (cmd_part c)).
  assert (Hparts : length parts = 3%nat) by (unfold parts; rewrite length_app, length_drop, (Forall2_length _ _ _ Hat); lia).
  assert (Hpart : forall st i w, ws !! i = Some w -> part_in (set_state c buf (Some e) parts st) e i w).
  { intros st i w Hi. destruct (Forall2_lookup_r _ _ _ _ _ Hat Hi) as (t & Ht & p & -> & Hc). exists p. cbn [set_state cmd_part readbuf].
    split; [unfold parts; rewrite lookup_app_l by (by eapply lookup_lt_Some); exact Ht|]. unfold buf.
    replace (take (Z.to_nat e) (l' ++ NUL :: post')) with ((l' ++ [NUL]) ++ take (Z.to_nat e - length (l' ++ [NUL])) post'); [by apply cstr_app|].
    replace (l' ++ NUL :: post') with ((l' ++ [NUL]) ++ post') by (by rewrite <- app_assoc). rewrite take_app, (take_ge (l' ++ [NUL])); [done|].
    rewrite length_app. unfold alen in Hl. cbn [length]. lia. }
  assert (Hbuf : alen buf = MAX_BUFLEN).
  { rewrite <- L1, Hb. pose proof (f_equal length Esplit) as Hlen. unfold buf, alen. rewrite !length_app in *. cbn [length] in *. lia. }
  destruct ws as [|w0 ws'] eqn:Ews; [done|]. pose proof (part_in_str _ _ _ _ (Hpart CMD_PARSE 0%nat w0 eq_refl)) as H0. change (Z.of_nat 0) with 0 in H0. rewrite H0.
  cbn [mbind option_bind]. cbn [words_fit] in Hfit. apply andb_true_iff in Hfit as [_ Hfit]. destruct (cmd_of w0) as [st|] eqn:Ec; [|left; by eexists].
  right. eexists. split; [reflexivity|].
  assert (Hin' : command_in (set_state c buf (Some e) parts st)) by (exists e, (w0 :: ws'); split; [done|]; split; [cbn [set_state rpos]; lia|]; split; [by apply Hpart|done]).
  assert (Hst : match st with CMD_CHECK | CMD_PARSE => False | _ => True end) by (unfold cmd_of in Ec; repeat case_decide; by simplify_eq).
  split; [|split; [by destruct st|exact Hreg]]. split; [exact Hbuf|]. split; [cbn [set_state rpos]; lia|]. split; [exact Hparts|]. by destruct st.
Qed.

Lemma handle_ok c : conn_ok c -> registered c = Some EPOLLIN ->
  (state c = CMD_CHECK -> line_ok (take (Z.to_nat (rpos c)) (readbuf c)) = true) ->
  exists c' code t, handle_read_event c = Some (c', code, t) /\ outcome_ok c' code t.
Proof.
  intros Hc Hreg Hline. pose proof Hc as (L1 & L3 & L2 & Hst). unfold handle_read_event. cbn [loop].
  assert (Hdec : state c = CMD_CHECK \/ state c <> CMD_CHECK) by (destruct (state c); [left|right..]; done). destruct Hdec as [Hs|Hs].
  2: { destruct (command_outcome c None Hc Hs Hreg) as (c' & code & t & -> & Ho). cbn [mbind option_bind]. by exists c', code, t. }
  specialize (Hline Hs). unfold line_ok in Hline. rewrite <- memchr_take in Hline. eassert (hre_step (c, None) = _) as E0 by (unfold hre_step; rewrite Hs; reflexivity). rewrite E0. clear E0.
  destruct (memchr (readbuf c) LF (Z.to_nat (rpos c))) as [e|] eqn:Em.
  2: { cbn [mbind option_bind]. eexists _, _, _. split; [reflexivity|]. right. left. split; [done|]. split; [done|]. split; [done|exact Hreg]. }
  destruct (memchr_some _ _ _ _ Em) as (a & b & Hb & He & Ha & Hlt).
  assert (Htk : take (Z.to_nat (rpos c)) (readbuf c) = a ++ LF :: take (Z.to_nat (rpos c) - S (length a)) b).
  { rewrite Hb, take_app_ge by (unfold alen in He; lia). f_equal. unfold alen in He. by replace (Z.to_nat (rpos c) - length a)%nat with (S (Z.to_nat (rpos c) - S (length a))) by lia. }
  rewrite Htk in Hline. destruct a as [|x a0 _] using rev_ind; [by rewrite <- He in Hline|].
  rewrite alen_app in He. change (alen [x]) with 1 in He. replace (e - 1) with (alen a0) in * by lia. rewrite <- app_assoc in Hline, Hb. cbn [app] in Hline, Hb.
  rewrite get_middle in Hline. assert (Hget : get (readbuf c) (alen a0) = Some x) by (rewrite Hb; apply get_middle). rewrite Hget. cbn [mbind option_bind].
  destruct (ascii_dec x CR) as [->|Hx]; cbn [mbind option_bind].
  2: { eexists _, _, _. split; [reflexivity|]. left. auto. }
  unfold alen at 1 in Hline. rewrite Nat2Z.id, take_app_length in Hline.
  set (c1 := set_state c (readbuf c) (Some e) (cmd_part c) CMD_PARSE).
  destruct (parse_outcome c1 None e a0 b L1 L2 Hreg eq_refl eq_refl Hb) as [(c' & E)|(c' & E & Hc' & Hs' & Hr')]; [lia|set_solver|cbn [c1 set_state rpos]; lia|exact Hline| |].
  - rewrite E. cbn [mbind option_bind]. eexists _, _, _. split; [reflexivity|]. left. auto.
  - rewrite E. cbn [mbind option_bind]. destruct (command_outcome c' None Hc' Hs' Hr') as (c2 & code & t & E2 & Ho). rewrite E2. cbn [mbind option_bind]. by exists c2, code, t.
Qed.

(** ** Events *)

Lemma store_length buf p d : 0 <= p -> p + alen d <= alen buf -> alen (store buf p d) = alen buf.
Proof. intros Hp Hd. unfold store, alen in *. rewrite !length_app, length_take, length_drop. lia. Qed.

Lemma stored_take buf p d : 0 <= p -> p + alen d <= alen buf -> take (Z.to_nat (p + alen d)) (store buf p d) = take (Z.to_nat p) buf ++ d.
Proof.
  intros Hp Hd. unfold store, alen in *. rewrite app_assoc. apply take_app_length'. rewrite length_app, length_take. lia.
Qed.

Lemma store_keeps buf p d n : 0 <= p -> p + alen d <= alen buf -> (n <= Z.to_nat p)%nat -> take n (store buf p d) = take n buf.
Proof. intros Hp Hd Hn. unfold store, alen in *. rewrite take_app_le by (rewrite length_take; lia). rewrite take_take. f_equal. lia. Qed.

(** C9. A connection is well formed after every event that leaves it open.  Whatever bytes
    arrive, in whatever well-formed state of the connection, and however the read ends,
    [handle_read_event] returns within its buffers, provided the command line, when it is
    complete, does not start with the end of the line, has one to three words and those the
    command needs, and that the length given for [add] and [set] is a number without a sign,
    small enough that the end of the data does not overflow.  Then the connection is closed,
    with a negative code (nothing is said of its slot); or it waits for more, well formed; or
    it has a task that finds its key and its data, and once the reply, if with its null byte
    it fits [writebuf], has been sent in whatever pieces, the connection is well formed again
    and reads. *)
Theorem connection_well_formed c avail last : conn_ok c -> registered c = Some EPOLLIN ->
  (state c = CMD_CHECK -> line_ok (take (Z.to_nat (rpos c)) (readbuf c) ++ take (Z.to_nat (MAX_BUFLEN - rpos c)) avail) = true) ->
  exists c' code closed t, on_readable c avail last = Some (c', code, closed, t) /\ outcome_ok c' code t /\
    (closed = 0 -> 0 <= code).
Proof.
  intros Hc Hreg Hline. pose proof Hc as (L1 & L3 & L2 & Hst). unfold on_readable. set (d := take _ avail) in *.
  assert (Hd : rpos c + alen d <= alen (readbuf c)) by (rewrite L1; unfold d, alen; rewrite length_take; lia). pose proof (alen_nonneg d) as Hd0.
  set (c1 := Client _ _ _ _ _ _ _ _ _).
  assert (Hc1 : conn_ok c1).
  { split; [cbn [c1 readbuf]; by rewrite store_length by lia|]. split; [cbn [c1 rpos]; lia|]. split; [exact L2|].
    assert (Hin : command_in c -> command_in c1).
    { intros Hin. pose proof Hin as (e & _ & He & Hr & _). apply (command_in_ext c); try done; [cbn [c1 rpos]; lia|]. intros e' He'. assert (e' = e) as -> by congruence.
      cbn [c1 readbuf]. apply store_keeps; lia. }
    cbn [c1 state]. destruct (state c); auto. }
  destruct (handle_ok c1 Hc1 Hreg) as (c' & code & t & E & Ho).
  { intros Hs. cbn [c1 rpos readbuf]. rewrite stored_take by lia. by apply Hline. }
  rewrite E. cbn [mbind option_bind]. eexists _, _, _, _. split; [reflexivity|]. split; [exact Ho|].
  intros H0. destruct (Z.ltb_spec code 0) as [Hneg|Hpos]; [|done]. exfalso. revert H0. clear. destruct (if _ =? _ then _ else last); lia.
Qed.

(** A connection that waits for the data of [set]. *)
Definition waiting : client := default client_new (fst <$> (fst <$> (fst <$> on_readable client_new (line "set  k 3") EAGAIN))).

Lemma connection_well_formed_witness : exists c' code closed t,
  on_readable waiting (line "abc") EAGAIN = Some (c', code, closed, t) /\ outcome_ok c' code t /\ (closed = 0 -> 0 <= code).
Proof.
  apply connection_well_formed.
  - split; [vm_compute; reflexivity|]. split; [vm_compute; split; discriminate|]. split; [vm_compute; reflexivity|].
    exists 9, [bytes_of "set"; bytes_of "k"; bytes_of "3"]. split; [vm_compute; reflexivity|]. split; [vm_compute; split; [discriminate|reflexivity]|].
    split; [|vm_compute; reflexivity]. intros [|[|[|i]]] w Hw; [..|done]; injection Hw as <-;
      [exists 0|exists 5|exists 7]; (split; [vm_compute; reflexivity|vm_compute; reflexivity]).
  - vm_compute. reflexivity.
  - vm_compute. discriminate.
Defined.
