(* ===== verification/Sorting.v ===== *)
(** * Sorting

    Models src/sorting: qsort.cpp, qsort2.cpp, 3way_qsort.cpp, partition.cpp and
    3way_partition.cpp (HeapSort and CountSort hold the other programs).  The sorted
    arrays are global and of constant size (at most 10^6), so indices and counters do
    not overflow an [int] and are plain integers.  [rand] is a tape of non-negative
    numbers; [None] is an access out of bounds or a failed [assert]. *)

From Stdlib Require Import ZArith Lia Sorting String.
From stdpp Require Import base list sorting sets.
From S2P Require Import Prelude Loops.

Local Open Scope Z_scope.
Local Open Scope cpp_scope.

Implicit Types (a : list Z) (l h i k : Z).

(** ** Partitions *)

(** qsort.cpp: the pivot goes to the end, smaller elements to the front. *)
Definition partition_step (pivot_val : Z) (s : list Z * Z * Z) : option (list Z * Z * Z) :=
  let '(a, i, k) := s in
  x ← get a i;
  if x <=? pivot_val then a ← swap a i k; Some (a, i + 1, k + 1) else Some (a, i + 1, k).

Definition partition a l h (rand : Z) : option (list Z * Z) :=
  VERIFY! (1 <? h - l) ;;
  let pivot := l + Z.rem rand (h - l) in
  pivot_val ← get a pivot;
  a ← swap a pivot (h - 1);
  '(a, _, k) ← repeat_n (Z.to_nat (h - 1 - l)) (partition_step pivot_val) (a, l, l);
  a ← swap a (h - 1) k;
  Some (a, k).

(** qsort2.cpp: two indices that move towards each other. *)
Definition scan_high a (pivot_val low high : Z) : option Z :=
  loop (S (Z.to_nat (high - low)))
    (fun high => if low <? high then x ← get a high; Some (if pivot_val <=? x then inl (high - 1) else inr high)
                 else Some (inr high)) high.
Definition scan_low a (pivot_val low high : Z) : option Z :=
  loop (S (Z.to_nat (high - low)))
    (fun low => if low <? high then x ← get a low; Some (if x <=? pivot_val then inl (low + 1) else inr low)
                else Some (inr low)) low.

Definition partition2_step (pivot_val : Z) (s : list Z * Z * Z) : option (list Z * Z * Z + list Z * Z * Z) :=
  let '(a, low, high) := s in
  if low <? high then
    high ← scan_high a pivot_val low high;
    if low =? high then Some (inr (a, low, high))
    else
      low ← scan_low a pivot_val low high;
      a ← swap a low high;
      Some (inl (a, low, high))
  else Some (inr (a, low, high)).

Definition partition2 a l h (rand : Z) : option (list Z * Z) :=
  VERIFY! (2 <=? h - l) ;;
  let pivot := l + Z.rem rand (h - l) in
  pivot_val ← get a pivot;
  a ← swap a pivot l;
  '(a, low, _) ← loop (S (Z.to_nat (h - l))) (partition2_step pivot_val) (a, l, h - 1);
  a ← swap a l low;
  Some (a, low).

(** 3way_partition.cpp, and the loop of 3way_qsort.cpp: smaller, equal, greater. *)
Definition partition3_step (pivot_val : Z) (s : list Z * Z * Z * Z)
    : option (list Z * Z * Z * Z + list Z * Z * Z * Z) :=
  let '(a, lt, i, gt) := s in
  if i <=? gt then
    x ← get a i;
    if x <? pivot_val then a ← swap a i lt; Some (inl (a, lt + 1, i + 1, gt))
    else if x =? pivot_val then Some (inl (a, lt, i + 1, gt))
    else a ← swap a i gt; Some (inl (a, lt, i, gt - 1))
  else Some (inr (a, lt, i, gt)).

Definition partition3_loop a l h (pivot_val : Z) : option (list Z * Z * Z * Z) :=
  loop (S (S (Z.to_nat (h - l)))) (partition3_step pivot_val) (a, l, l, h).

(** 3way_partition.cpp: the pivot value is 1. *)
Definition partition3 a l h : option (list Z) := '(a, _, _, _) ← partition3_loop a l h 1; Some a.

(** partition.cpp: the first element is the pivot.  The bounds are tested after the
    element is read, so the reads may be one past either end. *)
Definition scan_i a (low i j : Z) : option Z :=
  loop (S (S (Z.to_nat (j + 1 - i))))
    (fun i => x ← get a i; p ← get a low; Some (if (x <=? p) && (i <=? j) then inl (i + 1) else inr i)) i.
Definition scan_j a (low i j : Z) : option Z :=
  loop (S (S (Z.to_nat (j + 1 - i))))
    (fun j => x ← get a j; p ← get a low; Some (if (p <=? x) && (i <=? j) then inl (j - 1) else inr j)) j.

Definition partition1_step (low : Z) (s : list Z * Z * Z) : option (list Z * Z * Z + list Z * Z * Z) :=
  let '(a, i, j) := s in
  if i <=? j then
    i ← scan_i a low i j;
    j ← scan_j a low i j;
    if j <? i then Some (inr (a, i, j))
    else a ← swap a i j; Some (inl (a, i + 1, j - 1))
  else Some (inr (a, i, j)).

Definition partition1 a (low high : Z) : option (list Z * Z) :=
  '(a, _, j) ← loop (S (S (Z.to_nat (high - low)))) (partition1_step low) (a, low + 1, high);
  a ← swap a low j;
  Some (a, j).

(** ** Quicksort *)

(** The array, [cnt] and the numbers [rand] has given. *)
Record sort_state := SortState { arr : list Z; cnt : Z; drawn : nat }.

Section Qsort.
Variable rand : nat -> Z.

(** [qsort] of qsort.cpp and of qsort2.cpp, for their [partition]. *)
Fixpoint qsort_with (partition : list Z -> Z -> Z -> Z -> option (list Z * Z)) (fuel : nat) (s : sort_state) l h
    : option sort_state :=
  match fuel with
  | O => None
  | S fuel =>
      let s := SortState (arr s) (cnt s + 1) (drawn s) in
      if h - l <=? 1 then Some s
      else
        '(a, pivot) ← partition (arr s) l h (rand (drawn s));
        s ← qsort_with partition fuel (SortState a (cnt s) (S (drawn s))) l pivot;
        qsort_with partition fuel s (pivot + 1) h
  end.

Definition qsort a : option sort_state := qsort_with partition (S (length a)) (SortState a 0 0) 0 (alen a).
Definition qsort2 a : option sort_state := qsort_with partition2 (S (length a)) (SortState a 0 0) 0 (alen a).

(** [qsort] of 3way_qsort.cpp, on [[l, h]]. *)
Fixpoint qsort3_rec (fuel : nat) (s : sort_state) l h : option sort_state :=
  match fuel with
  | O => None
  | S fuel =>
      let s := SortState (arr s) (cnt s + 1) (drawn s) in
      if h - l <? 1 then Some s
      else
        let pivot := l + Z.rem (rand (drawn s)) (h - l) + 1 in
        pivot_val ← get (arr s) pivot;
        '(a, lt, i, _) ← partition3_loop (arr s) l h pivot_val;
        s ← qsort3_rec fuel (SortState a (cnt s) (S (drawn s))) l (lt - 1);
        qsort3_rec fuel s i h
  end.

Definition qsort3 a : option sort_state := qsort3_rec (S (length a)) (SortState a 0 0) 0 (alen a - 1).
End Qsort.

(** ** What a partition promises to quicksort *)

Class Partition (part : list Z -> Z -> Z -> Z -> option (list Z * Z)) : Prop :=
  partition_ok a l h r : 0 <= l -> 2 <= h - l -> h <= alen a -> 0 <= r ->
    exists a' k pv, part a l h r = Some (a', k) /\ l <= k < h /\ rearr l h a a' /\ get a' k = Some pv /\
      all_in (fun x => x <= pv) l k a' /\ all_in (fun x => pv <= x) (k + 1) h a'.

(** An element at an index moved by a swap, by the cases of the index. *)
Ltac moved Hg :=
  let j := fresh "j" in let x := fresh "x" in let Hj := fresh "Hj" in let Hx := fresh "Hx" in
  intros j x Hj; rewrite Hg; destruct_and?; repeat case_bool; intros Hx; simplify_eq;
  first [ lia | done
        | match goal with H : all_in _ _ _ _ |- _ =>
            let B := fresh in pose proof (fun b => H _ _ b Hx) as B; cbn beta in B; specialize (B ltac:(lia)); lia end ].

Definition lomuto_inv (l h pv : Z) a0 (n : nat) (s : list Z * Z * Z) : Prop :=
  let '(a, i, k) := s in
  i = l + Z.of_nat n /\ l <= k <= i /\ rearr l h a0 a /\
  all_in (fun x => x <= pv) l k a /\ all_in (fun x => pv < x) k i a.

Lemma lomuto_step l h pv a0 n s : 0 <= l -> h <= alen a0 -> l + Z.of_nat n < h -> lomuto_inv l h pv a0 n s ->
  exists s', partition_step pv s = Some s' /\ lomuto_inv l h pv a0 (S n) s'.
Proof.
  destruct s as [[a i] k]. intros Hl Hh Hn (-> & Hk & Hr & Hle & Hgt). pose proof (rearr_alen _ _ _ _ Hr) as Hlen.
  destruct (get_in a (l + Z.of_nat n) ltac:(lia)) as [x Hx]. unfold partition_step. rewrite Hx. cbn [mbind option_bind].
  case_bool.
  - destruct (swap_spec l h a (l + Z.of_nat n) k ltac:(lia) ltac:(lia) Hl ltac:(lia)) as (a' & -> & Hr' & Hg).
    cbn [mbind option_bind]. eexists. split; [done|]. split; [lia|]. split; [lia|]. split; [by eapply rearr_trans|]. split; moved Hg.
  - eexists. split; [done|]. split; [lia|]. split; [lia|]. split; [done|]. split; [done|].
    intros j y Hj Hy. destruct (decide (j = l + Z.of_nat n)) as [->|]; [simplify_eq; lia|]. apply (Hgt j y); [lia|done].
Qed.

#[export] Instance partition_partition : Partition partition.
Proof.
  intros a l h r Hl Hlh Hh Hr. unfold partition, VERIFY. rewrite (proj2 (Z.ltb_lt 1 (h - l))) by lia.
  pose proof (Z.rem_bound_pos r (h - l) Hr ltac:(lia)) as Hrem. set (pv := l + Z.rem r (h - l)) in *.
  destruct (get_in a pv ltac:(lia)) as [p Hp]. rewrite Hp. cbn [mbind option_bind].
  destruct (swap_spec l h a pv (h - 1) ltac:(lia) ltac:(lia) Hl Hh) as (a1 & -> & Hr1 & Hg1). cbn [mbind option_bind].
  pose proof (rearr_alen _ _ _ _ Hr1) as Hlen1.
  destruct (repeat_n_ok (lomuto_inv l (h - 1) p a1) (partition_step p) (Z.to_nat (h - 1 - l))) with (s := (a1, l, l))
    as ([[a2 i2] k2] & -> & Hi2 & Hk2 & Hr2 & Hle & Hgt).
  { intros k s Hk. apply lomuto_step; lia. }
  { split; [lia|]. split; [lia|]. split; [apply rearr_refl|]. split; intros ? ? ?; lia. }
  cbn [mbind option_bind]. pose proof (rearr_alen _ _ _ _ Hr2) as Hlen2.
  destruct (swap_spec l h a2 (h - 1) k2 ltac:(lia) ltac:(lia) Hl ltac:(lia)) as (a3 & -> & Hr3 & Hg3). cbn [mbind option_bind].
  assert (Hlast : get a2 (h - 1) = Some p).
  { destruct Hr2 as [_ Ho]. rewrite Ho by lia. rewrite Hg1. by rewrite Z.eqb_refl. }
  exists a3, k2, p. split; [done|]. split; [lia|]. split; [|split; [|split]].
  - eapply rearr_trans; [exact Hr1|]. eapply rearr_trans; [|exact Hr3]. eapply rearr_weaken; [| |exact Hr2]; lia.
  - by rewrite Hg3, Z.eqb_refl.
  - moved Hg3.
  - moved Hg3.
Defined.

Lemma scan_high_ok a pv low high : 0 <= low <= high -> high < alen a -> exists high',
  scan_high a pv low high = Some high' /\ low <= high' <= high /\ all_in (fun x => pv <= x) (high' + 1) (high + 1) a /\
  (low < high' -> exists x, get a high' = Some x /\ x < pv).
Proof.
  intros Hl Hh. unfold scan_high.
  apply (loop_ok (fun hi => low <= hi <= high /\ all_in (fun x => pv <= x) (hi + 1) (high + 1) a) _ (fun hi => Z.to_nat (hi - low)));
    [|split; [lia|intros ? ? ?; lia]|lia].
  intros hi [Hhi Hall]. case_bool.
  - destruct (get_in a hi ltac:(lia)) as [x Hx]. rewrite Hx. cbn [mbind option_bind]. eexists. split; [done|]. case_bool.
    + split; [split; [lia|]|lia]. intros j y Hj Hy. destruct (decide (j = hi)) as [->|]; [by simplify_eq|].
      apply (Hall j y); [lia|done].
    + split; [lia|]. split; [done|]. intros _. by exists x.
  - eexists. split; [done|]. cbn. split; [lia|]. split; [done|]. lia.
Qed.

Lemma scan_low_ok a pv low high : 0 <= low <= high -> high < alen a -> exists low',
  scan_low a pv low high = Some low' /\ low <= low' <= high /\ all_in (fun x => x <= pv) low low' a /\
  (low' < high -> exists x, get a low' = Some x /\ pv < x).
Proof.
  intros Hl Hh. unfold scan_low.
  apply (loop_ok (fun lo => low <= lo <= high /\ all_in (fun x => x <= pv) low lo a) _ (fun lo => Z.to_nat (high - lo)));
    [|split; [lia|intros ? ? ?; lia]|lia].
  intros lo [Hlo Hall]. case_bool.
  - destruct (get_in a lo ltac:(lia)) as [x Hx]. rewrite Hx. cbn [mbind option_bind]. eexists. split; [done|]. case_bool.
    + split; [split; [lia|]|lia]. intros j y Hj Hy. destruct (decide (j = lo)) as [->|]; [by simplify_eq|].
      apply (Hall j y); [lia|done].
    + split; [lia|]. split; [done|]. intros _. by exists x.
  - eexists. split; [done|]. cbn. split; [lia|]. split; [done|]. lia.
Qed.

Definition hoare_inv (l h pv : Z) a0 (s : list Z * Z * Z) : Prop :=
  let '(a, low, high) := s in
  l <= low <= high /\ high < h /\ rearr l h a0 a /\ get a l = Some pv /\
  all_in (fun x => x <= pv) l (low + 1) a /\ all_in (fun x => pv <= x) (high + 1) h a.

Lemma hoare_step l h pv a0 s : 0 <= l -> h <= alen a0 -> hoare_inv l h pv a0 s ->
  exists r, partition2_step pv s = Some r /\
    match r with
    | inl s' => hoare_inv l h pv a0 s' /\ (Z.to_nat (s'.2 - s'.1.2) < Z.to_nat (s.2 - s.1.2))%nat
    | inr s' => hoare_inv l h pv a0 s' /\ s'.1.2 = s'.2
    end.
Proof.
  destruct s as [[a low] high]. intros Hl Hh (Hlh & Hhi & Hr & Hpv & Hle & Hge). pose proof (rearr_alen _ _ _ _ Hr) as Hlen.
  unfold partition2_step. destruct (Z.ltb_spec low high) as [Hlt|]; [|eexists; split; [done|]; unfold hoare_inv; cbn; repeat split; try done; try lia; apply Hr].
  destruct (scan_high_ok a pv low high ltac:(lia) ltac:(lia)) as (high' & -> & Hh' & Hge' & Hx'). cbn [mbind option_bind].
  assert (Hge2 : all_in (fun x => pv <= x) (high' + 1) h a).
  { intros j y Hj Hy. destruct (decide (j < high + 1)); [apply (Hge' j y)|apply (Hge j y)]; (done || lia). }
  destruct (Z.eqb_spec low high') as [<-|Hne]; [eexists; split; [done|]; unfold hoare_inv; cbn; repeat split; try done; try lia; apply Hr|].
  destruct (Hx' ltac:(lia)) as (y & Hy & Hylt).
  destruct (scan_low_ok a pv low high' ltac:(lia) ltac:(lia)) as (low' & -> & Hl' & Hle' & Hz'). cbn [mbind option_bind].
  assert (Hadv : low < low').
  { destruct (decide (low' = low)) as [->|]; [|lia]. destruct (Hz' ltac:(lia)) as (z & Hz & Hlz).
    pose proof (Hle low z ltac:(lia) Hz) as H. cbn beta in H. lia. }
  destruct (swap_spec l h a low' high' ltac:(lia) ltac:(lia) Hl ltac:(lia)) as (a' & -> & Hr' & Hg). cbn [mbind option_bind].
  eexists. split; [done|]. cbn. split; [|lia]. split; [lia|]. split; [lia|]. split; [by eapply rearr_trans|]. split.
  { rewrite Hg. destruct (Z.eqb_spec l high'), (Z.eqb_spec l low'); try lia. done. }
  assert (Hle2 : all_in (fun x => x <= pv) l low' a).
  { intros j z Hj Hz. destruct (decide (j < low + 1)); [apply (Hle j z)|apply (Hle' j z)]; (done || lia). }
  clear Hle Hle' Hge Hge' Hz'. destruct (decide (low' = high')) as [->|]; split; moved Hg.
Qed.

#[export] Instance partition2_partition : Partition partition2.
Proof.
  intros a l h r Hl Hlh Hh Hr. unfold partition2, VERIFY. rewrite (proj2 (Z.leb_le 2 (h - l))) by lia.
  pose proof (Z.rem_bound_pos r (h - l) Hr ltac:(lia)) as Hrem. set (pv := l + Z.rem r (h - l)) in *.
  destruct (get_in a pv ltac:(lia)) as [p Hp]. rewrite Hp. cbn [mbind option_bind].
  destruct (swap_spec l h a pv l ltac:(lia) ltac:(lia) Hl Hh) as (a1 & -> & Hr1 & Hg1). cbn [mbind option_bind].
  pose proof (rearr_alen _ _ _ _ Hr1) as Hlen1. assert (Hg1l : get a1 l = Some p) by (rewrite Hg1, Z.eqb_refl; done).
  destruct (loop_ok (hoare_inv l h p a1) (fun s => hoare_inv l h p a1 s /\ s.1.2 = s.2) (fun s => Z.to_nat (s.2 - s.1.2)) (partition2_step p))
    with (fuel := S (Z.to_nat (h - l))) (s := (a1, l, h - 1)) as ([[a2 low] high] & -> & (Hk & Hkh & Hr2 & Hpl & Hle & Hge) & Heq).
  { intros s Hs. apply (hoare_step l h p a1 s); [lia|lia|done]. }
  { split; [lia|]. split; [lia|]. split; [apply rearr_refl|]. split; [done|]. split; [|intros ? ? ?; lia].
    intros j x Hj Hx. replace j with l in Hx by lia. by simplify_eq. }
  { cbn. lia. }
  cbn in Heq. subst high. cbn [mbind option_bind]. pose proof (rearr_alen _ _ _ _ Hr2) as Hlen2.
  destruct (swap_spec l h a2 l low ltac:(lia) ltac:(lia) Hl ltac:(lia)) as (a3 & -> & Hr3 & Hg3). cbn [mbind option_bind].
  exists a3, low, p. split; [done|]. split; [lia|]. split; [|split; [|split]].
  - eapply rearr_trans; [exact Hr1|]. by eapply rearr_trans.
  - by rewrite Hg3, Z.eqb_refl.
  - moved Hg3.
  - moved Hg3.
Defined.

(** ** Quicksort sorts *)

Lemma sorted_join l m h a pv : sorted_in l m a -> sorted_in m h a ->
  all_in (fun x => x <= pv) l m a -> all_in (fun x => pv <= x) m h a -> sorted_in l h a.
Proof.
  intros H1 H2 Hle Hge i j x y Hij Hj Hx Hy. destruct (decide (j < m)); [apply (H1 i j); (done || lia)|].
  destruct (decide (m <= i)); [apply (H2 i j); (done || lia)|].
  pose proof (Hle i x ltac:(lia) Hx). pose proof (Hge j y ltac:(lia) Hy). cbn in *. lia.
Qed.

Lemma sorted_short l h a : h <= l + 1 -> sorted_in l h a.
Proof. intros H i j x y Hij Hj Hx Hy. replace j with i in Hy by lia. by simplify_eq. Qed.

Lemma sorted_const l h a pv : all_in (fun x => x = pv) l h a -> sorted_in l h a.
Proof. intros H i j x y Hij Hj Hx Hy. rewrite (H i x), (H j y) by (done || lia). done. Qed.

Lemma sorted_outside l h l' h' a b : h' <= l \/ h <= l' -> rearr l h a b -> sorted_in l' h' a -> sorted_in l' h' b.
Proof. intros ? [_ Ho] Hs i j x y Hij Hj. rewrite !Ho by lia. by apply Hs. Qed.

(** Two parts around elements equal to the pivot, sorted one after the other. *)
Lemma sort_parts l m k h a b c pv : 0 <= l -> l <= m -> m <= k -> k <= h -> h <= alen a ->
  rearr l m a b -> sorted_in l m b -> rearr k h b c -> sorted_in k h c ->
  all_in (fun x => x <= pv) l m a -> all_in (fun x => x = pv) m k a -> all_in (fun x => pv <= x) k h a ->
  rearr l h a c /\ sorted_in l h c.
Proof.
  intros Hl Hm Hk Hh Hlen Hr1 Hs1 Hr2 Hs2 Hle Heq Hge. pose proof (rearr_alen _ _ _ _ Hr1) as Hl1. split.
  { eapply rearr_trans; [eapply rearr_weaken; [| |exact Hr1]; lia|]. eapply rearr_weaken; [| |exact Hr2]; lia. }
  assert (Heqc : all_in (fun x => x = pv) m k c).
  { eapply rearr_all_out; [|exact Hr2|]; [lia|]. eapply rearr_all_out; [|exact Hr1|]; [lia|done]. }
  assert (Hgec : all_in (fun x => pv <= x) k h c).
  { apply (rearr_all_in _ k h b c); [lia|lia|done|]. eapply rearr_all_out; [|exact Hr1|]; [lia|done]. }
  apply (sorted_join l m h c pv).
  - eapply sorted_outside; [|exact Hr2|]; [lia|done].
  - apply (sorted_join m k h c pv); [by eapply sorted_const|done| |done].
    apply (all_in_weaken (fun x => x = pv) _ m k); [intros ? ->; cbn; lia|lia|lia|done].
  - eapply rearr_all_out; [|exact Hr2|]; [lia|]. apply (rearr_all_in _ l m a b); [lia|lia|done..].
  - intros j x Hj Hx. destruct (decide (j < k)); [by rewrite (Heqc j x ltac:(lia) Hx)|].
    apply (Hgec j x); (done || lia).
Qed.

(** The three-way partition of [[l, h]]. *)
Definition part3_inv (l h pv : Z) a0 (s : list Z * Z * Z * Z) : Prop :=
  let '(a, lt, i, gt) := s in
  l <= lt <= i /\ i <= gt + 1 <= h + 1 /\ rearr l (h + 1) a0 a /\
  all_in (fun x => x < pv) l lt a /\ all_in (fun x => x = pv) lt i a /\ all_in (fun x => pv < x) (gt + 1) (h + 1) a.

Lemma part3_step l h pv a0 s : 0 <= l -> h < alen a0 -> part3_inv l h pv a0 s ->
  exists r, partition3_step pv s = Some r /\
    match r with
    | inl s' => part3_inv l h pv a0 s' /\ (Z.to_nat (s'.2 + 1 - s'.1.2) < Z.to_nat (s.2 + 1 - s.1.2))%nat
    | inr s' => part3_inv l h pv a0 s' /\ s'.1.2 = s'.2 + 1
    end.
Proof.
  destruct s as [[[a lt] i] gt]. intros Hl Hh (Hlt & Hi & Hr & H1 & H2 & H3). pose proof (rearr_alen _ _ _ _ Hr) as Hlen.
  unfold partition3_step. destruct (Z.leb_spec i gt).
  - destruct (get_in a i ltac:(lia)) as [x Hx]. rewrite Hx. cbn [mbind option_bind].
    destruct (Z.ltb_spec x pv); [|destruct (Z.eqb_spec x pv) as [->|]].
    + destruct (swap_spec l (h + 1) a i lt ltac:(lia) ltac:(lia) Hl ltac:(lia)) as (a' & -> & Hr' & Hg). cbn [mbind option_bind].
      eexists. split; [done|]. cbn. split; [|lia]. split; [lia|]. split; [lia|]. split; [by eapply rearr_trans|].
      split; [|split]; moved Hg.
    + eexists. split; [done|]. cbn. split; [|lia]. split; [lia|]. split; [lia|]. split; [done|]. split; [done|]. split; [|done].
      intros j y Hj Hy. destruct (decide (j = i)) as [->|]; [by simplify_eq|]. apply (H2 j y); (done || lia).
    + destruct (swap_spec l (h + 1) a i gt ltac:(lia) ltac:(lia) Hl ltac:(lia)) as (a' & -> & Hr' & Hg). cbn [mbind option_bind].
      eexists. split; [done|]. cbn. split; [|lia]. split; [lia|]. split; [lia|]. split; [by eapply rearr_trans|].
      split; [|split]; moved Hg.
  - eexists. split; [done|]. cbn. split; [|lia]. split; [lia|]. split; [lia|]. split; [done|]. by split.
Qed.

Lemma partition3_loop_ok a l h pv : 0 <= l <= h + 1 -> h < alen a -> exists a' lt i,
  partition3_loop a l h pv = Some (a', lt, i, i - 1) /\ part3_inv l h pv a (a', lt, i, i - 1).
Proof.
  intros Hl Hh. unfold partition3_loop.
  destruct (loop_ok (part3_inv l h pv a) (fun s => part3_inv l h pv a s /\ s.1.2 = s.2 + 1) (fun s => Z.to_nat (s.2 + 1 - s.1.2)) (partition3_step pv))
    with (fuel := S (S (Z.to_nat (h - l)))) (s := (a, l, l, h)) as ([[[a' lt] i] gt] & -> & Hinv & Hi).
  { intros s Hs. apply (part3_step l h pv a s); [lia|lia|done]. }
  { split; [lia|]. split; [lia|]. split; [apply rearr_refl|]. split; [|split]; intros ? ? ?; lia. }
  { cbn. lia. }
  cbn in Hi. replace gt with (i - 1) in * by lia. by exists a', lt, i.
Qed.

Section QsortCorrect.
Variable rand : nat -> Z.
Hypothesis rand_nonneg : forall n : nat, 0 <= rand n.

(** What a sort of [[l, h)] does to the array and to [cnt]. *)
Definition sorts l h (s s' : sort_state) : Prop :=
  rearr l h (arr s) (arr s') /\ sorted_in l h (arr s') /\ cnt s < cnt s' <= cnt s + 2 * (h - l) + 1.

Lemma sorts_short l h s : l <= h <= l + 1 -> sorts l h s (SortState (arr s) (cnt s + 1) (drawn s)).
Proof. intros H. split; [apply rearr_refl|]. split; [apply sorted_short; lia|cbn; lia]. Qed.

Lemma qsort_with_ok part `{!Partition part} fuel : forall s l h, 0 <= l <= h -> h <= alen (arr s) -> (Z.to_nat (h - l) < fuel)%nat ->
  exists s', qsort_with rand part fuel s l h = Some s' /\ sorts l h s s'.
Proof using rand_nonneg.
  induction fuel as [|fuel IH]; intros s l h Hl Hh Hf; [lia|]. cbn [qsort_with].
  destruct (Z.leb_spec (h - l) 1); [eexists; split; [done|]; apply sorts_short; lia|]. cbn [arr cnt drawn].
  destruct (partition_ok (arr s) l h (rand (drawn s))) as (a' & k & pv & -> & Hk & Hr & Hpv & Hle & Hge); [lia..|done|].
  cbn [mbind option_bind]. pose proof (rearr_alen _ _ _ _ Hr) as Hlen.
  destruct (IH (SortState a' (cnt s + 1) (S (drawn s))) l k) as (s1 & -> & Hr1 & Hs1 & Hc1); [lia|cbn; lia|lia|].
  cbn [mbind option_bind arr cnt] in *. pose proof (rearr_alen _ _ _ _ Hr1) as Hlen1.
  destruct (IH s1 (k + 1) h) as (s2 & -> & Hr2 & Hs2 & Hc2); [lia|lia|lia|].
  exists s2. split; [done|].
  destruct (sort_parts l k (k + 1) h a' (arr s1) (arr s2) pv) as [Hr3 Hs3]; try done; try lia.
  { intros j x Hj Hx. replace j with k in Hx by lia. by simplify_eq. }
  split; [by eapply rearr_trans|]. split; [done|]. lia.
Qed.

Lemma qsort3_rec_ok fuel : forall s l h, 0 <= l <= h + 1 -> h < alen (arr s) -> (Z.to_nat (h + 1 - l) < fuel)%nat ->
  exists s', qsort3_rec rand fuel s l h = Some s' /\ sorts l (h + 1) s s'.
Proof using rand_nonneg.
  induction fuel as [|fuel IH]; intros s l h Hl Hh Hf; [lia|]. cbn [qsort3_rec].
  destruct (Z.ltb_spec (h - l) 1); [eexists; split; [done|]; apply sorts_short; lia|]. cbn [arr cnt drawn].
  pose proof (Z.rem_bound_pos (rand (drawn s)) (h - l) ltac:(done) ltac:(lia)) as Hrem. set (p := l + Z.rem _ _ + 1) in *.
  destruct (get_in (arr s) p ltac:(lia)) as [pv Hpv]. rewrite Hpv. cbn [mbind option_bind].
  destruct (partition3_loop_ok (arr s) l h pv ltac:(lia) ltac:(lia)) as (a' & lt & i & -> & Hlt & Hi & Hr & H1 & H2 & H3).
  cbn [mbind option_bind]. pose proof (rearr_alen _ _ _ _ Hr) as Hlen. replace (i - 1 + 1) with i in * by lia.
  assert (Hne : lt < i).
  { assert (Hin : pv ∈ segm l (h + 1) a') by (rewrite (rearr_segm l (h + 1) (arr s) a') by (done || lia); apply elem_of_segm; [lia|]; exists p; split; [lia|done]).
    apply elem_of_segm in Hin as (j & Hj & Hx); [|lia]. destruct (decide (j < lt)); [specialize (H1 j pv ltac:(lia) Hx); cbn in H1; lia|].
    destruct (decide (i <= j)); [specialize (H3 j pv ltac:(lia) Hx); cbn in H3; lia|lia]. }
  destruct (IH (SortState a' (cnt s + 1) (S (drawn s))) l (lt - 1)) as (s1 & -> & Hr1 & Hs1 & Hc1); [lia|cbn; lia|lia|].
  cbn [mbind option_bind arr cnt] in *. replace (lt - 1 + 1) with lt in * by lia. pose proof (rearr_alen _ _ _ _ Hr1) as Hlen1.
  destruct (IH s1 i h) as (s2 & -> & Hr2 & Hs2 & Hc2); [lia|lia|lia|].
  exists s2. split; [done|].
  destruct (sort_parts l lt i (h + 1) a' (arr s1) (arr s2) pv) as [Hr3 Hs3]; try done; try lia.
  { apply (all_in_weaken (fun x => x < pv) _ l lt); [cbn; lia|lia|lia|done]. }
  { apply (all_in_weaken (fun x => pv < x) _ i (h + 1)); [cbn; lia|lia|lia|done]. }
  split; [by eapply rearr_trans|]. split; [done|]. lia.
Qed.

(** A sort of the whole array gives what the standard library's [sort] gives. *)
Lemma sorts_all a s' : sorts 0 (alen a) (SortState a 0 0) s' -> arr s' = std_sort a /\ 0 < cnt s' <= 2 * alen a + 1.
Proof.
  intros (Hr & Hs & Hc). cbn in *. pose proof (rearr_alen _ _ _ _ Hr) as Hl. split; [|lia].
  apply sorted_in_unique; [by rewrite Hl|apply Hr].
Qed.

(** C14. The three quicksorts of the repository ([qsort] of qsort.cpp, of qsort2.cpp and of
    3way_qsort.cpp) terminate without an access out of bounds or a failed [assert] on every
    array and for every sequence of non-negative numbers [rand] gives, leave the array as the
    standard library's [sort] would (the comparison their own [verify] makes), and call
    themselves at most [2 n + 1] times, which bounds the counter [cnt]. *)
Theorem quicksorts_sort a : exists s1 s2 s3,
  qsort rand a = Some s1 /\ qsort2 rand a = Some s2 /\ qsort3 rand a = Some s3 /\
  (forall s, s ∈ [s1; s2; s3] -> arr s = std_sort a /\ 0 < cnt s <= 2 * alen a + 1).
Proof using rand_nonneg.
  destruct (qsort_with_ok partition (S (length a)) (SortState a 0 0) 0 (alen a)) as (s1 & E1 & H1); [unfold alen; cbn; lia..|].
  destruct (qsort_with_ok partition2 (S (length a)) (SortState a 0 0) 0 (alen a)) as (s2 & E2 & H2); [unfold alen; cbn; lia..|].
  destruct (qsort3_rec_ok (S (length a)) (SortState a 0 0) 0 (alen a - 1)) as (s3 & E3 & H3); [unfold alen; cbn; lia..|].
  replace (alen a - 1 + 1) with (alen a) in H3 by lia.
  exists s1, s2, s3. split; [done|]. split; [done|]. split; [done|]. intros s Hs. apply sorts_all. set_unfold. naive_solver.
Qed.
End QsortCorrect.

Lemma quicksorts_sort_witness : exists s1 s2 s3,
  qsort Z.of_nat [3; 1; 2; 1] = Some s1 /\ qsort2 Z.of_nat [3; 1; 2; 1] = Some s2 /\ qsort3 Z.of_nat [3; 1; 2; 1] = Some s3 /\
  (forall s, s ∈ [s1; s2; s3] -> arr s = std_sort [3; 1; 2; 1] /\ 0 < cnt s <= 2 * alen [3; 1; 2; 1] + 1).
Proof. apply quicksorts_sort. intros n. lia. Defined.

(** ** The stand-alone partitions *)

(** 3way_partition.cpp sorts an array of the values 0, 1 and 2. *)
Lemma partition3_sorts a : Forall (fun x => 0 <= x <= 2) a -> partition3 a 0 (alen a - 1) = Some (std_sort a).
Proof.
  intros Ha. unfold partition3. assert (0 <= alen a) by (unfold alen; lia).
  destruct (partition3_loop_ok a 0 (alen a - 1) 1 ltac:(lia) ltac:(lia)) as (a' & lt & i & -> & Hlt & Hi & Hr & H1 & H2 & H3).
  cbn [mbind option_bind]. f_equal. pose proof (rearr_alen _ _ _ _ Hr) as Hlen. replace (i - 1 + 1) with i in * by lia.
  replace (alen a - 1 + 1) with (alen a) in * by lia.
  assert (Hall : forall j x, get a' j = Some x -> 0 <= x <= 2).
  { intros j x Hx. rewrite Forall_forall in Ha. apply Ha. destruct Hr as [<- _]. pose proof (get_range _ _ _ Hx).
    rewrite get_eq in Hx by lia. by eapply list_elem_of_lookup_2. }
  apply sorted_in_unique; [|apply Hr]. rewrite Hlen.
  destruct (sort_parts 0 lt i (alen a) a' a' a' 1) as [_ Hs]; try done; try lia; try apply rearr_refl.
  - apply (sorted_const _ _ _ 0). intros j x Hj Hx. pose proof (H1 j x Hj Hx). pose proof (Hall j x Hx). cbn in *. lia.
  - apply (sorted_const _ _ _ 2). intros j x Hj Hx. pose proof (H3 j x Hj Hx). pose proof (Hall j x Hx). cbn in *. lia.
  - apply (all_in_weaken (fun x => x < 1) _ 0 lt); [cbn; lia|lia|lia|done].
  - apply (all_in_weaken (fun x => 1 < x) _ i (alen a)); [cbn; lia|lia|lia|done].
Qed.

Lemma scan_i_ok a p low i j : get a low = Some p -> 0 <= i <= j + 1 -> j + 1 < alen a -> exists i',
  scan_i a low i j = Some i' /\ i <= i' <= j + 1 /\ all_in (fun x => x <= p) i i' a /\
  (i' <= j -> exists x, get a i' = Some x /\ p < x).
Proof.
  intros Hp Hi Hj. unfold scan_i.
  apply (loop_ok (fun k => i <= k <= j + 1 /\ all_in (fun x => x <= p) i k a) _ (fun k => Z.to_nat (j + 1 - k)));
    [|split; [lia|intros ? ? ?; lia]|lia].
  intros k [Hk Hall]. destruct (get_in a k ltac:(lia)) as [x Hx]. rewrite Hx, Hp. cbn [mbind option_bind].
  eexists. split; [done|]. destruct (Z.leb_spec x p), (Z.leb_spec k j); cbn [andb].
  - split; [split; [lia|]|lia]. intros m y Hm Hy. destruct (decide (m = k)) as [->|]; [by simplify_eq|].
    apply (Hall m y); (done || lia).
  - split; [lia|]. split; [done|lia].
  - split; [lia|]. split; [done|]. intros _. by exists x.
  - split; [lia|]. split; [done|lia].
Qed.

Lemma scan_j_ok a p low i j : get a low = Some p -> 0 < i <= j + 1 -> j < alen a -> exists j',
  scan_j a low i j = Some j' /\ i - 1 <= j' <= j /\ all_in (fun x => p <= x) (j' + 1) (j + 1) a /\
  (i <= j' -> exists x, get a j' = Some x /\ x < p).
Proof.
  intros Hp Hi Hj. unfold scan_j.
  apply (loop_ok (fun k => i - 1 <= k <= j /\ all_in (fun x => p <= x) (k + 1) (j + 1) a) _ (fun k => Z.to_nat (k + 1 - i)));
    [|split; [lia|intros ? ? ?; lia]|lia].
  intros k [Hk Hall]. destruct (get_in a k ltac:(lia)) as [x Hx]. rewrite Hx, Hp. cbn [mbind option_bind].
  eexists. split; [done|]. destruct (Z.leb_spec p x), (Z.leb_spec i k); cbn [andb].
  - split; [split; [lia|]|lia]. intros m y Hm Hy. destruct (decide (m = k)) as [->|]; [by simplify_eq|].
    apply (Hall m y); (done || lia).
  - split; [lia|]. split; [done|lia].
  - split; [lia|]. split; [done|]. intros _. by exists x.
  - split; [lia|]. split; [done|lia].
Qed.

Definition part1_inv (low high p : Z) a0 (s : list Z * Z * Z) : Prop :=
  let '(a, i, j) := s in
  low < i <= j + 1 /\ j <= high /\ rearr (low + 1) (high + 1) a0 a /\
  all_in (fun x => x <= p) (low + 1) i a /\ all_in (fun x => p <= x) (j + 1) (high + 1) a.

Lemma part1_step low high p a0 s : 0 <= low -> high + 1 < alen a0 -> get a0 low = Some p -> part1_inv low high p a0 s ->
  exists r, partition1_step low s = Some r /\
    match r with
    | inl s' => part1_inv low high p a0 s' /\ (Z.to_nat (s'.2 + 1 - s'.1.2) < Z.to_nat (s.2 + 1 - s.1.2))%nat
    | inr s' => part1_inv low high p a0 s' /\ s'.1.2 = s'.2 + 1
    end.
Proof.
  destruct s as [[a i] j]. intros Hl Hh Hp (Hi & Hj & Hr & Hle & Hge). pose proof (rearr_alen _ _ _ _ Hr) as Hlen.
  assert (Hpa : get a low = Some p) by (destruct Hr as [_ Ho]; rewrite Ho by lia; done).
  unfold partition1_step. destruct (Z.leb_spec i j); [|eexists; split; [done|]; cbn; split; [|lia]; repeat split; (done || lia || apply Hr)].
  destruct (scan_i_ok a p low i j Hpa ltac:(lia) ltac:(lia)) as (i' & -> & Hi' & Hle' & Hx). cbn [mbind option_bind].
  destruct (scan_j_ok a p low i' j Hpa ltac:(lia) ltac:(lia)) as (j' & -> & Hj' & Hge' & Hy). cbn [mbind option_bind].
  assert (Hle2 : all_in (fun x => x <= p) (low + 1) i' a).
  { intros m z Hm Hz. destruct (decide (m < i)); [apply (Hle m z)|apply (Hle' m z)]; (done || lia). }
  assert (Hge2 : all_in (fun x => p <= x) (j' + 1) (high + 1) a).
  { intros m z Hm Hz. destruct (decide (m < j + 1)); [apply (Hge' m z)|apply (Hge m z)]; (done || lia). }
  destruct (Z.ltb_spec j' i'); [eexists; split; [done|]; cbn; split; [|lia]; repeat split; (done || lia || apply Hr)|].
  destruct (Hx ltac:(lia)) as (x & Ex & Hxp), (Hy ltac:(lia)) as (y & Ey & Hyp).
  assert (Hne : i' <> j') by (intros ->; simplify_eq; lia).
  destruct (swap_spec (low + 1) (high + 1) a i' j' ltac:(lia) ltac:(lia) ltac:(lia) ltac:(lia)) as (a' & -> & Hr' & Hg). cbn [mbind option_bind].
  eexists. split; [done|]. cbn. split; [|lia]. split; [lia|]. split; [lia|]. split; [by eapply rearr_trans|].
  clear Hle Hle' Hge Hge' Hx Hy. split; moved Hg.
Qed.

(** partition.cpp partitions [[low, high]] when the array has an element after [high]. *)
Lemma partition1_ok a low high p : 0 <= low <= high -> high + 1 < alen a -> get a low = Some p -> exists a' j,
  partition1 a low high = Some (a', j) /\ low <= j <= high /\ rearr low (high + 1) a a' /\ get a' j = Some p /\
  all_in (fun x => x <= p) low j a' /\ all_in (fun x => p <= x) (j + 1) (high + 1) a'.
Proof.
  intros Hl Hh Hp. unfold partition1.
  destruct (loop_ok (part1_inv low high p a) (fun s => part1_inv low high p a s /\ s.1.2 = s.2 + 1) (fun s => Z.to_nat (s.2 + 1 - s.1.2)) (partition1_step low))
    with (fuel := S (S (Z.to_nat (high - low)))) (s := (a, low + 1, high)) as ([[a1 i] j] & -> & (Hi & Hj & Hr & Hle & Hge) & Heq).
  { intros s Hs. apply (part1_step low high p a s); [lia|lia|done..]. }
  { split; [lia|]. split; [lia|]. split; [apply rearr_refl|]. split; intros ? ? ?; lia. }
  { cbn. lia. }
  cbn in Heq. cbn [mbind option_bind]. pose proof (rearr_alen _ _ _ _ Hr) as Hlen.
  assert (Hpa : get a1 low = Some p) by (destruct Hr as [_ Ho]; rewrite Ho by lia; done).
  destruct (swap_spec low (high + 1) a1 low j ltac:(lia) ltac:(lia) ltac:(lia) ltac:(lia)) as (a2 & -> & Hr2 & Hg). cbn [mbind option_bind].
  exists a2, j. split; [done|]. split; [lia|]. split; [|split; [|split]].
  - eapply rearr_trans; [|exact Hr2]. eapply rearr_weaken; [| |exact Hr]; lia.
  - by rewrite Hg, Z.eqb_refl.
  - moved Hg.
  - moved Hg.
Qed.

(** On the array the comments of partition.cpp try, the index runs past its end. *)
Lemma partition1_reads_past_end : partition1 [5; 3] 0 1 = None /\ partition1 [5; 3; 9] 0 1 = Some ([3; 5; 9], 1).
Proof. done. Qed.
