(* ===== verification/HeapSort.v ===== *)
(** * Heapsort

    Models src/sorting/heapsort.cpp: [sink] (which goes on to a leaf also when it no
    longer swaps), [heap_make], [heap_pop] and [heapsort]. *)

From Stdlib Require Import ZArith Lia Sorting.
From stdpp Require Import base list sorting.
From S2P Require Import Prelude Loops Sorting.

Local Open Scope Z_scope.

Implicit Types (a : list Z) (i j k n : Z).

Definition sink_step n (s : list Z * Z) : option (list Z * Z + list Z * Z) :=
  let '(a, i) := s in
  if i <? n then
    let lc := 2 * (i + 1) - 1 in
    let rc := 2 * (i + 1) in
    if n <=? lc then Some (inr (a, i))
    else if n <=? rc then
      x ← get a i; y ← get a lc;
      a ← (if x <? y then swap a i lc else Some a);
      Some (inr (a, i))
    else
      y ← get a lc; z ← get a rc;
      let mi := if z <? y then lc else rc in
      x ← get a i; y ← get a mi;
      a ← (if x <? y then swap a i mi else Some a);
      Some (inl (a, mi))
  else Some (inr (a, i)).

Definition sink a i n : option (list Z) := '(a, _) ← loop (S (Z.to_nat n)) (sink_step n) (a, i); Some a.

Definition heap_make a n : option (list Z) :=
  '(a, _) ← repeat_n (Z.to_nat (Z.quot n 2)) (fun '(a, i) => a ← sink a i n; Some (a, i - 1)) (a, Z.quot n 2 - 1);
  Some a.

Definition heap_pop a n : option (list Z) := a ← swap a 0 (n - 1); sink a 0 (n - 1).

Definition heapsort a n : option (list Z) :=
  a ← heap_make a n;
  '(a, _) ← repeat_n (Z.to_nat n) (fun '(a, i) => a ← heap_pop a (n - i); Some (a, i + 1)) (a, 0);
  Some a.

(** ** The heap order *)

Definition child (p c : Z) : Prop := c = 2 * p + 1 \/ c = 2 * p + 2.
Definition val a i : Z := default 0 (get a i).

(** The elements of [[k, n)] are in heap order, except those under [i]; what is under
    [i] is not greater than the element above [i]. *)
Definition heap_but (i k n : Z) a : Prop :=
  (forall p c, k <= p -> child p c -> c < n -> p <> i -> val a c <= val a p) /\
  (forall p c, k <= p -> child p i -> child i c -> c < n -> val a c <= val a p).
Definition heap (k n : Z) a : Prop := forall p c, k <= p -> child p c -> c < n -> val a c <= val a p.

Lemma val_get a i x : get a i = Some x -> val a i = x.
Proof. unfold val. by intros ->. Qed.

Lemma val_swap a a' i j : (forall k, get a' k = if k =? j then get a i else if k =? i then get a j else get a k) ->
  forall k, val a' k = if k =? j then val a i else if k =? i then val a j else val a k.
Proof. intros Hg k. unfold val. rewrite Hg. by repeat case_bool. Qed.

(** One round: the greatest child [mi] of [i] changes places with it when greater. *)
Lemma sink_round i mi k n a a' : heap_but i k n a -> 0 <= k <= i -> child i mi -> mi < n ->
  (forall c, child i c -> c < n -> val a c <= val a mi) ->
  (forall j, val a' j = if val a i <? val a mi then (if j =? mi then val a i else if j =? i then val a mi else val a j) else val a j) ->
  heap_but mi k n a'.
Proof.
  intros [H1 H2] Hk Hmi Hmn Hmax Hv. unfold child in *. split.
  - intros p c Hp Hc Hcn Hne. unfold child in Hc. rewrite !Hv. destruct (Z.eqb_spec p mi); [done|].
    destruct (decide (p = i)) as [->|Hpi].
    + rewrite (Z.eqb_refl i). specialize (Hmax c Hc Hcn). repeat case_bool; lia.
    + specialize (H1 p c Hp Hc Hcn Hpi). destruct (Z.eqb_spec c mi); [lia|]. destruct (Z.eqb_spec p i); [lia|].
      destruct (Z.eqb_spec c i) as [->|]; [|case_bool; lia]. specialize (H2 p mi Hp Hc Hmi Hmn).
      case_bool; lia.
  - intros p c Hp Hpc Hc Hcn. unfold child in Hpc, Hc. replace p with i by lia. rewrite !Hv. specialize (H1 mi c ltac:(lia) Hc Hcn ltac:(lia)).
    repeat case_bool; lia.
Qed.

Definition sink_inv (k n : Z) a0 (s : list Z * Z) : Prop := let '(a, i) := s in rearr k n a0 a /\ k <= i /\ heap_but i k n a.

(** The conditional swap of [i] with the child [mi]. *)
Lemma swap_if k n a0 a i mi x y : 0 <= k <= i -> i < n -> n <= alen a0 -> child i mi -> mi < n -> rearr k n a0 a ->
  get a i = Some x -> get a mi = Some y -> exists a', (if x <? y then swap a i mi else Some a) = Some a' /\ rearr k n a0 a' /\
  (forall j, val a' j = if val a i <? val a mi then (if j =? mi then val a i else if j =? i then val a mi else val a j) else val a j).
Proof.
  intros Hk Hi Hn Hc Hmi Hr Hx Hy. pose proof (rearr_alen _ _ _ _ Hr) as Hlen. rewrite (val_get _ _ _ Hx), (val_get _ _ _ Hy).
  unfold child in Hc. case_bool; [|by exists a].
  destruct (swap_spec k n a i mi ltac:(lia) ltac:(lia) ltac:(lia) ltac:(lia)) as (a' & -> & Hr' & Hg).
  exists a'. split; [done|]. split; [by eapply rearr_trans|]. intros j. rewrite (val_swap a a' i mi Hg).
  by rewrite (val_get _ _ _ Hx), (val_get _ _ _ Hy).
Qed.

Lemma heap_but_leaf i k n a : heap_but i k n a -> n <= 2 * i + 1 -> heap k n a.
Proof. intros [H _] Hi p c Hp Hc Hn. apply H; try done. unfold child in Hc. lia. Qed.

Lemma sink_step_ok k n a0 s : 0 <= k -> n <= alen a0 -> sink_inv k n a0 s -> exists r, sink_step n s = Some r /\
  match r with
  | inl s' => sink_inv k n a0 s' /\ (Z.to_nat (n - s'.2) < Z.to_nat (n - s.2))%nat
  | inr s' => rearr k n a0 s'.1 /\ heap k n s'.1
  end.
Proof.
  destruct s as [a i]. intros Hk Hn (Hr & Hi & Hb). pose proof (rearr_alen _ _ _ _ Hr) as Hlen. unfold sink_step.
  destruct (Z.ltb_spec i n); [|eexists; split; [done|]; split; [done|]; apply (heap_but_leaf i); [done|lia]].
  destruct (Z.leb_spec n (2 * (i + 1) - 1)); [eexists; split; [done|]; split; [done|]; apply (heap_but_leaf i); [done|lia]|].
  destruct (get_in a i ltac:(lia)) as [x Hx], (get_in a (2 * (i + 1) - 1) ltac:(lia)) as [y Hy].
  destruct (Z.leb_spec n (2 * (i + 1))).
  - rewrite Hx, Hy. cbn [mbind option_bind].
    destruct (swap_if k n a0 a i (2 * (i + 1) - 1) x y) as (a' & -> & Hr' & Hv); [unfold child; (done || lia)..|].
    cbn [mbind option_bind]. eexists. split; [done|]. split; [done|]. apply (heap_but_leaf (2 * (i + 1) - 1)); [|lia].
    apply (sink_round i _ k n a); try done; unfold child; try lia.
    intros c Hc Hcn. replace c with (2 * (i + 1) - 1) by lia. done.
  - destruct (get_in a (2 * (i + 1)) ltac:(lia)) as [z Hz]. rewrite Hy, Hz. cbn [mbind option_bind].
    set (mi := if z <? y then 2 * (i + 1) - 1 else 2 * (i + 1)).
    assert (Hmi : child i mi /\ i < mi < n) by (subst mi; unfold child; case_bool; lia).
    assert (Hmax : forall c, child i c -> c < n -> val a c <= val a mi).
    { intros c Hc _. assert (c = 2 * (i + 1) - 1 \/ c = 2 * (i + 1)) as [-> | ->] by (unfold child in Hc; lia);
      subst mi; case_bool; rewrite ?(val_get _ _ _ Hy), ?(val_get _ _ _ Hz); lia. }
    clearbody mi. destruct (get_in a mi ltac:(lia)) as [w Hw]. rewrite Hx, Hw. cbn [mbind option_bind].
    destruct (swap_if k n a0 a i mi x w) as (a' & -> & Hr' & Hv); [try apply Hmi; (done || lia)..|].
    cbn [mbind option_bind]. eexists. split; [done|]. split; [|cbn; lia]. split; [done|]. split; [lia|].
    apply (sink_round i _ k n a); try done; try apply Hmi.
Qed.

Lemma sink_ok k n i a : 0 <= k <= i -> n <= alen a -> heap_but i k n a ->
  exists a', sink a i n = Some a' /\ rearr k n a a' /\ heap k n a'.
Proof.
  intros Hk Hn Hb. unfold sink.
  destruct (loop_ok (sink_inv k n a) (fun s => rearr k n a s.1 /\ heap k n s.1) (fun s => Z.to_nat (n - s.2)) (sink_step n))
    with (fuel := S (Z.to_nat n)) (s := (a, i)) as ([a' i'] & -> & Hr & Hh).
  { intros s Hs. apply (sink_step_ok k n a s); [lia|lia|done]. }
  { split; [apply rearr_refl|]. split; [lia|done]. }
  { cbn. lia. }
  by exists a'.
Qed.

Lemma heap_make_ok a n : 0 <= n <= alen a -> exists a', heap_make a n = Some a' /\ rearr 0 n a a' /\ heap 0 n a'.
Proof.
  intros Hn. unfold heap_make. pose proof (Z.quot_div_nonneg n 2 ltac:(lia) ltac:(lia)) as ->.
  set (m := n / 2). assert (Hm : 0 <= m /\ n - 1 <= 2 * m <= n) by (subst m; Z.div_mod_to_equations; lia). clearbody m.
  destruct (repeat_n_ok (fun r '(b, i) => i = m - 1 - Z.of_nat r /\ rearr 0 n a b /\ heap (i + 1) n b)
    (fun '(a, i) => a ← sink a i n; Some (a, i - 1)) (Z.to_nat m)) with (s := (a, m - 1)) as ([b i] & -> & Hi & Hr & Hh).
  - intros r [b i] Hr (-> & Hrb & Hh). pose proof (rearr_alen _ _ _ _ Hrb) as Hlen.
    destruct (sink_ok (m - 1 - Z.of_nat r) n (m - 1 - Z.of_nat r) b) as (b' & -> & Hr' & Hh'); [lia|lia| |].
    + split; unfold child in *; intros p c Hp; [intros; apply Hh; unfold child; lia|lia].
    + cbn [mbind option_bind]. eexists. split; [done|]. split; [lia|]. split.
      * eapply rearr_trans; [exact Hrb|]. eapply rearr_weaken; [| |exact Hr']; lia.
      * by replace (m - 1 - Z.of_nat r - 1 + 1) with (m - 1 - Z.of_nat r) by lia.
  - split; [lia|]. split; [apply rearr_refl|]. intros p c Hp Hc. unfold child in Hc. lia.
  - cbn [mbind option_bind]. exists b. split; [done|]. split; [done|]. by replace (i + 1) with 0 in Hh by lia.
Qed.

Lemma heap_max n a : heap 0 n a -> forall j, 0 <= j < n -> val a j <= val a 0.
Proof.
  intros Hh j Hj. assert (exists m, j < Z.of_nat m) as [m Hm] by (exists (S (Z.to_nat j)); lia). revert j Hj Hm.
  induction m as [|m IH]; intros j Hj Hm; [lia|]. destruct (decide (j = 0)) as [->|]; [lia|].
  set (p := (j - 1) / 2). assert (0 <= p < j /\ child p j) as [? Hc] by (subst p; unfold child; Z.div_mod_to_equations; lia).
  transitivity (val a p); [apply Hh; (done || lia)|apply IH; lia].
Qed.

(** The first [m] elements are a heap, the others in order and not smaller. *)
Definition pop_inv (m n : Z) a0 a : Prop :=
  rearr 0 n a0 a /\ heap 0 m a /\ sorted_in m n a /\ (forall i j, 0 <= i < m -> m <= j < n -> val a i <= val a j).

Lemma heap_pop_ok m n a0 a : 0 < m <= n -> n <= alen a0 -> pop_inv m n a0 a ->
  exists a', heap_pop a m = Some a' /\ pop_inv (m - 1) n a0 a'.
Proof.
  intros Hm Hn (Hr & Hh & Hs & Hle). pose proof (rearr_alen _ _ _ _ Hr) as Hlen. unfold heap_pop.
  destruct (swap_spec 0 m a 0 (m - 1) ltac:(lia) ltac:(lia) ltac:(lia) ltac:(lia)) as (b & -> & Hrb & Hg).
  cbn [mbind option_bind]. pose proof (val_swap _ _ _ _ Hg) as Hv. pose proof (rearr_alen _ _ _ _ Hrb) as Hlenb.
  pose proof (heap_max m a Hh) as Hmax.
  destruct (sink_ok 0 (m - 1) 0 b) as (c & -> & Hrc & Hhc); [lia|lia| |].
  { split; unfold child; intros p q Hp; [|lia]. intros Hc Hq Hne. specialize (Hh p q ltac:(lia) Hc ltac:(lia)).
    rewrite !Hv. repeat case_bool; lia. }
  exists c. split; [done|].
  assert (Hgc : forall j, m - 1 <= j -> get c j = get b j) by (intros j Hj; apply Hrc; lia).
  assert (Hout : forall j, m <= j -> get c j = get a j).
  { intros j Hj. rewrite Hgc by lia. apply Hrb. lia. }
  assert (Htop : val c (m - 1) = val a 0) by (unfold val at 1; rewrite Hgc by lia; fold (val b (m - 1)); by rewrite Hv, Z.eqb_refl).
  assert (Hsmall : forall i, 0 <= i < m - 1 -> exists i', 0 <= i' < m /\ val c i = val a i').
  { intros i Hi. destruct (get_in b i ltac:(lia)) as [x Hx].
    assert (alen c = alen b) by (by eapply rearr_alen). destruct (get_in c i ltac:(lia)) as [y Hy].
    assert (Hin : y ∈ segm 0 (m - 1) b) by (rewrite <- (rearr_segm 0 (m - 1) b c) by (done || lia); apply elem_of_segm; [lia|eauto]).
    apply elem_of_segm in Hin as (j & Hj & Ej); [|lia]. rewrite (val_get _ _ _ Hy), <- (val_get _ _ _ Ej), Hv.
    repeat case_bool; [lia|exists (m - 1)|exists j]; (split; [lia|done]). }
  split; [|split; [done|split]].
  - eapply rearr_trans; [exact Hr|]. apply (rearr_trans _ _ _ b); [apply (rearr_weaken 0 m)|apply (rearr_weaken 0 (m - 1))]; (done || lia).
  - intros i j x y Hij Hj Hx Hy. destruct (decide (i = m - 1)) as [->|].
    + apply val_get in Hx as <-. rewrite Htop. destruct (decide (j = m - 1)) as [->|]; [by rewrite <- (val_get _ _ _ Hy), Htop|].
      rewrite Hout in Hy by lia. apply val_get in Hy as <-. apply Hle; lia.
    + rewrite Hout in Hx, Hy by lia. apply (Hs i j x y); (done || lia).
  - intros i j Hi Hj. destruct (Hsmall i Hi) as (i' & Hi' & ->). destruct (decide (j = m - 1)) as [->|]; [rewrite Htop; by apply Hmax|].
    unfold val at 2. rewrite Hout by lia. apply Hle; lia.
Qed.

(** C15. [heapsort] terminates without an access out of bounds on every array and leaves it
    as the standard library's [sort] would, for the [n] that is the length of the array:
    [sink] restores the heap order although it does not stop at the first element in place,
    [heap_make] builds a heap from the middle down and [heap_pop] puts the greatest element
    behind the rest. *)
Theorem heapsort_sorts a : heapsort a (alen a) = Some (std_sort a).
Proof.
  unfold heapsort. assert (Hn : 0 <= alen a) by (unfold alen; lia).
  destruct (heap_make_ok a (alen a) ltac:(lia)) as (b & -> & Hr & Hh). cbn [mbind option_bind].
  destruct (repeat_n_ok (fun r '(c, i) => i = Z.of_nat r /\ pop_inv (alen a - i) (alen a) a c)
    (fun '(c, i) => c ← heap_pop c (alen a - i); Some (c, i + 1)) (Z.to_nat (alen a))) with (s := (b, 0)) as ([c i] & -> & Hi & Hp).
  - intros r [c i] Hlt (-> & Hp). destruct (heap_pop_ok (alen a - Z.of_nat r) (alen a) a c ltac:(lia) ltac:(done) Hp) as (c' & -> & Hp').
    cbn [mbind option_bind]. eexists. split; [done|]. split; [lia|].
    by replace (alen a - (Z.of_nat r + 1)) with (alen a - Z.of_nat r - 1) by lia.
  - split; [lia|]. rewrite Z.sub_0_r. split; [done|]. split; [done|]. split; [apply sorted_short; lia|lia].
  - cbn [mbind option_bind]. f_equal. destruct Hp as (Hrc & _ & Hs & _). replace (alen a - i) with 0 in Hs by lia.
    pose proof (rearr_alen _ _ _ _ Hrc) as Hl. apply sorted_in_unique; [by rewrite Hl|apply Hrc].
Qed.
