(* ===== verification/CountSort.v ===== *)
(** * Counting sort

    Models src/sorting/count_sort.cpp and count_sort2.cpp: students sorted by their
    section, 1 to 4.  The result is the array the code prints; [None] is an access out
    of bounds or a cell of it that was never written. *)

From Stdlib Require Import ZArith Lia String.
From stdpp Require Import base list sets.
From S2P Require Import Prelude Loops.

Local Open Scope Z_scope.

Record student := Student { name : string; section_no : Z }.
Implicit Types (arr : list student) (c : list Z) (k : Z).

(** [c[k] += d] *)
Definition add_at c k (d : Z) : option (list Z) := x ← get c k; set c k (x + d).

(** How many students each section has. *)
Fixpoint count_keys arr c : option (list Z) :=
  match arr with
  | [] => Some c
  | s :: arr => c ← add_at c (section_no s - 1) 1; count_keys arr c
  end.

(** count_sort.cpp: [key2index], the index of the first student of each section. *)
Definition key2index_step (key2count : list Z) (st : list Z * Z) : option (list Z * Z) :=
  let '(key2index, i) := st in
  x ← get key2index (i - 1); y ← get key2count (i - 1);
  key2index ← set key2index i (x + y);
  Some (key2index, i + 1).

Fixpoint place arr (key2index : list Z) (arr2 : list (option student)) : option (list (option student)) :=
  match arr with
  | [] => Some arr2
  | s :: arr =>
      let key := section_no s - 1 in
      new_index ← get key2index key;
      arr2 ← set arr2 new_index (Some s);
      key2index ← add_at key2index key 1;
      place arr key2index arr2
  end.

Definition count_sort arr : option (list student) :=
  key2count ← count_keys arr [0; 0; 0; 0];
  '(key2index, _) ← repeat_n 3 (key2index_step key2count) ([0; 0; 0; 0], 1);
  arr2 ← place arr key2index (replicate (length arr) None);
  mapM (fun x => x) arr2.

(** count_sort2.cpp: [count], the number of students up to each section. *)
Definition sum_step (st : list Z * Z) : option (list Z * Z) :=
  let '(count, i) := st in
  x ← get count (i - 1); count ← add_at count i x; Some (count, i + 1).

Fixpoint place2 arr (count : list Z) (arr2 : list (option student)) : option (list (option student)) :=
  match arr with
  | [] => Some arr2
  | s :: arr =>
      let key := section_no s - 1 in
      new_index ← get count key;
      arr2 ← set arr2 (new_index - 1) (Some s);
      count ← add_at count key (-1);
      place2 arr count arr2
  end.

Definition count_sort2 arr : option (list student) :=
  count ← count_keys arr [0; 0; 0; 0];
  '(count, _) ← repeat_n 3 sum_step (count, 1);
  arr2 ← place2 arr count (replicate (length arr) None);
  mapM (fun x => x) arr2.

(** ** The sections *)

Definition section k arr : list student := filter (fun s => section_no s - 1 = k) arr.
Definition csec k arr : Z := alen (section k arr).
Definition key_ok (s : student) : Prop := 1 <= section_no s <= 4.

(** The counters as a function of the key. *)
Definition table (f : Z -> Z) : list Z := [f 0; f 1; f 2; f 3].

Lemma key_cases k : 0 <= k < 4 -> k = 0 \/ k = 1 \/ k = 2 \/ k = 3.
Proof. lia. Qed.
Lemma get_table f k : 0 <= k < 4 -> get (table f) k = Some (f k).
Proof. intros H%key_cases. by destruct H as [-> | [-> | [-> | ->]]]. Qed.
Lemma add_at_table f k d : 0 <= k < 4 -> add_at (table f) k d = Some (table (fun j => if j =? k then f k + d else f j)).
Proof. intros H%key_cases. by destruct H as [-> | [-> | [-> | ->]]]. Qed.
Lemma table_ext f g : (forall k, 0 <= k < 4 -> f k = g k) -> table f = table g.
Proof. intros H. unfold table. by rewrite !H by lia. Qed.

Lemma csec_nil k : csec k [] = 0.
Proof. done. Qed.
Lemma csec_cons k s arr : csec k (s :: arr) = (if section_no s - 1 =? k then 1 else 0) + csec k arr.
Proof.
  unfold csec, section, alen. rewrite filter_cons. destruct (Z.eqb_spec (section_no s - 1) k); [rewrite decide_True by done|rewrite decide_False by done];
    cbn [length]; lia.
Qed.

Lemma count_keys_ok arr : forall f, Forall key_ok arr -> count_keys arr (table f) = Some (table (fun k => f k + csec k arr)).
Proof.
  induction arr as [|s arr IH]; intros f Harr.
  - cbn [count_keys]. f_equal. apply table_ext. intros k Hk. unfold csec, section, alen. cbn. lia.
  - apply Forall_cons in Harr as [Hs Harr]. unfold key_ok in Hs. cbn [count_keys].
    rewrite add_at_table by lia. cbn [mbind option_bind]. rewrite IH by done. f_equal. apply table_ext. intros k Hk.
    rewrite csec_cons. repeat case_bool; subst; lia.
Qed.

Lemma csec_total arr : Forall key_ok arr -> alen arr = csec 0 arr + csec 1 arr + csec 2 arr + csec 3 arr.
Proof.
  induction arr as [|s arr IH]; [done|]. intros [Hs Harr]%Forall_cons. specialize (IH Harr). rewrite !csec_cons.
  unfold key_ok in Hs. unfold alen in *. cbn [length]. repeat case_bool; lia.
Qed.

Definition off arr k : Z :=
  (if 0 <? k then csec 0 arr else 0) + (if 1 <? k then csec 1 arr else 0) + (if 2 <? k then csec 2 arr else 0).

(** The students section by section. *)
Definition by_section (f : list student -> list student) arr : list student :=
  f (section 0 arr) ++ f (section 1 arr) ++ f (section 2 arr) ++ f (section 3 arr).

(** ** Placing the students *)

Section Place.
Variable arr : list student.
Hypothesis keys : Forall key_ok arr.

(** The cell of the [m]-th student of section [k]: from the front of the cells of the
    section, or from their end. *)
Variable pos : Z -> Z -> Z.
Hypothesis pos_in : forall k m, 0 <= k < 4 -> 0 <= m < csec k arr -> off arr k <= pos k m < off arr k + csec k arr.
Hypothesis pos_inj : forall k m m', 0 <= k < 4 -> 0 <= m < csec k arr -> 0 <= m' < csec k arr -> pos k m = pos k m' -> m = m'.

(** The cells when the students of [done] have been placed. *)
Definition placed (done : list student) (out : list (option student)) : Prop :=
  alen out = alen arr /\
  forall k m, 0 <= k < 4 -> 0 <= m < csec k arr -> get out (pos k m) = Some (get (section k done) m).

Lemma off_bound k : 0 <= k < 4 -> 0 <= off arr k /\ off arr k + csec k arr <= alen arr.
Proof using keys.
  intros Hk. rewrite (csec_total arr keys). assert (forall k, 0 <= csec k arr) as Hc by (intros; unfold csec, alen; lia).
  pose proof (Hc 0). pose proof (Hc 1). pose proof (Hc 2). pose proof (Hc 3).
  unfold off. apply key_cases in Hk as [-> | [-> | [-> | ->]]]; cbn; lia.
Qed.

Lemma pos_other k m k' m' : 0 <= k < 4 -> 0 <= m < csec k arr -> 0 <= k' < 4 -> 0 <= m' < csec k' arr -> k <> k' -> pos k m <> pos k' m'.
Proof using pos_in.
  intros Hk Hm Hk' Hm' Hne. pose proof (pos_in k m Hk Hm) as H1. pose proof (pos_in k' m' Hk' Hm') as H2.
  assert (forall k, 0 <= csec k arr) as Hc by (intros; unfold csec, alen; lia).
  pose proof (Hc 0). pose proof (Hc 1). pose proof (Hc 2). pose proof (Hc 3). unfold off in *.
  apply key_cases in Hk as [-> | [-> | [-> | ->]]]; apply key_cases in Hk' as [-> | [-> | [-> | ->]]]; try done; cbn in *; lia.
Qed.

Lemma section_snoc k done s : section k (done ++ [s]) = section k done ++ (if section_no s - 1 =? k then [s] else []).
Proof.
  unfold section. rewrite filter_app. f_equal. rewrite filter_cons.
  destruct (Z.eqb_spec (section_no s - 1) k); [by rewrite decide_True|by rewrite decide_False].
Qed.

Lemma placed_step done s todo out : arr = done ++ s :: todo -> placed done out ->
  let k := section_no s - 1 in
  0 <= k < 4 /\ 0 <= csec k done < csec k arr /\
  exists out', set out (pos k (csec k done)) (Some s) = Some out' /\ placed (done ++ [s]) out'.
Proof using keys pos_in pos_inj.
  intros Harr [Hlen Hp] k. assert (Hk : 0 <= k < 4).
  { rewrite Forall_forall in keys. assert (key_ok s) as Hs by (apply keys; rewrite Harr; set_solver). unfold key_ok in Hs. lia. }
  assert (Hm : 0 <= csec k done < csec k arr).
  { unfold csec. rewrite Harr. unfold section, alen. rewrite filter_app, filter_cons, decide_True by done. rewrite length_app. cbn [length]. lia. }
  split; [done|]. split; [done|]. pose proof (pos_in k _ Hk Hm). pose proof (off_bound k Hk).
  destruct (set_spec out (pos k (csec k done)) (Some s)) as (out' & -> & Hl & Hg); [lia|].
  exists out'. split; [done|]. split; [lia|]. intros k' m' Hk' Hm'. rewrite Hg, section_snoc.
  destruct (Z.eqb_spec (section_no s - 1) k') as [<-|Hne].
  - fold k. fold k in Hm'. rewrite get_snoc. fold (csec k done). destruct (Z.eqb_spec m' (csec k done)) as [->|Hne].
    + by rewrite Z.eqb_refl.
    + destruct (Z.eqb_spec (pos k m') (pos k (csec k done))) as [E|]; [|by apply Hp]. by apply pos_inj in E.
  - rewrite app_nil_r. destruct (Z.eqb_spec (pos k' m') (pos k (csec k done))) as [E|]; [|by apply Hp].
    exfalso. eapply pos_other; [exact Hk'|exact Hm'|exact Hk|exact Hm|done|done].
Qed.

Lemma placed_init : placed [] (replicate (length arr) None).
Proof using keys pos_in.
  split; [unfold alen; by rewrite length_replicate|]. intros k m Hk Hm. pose proof (pos_in k m Hk Hm). pose proof (off_bound k Hk).
  rewrite !get_eq by lia. rewrite lookup_replicate_2 by (unfold alen in *; lia). reflexivity.
Qed.

Lemma index_split i : 0 <= i < alen arr -> exists k, 0 <= k < 4 /\ off arr k <= i < off arr k + csec k arr.
Proof using keys.
  intros Hi. rewrite (csec_total arr keys) in Hi. assert (forall k, 0 <= csec k arr) as Hc by (intros; unfold csec, alen; lia).
  pose proof (Hc 0). pose proof (Hc 1). pose proof (Hc 2). pose proof (Hc 3).
  destruct (decide (i < csec 0 arr)); [exists 0; unfold off; cbn; lia|].
  destruct (decide (i < csec 0 arr + csec 1 arr)); [exists 1; unfold off; cbn; lia|].
  destruct (decide (i < csec 0 arr + csec 1 arr + csec 2 arr)); [exists 2; unfold off; cbn; lia|exists 3; unfold off; cbn; lia].
Qed.

(** When all are placed, the cells are [E] if its cells are. *)
Lemma placed_all (E : list student) out : alen E = alen arr ->
  (forall k m, 0 <= k < 4 -> 0 <= m < csec k arr -> get E (pos k m) = get (section k arr) m) ->
  (forall k i, 0 <= k < 4 -> off arr k <= i < off arr k + csec k arr -> exists m, 0 <= m < csec k arr /\ pos k m = i) ->
  placed arr out -> mapM (fun x => x) out = Some E.
Proof using keys.
  intros Hlen HE Hsurj [Hl Hp]. apply mapM_Some. apply Forall2_same_length_lookup. unfold alen in *. split; [lia|].
  intros n x y Hx Hy. pose proof (lookup_lt_Some _ _ _ Hy).
  destruct (index_split (Z.of_nat n)) as (k & Hk & Hi); [unfold alen; lia|]. destruct (Hsurj k _ Hk Hi) as (m & Hm & Hpos).
  specialize (Hp k m Hk Hm). specialize (HE k m Hk Hm). rewrite Hpos, get_nat in Hp. rewrite Hpos, get_nat in HE. congruence.
Qed.
End Place.

Section BySection.
Variable arr : list student.
Variable f : list student -> list student.
Hypothesis f_length : forall l, length (f l) = length l.

Lemma alen_by_section : Forall key_ok arr -> alen (by_section f arr) = alen arr.
Proof using f_length.
  intros H. rewrite (csec_total arr H). unfold by_section, csec, alen. rewrite !length_app, !f_length. lia.
Qed.

Lemma get_by_section k m : 0 <= k < 4 -> 0 <= m < csec k arr ->
  get (by_section f arr) (off arr k + m) = get (f (section k arr)) m.
Proof using f_length.
  intros Hk Hm. unfold by_section. rewrite !get_app. unfold alen. rewrite !f_length. fold (alen (section 0 arr)) (alen (section 1 arr)) (alen (section 2 arr)).
  fold (csec 0 arr) (csec 1 arr) (csec 2 arr). assert (forall k, 0 <= csec k arr) as Hc by (intros; unfold csec, alen; lia).
  pose proof (Hc 0). pose proof (Hc 1). pose proof (Hc 2).
  unfold off. apply key_cases in Hk as [-> | [-> | [-> | ->]]]; cbn [Z.ltb Z.compare]; repeat case_bool; try lia; f_equal; lia.
Qed.
End BySection.

Lemma get_reverse (l : list student) m : 0 <= m < alen l -> get (reverse l) (alen l - 1 - m) = get l m.
Proof.
  intros H. unfold alen in *. rewrite !get_eq by lia. rewrite reverse_lookup by lia. f_equal. lia.
Qed.

Lemma place_ok arr : Forall key_ok arr -> forall todo done out, arr = done ++ todo ->
  placed arr (fun k m => off arr k + m) done out ->
  exists out', place todo (table (fun k => off arr k + csec k done)) out = Some out' /\ placed arr (fun k m => off arr k + m) arr out'.
Proof.
  intros keys. induction todo as [|s todo IH]; intros done out Harr Hp.
  - exists out. split; [done|]. by rewrite app_nil_r in Harr; subst.
  - destruct (placed_step arr keys (fun k m => off arr k + m) ltac:(cbn; lia) ltac:(cbn; lia) done s todo out Harr Hp)
      as (Hk & Hm & out' & Hset & Hp'). cbn [place]. rewrite get_table by done. cbn [mbind option_bind]. rewrite Hset.
    cbn [mbind option_bind]. rewrite add_at_table by done. cbn [mbind option_bind].
    destruct (IH (done ++ [s]) out') as (out2 & Hout & Hp2); [by rewrite <- app_assoc|done|]. exists out2. split; [|done].
    rewrite <- Hout. f_equal. apply table_ext. intros k Hkk. unfold csec. rewrite section_snoc. unfold alen. rewrite length_app.
    destruct (Z.eqb_spec k (section_no s - 1)) as [->|]; [rewrite Z.eqb_refl; cbn [length]; lia|].
    rewrite (proj2 (Z.eqb_neq _ _)) by done. cbn [length]. lia.
Qed.

Lemma place2_ok arr : Forall key_ok arr -> forall todo done out, arr = done ++ todo ->
  placed arr (fun k m => off arr k + (csec k arr - 1 - m)) done out ->
  exists out', place2 todo (table (fun k => off arr k + csec k arr - csec k done)) out = Some out' /\
    placed arr (fun k m => off arr k + (csec k arr - 1 - m)) arr out'.
Proof.
  intros keys. induction todo as [|s todo IH]; intros done out Harr Hp.
  - exists out. split; [done|]. by rewrite app_nil_r in Harr; subst.
  - destruct (placed_step arr keys (fun k m => off arr k + (csec k arr - 1 - m)) ltac:(cbn; lia) ltac:(cbn; lia) done s todo out Harr Hp)
      as (Hk & Hm & out' & Hset & Hp'). cbn [place2]. rewrite get_table by done. cbn [mbind option_bind].
    match goal with |- context [set out ?i _] => replace i with (off arr (section_no s - 1) + (csec (section_no s - 1) arr - 1 - csec (section_no s - 1) done)) by lia end.
    rewrite Hset. cbn [mbind option_bind]. rewrite add_at_table by done. cbn [mbind option_bind].
    destruct (IH (done ++ [s]) out') as (out2 & Hout & Hp2); [by rewrite <- app_assoc|done|]. exists out2. split; [|done].
    rewrite <- Hout. f_equal. apply table_ext. intros k Hkk. unfold csec. rewrite section_snoc. unfold alen. rewrite length_app.
    destruct (Z.eqb_spec k (section_no s - 1)) as [->|]; [rewrite Z.eqb_refl; cbn [length]; lia|].
    rewrite (proj2 (Z.eqb_neq _ _)) by done. cbn [length]. lia.
Qed.

(** The sums of both loops, for any counts. *)
Lemma key2index_ok (g : Z -> Z) : repeat_n 3 (key2index_step (table g)) (table (fun _ => 0), 1) =
  Some (table (fun k => (if 0 <? k then g 0 else 0) + (if 1 <? k then g 1 else 0) + (if 2 <? k then g 2 else 0)), 4).
Proof.
  transitivity (Some ([0; g 0; g 0 + g 1; g 0 + g 1 + g 2], 4)); [reflexivity|]. unfold table. cbn. do 2 f_equal. repeat (apply (f_equal2 cons); [lia|]). done.
Qed.
Lemma sum_ok (g : Z -> Z) : repeat_n 3 sum_step (table g, 1) =
  Some (table (fun k => (if 0 <? k then g 0 else 0) + (if 1 <? k then g 1 else 0) + (if 2 <? k then g 2 else 0) + g k), 4).
Proof.
  transitivity (Some ([g 0; g 1 + g 0; g 2 + (g 1 + g 0); g 3 + (g 2 + (g 1 + g 0))], 4)); [reflexivity|]. unfold table. cbn.
  do 2 f_equal. repeat (apply (f_equal2 cons); [lia|]). done.
Qed.

(** On students of sections 1 to 4 the counting sort of count_sort.cpp is stable: it
    gives the students of section 1, then 2, 3 and 4, each in the order of the input; that of
    count_sort2.cpp gives the sections in the same order with each one reversed.  Neither
    leaves a cell of the result unwritten or writes one out of bounds. *)
Theorem count_sorts_by_section arr : Forall key_ok arr ->
  count_sort arr = Some (by_section (fun l => l) arr) /\ count_sort2 arr = Some (by_section reverse arr).
Proof.
  intros keys. split.
  - unfold count_sort. change [0; 0; 0; 0] with (table (fun _ => 0)). rewrite count_keys_ok by done. cbn [mbind option_bind].
    rewrite key2index_ok, (table_ext _ (fun k => off arr k + csec k [])) by (intros k _; rewrite csec_nil; unfold off; repeat case_bool; lia).
    cbn [mbind option_bind]. destruct (place_ok arr keys arr [] (replicate (length arr) None)) as (out & -> & Hp); [done|apply placed_init; [done|cbn; lia]|].
    cbn [mbind option_bind]. eapply placed_all; [done| | | |exact Hp]; [by apply alen_by_section| |].
    + intros k m Hk Hm. by apply get_by_section.
    + intros k i Hk Hi. exists (i - off arr k). lia.
  - unfold count_sort2. change [0; 0; 0; 0] with (table (fun _ => 0)). rewrite count_keys_ok by done. cbn [mbind option_bind].
    rewrite sum_ok, (table_ext _ (fun k => off arr k + csec k arr - csec k [])) by (intros k _; rewrite csec_nil; unfold off; repeat case_bool; lia).
    cbn [mbind option_bind]. destruct (place2_ok arr keys arr [] (replicate (length arr) None)) as (out & -> & Hp); [done|apply placed_init; [done|cbn; lia]|].
    cbn [mbind option_bind]. eapply placed_all; [done| | | |exact Hp]; [apply alen_by_section; [apply length_reverse|done]| |].
    + intros k m Hk Hm. cbn. rewrite get_by_section by (try apply length_reverse; lia). by apply get_reverse.
    + intros k i Hk Hi. exists (off arr k + csec k arr - 1 - i). lia.
Qed.

(** The first and the last three students of both files. *)
Definition some_students : list student :=
  [Student "Anderson" 2; Student "Brown" 3; Student "Davis" 3; Student "White" 2; Student "Williams" 3; Student "Wilson" 4].

Lemma count_sorts_by_section_witness :
  count_sort some_students = Some (by_section (fun l => l) some_students) /\ count_sort2 some_students = Some (by_section reverse some_students).
Proof. apply count_sorts_by_section. unfold some_students, key_ok. repeat constructor; cbn; lia. Defined.
