(* ===== verification/Huffman.v ===== *)
(** * Huffman coding: the program

    Models src/huffman/huffman.cpp: the tree of [HuffmanEncoder::BuildTree] as the vector
    of nodes the code keeps, the bit buffers [BitVec] and [BitStream] with their 4096
    bytes, and the file format of [Encode] and [Decode].  Files are those of DbFile, whose
    [Lseek], [Read] and [Write] src/huffman/utils.cpp repeats.

    [None] is a failed [assert], an access out of bounds or an [int] that overflows. *)

From Stdlib Require Import ZArith Lia Ascii String.
From stdpp Require Import base list gmap.
From S2P Require Import Prelude Loops DbFile.

Local Open Scope Z_scope.
Local Open Scope cpp_scope.

(** ** Nodes *)

Definition COMPOUND : Z := -1.
Definition BUF_SZ : Z := 4096.

Record hnode := HNode { letter : Z; count : Z; parent : Z; left : Z; right : Z }.

Definition hnode_size : Z := 20.
Definition Serialize (n : hnode) : list ascii :=
  le 4 (letter n) ++ le 4 (count n) ++ le 4 (parent n) ++ le 4 (left n) ++ le 4 (right n).
Definition int_at (b : list ascii) (k : nat) : Z := to_signed 32 (unle (take 4 (drop k b))).
Definition Unserialize (b : list ascii) : hnode :=
  HNode (int_at b 0) (int_at b 4) (int_at b 8) (int_at b 12) (int_at b 16).

(** ** BitVec: bits on their way to the file *)

Record BitVec := MkBitVec { bit_idx : Z; vec : gmap Z ascii }.

Definition bitvec_new : BitVec := MkBitVec 0 ∅.
Definition Full (v : BitVec) : bool := BUF_SZ <=? bit_idx v / 8.
Definition Add (v : BitVec) (bit : bool) : option BitVec :=
  let i := bit_idx v / 8 in
  let bits := bit_idx v mod 8 in
  VERIFY! (i <? BUF_SZ) ;;
  Some (MkBitVec (bit_idx v + 1)
          (if bit then <[i := char_of (Z.lor (char_u (byte_at (vec v) i)) (Z.shiftl 1 bits))]> (vec v) else vec v)).
Definition Output (v : BitVec) (fd : file) : option (BitVec * file * Z) :=
  let i := bit_idx v / 8 in
  let bits := bit_idx v mod 8 in
  let i := if 0 <? bits then i + 1 else i in
  fd ← (if 0 <? i then Write fd (pread (vec v) 0 (Z.to_nat i)) else Some fd);
  Some (MkBitVec 0 ∅, fd, bit_idx v).

(** ** BitStream: bits from the file *)

Record BitStream := MkBitStream { infd : file; remain_bits : Z; buf : list ascii; curr_idx : Z; end_idx : Z }.

Definition bitstream_new (fd : file) (nbits : Z) : BitStream := MkBitStream fd nbits [] 0 0.
Definition Empty (s : BitStream) : bool := remain_bits s <=? 0.

(** The refill of [Get]. *)
Definition refill (s : BitStream) : option BitStream :=
  if curr_idx s =? end_idx s then
    let bytesleft := Z.quot (remain_bits s) 8 in
    let bytesleft := if 0 <? Z.rem (remain_bits s) 8 then bytesleft + 1 else bytesleft in
    let nbytes := if bytesleft <? BUF_SZ then bytesleft else BUF_SZ in
    '(fd, b) ← Read (infd s) nbytes;
    Some (MkBitStream fd (remain_bits s) b 0 (nbytes * 8))
  else Some s.
Definition Get (s : BitStream) : option (BitStream * bool) :=
  s ← refill s;
  let i := curr_idx s / 8 in
  let bits := curr_idx s mod 8 in
  c ← get (buf s) i;
  Some (MkBitStream (infd s) (remain_bits s - 1) (buf s) (curr_idx s + 1) (end_idx s), Z.testbit (char_u c) bits).

(** ** The heap of the standard library

    [make_heap], [push_heap] and [pop_heap] of <algorithm> on a vector of [int], for a
    comparison: a vector is a heap when no element is less than one below it. *)

Definition is_heap (cmp : Z -> Z -> bool) (v : list Z) : Prop :=
  forall (i j : nat) x y, (0 < j)%nat -> i = ((j - 1) / 2)%nat -> v !! i = Some x -> v !! j = Some y -> cmp x y = false.
Definition weak_order (cmp : Z -> Z -> bool) : Prop :=
  (forall x, cmp x x = false) /\ (forall x y z, cmp x y = false -> cmp y z = false -> cmp x z = false) /\
  (forall x y, cmp x y = true -> cmp y x = false).

Class StdHeap := {
  make_heap : (Z -> Z -> bool) -> list Z -> list Z;
  push_heap : (Z -> Z -> bool) -> list Z -> list Z;
  pop_heap : (Z -> Z -> bool) -> list Z -> list Z }.

Class StdHeapLaws `{StdHeap} : Prop := {
  make_heap_perm cmp v : weak_order cmp -> make_heap cmp v ≡ₚ v;
  make_heap_heap cmp v : weak_order cmp -> is_heap cmp (make_heap cmp v);
  push_heap_perm cmp v x : weak_order cmp -> is_heap cmp v -> push_heap cmp (v ++ [x]) ≡ₚ v ++ [x];
  push_heap_heap cmp v x : weak_order cmp -> is_heap cmp v -> is_heap cmp (push_heap cmp (v ++ [x]));
  pop_heap_top cmp x v : weak_order cmp -> is_heap cmp (x :: v) ->
    exists v', pop_heap cmp (x :: v) = v' ++ [x] /\ v' ≡ₚ v /\ is_heap cmp v' }.

(** ** HuffmanEncoder *)

Section Encoder.
Context `{StdHeap}.

(** [letter_count_], a map from [char]: the letters of the input. *)
Fixpoint count_letters (input : list ascii) (m : gmap Z Z) : option (gmap Z Z) :=
  match input with
  | [] => Some m
  | c :: input =>
      n ← int32 (default 0 (m !! char_s c) + 1);
      count_letters input (<[char_s c := n]> m)
  end.

(** The keys of a [map<char, int>] in the order of its iterator. *)
Definition letters (m : gmap Z Z) : list Z := filter (fun c => is_Some (m !! c)) (seqZ (-128) 256).

Definition leaves (m : gmap Z Z) : list hnode :=
  imap (fun i c => HNode c (default 0 (m !! c)) (Z.of_nat i) (-1) (-1)) (letters m).
Definition node_idx (nodes : list hnode) : gmap Z Z :=
  foldl (fun m '(i, n) => <[letter n := i]> m) ∅ (imap (fun i n => (Z.of_nat i, n)) nodes).

(** [HeapCmp], on the nodes there are. *)
Definition heap_cmp (nodes : list hnode) (a b : Z) : bool :=
  default 0 (count <$> get nodes b) <? default 0 (count <$> get nodes a).

(** [pop_heap], then [back] and [pop_back]. *)
Definition pop_min (nodes : list hnode) (heap : list Z) : option (Z * list Z) :=
  let heap := pop_heap (heap_cmp nodes) heap in
  m ← last heap; Some (m, take (length heap - 1) heap).

Definition set_parent (nodes : list hnode) (i p : Z) : option (list hnode) :=
  n ← get nodes i; set nodes i (HNode (letter n) (count n) p (left n) (right n)).

Definition build_step (s : list hnode * list Z) : option ((list hnode * list Z) + (list hnode * list Z)) :=
  let '(nodes, heap) := s in
  if 1 <? alen heap then
    '(min1, heap) ← pop_min nodes heap;
    '(min2, heap) ← pop_min nodes heap;
    n1 ← get nodes min1; n2 ← get nodes min2;
    new_cnt ← int32 (count n1 + count n2);
    let new_idx := alen nodes in
    let nodes := nodes ++ [HNode COMPOUND new_cnt new_idx min1 min2] in
    nodes ← set_parent nodes min2 new_idx;
    nodes ← set_parent nodes min1 new_idx;
    Some (inl (nodes, push_heap (heap_cmp nodes) (heap ++ [new_idx])))
  else Some (inr (nodes, heap)).

Definition BuildTree (m : gmap Z Z) : option (list hnode * list Z) :=
  let nodes := leaves m in
  let heap := make_heap (heap_cmp nodes) (seqZ 0 (alen nodes)) in
  loop (S (length nodes)) build_step (nodes, heap).

Definition OutputTree (nodes : list hnode) (fd : file) : option file :=
  fd ← Write fd (le 4 (alen nodes));
  Write fd (concat (Serialize <$> nodes)).

(** From a leaf to the root: the bits of its code, last one first. *)
Definition code_step (nodes : list hnode) (s : Z * list bool) : option ((Z * list bool) + (Z * list bool)) :=
  let '(i, code_vec) := s in
  n ← get nodes i;
  if parent n =? i then Some (inr (i, code_vec))
  else
    p ← get nodes (parent n);
    Some (inl (parent n, code_vec ++ [negb (i =? left p)])).
Definition code_up (nodes : list hnode) (i : Z) : option (list bool) :=
  '(_, code_vec) ← loop (S (length nodes)) (code_step nodes) (i, []);
  Some code_vec.

(** The inner [while] that empties [code_vec] from its end. *)
Fixpoint put_bits (bits : list bool) (s : BitVec * file * Z) : option (BitVec * file * Z) :=
  match bits with
  | [] => Some s
  | b :: bits =>
      let '(v, fd, nbits) := s in
      v ← Add v b;
      if Full v then
        '(v, fd, n) ← Output v fd;
        nbits ← int32 (nbits + n);
        put_bits bits (v, fd, nbits)
      else put_bits bits (v, fd, nbits)
  end.

Fixpoint encode_letters (nodes : list hnode) (idx : gmap Z Z) (input : list ascii) (s : BitVec * file * Z)
    : option (BitVec * file * Z) :=
  match input with
  | [] => Some s
  | c :: input =>
      code_vec ← code_up nodes (default 0 (idx !! char_s c));
      s ← put_bits (reverse code_vec) s;
      encode_letters nodes idx input s
  end.

Definition LettersEncodeAndOutput (nodes : list hnode) (idx : gmap Z Z) (input : list ascii) (fd : file) : option (file * Z) :=
  '(v, fd, nbits) ← encode_letters nodes idx input (bitvec_new, fd, 0);
  '(_, fd, n) ← Output v fd;
  nbits ← int32 (nbits + n);
  Some (fd, nbits).

(** The offset to come back to; the file offset goes an [int] beyond the end. *)
Definition ReserveRoomInt (fd : file) : file * Z := (Lseek fd (fsize fd + 4), fpos fd).

(** [Encode], from the contents of its input file ([None]: it cannot be opened) to those of
    its output file. *)
Definition Encode (infile : option (list ascii)) : option (bool * file) :=
  match infile with
  | None => Some (false, empty_file)
  | Some input =>
      m ← count_letters input ∅;
      '(nodes, heap) ← BuildTree m;
      VERIFY! (alen heap =? 1) ;;
      fd ← OutputTree nodes empty_file;
      let '(fd, offset) := ReserveRoomInt fd in
      '(fd, nbits) ← LettersEncodeAndOutput nodes (node_idx (leaves m)) input fd;
      fd ← Write (Lseek fd offset) (le 4 nbits);
      Some (true, fd)
  end.
End Encoder.

(** ** HuffmanDecoder *)

Definition ReadTree (fd : file) : option (file * list hnode) :=
  '(fd, b) ← Read fd 4;
  let nnodes := to_signed 32 (unle b) in
  '(fd, b) ← Read fd (nnodes * hnode_size);
  Some (fd, (fun i => Unserialize (take 20 (drop (i * 20) b))) <$> seq 0 (Z.to_nat nnodes)).

Definition walk_step (nodes : list hnode) (s : BitStream * Z) : option ((BitStream * Z) + (BitStream * Z)) :=
  let '(bs, curr) := s in
  n ← get nodes curr;
  if letter n =? COMPOUND then
    '(bs, bit) ← Get bs;
    Some (inl (bs, if (bit : bool) then right n else left n))
  else Some (inr (bs, curr)).

Definition decode_step (nodes : list hnode) (s : BitStream * list ascii) : option ((BitStream * list ascii) + (BitStream * list ascii)) :=
  let '(bs, out) := s in
  if Empty bs then Some (inr (bs, out))
  else
    '(bs, curr) ← loop (S (length nodes)) (walk_step nodes) (bs, alen nodes - 1);
    n ← get nodes curr;
    Some (inl (bs, out ++ [char_of (letter n)])).

Definition DecodeAndOutput (nodes : list hnode) (fd : file) : option (list ascii) :=
  '(fd, b) ← Read fd 4;
  let nbits := to_signed 32 (unle b) in
  '(_, out) ← loop (S (Z.to_nat nbits)) (decode_step nodes) (bitstream_new fd nbits, [] : list ascii);
  Some out.

Definition Decode (infile : file) : option (list ascii) :=
  '(fd, nodes) ← ReadTree (Lseek infile 0);
  DecodeAndOutput nodes fd.
