(* ===== verification/HuffmanTree.v ===== *)
(** * Huffman coding: the tree

    What [BuildTree] builds: a binary tree whose root is the last node, whose leaves are
    the letters and whose paths are the codes the encoder reads off from leaf to root and
    the decoder follows from root to leaf. *)

From Stdlib Require Import ZArith Lia Ascii String Sorting.
From stdpp Require Import base list gmap.
From S2P Require Import Prelude Loops DbFile Huffman.

Local Open Scope Z_scope.

(** ** A heap with the laws: a vector kept in descending order *)

Section SortedHeap.
Variable cmp : Z -> Z -> bool.

Fixpoint heap_insert (x : Z) (v : list Z) : list Z :=
  match v with
  | [] => [x]
  | y :: v' => if cmp y x then x :: v else y :: heap_insert x v'
  end.
Definition heap_sort (v : list Z) : list Z := foldr heap_insert [] v.

Lemma heap_insert_perm x v : heap_insert x v ≡ₚ x :: v.
Proof. induction v as [|y v IH]; [done|]. cbn. destruct (cmp y x); [done|]. rewrite IH. apply perm_swap. Qed.
Lemma heap_sort_perm v : heap_sort v ≡ₚ v.
Proof. induction v as [|y v IH]; [done|]. cbn. fold (heap_sort v). by rewrite heap_insert_perm, IH. Qed.

Abbreviation descending := (StronglySorted (fun x y => cmp x y = false)).

Lemma heap_insert_sorted x v : weak_order cmp -> descending v -> descending (heap_insert x v).
Proof.
  intros (Hirr & Htr & Has). induction v as [|y v IH]; intros Hs; cbn; [by repeat constructor|].
  apply StronglySorted_inv in Hs as [Hs Hf]. destruct (cmp y x) eqn:E.
  - constructor; [by constructor|]. constructor; [by apply Has|]. eapply Forall_impl; [exact Hf|]. intros z Hz. eapply Htr; [by apply Has|done].
  - constructor; [by apply IH|]. rewrite heap_insert_perm. by constructor.
Qed.
Lemma heap_sort_sorted v : weak_order cmp -> descending (heap_sort v).
Proof. intros H. induction v as [|y v IH]; [constructor|]. by apply heap_insert_sorted. Qed.

Lemma descending_heap v : weak_order cmp -> descending v -> is_heap cmp v.
Proof.
  intros Ho Hs i j x y Hj -> Hx Hy. assert (((j - 1) / 2 < j)%nat) as Hlt by (apply Nat.Div0.div_lt_upper_bound; lia).
  revert Hx Hy Hlt. generalize ((j - 1) / 2)%nat. clear Hj. revert j. induction Hs as [|z v Hs IH Hf]; intros j n Hx Hy Hlt; [done|].
  destruct j as [|j]; [lia|]. destruct n as [|n].
  - simplify_eq/=. rewrite Forall_forall in Hf. apply Hf. by eapply list_elem_of_lookup_2.
  - cbn in *. eapply IH; [exact Hx|exact Hy|lia].
Qed.
End SortedHeap.

#[export] Instance sorted_heap : StdHeap := {
  make_heap := heap_sort; push_heap := heap_sort;
  pop_heap cmp v := match v with [] => [] | x :: v => heap_sort cmp v ++ [x] end }.

#[export] Instance sorted_heap_laws : StdHeapLaws.
Proof.
  constructor.
  - intros. apply heap_sort_perm.
  - intros. apply descending_heap, heap_sort_sorted; done.
  - intros. apply heap_sort_perm.
  - intros. apply descending_heap, heap_sort_sorted; done.
  - intros cmp x v Ho _. exists (heap_sort cmp v). split; [done|]. split; [apply heap_sort_perm|].
    apply descending_heap, heap_sort_sorted; done.
Defined.

(** ** Trees and their nodes *)

(** A tree with the indices of its nodes. *)
Inductive tree := Lf (i : Z) | Br (i : Z) (l r : tree).

Definition root (t : tree) : Z := match t with Lf i => i | Br i _ _ => i end.
Fixpoint indices (t : tree) : list Z :=
  match t with Lf i => [i] | Br i l r => i :: indices l ++ indices r end.
Fixpoint leaf_list (t : tree) : list Z :=
  match t with Lf i => [i] | Br _ l r => leaf_list l ++ leaf_list r end.

(** The code of a leaf, from the root. *)
Inductive at_path : tree -> list bool -> Z -> Prop :=
  | at_leaf i : at_path (Lf i) [] i
  | at_left i l r bs j : at_path l bs j -> at_path (Br i l r) (false :: bs) j
  | at_right i l r bs j : at_path r bs j -> at_path (Br i l r) (true :: bs) j.

Lemma leaf_has_path t j : j ∈ leaf_list t -> exists bs, at_path t bs j.
Proof.
  induction t as [i|i l IHl r IHr]; cbn.
  - intros ->%list_elem_of_singleton. eexists. constructor.
  - intros [H|H]%elem_of_app; [apply IHl in H|apply IHr in H]; destruct H as [bs H]; eexists; by constructor.
Qed.
Lemma at_path_short t bs j : at_path t bs j -> (length bs < length (indices t))%nat.
Proof. induction 1; cbn; rewrite ?length_app; lia. Qed.
Lemma at_path_leaf t bs j : at_path t bs j -> j ∈ leaf_list t.
Proof. induction 1; cbn; set_solver. Qed.
Lemma root_in t : root t ∈ indices t.
Proof. destruct t; cbn; set_solver. Qed.
Lemma leaves_in t j : j ∈ leaf_list t -> j ∈ indices t.
Proof. induction t; cbn; set_solver. Qed.

Lemma NoDup_bind_elem (ts : list tree) t : t ∈ ts -> NoDup (ts ≫= indices) -> NoDup (indices t).
Proof.
  induction ts as [|t' ts IH]; [by intros ?%not_elem_of_nil|]. cbn. intros [->|Hin]%elem_of_cons (H1 & _ & H2)%NoDup_app; [done|by apply IH].
Qed.

Section Repr.
(** The leaves: how many, and the letter and the weight of each. *)
Context (n0 : Z) (lt w : Z -> Z).
Hypothesis w_pos : forall i, 0 <= w i.

Fixpoint wt (t : tree) : Z := match t with Lf i => w i | Br _ l r => wt l + wt r end.

Definition par (nodes : list hnode) (i : Z) : option Z := parent <$> get nodes i.
Definition strip (n : hnode) : Z * Z * Z * Z := (letter n, count n, left n, right n).

(** The nodes at the indices of [t] form [t]. *)
Fixpoint repr (nodes : list hnode) (t : tree) : Prop :=
  match t with
  | Lf i => exists n, get nodes i = Some n /\ 0 <= i < n0 /\ letter n = lt i /\ count n = w i
  | Br i l r =>
      (strip <$> get nodes i = Some (COMPOUND, wt t, root l, root r)) /\
      par nodes (root l) = Some i /\ par nodes (root r) = Some i /\ repr nodes l /\ repr nodes r
  end.

Lemma repr_ext nodes nodes' t : NoDup (indices t) ->
  (forall i, i ∈ indices t -> strip <$> get nodes' i = strip <$> get nodes i) ->
  (forall i, i ∈ indices t -> i <> root t -> par nodes' i = par nodes i) -> repr nodes t -> repr nodes' t.
Proof.
  induction t as [i|i l IHl r IHr]; cbn [indices root repr]; intros Hnd Hs Hp.
  - intros (n & Hn & Hr). specialize (Hs i ltac:(set_solver)). rewrite Hn in Hs.
    destruct (get nodes' i) as [n'|] eqn:E; [|done]. unfold strip in Hs. cbn in Hs. exists n'.
    injection Hs as H1 H2 H3 H4. destruct Hr as (? & ? & ?). rewrite H1, H2. done.
  - apply NoDup_cons in Hnd as [Hi (Hl & Hlr & Hr)%NoDup_app]. rewrite elem_of_app in Hi. intros (H1 & H2 & H3 & H4 & H5).
    pose proof (root_in l). pose proof (root_in r). split; [|split; [|split; [|split]]].
    + rewrite Hs by set_solver. done.
    + rewrite Hp by set_solver. done.
    + rewrite Hp by set_solver. done.
    + apply IHl; try done; intros; [apply Hs; set_solver|apply Hp; set_solver].
    + apply IHr; try done; intros; [apply Hs; set_solver|apply Hp; set_solver].
Qed.

Lemma repr_root nodes t : repr nodes t -> exists n, get nodes (root t) = Some n /\ count n = wt t.
Proof.
  destruct t as [i|i l r]; cbn.
  - intros (n & ? & ? & ? & ?). by exists n.
  - intros (H & _). destruct (get nodes i) as [n|]; [|done]. unfold strip in H. cbn in H. simplify_eq. by eexists.
Qed.

Lemma wt_nonneg t : 0 <= wt t.
Proof using w_pos. induction t; cbn; [done|lia]. Qed.

Lemma code_step_up nodes i q l cv : par nodes i = Some q -> q <> i -> (left <$> get nodes q) = Some l ->
  code_step nodes (i, cv) = Some (inl (q, cv ++ [negb (i =? l)])).
Proof.
  unfold par, code_step. destruct (get nodes i) as [n|]; [|done]. cbn. intros [= ->] Hne.
  rewrite (proj2 (Z.eqb_neq _ _)) by done. destruct (get nodes q) as [p|]; [|done]. cbn. by intros [= ->].
Qed.

Lemma code_step_root nodes i cv : par nodes i = Some i -> code_step nodes (i, cv) = Some (inr (i, cv)).
Proof. unfold par, code_step. destruct (get nodes i) as [n|]; [|done]. cbn. intros [= ->]. by rewrite Z.eqb_refl. Qed.

(** Running up from a leaf gives its code backwards. *)
Lemma code_up_path nodes t bs j : repr nodes t -> NoDup (indices t) -> at_path t bs j -> forall fuel cv,
  loop (length bs + fuel) (code_step nodes) (j, cv) = loop fuel (code_step nodes) (root t, cv ++ reverse bs).
Proof using.
  clear w_pos. intros Hr Hnd Hp. induction Hp as [i|i l r bs j Hp IH|i l r bs j Hp IH]; intros fuel cv; [cbn; by rewrite app_nil_r|..];
    cbn [indices repr root] in *; destruct Hr as (H1 & H2 & H3 & H4 & H5);
    apply NoDup_cons in Hnd as [Hi (Hl & Hlr & Hrr)%NoDup_app]; pose proof (root_in l) as Il; pose proof (root_in r) as Ir;
    (assert (Hleft : left <$> get nodes i = Some (root l)) by (destruct (get nodes i); [|done]; unfold strip in H1; cbn in *; congruence));
    cbn [length Nat.add]; rewrite <- Nat.add_succ_r, IH by done; cbn [loop].
  - rewrite (code_step_up nodes (root l) i (root l)) by (done || (intros ->; set_solver)).
    cbn [mbind option_bind]. by rewrite Z.eqb_refl, reverse_cons, app_assoc.
  - rewrite (code_step_up nodes (root r) i (root l)) by (done || (intros ->; set_solver)).
    cbn [mbind option_bind]. rewrite (proj2 (Z.eqb_neq (root r) _)), reverse_cons, app_assoc by (intros Heq; apply (Hlr (root l)); [done|by rewrite <- Heq]).
    done.
Qed.

Lemma set_parent_spec nodes i p : 0 <= i < alen nodes -> exists nodes', set_parent nodes i p = Some nodes' /\ alen nodes' = alen nodes /\
  (forall j, strip <$> get nodes' j = strip <$> get nodes j) /\ (forall j, par nodes' j = if j =? i then Some p else par nodes j).
Proof.
  intros Hi. destruct (get_in nodes i Hi) as [n Hn]. unfold set_parent. rewrite Hn. cbn [mbind option_bind].
  destruct (set_spec nodes i (HNode (letter n) (count n) p (left n) (right n)) Hi) as (nodes' & -> & Hl & Hg).
  exists nodes'. split; [done|]. split; [done|]. unfold par. split; intros j; rewrite Hg; destruct (Z.eqb_spec j i) as [->|]; try done.
  by rewrite Hn.
Qed.

(** The fields of a node fit an [int]. *)
Definition node_i32 (n : hnode) : Prop :=
  in_i32 (letter n) /\ in_i32 (count n) /\ in_i32 (parent n) /\ in_i32 (left n) /\ in_i32 (right n).

Lemma set_parent_i32 nodes i p nodes' : set_parent nodes i p = Some nodes' -> in_i32 p -> Forall node_i32 nodes -> Forall node_i32 nodes'.
Proof.
  unfold set_parent, set, get. destruct (0 <=? i); [|done]. destruct (nodes !! Z.to_nat i) as [n|] eqn:E; [|done]. cbn [mbind option_bind].
  destruct (_ && _); [|done]. intros [= <-] Hp Hn. apply Forall_insert; [done|]. pose proof (Forall_lookup_1 _ _ _ _ Hn E) as (? & ? & ? & ? & ?).
  repeat split; cbn; try apply H; try apply H0; try apply H2; try apply H3; apply Hp.
Qed.

(** ** The heap of the roots *)

Lemma heap_cmp_order nodes : weak_order (heap_cmp nodes).
Proof. unfold heap_cmp. split; [|split]; intros *; rewrite ?Z.ltb_lt, ?Z.ltb_ge; lia. Qed.

Lemma heap_top cmp x v : weak_order cmp -> is_heap cmp (x :: v) -> forall y, y ∈ x :: v -> cmp x y = false.
Proof.
  intros (Hirr & Htr & _) Hh y [j Hj]%list_elem_of_lookup. revert y Hj.
  induction (lt_wf j) as [j _ IH]; intros y Hj. destruct j as [|j]; [cbn in Hj; by simplify_eq|].
  assert (((S j - 1) / 2 < S j)%nat) as Hlt by (apply Nat.Div0.div_lt_upper_bound; lia).
  destruct ((x :: v) !! ((S j - 1) / 2)%nat) as [z|] eqn:Ez.
  - eapply Htr; [by apply (IH _ Hlt)|]. eapply Hh; [|done|exact Ez|exact Hj]. lia.
  - apply lookup_ge_None in Ez. apply lookup_lt_Some in Hj. lia.
Qed.

Lemma is_heap_ext cmp cmp' v : (forall x y, x ∈ v -> y ∈ v -> cmp x y = cmp' x y) -> is_heap cmp v -> is_heap cmp' v.
Proof.
  intros He Hh i j x y Hj Hi Hx Hy. rewrite <- He by (by eapply list_elem_of_lookup_2). by eapply Hh.
Qed.

Lemma pop_min_ok `{StdHeapLaws} nodes x v : is_heap (heap_cmp nodes) (x :: v) ->
  exists v', pop_min nodes (x :: v) = Some (x, v') /\ v' ≡ₚ v /\ is_heap (heap_cmp nodes) v' /\
    forall y, y ∈ v -> heap_cmp nodes x y = false.
Proof.
  intros Hh. pose proof (heap_cmp_order nodes) as Ho. destruct (pop_heap_top _ _ _ Ho Hh) as (v' & E & Hp & Hh').
  exists v'. unfold pop_min. rewrite E, last_snoc. cbn [mbind option_bind]. rewrite length_app, Nat.add_sub, take_app_length.
  split; [done|]. split; [done|]. split; [done|]. intros y Hy. apply (heap_top _ x v); [done..|]. by right.
Qed.

(** ** The forest [BuildTree] works on *)

Record forest (nodes : list hnode) (ts : list tree) : Prop := Forest {
  f_repr : Forall (fun t => repr nodes t /\ par nodes (root t) = Some (root t)) ts;
  f_nodup : NoDup (ts ≫= indices);
  f_leaves : (ts ≫= leaf_list) ≡ₚ seqZ 0 n0;
  f_last : alen nodes - 1 ∈ root <$> ts }.

Definition total (ts : list tree) : Z := foldr (fun t x => wt t + x) 0 ts.

Lemma repr_range nodes t : repr nodes t -> forall i, i ∈ indices t -> 0 <= i < alen nodes.
Proof.
  induction t as [i|i l IHl r IHr]; cbn.
  - intros (n & Hn & _) j ->%list_elem_of_singleton. by eapply get_range.
  - intros (H & _ & _ & Hl & Hr) j. rewrite elem_of_cons, elem_of_app. intros [->|[?|?]]; [|by apply IHl|by apply IHr].
    destruct (get nodes i) eqn:E; [|done]. by eapply get_range.
Qed.

#[export] Instance forest_perm nodes : Proper ((≡ₚ) ==> iff) (forest nodes).
Proof.
  assert (Hgo : forall ts ts', ts ≡ₚ ts' -> forest nodes ts -> forest nodes ts').
  { intros ts ts' Hp [H1 H2 H3 H4]. split; [by rewrite <- Hp|by rewrite <- Hp|by rewrite <- Hp|by rewrite <- Hp]. }
  intros ts ts' Hp. split; apply Hgo; [done|by symmetry].
Qed.

Lemma total_leaves ts : total ts = foldr (fun i x => w i + x) 0 (ts ≫= leaf_list).
Proof.
  assert (Happ : forall l l' : list Z, foldr (fun i x => w i + x) 0 (l ++ l') = foldr (fun i x => w i + x) 0 l + foldr (fun i x => w i + x) 0 l').
  { induction l as [|x l IH]; intros l'; cbn; [done|]. rewrite IH. lia. }
  induction ts as [|t ts IH]; [done|]. cbn. rewrite Happ. fold (total ts). rewrite IH. f_equal. clear IH.
  induction t as [i|i l IHl r IHr]; cbn; [lia|]. rewrite Happ. lia.
Qed.

Definition all_weights : Z := foldr (fun i x => w i + x) 0 (seqZ 0 n0).

Lemma forest_total nodes ts : forest nodes ts -> total ts = all_weights.
Proof.
  intros [_ _ Hl _]. rewrite total_leaves. unfold all_weights. revert Hl. generalize (ts ≫= leaf_list), (seqZ 0 n0). clear.
  induction 1; cbn; lia.
Qed.

Lemma total_cons t ts : total (t :: ts) = wt t + total ts.
Proof. done. Qed.
Lemma total_nonneg ts : 0 <= total ts.
Proof using w_pos. induction ts as [|t ts IH]; [done|]. rewrite total_cons. pose proof (wt_nonneg t). lia. Qed.

(** Two trees under a new root. *)
Definition join (nodes : list hnode) (t1 t2 : tree) : option (list hnode) :=
  let new := alen nodes in
  nodes' ← set_parent (nodes ++ [HNode COMPOUND (wt t1 + wt t2) new (root t1) (root t2)]) (root t2) new;
  set_parent nodes' (root t1) new.

Lemma strip_snoc nodes n j : j < alen nodes -> strip <$> get (nodes ++ [n]) j = strip <$> get nodes j.
Proof. intros H. rewrite get_snoc. by rewrite (proj2 (Z.eqb_neq _ _)) by lia. Qed.

Lemma join_ok nodes t1 t2 ts : forest nodes (t1 :: t2 :: ts) -> exists nodes', join nodes t1 t2 = Some nodes' /\
  alen nodes' = alen nodes + 1 /\ forest nodes' (Br (alen nodes) t1 t2 :: ts) /\
  (forall j, j < alen nodes -> strip <$> get nodes' j = strip <$> get nodes j) /\
  (alen nodes < 2 ^ 31 -> wt t1 + wt t2 < 2 ^ 31 -> Forall node_i32 nodes -> Forall node_i32 nodes').
Proof using w_pos.
  intros [Hr Hnd Hl Hlast]. apply Forall_cons in Hr as [[Hr1 Hp1] Hr]. apply Forall_cons in Hr as [[Hr2 Hp2] Hr].
  cbn [mbind list_bind] in Hnd, Hl. set (new := alen nodes). set (n := HNode COMPOUND (wt t1 + wt t2) new (root t1) (root t2)).
  pose proof (repr_range _ _ Hr1) as R1. pose proof (repr_range _ _ Hr2) as R2.
  pose proof (R1 _ (root_in t1)) as Q1. pose proof (R2 _ (root_in t2)) as Q2.
  assert (Hlen : alen (nodes ++ [n]) = new + 1) by (unfold new, alen; rewrite length_app; cbn; lia).
  unfold join. fold new. fold n.
  destruct (set_parent_spec (nodes ++ [n]) (root t2) new ltac:(lia)) as (na & Ea & La & Sa & Pa).
  destruct (set_parent_spec na (root t1) new ltac:(lia)) as (nb & Eb & Lb & Sb & Pb).
  assert (Hi32 : new < 2 ^ 31 -> wt t1 + wt t2 < 2 ^ 31 -> Forall node_i32 nodes -> Forall node_i32 nb).
  { intros Hlt Hwt Hn. pose proof (wt_nonneg t1). pose proof (wt_nonneg t2). assert (in_i32 new) by (unfold in_i32; lia).
    eapply set_parent_i32; [exact Eb|done|]. eapply set_parent_i32; [exact Ea|done|]. apply Forall_app. split; [done|].
    constructor; [|done]. unfold n, new, node_i32, in_i32, COMPOUND in *. cbn [letter count parent left right]. lia. }
  rewrite Ea. cbn [mbind option_bind]. rewrite Eb. clear Ea Eb.
  assert (HS : forall j, strip <$> get nb j = strip <$> get (nodes ++ [n]) j) by (intros j; by rewrite Sb, Sa).
  assert (HS' : forall j, j < new -> strip <$> get nb j = strip <$> get nodes j) by (intros j ?; rewrite HS; by apply strip_snoc).
  assert (HP : forall j, j < new -> j <> root t1 -> j <> root t2 -> par nb j = par nodes j).
  { intros j ? ? ?. rewrite Pb, Pa, !(proj2 (Z.eqb_neq _ _)) by done. unfold par. rewrite get_snoc.
    by rewrite (proj2 (Z.eqb_neq _ _)) by (unfold new in *; lia). }
  exists nb. split; [done|]. split; [lia|]. split; [|split; done]. clear Hi32.
  apply NoDup_app in Hnd as (Hn1 & H12 & Hnd). apply NoDup_app in Hnd as (Hn2 & H2t & Hnt).
  assert (Hd1 : forall j, j ∈ indices t1 -> j ∉ indices t2) by (intros j ? ?; apply (H12 j); [done|]; by apply elem_of_app; left).
  assert (Ht : forall t, t ∈ ts -> repr nodes t /\ par nodes (root t) = Some (root t)) by (by apply Forall_forall).
  assert (Hdt : forall t j, t ∈ ts -> j ∈ indices t -> (j ∉ indices t1) /\ (j ∉ indices t2)).
  { intros t j Hin Hj. assert (j ∈ (ts ≫= indices)) as Hts by (apply list_elem_of_bind; eauto).
    split; intros ?; [apply (H12 j); [done|]; apply elem_of_app; by right|by apply (H2t j)]. }
  assert (Hrange : forall j, j ∈ (ts ≫= indices) -> 0 <= j < new).
  { intros j (t & Hj & Hin)%list_elem_of_bind. eapply repr_range; [by apply Ht|done]. }
  split.
  - constructor; [split|].
    + cbn [repr]. split; [|split; [|split; [|split]]].
      * rewrite HS, get_snoc. unfold new. by rewrite Z.eqb_refl.
      * by rewrite Pb, Z.eqb_refl.
      * rewrite Pb, Pa, Z.eqb_refl. by destruct (root t2 =? root t1).
      * eapply repr_ext; [done| | |exact Hr1]; [intros j Hj; apply HS', R1, Hj|].
        intros j Hj Hne. apply HP; [by apply R1|done|]. intros ->. by eapply Hd1, root_in.
      * eapply repr_ext; [done| | |exact Hr2]; [intros j Hj; apply HS', R2, Hj|].
        intros j Hj Hne. apply HP; [by apply R2| |done]. intros ->. eapply Hd1; [apply root_in|done].
    + cbn [root]. rewrite Pb, Pa, !(proj2 (Z.eqb_neq new _)) by lia. unfold par. rewrite get_snoc. unfold new. by rewrite Z.eqb_refl.
    + apply Forall_forall. intros t Hin. destruct (Ht t Hin) as [Hrt Hpt]. pose proof (repr_range _ _ Hrt) as Rt.
      assert (Hne : forall j, j ∈ indices t -> j <> root t1 /\ j <> root t2).
      { intros j Hj. destruct (Hdt t j Hin Hj). split; intros ->; [pose proof (root_in t1)|pose proof (root_in t2)]; done. }
      split.
      * eapply repr_ext; [| | |exact Hrt]; [by eapply NoDup_bind_elem|intros j Hj; apply HS', Rt, Hj|].
        intros j Hj _. apply HP; [by apply Rt|by apply Hne..].
      * rewrite HP; [done|by apply Rt, root_in|by apply Hne, root_in..].
  - cbn [mbind list_bind indices app]. apply NoDup_cons. split.
    + rewrite !elem_of_app. intros [[Hin|Hin]|Hin]; [apply R1 in Hin|apply R2 in Hin|apply Hrange in Hin]; unfold new in *; lia.
    + rewrite <- app_assoc. apply NoDup_app. split; [done|]. split; [done|]. by apply NoDup_app.
  - cbn [mbind list_bind leaf_list]. by rewrite <- app_assoc.
  - rewrite fmap_cons. cbn [root]. apply elem_of_cons. left. lia.
Qed.

(** The nodes, the heap and the forest they stand for. *)
Definition built (s : list hnode * list Z) (ts : list tree) : Prop :=
  forest s.1 ts /\ s.2 ≡ₚ root <$> ts /\ is_heap (heap_cmp s.1) s.2.

(** Repeatedly joining the two lightest trees ends with [t]. *)
Inductive merges : list tree -> tree -> Prop :=
  | merges_one t : merges [t] t
  | merges_join i t1 t2 ts ts' t : ts ≡ₚ t1 :: t2 :: ts' ->
      (forall u, u ∈ t2 :: ts' -> wt t1 <= wt u) -> (forall u, u ∈ ts' -> wt t2 <= wt u) ->
      merges (Br i t1 t2 :: ts') t -> merges ts t.

Lemma heap_cmp_wt nodes t u : repr nodes t -> repr nodes u -> heap_cmp nodes (root t) (root u) = false -> wt t <= wt u.
Proof.
  intros (n & Hn & <-)%repr_root (n' & Hn' & <-)%repr_root. unfold heap_cmp. rewrite Hn, Hn'. cbn. rewrite Z.ltb_ge. lia.
Qed.

Lemma heap_cmp_strip nodes nodes' x y : strip <$> get nodes' x = strip <$> get nodes x -> strip <$> get nodes' y = strip <$> get nodes y ->
  heap_cmp nodes' x y = heap_cmp nodes x y.
Proof.
  assert (Hc : forall i, strip <$> get nodes' i = strip <$> get nodes i -> count <$> get nodes' i = count <$> get nodes i).
  { intros i. destruct (get nodes' i), (get nodes i); cbn; try done. unfold strip. congruence. }
  intros H1 H2. unfold heap_cmp. by rewrite !Hc.
Qed.

Lemma roots_perm v ts : v ≡ₚ root <$> ts -> exists ts', v = root <$> ts' /\ ts ≡ₚ ts'.
Proof. intros H. apply Permutation_map_inv in H as (l3 & -> & Hp). by exists l3. Qed.

Lemma build_step_ok `{StdHeapLaws} nodes heap ts : all_weights < 2 ^ 31 -> built (nodes, heap) ts -> 1 < alen heap ->
  exists i t1 t2 ts' s', ts ≡ₚ t1 :: t2 :: ts' /\
    (forall u, u ∈ t2 :: ts' -> wt t1 <= wt u) /\ (forall u, u ∈ ts' -> wt t2 <= wt u) /\
    build_step (nodes, heap) = Some (inl s') /\ built s' (Br i t1 t2 :: ts') /\ length heap = S (length s'.2) /\
    alen s'.1 = alen nodes + 1 /\ (alen nodes < 2 ^ 31 -> Forall node_i32 nodes -> Forall node_i32 s'.1).
Proof using w_pos.
  intros HW (Hf & Hp & Hh) Hlen. cbn [fst snd] in *.
  apply roots_perm in Hp as (ts1 & -> & Hp). rewrite Hp in Hf. destruct ts1 as [|t1 ts1]; [done|]. rewrite fmap_cons in Hh |- *.
  destruct (pop_min_ok nodes _ _ Hh) as (v1 & E1 & Hv1 & Hh1 & Hm1).
  apply roots_perm in Hv1 as (ts2 & -> & Hp2). destruct ts2 as [|t2 ts2].
  { apply Permutation_length in Hp2. unfold alen in Hlen. rewrite length_fmap in Hlen. cbn in *. lia. }
  rewrite fmap_cons in Hh1, E1. destruct (pop_min_ok nodes _ _ Hh1) as (v2 & E2 & Hv2 & Hh2 & Hm2).
  rewrite Hp2 in Hf. pose proof (forest_total _ _ Hf) as Htot. rewrite !total_cons in Htot.
  pose proof (wt_nonneg t1). pose proof (wt_nonneg t2). pose proof (total_nonneg ts2).
  pose proof (f_repr _ _ Hf) as HF. rewrite Forall_forall in HF.
  destruct (repr_root nodes t1) as (n1 & G1 & C1); [apply HF; set_solver|].
  destruct (repr_root nodes t2) as (n2 & G2 & C2); [apply HF; set_solver|].
  destruct (join_ok _ _ _ _ Hf) as (nodes' & EJ & Ln & Hf' & HS & Hi32).
  exists (alen nodes), t1, t2, ts2, (nodes', push_heap (heap_cmp nodes') (v2 ++ [alen nodes])).
  assert (Hv2r : forall x, x ∈ v2 -> x < alen nodes).
  { intros x Hx. rewrite Hv2 in Hx. apply list_elem_of_fmap in Hx as (u & -> & Hu).
    eapply repr_range; [apply (HF u); set_solver|apply root_in]. }
  assert (Hh2' : is_heap (heap_cmp nodes') v2).
  { eapply is_heap_ext; [|exact Hh2]. intros x y Hx Hy. symmetry. apply heap_cmp_strip; apply HS; auto. }
  split; [by rewrite Hp, Hp2|]. split; [|split; [|split; [|split; [|split; [|split; [done|]]]]]].
  - intros u Hu. apply (heap_cmp_wt nodes); [apply HF; set_solver..|]. apply Hm1. rewrite Hp2. by apply list_elem_of_fmap_2.
  - intros u Hu. apply (heap_cmp_wt nodes); [apply HF; set_solver..|]. apply Hm2. by apply list_elem_of_fmap_2.
  - unfold build_step. rewrite (proj2 (Z.ltb_lt _ _)) by done. rewrite E1. cbn [mbind option_bind]. rewrite E2. cbn [mbind option_bind].
    rewrite G1, G2. cbn [mbind option_bind]. rewrite C1, C2, int32_ok by (unfold in_i32; lia). cbn [mbind option_bind].
    unfold join in EJ. destruct (set_parent _ (root t2) _) as [na|]; [|done]. cbn [mbind option_bind] in EJ |- *. by rewrite EJ.
  - split; [done|]. cbn [fst snd]. split; [|apply push_heap_heap; [apply heap_cmp_order|done]].
    rewrite push_heap_perm by (done || apply heap_cmp_order). rewrite fmap_cons, Permutation_app_comm. cbn. by rewrite Hv2.
  - cbn [snd]. rewrite push_heap_perm by (done || apply heap_cmp_order). rewrite length_app, Hv2. cbn [length].
    rewrite Hp2, fmap_cons. cbn [length]. rewrite !length_fmap. lia.
  - intros Hlt. apply Hi32; [done|lia].
Qed.

Lemma build_loop `{StdHeapLaws} nodes heap ts : all_weights < 2 ^ 31 -> built (nodes, heap) ts -> ts <> [] ->
  alen nodes + alen heap < 2 ^ 31 -> Forall node_i32 nodes ->
  exists nodes' t, loop (S (length heap)) build_step (nodes, heap) = Some (nodes', [root t]) /\
    forest nodes' [t] /\ merges ts t /\ alen nodes' + 1 = alen nodes + alen heap /\ Forall node_i32 nodes'.
Proof using w_pos.
  intros HW Hb Hne Hsz Hi32.
  destruct (loop_ok (fun s => exists us, built s us /\ us <> [] /\ (forall t, merges us t -> merges ts t) /\
      alen s.1 + alen s.2 = alen nodes + alen heap /\ Forall node_i32 s.1)
    (fun s => exists t, s.2 = [root t] /\ forest s.1 [t] /\ merges ts t /\ alen s.1 + alen s.2 = alen nodes + alen heap /\ Forall node_i32 s.1)
    (fun s => length s.2) build_step)
    with (fuel := S (length heap)) (s := (nodes, heap)) as ([nodes' heap'] & E & t & Ht & Hf & Hm & Hl & Hi).
  - intros [nd hp] (us & Hb' & Hne' & Hm & Hl & Hi). cbn [fst snd] in Hl, Hi. destruct (Z.ltb_spec 1 (alen hp)) as [Hlt|Hge].
    + destruct (build_step_ok nd hp us HW Hb' Hlt) as (i & t1 & t2 & us' & s' & Hp & H1 & H2 & E & Hb2 & Hl2 & Hn & Hi2).
      rewrite E. eexists. split; [done|]. cbn [snd]. split; [|lia]. eexists. split; [done|]. split; [done|].
      split; [intros t Ht; apply Hm; by eapply merges_join|]. unfold alen in *. split; [lia|]. apply Hi2; [lia|done].
    + unfold build_step. rewrite (proj2 (Z.ltb_ge _ _)) by done. eexists. split; [done|]. cbn [fst snd].
      destruct Hb' as (Hf & Hp & _). cbn [fst snd] in *. pose proof (Permutation_length Hp) as Hlp. rewrite length_fmap in Hlp. unfold alen in Hge.
      destruct us as [|t [|]]; [done| |cbn in Hlp; lia]. exists t. split; [by apply Permutation_singleton_r in Hp|]. split; [done|].
      split; [apply Hm; constructor|done].
  - exists ts. split; [done|]. split; [done|]. split; [auto|]. done.
  - cbn. lia.
  - exists nodes', t. cbn [fst snd] in *. subst heap'. split; [done|]. split; [done|]. split; [done|]. split; [|done]. rewrite <- Hl. done.
Qed.
End Repr.

(** ** The letters of the input *)

Definition occ (c : Z) (input : list ascii) : Z := alen (filter (fun a => char_s a = c) input).

Lemma occ_cons c a input : occ c (a :: input) = (if char_s a =? c then 1 else 0) + occ c input.
Proof.
  unfold occ, alen. rewrite filter_cons. destruct (Z.eqb_spec (char_s a) c); [rewrite decide_True by done|rewrite decide_False by done]; cbn [length]; lia.
Qed.
Lemma occ_nonneg c input : 0 <= occ c input.
Proof. unfold occ, alen. lia. Qed.

Lemma char_s_range a : -128 <= char_s a < 128.
Proof.
  pose proof (char_u_range a). unfold char_s, to_signed. rewrite wrap_small by (change (2 ^ 8) with 256; lia).
  change (2 ^ (8 - 1)) with 128. change (2 ^ 8) with 256. case_bool; lia.
Qed.

Lemma count_letters_ok input : forall m, (forall c, 0 <= default 0 (m !! c) /\ default 0 (m !! c) + alen input < 2 ^ 31) ->
  exists m', count_letters input m = Some m' /\
    forall c, m' !! c = if 0 <? occ c input then Some (default 0 (m !! c) + occ c input) else m !! c.
Proof.
  induction input as [|a input IH]; intros m Hm; cbn [count_letters].
  - exists m. split; [done|]. intros c. done.
  - unfold alen in Hm. cbn [length] in Hm. pose proof (Hm (char_s a)) as Ha.
    rewrite int32_ok by (unfold in_i32; lia). cbn [mbind option_bind].
    destruct (IH (<[char_s a := default 0 (m !! char_s a) + 1]> m)) as (m' & -> & Hm').
    { intros c. destruct (decide (c = char_s a)) as [->|]; [rewrite lookup_insert_eq|rewrite lookup_insert_ne by done]; cbn;
        [|pose proof (Hm c)]; unfold alen; lia. }
    exists m'. split; [done|]. intros c. rewrite Hm', occ_cons. pose proof (occ_nonneg c input).
    destruct (Z.eqb_spec (char_s a) c) as [<-|].
    + rewrite lookup_insert_eq. cbn [default]. rewrite (proj2 (Z.ltb_lt 0 (1 + _))) by lia.
      destruct (Z.ltb_spec 0 (occ (char_s a) input)); f_equal; cbn; lia.
    + rewrite lookup_insert_ne by done. by rewrite Z.add_0_l.
Qed.

(** The map of the counts, its letters in order, and the leaf of each. *)
Section Letters.
Variables (input : list ascii) (m : gmap Z Z).
Hypothesis m_counts : forall c, m !! c = if 0 <? occ c input then Some (occ c input) else None.

Definition leaf_letter (i : Z) : Z := default 0 (get (letters m) i).
Definition leaf_weight (i : Z) : Z := default 0 (m !! leaf_letter i).

Lemma leaf_weight_nonneg i : 0 <= leaf_weight i.
Proof using m_counts. unfold leaf_weight. rewrite m_counts. pose proof (occ_nonneg (leaf_letter i) input). case_bool; cbn; lia. Qed.

Lemma letters_nodup : NoDup (letters m).
Proof. apply NoDup_filter, NoDup_seqZ. Qed.

Lemma elem_of_letters c : c ∈ letters m <-> -128 <= c < 128 /\ 0 < occ c input.
Proof using m_counts.
  unfold letters. rewrite list_elem_of_filter, elem_of_seqZ, m_counts. pose proof (occ_nonneg c input). case_bool.
  - split; [lia|]. intros. split; [by eexists|lia].
  - split; [|lia]. by intros [[? ?] _].
Qed.

Lemma sum_occ (l : list Z) : NoDup l -> (forall a, a ∈ input -> char_s a ∈ l) -> foldr (fun c x => occ c input + x) 0 l = alen input.
Proof.
  clear m_counts m. intros Hnd. induction input as [|a inp IH]; intros Hin.
  - clear. induction l as [|c l IH]; [done|]. cbn [foldr]. rewrite IH. done.
  - assert (Hadd : forall l, NoDup l -> foldr (fun c x => occ c (a :: inp) + x) 0 l =
      (if decide (char_s a ∈ l) then 1 else 0) + foldr (fun c x => occ c inp + x) 0 l).
    { clear. induction l as [|c l IH]; intros Hnd; [done|]. apply NoDup_cons in Hnd as [Hc Hnd]. cbn [foldr]. rewrite IH, occ_cons by done.
      destruct (Z.eqb_spec (char_s a) c) as [->|Hne].
      - rewrite (decide_False (P := c ∈ l)), (decide_True (P := c ∈ c :: l)) by set_solver. lia.
      - destruct (decide (char_s a ∈ l)), (decide (char_s a ∈ c :: l)); try lia; set_solver. }
    rewrite Hadd by done. rewrite decide_True by (apply Hin; set_solver). rewrite IH by (intros b Hb; apply Hin; set_solver).
    unfold alen. cbn [length]. lia.
Qed.

Lemma leaf_letters : leaf_letter <$> seqZ 0 (alen (letters m)) = letters m.
Proof.
  unfold leaf_letter. generalize (letters m). intros l. apply list_eq. intros i. rewrite list_lookup_fmap.
  destruct (decide (i < length l)%nat).
  - rewrite lookup_seqZ_lt by (unfold alen; lia). cbn [fmap option_fmap option_map]. rewrite Z.add_0_l, get_nat. destruct (lookup_lt_is_Some_2 l i) as [x Hx]; [done|]. by rewrite Hx.
  - rewrite lookup_seqZ_ge by (unfold alen; lia). cbn. symmetry. apply lookup_ge_None. lia.
Qed.

Lemma all_weights_input : all_weights (alen (letters m)) leaf_weight = alen input.
Proof using m_counts.
  rewrite <- (sum_occ (letters m) letters_nodup).
  - transitivity (foldr (fun c x => occ c input + x) 0 (leaf_letter <$> seqZ 0 (alen (letters m)))); [|by rewrite leaf_letters].
    unfold all_weights. rewrite foldr_fmap. unfold leaf_weight.
    assert (Hw : forall i, i ∈ seqZ 0 (alen (letters m)) -> default 0 (m !! leaf_letter i) = occ (leaf_letter i) input).
    { intros i Hi. assert (leaf_letter i ∈ letters m) as [_ Hc]%elem_of_letters by (rewrite <- leaf_letters; by apply list_elem_of_fmap_2).
      rewrite m_counts. by rewrite (proj2 (Z.ltb_lt _ _)). }
    revert Hw. generalize (seqZ 0 (alen (letters m))). intros l. induction l as [|i l IH]; intros Hw; [done|]. cbn.
    rewrite Hw, IH by set_solver. done.
  - intros a Ha. apply elem_of_letters. split; [apply char_s_range|]. clear m_counts. induction input as [|b inp IH]; [by apply not_elem_of_nil in Ha|].
    rewrite occ_cons. pose proof (occ_nonneg (char_s a) inp). apply elem_of_cons in Ha as [->|Ha]; [rewrite Z.eqb_refl; lia|].
    specialize (IH Ha). case_bool; lia.
Qed.

Lemma alen_leaves : alen (leaves m) = alen (letters m).
Proof. unfold leaves, alen. by rewrite length_imap. Qed.

Lemma get_leaves i : 0 <= i < alen (letters m) -> get (leaves m) i = Some (HNode (leaf_letter i) (leaf_weight i) i (-1) (-1)).
Proof.
  intros Hi. destruct (get_in _ _ Hi) as [c Hc]. unfold leaf_weight, leaf_letter. rewrite Hc. cbn [default]. rewrite get_eq by lia. rewrite get_eq in Hc by lia.
  unfold leaves. rewrite list_lookup_imap, Hc. cbn. by rewrite Z2Nat.id by lia.
Qed.

Lemma fold_idx_other (l : list (Z * hnode)) c : (c ∉ (fun p => letter p.2) <$> l) -> forall m0 : gmap Z Z,
  foldl (fun m '(i, n) => <[letter n := i]> m) m0 l !! c = m0 !! c.
Proof.
  induction l as [|[i n] l IH]; intros Hc m0; [done|]. rewrite fmap_cons, not_elem_of_cons in Hc. cbn [foldl]. rewrite IH by apply Hc.
  apply lookup_insert_ne. destruct Hc as [Hc _]. cbn in Hc. done.
Qed.
Lemma fold_idx_in (l : list (Z * hnode)) i n : (i, n) ∈ l -> NoDup ((fun p => letter p.2) <$> l) -> forall m0 : gmap Z Z,
  foldl (fun m '(i, n) => <[letter n := i]> m) m0 l !! letter n = Some i.
Proof.
  induction l as [|[j n'] l IH]; intros Hin Hnd m0; [by apply not_elem_of_nil in Hin|]. rewrite fmap_cons in Hnd. apply NoDup_cons in Hnd as [Hn Hnd].
  cbn [foldl]. apply elem_of_cons in Hin as [[= -> ->]|Hin]; [|by apply IH]. rewrite fold_idx_other by done. apply lookup_insert_eq.
Qed.

(** The leaf of a letter. *)
Lemma letter_leaf a : a ∈ input -> exists i, 0 <= i < alen (letters m) /\ leaf_letter i = char_s a /\ node_idx (leaves m) !! char_s a = Some i.
Proof using m_counts.
  intros Ha. assert (char_s a ∈ letters m) as Hc.
  { apply elem_of_letters. split; [apply char_s_range|]. unfold occ, alen.
    assert (a ∈ filter (fun b => char_s b = char_s a) input) as Hf by (by apply list_elem_of_filter).
    destruct (filter _ input); [by apply not_elem_of_nil in Hf|]. cbn [length]. lia. }
  rewrite <- leaf_letters in Hc. apply list_elem_of_fmap in Hc as (i & Hi & Hin). apply elem_of_seqZ in Hin.
  exists i. split; [lia|]. split; [done|]. pose proof (get_leaves i ltac:(lia)) as Hg. rewrite get_eq in Hg by lia.
  unfold node_idx. set (l := imap (fun i n => (Z.of_nat i, n)) (leaves m)).
  assert (Hl : (fun p : Z * hnode => letter p.2) <$> l = letters m).
  { unfold l, leaves. apply list_eq. intros k. rewrite list_lookup_fmap, !list_lookup_imap. by destruct (letters m !! k). }
  rewrite Hi. change (leaf_letter i) with (letter (HNode (leaf_letter i) (leaf_weight i) i (-1) (-1))). apply fold_idx_in.
  - apply list_elem_of_lookup. exists (Z.to_nat i). unfold l. rewrite list_lookup_imap, Hg. cbn. by rewrite Z2Nat.id by lia.
  - rewrite Hl. apply letters_nodup.
Qed.

(** What [BuildTree] starts with. *)
Lemma leaves_built `{StdHeapLaws} : 0 < alen (letters m) ->
  built (alen (letters m)) leaf_letter leaf_weight
    (leaves m, make_heap (heap_cmp (leaves m)) (seqZ 0 (alen (leaves m)))) (Lf <$> seqZ 0 (alen (letters m))).
Proof.
  intros Hpos. rewrite alen_leaves. set (n0 := alen (letters m)) in *.
  assert (Hroots : root <$> (Lf <$> seqZ 0 n0) = seqZ 0 n0) by (rewrite <- list_fmap_compose; apply list_fmap_id).
  assert (Hbind : forall f : tree -> list Z, (forall i, f (Lf i) = [i]) -> (Lf <$> seqZ 0 n0) ≫= f = seqZ 0 n0).
  { intros f Hf. generalize (seqZ 0 n0). intros l. induction l as [|i l IH]; [done|]. cbn. rewrite Hf. cbn. by f_equal. }
  split; [split|split]; cbn [fst snd].
  - apply Forall_fmap, Forall_forall. intros i Hi%elem_of_seqZ. unfold compose. cbn [repr root fst]. unfold par. rewrite get_leaves by (fold n0; lia).
    split; [|done]. eexists. split; [done|]. split; [lia|done].
  - rewrite Hbind by done. apply NoDup_seqZ.
  - by rewrite Hbind.
  - rewrite Hroots, alen_leaves. apply elem_of_seqZ. fold n0. lia.
  - rewrite make_heap_perm by apply heap_cmp_order. by rewrite Hroots.
  - apply make_heap_heap, heap_cmp_order.
Qed.

Lemma letters_short : alen (letters m) <= 256.
Proof.
  unfold alen. assert (length (letters m) <= length (seqZ (-128) 256))%nat as H by apply length_filter. rewrite length_seqZ in H. lia.
Qed.

Lemma BuildTree_ok `{StdHeapLaws} : input <> [] -> alen input < 2 ^ 31 -> exists nodes t, BuildTree m = Some (nodes, [root t]) /\
  forest (alen (letters m)) leaf_letter leaf_weight nodes [t] /\ merges leaf_weight (Lf <$> seqZ 0 (alen (letters m))) t /\
  alen nodes + 1 = 2 * alen (letters m) /\ Forall node_i32 nodes.
Proof using m_counts.
  intros Hne Hlen. assert (Hpos : 0 < alen (letters m)).
  { assert (exists a, a ∈ input) as [a Ha] by (clear m_counts; destruct input as [|a inp]; [done|]; exists a; set_solver).
    destruct (letter_leaf a Ha) as (i & Hi & _). lia. }
  pose proof (leaves_built Hpos) as Hb. pose proof letters_short as Hs. unfold BuildTree.
  set (heap := make_heap (heap_cmp (leaves m)) (seqZ 0 (alen (leaves m)))) in *.
  assert (Hheap : length heap = length (leaves m)).
  { unfold heap. rewrite make_heap_perm by apply heap_cmp_order. rewrite length_seqZ. unfold alen. lia. }
  rewrite <- Hheap.
  destruct (build_loop (alen (letters m)) leaf_letter leaf_weight leaf_weight_nonneg (leaves m) heap _ ltac:(by rewrite all_weights_input) Hb)
    as (nodes & t & E & Hf & Hm & Hl & Hi).
  - intros E%fmap_nil_inv. apply (f_equal length) in E. rewrite length_seqZ in E. cbn in E. lia.
  - rewrite alen_leaves. unfold alen at 2. rewrite Hheap. fold (alen (leaves m)). rewrite alen_leaves. lia.
  - apply Forall_lookup. intros k n Hk. assert (get (leaves m) (Z.of_nat k) = Some n) as Hg by (by rewrite get_nat).
    pose proof (get_range _ _ _ Hg) as Hr. rewrite alen_leaves in Hr. rewrite get_leaves in Hg by done. injection Hg as <-.
    assert (leaf_letter (Z.of_nat k) ∈ letters m) as [Hc _]%elem_of_letters by (rewrite <- leaf_letters; apply list_elem_of_fmap_2, elem_of_seqZ; lia).
    assert (leaf_weight (Z.of_nat k) <= alen input) as Hw.
    { unfold leaf_weight. rewrite m_counts. case_bool; cbn; [|unfold alen; lia]. unfold occ, alen. pose proof (length_filter (fun a => char_s a = leaf_letter (Z.of_nat k)) input). lia. }
    pose proof (leaf_weight_nonneg (Z.of_nat k)). unfold node_i32, in_i32. cbn [letter count parent left right]. lia.
  - exists nodes, t. split; [done|]. split; [done|]. split; [done|]. split; [|done]. rewrite Hl, alen_leaves. unfold alen at 2. rewrite Hheap.
    fold (alen (leaves m)). rewrite alen_leaves. lia.
Qed.
End Letters.
