(* ===== verification/HuffmanBits.v ===== *)
(** * Huffman coding: the bits

    [BitVec] puts bits into the file and [BitStream] takes them out again: whatever the
    number of bits, and with buffers of 4096 bytes on both sides, the bits that come out are
    those that went in. *)

From Stdlib Require Import ZArith Lia Ascii String.
From stdpp Require Import base list gmap.
From S2P Require Import Prelude Loops DbFile Huffman.

Local Open Scope Z_scope.

(** Bit [k] of the bytes from [off]. *)
Definition fbit (m : gmap Z ascii) (off k : Z) : bool := Z.testbit (char_u (byte_at m (off + k / 8))) (k mod 8).

Lemma char_bit x n : 0 <= n < 8 -> Z.testbit (char_u (char_of x)) n = Z.testbit x n.
Proof. intros H. rewrite char_u_of. unfold wrap. apply Z.mod_pow2_bits_low. lia. Qed.

Lemma fbit_empty off k : fbit ∅ off k = false.
Proof. unfold fbit, byte_at. rewrite lookup_empty. change (char_u (default "000"%char None)) with 0. apply Z.testbit_0_l. Qed.

Lemma byte_at_insert m i c j : byte_at (<[i := c]> m) j = if decide (j = i) then c else byte_at m j.
Proof. unfold byte_at. destruct (decide (j = i)) as [->|]; [by rewrite lookup_insert_eq|by rewrite lookup_insert_ne]. Qed.

Lemma fbit_or m j k : 0 <= j -> 0 <= k ->
  fbit (<[j / 8 := char_of (Z.lor (char_u (byte_at m (j / 8))) (Z.shiftl 1 (j mod 8)))]> m) 0 k = (k =? j) || fbit m 0 k.
Proof.
  intros Hj Hk. unfold fbit. rewrite Z.add_0_l. destruct (decide (k / 8 = j / 8)) as [E|Hne].
  - rewrite E, byte_at_insert, decide_True by done. pose proof (Z.mod_pos_bound k 8).
    rewrite char_bit, Z.lor_spec by lia. rewrite Z.shiftl_1_l, Z.pow2_bits_eqb by (apply Z.mod_pos_bound; lia). rewrite orb_comm. f_equal.
    apply eq_true_iff_eq. rewrite !Z.eqb_eq. Z.div_mod_to_equations. lia.
  - rewrite byte_at_insert, decide_False by done. rewrite (proj2 (Z.eqb_neq k j)); [done|]. by intros ->.
Qed.

Lemma Write_end f d f' : Write f d = Some f' -> 0 < file_len d ->
  fpos f' = fpos f + file_len d /\ fsize f' = Z.max (fsize f) (fpos f + file_len d).
Proof. unfold Write. intros H Hd. inv_some. cbn [fpos fsize]. split; [done|]. by destruct d. Qed.

(** ** Writing *)

Section Writer.
(** The bits go to the file from offset [o], which is not before its end. *)
Context (o : Z) (f0 : file).
Hypothesis o_ok : 0 <= o < 2 ^ 31.
Hypothesis f0_size : fsize f0 <= o.

Record written (B : list bool) (s : BitVec * file * Z) : Prop := Written {
  w_count : s.2 + bit_idx s.1.1 = alen B;
  w_idx : 0 <= bit_idx s.1.1 < 8 * BUF_SZ;
  w_nbits : 0 <= s.2;
  w_byte : s.2 mod 8 = 0;
  w_pos : fpos s.1.2 = o + s.2 / 8;
  w_file : forall k, 0 <= k < s.2 -> get B k = Some (fbit (fbytes s.1.2) o k);
  w_vec : forall k, 0 <= k < bit_idx s.1.1 -> get B (s.2 + k) = Some (fbit (vec s.1.1) 0 k);
  w_zero : forall k, bit_idx s.1.1 <= k -> fbit (vec s.1.1) 0 k = false;
  w_before : forall i, i < o -> byte_at (fbytes s.1.2) i = byte_at (fbytes f0) i;
  w_size : fsize s.1.2 = if s.2 =? 0 then fsize f0 else o + s.2 / 8 }.

Lemma written_new : fpos f0 = o -> written [] (bitvec_new, f0, 0).
Proof.
  intros Hp. split; cbn [fst snd bitvec_new bit_idx vec]; [done|unfold BUF_SZ; lia|lia|done| |lia|lia| |done|done].
  - rewrite Hp. change (0 / 8) with 0. lia.
  - intros k _. apply fbit_empty.
Qed.

(** A bit more in the buffer. *)
Lemma Add_ok B v fd nbits b : written B (v, fd, nbits) -> exists v', Add v b = Some v' /\ bit_idx v' = bit_idx v + 1 /\
  (forall k, 0 <= k < bit_idx v' -> get (B ++ [b]) (nbits + k) = Some (fbit (vec v') 0 k)) /\
  (forall k, bit_idx v' <= k -> fbit (vec v') 0 k = false).
Proof.
  intros [H1 H2 H3 H4 H5 H6 H7 H8 H9 H10]. cbn [fst snd] in *. unfold Add, VERIFY.
  rewrite (proj2 (Z.ltb_lt _ _)) by (unfold BUF_SZ in *; Z.div_mod_to_equations; lia). eexists. split; [done|]. cbn [bit_idx vec]. split; [done|].
  assert (Hf : forall k, 0 <= k -> fbit (if b then <[bit_idx v / 8 := char_of (Z.lor (char_u (byte_at (vec v) (bit_idx v / 8))) (Z.shiftl 1 (bit_idx v mod 8)))]> (vec v) else vec v) 0 k
    = (b && (k =? bit_idx v)) || fbit (vec v) 0 k).
  { intros k Hk. destruct b; [|done]. cbn [andb]. rewrite fbit_or by lia. done. }
  split; intros k Hk; rewrite Hf by lia.
  - rewrite get_snoc. destruct (Z.eqb_spec (nbits + k) (alen B)).
    + rewrite (proj2 (Z.eqb_eq k _)), H8, orb_false_r, andb_true_r by lia. done.
    + rewrite (proj2 (Z.eqb_neq k _)), andb_false_r by lia. apply H7. lia.
  - rewrite (proj2 (Z.eqb_neq k _)), andb_false_r by lia. apply H8. lia.
Qed.

(** What [Output] leaves in the file. *)
Lemma Output_ok B v fd nbits : bit_idx v = alen B - nbits -> 0 <= bit_idx v -> 0 <= nbits -> nbits mod 8 = 0 ->
  fpos fd = o + nbits / 8 -> nbits + bit_idx v < 2 ^ 31 ->
  (forall k, 0 <= k < nbits -> get B k = Some (fbit (fbytes fd) o k)) ->
  (forall k, 0 <= k < bit_idx v -> get B (nbits + k) = Some (fbit (vec v) 0 k)) ->
  (forall i, i < o -> byte_at (fbytes fd) i = byte_at (fbytes f0) i) ->
  fsize fd = (if nbits =? 0 then fsize f0 else o + nbits / 8) ->
  exists fd', Output v fd = Some (bitvec_new, fd', bit_idx v) /\
    fpos fd' = o + (alen B + 7) / 8 /\ fsize fd' = (if alen B =? 0 then fsize f0 else o + (alen B + 7) / 8) /\
    (forall k, 0 <= k < alen B -> get B k = Some (fbit (fbytes fd') o k)) /\
    (forall i, i < o -> byte_at (fbytes fd') i = byte_at (fbytes f0) i).
Proof.
  intros Hidx Hv Hn Hm Hpos Hb Hfile Hvec Hbef Hsz. unfold Output.
  set (i := if 0 <? bit_idx v mod 8 then bit_idx v / 8 + 1 else bit_idx v / 8).
  assert (Hi : i = (bit_idx v + 7) / 8) by (subst i; case_bool; Z.div_mod_to_equations; lia). clearbody i.
  assert (Hsum : nbits / 8 + i = (alen B + 7) / 8) by (Z.div_mod_to_equations; lia).
  destruct (Z.ltb_spec 0 i) as [Hpos_i|Hz].
  - assert (Hwl : file_len (pread (vec v) 0 (Z.to_nat i)) = i) by (unfold file_len; rewrite pread_length; lia).
    destruct (Write_ok fd (pread (vec v) 0 (Z.to_nat i))) as [fd' HW]; [rewrite Hwl; Z.div_mod_to_equations; lia|].
    rewrite HW. cbn [mbind option_bind]. exists fd'. split; [done|].
    pose proof (fun j => byte_at_write _ _ j _ HW) as Hby. rewrite Hwl in Hby.
    pose proof (Write_end _ _ _ HW ltac:(lia)) as Hfs. rewrite Hwl in Hfs.
    destruct Hfs as [-> ->]. split; [lia|]. split; [|split].
    + rewrite Hsz. rewrite (proj2 (Z.eqb_neq (alen B) 0)) by (Z.div_mod_to_equations; lia). case_bool; Z.div_mod_to_equations; lia.
    + intros k Hk. unfold fbit. rewrite Hby. destruct (decide (k < nbits)) as [Hlt|Hge].
      * rewrite decide_False by (Z.div_mod_to_equations; lia). apply Hfile. lia.
      * rewrite decide_True by (Z.div_mod_to_equations; lia). replace k with (nbits + (k - nbits)) at 1 by lia. rewrite Hvec by lia.
        unfold fbit. do 2 f_equal; [|Z.div_mod_to_equations; lia].
        rewrite pread_lookup by (Z.div_mod_to_equations; lia). cbn [default]. f_equal. change (id ?x) with x. f_equal. Z.div_mod_to_equations; lia.
    + intros j Hj. rewrite Hby, decide_False by (Z.div_mod_to_equations; lia). by apply Hbef.
  - assert (bit_idx v = 0) as Hv0 by (Z.div_mod_to_equations; lia). cbn [mbind option_bind]. exists fd. split; [done|].
    split; [rewrite Hpos, <- Hsum; Z.div_mod_to_equations; lia|]. split; [|split; [|done]].
    + rewrite Hsz. replace (alen B) with nbits by lia. case_bool; [done|]. Z.div_mod_to_equations; lia.
    + intros k Hk. apply Hfile. lia.
Qed.

Lemma put_bits_ok bs : forall B s, written B s -> alen (B ++ bs) < 2 ^ 31 -> exists s', put_bits bs s = Some s' /\ written (B ++ bs) s'.
Proof using o_ok f0_size.
  induction bs as [|b bs IH]; intros B [[v fd] nbits] Hw Hlen; [exists (v, fd, nbits); by rewrite app_nil_r|].
  cbn [put_bits]. destruct (Add_ok B v fd nbits b Hw) as (v' & -> & Hi & Hg & Hz). cbn [mbind option_bind].
  destruct Hw as [H1 H2 H3 H4 H5 H6 H7 H8 H9 H10]. cbn [fst snd] in *.
  assert (Hlb : alen (B ++ [b]) = alen B + 1) by (unfold alen; rewrite length_app; cbn; lia).
  replace (B ++ b :: bs) with ((B ++ [b]) ++ bs) in * by (by rewrite <- app_assoc).
  assert (Hlt : alen (B ++ [b]) < 2 ^ 31) by (unfold alen in *; rewrite !length_app in *; lia).
  assert (Hget : forall k, 0 <= k < nbits -> get (B ++ [b]) k = Some (fbit (fbytes fd) o k)).
  { intros k Hk. rewrite get_snoc, (proj2 (Z.eqb_neq k _)) by lia. by apply H6. }
  unfold Full. destruct (Z.leb_spec BUF_SZ (bit_idx v' / 8)) as [Hfull|Hnot].
  - destruct (Output_ok (B ++ [b]) v' fd nbits) as (fd' & -> & Hp & Hs & Hf & Hb); try done; try lia.
    cbn [mbind option_bind]. rewrite int32_ok by (unfold in_i32; lia). cbn [mbind option_bind]. apply IH; [|done].
    assert (Hidx : bit_idx v' = 8 * BUF_SZ) by (unfold BUF_SZ in *; Z.div_mod_to_equations; lia).
    split; cbn [fst snd bitvec_new bit_idx vec]; try lia; try (unfold BUF_SZ in *; lia).
    + unfold BUF_SZ in *. Z.div_mod_to_equations; lia.
    + rewrite Hp, Hlb. unfold BUF_SZ in *. Z.div_mod_to_equations; lia.
    + intros k Hk. apply Hf. lia.
    + intros k _. apply fbit_empty.
    + done.
    + rewrite Hs. replace (nbits + bit_idx v') with (alen (B ++ [b])) by lia. case_bool; [done|]. unfold BUF_SZ in *. Z.div_mod_to_equations; lia.
  - cbn [mbind option_bind]. apply IH; [|done]. split; cbn [fst snd]; try done; try lia.
    unfold BUF_SZ in *. Z.div_mod_to_equations; lia.
Qed.
End Writer.

(** ** Reading *)

Section Reader.
(** [N] bits in a file from offset [o] on. *)
Context (o N : Z) (m : gmap Z ascii) (sz : Z).
Hypothesis o_nonneg : 0 <= o.
Hypothesis data_in : o + (N + 7) / 8 <= sz \/ N = 0.

(** [k] bits have been taken. *)
Definition taken (k : Z) (s : BitStream) : Prop :=
  remain_bits s = N - k /\ 0 <= k <= N /\ fbytes (infd s) = m /\ fsize (infd s) = sz /\
  exists base nb : Z, 0 <= base /\ 0 <= nb /\ buf s = pread m (o + base) (Z.to_nat nb) /\ curr_idx s = k - 8 * base /\
    0 <= curr_idx s <= end_idx s /\ end_idx s = nb * 8 /\ fpos (infd s) = o + base + nb.

Lemma taken_new f : 0 <= N -> fbytes f = m -> fsize f = sz -> fpos f = o -> taken 0 (bitstream_new f N).
Proof.
  intros HN Hb Hs Hp. unfold taken, bitstream_new. cbn [remain_bits infd buf curr_idx end_idx]. split; [lia|]. split; [lia|]. split; [done|]. split; [done|].
  exists 0, 0. rewrite Hp. repeat split; (done || lia).
Qed.


Lemma refill_ok k s : k < N -> taken k s -> exists s', refill s = Some s' /\ taken k s' /\ curr_idx s' < end_idx s'.
Proof using o_nonneg data_in.
  intros Hk (Hr & Hk0 & Hb & Hs & base & nb & H1 & H2 & H3 & H4 & H5 & H6 & H7). unfold refill.
  destruct (Z.eqb_spec (curr_idx s) (end_idx s)) as [E|Hne].
  - rewrite Hr, Z.quot_div_nonneg, Z.rem_mod_nonneg by lia. set (left := if 0 <? (N - k) mod 8 then _ else _).
    assert (Hl : left = (N - k + 7) / 8) by (subst left; case_bool; Z.div_mod_to_equations; lia). clearbody left.
    set (n := if left <? BUF_SZ then left else BUF_SZ). assert (Hn : 0 < n <= left) by (subst n; unfold BUF_SZ; case_bool; Z.div_mod_to_equations; lia).
    clearbody n. rewrite Read_ok by (rewrite ?H7, ?Hs; Z.div_mod_to_equations; lia). cbn [mbind option_bind]. eexists. split; [done|].
    split; [|cbn; lia]. unfold taken. cbn. split; [done|]. split; [lia|]. split; [done|]. split; [done|].
    exists (base + nb), n. rewrite Hb, H7. repeat split; try lia. f_equal; lia.
  - exists s. split; [done|]. split; [|lia]. split; [done|]. split; [done|]. split; [done|]. split; [done|]. by exists base, nb.
Qed.

Lemma Get_ok k s : k < N -> taken k s -> exists s', Get s = Some (s', fbit m o k) /\ taken (k + 1) s'.
Proof using o_nonneg data_in.
  intros Hk Ht. destruct (refill_ok k s Hk Ht) as (s1 & E & Ht1 & Hlt). unfold Get. rewrite E. cbn [mbind option_bind].
  destruct Ht1 as (Hr & Hk0 & Hb & Hs & base & nb & H1 & H2 & H3 & H4 & H5 & H6 & H7).
  assert (Hg : get (buf s1) (curr_idx s1 / 8) = Some (byte_at m (o + k / 8))).
  { rewrite get_eq, H3, pread_lookup by (Z.div_mod_to_equations; lia). do 2 f_equal. Z.div_mod_to_equations; lia. }
  rewrite Hg. cbn [mbind option_bind]. eexists. split.
  - unfold fbit. do 3 f_equal. Z.div_mod_to_equations; lia.
  - unfold taken. cbn. split; [lia|]. split; [lia|]. split; [done|]. split; [done|]. exists base, nb. repeat split; try done; lia.
Qed.
End Reader.
