(* ===== verification/HuffmanCode.v ===== *)
(** * Huffman coding: encoding and decoding

    The file [Encode] writes, and that [Decode] reads the input back from it. *)

From Stdlib Require Import ZArith Lia Ascii String.
From stdpp Require Import base list gmap.
From S2P Require Import Prelude Loops DbFile Huffman HuffmanTree HuffmanBits.

Local Open Scope Z_scope.

(** ** Codes *)

Lemma at_path_depth t bs j : at_path t bs j -> (length bs < length (leaf_list t))%nat.
Proof.
  assert (Hpos : forall u, (0 < length (leaf_list u))%nat) by (induction u; cbn; rewrite ?length_app; lia).
  induction 1 as [|i l r bs j _ IH|i l r bs j _ IH]; cbn; rewrite ?length_app; [lia|pose proof (Hpos r)|pose proof (Hpos l)]; lia.
Qed.

Lemma char_s_of a : char_of (char_s a) = a.
Proof.
  rewrite <- (char_of_u a) at 2. unfold char_of. do 2 f_equal. unfold char_s, to_signed, wrap. pose proof (char_u_range a).
  rewrite (Z.mod_small (char_u a)) by (change (2 ^ 8) with 256; lia). change (2 ^ 8) with 256. case_bool; [by rewrite !Z.mod_small by lia|].
  Z.div_mod_to_equations; lia.
Qed.

Section Codes.
(** A finished tree over the letters of the input. *)
Context (n0 : Z) (lt w : Z -> Z) (nodes : list hnode) (t : tree).
Hypothesis tree_forest : forest n0 lt w nodes [t].
Hypothesis n0_short : n0 <= 256.

Lemma tree_repr : repr n0 lt w nodes t /\ par nodes (root t) = Some (root t).
Proof using tree_forest. destruct tree_forest as [Hr _ _ _]. by apply Forall_cons in Hr as [Hr _]. Qed.
Lemma tree_nodup : NoDup (indices t).
Proof using tree_forest. destruct tree_forest as [_ Hn _ _]. cbn in Hn. by rewrite app_nil_r in Hn. Qed.
Lemma tree_leaves : leaf_list t ≡ₚ seqZ 0 n0.
Proof using tree_forest. destruct tree_forest as [_ _ Hl _]. cbn in Hl. by rewrite app_nil_r in Hl. Qed.
Lemma tree_root : root t = alen nodes - 1.
Proof using tree_forest. destruct tree_forest as [_ _ _ Hl]. cbn in Hl. by apply list_elem_of_singleton in Hl. Qed.

Lemma indices_fit : (length (indices t) <= length nodes)%nat.
Proof using tree_forest.
  assert (Hs : indices t ⊆+ seqZ 0 (alen nodes)).
  { apply NoDup_submseteq; [apply tree_nodup|]. intros i Hi. apply elem_of_seqZ. pose proof (repr_range _ _ _ _ _ (proj1 tree_repr) i Hi). lia. }
  apply submseteq_length in Hs. rewrite length_seqZ in Hs. unfold alen in Hs. lia.
Qed.

(** The code of leaf [i], and that it is what [code_up] finds. *)
Lemma leaf_code i : 0 <= i < n0 -> exists bs, at_path t bs i /\ (length bs <= 255)%nat /\ code_up nodes i = Some (reverse bs).
Proof using tree_forest n0_short.
  intros Hi. destruct (leaf_has_path t i) as [bs Hbs]; [rewrite tree_leaves; apply elem_of_seqZ; lia|].
  exists bs. split; [done|]. pose proof (at_path_depth _ _ _ Hbs) as Hd. pose proof (at_path_short _ _ _ Hbs) as Hsh.
  pose proof (Permutation_length tree_leaves) as Hl. rewrite length_seqZ in Hl. split; [lia|]. pose proof indices_fit as Hfit.
  unfold code_up. replace (S (length nodes)) with (length bs + S (length nodes - length bs))%nat by lia.
  destruct tree_repr as [Hr Hp]. rewrite (code_up_path n0 lt w nodes t bs i Hr tree_nodup Hbs). cbn [loop app].
  by rewrite (code_step_root nodes (root t) _ Hp).
Qed.

(** [bs] is the code of the letter [a]. *)
Definition codes (a : ascii) (bs : list bool) : Prop := exists i, lt i = char_s a /\ at_path t bs i.

Lemma encode_letters_ok o f0 idx input : 0 <= o < 2 ^ 31 -> fsize f0 <= o ->
  (forall a, a ∈ input -> exists i, 0 <= i < n0 /\ lt i = char_s a /\ idx !! char_s a = Some i) ->
  forall B s, written o f0 B s -> alen B + 255 * alen input < 2 ^ 31 ->
  exists Bs s', encode_letters nodes idx input s = Some s' /\ Forall2 codes input Bs /\
    written o f0 (B ++ concat Bs) s' /\ alen (concat Bs) <= 255 * alen input.
Proof using tree_forest n0_short.
  intros Ho Hf0. induction input as [|a input IH]; intros Hin B s Hw Hlen.
  - exists [], s. cbn. rewrite app_nil_r. split; [done|]. split; [constructor|]. split; [done|]. unfold alen. cbn. lia.
  - destruct (Hin a) as (i & Hi & Hlt & Hidx); [set_solver|]. destruct (leaf_code i Hi) as (bs & Hbs & Hshort & Hcode).
    cbn [encode_letters]. rewrite Hidx. cbn [default id]. rewrite Hcode. cbn [mbind option_bind]. rewrite reverse_involutive.
    rewrite alen_cons in *.
    assert (Hlb : alen (B ++ bs) <= alen B + 255) by (unfold alen; rewrite length_app; lia).
    assert (0 <= alen input) by (unfold alen; lia).
    destruct (put_bits_ok o f0 Ho Hf0 bs B s Hw) as (s1 & -> & Hw1); [lia|]. cbn [mbind option_bind].
    destruct (IH ltac:(set_solver) (B ++ bs) s1 Hw1) as (Bs & s' & -> & Hc & Hw' & Hl'); [lia|].
    exists (bs :: Bs), s'. split; [done|]. split; [constructor; [by exists i|done]|]. cbn [concat]. rewrite app_assoc. split; [done|].
    unfold alen in *. rewrite length_app in *. lia.
Qed.

(** ** Following a code *)

Context (o N : Z) (m : gmap Z ascii) (sz : Z).
Hypothesis o_nonneg : 0 <= o.
Hypothesis data_in : o + (N + 7) / 8 <= sz \/ N = 0.

Lemma walk_step_down i c l r k s : strip <$> get nodes i = Some (COMPOUND, c, l, r) -> taken o N m sz k s -> k < N ->
  exists s', walk_step nodes (s, i) = Some (inl (s', if fbit m o k then r else l)) /\ taken o N m sz (k + 1) s'.
Proof using o_nonneg data_in.
  clear tree_forest n0_short. intros Hn Ht Hk. destruct (Get_ok o N m sz o_nonneg data_in k s Hk Ht) as (s1 & E & Ht1).
  exists s1. split; [|done]. unfold walk_step. destruct (get nodes i) as [n|]; [|done]. unfold strip in Hn. cbn in Hn.
  injection Hn as L1 _ L2 L3. cbn [mbind option_bind]. rewrite L1, Z.eqb_refl, E. cbn [mbind option_bind]. by rewrite L2, L3.
Qed.

Lemma walk_path u bs i : repr n0 lt w nodes u -> at_path u bs i -> lt i <> COMPOUND -> forall k s fuel,
  taken o N m sz k s -> (forall j : nat, (j < length bs)%nat -> bs !! j = Some (fbit m o (k + Z.of_nat j))) ->
  k + alen bs <= N -> (length bs < fuel)%nat ->
  exists s', loop fuel (walk_step nodes) (s, root u) = Some (s', i) /\ taken o N m sz (k + alen bs) s'.
Proof using o_nonneg data_in.
  clear tree_forest n0_short. intros Hr Hp Hne. induction Hp as [i|i l r bs j Hp IH|i l r bs j Hp IH]; intros k s fuel Ht Hb HN Hf;
    (destruct fuel as [|fuel]; [lia|]); cbn [repr root length] in *.
  - destruct Hr as (n & Hn & _ & Hl & _). exists s. cbn [loop].
    assert (walk_step nodes (s, i) = Some (inr (s, i))) as -> by (unfold walk_step; rewrite Hn; cbn; by rewrite Hl, (proj2 (Z.eqb_neq _ _))).
    split; [done|]. unfold alen. cbn. by rewrite Z.add_0_r.
  - destruct Hr as (H1 & _ & _ & Hr & _). rewrite alen_cons in *. assert (0 <= alen bs) by (unfold alen; lia).
    destruct (walk_step_down _ _ _ _ _ _ H1 Ht ltac:(lia)) as (s1 & E & Ht1). cbn [loop]. rewrite E. cbn [mbind option_bind].
    pose proof (Hb 0%nat ltac:(lia)) as Hb0. cbn in Hb0. injection Hb0 as Hb0. rewrite Z.add_0_r in Hb0. rewrite <- Hb0.
    rewrite Z.add_assoc. apply IH; [done|done|done| |lia|lia].
    intros p Hlp. etransitivity; [exact (Hb (S p) ltac:(lia))|]. do 2 f_equal. lia.
  - destruct Hr as (H1 & _ & _ & _ & Hr). rewrite alen_cons in *. assert (0 <= alen bs) by (unfold alen; lia).
    destruct (walk_step_down _ _ _ _ _ _ H1 Ht ltac:(lia)) as (s1 & E & Ht1). cbn [loop]. rewrite E. cbn [mbind option_bind].
    pose proof (Hb 0%nat ltac:(lia)) as Hb0. cbn in Hb0. injection Hb0 as Hb0. rewrite Z.add_0_r in Hb0. rewrite <- Hb0.
    rewrite Z.add_assoc. apply IH; [done|done|done| |lia|lia].
    intros p Hlp. etransitivity; [exact (Hb (S p) ltac:(lia))|]. do 2 f_equal. lia.
Qed.

Lemma repr_leaf u bs i : repr n0 lt w nodes u -> at_path u bs i -> exists n, get nodes i = Some n /\ letter n = lt i.
Proof using.
  clear. intros Hr Hp. induction Hp as [i|i l r bs j _ IH|i l r bs j _ IH]; cbn in Hr; [|apply IH, Hr..].
  destruct Hr as (n & ? & _ & ? & _). by exists n.
Qed.

(** The bits from [k] on are those of [B]. *)
Definition bits_at (k : Z) (B : list bool) : Prop := forall j : nat, (j < length B)%nat -> B !! j = Some (fbit m o (k + Z.of_nat j)).

Lemma bits_at_app k B B' : bits_at k (B ++ B') -> bits_at k B /\ bits_at (k + alen B) B'.
Proof using.
  clear. unfold bits_at, alen. rewrite length_app. intros H. split; intros j Hj.
  - rewrite <- H by lia. by rewrite lookup_app_l.
  - replace (k + Z.of_nat (length B) + Z.of_nat j) with (k + Z.of_nat (length B + j)) by lia. rewrite <- H by lia.
    rewrite lookup_app_r by lia. f_equal. lia.
Qed.

(** One letter. *)
Lemma decode_step_ok a bs k s out : codes a bs -> bs <> [] -> char_s a <> COMPOUND -> taken o N m sz k s -> bits_at k bs -> k + alen bs <= N ->
  exists s', decode_step nodes (s, out) = Some (inl (s', out ++ [a])) /\ taken o N m sz (k + alen bs) s'.
Proof using o_nonneg data_in tree_forest.
  intros (i & Hlt & Hp) Hne Hc Ht Hb Hk. destruct tree_repr as [Hr _]. pose proof indices_fit as Hfit. pose proof (at_path_short _ _ _ Hp) as Hsh.
  destruct (walk_path t bs i Hr Hp ltac:(by rewrite Hlt) k s (S (length nodes)) Ht Hb Hk ltac:(lia)) as (s' & E & Ht').
  destruct (repr_leaf t bs i Hr Hp) as (n & Hn & Hl). exists s'. split; [|done].
  unfold decode_step, Empty. destruct Ht as (Hrem & _). rewrite Hrem.
  rewrite (proj2 (Z.leb_gt _ _)) by (destruct bs; [done|]; rewrite alen_cons in Hk; unfold alen in Hk; lia).
  rewrite <- tree_root, E. cbn [mbind option_bind]. rewrite Hn. cbn [mbind option_bind]. by rewrite Hl, Hlt, char_s_of.
Qed.

Lemma decode_all input Bs : Forall2 codes input Bs -> Forall (fun bs => bs <> []) Bs -> Forall (fun a => char_s a <> COMPOUND) input ->
  forall k s out fuel, taken o N m sz k s -> bits_at k (concat Bs) -> k + alen (concat Bs) = N -> (length input < fuel)%nat ->
  exists s', loop fuel (decode_step nodes) (s, out) = Some (s', out ++ input).
Proof using o_nonneg data_in tree_forest.
  intros Hc. induction Hc as [|a bs input Bs Hc _ IH]; intros Hne Hcmp k s out fuel Ht Hb HN Hf; (destruct fuel as [|fuel]; [cbn in Hf; lia|]); cbn [loop].
  - exists s. destruct Ht as (Hrem & _). unfold alen in HN. cbn in HN.
    assert (decode_step nodes (s, out) = Some (inr (s, out))) as -> by (unfold decode_step, Empty; rewrite Hrem; by rewrite (proj2 (Z.leb_le _ _)) by lia).
    by rewrite app_nil_r.
  - apply Forall_cons in Hne as [Hne1 Hne]. apply Forall_cons in Hcmp as [Hc1 Hcmp]. cbn [concat] in *.
    apply bits_at_app in Hb as [Hb1 Hb2]. assert (Hal : alen (bs ++ concat Bs) = alen bs + alen (concat Bs)) by (unfold alen; rewrite length_app; lia).
    assert (0 <= alen (concat Bs)) by (unfold alen; lia).
    destruct (decode_step_ok a bs k s out Hc Hne1 Hc1 Ht Hb1) as (s1 & -> & Ht1); [lia|]. cbn [mbind option_bind].
    destruct (IH Hne Hcmp (k + alen bs) s1 (out ++ [a]) fuel Ht1 Hb2) as (s2 & ->); [lia|cbn in Hf; lia|]. exists s2. by rewrite <- app_assoc.
Qed.
End Codes.

(** ** The tree in the file *)

Lemma int_at_le b k x : take 4 (drop k b) = le 4 x -> in_i32 x -> int_at b k = x.
Proof.
  intros Hb Hx. unfold int_at. rewrite Hb. replace (le 4 x) with (le 4 (wrap 32 x)).
  - rewrite unle_le by (change (256 ^ Z.of_nat 4) with (2 ^ 32); apply wrap_range; lia). by apply to_signed_wrap.
  - unfold wrap. cbn [le]. assert (Hm : forall y z, char_of y = char_of z <-> y mod 256 = z mod 256).
    { intros y z. split; [intros H%(f_equal char_u); by rewrite !char_u_of in H|]. intros H. unfold char_of, wrap. change (2 ^ 8) with 256. by rewrite H. }
    repeat (apply (f_equal2 cons); [apply Hm; change (2 ^ 32) with 4294967296; Z.div_mod_to_equations; lia|]). done.
Qed.

Lemma Serialize_length n : length (Serialize n) = 20%nat.
Proof. unfold Serialize. by rewrite !length_app, !le_length. Qed.

Lemma Unserialize_Serialize n rest : node_i32 n -> Unserialize (Serialize n ++ rest) = n.
Proof.
  intros (H1 & H2 & H3 & H4 & H5). unfold Unserialize, Serialize. destruct n as [c n p l r]. cbn [letter count parent left right] in *.
  f_equal; apply int_at_le; try done.
Qed.

Lemma int_le x : in_i32 x -> to_signed 32 (unle (le 4 x)) = x.
Proof. intros H. by apply (int_at_le (le 4 x) 0). Qed.

Lemma concat_serialize_length nodes : length (concat (Serialize <$> nodes)) = (20 * length nodes)%nat.
Proof. induction nodes as [|n nodes IH]; [done|]. rewrite fmap_cons. cbn [concat]. rewrite length_app, IH, Serialize_length. cbn [length]. lia. Qed.

Lemma nodes_read nodes : Forall node_i32 nodes ->
  (fun i => Unserialize (take 20 (drop (i * 20) (concat (Serialize <$> nodes))))) <$> seq 0 (length nodes) = nodes.
Proof.
  induction nodes as [|n nodes IH]; [done|]. intros [Hn Hnodes]%Forall_cons. cbn [length seq]. rewrite !fmap_cons. cbn [concat Nat.mul drop]. f_equal.
  - rewrite drop_0, take_app_length' by (by rewrite Serialize_length). rewrite <- (app_nil_r (Serialize n)). by apply Unserialize_Serialize.
  - rewrite <- (IH Hnodes) at 2. rewrite <- fmap_S_seq, <- list_fmap_compose. apply list_fmap_ext. intros i j _. reflexivity.
Qed.

(** The file format: the number of nodes, the nodes, the number of bits, the bits. *)
Record layout (f : file) (nodes : list hnode) (B : list bool) : Prop := Layout {
  lay_n : pread (fbytes f) 0 4 = le 4 (alen nodes);
  lay_nodes : pread (fbytes f) 4 (20 * length nodes) = concat (Serialize <$> nodes);
  lay_nbits : pread (fbytes f) (4 + 20 * alen nodes) 4 = le 4 (alen B);
  lay_bits : forall k, 0 <= k < alen B -> get B k = Some (fbit (fbytes f) (8 + 20 * alen nodes) k);
  lay_size : 8 + 20 * alen nodes + (alen B + 7) / 8 <= fsize f }.

Lemma pread_written f d f' : Write f d = Some f' -> forall off n, (forall j, off <= j < off + Z.of_nat n -> ~ (fpos f <= j < fpos f + file_len d)) ->
  pread (fbytes f') off n = pread (fbytes f) off n.
Proof. intros H off n Hd. apply pread_ext. intros j Hj. rewrite (byte_at_write _ _ _ _ H). by rewrite decide_False by (apply Hd; lia). Qed.

(** The tree at the start of the file. *)
Lemma OutputTree_ok nodes : 0 < alen nodes < 2 ^ 31 -> exists f, OutputTree nodes empty_file = Some f /\
  fpos f = 4 + 20 * alen nodes /\ fsize f = 4 + 20 * alen nodes /\
  pread (fbytes f) 0 4 = le 4 (alen nodes) /\ pread (fbytes f) 4 (20 * length nodes) = concat (Serialize <$> nodes).
Proof.
  intros Hn. unfold OutputTree. set (d := concat _). assert (Hd : file_len d = 20 * alen nodes).
  { unfold file_len, d, alen. rewrite concat_serialize_length. lia. }
  destruct (Write_ok empty_file (le 4 (alen nodes))) as [f1 W1]; [unfold file_len; rewrite le_length; cbn; lia|]. rewrite W1. cbn [mbind option_bind].
  destruct (Write_end _ _ _ W1) as [P1 S1]; [unfold file_len; rewrite le_length; lia|].
  unfold file_len in P1, S1. rewrite le_length in P1, S1. change (fpos f1 = 4) in P1. change (fsize f1 = 4) in S1.
  destruct (Write_ok f1 d) as [f2 W2]; [lia|]. destruct (Write_end _ _ _ W2) as [P2 S2]; [lia|].
  exists f2. split; [done|]. split; [lia|]. split; [lia|]. split.
  - rewrite (pread_written _ _ _ W2) by lia. pose proof (pread_write_same _ _ _ W1) as H. by rewrite le_length in H.
  - pose proof (pread_write_same _ _ _ W2) as H. unfold d in H. rewrite concat_serialize_length, P1 in H. exact H.
Qed.

Section RoundTrip.
Context `{StdHeapLaws} (input : list ascii).
Hypothesis input_short : 255 * alen input < 2 ^ 31.

(** What [Encode] writes, for any input that is not empty. *)
Lemma Encode_ok : input <> [] -> exists f m nodes t Bs,
  Encode (Some input) = Some (true, f) /\ (forall c, m !! c = if 0 <? occ c input then Some (occ c input) else None) /\
  forest (alen (letters m)) (leaf_letter m) (leaf_weight m) nodes [t] /\ merges (leaf_weight m) (Lf <$> seqZ 0 (alen (letters m))) t /\
  Forall2 (codes (leaf_letter m) t) input Bs /\ Forall node_i32 nodes /\ alen nodes + 1 = 2 * alen (letters m) /\ layout f nodes (concat Bs) /\
  alen (concat Bs) <= 255 * alen input.
Proof using input_short H0.
  intros Hne. assert (0 <= alen input) by (unfold alen; lia). destruct (count_letters_ok input ∅) as (m & Em & Hm0).
  { intros c. rewrite lookup_empty. change (default 0 None) with 0. lia. }
  assert (Hm : forall c, m !! c = if 0 <? occ c input then Some (occ c input) else None) by (intros c; rewrite Hm0, lookup_empty; done).
  clear Hm0. destruct (BuildTree_ok input m Hm Hne ltac:(lia)) as (nodes & t & ET & Hf & Hmerge & Hcount & Hi32).
  pose proof (letters_short m) as Hls. pose proof (tree_root _ _ _ _ _ Hf) as Hroot.
  pose proof (repr_range _ _ _ _ _ (proj1 (tree_repr _ _ _ _ _ Hf)) _ (root_in t)) as Hpos.
  destruct (OutputTree_ok nodes ltac:(lia)) as (f2 & E2 & P2 & S2 & R1 & R2).
  set (o := 8 + 20 * alen nodes). set (f0 := Lseek f2 (fsize f2 + 4)).
  assert (Hw0 : written o f0 [] (bitvec_new, f0, 0)) by (apply written_new; cbn; lia).
  destruct (encode_letters_ok _ _ _ nodes t Hf Hls o f0 (node_idx (leaves m)) input ltac:(lia) ltac:(cbn; lia)) with (B := @nil bool) (s := (bitvec_new, f0, 0))
    as (Bs & [[v fd] nb] & EL & Hcodes & Hw & Hlen); [intros a Ha; destruct (letter_leaf input m Hm a Ha) as (i & ?); by exists i|done|change (alen (@nil bool)) with 0; lia|].
  cbn [app] in Hw. destruct Hw as [W1 W2 W3 W4 W5 W6 W7 W8 W9 W10]. cbn [fst snd] in *.
  destruct (Output_ok o f0 ltac:(lia) ltac:(cbn; lia) (concat Bs) v fd nb) as (fd' & EO & PO & SO & FO & BO); try done; try lia.
  destruct (Write_ok (Lseek fd' (fpos f2)) (le 4 (nb + bit_idx v))) as [ff WF]; [unfold file_len; rewrite le_length; cbn; lia|].
  exists ff, m, nodes, t, Bs. split; [|split; [done|split; [done|split; [done|split; [done|split; [done|split; [done|split; [|done]]]]]]]].
  - unfold Encode. rewrite Em. cbn [mbind option_bind]. rewrite ET. cbn [mbind option_bind VERIFY alen length Z.of_nat Pos.of_succ_nat Z.eqb Pos.eqb].
    rewrite E2. cbn [mbind option_bind]. unfold ReserveRoomInt. fold f0. unfold LettersEncodeAndOutput. rewrite EL. cbn [mbind option_bind].
    rewrite EO. cbn [mbind option_bind]. rewrite int32_ok by (unfold in_i32; lia). cbn [mbind option_bind]. by rewrite WF.
  - destruct (Write_end _ _ _ WF) as [_ SF]; [unfold file_len; rewrite le_length; lia|]. cbn [fpos fsize Lseek] in SF. unfold file_len in SF. rewrite le_length in SF.
    assert (Hff : forall off n, (off + Z.of_nat n <= fpos f2 \/ o <= off) -> pread (fbytes ff) off n = pread (fbytes fd') off n).
    { intros off n Hd. rewrite (pread_written _ _ _ WF); [done|]. cbn [fpos Lseek]. unfold file_len. rewrite le_length. lia. }
    assert (Hbef : forall off n, off + Z.of_nat n <= fpos f2 -> pread (fbytes ff) off n = pread (fbytes f2) off n).
    { intros off n Hd. rewrite Hff by lia. apply pread_ext. intros j Hj. rewrite BO by lia. done. }
    split.
    + rewrite Hbef by lia. done.
    + rewrite Hbef by (unfold alen in *; lia). done.
    + pose proof (pread_write_same _ _ _ WF) as HW. rewrite le_length in HW. cbn [fpos Lseek] in HW. by rewrite <- P2, HW, <- W1.
    + intros k Hk. rewrite FO by done. f_equal. unfold fbit. do 2 f_equal. rewrite (byte_at_write _ _ _ _ WF). cbn [fpos fbytes Lseek].
      unfold file_len. rewrite le_length. rewrite decide_False by (Z.div_mod_to_equations; lia). done.
    + rewrite SF, SO. fold o. destruct (Z.eqb_spec (alen (concat Bs)) 0) as [E0|]; [|lia]. rewrite E0. change ((0 + 7) / 8) with 0. lia.
Qed.

(** C12. A file of at least two different letters, none of them the byte 255, is decoded to
    what was encoded: [Decode] of the file [Encode] writes gives the input, whatever heap the
    standard library provides, when the input is so short that its code has less than [2^31]
    bits.  Neither side fails: the tree, the counts and the bits fit their types, no read
    runs past the file, and every loop ends. *)
Theorem huffman_round_trip : (exists a b, a ∈ input /\ b ∈ input /\ a <> b) -> (forall a, a ∈ input -> char_u a <> 255) ->
  exists f, Encode (Some input) = Some (true, f) /\ Decode f = Some input.
Proof using input_short H0.
  intros (a & b & Ha & Hb & Hab) Hff.
  destruct Encode_ok as (f & m & nodes & t & Bs & E & Hm & Hf & _ & Hc & Hi32 & Hn & [L1 L2 L3 L4 L5] & Hlen); [intros ->; by apply not_elem_of_nil in Ha|].
  exists f. split; [done|]. pose proof (letters_short m). assert (0 < alen nodes < 2 ^ 31).
  { pose proof (repr_range _ _ _ _ _ (proj1 (tree_repr _ _ _ _ _ Hf)) _ (root_in t)). lia. }
  assert (Ht : forall bs i, at_path t bs i -> bs <> []).
  { intros bs i Hp ->. inversion Hp; subst. pose proof (tree_leaves _ _ _ _ _ Hf) as Hl. cbn in Hl. apply Permutation_length in Hl. rewrite length_seqZ in Hl. cbn in Hl.
    destruct (letter_leaf input m Hm a Ha) as (ia & Hia & La & _), (letter_leaf input m Hm b Hb) as (ib & Hib & Lb & _).
    assert (ia = ib) as -> by lia. apply Hab. by rewrite <- (char_s_of a), <- (char_s_of b), <- La, <- Lb. }
  assert (Hne : Forall (fun bs => bs <> []) Bs).
  { clear -Hc Ht. induction Hc as [|? ? ? ? (i & _ & Hp) _ IH]; constructor; [by eapply Ht|done]. }
  assert (Hcmp : Forall (fun c => char_s c <> COMPOUND) input).
  { apply Forall_forall. intros c Hin E1. apply (Hff c Hin). rewrite <- (char_s_of c), E1. done. }
  assert (Hshort : alen input <= alen (concat Bs)).
  { clear -Hc Hne. induction Hc as [|c bs inp Bs _ _ IH]; [done|]. apply Forall_cons in Hne as [H1 H2]. specialize (IH H2). cbn [concat].
    unfold alen in *. rewrite length_app. destruct bs; [done|]. cbn [length]. lia. }
  assert (0 <= (alen (concat Bs) + 7) / 8) by (apply Z.div_pos; unfold alen; lia).
  unfold Decode, ReadTree. rewrite Read_ok by (cbn; lia). cbn [mbind option_bind Lseek fbytes fpos fsize]. change (Z.to_nat 4) with 4%nat. rewrite L1, int_le by (unfold in_i32; lia).
  rewrite Read_ok by (unfold hnode_size; cbn [fpos fsize Lseek]; lia). cbn [mbind option_bind Lseek fbytes fpos fsize].
  replace (Z.to_nat (alen nodes * hnode_size)) with (20 * length nodes)%nat by (unfold hnode_size, alen; lia). replace (Z.to_nat (alen nodes)) with (length nodes) by (unfold alen; lia).
  rewrite Z.add_0_l, L2, nodes_read by done. unfold DecodeAndOutput. rewrite Read_ok by (unfold hnode_size; cbn [fpos fsize Lseek]; lia).
  cbn [mbind option_bind Lseek fbytes fpos fsize]. change (Z.to_nat 4) with 4%nat. replace (4 + alen nodes * hnode_size) with (4 + 20 * alen nodes) by (unfold hnode_size; lia).
  rewrite L3, int_le by (unfold in_i32; lia). set (N := alen (concat Bs)) in *. set (o := 8 + 20 * alen nodes) in *.
  match goal with |- context [bitstream_new ?fd _] => set (fd0 := fd) end.
  destruct (decode_all _ _ _ nodes t Hf o N (fbytes f) (fsize f) ltac:(lia) ltac:(left; lia) input Bs Hc Hne Hcmp 0
    (bitstream_new fd0 N) [] (S (Z.to_nat N))) as (s' & ->); [| |done|unfold alen in Hshort; lia|done].
  - apply taken_new; unfold fd0; cbn [fbytes fsize fpos Lseek]; (done || lia).
  - intros j Hj. rewrite <- L4 by (unfold N, alen; lia). by rewrite Z.add_0_l, get_nat.
Qed.
End RoundTrip.

Lemma huffman_round_trip_witness : exists f, Encode (H := sorted_heap) (Some (bytes_of "abracadabra")) = Some (true, f) /\ Decode f = Some (bytes_of "abracadabra").
Proof.
  apply huffman_round_trip.
  - done.
  - exists "a"%char, "b"%char. split; [set_solver|]. split; [set_solver|]. done.
  - intros a Ha. cbn in Ha. repeat (apply elem_of_cons in Ha as [->|Ha]; [done|]). by apply not_elem_of_nil in Ha.
Defined.

(** A file of one letter repeated is lost: its code is empty, and no bits decode to no letters. *)
Lemma huffman_one_letter_lost : exists f, Encode (H := sorted_heap) (Some (bytes_of "aaaa")) = Some (true, f) /\ Decode f = Some [].
Proof. eexists. split; [vm_compute; reflexivity|]. vm_compute. reflexivity. Qed.

(** The byte 255 is the [char] -1, which is [COMPOUND]: the decoder takes its leaf for a
    compound node and follows index -1.  An empty file fails the [assert]. *)
Lemma huffman_byte_255_fails : exists f,
  Encode (H := sorted_heap) (Some (char_of 255 :: bytes_of "ab")) = Some (true, f) /\ Decode f = None /\ Encode (H := sorted_heap) (Some []) = None.
Proof. eexists. split; [vm_compute; reflexivity|]. split; vm_compute; reflexivity. Qed.
