(* ===== verification/HuffmanOptimal.v ===== *)
(** * Huffman coding: the code is optimal

    No binary tree over the letters of the input encodes it with fewer bits than the tree
    [BuildTree] makes.  The argument is Huffman's: in any tree the two lightest letters can
    be moved to the deepest pair of siblings without making the code longer. *)

From Stdlib Require Import ZArith Lia Ascii String.
From stdpp Require Import base list gmap.
From S2P Require Import Prelude Loops DbFile Huffman HuffmanTree HuffmanBits HuffmanCode.

Local Open Scope Z_scope.

(** ** The depths of a tree *)

(** The depths of the leaves of some binary tree. *)
Inductive depths : list Z -> Prop :=
  | depths_leaf : depths [0]
  | depths_node ds1 ds2 : depths ds1 -> depths ds2 -> depths (Z.succ <$> (ds1 ++ ds2))
  | depths_perm ds ds' : ds ≡ₚ ds' -> depths ds -> depths ds'.

Lemma depths_pos ds : depths ds -> (0 < length ds)%nat /\ Forall (fun d => 0 <= d) ds /\ (length ds = 1%nat -> ds = [0]).
Proof.
  induction 1 as [|ds1 ds2 _ (L1 & F1 & _) _ (L2 & F2 & _)|ds ds' Hp _ (L & F & E)].
  - split; [cbn; lia|]. split; [by repeat constructor|done].
  - rewrite length_fmap, length_app. split; [lia|]. split; [|lia]. apply Forall_fmap. apply Forall_app. split; eapply Forall_impl; try eassumption; cbn; lia.
  - pose proof (Permutation_length Hp) as Hlen. split; [lia|]. split; [by rewrite <- Hp|]. intros Hl. rewrite (E ltac:(lia)) in Hp.
    by apply Permutation_singleton_l in Hp.
Qed.

(** There are two deepest siblings; without them their parent is a leaf. *)
Lemma deepest_pair ds : depths ds -> (2 <= length ds)%nat ->
  exists d ds', ds ≡ₚ (d + 1) :: (d + 1) :: ds' /\ Forall (fun e => e <= d + 1) ds' /\ depths (d :: ds').
Proof.
  induction 1 as [|ds1 ds2 H1 IH1 H2 IH2|ds ds' Hp _ IH]; intros Hlen; [cbn in Hlen; lia| |].
  - destruct (depths_pos _ H1) as (L1 & F1 & E1), (depths_pos _ H2) as (L2 & F2 & E2).
    (* The pair of the deeper side. *)
    assert (Hside : forall da db d da', depths db -> da ≡ₚ (d + 1) :: (d + 1) :: da' -> Forall (fun e => e <= d + 1) da' ->
      depths (d :: da') -> Forall (fun e => e <= d + 1) db ->
      exists d' ds', Z.succ <$> (da ++ db) ≡ₚ (d' + 1) :: (d' + 1) :: ds' /\ Forall (fun e => e <= d' + 1) ds' /\ depths (d' :: ds')).
    { intros da db d da' Hdb Hp Hle Hd Hble. exists (d + 1), (Z.succ <$> (da' ++ db)). split; [by rewrite Hp|]. split.
      - apply Forall_fmap, Forall_app. split; eapply Forall_impl; try eassumption; cbn; lia.
      - apply (depths_perm (Z.succ <$> ((d :: da') ++ db))); [done|]. by constructor. }
    assert (Hle : forall db d db', db ≡ₚ (d + 1) :: (d + 1) :: db' -> Forall (fun e => e <= d + 1) db' -> Forall (fun e => e <= d + 1) db).
    { intros db d db' -> Hf. by constructor; [lia|constructor; [lia|]]. }
    destruct (decide (length ds1 = 1)%nat) as [N1|N1], (decide (length ds2 = 1)%nat) as [N2|N2].
    + rewrite (E1 N1), (E2 N2). exists 0, []. split; [done|]. split; [done|constructor].
    + destruct (IH2 ltac:(lia)) as (d & ds' & Hp & Hl & Hd). setoid_rewrite (Permutation_app_comm ds1 ds2). apply (Hside ds2 ds1 d ds'); try done.
      rewrite (E1 N1). constructor; [|done]. rewrite Hp in F2. apply Forall_cons in F2 as [? _]. lia.
    + destruct (IH1 ltac:(lia)) as (d & ds' & Hp & Hl & Hd). apply (Hside ds1 ds2 d ds'); try done.
      rewrite (E2 N2). constructor; [|done]. rewrite Hp in F1. apply Forall_cons in F1 as [? _]. lia.
    + destruct (IH1 ltac:(lia)) as (d1 & ds1' & P1 & I1 & D1), (IH2 ltac:(lia)) as (d2 & ds2' & P2 & I2 & D2).
      destruct (decide (d1 <= d2)).
      * setoid_rewrite (Permutation_app_comm ds1 ds2). apply (Hside ds2 ds1 d2 ds2'); try done. eapply Forall_impl; [by eapply Hle|]. cbn. lia.
      * apply (Hside ds1 ds2 d1 ds1'); try done. eapply Forall_impl; [by eapply Hle|]. cbn. lia.
  - pose proof (Permutation_length Hp) as Hl. destruct (IH ltac:(lia)) as (d & ds0 & Hp0 & H). exists d, ds0. split; [by rewrite <- Hp|done].
Qed.

(** ** The length of a code *)

(** Leaves as pairs of a depth and a weight. *)
Definition cost (l : list (Z * Z)) : Z := foldr (fun p x => p.1 * p.2 + x) 0 l.

#[export] Instance cost_perm : Proper ((≡ₚ) ==> (=)) cost.
Proof. intros l l' H. induction H; unfold cost in *; cbn [foldr]; lia. Qed.
Lemma cost_app l l' : cost (l ++ l') = cost l + cost l'.
Proof. induction l as [|p l IH]; [done|]. cbn [app cost foldr]. fold (cost l) (cost (l ++ l')). lia. Qed.

(** The lightest weight can take the deepest place. *)
Lemma exchange D x (l : list (Z * Z)) a ws : a :: ws ≡ₚ x :: l.*2 -> a <= x -> Forall (fun e => e <= D) l.*1 ->
  exists l', l'.*1 = l.*1 /\ l'.*2 ≡ₚ ws /\ D * a + cost l' <= D * x + cost l.
Proof.
  intros Hp Hax HD. destruct (decide (a = x)) as [->|Hne].
  - apply Permutation_cons_inv in Hp. exists l. by split; [|split].
  - assert (a ∈ l.*2) as Ha by (assert (a ∈ x :: l.*2) as Hin by (rewrite <- Hp; by left); by apply elem_of_cons in Hin as [->|]).
    apply list_elem_of_fmap in Ha as ([e a'] & -> & Hin). cbn [snd] in *. apply list_elem_of_split in Hin as (l1 & l2 & ->).
    exists (l1 ++ (e, x) :: l2). rewrite !fmap_app, !fmap_cons in *. cbn [fst snd] in *. split; [done|]. split.
    + rewrite <- Permutation_middle in Hp |- *. rewrite perm_swap in Hp. apply Permutation_cons_inv in Hp. by symmetry.
    + rewrite !cost_app. cbn [cost foldr fst snd]. apply Forall_app in HD as [_ [He _]%Forall_cons]. fold (cost l2). nia.
Qed.

(** ** Huffman's step *)

(** [l] lists the leaves of a tree. *)
Definition tree_leaves_at (l : list (Z * Z)) : Prop := depths l.*1.

Lemma huffman_step (l : list (Z * Z)) a b ws : tree_leaves_at l -> l.*2 ≡ₚ a :: b :: ws -> (forall c, c ∈ b :: ws -> a <= c) -> (forall c, c ∈ ws -> b <= c) ->
  exists l', tree_leaves_at l' /\ l'.*2 ≡ₚ (a + b) :: ws /\ cost l' + (a + b) <= cost l.
Proof.
  intros Hd Hw Ha Hb. assert (Hlen : (2 <= length l.*1)%nat) by (rewrite length_fmap, <- (length_fmap snd l), Hw; cbn; lia).
  destruct (deepest_pair _ Hd Hlen) as (d & ds & Hp & Hle & Hd'). symmetry in Hp. apply Permutation_map_inv in Hp as (l3 & E3 & Hp3).
  destruct l3 as [|[d1 x] [|[d2 y] R]]; try done. rewrite !fmap_cons in E3. cbn [fst] in E3. injection E3 as <- <- E3.
  rewrite Hp3 in Hw. rewrite (cost_perm _ _ Hp3). rewrite !fmap_cons in Hw. cbn [snd] in Hw.
  destruct (exchange (d + 1) x ((d + 1, y) :: R) a (b :: ws)) as (R1 & F1 & W1 & C1).
  { by rewrite fmap_cons, Hw. }
  { assert (x ∈ a :: b :: ws) as Hx by (rewrite <- Hw; by left). apply elem_of_cons in Hx as [->|Hx]; [lia|by apply Ha]. }
  { rewrite fmap_cons, <- E3. constructor; [cbn; lia|done]. }
  destruct R1 as [|[d1' y1] R1]; [done|]. rewrite !fmap_cons in F1, W1. cbn [fst snd] in F1, W1. injection F1 as -> F1. change (R1.*1 = R.*1) in F1.
  destruct (exchange (d + 1) y1 R1 b ws) as (R2 & F2 & W2 & C2).
  { by symmetry. }
  { assert (y1 ∈ b :: ws) as Hy by (rewrite <- W1; by left). apply elem_of_cons in Hy as [->|Hy]; [lia|by apply Hb]. }
  { by rewrite F1, <- E3. }
  exists ((d, a + b) :: R2). split; [|split].
  - unfold tree_leaves_at. rewrite fmap_cons, F2, F1, <- E3. done.
  - rewrite fmap_cons. cbn [snd]. by rewrite W2.
  - cbn [cost foldr fst snd] in *. fold (cost R) (cost R1) (cost R2) in *. lia.
Qed.

(** ** Trees *)

(** The leaves of [t], which is at depth [d], with their weights. *)
Fixpoint weighted (w : Z -> Z) (d : Z) (t : tree) : list (Z * Z) :=
  match t with Lf i => [(d, w i)] | Br _ l r => weighted w (d + 1) l ++ weighted w (d + 1) r end.

Lemma weighted_weights w d t : (weighted w d t).*2 = w <$> leaf_list t.
Proof. revert d. induction t as [i|i l IHl r IHr]; intros d; [done|]. cbn. by rewrite !fmap_app, IHl, IHr. Qed.

Lemma weighted_shift w d t : (weighted w (d + 1) t).*1 = Z.succ <$> (weighted w d t).*1.
Proof. revert d. induction t as [i|i l IHl r IHr]; intros d; [done|]. cbn. by rewrite !fmap_app, IHl, IHr. Qed.

Lemma weighted_depths w t : tree_leaves_at (weighted w 0 t).
Proof.
  unfold tree_leaves_at. induction t as [i|i l IHl r IHr]; [constructor|]. cbn [weighted].
  rewrite fmap_app, !weighted_shift, <- fmap_app. by constructor.
Qed.

Section Optimal.
Context (w : Z -> Z).
Hypothesis w_nonneg : forall i, 0 <= w i.

(** The weights of the inner nodes; their sum is the length of the code. *)
Fixpoint inner (t : tree) : Z := match t with Lf _ => 0 | Br _ l r => wt w l + wt w r + inner l + inner r end.
Definition inners (ts : list tree) : Z := foldr (fun t x => inner t + x) 0 ts.

Lemma cost_weighted d t : cost (weighted w d t) = d * wt w t + inner t.
Proof. revert d. induction t as [i|i l IHl r IHr]; intros d; cbn [weighted wt inner]; [cbn [cost foldr fst snd]; lia|]. rewrite cost_app, IHl, IHr. lia. Qed.

Lemma inners_perm ts ts' : ts ≡ₚ ts' -> inners ts = inners ts'.
Proof. induction 1; unfold inners in *; cbn [foldr]; lia. Qed.

Lemma cost_nonneg (l : list (Z * Z)) : tree_leaves_at l -> Forall (fun x => 0 <= x) l.*2 -> 0 <= cost l.
Proof.
  intros Hd Hw. apply depths_pos in Hd as (_ & Hd & _). induction l as [|[d x] l IH]; [done|]. rewrite !fmap_cons in *.
  apply Forall_cons in Hd as [? ?]. apply Forall_cons in Hw as [? ?]. specialize (IH ltac:(done) ltac:(done)). cbn [cost foldr fst snd] in *. fold (cost l) in *. nia.
Qed.

(** Joining the lightest trees first is not longer than any other tree over them. *)
Lemma merges_optimal ts t : merges w ts t -> forall l, tree_leaves_at l -> l.*2 ≡ₚ wt w <$> ts -> inner t <= inners ts + cost l.
Proof using w_nonneg.
  induction 1 as [t|i t1 t2 ts ts' t Hp H1 H2 Hm IH]; intros l Hd Hl.
  - cbn [inners foldr]. assert (0 <= cost l); [|lia]. apply cost_nonneg; [done|]. rewrite Hl. apply Forall_fmap. repeat constructor. by apply wt_nonneg.
  - rewrite Hp in Hl. rewrite !fmap_cons in Hl. destruct (huffman_step l (wt w t1) (wt w t2) (wt w <$> ts') Hd Hl) as (l' & Hd' & Hl' & Hc).
    + intros c Hc. change (c ∈ wt w <$> (t2 :: ts')) in Hc. apply list_elem_of_fmap in Hc as (u & -> & Hu). by apply H1.
    + intros c (u & -> & Hu)%list_elem_of_fmap. by apply H2.
    + specialize (IH l' Hd' Hl'). rewrite (inners_perm _ _ Hp). cbn [inners foldr inner] in *. fold (inners ts') in *. lia.
Qed.
End Optimal.

(** ** The bits of an encoded input *)

Lemma weighted_ext w w' d t : (forall i, i ∈ leaf_list t -> w i = w' i) -> weighted w d t = weighted w' d t.
Proof.
  revert d. induction t as [i|i l IHl r IHr]; intros d H; cbn in *; [by rewrite H by set_solver|].
  rewrite IHl, IHr; [done|intros; apply H; set_solver..].
Qed.

(** One more letter costs the length of its code. *)
Lemma cost_one_more w w' u bs i : at_path u bs i -> NoDup (leaf_list u) -> (forall j, w' j = w j + (if decide (j = i) then 1 else 0)) ->
  forall d, cost (weighted w' d u) = cost (weighted w d u) + d + alen bs.
Proof.
  intros Hp Hnd Hw. assert (Hother : forall d v, (i ∉ leaf_list v) -> weighted w' d v = weighted w d v).
  { intros d v Hv. apply weighted_ext. intros j Hj. rewrite Hw, decide_False; [lia|]. by intros ->. }
  induction Hp as [i|p l r bs i Hp IH|p l r bs i Hp IH]; intros d; cbn [weighted leaf_list] in *.
  - cbn [cost foldr fst snd]. rewrite Hw, decide_True by done. change (alen []) with 0. lia.
  - apply NoDup_app in Hnd as (H1 & H12 & H2). rewrite !cost_app, IH, alen_cons by done.
    rewrite (Hother _ r) by (apply H12; by eapply at_path_leaf). lia.
  - apply NoDup_app in Hnd as (H1 & H12 & H2). rewrite !cost_app, IH, alen_cons by done.
    rewrite (Hother _ l) by (intros ?; eapply H12; [done|by eapply at_path_leaf]). lia.
Qed.

(** The letters with label [i]. *)
Definition occ_by (lab : ascii -> Z) (input : list ascii) (i : Z) : Z := alen (filter (fun a => lab a = i) input).

Lemma code_cost lab u input Bs : NoDup (leaf_list u) -> Forall2 (fun a bs => at_path u bs (lab a)) input Bs ->
  alen (concat Bs) = cost (weighted (occ_by lab input) 0 u).
Proof.
  intros Hnd. induction 1 as [|a bs input Bs Hp _ IH].
  - change (alen (concat [])) with 0. assert (Hz : forall d v, cost (weighted (occ_by lab []) d v) = 0); [|by rewrite Hz].
    intros d v. revert d. induction v as [i|i l IHl r IHr]; intros d; cbn [weighted]; [cbn [cost foldr fst snd]; change (occ_by lab [] i) with 0; lia|].
    by rewrite cost_app, IHl, IHr.
  - cbn [concat]. rewrite (cost_one_more (occ_by lab input) _ u bs (lab a) Hp Hnd).
    + rewrite <- IH. unfold alen. rewrite length_app. lia.
    + intros j. unfold occ_by, alen. rewrite filter_cons. destruct (decide (lab a = j)), (decide (j = lab a)); try congruence; cbn [length]; lia.
Qed.

Lemma occ_pos c input : 0 < occ c input <-> c ∈ char_s <$> input.
Proof.
  unfold occ, alen. rewrite list_elem_of_fmap. split.
  - intros Hl. destruct (filter (fun a => char_s a = c) input) as [|a l] eqn:E; [cbn in Hl; lia|].
    assert (a ∈ filter (fun a => char_s a = c) input) as [<- Ha]%list_elem_of_filter by (rewrite E; by left). by exists a.
  - intros (a & -> & Ha). assert (a ∈ filter (fun b => char_s b = char_s a) input) as Hin by (by apply list_elem_of_filter).
    destruct (filter _ input); [by apply not_elem_of_nil in Hin|]. cbn [length]. lia.
Qed.

Section TreeCost.
Variables (input : list ascii) (m : gmap Z Z).
Hypothesis m_counts : forall c, m !! c = if 0 <? occ c input then Some (occ c input) else None.
Abbreviation n0 := (alen (letters m)).

Lemma leaf_letter_inj i j : 0 <= i < n0 -> 0 <= j < n0 -> leaf_letter m i = leaf_letter m j -> i = j.
Proof.
  intros Hi Hj E. destruct (get_in _ _ Hi) as [x Hx], (get_in _ _ Hj) as [y Hy]. unfold leaf_letter in E. rewrite Hx, Hy in E. cbn in E. subst y.
  rewrite get_eq in Hx, Hy by lia. pose proof (NoDup_lookup _ _ _ _ (letters_nodup m) Hx Hy). lia.
Qed.

(** The tree's codes of the input are as long as its inner nodes weigh. *)
Lemma tree_code_cost nodes t Cs : forest n0 (leaf_letter m) (leaf_weight m) nodes [t] -> Forall2 (codes (leaf_letter m) t) input Cs ->
  alen (concat Cs) = inner (leaf_weight m) t.
Proof using m_counts.
  intros Hf Hc. set (lab a := default 0 (node_idx (leaves m) !! char_s a)). pose proof (tree_leaves _ _ _ _ _ Hf) as Hl.
  assert (Hlab : forall a, a ∈ input -> 0 <= lab a < n0 /\ leaf_letter m (lab a) = char_s a).
  { intros a Ha. destruct (letter_leaf input m m_counts a Ha) as (i & Hi & Hli & Hix). unfold lab. rewrite Hix. done. }
  assert (Hleaf : forall i, i ∈ leaf_list t -> 0 <= i < n0) by (intros i; rewrite Hl, elem_of_seqZ; lia).
  rewrite (code_cost lab t input Cs).
  - rewrite (weighted_ext _ (leaf_weight m)); [by rewrite cost_weighted|]. intros i Hi%Hleaf.
    assert (leaf_letter m i ∈ letters m) as [_ Hpos]%(elem_of_letters input m m_counts) by (rewrite <- leaf_letters; apply list_elem_of_fmap_2, elem_of_seqZ; lia).
    unfold leaf_weight. rewrite m_counts, (proj2 (Z.ltb_lt _ _) Hpos). cbn. unfold occ_by, occ. f_equal.
    clear -Hlab Hi. revert Hlab. induction input as [|a inp IH]; intros Hlab; [done|]. rewrite !filter_cons, IH by (intros b Hb; apply Hlab; set_solver).
    destruct (Hlab a ltac:(set_solver)) as [Ha Ea]. destruct (decide (lab a = i)) as [<-|Hne]; [by rewrite decide_True|].
    rewrite decide_False; [done|]. rewrite <- Ea. intros E. by apply leaf_letter_inj in E.
  - rewrite Hl. apply NoDup_seqZ.
  - clear -Hc Hlab Hleaf. induction Hc as [|a bs inp Cs (i & Hi & Hp) _ IH]; constructor; [|apply IH; intros; apply Hlab; set_solver].
    destruct (Hlab a ltac:(set_solver)) as [Ha Ea]. replace (lab a) with i; [done|]. apply leaf_letter_inj; [apply Hleaf; by eapply at_path_leaf|done|]. congruence.
Qed.
End TreeCost.

(** The number of bits as the file records it. *)
Definition file_nbits (f : file) : Z :=
  let nnodes := to_signed 32 (unle (pread (fbytes f) 0 4)) in
  to_signed 32 (unle (pread (fbytes f) (4 + hnode_size * nnodes) 4)).

(** C13. [Encode] is optimal: no binary tree with the letters of the input at its leaves gives
    codes [Bs] that encode the input with fewer bits than [Encode] writes, whatever heap the
    standard library provides. *)
Theorem huffman_optimal `{StdHeapLaws} (input : list ascii) (u : tree) (Bs : list (list bool)) :
  input <> [] -> 255 * alen input < 2 ^ 31 ->
  leaf_list u ≡ₚ remove_dups (char_s <$> input) -> Forall2 (fun a bs => at_path u bs (char_s a)) input Bs ->
  exists f, Encode (Some input) = Some (true, f) /\ file_nbits f <= alen (concat Bs).
Proof.
  intros Hne Hshort Hu HBs. destruct (Encode_ok input Hshort Hne) as (f & m & nodes & t & Cs & E & Hm & Hf & Hmerge & Hc & Hi32 & Hn & [L1 _ L3 _ _] & Hlen).
  exists f. split; [done|]. pose proof (letters_short m) as Hls. set (n0 := alen (letters m)) in *.
  assert (0 <= alen nodes) by (unfold alen; lia). assert (0 <= alen (concat Cs)) by (unfold alen; lia).
  unfold file_nbits. rewrite L1, int_le by (unfold in_i32; lia). change hnode_size with 20. rewrite L3, int_le by (unfold in_i32; lia).
  assert (Hndu : NoDup (leaf_list u)) by (rewrite Hu; apply NoDup_remove_dups).
  assert (Hlu : leaf_list u ≡ₚ letters m).
  { rewrite Hu. apply NoDup_Permutation; [apply NoDup_remove_dups|apply letters_nodup|]. intros c. rewrite elem_of_remove_dups, <- occ_pos.
    rewrite (elem_of_letters input m Hm). split; [|tauto]. intros Hpos. split; [|done]. apply occ_pos in Hpos.
    apply list_elem_of_fmap in Hpos as (a & -> & _). apply char_s_range. }
  rewrite (code_cost char_s u input Bs Hndu HBs), (tree_code_cost input m Hm nodes t Cs Hf Hc).
  pose proof (merges_optimal _ (leaf_weight_nonneg input m Hm) _ _ Hmerge (weighted (occ_by char_s input) 0 u) (weighted_depths _ u)) as Hopt.
  assert (Hz : inners (leaf_weight m) (Lf <$> seqZ 0 n0) = 0) by (generalize (seqZ 0 n0); intros l; induction l as [|i l IH]; [done|cbn; exact IH]).
  rewrite Hz in Hopt. apply Hopt. rewrite weighted_weights, Hlu. rewrite <- list_fmap_compose.
  change (wt (leaf_weight m) ∘ Lf) with (leaf_weight m). rewrite <- (leaf_letters m) at 1. rewrite <- list_fmap_compose. apply Permutation_refl'. apply list_fmap_ext.
  intros k i Hi. apply lookup_seqZ in Hi as [-> Hk]. unfold compose, leaf_weight. rewrite Hm. case_bool; [done|].
  assert (0 < occ (leaf_letter m (0 + Z.of_nat k)) input); [|lia]. apply (elem_of_letters input m Hm). rewrite <- (leaf_letters m). apply list_elem_of_fmap_2, elem_of_seqZ. lia.
Qed.

Lemma huffman_optimal_witness : exists f, Encode (H := sorted_heap) (Some (bytes_of "abac")) = Some (true, f) /\
  file_nbits f <= alen (concat [[false]; [true; false]; [false]; [true; true]]).
Proof.
  apply (huffman_optimal (bytes_of "abac") (Br 0 (Lf 97) (Br 0 (Lf 98) (Lf 99)))); [done|done|vm_compute; apply perm_swap|repeat constructor].
Defined.
