(* ===== verification/ShortestPath.v ===== *)
(** * Shortest paths between cities

    Models src/shortest_path/shortest_path.cpp: the numbering of the cities and the matrix of
    [build_graph] (the roads that were read are its argument), [floyd], and [path], which
    rebuilds a path from the matrix [next], and the questions of [handle_user_input].  A matrix
    is the array of its rows.  [floyd] adds two [int]s that may be [INFINITY] and tests the
    sum for a sign.  The language leaves the overflow undefined; what the test expects is an
    addition that wraps, which a compiler can be told to generate.  [wrapv] says which of the
    two it is.

    [None] is an access out of bounds, an undefined addition, or a recursion that does not
    end. *)

From Stdlib Require Import ZArith Lia Ascii String.
From stdpp Require Import base list gmap strings.
From S2P Require Import Prelude Loops.

Local Open Scope Z_scope.

(** ** The program *)

Definition INFINITY : Z := 2 ^ 31 - 1.
Definition NO_PATH : string := "no path".

Record edge := Edge { src : Z; dest : Z; length : Z }.

(** [city_id] and [id]; [id_city] is the list of the names in the order of their numbers. *)
Record cities := Cities { city_id : gmap string Z; id_city : list string }.
Definition add_city (c : cities) (name : string) : cities :=
  match city_id c !! name with
  | Some _ => c
  | None => Cities (<[name := alen (id_city c)]> (city_id c)) (id_city c ++ [name])
  end.

(** The loop that reads the roads; [None] for the call of [exit] when one is too long. *)
Fixpoint read_roads (roads : list (string * string * Z)) (c : cities) (edges : list edge) : option (cities * list edge) :=
  match roads with
  | [] => Some (c, edges)
  | (s, d, l) :: roads =>
      if INFINITY <=? l then None
      else
        let c := add_city (add_city c s) d in
        i ← city_id c !! s; j ← city_id c !! d;
        read_roads roads c (edges ++ [Edge i j l])
  end.

Definition put_edge (n : Z) (e : edge) (dist : list Z) : option (list Z) := set dist (src e * n + dest e) (length e).
Fixpoint put_edges (n : Z) (edges : list edge) (dist : list Z) : option (list Z) :=
  match edges with [] => Some dist | e :: edges => dist ← put_edge n e dist; put_edges n edges dist end.

(** The cities, and [nvertices], [dist] and [next]. *)
Definition build_graph (roads : list (string * string * Z)) : option (cities * Z * list Z * list Z) :=
  '(c, edges) ← read_roads roads (Cities ∅ []) [];
  let n := alen (id_city c) in
  if 2 ^ 31 <=? n * n then None else
  dist ← put_edges n edges (replicate (Z.to_nat (n * n)) INFINITY);
  Some (c, n, dist, replicate (Z.to_nat (n * n)) (-1)).

(** [int] addition. *)
Definition add32 (x y : Z) : Z := to_signed 32 (wrap 32 (x + y)).
Definition add_int (wrapv : bool) (x y : Z) : option Z :=
  if wrapv || ((- 2 ^ 31 <=? x + y) && (x + y <? 2 ^ 31)) then Some (add32 x y) else None.

Definition relax (wrapv : bool) (n k i j : Z) (s : list Z * list Z) : option (list Z * list Z) :=
  let '(dist, next) := s in
  x ← get dist (i * n + k); y ← get dist (k * n + j); z ← get dist (i * n + j);
  sum ← add_int wrapv x y;
  if (0 <=? sum) && (sum <? z) then
    dist ← set dist (i * n + j) sum;
    next ← set next (i * n + j) k;
    Some (dist, next)
  else Some (dist, next).

Definition floyd (wrapv : bool) (n : Z) (s : list Z * list Z) : option (list Z * list Z) :=
  for_z n (fun k => for_z n (fun i => for_z n (fun j => relax wrapv n k i j))) s.

Fixpoint path (fuel : nat) (c : cities) (n : Z) (dist next : list Z) (i j : Z) : option string :=
  match fuel with
  | O => None
  | S fuel =>
      d ← get dist (i * n + j);
      if d =? INFINITY then Some NO_PATH
      else
        interm ← get next (i * n + j);
        if interm =? -1 then Some " "%string
        else
          p ← path fuel c n dist next i interm;
          name ← get (id_city c) interm;
          q ← path fuel c n dist next interm j;
          Some (p ++ name ++ q)%string
  end.

(** [city_id[name]] enters a name that is not in the map, with number 0. *)
Definition look_up (c : cities) (name : string) : cities * Z :=
  match city_id c !! name with
  | Some i => (c, i)
  | None => (Cities (<[name := 0]> (city_id c)) (id_city c), 0)
  end.

(** What [handle_user_input] answers to one question: the path with its two ends and its
    length. *)
Inductive reply := NoSuchCity | NoPath | Path (p : string) (l : Z).
Definition answer (fuel : nat) (c : cities) (n : Z) (dist next : list Z) (a b : string) : option (cities * reply) :=
  let err_city := bool_decide (city_id c !! a = None) || bool_decide (city_id c !! b = None) in
  let '(c, i) := look_up c a in
  let '(c, j) := look_up c b in
  if err_city then Some (c, NoSuchCity)
  else
    tmp ← path fuel c n dist next i j;
    if decide (tmp = NO_PATH) then Some (c, NoPath)
    else x ← get (id_city c) i; y ← get (id_city c) j; d ← get dist (i * n + j); Some (c, Path (x ++ tmp ++ y)%string d).

(** Its loop. *)
Fixpoint handle_user_input (fuel : nat) (c : cities) (n : Z) (dist next : list Z) (qs : list (string * string)) : option (list reply) :=
  match qs with
  | [] => Some []
  | (a, b) :: qs =>
      '(c, r) ← answer fuel c n dist next a b;
      rs ← handle_user_input fuel c n dist next qs;
      Some (r :: rs)
  end.

(** ** Matrices *)

Definition mat (n : Z) (a : list Z) (D : Z -> Z -> Z) : Prop :=
  alen a = n * n /\ forall i j, 0 <= i < n -> 0 <= j < n -> get a (i * n + j) = Some (D i j).
Definition upd (D : Z -> Z -> Z) (i j v : Z) : Z -> Z -> Z := fun x y => if (x =? i) && (y =? j) then v else D x y.

Lemma idx_range n i j : 0 <= i < n -> 0 <= j < n -> 0 <= i * n + j < n * n.
Proof. intros. nia. Qed.
Lemma idx_inj n i j i' j' : 0 <= j < n -> 0 <= j' < n -> i * n + j = i' * n + j' -> i = i' /\ j = j'.
Proof.
  intros Hj Hj' E. assert (i = i') by nia. subst. split; [done|lia].
Qed.

Lemma set_mat n a D i j v : mat n a D -> 0 <= i < n -> 0 <= j < n -> exists a', set a (i * n + j) v = Some a' /\ mat n a' (upd D i j v).
Proof.
  intros [Hl Hg] Hi Hj. destruct (set_spec a (i * n + j) v) as (a' & E & Hl' & Hg'); [rewrite Hl; by apply idx_range|]. exists a'. split; [done|]. split; [lia|].
  intros x y Hx Hy. rewrite Hg'. unfold upd. destruct (Z.eqb_spec (x * n + y) (i * n + j)) as [Heq|Hne].
  - apply idx_inj in Heq as [-> ->]; [|done..]. by rewrite !Z.eqb_refl.
  - rewrite Hg by done. destruct (Z.eqb_spec x i), (Z.eqb_spec y j); subst; done.
Qed.

Lemma mat_ext n a D D' : mat n a D -> (forall i j, 0 <= i < n -> 0 <= j < n -> D' i j = D i j) -> mat n a D'.
Proof. intros [Hl Hg] H. split; [done|]. intros i j Hi Hj. by rewrite Hg, H. Qed.

Lemma add32_sum x y z : 0 <= x <= INFINITY -> 0 <= y <= INFINITY -> z <= INFINITY ->
  ((0 <=? add32 x y) && (add32 x y <? z)) = (x + y <? z) /\ (x + y < z -> add32 x y = x + y).
Proof.
  unfold INFINITY. intros Hx Hy Hz. unfold add32, to_signed. rewrite (wrap_small 32 (wrap 32 (x + y))) by (apply wrap_range; lia).
  rewrite (wrap_small 32 (x + y)) by lia. change (2 ^ (32 - 1)) with 2147483648. change (2 ^ 32) with 4294967296. change (2 ^ 31) with 2147483648 in *.
  split; [|intros; case_bool; lia]. apply eq_true_iff_eq. rewrite andb_true_iff, Z.leb_le, !Z.ltb_lt. case_bool; lia.
Qed.

(** ** One round *)

Definition bounded (n : Z) (D : Z -> Z -> Z) : Prop := forall i j, 0 <= i < n -> 0 <= j < n -> 0 <= D i j <= INFINITY.
Definition better (k : Z) (D : Z -> Z -> Z) (x y : Z) : bool := D x k + D k y <? D x y.
Definition new_dist (k : Z) (D : Z -> Z -> Z) (x y : Z) : Z := if better k D x y then D x k + D k y else D x y.
Definition new_next (k : Z) (D N : Z -> Z -> Z) (x y : Z) : Z := if better k D x y then k else N x y.

(** The pairs before [(i, j)] are done. *)
Definition before (i j x y : Z) : bool := (x <? i) || ((x =? i) && (y <? j)).
Definition mix (i j : Z) (A B : Z -> Z -> Z) (x y : Z) : Z := if before i j x y then A x y else B x y.

(** Row and column [k] stay the same in round [k]. *)
Lemma new_dist_k n k D x : bounded n D -> 0 <= k < n -> 0 <= x < n -> new_dist k D x k = D x k /\ new_dist k D k x = D k x.
Proof.
  intros HD Hk Hx. pose proof (HD k k Hk Hk). unfold new_dist, better. split; case_bool; lia.
Qed.

Lemma relax_ok n k i j d nx D N : bounded n D -> 0 <= k < n -> 0 <= i < n -> 0 <= j < n ->
  mat n d (mix i j (new_dist k D) D) -> mat n nx (mix i j (new_next k D N) N) ->
  exists s', relax true n k i j (d, nx) = Some s' /\ mat n s'.1 (mix i (j + 1) (new_dist k D) D) /\ mat n s'.2 (mix i (j + 1) (new_next k D N) N).
Proof.
  intros HD Hk Hi Hj Hd Hn. unfold relax. rewrite !(proj2 Hd) by done. cbn [mbind option_bind].
  assert (E1 : mix i j (new_dist k D) D i k = D i k) by (unfold mix; destruct (before i j i k); [by apply (new_dist_k n)|done]).
  assert (E2 : mix i j (new_dist k D) D k j = D k j) by (unfold mix; destruct (before i j k j); [by apply (new_dist_k n)|done]).
  assert (Hb : before i j i j = false) by (unfold before; by rewrite !Z.ltb_irrefl, andb_false_r).
  assert (E3 : mix i j (new_dist k D) D i j = D i j) by (unfold mix; by rewrite Hb). rewrite E1, E2, E3. unfold add_int. cbn [orb mbind option_bind].
  destruct (add32_sum (D i k) (D k j) (D i j)) as [-> Hsum]; [by apply HD|by apply HD|by apply HD|].
  assert (Hmix : forall (A B : Z -> Z -> Z) x y, mix i (j + 1) A B x y = if (x =? i) && (y =? j) then A x y else mix i j A B x y).
  { intros A B x y. unfold mix, before. destruct (Z.eqb_spec x i), (Z.eqb_spec y j), (Z.ltb_spec x i), (Z.ltb_spec y (j + 1)), (Z.ltb_spec y j); cbn; try done; lia. }
  destruct (Z.ltb_spec (D i k + D k j) (D i j)) as [Hlt|Hge].
  - rewrite Hsum by done. destruct (set_mat n d _ i j (D i k + D k j) Hd Hi Hj) as (d' & -> & Hd'). destruct (set_mat n nx _ i j k Hn Hi Hj) as (nx' & -> & Hn').
    cbn [mbind option_bind]. eexists. split; [done|]. cbn [fst snd]. split; (eapply mat_ext; [eassumption|]); intros x y Hx Hy; rewrite Hmix; unfold upd;
      destruct (Z.eqb_spec x i), (Z.eqb_spec y j); cbn [andb]; subst; try done; unfold new_dist, new_next, better; by rewrite (proj2 (Z.ltb_lt _ _)).
  - eexists. split; [done|]. cbn [fst snd]. split; (eapply mat_ext; [eassumption|]); intros x y Hx Hy; rewrite Hmix;
      destruct (Z.eqb_spec x i), (Z.eqb_spec y j); cbn [andb]; subst; try done; unfold mix; rewrite Hb; unfold new_dist, new_next, better; by rewrite (proj2 (Z.ltb_ge _ _)).
Qed.

Definition pair_mat (n : Z) (s : list Z * list Z) (D N : Z -> Z -> Z) : Prop := mat n s.1 D /\ mat n s.2 N.

Lemma round_ok n k s D N : 0 <= k < n -> bounded n D -> pair_mat n s D N ->
  exists s', for_z n (fun i => for_z n (fun j => relax true n k i j)) s = Some s' /\ pair_mat n s' (new_dist k D) (new_next k D N).
Proof.
  intros Hk HD [Hd Hn]. assert (Hfirst : forall A B x y, 0 <= y -> mix 0 0 A B x y = if x <? 0 then A x y else B x y).
  { intros A B x y Hy. unfold mix, before. destruct (Z.ltb_spec x 0), (Z.eqb_spec x 0), (Z.ltb_spec y 0); cbn; try done; lia. }
  assert (Hrow : forall A B i x y, 0 <= y < n -> mix i n A B x y = mix (i + 1) 0 A B x y).
  { intros A B i x y Hy. unfold mix, before. destruct (Z.ltb_spec x i), (Z.eqb_spec x i), (Z.ltb_spec y n), (Z.ltb_spec x (i + 1)), (Z.eqb_spec x (i + 1)), (Z.ltb_spec y 0); cbn; try done; lia. }
  destruct (for_z_ok (fun i s => pair_mat n s (mix i 0 (new_dist k D) D) (mix i 0 (new_next k D N) N)) n (fun i => for_z n (fun j => relax true n k i j)) ltac:(lia)) with (s := s) as (s' & E & [H1 H2]).
  - intros i s1 Hi [H1 H2].
    destruct (for_z_ok (fun j s => pair_mat n s (mix i j (new_dist k D) D) (mix i j (new_next k D N) N)) n (fun j => relax true n k i j) ltac:(lia)) with (s := s1) as (s2 & E & [H3 H4]).
    + intros j [d nx] Hj [H3 H4]. cbn [fst snd] in *. destruct (relax_ok n k i j d nx D N) as (s' & E & ? & ?); try done. by exists s'.
    + done.
    + exists s2. split; [done|]. split; (eapply mat_ext; [eassumption|]); intros x y Hx Hy; by rewrite Hrow.
  - split; (eapply mat_ext; [eassumption|]); intros x y Hx Hy; rewrite Hfirst by lia; case_bool; try done; lia.
  - exists s'. split; [done|]. split; (eapply mat_ext; [eassumption|]); intros x y Hx Hy; unfold mix, before; by rewrite (proj2 (Z.ltb_lt x n)) by lia.
Qed.

(** ** All rounds *)

(** After the rounds before [k]: no pair gets closer by going through a city before [k], and
    [next] is -1 for a road, or a city through which the distance is reached and for whose
    two halves [next] is smaller. *)
Record rounds (n k : Z) (D0 D N : Z -> Z -> Z) : Prop := Rounds {
  r_bounded : bounded n D;
  r_below : forall i j, 0 <= i < n -> 0 <= j < n -> D i j <= D0 i j;
  r_triangle : forall m x y, 0 <= m < k -> 0 <= x < n -> 0 <= y < n -> D x y <= D x m + D m y;
  r_next : forall i j, 0 <= i < n -> 0 <= j < n ->
    (N i j = -1 /\ D i j = D0 i j) \/
    (0 <= N i j < k /\ D i j < INFINITY /\ D i j = D i (N i j) + D (N i j) j /\ N i (N i j) < N i j /\ N (N i j) j < N i j)
}.

Lemma rounds_step n k D0 D N : 0 <= k < n -> rounds n k D0 D N -> rounds n (k + 1) D0 (new_dist k D) (new_next k D N).
Proof.
  intros Hk [Hb Hle Ht Hn].
  assert (Hlow : forall x y, 0 <= x < n -> 0 <= y < n -> new_dist k D x y <= D x y /\ new_dist k D x y <= D x k + D k y).
  { intros x y Hx Hy. unfold new_dist, better. case_bool; lia. }
  assert (Hcase : forall x y, new_dist k D x y = D x y \/ (new_dist k D x y = D x k + D k y /\ D x k + D k y < D x y)) by (intros x y; unfold new_dist, better; case_bool; auto).
  assert (Hpos : forall x y, 0 <= x < n -> 0 <= y < n -> 0 <= D x y) by (intros x y Hx Hy; by apply Hb).
  constructor.
  - intros x y Hx Hy. pose proof (Hb x k Hx Hk). pose proof (Hb k y Hk Hy). pose proof (Hb x y Hx Hy). destruct (Hcase x y); lia.
  - intros x y Hx Hy. pose proof (Hle x y Hx Hy). pose proof (Hlow x y Hx Hy). lia.
  - intros m x y Hm Hx Hy. pose proof (Hlow x y Hx Hy) as [L1 L2]. assert (Hmn : 0 <= m < n) by lia.
    destruct (decide (m = k)) as [->|Hne].
    + rewrite (proj1 (new_dist_k n k D x Hb Hk Hx)), (proj2 (new_dist_k n k D y Hb Hk Hy)). lia.
    + assert (Hm' : 0 <= m < k) by lia. pose proof (Ht m x y Hm' Hx Hy). pose proof (Ht m k y Hm' Hk Hy). pose proof (Ht m x k Hm' Hx Hk).
      pose proof (Hpos k m Hk Hmn). pose proof (Hpos m k Hmn Hk). destruct (Hcase x m) as [->|[-> _]], (Hcase m y) as [->|[-> _]]; lia.
  - assert (Hnk : forall x, 0 <= x < n -> better k D x k = false /\ better k D k x = false).
    { intros x Hx. pose proof (Hpos k k Hk Hk). unfold better. split; apply Z.ltb_ge; lia. }
    assert (Hlt : forall x y, 0 <= x < n -> 0 <= y < n -> N x y < k) by (intros x y Hx Hy; destruct (Hn x y Hx Hy) as [[-> _]|[H _]]; lia).
    intros x y Hx Hy. destruct (better k D x y) eqn:Eb.
    + right. assert (EN : new_next k D N x y = k) by (unfold new_next; by rewrite Eb). assert (ED : new_dist k D x y = D x k + D k y) by (unfold new_dist; by rewrite Eb). rewrite EN, ED.
      rewrite (proj1 (new_dist_k n k D x Hb Hk Hx)), (proj2 (new_dist_k n k D y Hb Hk Hy)). unfold new_next. rewrite (proj1 (Hnk x Hx)), (proj2 (Hnk y Hy)).
      unfold better in Eb. apply Z.ltb_lt in Eb. pose proof (Hb x y Hx Hy). pose proof (Hlt x k Hx Hk). pose proof (Hlt k y Hk Hy). lia.
    + assert (EN : new_next k D N x y = N x y) by (unfold new_next; by rewrite Eb). assert (ED : new_dist k D x y = D x y) by (unfold new_dist; by rewrite Eb). rewrite EN, ED.
      destruct (Hn x y Hx Hy) as [?|(Hm & Hfin & Hsum & H1 & H2)]; [by left|right]. set (m := N x y) in *. assert (Hmn : 0 <= m < n) by lia. unfold better in Eb. apply Z.ltb_ge in Eb.
      assert (E1 : better k D x m = false) by (apply Z.ltb_ge; pose proof (Ht m k y Hm Hk Hy); lia). assert (E2 : better k D m y = false) by (apply Z.ltb_ge; pose proof (Ht m x k Hm Hx Hk); lia).
      unfold new_next, new_dist. rewrite E1, E2. lia.
Qed.

Lemma rounds_start n D0 : bounded n D0 -> rounds n 0 D0 D0 (fun _ _ => -1).
Proof. intros H. constructor; [done|intros; lia|intros; lia|]. intros i j Hi Hj. by left. Qed.

Lemma floyd_ok n s D0 : 0 <= n -> bounded n D0 -> pair_mat n s D0 (fun _ _ => -1) ->
  exists s' D N, floyd true n s = Some s' /\ pair_mat n s' D N /\ rounds n n D0 D N.
Proof.
  intros Hn Hb Hs. destruct (for_z_ok (fun k s => exists D N, pair_mat n s D N /\ rounds n k D0 D N) n (fun k => for_z n (fun i => for_z n (fun j => relax true n k i j))) Hn) with (s := s)
    as (s' & E & D & N & Hp & Hr).
  - intros k s1 Hk (D & N & Hp & Hr). destruct (round_ok n k s1 D N Hk (r_bounded _ _ _ _ _ Hr) Hp) as (s2 & E & Hp2). exists s2. split; [done|].
    exists (new_dist k D), (new_next k D N). split; [done|]. by apply rounds_step.
  - exists D0, (fun _ _ => -1). split; [done|]. by apply rounds_start.
  - by exists s', D, N.
Qed.

(** Where the strict addition is defined it is the other one. *)
Lemma for_z_weaken {A} (f g : Z -> A -> option A) n : (forall i s s', f i s = Some s' -> g i s = Some s') -> forall s s', for_z n f s = Some s' -> for_z n g s = Some s'.
Proof.
  intros Hfg. unfold for_z. generalize 0. induction (Z.to_nat n) as [|m IH]; intros i s s'; cbn; [done|].
  destruct (f i s) as [s1|] eqn:E; [|done]. rewrite (Hfg _ _ _ E). apply IH.
Qed.

Lemma floyd_strict n s s' wrapv : floyd wrapv n s = Some s' -> floyd true n s = Some s'.
Proof.
  apply for_z_weaken. intros k. apply for_z_weaken. intros i. apply for_z_weaken. intros j [d nx] t. unfold relax, add_int.
  destruct (get d (i * n + k)); [|done]. cbn. destruct (get d (k * n + j)); [|done]. cbn. destruct (get d (i * n + j)); [|done]. cbn. by destruct wrapv, (_ && _).
Qed.

(** Unless the first city has a road to itself, the very first addition overflows. *)
Lemma strict_floyd_undefined n d nx : 0 < n -> get d 0 = Some INFINITY -> floyd false n (d, nx) = None.
Proof.
  intros Hn Hd. assert (H0 : relax false n 0 0 0 (d, nx) = None) by (unfold relax; by rewrite Z.mul_0_l, Z.add_0_l, Hd).
  unfold floyd, for_z. destruct (Z.to_nat n) as [|m] eqn:E; [lia|]. cbn [for_from]. by rewrite H0.
Qed.

(** ** Walks *)

Fixpoint weight (D0 : Z -> Z -> Z) (i : Z) (ms : list Z) (j : Z) : Z :=
  match ms with [] => D0 i j | m :: ms => D0 i m + weight D0 m ms j end.

Lemma weight_app D0 ms1 : forall i m ms2 j, weight D0 i (ms1 ++ m :: ms2) j = weight D0 i ms1 m + weight D0 m ms2 j.
Proof. induction ms1 as [|x ms1 IH]; intros i m ms2 j; [done|]. cbn [app weight]. rewrite IH. lia. Qed.

(** No walk is shorter. *)
Lemma below_walks n D0 D N : rounds n n D0 D N -> forall ms i j, Forall (fun m => 0 <= m < n) ms -> 0 <= i < n -> 0 <= j < n -> D i j <= weight D0 i ms j.
Proof.
  intros Hr. induction ms as [|m ms IH]; intros i j Hms Hi Hj; cbn [weight]; [by apply Hr|]. apply Forall_cons in Hms as [Hm Hms].
  pose proof (IH m j Hms Hm Hj). pose proof (r_triangle _ _ _ _ _ Hr m i j Hm Hi Hj). pose proof (r_below _ _ _ _ _ Hr i m Hi Hm). lia.
Qed.

(** What [path] prints: the names of the cities between, each between spaces. *)
Fixpoint between (names : list string) (ms : list Z) : option string :=
  match ms with
  | [] => Some " "%string
  | m :: ms => name ← get names m; rest ← between names ms; Some (" " ++ name ++ rest)%string
  end.

Lemma string_app_assoc (a b c : string) : ((a ++ b) ++ c)%string = (a ++ b ++ c)%string.
Proof. induction a as [|x a IH]; [done|]. change (String x ((a ++ b) ++ c) = String x (a ++ b ++ c))%string. by rewrite IH. Qed.

Lemma between_app names ms1 : forall m ms2 p q name, between names ms1 = Some p -> between names ms2 = Some q -> get names m = Some name ->
  between names (ms1 ++ m :: ms2) = Some (p ++ name ++ q)%string.
Proof.
  induction ms1 as [|x ms1 IH]; intros m ms2 p q name Hp Hq Hm; cbn [between app] in *.
  - injection Hp as <-. by rewrite Hm, Hq.
  - destruct (get names x) as [nx|]; [|done]. cbn [mbind option_bind] in *. destruct (between names ms1) as [r|]; [|done]. cbn [mbind option_bind] in *. injection Hp as <-.
    rewrite (IH m ms2 r q name eq_refl Hq Hm). cbn [mbind option_bind]. by rewrite !string_app_assoc.
Qed.

Lemma path_ok n c s D0 D N : rounds n n D0 D N -> pair_mat n s D N -> alen (id_city c) = n -> forall fuel i j, 0 <= i < n -> 0 <= j < n -> N i j + 1 < Z.of_nat fuel ->
  exists p, path fuel c n s.1 s.2 i j = Some p /\
  if D i j =? INFINITY then p = NO_PATH
  else exists ms, Forall (fun m => 0 <= m < n) ms /\ weight D0 i ms j = D i j /\ between (id_city c) ms = Some p.
Proof.
  intros Hr [Hd Hn] Hc. induction fuel as [|fuel IH]; intros i j Hi Hj Hf; [destruct (r_next _ _ _ _ _ Hr i j Hi Hj) as [[E _]|[H _]]; lia|].
  cbn [path]. rewrite (proj2 Hd) by done. cbn [mbind option_bind]. destruct (Z.eqb_spec (D i j) INFINITY) as [Einf|Hfin]; [by exists NO_PATH|].
  rewrite (proj2 Hn) by done. cbn [mbind option_bind]. destruct (r_next _ _ _ _ _ Hr i j Hi Hj) as [[EN ED]|(Hm & Hlt & Hsum & H1 & H2)].
  - rewrite EN. cbn. exists " "%string. split; [done|]. exists []. split; [constructor|]. by rewrite ED.
  - rewrite (proj2 (Z.eqb_neq (N i j) (-1))) by lia. set (m := N i j) in *.
    pose proof (r_bounded _ _ _ _ _ Hr i m Hi Hm) as B1. pose proof (r_bounded _ _ _ _ _ Hr m j Hm Hj) as B2.
    destruct (IH i m Hi Hm ltac:(lia)) as (p & -> & Hp). destruct (IH m j Hm Hj ltac:(lia)) as (q & Eq & Hq). cbn [mbind option_bind].
    destruct (get_in (id_city c) m ltac:(lia)) as [name Hname]. rewrite Hname. cbn [mbind option_bind]. rewrite Eq. cbn [mbind option_bind].
    rewrite (proj2 (Z.eqb_neq _ _)) in Hp by lia. rewrite (proj2 (Z.eqb_neq _ _)) in Hq by lia.
    destruct Hp as (ms1 & F1 & W1 & S1), Hq as (ms2 & F2 & W2 & S2). eexists. split; [done|]. exists (ms1 ++ m :: ms2).
    split; [apply Forall_app; split; [done|by constructor]|]. split; [rewrite weight_app; lia|]. by apply between_app.
Qed.

(** ** The graph *)

(** Names and numbers of cities are in bijection. *)
Definition cities_ok (c : cities) : Prop := forall name i, city_id c !! name = Some i <-> get (id_city c) i = Some name.
Definition extends (c c' : cities) : Prop := forall name i, city_id c !! name = Some i -> city_id c' !! name = Some i.

Lemma extends_trans c1 c2 c3 : extends c1 c2 -> extends c2 c3 -> extends c1 c3.
Proof. intros H1 H2 name i H. by apply H2, H1. Qed.

Lemma add_city_ok c name : cities_ok c -> cities_ok (add_city c name) /\ extends c (add_city c name) /\ is_Some (city_id (add_city c name) !! name) /\
  forall x, is_Some (city_id (add_city c name) !! x) -> x = name \/ is_Some (city_id c !! x).
Proof.
  intros Hc. unfold add_city. destruct (city_id c !! name) as [i|] eqn:E; [split; [done|]; split; [by intros ? ?|]; split; [by rewrite E; eexists|auto]|]. cbn [city_id id_city].
  assert (Hnew : forall x i, get (id_city c) i = Some x -> x <> name) by (intros x i Hx ->; apply Hc in Hx; congruence).
  split; [|split; [|split]].
  - intros x i. cbn [city_id id_city]. rewrite get_snoc. destruct (decide (x = name)) as [->|Hne].
    + rewrite lookup_insert_eq. destruct (Z.eqb_spec i (alen (id_city c))) as [->|Hi]; [done|]. split; [congruence|]. intros Hx. by apply Hnew in Hx.
    + rewrite lookup_insert_ne by done. destruct (Z.eqb_spec i (alen (id_city c))) as [->|Hi]; [|apply Hc]. split; [|congruence]. intros Hx%Hc. apply get_range in Hx. lia.
  - intros x i Hx. cbn [city_id]. rewrite lookup_insert_ne; [done|]. intros <-. congruence.
  - by rewrite lookup_insert_eq; eexists.
  - intros x Hx. destruct (decide (x = name)) as [->|Hne]; [by left|]. rewrite lookup_insert_ne in Hx by done. by right.
Qed.

Lemma add_city_length c name : alen (id_city (add_city c name)) <= alen (id_city c) + 1.
Proof. unfold add_city. destruct (city_id c !! name); cbn; [lia|]. unfold alen. rewrite length_app. cbn. lia. Qed.

(** The length of the road between two cities: the last one that was read counts. *)
Fixpoint road (roads : list (string * string * Z)) (a b : string) (d : Z) : Z :=
  match roads with
  | [] => d
  | (s, t, l) :: roads => road roads a b (if decide (s = a /\ t = b) then l else d)
  end.

(** The cities of the roads. *)
Definition on_map (roads : list (string * string * Z)) (a : string) : Prop := exists x, x ∈ roads /\ (x.1.1 = a \/ x.1.2 = a).

(** The edge of a road. *)
Definition edge_of (c : cities) (x : string * string * Z) (e : edge) : Prop :=
  city_id c !! x.1.1 = Some (src e) /\ city_id c !! x.1.2 = Some (dest e) /\ length e = x.2.

Lemma edge_of_extends c c' x e : extends c c' -> edge_of c x e -> edge_of c' x e.
Proof. intros Hx (H1 & H2 & H3). split; [by apply Hx|]. split; [by apply Hx|done]. Qed.

Definition lengths_ok (roads : list (string * string * Z)) : Prop := Forall (fun x => 0 <= x.2 < INFINITY) roads.

Lemma read_roads_ok roads : lengths_ok roads -> forall c edges, cities_ok c -> exists c' edges', read_roads roads c edges = Some (c', edges ++ edges') /\
  cities_ok c' /\ extends c c' /\ Forall2 (edge_of c') roads edges' /\ alen (id_city c') <= alen (id_city c) + 2 * alen roads /\ forall a, is_Some (city_id c' !! a) <-> is_Some (city_id c !! a) \/ on_map roads a.
Proof.
  induction 1 as [|[[s t] l] roads Hl _ IH]; intros c edges Hc; cbn [read_roads].
  - exists c, []. rewrite app_nil_r. split; [done|]. split; [done|]. split; [by intros ? ?|]. split; [constructor|]. split; [unfold alen; cbn; lia|]. intros a. split; [by left|]. intros [?|(x & Hx & _)]; [done|]. by apply elem_of_nil in Hx.
  - cbn [snd] in Hl. rewrite (proj2 (Z.leb_gt _ _)) by lia. destruct (add_city_ok c s Hc) as (Hc1 & He1 & [i Hs] & Hk1). set (c1 := add_city c s) in *.
    destruct (add_city_ok c1 t Hc1) as (Hc2 & He2 & [j Ht] & Hk2). set (c2 := add_city c1 t) in *. rewrite (He2 _ _ Hs), Ht. cbn [mbind option_bind].
    destruct (IH c2 (edges ++ [Edge i j l]) Hc2) as (c3 & es & -> & Hc3 & He3 & Hf & Hlen & Hk3). exists c3, (Edge i j l :: es). rewrite <- app_assoc. split; [done|]. split; [done|].
    split; [by eapply extends_trans; [|eapply extends_trans]|]. split; [|split].
    + constructor; [|done]. split; [by apply He3, He2|]. split; [by apply He3|done].
    + pose proof (add_city_length c s). pose proof (add_city_length c1 t). unfold alen in *. cbn [Datatypes.length]. subst c1 c2. lia.
    + intros a. rewrite Hk3. split.
      * intros [[->|[->|?]%Hk1]%Hk2|(x & Hx & Hax)]; [right; exists (s, t, l); split; [left|by right]|right; exists (s, t, l); split; [left|by left]|by left|right; exists x; split; [by right|done]].
      * intros [[k Hk]|(x & [->|Hx]%elem_of_cons & Hax)]; [left; exists k; by apply He2, He1| |right; by exists x].
        left. destruct Hax as [<-|<-]; cbn [fst snd]; [exists i; by apply He2|by exists j].
Qed.

Lemma put_edges_ok n c c0 roads edges : cities_ok c -> alen (id_city c) = n -> Forall2 (edge_of c) roads edges -> lengths_ok roads -> forall d D,
  mat n d D -> bounded n D -> (forall i j a b, get (id_city c) i = Some a -> get (id_city c) j = Some b -> D i j = c0 a b) ->
  exists d' D', put_edges n edges d = Some d' /\ mat n d' D' /\ bounded n D' /\
    forall i j a b, get (id_city c) i = Some a -> get (id_city c) j = Some b -> D' i j = road roads a b (c0 a b).
Proof.
  intros Hc Hn Hf. revert c0. induction Hf as [|[[s t] l] e roads edges (Hs & Ht & Hlen) Hf IH]; intros c0 Hok d D Hd HD HD0; cbn [put_edges]; [by exists d, D|].
  apply Forall_cons in Hok as [Hl Hok]. cbn [fst snd] in *. pose proof (proj1 (Hc _ _) Hs) as Hs'. pose proof (proj1 (Hc _ _) Ht) as Ht'. pose proof (get_range _ _ _ Hs') as Rs. pose proof (get_range _ _ _ Ht') as Rt.
  rewrite Hn in Rs, Rt. destruct (set_mat n d D (src e) (dest e) (length e) Hd Rs Rt) as (d1 & E & Hd1). unfold put_edge. rewrite E. cbn [mbind option_bind].
  destruct (IH (fun a b => if decide (s = a /\ t = b) then l else c0 a b) Hok d1 _ Hd1) as (d' & D' & ? & ? & ? & HD').
  - intros i j Hi Hj. unfold upd. destruct (_ && _); [lia|by apply HD].
  - intros i j a b Ha Hb. unfold upd. destruct (Z.eqb_spec i (src e)) as [->|Hi], (Z.eqb_spec j (dest e)) as [->|Hj]; cbn [andb].
    + assert (s = a) as -> by congruence. assert (t = b) as -> by congruence. by rewrite decide_True.
    + rewrite decide_False; [by apply HD0|]. intros [_ <-]. apply Hc in Hb. congruence.
    + rewrite decide_False; [by apply HD0|]. intros [<- _]. apply Hc in Ha. congruence.
    + rewrite decide_False; [by apply HD0|]. intros [<- _]. apply Hc in Ha. congruence.
  - exists d', D'. split; [done|]. split; [done|]. split; [done|]. intros i j a b Ha Hb. by rewrite (HD' i j a b).
Qed.

Definition first_city (roads : list (string * string * Z)) : option string := match roads with [] => None | (s, _, _) :: _ => Some s end.

Lemma read_first_city roads c edges : lengths_ok roads -> read_roads roads (Cities ∅ []) [] = Some (c, edges) -> cities_ok c -> get (id_city c) 0 = first_city roads.
Proof.
  intros Hl E Hc. destruct roads as [|[[s t] l] roads]; [by injection E as <- _|]. apply Forall_cons in Hl as [Hl Hls]. cbn [read_roads snd] in *. rewrite (proj2 (Z.leb_gt _ _)) in E by lia.
  assert (H0 : cities_ok (Cities ∅ [])) by (intros name i; cbn; rewrite lookup_empty; split; [done|]; intros H; apply get_range in H; unfold alen in H; cbn in H; lia).
  destruct (add_city_ok _ s H0) as (Hc1 & He1 & _). destruct (add_city_ok _ t Hc1) as (Hc2 & He2 & [j Ht] & _). set (c2 := add_city _ t) in *.
  assert (Hs : city_id c2 !! s = Some 0) by (apply He2; unfold add_city; cbn [city_id id_city]; rewrite lookup_empty; cbn [city_id]; by rewrite lookup_insert_eq). rewrite Hs, Ht in E. cbn [mbind option_bind] in E.
  destruct (read_roads_ok roads Hls c2 ([] ++ [Edge 0 j l]) Hc2) as (c' & es & E' & _ & Hex & _). rewrite E' in E. injection E as <- _. apply Hc. by apply Hex.
Qed.

Lemma build_graph_ok roads : lengths_ok roads -> alen roads <= 23170 ->
  exists c n d D, build_graph roads = Some (c, n, d, replicate (Z.to_nat (n * n)) (-1)) /\ n = alen (id_city c) /\ cities_ok c /\
  (forall a, is_Some (city_id c !! a) <-> on_map roads a) /\ mat n d D /\ bounded n D /\ get (id_city c) 0 = first_city roads /\
  forall i j a b, get (id_city c) i = Some a -> get (id_city c) j = Some b -> D i j = road roads a b INFINITY.
Proof.
  intros Hl Hmany. assert (H0 : cities_ok (Cities ∅ [])).
  { intros name i. cbn [city_id id_city]. rewrite lookup_empty. split; [done|]. intros H. apply get_range in H. unfold alen in H. cbn in H. lia. }
  destruct (read_roads_ok roads Hl (Cities ∅ []) [] H0) as (c & edges & E & Hc & _ & Hf & Hlen & Hk). cbn [app] in E. pose proof (read_first_city roads c edges Hl E Hc) as Hfirst. unfold build_graph. rewrite E. cbn [mbind option_bind].
  set (n := alen (id_city c)) in *. pose proof (alen_nonneg (id_city c)) as Hn. fold n in Hn. change (alen (id_city (Cities ∅ []))) with 0 in Hlen. rewrite (proj2 (Z.leb_gt (2 ^ 31) (n * n))) by nia.
  assert (Hrep : forall (x : Z) i j, 0 <= i < n -> 0 <= j < n -> get (replicate (Z.to_nat (n * n)) x) (i * n + j) = Some x).
  { intros x i j Hi Hj. pose proof (idx_range n i j Hi Hj). rewrite get_eq by lia. apply lookup_replicate_2. lia. }
  destruct (put_edges_ok n c (fun _ _ => INFINITY) roads edges Hc eq_refl Hf Hl (replicate (Z.to_nat (n * n)) INFINITY) (fun _ _ => INFINITY)) as (d & D & -> & Hd & HD & Hroad).
  - split; [unfold alen; rewrite length_replicate; nia|by apply Hrep].
  - intros i j _ _. unfold INFINITY. lia.
  - done.
  - cbn [mbind option_bind]. exists c, n, d, D. split; [done|]. split; [done|]. split; [done|]. split; [|done]. intros a. rewrite Hk. cbn [city_id]. rewrite lookup_empty. split; [intros [[? ?]|?]; done|by right].
Qed.

(** A walk from [a] to [b] through the cities [ms]: its length, and how it is printed. *)
Fixpoint walk (roads : list (string * string * Z)) (a : string) (ms : list string) (b : string) : Z :=
  match ms with [] => road roads a b INFINITY | m :: ms => road roads a m INFINITY + walk roads m ms b end.
Fixpoint shown (a : string) (ms : list string) (b : string) : string :=
  match ms with [] => (a ++ " " ++ b)%string | m :: ms => (a ++ " " ++ shown m ms b)%string end.

Lemma road_nonneg roads a b d : lengths_ok roads -> 0 <= d -> 0 <= road roads a b d.
Proof. intros H. revert d. induction H as [|[[s t] l] roads Hl _ IH]; intros d Hd; cbn [road]; [done|]. apply IH. cbn in Hl. case_decide; lia. Qed.
Lemma walk_nonneg roads ms : lengths_ok roads -> forall a b, 0 <= walk roads a ms b.
Proof.
  intros H. assert (0 <= INFINITY) by (unfold INFINITY; lia). induction ms as [|m ms IH]; intros a b; cbn [walk]; [by apply road_nonneg|]. pose proof (road_nonneg roads a m INFINITY H ltac:(done)). specialize (IH m b). lia.
Qed.

Lemma road_unknown roads a b d : ~ on_map roads b -> road roads a b d = d.
Proof.
  revert d. induction roads as [|[[s t] l] roads IH]; intros d Hb; cbn [road]; [done|]. rewrite decide_False; [apply IH|].
  - intros (x & Hx & Hax). apply Hb. exists x. split; [by right|done].
  - intros [_ ->]. apply Hb. exists (s, b, l). split; [left|by right].
Qed.

(** Walks by names and by numbers. *)
Lemma walk_numbers roads c D : cities_ok c -> (forall i j a b, get (id_city c) i = Some a -> get (id_city c) j = Some b -> D i j = road roads a b INFINITY) ->
  forall ns ms i j a b, Forall2 (fun m x => get (id_city c) m = Some x) ns ms -> get (id_city c) i = Some a -> get (id_city c) j = Some b -> weight D i ns j = walk roads a ms b.
Proof.
  intros Hc HD. induction ns as [|n ns IH]; intros ms i j a b Hf Hi Hj.
  - apply Forall2_nil_inv_l in Hf as ->. by apply HD.
  - apply Forall2_cons_inv_l in Hf as (x & ms' & Hx & Hf & ->). cbn [weight walk]. by rewrite (HD i n a x Hi Hx), (IH ms' n j x b Hf Hx Hj).
Qed.

Lemma between_shown names ns : forall ms p a b, Forall2 (fun m x => get names m = Some x) ns ms -> between names ns = Some p -> (a ++ p ++ b)%string = shown a ms b.
Proof.
  induction ns as [|n ns IH]; intros ms p a b Hf Hp; cbn [between] in Hp.
  - apply Forall2_nil_inv_l in Hf as ->. by injection Hp as <-.
  - apply Forall2_cons_inv_l in Hf as (x & ms' & Hx & Hf & ->). rewrite Hx in Hp. cbn [mbind option_bind] in Hp. destruct (between names ns) as [q|] eqn:Eq; [|done]. cbn [mbind option_bind] in Hp.
    injection Hp as <-. cbn [shown]. rewrite <- (IH ms' q x b Hf eq_refl). by rewrite !string_app_assoc.
Qed.

Lemma between_not_no_path names ns p : between names ns = Some p -> p <> NO_PATH.
Proof.
  destruct ns as [|n ns]; cbn [between]; [by intros [= <-]|]. destruct (get names n) as [x|]; [|done]. cbn [mbind option_bind]. destruct (between names ns); [|done]. by intros [= <-].
Qed.

Lemma names_of (names : list string) ns : Forall (fun m => 0 <= m < alen names) ns -> exists ms, Forall2 (fun m x => get names m = Some x) ns ms.
Proof. induction 1 as [|m ns Hm _ [ms IH]]; [by exists []|]. destruct (get_in names m Hm) as [x Hx]. exists (x :: ms). by constructor. Qed.

(** The numbers of known cities. *)
Lemma numbers_of roads c ms : cities_ok c -> (forall a, is_Some (city_id c !! a) <-> on_map roads a) -> Forall (on_map roads) ms ->
  exists ns, Forall2 (fun m x => get (id_city c) m = Some x) ns ms.
Proof. intros Hc Hk. induction 1 as [|m ms Hm _ [ns IH]]; [by exists []|]. apply Hk in Hm as [i Hi]. apply Hc in Hi. exists (i :: ns). by constructor. Qed.

(** A walk through a city that is on no road is as long as no walk. *)
Lemma walk_on_map roads c b : lengths_ok roads -> (forall a, is_Some (city_id c !! a) <-> on_map roads a) ->
  forall ms a, Forall (on_map roads) ms \/ INFINITY <= walk roads a ms b.
Proof.
  intros Hl Hk. induction ms as [|m ms IH]; intros a; [by left|]. cbn [walk]. pose proof (walk_nonneg roads ms Hl m b) as Hw.
  pose proof (road_nonneg roads a m INFINITY Hl ltac:(unfold INFINITY; lia)) as Hr. destruct (city_id c !! m) as [i|] eqn:E.
  - destruct (IH m) as [?|?]; [left; constructor; [apply Hk; by eexists|done]|right; lia].
  - right. rewrite road_unknown; [lia|]. intros [j Hj]%Hk. congruence.
Qed.

(** ** Sessions *)

(** A name that was not on the map before the first question counts as the first city after
    it was asked about. *)
Definition means (roads : list (string * string * Z)) (asked : list string) (x y : string) : Prop :=
  (on_map roads x /\ y = x) \/ (~ on_map roads x /\ x ∈ asked /\ first_city roads = Some y).

Definition shortest (roads : list (string * string * Z)) (a b : string) (r : reply) : Prop :=
  match r with
  | NoSuchCity => False
  | NoPath => forall ms, INFINITY <= walk roads a ms b
  | Path p l => l < INFINITY /\ (exists ms, walk roads a ms b = l /\ p = shown a ms b) /\ forall ms, l <= walk roads a ms b
  end.

(** The answer to a question after others in which the names [asked] were mentioned. *)
Definition reply_ok (roads : list (string * string * Z)) (asked : list string) (a b : string) (r : reply) : Prop :=
  (r = NoSuchCity <-> ~ (on_map roads a \/ a ∈ asked) \/ ~ (on_map roads b \/ b ∈ asked)) /\
  forall a' b', means roads asked a a' -> means roads asked b b' -> shortest roads a' b' r.

Fixpoint replies_ok (roads : list (string * string * Z)) (asked : list string) (qs : list (string * string)) (rs : list reply) : Prop :=
  match qs, rs with
  | [], [] => True
  | (a, b) :: qs, r :: rs => reply_ok roads asked a b r /\ replies_ok roads (a :: b :: asked) qs rs
  | _, _ => False
  end.

(** What [floyd] has computed. *)
Definition solved (roads : list (string * string * Z)) (c : cities) (n : Z) (s : list Z * list Z) : Prop :=
  exists D0 D N, rounds n n D0 D N /\ pair_mat n s D N /\ n = alen (id_city c) /\ cities_ok c /\ (forall a, is_Some (city_id c !! a) <-> on_map roads a) /\
  forall i j a b, get (id_city c) i = Some a -> get (id_city c) j = Some b -> D0 i j = road roads a b INFINITY.

(** The distances and paths between numbered cities; only the names of [c'] are used. *)
Lemma numbers_answered roads c n s c' i j a b : lengths_ok roads -> solved roads c n s -> id_city c' = id_city c -> get (id_city c) i = Some a -> get (id_city c) j = Some b ->
  exists p, path (Z.to_nat n + 2) c' n s.1 s.2 i j = Some p /\
  ((p = NO_PATH /\ shortest roads a b NoPath) \/ (p <> NO_PATH /\ exists d, get s.1 (i * n + j) = Some d /\ shortest roads a b (Path (a ++ p ++ b)%string d))).
Proof.
  intros Hl (D0 & D & N & Hr & Hm & Hn & Hc & Hk & Hroad) Hc' Ea Ej. pose proof (get_range _ _ _ Ea) as Ri. pose proof (get_range _ _ _ Ej) as Rj. rewrite <- Hn in Ri, Rj.
  assert (Hbest : forall ms, D i j <= walk roads a ms b).
  { intros ms. destruct (walk_on_map roads c b Hl Hk ms a) as [Hms|Hms]; [|pose proof (r_bounded _ _ _ _ _ Hr i j Ri Rj); lia].
    destruct (numbers_of roads c ms Hc Hk Hms) as [ns Hns]. rewrite <- (walk_numbers roads c D0 Hc Hroad ns ms i j a b Hns Ea Ej). eapply below_walks; [exact Hr| |done|done].
    rewrite Hn. apply Forall_lookup_2. intros k x Hx. destruct (Forall2_lookup_l _ _ _ _ _ Hns Hx) as (y & _ & Hy). by apply get_range in Hy. }
  assert (Hlt : N i j < n) by (destruct (r_next _ _ _ _ _ Hr i j Ri Rj) as [[-> _]|[? _]]; lia).
  destruct (path_ok n c' s D0 D N Hr Hm ltac:(by rewrite Hc') (Z.to_nat n + 2) i j Ri Rj ltac:(lia)) as (p & Ep & Hp). exists p. split; [done|]. rewrite Hc' in Hp.
  destruct (Z.eqb_spec (D i j) INFINITY) as [Einf|Hfin].
  - left. split; [done|]. intros ms. rewrite <- Einf. apply Hbest.
  - right. destruct Hp as (ns & Fns & Wns & Sns). split; [by eapply between_not_no_path|]. exists (D i j). split; [by apply Hm|]. pose proof (r_bounded _ _ _ _ _ Hr i j Ri Rj). split; [lia|]. split; [|exact Hbest].
    rewrite Hn in Fns. destruct (names_of (id_city c) ns Fns) as [ms Hms]. exists ms. split; [by rewrite <- (walk_numbers roads c D0 Hc Hroad ns ms i j a b Hms Ea Ej)|]. by apply (between_shown (id_city c) ns).
Qed.

(** The map of the cities when the names [asked] were mentioned. *)
Definition mentioned (c c' : cities) (asked : list string) : Prop :=
  id_city c' = id_city c /\ forall x, city_id c' !! x = match city_id c !! x with Some i => Some i | None => if decide (x ∈ asked) then Some 0 else None end.

Lemma look_up_ok c c' asked x : mentioned c c' asked -> mentioned c (look_up c' x).1 (x :: asked) /\ city_id (look_up c' x).1 !! x = Some (look_up c' x).2 /\
  (forall i, city_id c' !! x = Some i -> (look_up c' x).2 = i).
Proof.
  intros [Hi Hm]. unfold look_up. destruct (city_id c' !! x) as [i|] eqn:E; cbn.
  - split; [|split; [done|congruence]]. split; [done|]. intros y. rewrite Hm. destruct (city_id c !! y) eqn:Ey; [done|]. destruct (decide (y = x)) as [->|Hne].
    + rewrite Hm, Ey in E. case_decide; [|done]. by rewrite decide_True by (right; done).
    + destruct (decide (y ∈ asked)); [by rewrite decide_True by (right; done)|rewrite decide_False; [done|]]. by intros [?|?]%elem_of_cons.
  - split; [|split; [by rewrite lookup_insert_eq|done]]. split; [done|]. intros y. cbn. destruct (decide (y = x)) as [->|Hne].
    + rewrite lookup_insert_eq. rewrite Hm in E. destruct (city_id c !! x); [done|]. by rewrite decide_True by left.
    + rewrite lookup_insert_ne, Hm by done. destruct (city_id c !! y); [done|]. destruct (decide (y ∈ asked)); [by rewrite decide_True by (right; done)|rewrite decide_False; [done|]]. by intros [?|?]%elem_of_cons.
Qed.

Lemma mentioned_means roads c c' asked n s x i : solved roads c n s -> get (id_city c) 0 = first_city roads -> first_city roads <> None -> mentioned c c' asked -> city_id c' !! x = Some i ->
  exists y, get (id_city c) i = Some y /\ forall z, means roads asked x z -> z = y.
Proof.
  intros (D0 & D & N & _ & _ & _ & Hc & Hk & _) H0 Hne [_ Hm] Hx. rewrite Hm in Hx. destruct (city_id c !! x) as [k|] eqn:E.
  - injection Hx as <-. exists x. split; [by apply Hc|]. assert (on_map roads x) by (apply Hk; by eexists). by intros z [[_ ->]|[? _]].
  - case_decide as Ha; [|done]. injection Hx as <-. rewrite H0. destruct (first_city roads) as [y|] eqn:Ef; [|done]. exists y. split; [done|].
    assert (~ on_map roads x) by (rewrite <- Hk, E; by intros []). intros z [[? _]|(_ & _ & Hz)]; [done|congruence].
Qed.

Lemma mentioned_known roads c c' asked n s x : solved roads c n s -> mentioned c c' asked -> (city_id c' !! x = None <-> ~ (on_map roads x \/ x ∈ asked)).
Proof.
  intros (D0 & D & N & _ & _ & _ & Hc & Hk & _) [_ Hm]. rewrite Hm, <- Hk. destruct (city_id c !! x) as [k|]; [split; [done|]; intros Hn; exfalso; apply Hn; left; by eexists|].
  destruct (decide (x ∈ asked)) as [Ha|Ha]; (split; [|done || tauto]); [done|]. intros _ [[? ?]|?]; done.
Qed.

Lemma answer_ok roads c c' asked n s a b : lengths_ok roads -> solved roads c n s -> get (id_city c) 0 = first_city roads -> first_city roads <> None -> mentioned c c' asked ->
  exists c'' r, answer (Z.to_nat n + 2) c' n s.1 s.2 a b = Some (c'', r) /\ mentioned c c'' (a :: b :: asked) /\ reply_ok roads asked a b r.
Proof.
  intros Hl Hs H0 Hne Hm. unfold answer. destruct (look_up_ok c c' asked a Hm) as (Hm1 & _ & Ha2). destruct (look_up c' a) as [c1 i] eqn:E1. cbn [fst snd] in *.
  destruct (look_up_ok c c1 (a :: asked) b Hm1) as (Hm2 & _ & Hb2). destruct (look_up c1 b) as [c2 j] eqn:E2. cbn [fst snd] in *.
  assert (Hm3 : mentioned c c2 (a :: b :: asked)).
  { destruct Hm2 as [? H2]. split; [done|]. intros x. rewrite H2. destruct (city_id c !! x); [done|]. destruct (decide (x ∈ b :: a :: asked)) as [Hin|Hin]; [rewrite decide_True by set_solver|rewrite decide_False by set_solver]; done. }
  pose proof (mentioned_known roads c c' asked n s a Hs Hm) as Ka. pose proof (mentioned_known roads c c' asked n s b Hs Hm) as Kb.
  case_bool_decide as Ea; cbn [orb]; [eexists _, _; split; [done|]; split; [done|]; split; [split; [intros _; left; by apply Ka|done]|]|].
  { intros a' b' Hma _. exfalso. apply Ka in Ea. unfold means in Hma. tauto. }
  case_bool_decide as Eb; [eexists _, _; split; [done|]; split; [done|]; split; [split; [intros _; right; by apply Kb|done]|]|].
  { intros a' b' _ Hmb. exfalso. apply Kb in Eb. unfold means in Hmb. tauto. }
  destruct (city_id c' !! a) as [i'|] eqn:Ca; [|done]. rewrite (Ha2 i' eq_refl) in *. destruct (city_id c' !! b) as [j'|] eqn:Cb; [|done].
  assert (Cb1 : city_id c1 !! b = Some j') by (unfold look_up in E1; rewrite Ca in E1; injection E1 as <-; done). rewrite (Hb2 j' Cb1) in *.
  destruct (mentioned_means _ _ _ _ _ _ _ _ Hs H0 Hne Hm Ca) as (ya & Gi & Hya). destruct (mentioned_means _ _ _ _ _ _ _ _ Hs H0 Hne Hm Cb) as (yb & Gj & Hyb).
  assert (Hno : ~ (~ (on_map roads a \/ a ∈ asked) \/ ~ (on_map roads b \/ b ∈ asked))) by (rewrite <- Ka, <- Kb; by intros [?|?]).
  destruct (numbers_answered roads c n s c2 i' j' ya yb Hl Hs (proj1 Hm3) Gi Gj) as (p & -> & [[-> Hp]|(Hp & d & Hd & Hsp)]); cbn [mbind option_bind].
  - rewrite decide_True by done. eexists _, _. split; [done|]. split; [done|]. split; [split; [done|tauto]|]. intros a' b' ->%Hya ->%Hyb. done.
  - rewrite decide_False, (proj1 Hm3), Gi, Gj by done. cbn [mbind option_bind]. rewrite Hd. cbn [mbind option_bind]. eexists _, _. split; [done|]. split; [done|]. split; [split; [done|tauto]|]. intros a' b' ->%Hya ->%Hyb. done.
Qed.

Lemma session_ok roads c n s : lengths_ok roads -> solved roads c n s -> get (id_city c) 0 = first_city roads -> first_city roads <> None ->
  forall qs c' asked, mentioned c c' asked -> exists rs, handle_user_input (Z.to_nat n + 2) c' n s.1 s.2 qs = Some rs /\ replies_ok roads asked qs rs.
Proof.
  intros Hl Hs H0 Hne. induction qs as [|[a b] qs IH]; intros c' asked Hm; [by exists []|]. cbn [handle_user_input].
  destruct (answer_ok roads c c' asked n s a b Hl Hs H0 Hne Hm) as (c'' & r & -> & Hm' & Hr). cbn [mbind option_bind].
  destruct (IH c'' _ Hm') as (rs & -> & Hrs). cbn [mbind option_bind]. by exists (r :: rs).
Qed.

(** C20. The answers are shortest paths.  For a map of at least one and at most 23,170 roads, all of
    length at least 0 and below [INFINITY], and if [int] additions wrap: [build_graph] and
    [floyd] end without leaving their arrays, and every question of a session gets its answer.
    It is "no such city" exactly if one of the names is neither on the map nor was asked about
    before; otherwise a walk along roads with its length, and no walk is shorter, or "no path",
    and every walk is as long as [INFINITY]; where a name that is not on the map, once it was
    asked about, counts as the first city.  A compiler for which the overflow is undefined
    gives the same answers if the run of [floyd] is defined.  [path] needs no more calls inside
    each other than there are cities. *)
Theorem shortest_paths_found roads : lengths_ok roads -> roads <> [] -> alen roads <= 23170 ->
  exists c n d nx, build_graph roads = Some (c, n, d, nx) /\ is_Some (floyd true n (d, nx)) /\
  forall wrapv d' nx' qs, floyd wrapv n (d, nx) = Some (d', nx') ->
  exists rs, handle_user_input (Z.to_nat n + 2) c n d' nx' qs = Some rs /\ replies_ok roads [] qs rs.
Proof.
  intros Hl Hsome Hmany. destruct (build_graph_ok roads Hl Hmany) as (c & n & d & D0 & Eb & Hn & Hc & Hk & Hd & HD & H0 & Hroad). pose proof (alen_nonneg (id_city c)) as Hn0. rewrite <- Hn in Hn0.
  set (nx := replicate (Z.to_nat (n * n)) (-1)) in Eb.
  assert (Hnx : mat n nx (fun _ _ => -1)).
  { split; [unfold nx, alen; rewrite length_replicate; nia|]. intros i j Hi Hj. pose proof (idx_range n i j Hi Hj). rewrite get_eq by lia. apply lookup_replicate_2. lia. }
  destruct (floyd_ok n (d, nx) D0 Hn0 HD (conj Hd Hnx)) as (s' & D & N & Ef & Hm & Hr). exists c, n, d, nx. split; [done|]. split; [by rewrite Ef|].
  intros wrapv d' nx' qs E. apply floyd_strict in E. rewrite Ef in E. injection E as ->. apply (session_ok roads c n (d', nx') Hl).
  - exists D0, D, N. by split_and!.
  - done.
  - by destruct roads as [|[[? ?] ?] ?].
  - split; [done|]. intros x. destruct (city_id c !! x); [done|]. rewrite decide_False; [done|]. apply not_elem_of_nil.
Qed.

(** The roads of cities.txt. *)
Definition some_roads : list (string * string * Z) :=
  [("a", "b", 10); ("b", "c", 50); ("d", "c", 20); ("c", "e", 10); ("d", "e", 60); ("a", "d", 30); ("a", "e", 100)]%string.

Lemma shortest_paths_found_witness : exists c n d nx, build_graph some_roads = Some (c, n, d, nx) /\ is_Some (floyd true n (d, nx)) /\
  forall wrapv d' nx' qs, floyd wrapv n (d, nx) = Some (d', nx') ->
  exists rs, handle_user_input (Z.to_nat n + 2) c n d' nx' qs = Some rs /\ replies_ok some_roads [] qs rs.
Proof.
  apply shortest_paths_found; [|discriminate|vm_compute; discriminate]. repeat constructor; vm_compute; try reflexivity; discriminate.
Defined.

(** From a to e through d and c; and f, which is nowhere, is a when it is asked about again. *)
Example shortest_a_to_e : exists c n d nx s, build_graph some_roads = Some (c, n, d, nx) /\ floyd true n (d, nx) = Some s /\
  handle_user_input (Z.to_nat n + 2) c n s.1 s.2 [("a", "e"); ("e", "a"); ("f", "e"); ("f", "e")]%string =
    Some [Path "a d c e" 60; NoPath; NoSuchCity; Path "a d c e" 60].
Proof. eexists _, _, _, _, _. split; [vm_compute; reflexivity|]. split; [vm_compute; reflexivity|]. vm_compute. reflexivity. Qed.
