(* ===== verification/Kmp.v ===== *)
(** * String matching with an automaton

    Models src/string_match/kmp_dfa.cpp: [build_dfa], which fills the transition table of a
    pattern column by column, and [search], which runs it over a text and reports the matches
    that do not overlap.  A [char] indexes the table as the signed number it is: [None] is an
    access out of bounds. *)

From Stdlib Require Import ZArith Lia Ascii String Sorting.
From stdpp Require Import base list sorting.
From S2P Require Import Prelude Loops.

Local Open Scope Z_scope.

(** ** The program *)

Definition get2 (a : list (list Z)) (c j : Z) : option Z := row ← get a c; get row j.
Definition set2 (a : list (list Z)) (c j v : Z) : option (list (list Z)) := row ← get a c; row ← set row j v; set a c row.

(** One round of the loop over [j]: [dfa] and [X]. *)
Definition dfa_step (p : list ascii) (j : Z) (s : list (list Z) * Z) : option (list (list Z) * Z) :=
  let '(dfa, X) := s in
  dfa ← for_z 256 (fun c dfa => v ← get2 dfa c X; set2 dfa c j v) dfa;
  pj ← get p j;
  dfa ← set2 dfa (char_s pj) j (j + 1);
  X ← get2 dfa (char_s pj) X;
  Some (dfa, X).

Definition build_dfa (p : list ascii) : option (list (list Z)) :=
  let dfa := replicate 256 (replicate (length p) 0) in
  p0 ← get p 0;
  dfa ← set2 dfa (char_s p0) 0 1;
  '(dfa, _) ← for_z (alen p - 1) (fun i => dfa_step p (i + 1)) (dfa, 0);
  Some dfa.

(** The positions [search] reports. *)
Definition search_step (dfa : list (list Z)) (text p : list ascii) (i : Z) (s : Z * list Z) : option (Z * list Z) :=
  let '(j, found) := s in
  c ← get text i;
  j ← get2 dfa (char_s c) j;
  Some (if j =? alen p then (0, found ++ [i - alen p + 1]) else (j, found)).

Definition search (text p : list ascii) : option (list Z) :=
  dfa ← build_dfa p;
  '(_, found) ← for_z (alen text) (search_step dfa text p) (0, []);
  Some found.

(** ** Prefixes of the pattern that end a text *)

Section Pattern.
Context (p : list ascii).
Implicit Types (u : list ascii) (c : ascii) (j k : nat).

(** [k] is the length of the longest prefix of [p] that [u] ends with. *)
Definition longest u k : Prop :=
  (k <= length p)%nat /\ take k p `suffix_of` u /\ forall k', (k' <= length p)%nat -> take k' p `suffix_of` u -> (k' <= k)%nat.

Lemma suffix_shorter {A} (a b u : list A) : a `suffix_of` u -> b `suffix_of` u -> (length a <= length b)%nat -> a `suffix_of` b.
Proof.
  intros Ha Hb Hl. destruct (suffix_weak_total a b u Ha Hb) as [?|H]; [done|]. pose proof (suffix_length _ _ H). by rewrite (suffix_length_eq _ _ H) by lia.
Qed.

Lemma take_S j c : p !! j = Some c -> take (S j) p = take j p ++ [c].
Proof. apply take_S_r. Qed.

Lemma take_length j : (j <= length p)%nat -> length (take j p) = j.
Proof. rewrite length_take. lia. Qed.

(** A prefix that ends [u ++ [c]]. *)
Lemma suffix_step u c k : (S k <= length p)%nat -> take (S k) p `suffix_of` u ++ [c] <-> take k p `suffix_of` u /\ p !! k = Some c.
Proof.
  intros Hk. destruct (lookup_lt_is_Some_2 p k) as [x Hx]; [lia|]. rewrite (take_S k x Hx). split.
  - intros H. split; [by eapply suffix_snoc_inv_2|]. apply suffix_snoc_inv_1 in H. congruence.
  - intros [H E]. assert (x = c) as -> by congruence. by apply suffix_snoc.
Qed.

Lemma longest_unique u k k' : longest u k -> longest u k' -> k = k'.
Proof. intros (H1 & H2 & H3) (H1' & H2' & H3'). specialize (H3 k' H1' H2'). specialize (H3' k H1 H2). lia. Qed.

Lemma longest_nil : longest [] 0.
Proof. split; [lia|]. split; [apply suffix_nil|]. intros k' Hk' H. apply suffix_length in H. rewrite take_length in H by done. cbn [length] in H. lia. Qed.

(** Two texts with the same prefixes at their ends. *)
Lemma longest_same u u' k : (forall k', (k' <= length p)%nat -> take k' p `suffix_of` u <-> take k' p `suffix_of` u') -> longest u k -> longest u' k.
Proof. intros H (H1 & H2 & H3). split; [done|]. split; [by apply H|]. intros k' Hk' Hs. apply H3; [done|]. by apply H. Qed.

(** The automaton only needs the prefix that was found so far. *)
Lemma longest_step u c j k : longest u j -> (j < length p)%nat -> longest (take j p ++ [c]) k -> longest (u ++ [c]) k.
Proof.
  intros (_ & Hj & Hmax) Hlt. apply longest_same. intros [|k'] Hk'; [by split; intros _; apply suffix_nil|]. rewrite !suffix_step by done. split; intros [H E]; (split; [|done]).
  - by etransitivity.
  - apply (suffix_shorter _ _ u); [done|done|]. rewrite !take_length by lia. apply Hmax; [lia|done].
Qed.

Lemma longest_match j c : p !! j = Some c -> longest (take j p ++ [c]) (S j).
Proof.
  intros Hc. pose proof (lookup_lt_Some _ _ _ Hc). rewrite <- (take_S j c Hc). split; [lia|]. split; [done|]. intros k' Hk' Hs. apply suffix_length in Hs. rewrite !take_length in Hs by lia. lia.
Qed.

(** On a mismatch the automaton goes on as it would after all but the first character. *)
Lemma longest_mismatch j c d X k : p !! j = Some d -> d <> c -> (0 < j)%nat -> longest (drop 1 (take j p)) X -> longest (take X p ++ [c]) k -> longest (take j p ++ [c]) k.
Proof.
  intros Hd Hne Hj HX Hk. pose proof (lookup_lt_Some _ _ _ Hd) as Hlt.
  assert (HXj : (X < j)%nat) by (destruct HX as (H1 & H2 & _); apply suffix_length in H2; rewrite length_drop, !take_length in H2 by lia; lia).
  pose proof (longest_step _ c X k HX ltac:(lia) Hk) as Hs. revert Hs. apply longest_same. intros k' Hk'.
  assert (Hdrop : drop 1 (take j p ++ [c]) = drop 1 (take j p) ++ [c]) by (rewrite drop_app_le; [done|rewrite take_length; lia]).
  rewrite <- Hdrop. split; [intros H; etransitivity; [exact H|apply suffix_drop]|]. intros H.
  pose proof (suffix_length _ _ H) as Hl. rewrite length_app, !take_length in Hl by lia. cbn in Hl.
  destruct (decide (k' = S j)) as [->|Hkj]; [apply suffix_step in H as [_ H]; [congruence|lia]|].
  eapply suffix_shorter; [exact H|apply suffix_drop|]. rewrite length_drop, length_app, !take_length by lia. cbn. lia.
Qed.

Lemma longest_first c d k : p !! 0%nat = Some d -> k = (if ascii_dec d c then 1%nat else 0%nat) -> longest [c] k.
Proof.
  intros Hd ->. pose proof (lookup_lt_Some _ _ _ Hd) as Hlt. destruct (ascii_dec d c) as [->|Hne]; [by apply (longest_match 0)|].
  split; [lia|]. split; [apply suffix_nil|]. intros [|k'] Hk' Hs; [lia|]. apply (suffix_step [] c k') in Hs as [Hs E]; [|done]. apply suffix_length in Hs. rewrite take_length in Hs by lia.
  cbn in Hs. assert (k' = 0%nat) as -> by lia. congruence.
Qed.
End Pattern.

(** ** The table *)

Definition tab (m : Z) (a : list (list Z)) (F : Z -> Z -> Z) : Prop :=
  alen a = 256 /\ (forall c row, get a c = Some row -> alen row = m) /\ forall c j, 0 <= c < 256 -> 0 <= j < m -> get2 a c j = Some (F c j).
Definition put (F : Z -> Z -> Z) (c j v : Z) : Z -> Z -> Z := fun x y => if (x =? c) && (y =? j) then v else F x y.

Lemma set2_ok m a F c j v : tab m a F -> 0 <= c < 256 -> 0 <= j < m -> exists a', set2 a c j v = Some a' /\ tab m a' (put F c j v).
Proof.
  intros (Hl & Hr & Hg) Hc Hj. unfold set2. destruct (get_in a c ltac:(lia)) as [row Hrow]. rewrite Hrow. cbn [mbind option_bind].
  destruct (set_spec row j v) as (row' & -> & Hl' & Hg'); [rewrite (Hr _ _ Hrow); lia|]. cbn [mbind option_bind].
  destruct (set_spec a c row') as (a' & -> & Hla & Hga); [lia|]. exists a'. split; [done|]. split; [lia|]. split.
  - intros x r. rewrite Hga. destruct (Z.eqb_spec x c) as [->|]; [intros [= <-]; rewrite Hl'; by eapply Hr|apply Hr].
  - intros x y Hx Hy. unfold get2, put. rewrite Hga. destruct (Z.eqb_spec x c) as [->|]; [|by apply Hg]. cbn [mbind option_bind andb]. rewrite Hg'.
    destruct (y =? j); [done|]. specialize (Hg c y Hx Hy). unfold get2 in Hg. by rewrite Hrow in Hg.
Qed.

Lemma tab_ext m a F F' : tab m a F -> (forall c j, 0 <= c < 256 -> 0 <= j < m -> F' c j = F c j) -> tab m a F'.
Proof. intros (Hl & Hr & Hg) H. split; [done|]. split; [done|]. intros c j Hc Hj. by rewrite Hg, H. Qed.

(** The loop that copies column [X] to column [j]. *)
Lemma copy_ok m a F X j : tab m a F -> 0 <= X < m -> 0 <= j < m -> X <> j ->
  exists a', for_z 256 (fun c a => v ← get2 a c X; set2 a c j v) a = Some a' /\ tab m a' (fun c y => if y =? j then F c X else F c y).
Proof.
  intros Ha HX Hj Hne. destruct (for_z_ok (fun i a => tab m a (fun c y => if (c <? i) && (y =? j) then F c X else F c y)) 256 (fun c a => v ← get2 a c X; set2 a c j v) ltac:(lia)) with (s := a) as (a' & E & Ha').
  - intros i s Hi Hs. rewrite (proj2 (proj2 Hs)) by lia. rewrite (proj2 (Z.eqb_neq X j)), andb_false_r by done. cbn [mbind option_bind].
    destruct (set2_ok m s _ i j (F i X) Hs ltac:(lia) Hj) as (s' & -> & Hs'). exists s'. split; [done|]. eapply tab_ext; [exact Hs'|]. intros c y Hc Hy. unfold put.
    destruct (Z.eqb_spec c i), (Z.eqb_spec y j), (Z.ltb_spec c (i + 1)), (Z.ltb_spec c i); cbn [andb]; subst; try done; lia.
  - eapply tab_ext; [exact Ha|]. intros c y Hc Hy. by rewrite (proj2 (Z.ltb_ge c 0)) by lia.
  - exists a'. split; [done|]. eapply tab_ext; [exact Ha'|]. intros c y Hc Hy. cbn beta. by rewrite (proj2 (Z.ltb_lt c 256)) by lia.
Qed.

(** Characters of 7 bits. *)
Definition seven (c : ascii) : Prop := char_u c < 128.
Lemma seven_index c : seven c -> char_s c = char_u c /\ 0 <= char_s c < 256.
Proof.
  intros H. unfold seven in H. pose proof (char_u_range c). assert (E : char_s c = char_u c); [|lia]. unfold char_s, to_signed. rewrite wrap_small by lia. change (2 ^ (8 - 1)) with 128. by rewrite (proj2 (Z.ltb_lt _ _)).
Qed.

(** The columns before [j] are those of the automaton. *)
Definition filled (p : list ascii) (F : Z -> Z -> Z) (j : Z) : Prop :=
  forall c i, 0 <= i < j -> exists k, F (char_u c) i = Z.of_nat k /\ longest p (take (Z.to_nat i) p ++ [c]) k.

Lemma dfa_step_ok p a F (X j : nat) : Forall seven p -> (0 < j < length p)%nat -> tab (alen p) a F -> filled p F (Z.of_nat j) -> longest p (drop 1 (take j p)) X ->
  exists a' F' X', dfa_step p (Z.of_nat j) (a, Z.of_nat X) = Some (a', Z.of_nat X') /\ tab (alen p) a' F' /\ filled p F' (Z.of_nat (S j)) /\ longest p (drop 1 (take (S j) p)) X'.
Proof.
  intros Hp Hj Ha HF HX. unfold dfa_step. assert (HXj : (X < j)%nat) by (destruct HX as (_ & H & _); apply suffix_length in H; rewrite length_drop, !length_take in H; lia).
  destruct (copy_ok (alen p) a F (Z.of_nat X) (Z.of_nat j) Ha) as (a1 & -> & Ha1); [unfold alen; lia..|]. cbn [mbind option_bind].
  destruct (lookup_lt_is_Some_2 p j) as [d Hd]; [lia|]. rewrite get_nat, Hd. cbn [mbind option_bind]. destruct (seven_index d) as [Ed Hdr]; [by eapply Forall_lookup_1|].
  destruct (set2_ok (alen p) a1 _ (char_s d) (Z.of_nat j) (Z.of_nat j + 1) Ha1 Hdr ltac:(unfold alen; lia)) as (a2 & -> & Ha2). cbn [mbind option_bind].
  rewrite (proj2 (proj2 Ha2)) by (unfold alen; lia). cbn [mbind option_bind]. set (F' := put _ _ _ _) in *.
  assert (Hold : forall c i, 0 <= i < Z.of_nat j -> F' (char_u c) i = F (char_u c) i).
  { intros c i Hi. unfold F', put. rewrite (proj2 (Z.eqb_neq i (Z.of_nat j))), andb_false_r by lia. done. }
  destruct (HF d (Z.of_nat X) ltac:(lia)) as (k & Ek & Hk). rewrite Nat2Z.id in Hk.
  exists a2, F', k. split; [f_equal; f_equal; rewrite Ed, Hold by lia; exact Ek|]. split; [done|]. split.
  - intros c i Hi. destruct (decide (i = Z.of_nat j)) as [->|Hne]; [|destruct (HF c i ltac:(lia)) as (k2 & E2 & H2); exists k2; by rewrite Hold by lia]. rewrite Nat2Z.id.
    unfold F', put. rewrite Z.eqb_refl, andb_true_r, Ed. destruct (Z.eqb_spec (char_u c) (char_u d)) as [Ec|Hc].
    + apply char_u_inj in Ec as ->. exists (S j). split; [lia|]. by apply longest_match.
    + destruct (HF c (Z.of_nat X) ltac:(lia)) as (k2 & E2 & H2). exists k2. split; [done|]. rewrite Nat2Z.id in H2. eapply longest_mismatch; [exact Hd|by intros ->|lia|exact HX|exact H2].
  - rewrite (take_S_r p j d Hd), drop_app_le by (rewrite length_take; lia). eapply longest_step; [exact HX|lia|exact Hk].
Qed.

Lemma build_dfa_ok p : Forall seven p -> p <> [] -> exists a F, build_dfa p = Some a /\ tab (alen p) a F /\ filled p F (alen p).
Proof.
  intros Hp Hne. destruct p as [|p0 p'] eqn:Ep; [done|]. rewrite <- Ep in *. assert (Hl : (0 < length p)%nat) by (rewrite Ep; cbn; lia).
  assert (H0 : p !! 0%nat = Some p0) by (by rewrite Ep). assert (Hg0 : get p 0 = Some p0) by (by rewrite (get_eq p 0) by lia).
  unfold build_dfa. rewrite Hg0. cbn [mbind option_bind].
  assert (Hinit : tab (alen p) (replicate 256 (replicate (length p) 0)) (fun _ _ => 0)).
  { assert (Hrow : forall c row, get (replicate 256 (replicate (length p) 0)) c = Some row -> row = replicate (length p) 0).
    { intros c row Hc. unfold get in Hc. destruct (0 <=? c); [|done]. by apply lookup_replicate in Hc as [-> _]. }
    split; [done|]. split; [intros c row Hc; apply Hrow in Hc as ->; unfold alen; by rewrite length_replicate|].
    intros c j Hc Hj. unfold get2. destruct (get_in (replicate 256 (replicate (length p) 0)) c ltac:(unfold alen; rewrite length_replicate; lia)) as [row E]. rewrite E. cbn [mbind option_bind].
    apply Hrow in E as ->. rewrite get_eq by lia. apply lookup_replicate_2. unfold alen in Hj. lia. }
  destruct (seven_index p0) as [Es Hs]; [by eapply Forall_lookup_1|].
  destruct (set2_ok (alen p) _ _ (char_s p0) 0 1 Hinit Hs ltac:(unfold alen; lia)) as (a & -> & Ha). cbn [mbind option_bind]. set (F := put _ _ _ _) in Ha.
  destruct (for_z_ok (fun i s => exists F X, s.2 = Z.of_nat X /\ tab (alen p) s.1 F /\ filled p F (i + 1) /\ longest p (drop 1 (take (Z.to_nat (i + 1)) p)) X)
    (alen p - 1) (fun i => dfa_step p (i + 1)) ltac:(unfold alen; lia)) with (s := (a, 0)) as ([a' X'] & -> & F' & X & _ & Ha' & HF' & _).
  - intros i [s x] Hi (F1 & X & Ex & H1 & H2 & H3). cbn [fst snd] in *. subst x. destruct (dfa_step_ok p s F1 X (Z.to_nat (i + 1)) Hp) as (a2 & F2 & X2 & E & ? & H4 & H5); [unfold alen in Hi; lia|done| |done|].
    { by rewrite Z2Nat.id by lia. }
    rewrite Z2Nat.id in E by lia. exists (a2, Z.of_nat X2). split; [done|]. exists F2, X2. split; [done|]. split; [done|].
    replace (i + 1 + 1) with (Z.of_nat (S (Z.to_nat (i + 1)))) by lia. rewrite Nat2Z.id. done.
  - exists F, 0%nat. split; [done|]. split; [done|]. split.
    + intros c i Hi. assert (i = 0) as -> by lia. unfold F, put. rewrite Es, Z.eqb_refl, andb_true_r. exists (if ascii_dec p0 c then 1%nat else 0%nat).
      split; [|by apply (longest_first p c p0)]. destruct (Z.eqb_spec (char_u c) (char_u p0)) as [E|E], (ascii_dec p0 c) as [->|Hn]; try done. by apply char_u_inj in E as ->.
    + assert (drop 1 (take (Z.to_nat (0 + 1)) p) = []) as -> by (by rewrite Ep). apply longest_nil.
  - cbn [mbind option_bind]. exists a', F'. split; [done|]. split; [done|]. cbn [fst] in *. by replace (alen p - 1 + 1) with (alen p) in HF' by lia.
Qed.

(** ** Matches *)

(** [p] stands in [t] at [r]. *)
Definition occurs (p t : list ascii) (r : Z) : Prop := 0 <= r /\ take (length p) (drop (Z.to_nat r) t) = p.

Lemma occurs_end p t r : occurs p t r -> r + alen p <= alen t \/ p = [].
Proof. intros [Hr H]. apply (f_equal length) in H. rewrite length_take, length_drop in H. unfold alen. destruct p; [by right|left]. cbn [length] in *. lia. Qed.

Lemma occurs_app p t u r : occurs p t r -> occurs p (t ++ u) r.
Proof.
  intros [Hr H]. split; [done|]. pose proof (f_equal length H) as Hl. rewrite length_take, length_drop in Hl. destruct (decide (p = [])) as [->|Hne]; [done|].
  assert (0 < length p)%nat by (destruct p; [done|cbn; lia]). rewrite drop_app_le, take_app_le by (rewrite ?length_drop; lia). done.
Qed.
Lemma occurs_app_inv p t u r : p <> [] -> occurs p (t ++ u) r -> r + alen p <= alen t -> occurs p t r.
Proof. intros Hne [Hr H] Hl. split; [done|]. unfold alen in Hl. rewrite drop_app_le, take_app_le in H by (rewrite ?length_drop; lia). done. Qed.

Lemma occurs_suffix p t b : (b <= length t)%nat -> p `suffix_of` drop b t <-> occurs p t (alen t - alen p) /\ Z.of_nat b + alen p <= alen t.
Proof.
  intros Hb. unfold alen. split.
  - intros Hs. pose proof (suffix_length _ _ Hs) as Hl. rewrite length_drop in Hl. destruct Hs as [k E]. split; [|lia]. split; [lia|].
    assert (Ek : length k = (length t - b - length p)%nat) by (apply (f_equal length) in E; rewrite length_drop, length_app in E; lia).
    replace (Z.to_nat (Z.of_nat (length t) - Z.of_nat (length p))) with (b + length k)%nat by lia. rewrite <- drop_drop, E, drop_app_length. by apply take_ge.
  - intros [[_ H] Hl]. rewrite take_ge in H by (rewrite length_drop; lia). rewrite <- H. replace (Z.to_nat _) with (b + (length t - length p - b))%nat by lia. rewrite <- drop_drop. apply suffix_drop.
Qed.

(** After a part [t] of the text: the matches so far lie before [b], and all occurrences in [t]
    are covered by one that starts no later; [j] describes what follows [b]. *)
Record scanned (p t : list ascii) (j : nat) (found : list Z) (b : nat) : Prop := Scanned {
  sc_b : (b <= length t)%nat;
  sc_j : longest p (drop b t) j /\ (j < length p)%nat;
  sc_occurs : Forall (fun r => occurs p t r /\ r + alen p <= Z.of_nat b) found;
  sc_apart : StronglySorted (fun r r' => r + alen p <= r') found;
  sc_last : b = 0%nat \/ exists r, r ∈ found /\ r + alen p = Z.of_nat b;
  sc_cover : forall i, occurs p t i -> exists r, r ∈ found /\ r <= i < r + alen p
}.

Lemma scanned_step p t c j k found b : p <> [] -> scanned p t j found b -> longest p (take j p ++ [c]) k ->
  if (k =? length p)%nat then scanned p (t ++ [c]) 0 (found ++ [alen t - alen p + 1]) (length t + 1) else scanned p (t ++ [c]) k found b.
Proof.
  intros Hne [Hb [Hj Hjl] Ho Ha Hlast Hcov] Hk. assert (Hp : (0 < length p)%nat) by (destruct p; [done|cbn; lia]).
  pose proof (longest_step p (drop b t) c j k Hj Hjl Hk) as Hs. rewrite <- (drop_app_le t [c]) in Hs by done. pose proof Hs as (Hk1 & Hk2 & Hk3).
  assert (Hlen : alen (t ++ [c]) = alen t + 1) by (rewrite alen_app; done).
  assert (Hlen' : (b <= length (t ++ [c]))%nat) by (rewrite length_app; cbn; lia).
  assert (Hold : forall i, occurs p (t ++ [c]) i -> i = alen t + 1 - alen p \/ occurs p t i).
  { intros i Hi. pose proof (occurs_end _ _ _ Hi) as [He|]; [|done]. destruct (decide (i = alen t + 1 - alen p)); [by left|right]. eapply occurs_app_inv; [done|exact Hi|lia]. }
  assert (Ho' : Forall (fun r => occurs p (t ++ [c]) r /\ r + alen p <= Z.of_nat b) found) by (eapply Forall_impl; [exact Ho|]; intros r [? ?]; split; [by apply occurs_app|done]).
  destruct (Nat.eqb_spec k (length p)) as [->|Hkp].
  - rewrite take_ge in Hk2 by lia. apply (occurs_suffix p (t ++ [c]) b Hlen') in Hk2 as [Hocc Hroom]. rewrite Hlen in Hocc, Hroom. set (r := alen t - alen p + 1). replace (alen t + 1 - alen p) with r in Hocc by (unfold r; lia).
    assert (Hrb : Z.of_nat b <= r) by (unfold r; lia). assert (Hrl : r + alen p = Z.of_nat (length t + 1)) by (unfold r, alen; lia). constructor.
    + rewrite length_app. cbn. lia.
    + rewrite drop_ge by (rewrite length_app; cbn; lia). split; [|done]. apply longest_nil.
    + apply Forall_app. split; [eapply Forall_impl; [exact Ho'|]; intros x [? ?]; split; [done|lia]|]. constructor; [split; [exact Hocc|lia]|constructor].
    + apply StronglySorted_app_2; [|done|by repeat constructor]. intros x y Hx Hy. apply list_elem_of_singleton in Hy as ->. rewrite Forall_forall in Ho. apply Ho in Hx as [_ ?]. lia.
    + right. exists r. split; [apply elem_of_app; right; by apply list_elem_of_singleton|done].
    + intros i [->|Hi]%Hold; [exists r; split; [apply elem_of_app; right; by apply list_elem_of_singleton|unfold r, alen; lia]|]. destruct (Hcov i Hi) as (x & Hx & ?). exists x. split; [apply elem_of_app; by left|done].
  - constructor; [done|split; [done|lia]|done|done|done|]. intros i Hocc. destruct (Hold i Hocc) as [->|Hi]; [|by apply Hcov].
    destruct (decide (Z.of_nat b + alen p <= alen t + 1)) as [Hroom|Hroom].
    + exfalso. assert (H : p `suffix_of` drop b (t ++ [c])) by (apply (occurs_suffix p (t ++ [c]) b Hlen'); rewrite Hlen; by split).
      specialize (Hk3 (length p) ltac:(lia)). rewrite take_ge in Hk3 by lia. specialize (Hk3 H). lia.
    + destruct Hlast as [->|(r & Hr & Hrb)]; [destruct Hocc as [Hz _]; lia|]. exists r. split; [done|]. unfold alen in *. lia.
Qed.

(** C21. [search] finds the matches: for a pattern and a text of 7-bit characters it never
    leaves the table and reports positions at which the pattern stands, no two of which
    overlap, and every place where the pattern stands is covered by a reported one that starts
    no later.  (This determines the list: the leftmost match, then the leftmost one after its
    end, and so on.) *)
Theorem search_finds_matches text p : Forall seven p -> Forall seven text -> p <> [] ->
  exists found, search text p = Some found /\ Forall (occurs p text) found /\ StronglySorted (fun r r' => r + alen p <= r') found /\
  forall i, occurs p text i -> exists r, r ∈ found /\ r <= i < r + alen p.
Proof.
  intros Hp Ht Hne. destruct (build_dfa_ok p Hp Hne) as (dfa & F & E & Htab & HF). unfold search. rewrite E. cbn [mbind option_bind].
  assert (Hl : (0 < length p)%nat) by (destruct p; [done|cbn; lia]).
  destruct (for_z_ok (fun i s => exists j b, s.1 = Z.of_nat j /\ scanned p (take (Z.to_nat i) text) j s.2 b) (alen text) (search_step dfa text p) (alen_nonneg text)) with (s := (0, @nil Z))
    as ([x found] & -> & j & b & _ & Hs).
  - intros i [x found] Hi (j & b & Ex & Hs). cbn [fst snd] in *. subst x. unfold search_step. destruct (lookup_lt_is_Some_2 text (Z.to_nat i)) as [c Hc]; [unfold alen in Hi; lia|].
    rewrite get_eq, Hc by lia. cbn [mbind option_bind]. destruct (seven_index c) as [Ec Hcr]; [by eapply Forall_lookup_1|]. pose proof (sc_j _ _ _ _ _ Hs) as [_ Hj].
    rewrite (proj2 (proj2 Htab)) by (unfold alen; lia). cbn [mbind option_bind]. destruct (HF c (Z.of_nat j) ltac:(unfold alen; lia)) as (k & Ek & Hk). rewrite Nat2Z.id in Hk. rewrite Ec, Ek.
    pose proof (scanned_step p _ c j k found b Hne Hs Hk) as Hstep. rewrite <- (take_S_r text (Z.to_nat i) c Hc) in Hstep. replace (S (Z.to_nat i)) with (Z.to_nat (i + 1)) in Hstep by lia.
    assert (Hti : alen (take (Z.to_nat i) text) = i) by (unfold alen in *; rewrite length_take; lia). rewrite Hti in Hstep. eexists. split; [reflexivity|].
    destruct (Nat.eqb_spec k (length p)) as [->|Hkp].
    + rewrite (proj2 (Z.eqb_eq _ _)) by done. cbn [fst snd]. exists 0%nat, (length (take (Z.to_nat i) text) + 1)%nat. split; [done|exact Hstep].
    + rewrite (proj2 (Z.eqb_neq _ _)) by (unfold alen; lia). cbn [fst snd]. by exists k, b.
  - exists 0%nat, 0%nat. split; [done|]. constructor; [lia|split; [apply longest_nil|done]|constructor|constructor|by left|].
    intros i Hi. destruct (occurs_end _ _ _ Hi) as [He|He]; [|done]. destruct Hi as [Hi _]. change (alen (take (Z.to_nat 0) text)) with 0 in He. unfold alen in He. lia.
  - cbn [mbind option_bind fst snd] in *. exists found. split; [done|]. unfold alen in Hs. rewrite Nat2Z.id, take_ge in Hs by lia. destruct Hs as [_ _ Ho Ha _ Hc]. split; [|split; [exact Ha|exact Hc]].
    eapply Forall_impl; [exact Ho|]. by intros r [? _].
Qed.

Lemma search_finds_matches_witness : exists found, search (bytes_of "aabaabaaabaa") (bytes_of "aabaa") = Some found /\ Forall (occurs (bytes_of "aabaa") (bytes_of "aabaabaaabaa")) found /\
  StronglySorted (fun r r' => r + alen (bytes_of "aabaa") <= r') found /\
  forall i, occurs (bytes_of "aabaa") (bytes_of "aabaabaaabaa") i -> exists r, r ∈ found /\ r <= i < r + alen (bytes_of "aabaa").
Proof. apply search_finds_matches; [repeat constructor; vm_compute; reflexivity|repeat constructor; vm_compute; reflexivity|vm_compute; discriminate]. Defined.

(** The text and the pattern of [main]; and a match that overlaps the one before is passed over. *)
Example search_main : search (bytes_of "acadacaeacadacacadacaeacadacacy") (bytes_of "acadacaeacadacacy") = Some [14].
Proof. vm_compute. reflexivity. Qed.
Example search_overlapping : search (bytes_of "aabaabaaabaa") (bytes_of "aabaa") = Some [0; 7].
Proof. vm_compute. reflexivity. Qed.
(** An empty pattern, and a character of 8 bits, index outside the table. *)
Example search_outside : search (bytes_of "a") [] = None /\ search [char_of 200] (bytes_of "a") = None.
Proof. vm_compute. done. Qed.
