(* ===== verification/Bst.v ===== *)
(** * A binary search tree and its traversals

    Models src/bst.cpp: [insert], the three traversals, of which one is recursive, one uses a
    stack and a mark in every node, and one a stack alone, and [checkBST].  A pointer is the
    node it points to with what is below it, and the nodes carry the addresses [new] gave
    them; the marks, which change while pointers are on the stack, are the set of the
    addresses that have them.  [None] is a traversal that does not end. *)

From Stdlib Require Import ZArith Lia Sorting.
From stdpp Require Import base list sorting gmap.
From S2P Require Import Prelude Loops.

Local Open Scope Z_scope.

(** ** The program *)

Inductive tree := Null | Node (addr : nat) (data : Z) (left right : tree).

(** [insert (&root, v)]; the new node is at [a]. *)
Fixpoint insert (t : tree) (a : nat) (v : Z) : tree :=
  match t with
  | Null => Node a v Null Null
  | Node b d l r => if v <? d then Node b d (insert l a v) r else Node b d l (insert r a v)
  end.

(** The constructor. *)
Fixpoint insert_all (nodes : list Z) (a : nat) (t : tree) : tree :=
  match nodes with [] => t | v :: nodes => insert_all nodes (S a) (insert t a v) end.
Definition BST (nodes : list Z) : tree := insert_all nodes 0 Null.

(** What the traversals print. *)
Fixpoint traverse (t : tree) : list Z :=
  match t with Null => [] | Node _ d l r => traverse l ++ d :: traverse r end.

(** The stack, the nodes that are [accessed], and the output. *)
Definition traverse2_step (s : list tree * gset nat * list Z) : option ((list tree * gset nat * list Z) + (list tree * gset nat * list Z)) :=
  let '(st, accessed, out) := s in
  match st with
  | [] => Some (inr s)
  | Null :: st => Some (inl (st, accessed, out))
  | Node a d l r :: st =>
      if decide (a ∈ accessed) then Some (inl (st, accessed, out ++ [d]))
      else Some (inl (l :: Node a d l r :: r :: st, {[a]} ∪ accessed, out))
  end.
Definition traverse2 (fuel : nat) (t : tree) (accessed : gset nat) : option (gset nat * list Z) :=
  '(_, accessed, out) ← loop fuel traverse2_step ([t], accessed, []);
  Some (accessed, out).

(** [for (p = needp; p != NULL; p = p->left) s.push (p)] *)
Fixpoint push_left (t : tree) (st : list tree) : list tree :=
  match t with Null => st | Node _ _ l _ => push_left l (t :: st) end.
Definition traverse3_step (s : tree * list tree * list Z) : option ((tree * list tree * list Z) + (tree * list tree * list Z)) :=
  let '(needp, st, out) := s in
  match push_left needp st with
  | [] => Some (inr (needp, [], out))
  | Null :: _ => None
  | Node _ d _ r :: st => Some (inl (r, st, out ++ [d]))
  end.
Definition traverse3 (fuel : nat) (t : tree) : option (list Z) :=
  '(_, _, out) ← loop fuel traverse3_step (t, [], []);
  Some out.

(** [isBST]: the result and [*prevp]. *)
Fixpoint isBST (t : tree) (prev : Z) : bool * Z :=
  match t with
  | Null => (true, prev)
  | Node _ d l r =>
      let '(ok, prev) := isBST l prev in
      if negb ok then (false, prev)
      else if d <? prev then (false, prev)
      else isBST r d
  end.
Definition INT_MIN : Z := - 2 ^ 31.
Definition checkBST (t : tree) : bool := (isBST t INT_MIN).1.

(** ** The traversals agree *)

Fixpoint size (t : tree) : nat := match t with Null => 0 | Node _ _ l r => S (size l + size r) end.
Fixpoint addrs (t : tree) : list nat := match t with Null => [] | Node a _ l r => a :: addrs l ++ addrs r end.

(** A stack of [traverse3] stands for the nodes on it with their right subtrees. *)
Fixpoint pending (st : list tree) : list Z :=
  match st with [] => [] | Null :: st => pending st | Node _ d _ r :: st => d :: traverse r ++ pending st end.
Fixpoint pending_size (st : list tree) : nat :=
  match st with [] => 0 | Null :: st => pending_size st | Node _ _ _ r :: st => S (size r) + pending_size st end%nat.
Definition no_null (st : list tree) : Prop := Forall (fun t => t <> Null) st.

Lemma push_left_ok t : forall st, no_null st -> no_null (push_left t st) /\ pending (push_left t st) = traverse t ++ pending st /\
  pending_size (push_left t st) = (size t + pending_size st)%nat.
Proof.
  induction t as [|a d l IHl r _]; intros st Hst; [done|]. cbn [push_left traverse size]. destruct (IHl (Node a d l r :: st)) as (H1 & H2 & H3); [by constructor|].
  split; [done|]. rewrite H2, H3. cbn [pending pending_size]. split; [by rewrite <- app_assoc|lia].
Qed.

Lemma traverse3_ok t : traverse3 (size t + 2) t = Some (traverse t).
Proof.
  unfold traverse3. destruct (loop_ok (fun s => no_null s.1.2 /\ s.2 ++ traverse s.1.1 ++ pending s.1.2 = traverse t)
    (fun s => s.2 = traverse t) (fun s => (size s.1.1 + pending_size s.1.2)%nat) traverse3_step) with (fuel := (size t + 2)%nat) (s := (t, @nil tree, @nil Z)) as ([[n st] out] & -> & H).
  - intros [[n st] out] [Hst Hout]. cbn [fst snd] in *. unfold traverse3_step. destruct (push_left_ok n st Hst) as (H1 & H2 & H3). rewrite <- H2 in Hout. rewrite <- H3.
    destruct (push_left n st) as [|[|a d l r] st']; [eexists; split; [done|]; cbn in *; by rewrite app_nil_r in Hout|by apply Forall_cons in H1 as [? _]|].
    eexists. split; [done|]. cbn [fst snd pending pending_size] in *. apply Forall_cons in H1 as [_ H1]. split; [|lia]. split; [done|]. by rewrite <- app_assoc.
  - cbn. split; [constructor|by rewrite app_nil_r].
  - cbn. lia.
  - cbn [mbind option_bind snd] in *. by rewrite H.
Qed.

(** The rounds [traverse2] spends on a tree. *)
Fixpoint rounds (t : tree) : nat := match t with Null => 1 | Node _ _ l r => 2 + rounds l + rounds r end.

Lemma traverse2_tree t : forall fuel st accessed out, NoDup (addrs t) -> (forall a, a ∈ addrs t -> a ∉ accessed) ->
  exists accessed', (forall a, a ∈ accessed' <-> a ∈ accessed \/ a ∈ addrs t) /\
    loop (rounds t + fuel) traverse2_step (t :: st, accessed, out) = loop fuel traverse2_step (st, accessed', out ++ traverse t).
Proof.
  induction t as [|a d l IHl r IHr]; intros fuel st acc out Hnd Hacc.
  { exists acc. split; [set_solver|]. cbn [rounds Nat.add traverse]. by rewrite app_nil_r. }
  cbn [addrs] in Hnd, Hacc. apply NoDup_cons in Hnd as [Ha (Hl & Hlr & Hr)%NoDup_app].
  destruct (IHl (S (rounds r + fuel)) (Node a d l r :: r :: st) ({[a]} ∪ acc) out Hl) as (acc1 & H1 & E1); [set_solver|].
  destruct (IHr fuel st acc1 (out ++ traverse l ++ [d]) Hr) as (acc2 & H2 & E2); [intros b Hb; rewrite H1; set_solver|].
  exists acc2. split; [intros b; rewrite H2, H1; cbn [addrs]; set_solver|].
  replace (rounds (Node a d l r) + fuel)%nat with (S (rounds l + S (rounds r + fuel))) by (cbn [rounds]; lia).
  assert (loop (S (rounds l + S (rounds r + fuel))) traverse2_step (Node a d l r :: st, acc, out) =
    loop (rounds l + S (rounds r + fuel)) traverse2_step (l :: Node a d l r :: r :: st, {[a]} ∪ acc, out)) as ->
    by (cbn [loop traverse2_step]; rewrite decide_False by set_solver; done).
  rewrite E1. assert (loop (S (rounds r + fuel)) traverse2_step (Node a d l r :: r :: st, acc1, out ++ traverse l) =
    loop (rounds r + fuel) traverse2_step (r :: st, acc1, out ++ traverse l ++ [d])) as ->
    by (cbn [loop traverse2_step]; rewrite decide_True by (apply H1; set_solver); by rewrite app_assoc).
  rewrite E2. cbn [traverse]. by rewrite <- !app_assoc.
Qed.

Lemma traverse2_ok t : NoDup (addrs t) -> exists accessed, (forall a, a ∈ accessed <-> a ∈ addrs t) /\
  traverse2 (rounds t + 1) t ∅ = Some (accessed, traverse t).
Proof.
  intros Hnd. destruct (traverse2_tree t 1 [] ∅ [] Hnd) as (acc & Hacc & E); [set_solver|]. exists acc. split; [set_solver|]. unfold traverse2. by rewrite E.
Qed.

(** The marks stay: a second [traverse2] prints the root and nothing else. *)
Lemma traverse2_again a d l r (accessed : gset nat) : a ∈ accessed -> traverse2 2 (Node a d l r) accessed = Some (accessed, [d]).
Proof. intros Ha. unfold traverse2. cbn [loop traverse2_step]. by rewrite decide_True by done. Qed.

(** ** The tree is a search tree *)

Lemma traverse_insert t a v : traverse (insert t a v) ≡ₚ v :: traverse t.
Proof.
  induction t as [|b d l IHl r IHr]; [done|]. cbn [insert traverse]. destruct (v <? d); cbn [traverse].
  - by rewrite IHl.
  - rewrite IHr, (Permutation_swap v d). symmetry. apply Permutation_middle.
Qed.

Lemma addrs_insert t a v : addrs (insert t a v) ≡ₚ a :: addrs t.
Proof.
  induction t as [|b d l IHl r IHr]; [done|]. cbn [insert addrs]. destruct (v <? d); cbn [addrs].
  - rewrite IHl. apply Permutation_swap.
  - rewrite IHr, <- Permutation_middle. apply Permutation_swap.
Qed.

Lemma sorted_middle (l r : list Z) d : StronglySorted Z.le (l ++ d :: r) <->
  StronglySorted Z.le l /\ StronglySorted Z.le r /\ (forall x, x ∈ l -> x <= d) /\ (forall x, x ∈ r -> d <= x).
Proof.
  split.
  - intros H. pose proof (StronglySorted_app_1_l _ _ _ H) as Hl. pose proof (StronglySorted_app_1_r _ _ _ H) as Hr. apply StronglySorted_inv in Hr as [Hr Hd].
    split; [done|]. split; [done|]. split; [|by apply Forall_forall]. intros x Hx. by eapply (StronglySorted_app_1_elem_of Z.le l (d :: r) x d H); [|left].
  - intros (Hl & Hr & H1 & H2). apply StronglySorted_app_2; [|done|by constructor; [|apply Forall_forall]]. intros x y Hx [->|Hy]%elem_of_cons; [by apply H1|].
    specialize (H1 x Hx). specialize (H2 y Hy). lia.
Qed.

Lemma insert_sorted t a v : StronglySorted Z.le (traverse t) -> StronglySorted Z.le (traverse (insert t a v)).
Proof.
  induction t as [|b d l IHl r IHr]; intros H; [by repeat constructor|]. cbn [traverse] in H. apply sorted_middle in H as (Hl & Hr & H1 & H2). cbn [insert].
  destruct (Z.ltb_spec v d); cbn [traverse]; apply sorted_middle.
  - split; [by apply IHl|]. split; [done|]. split; [|done]. intros x. rewrite traverse_insert, elem_of_cons. intros [->|Hx]; [lia|by apply H1].
  - split; [done|]. split; [by apply IHr|]. split; [done|]. intros x. rewrite traverse_insert, elem_of_cons. intros [->|Hx]; [lia|by apply H2].
Qed.

Lemma insert_all_ok nodes : forall a t, StronglySorted Z.le (traverse t) -> NoDup (addrs t) -> Forall (fun b => b < a)%nat (addrs t) ->
  let t' := insert_all nodes a t in StronglySorted Z.le (traverse t') /\ traverse t' ≡ₚ nodes ++ traverse t /\ NoDup (addrs t').
Proof.
  induction nodes as [|v nodes IH]; intros a t Hs Hnd Ha; [done|]. cbn [insert_all]. destruct (IH (S a) (insert t a v)) as (H1 & H2 & H3).
  - by apply insert_sorted.
  - rewrite addrs_insert. apply NoDup_cons. split; [|done]. rewrite Forall_forall in Ha. intros H%Ha. lia.
  - rewrite addrs_insert. constructor; [lia|]. eapply Forall_impl; [exact Ha|]. cbn. lia.
  - split; [done|]. split; [|done]. rewrite H2, traverse_insert. symmetry. apply Permutation_middle.
Qed.

Lemma last_cons (x y : Z) ys : List.last (y :: ys) x = List.last ys y.
Proof. revert x y. induction ys as [|z ys IH]; intros x y; [done|]. change (List.last (z :: ys) x = List.last (z :: ys) y). by rewrite !IH. Qed.

Lemma last_in (x : Z) xs : List.last xs x ∈ x :: xs.
Proof. revert x. induction xs as [|y xs IH]; intros x; [by left|]. rewrite last_cons. right. apply IH. Qed.

Lemma sorted_last (x : Z) xs : StronglySorted Z.le (x :: xs) -> forall y, y ∈ x :: xs -> y <= List.last xs x.
Proof.
  revert x. induction xs as [|z xs IH]; intros x Hs y Hy; [apply list_elem_of_singleton in Hy; cbn; lia|].
  apply StronglySorted_inv in Hs as [Hs Hx]. rewrite last_cons. apply elem_of_cons in Hy as [->|Hy]; [|by apply IH].
  apply Forall_cons in Hx as [Hx _]. specialize (IH z Hs z (list_elem_of_here _ _)). lia.
Qed.

(** [isBST] decides whether what is printed, after [prev], goes up. *)
Lemma isBST_ok t : forall prev, let '(ok, prev') := isBST t prev in
  (ok = true <-> StronglySorted Z.le (prev :: traverse t)) /\ (ok = true -> prev' = List.last (traverse t) prev).
Proof.
  induction t as [|b d l IHl r IHr]; intros prev; [split; [split; [by repeat constructor|done]|done]|]. cbn [isBST traverse].
  specialize (IHl prev). destruct (isBST l prev) as [[|] p]; destruct IHl as [H1 H2]; cbn [negb].
  - specialize (H2 eq_refl). assert (StronglySorted Z.le (prev :: traverse l)) as Hl by by apply H1.
    assert (Hp : forall x, x ∈ prev :: traverse l -> x <= p) by (subst p; by apply sorted_last).
    destruct (Z.ltb_spec d p).
    + split; [|done]. split; [done|]. intros Hs. exfalso. change (prev :: traverse l ++ d :: traverse r) with ((prev :: traverse l) ++ d :: traverse r) in Hs.
      apply sorted_middle in Hs as (_ & _ & Hs & _). assert (p ∈ prev :: traverse l) as Hin by (subst p; apply last_in). apply Hs in Hin. lia.
    + specialize (IHr d). destruct (isBST r d) as [ok p']. destruct IHr as [H3 H4]. split.
      * rewrite H3. change (prev :: traverse l ++ d :: traverse r) with ((prev :: traverse l) ++ d :: traverse r). rewrite sorted_middle. split.
        -- intros [Hr Hd]%StronglySorted_inv. split; [done|]. split; [done|]. split; [intros x Hx%Hp; lia|by apply Forall_forall].
        -- intros (_ & Hr & _ & Hd). constructor; [done|by apply Forall_forall].
      * intros Hok%H4. rewrite Hok. clear. revert prev. induction (traverse l) as [|x xs IH]; intros prev; cbn [app]; rewrite last_cons; [done|apply IH].
  - split; [|done]. split; [done|]. intros Hs. apply H1. by eapply (StronglySorted_app_1_l _ (prev :: traverse l)).
Qed.

(** [checkBST] answers whether the traversal of the tree is sorted. *)
Lemma checkBST_correct t : Forall (fun d => INT_MIN <= d) (traverse t) -> checkBST t = true <-> StronglySorted Z.le (traverse t).
Proof.
  intros Hmin. unfold checkBST. pose proof (isBST_ok t INT_MIN) as H. destruct (isBST t INT_MIN) as [ok p]. destruct H as [H _]. cbn [fst]. rewrite H. split.
  - by intros [? _]%StronglySorted_inv.
  - intros Hs. by constructor.
Qed.

(** The tree of a vector of [int]s: the three traversals end and print the same, the
    elements of the vector in order, and [checkBST] accepts the tree. *)
Theorem bst_traversals_agree nodes : Forall (fun d => INT_MIN <= d) nodes ->
  let t := BST nodes in
  StronglySorted Z.le (traverse t) /\ traverse t ≡ₚ nodes /\
  snd <$> traverse2 (rounds t + 1) t ∅ = Some (traverse t) /\ traverse3 (size t + 2) t = Some (traverse t) /\ checkBST t = true.
Proof.
  intros Hmin. destruct (insert_all_ok nodes 0 Null) as (Hs & Hp & Hnd); [constructor..|]. fold (BST nodes) in *. cbn zeta. cbn [traverse] in Hp. rewrite app_nil_r in Hp.
  split; [done|]. split; [done|]. split; [|split; [apply traverse3_ok|apply checkBST_correct; by rewrite ?Hp]].
  destruct (traverse2_ok (BST nodes) Hnd) as (acc & _ & ->). done.
Qed.

Lemma bst_traversals_agree_witness : traverse3 10 (BST [5; 3; 9; 6; 10; 4; 2; 7]) = Some [2; 3; 4; 5; 6; 7; 9; 10].
Proof.
  destruct (bst_traversals_agree [5; 3; 9; 6; 10; 4; 2; 7]) as (_ & _ & _ & E & _); [repeat (constructor; [vm_compute; discriminate|]); constructor|].
  vm_compute in E. vm_compute. exact E.
Defined.
