(* ===== verification/SegmentTree.v ===== *)
(** * A segment tree

    Models src/segment_tree.cpp: a tree over the indices of a vector in which every node
    keeps the sum of its interval, so that an update and the sum of a range both walk down
    from the root.  A [Leaf] is a node whose children are [NULL]; [None] is what is undefined
    in the code: a step through such a child, an index outside the vector, or an [int] that
    overflows.  The theorem at the end: under a bound on the elements nothing overflows, and
    the tree answers every query as the vector would. *)

From Stdlib Require Import ZArith Lia.
From stdpp Require Import base list.
From S2P Require Import Prelude.

Local Open Scope Z_scope.

(** ** The program *)

Inductive node := Leaf (val start end_ : Z) | Node (val start end_ : Z) (left right : node).
Definition val (np : node) : Z := match np with Leaf v _ _ => v | Node v _ _ _ _ => v end.
Definition start (np : node) : Z := match np with Leaf _ s _ => s | Node _ s _ _ _ => s end.
Definition end_ (np : node) : Z := match np with Leaf _ _ e => e | Node _ _ e _ _ => e end.

(** [nodes[i]] *)
Definition at_index (nodes : list Z) (i : Z) : option Z := if 0 <=? i then nodes !! Z.to_nat i else None.

(** The recursion halves the interval: its length is fuel enough. *)
Fixpoint createNode (fuel : nat) (nodes : list Z) (s e : Z) : option node :=
  match fuel with
  | O => None
  | S fuel =>
      if s <? e then
        n ← int32 (s + e);
        let mid := Z.quot n 2 in
        l ← createNode fuel nodes s mid;
        r ← createNode fuel nodes (mid + 1) e;
        v ← int32 (val l + val r);
        Some (Node v s e l r)
      else v ← at_index nodes s; Some (Leaf v s e)
  end.

(** The constructor: [nodes.size () - 1] becomes an [int]. *)
Definition SegmentTree (nodes : list Z) : option node :=
  createNode (S (length nodes)) nodes 0 (to_signed 32 (wrap 32 (Z.of_nat (length nodes) - 1))).

(** The node with the new value, and the [delta] that is returned. *)
Fixpoint update_internal (np : node) (i v : Z) : option (node * Z) :=
  if (start np =? end_ np) && (start np =? i) then
    delta ← int32 (v - val np);
    Some (match np with Leaf _ s e => Leaf v s e | Node _ s e l r => Node v s e l r end, delta)
  else
    match np with
    | Leaf _ _ _ => None
    | Node x s e l r =>
        if i <? start r then
          '(l, delta) ← update_internal l i v; x ← int32 (x + delta); Some (Node x s e l r, delta)
        else
          '(r, delta) ← update_internal r i v; x ← int32 (x + delta); Some (Node x s e l r, delta)
    end.
Definition update (np : node) (i v : Z) : option node := '(np, _) ← update_internal np i v; Some np.

Fixpoint sumRange_internal (np : node) (i j : Z) : option Z :=
  if j <? i then Some 0
  else if (start np =? i) && (end_ np =? j) then Some (val np)
  else
    match np with
    | Leaf _ _ _ => None
    | Node _ _ _ l r =>
        if j <? start r then sumRange_internal l i j
        else if end_ l <? i then sumRange_internal r i j
        else
          x ← sumRange_internal l i (end_ l);
          y ← sumRange_internal r (start r) j;
          int32 (x + y)
    end.
Definition sumRange (np : node) (i j : Z) : option Z := sumRange_internal np i j.

(** ** What a tree stands for *)

Definition asum (xs : list Z) : Z := foldr Z.add 0 xs.
Definition len (xs : list Z) : Z := Z.of_nat (length xs).

(** [np] is a tree over the indices from [s], whose elements are [xs]. *)
Fixpoint rep (np : node) (s : Z) (xs : list Z) : Prop :=
  match np with
  | Leaf v a b => xs = [v] /\ a = s /\ b = s
  | Node v a b l r => a = s /\ b = s + len xs - 1 /\ v = asum xs /\
      exists xs1 xs2, xs = xs1 ++ xs2 /\ rep l s xs1 /\ rep r (s + len xs1) xs2
  end.

(** The sum of the elements from [i] to [j]. *)
Definition range_sum (xs : list Z) (i j : Z) : Z := asum (take (Z.to_nat (j - i + 1)) (drop (Z.to_nat i) xs)).

Lemma asum_app xs ys : asum (xs ++ ys) = asum xs + asum ys.
Proof. induction xs as [|x xs IH]; cbn; [done|]. unfold asum in *. lia. Qed.
Lemma len_app xs ys : len (xs ++ ys) = len xs + len ys.
Proof. unfold len. rewrite length_app. lia. Qed.

Lemma rep_fields np s xs : rep np s xs -> start np = s /\ end_ np = s + len xs - 1 /\ val np = asum xs /\ 0 < len xs.
Proof.
  revert s xs. induction np as [v a b|v a b l IHl r IHr]; intros s xs; cbn [rep start end_ val].
  - intros (-> & -> & ->). unfold len. cbn. lia.
  - intros (-> & -> & -> & xs1 & xs2 & -> & H1 & H2). apply IHl in H1. apply IHr in H2. rewrite len_app. lia.
Qed.

Lemma range_sum_all xs : range_sum xs 0 (len xs - 1) = asum xs.
Proof. unfold range_sum, len. rewrite drop_0, take_ge by lia. done. Qed.

Lemma range_sum_left xs ys i j : 0 <= i -> j < len xs -> range_sum (xs ++ ys) i j = range_sum xs i j.
Proof.
  intros Hi Hj. unfold range_sum, len in *. destruct (decide (i <= j)); [|by replace (Z.to_nat (j - i + 1)) with 0%nat by lia].
  rewrite drop_app_le by lia. rewrite take_app_le by (rewrite length_drop; lia). done.
Qed.

Lemma range_sum_right xs ys i j : len xs <= i -> range_sum (xs ++ ys) i j = range_sum ys (i - len xs) (j - len xs).
Proof.
  intros Hi. unfold range_sum, len in *. rewrite drop_app_ge by lia. replace (Z.to_nat i - length xs)%nat with (Z.to_nat (i - Z.of_nat (length xs))) by lia.
  by replace (j - Z.of_nat (length xs) - (i - Z.of_nat (length xs)) + 1) with (j - i + 1) by lia.
Qed.

Lemma range_sum_split xs ys i j : 0 <= i <= len xs -> len xs <= j + 1 ->
  range_sum (xs ++ ys) i j = range_sum xs i (len xs - 1) + range_sum ys 0 (j - len xs).
Proof.
  intros Hi Hj. unfold range_sum, len in *. rewrite drop_app_le by lia. rewrite take_app_ge by (rewrite length_drop; lia). rewrite asum_app, drop_0, length_drop.
  rewrite (take_ge (drop _ xs)) by (rewrite length_drop; lia). do 3 f_equal. lia.
Qed.

(** The elements keep to a bound that their sums can bear. *)
Section Bounded.
Context (B : Z).
Definition bounded (xs : list Z) : Prop := Forall (fun x => - B <= x <= B) xs.

Lemma bounded_sum xs : bounded xs -> - (B * len xs) <= asum xs <= B * len xs.
Proof. unfold bounded, len. induction 1 as [|x xs Hx _ IH]; cbn [asum foldr length] in *; [lia|]. unfold asum in IH. lia. Qed.

Lemma bounded_app xs ys : bounded (xs ++ ys) <-> bounded xs /\ bounded ys.
Proof. apply Forall_app. Qed.

Lemma bounded_range xs i j : bounded xs -> - (B * len xs) <= range_sum xs i j <= B * len xs.
Proof.
  intros H. unfold range_sum. destruct xs as [|x xs]; [rewrite drop_nil, take_nil; unfold len; cbn; lia|].
  assert (0 <= B) by (apply Forall_cons in H as [? _]; lia). revert H. generalize (x :: xs). clear x xs. intros xs H.
  assert (bounded (take (Z.to_nat (j - i + 1)) (drop (Z.to_nat i) xs))) as Hy%bounded_sum by (by apply Forall_take, Forall_drop).
  assert (len (take (Z.to_nat (j - i + 1)) (drop (Z.to_nat i) xs)) <= len xs) by (unfold len; rewrite length_take, length_drop; lia). nia.
Qed.

(** The tree is over [n] elements at most. *)
Context (n : Z) (HB : B * (n + 1) <= 2 ^ 31 - 1) (Hn : n <= 2 ^ 30) (HB0 : 0 <= B).

Lemma sum_fits xs : bounded xs -> len xs <= n -> in_i32 (asum xs).
Proof. intros H%bounded_sum Hl. unfold in_i32. nia. Qed.

Lemma createNode_ok nodes : bounded nodes -> len nodes <= n -> forall fuel s e, 0 <= s <= e -> e < len nodes -> e - s < Z.of_nat fuel ->
  exists np, createNode fuel nodes s e = Some np /\ rep np s (take (Z.to_nat (e - s + 1)) (drop (Z.to_nat s) nodes)).
Proof.
  intros Hb Hl. induction fuel as [|fuel IH]; intros s e Hs He Hf; [lia|]. cbn [createNode]. set (xs := take _ _).
  assert (Hx : len xs = e - s + 1) by (unfold len, xs in *; rewrite length_take, length_drop; lia).
  destruct (Z.ltb_spec s e).
  - rewrite int32_ok by (unfold in_i32; lia). cbn [mbind option_bind]. rewrite Z.quot_div_nonneg by lia.
    assert (Hm : s <= (s + e) / 2 < e) by (split; [apply Z.div_le_lower_bound|apply Z.div_lt_upper_bound]; lia). set (m := (s + e) / 2) in *.
    destruct (IH s m) as (l & -> & Hrl); [lia..|]. destruct (IH (m + 1) e) as (r & -> & Hrr); [lia..|]. cbn [mbind option_bind].
    set (xs1 := take (Z.to_nat (m - s + 1)) (drop (Z.to_nat s) nodes)) in *. set (xs2 := take (Z.to_nat (e - (m + 1) + 1)) (drop (Z.to_nat (m + 1)) nodes)) in *.
    assert (Hsplit : xs = xs1 ++ xs2).
    { unfold xs, xs1, xs2. replace (Z.to_nat (e - s + 1)) with (Z.to_nat (m - s + 1) + Z.to_nat (e - (m + 1) + 1))%nat by lia.
      rewrite <- take_take_drop, drop_drop. do 3 f_equal. lia. }
    apply rep_fields in Hrl as Fl. apply rep_fields in Hrr as Fr. destruct Fl as (_ & F1 & -> & _), Fr as (_ & _ & -> & _).
    assert (bounded xs) by (by apply Forall_take, Forall_drop).
    rewrite <- asum_app, <- Hsplit, int32_ok by (apply sum_fits; [done|lia]). cbn [mbind option_bind]. eexists. split; [done|]. cbn [rep].
    split; [done|]. split; [lia|]. split; [done|]. exists xs1, xs2. split; [done|]. split; [done|].
    assert (len xs1 = m - s + 1) as -> by (unfold len, xs1 in *; rewrite length_take, length_drop; lia). by replace (s + (m - s + 1)) with (m + 1) by lia.
  - assert (s = e) as -> by lia. unfold at_index. destruct (Z.leb_spec 0 e); [|lia]. destruct (lookup_lt_is_Some_2 nodes (Z.to_nat e)) as [v Hv]; [unfold len in *; lia|].
    rewrite Hv. cbn [mbind option_bind]. eexists. split; [done|]. cbn [rep]. split; [|done]. unfold xs. replace (Z.to_nat (e - e + 1)) with 1%nat by lia.
    by rewrite (drop_S _ v) by done.
Qed.

Lemma update_ok np : forall s xs i v old, rep np s xs -> bounded xs -> len xs <= n -> - B <= v <= B -> s <= i -> xs !! Z.to_nat (i - s) = Some old ->
  exists np', update_internal np i v = Some (np', v - old) /\ rep np' s (<[Z.to_nat (i - s) := v]> xs).
Proof.
  induction np as [x a b|x a b l IHl r IHr]; intros s xs i v old Hr Hb Hl Hv Hi Ho; cbn [rep update_internal start end_ val] in *.
  - destruct Hr as (-> & -> & ->). apply lookup_lt_Some in Ho as Hlt. cbn in Hlt. assert (i = s) as -> by lia. rewrite Z.sub_diag in *. change (Some x = Some old) in Ho. simplify_eq.
    rewrite Z.eqb_refl. cbn [andb]. unfold bounded in Hb. apply Forall_cons in Hb as [Hb _]. rewrite int32_ok by (unfold in_i32, len in *; cbn in *; nia). cbn [mbind option_bind]. eexists. split; [reflexivity|]. cbn [rep]. done.
  - destruct Hr as (-> & -> & -> & xs1 & xs2 & -> & H1 & H2). apply rep_fields in H1 as F1. apply rep_fields in H2 as F2. rewrite len_app in *.
    destruct (Z.eqb_spec s (s + (len xs1 + len xs2) - 1)); [lia|]. cbn [andb]. destruct F2 as (-> & _ & _ & F2). apply bounded_app in Hb as [Hb1 Hb2].
    assert (Hins : forall (ys : list Z) k, ys !! k = Some old -> asum (<[k := v]> ys) = asum ys + (v - old)).
    { intros ys. induction ys as [|y ys IH]; intros [|k] Hk; simplify_eq/=; [lia|]. apply IH in Hk. unfold asum in *. lia. }
    assert (Hw : in_i32 (asum (xs1 ++ xs2) + (v - old))).
    { rewrite <- (Hins _ _ Ho). apply sum_fits; [|unfold len in *; rewrite length_insert, length_app; lia]. apply Forall_insert; [|done]. by apply bounded_app. }
    destruct (Z.ltb_spec i (s + len xs1)) as [Hlt|Hge].
    + rewrite lookup_app_l in Ho by (unfold len in *; lia). destruct (IHl s xs1 i v old) as (l' & -> & Hl'); [done || lia..|]. cbn [mbind option_bind].
      rewrite int32_ok by done. cbn [mbind option_bind]. eexists. split; [done|]. cbn [rep]. rewrite insert_app_l by (unfold len in *; lia).
      rewrite len_app. assert (len (<[Z.to_nat (i - s) := v]> xs1) = len xs1) as E by (unfold len; by rewrite length_insert).
      split; [done|]. split; [lia|]. split; [rewrite !asum_app, Hins by done; lia|]. eexists _, _. split; [done|]. split; [done|]. by rewrite E.
    + rewrite lookup_app_r in Ho by (unfold len in *; lia). replace (Z.to_nat (i - s) - length xs1)%nat with (Z.to_nat (i - (s + len xs1))) in Ho by (unfold len in *; lia).
      destruct (IHr (s + len xs1) xs2 i v old) as (r' & -> & Hr'); [done || lia..|]. cbn [mbind option_bind].
      rewrite int32_ok by done. cbn [mbind option_bind]. eexists. split; [done|]. cbn [rep]. rewrite insert_app_r_alt by (unfold len in *; lia).
      replace (Z.to_nat (i - s) - length xs1)%nat with (Z.to_nat (i - (s + len xs1))) by (unfold len in *; lia).
      rewrite len_app. assert (len (<[Z.to_nat (i - (s + len xs1)) := v]> xs2) = len xs2) as E by (unfold len; by rewrite length_insert).
      split; [done|]. split; [lia|]. split; [rewrite !asum_app, Hins by done; lia|]. by eexists _, _.
Qed.

Lemma sumRange_ok np : forall s xs i j, rep np s xs -> bounded xs -> len xs <= n -> s <= i <= j -> j < s + len xs ->
  sumRange_internal np i j = Some (range_sum xs (i - s) (j - s)).
Proof.
  induction np as [x a b|x a b l IHl r IHr]; intros s xs i j Hr Hb Hl Hi Hj; apply rep_fields in Hr as F; cbn [rep sumRange_internal start end_ val] in *;
    (destruct (Z.ltb_spec j i); [lia|]).
  - destruct Hr as (-> & -> & ->). unfold len in Hj. cbn in Hj. assert (i = s /\ j = s) as [-> ->] by lia. rewrite Z.eqb_refl. cbn [andb].
    rewrite Z.sub_diag. change (Some x = Some (x + 0)). f_equal. lia.
  - destruct F as (-> & -> & -> & F). destruct Hr as (_ & _ & _ & xs1 & xs2 & -> & H1 & H2). rewrite len_app in *.
    destruct (rep_fields _ _ _ H1) as (_ & E1 & _ & F1), (rep_fields _ _ _ H2) as (E2 & _ & _ & F2). rewrite E1, E2. apply bounded_app in Hb as [Hb1 Hb2].
    destruct ((s =? i) && (s + (len xs1 + len xs2) - 1 =? j)) eqn:E; [apply andb_true_iff in E as [<-%Z.eqb_eq <-%Z.eqb_eq]; rewrite <- range_sum_all, len_app; do 2 f_equal; lia|].
    destruct (Z.ltb_spec j (s + len xs1)); [rewrite range_sum_left by lia; apply IHl; (done || lia)|].
    destruct (Z.ltb_spec (s + len xs1 - 1) i).
    + rewrite range_sum_right by lia. rewrite (IHr (s + len xs1) xs2) by (done || lia). do 2 f_equal; lia.
    + rewrite (IHl s xs1), (IHr (s + len xs1) xs2) by (done || lia). cbn [mbind option_bind]. rewrite (range_sum_split xs1 xs2) by lia.
      pose proof (bounded_range xs1 (i - s) (s + len xs1 - 1 - s) Hb1). pose proof (bounded_range xs2 (s + len xs1 - (s + len xs1)) (j - (s + len xs1)) Hb2).
      rewrite int32_ok by (unfold in_i32; nia). do 3 f_equal; lia.
Qed.
End Bounded.

(** ** The tree is the vector *)

Inductive op := Update (i v : Z) | Sum (i j : Z).

(** The calls of a client, and the sums they return. *)
Fixpoint calls (np : node) (ops : list op) : option (list Z) :=
  match ops with
  | [] => Some []
  | Update i v :: ops => np ← update np i v; calls np ops
  | Sum i j :: ops => x ← sumRange np i j; xs ← calls np ops; Some (x :: xs)
  end.

(** The same calls on the vector itself. *)
Fixpoint spec (nodes : list Z) (ops : list op) : list Z :=
  match ops with
  | [] => []
  | Update i v :: ops => spec (<[Z.to_nat i := v]> nodes) ops
  | Sum i j :: ops => range_sum nodes i j :: spec nodes ops
  end.

(** Indices of the vector and values within the bound; a range may be empty. *)
Definition legal (B n : Z) (o : op) : Prop :=
  match o with Update i v => 0 <= i < n /\ - B <= v <= B | Sum i j => j < i \/ 0 <= i <= j /\ j < n end.

Lemma calls_ok B n (HB : B * (n + 1) <= 2 ^ 31 - 1) (HB0 : 0 <= B) ops : forall np nodes, rep np 0 nodes -> bounded B nodes -> len nodes = n ->
  Forall (legal B n) ops -> calls np ops = Some (spec nodes ops).
Proof.
  induction ops as [|[i v|i j] ops IH]; intros np nodes Hr Hb Hl Hops; [done|..]; apply Forall_cons in Hops as [Ho Hops]; cbn [calls spec].
  - destruct Ho as [Hi Hv]. destruct (lookup_lt_is_Some_2 nodes (Z.to_nat i)) as [old Hold]; [unfold len in *; lia|].
    unfold update. destruct (update_ok B n HB HB0 np 0 nodes i v old) as (np' & -> & Hr'); [done|done|lia|done|lia|by rewrite Z.sub_0_r|]. cbn [mbind option_bind].
    rewrite Z.sub_0_r in Hr'. apply IH; [done|by apply Forall_insert|by unfold len in *; rewrite length_insert|done].
  - unfold sumRange. assert (sumRange_internal np i j = Some (range_sum nodes i j)) as ->.
    + destruct (Z.lt_ge_cases j i).
      * unfold range_sum. replace (Z.to_nat (j - i + 1)) with 0%nat by lia. destruct np; cbn [sumRange_internal]; destruct (Z.ltb_spec j i); (done || lia).
      * destruct Ho; [lia|]. rewrite (sumRange_ok B n HB HB0 np 0 nodes i j) by (done || lia). by rewrite !Z.sub_0_r.
    + cbn [mbind option_bind]. by rewrite (IH np nodes).
Qed.

(** C19. A tree made from a vector answers every sequence of updates and range sums at indices
    of the vector as the vector would: no call fails and no [int] overflows, as long as the
    elements keep to a bound that one more than all of them can have together. *)
Theorem segment_tree_refines_vector B nodes ops :
  0 <= B -> B * (len nodes + 1) <= 2 ^ 31 - 1 -> 0 < len nodes <= 2 ^ 30 -> bounded B nodes -> Forall (legal B (len nodes)) ops ->
  exists np, SegmentTree nodes = Some np /\ calls np ops = Some (spec nodes ops).
Proof.
  intros HB0 HB Hn Hb Hops. destruct (createNode_ok B (len nodes) HB ltac:(lia) HB0 nodes Hb ltac:(lia) (S (length nodes)) 0 (len nodes - 1)) as (np & E & Hr); [lia|lia|unfold len; lia|].
  exists np. split; [unfold SegmentTree; rewrite to_signed_wrap; [exact E|unfold in_i32, len in *; lia]|].
  apply (calls_ok B (len nodes)); [done..| |done|done|done]. replace (Z.to_nat (len nodes - 1 - 0 + 1)) with (length nodes) in Hr by (unfold len; lia).
  by rewrite drop_0, take_ge in Hr by lia.
Qed.

Lemma segment_tree_refines_vector_witness : exists np, SegmentTree [5; 3; 9; 6; 10; 4; 2; 7; 12; 15] = Some np /\
  calls np [Sum 1 8; Update 5 14; Sum 1 8; Sum 4 3] = Some [53; 63; 0].
Proof.
  apply (segment_tree_refines_vector 1000 [5; 3; 9; 6; 10; 4; 2; 7; 12; 15] [Sum 1 8; Update 5 14; Sum 1 8; Sum 4 3]); [lia|vm_compute; discriminate|vm_compute; split; [done|discriminate]| |];
    repeat (constructor; [cbn; vm_compute; intuition discriminate|]); constructor.
Defined.

(** An index outside the vector steps through a child that is [NULL], and so does the tree of
    no elements, whose constructor reads past the end of the vector. *)
Example outside_is_undefined : (np ← SegmentTree [1; 2; 3]; update np 3 0) = None /\ (np ← SegmentTree [1; 2; 3]; sumRange np 1 3) = None /\ SegmentTree [] = None.
Proof. by vm_compute. Qed.
