(* ===== verification/Lru.v ===== *)
(** * A cache that forgets the least recently used key

    Models src/lru.cpp: a map from keys to nodes, and a circular doubly linked list through
    the nodes, the most recently used first.  The nodes are cells of a memory, so that the
    writes of [promote] and [remove_from_list] are those of the code, in its order and through
    its aliases; [None] is a read or a write of a cell that is not allocated.  The theorem at
    the end: the program is a list of at most [MAX_CACHE_SIZE] entries in the order of their
    last use, and it never touches a node it has deleted or leaves one behind. *)

From Stdlib Require Import ZArith Lia.
From stdpp Require Import base list gmap infinite.
From S2P Require Import Prelude.

Local Open Scope Z_scope.

(** ** The program *)

(** The address of a cell is a number. *)
Record node := MkNode { key : Z; val : Z; prev : nat; next : nat }.

Definition MAX_CACHE_SIZE : Z := 5.

(** [&head] *)
Definition head : nat := 0%nat.

Record state := MkState { nodes : gmap nat node; cache : gmap Z nat }.

Definition list_init : state := MkState {[ head := MkNode 0 0 head head ]} ∅.

(** [new Node] gives a cell that is not in use. *)
Definition new_node (m : gmap nat node) (k v : Z) : gmap nat node * nat :=
  let np := fresh (dom m) in (<[np := MkNode k v np np]> m, np).

Definition find (s : state) (k : Z) : option nat := cache s !! k.

(** [a->prev = x], [a->next = x] and [a->val = x] *)
Definition set_prev (m : gmap nat node) (a x : nat) : option (gmap nat node) := c ← m !! a; Some (<[a := MkNode (key c) (val c) x (next c)]> m).
Definition set_next (m : gmap nat node) (a x : nat) : option (gmap nat node) := c ← m !! a; Some (<[a := MkNode (key c) (val c) (prev c) x]> m).
Definition set_val (m : gmap nat node) (a : nat) (x : Z) : option (gmap nat node) := c ← m !! a; Some (<[a := MkNode (key c) x (prev c) (next c)]> m).

Definition remove_from_list (m : gmap nat node) (a : nat) : option (gmap nat node) :=
  c ← m !! a; m ← set_next m (prev c) (next c);
  c ← m !! a; set_prev m (next c) (prev c).

Definition promote (m : gmap nat node) (a : nat) : option (gmap nat node) :=
  c ← m !! a;
  m ← (if bool_decide (prev c <> a) && bool_decide (next c <> a) then remove_from_list m a else Some m);
  h ← m !! head; m ← set_next m a (next h);
  m ← set_prev m a head;
  c ← m !! a; m ← set_next m (prev c) a;
  c ← m !! a; set_prev m (next c) a.

(** The eviction of [set]. *)
Definition evict (s : state) : option state :=
  h ← nodes s !! head;
  let tmp := prev h in
  m ← remove_from_list (nodes s) tmp;
  c ← m !! tmp;
  Some (MkState (base.delete tmp m) (base.delete (key c) (cache s))).

Definition set (s : state) (k v : Z) : option state :=
  match find s k with
  | None =>
      let '(m, np) := new_node (nodes s) k v in
      let s := MkState m (cache s) in
      s ← (if MAX_CACHE_SIZE <=? Z.of_nat (size (cache s)) then evict s else Some s);
      let s := MkState (nodes s) (<[k := np]> (cache s)) in
      m ← promote (nodes s) np;
      Some (MkState m (cache s))
  | Some np =>
      m ← set_val (nodes s) np v;
      m ← promote m np;
      Some (MkState m (cache s))
  end.

Definition get (s : state) (k : Z) : option (state * option nat) :=
  match find s k with
  | Some np => m ← promote (nodes s) np; Some (MkState m (cache s), Some np)
  | None => Some (s, None)
  end.

(** [for (np = head.next; np != &head; np = np->next)], which prints the entries. *)
Fixpoint status (fuel : nat) (m : gmap nat node) (np : nat) : option (list (Z * Z)) :=
  match fuel with
  | O => None
  | S fuel =>
      if decide (np = head) then Some []
      else c ← m !! np; l ← status fuel m (next c); Some ((key c, val c) :: l)
  end.

Inductive command := Get (k : Z) | Set_ (k v : Z).

(** A round of [main]: the node that [get] prints, and the status. *)
Definition round (s : state) (c : command) : option (state * (option (Z * Z) * list (Z * Z))) :=
  '(s, out) ←
    match c with
    | Get k =>
        '(s, np) ← get s k;
        match np with Some np => c ← nodes s !! np; Some (s, Some (key c, val c)) | None => Some (s, None) end
    | Set_ k v => s ← set s k v; Some (s, None)
    end;
  h ← nodes s !! head;
  l ← status (S (size (nodes s))) (nodes s) (next h);
  Some (s, (out, l)).

Fixpoint main (s : state) (cs : list command) : option (list (option (Z * Z) * list (Z * Z))) :=
  match cs with [] => Some [] | c :: cs => '(s, o) ← round s c; os ← main s cs; Some (o :: os) end.

(** ** The list through the nodes *)

(** [x->next] is [y] and [y->prev] is [x]. *)
Definition link (m : gmap nat node) (x y : nat) : Prop := next <$> m !! x = Some y /\ prev <$> m !! y = Some x.
Fixpoint chain (m : gmap nat node) (l : list nat) : Prop :=
  match l with
  | x :: (y :: _) as l => link m x y /\ chain m l
  | _ => True
  end.

(** What the cells hold, whatever the links. *)
Definition entry (m : gmap nat node) (a : nat) : option (Z * Z) := (fun c => (key c, val c)) <$> m !! a.

Lemma lru_chain_app m l x r : chain m (l ++ x :: r) <-> chain m (l ++ [x]) /\ chain m (x :: r).
Proof.
  induction l as [|y l IH]; [cbn; tauto|]. destruct l as [|z l]; [cbn; tauto|]. change (link m y z /\ chain m ((z :: l) ++ x :: r) <-> (link m y z /\ chain m ((z :: l) ++ [x])) /\ chain m (x :: r)).
  rewrite IH. tauto.
Qed.

(** A write of a link leaves the others, the entries and the set of the cells as they are. *)
Lemma set_next_spec m a x : is_Some (m !! a) -> exists m', set_next m a x = Some m' /\ next <$> m' !! a = Some x /\
  (forall b, b <> a -> next <$> m' !! b = next <$> m !! b) /\ (forall b, prev <$> m' !! b = prev <$> m !! b) /\
  (forall b, entry m' b = entry m b) /\ dom m' = dom m.
Proof.
  intros [c Hc]. unfold set_next. rewrite Hc. eexists. split; [done|]. split; [by rewrite lookup_insert_eq|]. split; [intros b Hb; by rewrite lookup_insert_ne by done|].
  split; [intros b; destruct (decide (a = b)) as [<-|]; [by rewrite lookup_insert_eq, Hc|by rewrite lookup_insert_ne by done]|].
  split; [intros b; unfold entry; destruct (decide (a = b)) as [<-|]; [by rewrite lookup_insert_eq, Hc|by rewrite lookup_insert_ne by done]|].
  rewrite dom_insert_L. apply elem_of_dom_2 in Hc. set_solver.
Qed.

Lemma set_prev_spec m a x : is_Some (m !! a) -> exists m', set_prev m a x = Some m' /\ prev <$> m' !! a = Some x /\
  (forall b, b <> a -> prev <$> m' !! b = prev <$> m !! b) /\ (forall b, next <$> m' !! b = next <$> m !! b) /\
  (forall b, entry m' b = entry m b) /\ dom m' = dom m.
Proof.
  intros [c Hc]. unfold set_prev. rewrite Hc. eexists. split; [done|]. split; [by rewrite lookup_insert_eq|]. split; [intros b Hb; by rewrite lookup_insert_ne by done|].
  split; [intros b; destruct (decide (a = b)) as [<-|]; [by rewrite lookup_insert_eq, Hc|by rewrite lookup_insert_ne by done]|].
  split; [intros b; unfold entry; destruct (decide (a = b)) as [<-|]; [by rewrite lookup_insert_eq, Hc|by rewrite lookup_insert_ne by done]|].
  rewrite dom_insert_L. apply elem_of_dom_2 in Hc. set_solver.
Qed.

Lemma chain_frame m m' l : chain m l -> (forall x, x ∈ removelast l -> next <$> m' !! x = next <$> m !! x) ->
  (forall y, y ∈ tail l -> prev <$> m' !! y = prev <$> m !! y) -> chain m' l.
Proof.
  induction l as [|x [|y l] IH]; [done..|]. intros [[H1 H2] H] Hn Hp. split.
  - split; [rewrite Hn; [done|by left]|rewrite Hp; [done|by left]].
  - apply IH; [done|intros z Hz; apply Hn; by right|]. intros z Hz. apply Hp. by right.
Qed.

Lemma some_next (m : gmap nat node) a x : next <$> m !! a = Some x -> exists c, m !! a = Some c /\ next c = x.
Proof. intros (c & Hc & ->)%fmap_Some. by exists c. Qed.

(** The cells and what they hold, whatever the links. *)
Definition same (m m' : gmap nat node) : Prop := (forall a, entry m' a = entry m a) /\ dom m' = dom m.
Lemma same_trans m1 m2 m3 : same m1 m2 -> same m2 m3 -> same m1 m3.
Proof. intros [H1 H2] [H3 H4]. split; [intros a; by rewrite H3|by rewrite H4]. Qed.
Lemma in_dom (m : gmap nat node) a x : next <$> m !! a = Some x -> is_Some (m !! a).
Proof. intros (c & Hc & _)%fmap_Some. by exists c. Qed.

(** The first and the last of a list with one more element. *)
Lemma lru_split_last (x : nat) xs : exists ps p, x :: xs = ps ++ [p].
Proof. revert x. induction xs as [|y xs IH]; intros x; [by exists [], x|]. destruct (IH y) as (ps & p & ->). by exists (x :: ps), p. Qed.
Lemma lru_split_first (x : nat) xs : exists n ns, xs ++ [x] = n :: ns.
Proof. destruct xs as [|y xs]; cbn; eauto. Qed.

Lemma remove_spec m xs b ys : chain m (head :: xs ++ b :: ys ++ [head]) -> NoDup (head :: xs ++ b :: ys) ->
  exists m', remove_from_list m b = Some m' /\ chain m' (head :: xs ++ ys ++ [head]) /\ same m m' /\
    (forall x, x ∉ head :: ys -> prev <$> m' !! x = prev <$> m !! x).
Proof.
  intros Hc Hnd. destruct (lru_split_last head xs) as (ps & p & Ep). destruct (lru_split_first head ys) as (n & ns & En).
  rewrite app_comm_cons, Ep, En in Hc. rewrite app_comm_cons, Ep. rewrite En. rewrite <- app_assoc in Hc |- *. cbn [app] in Hc |- *.
  apply lru_chain_app in Hc as [C1 [[Pb Bp] [[Bn Nb] C2]]].
  assert (Hbp : b <> p /\ (p ∉ ps) /\ (p ∉ ys) /\ (n ∉ xs) /\ (n ∉ ns)).
  { pose proof Hnd as Hnd'. rewrite app_comm_cons, Ep in Hnd'. apply NoDup_cons in Hnd as [Hh Hnd]. rewrite <- app_assoc in Hnd'. cbn [app] in Hnd'.
    apply NoDup_app in Hnd as (_ & Hd & Hnd). apply NoDup_app in Hnd' as (_ & Hd' & Hnd'). apply NoDup_cons in Hnd' as [Hp _].
    assert (Hin : n ∈ ys ++ [head]) by (rewrite En; by left). assert (Hy : NoDup (ys ++ [head])).
    { apply NoDup_app. apply NoDup_cons in Hnd as [_ Hnd]. split; [done|]. split; [set_solver|apply NoDup_singleton]. }
    rewrite En in Hy. apply NoDup_cons in Hy as [Hy _]. set_solver. }
  destruct Hbp as (Hbp & Hps & Hpy & Hnx & Hnn). unfold remove_from_list.
  destruct (some_next _ _ _ Bn) as (c & Ec & <-). rewrite Ec in Bp |- *. cbn in Bp. injection Bp as <-. cbn [mbind option_bind].
  destruct (set_next_spec m (prev c) (next c)) as (m1 & -> & N1 & N1' & P1 & E1 & D1); [by eapply in_dom|]. cbn [mbind option_bind].
  destruct (some_next m1 b (next c)) as (c1 & Ec1 & Hn1); [by rewrite N1', Ec|]. rewrite Ec1. cbn [mbind option_bind].
  assert (prev c1 = prev c) as -> by (specialize (P1 b); rewrite Ec, Ec1 in P1; cbn in P1; congruence). rewrite Hn1.
  destruct (set_prev_spec m1 (next c) (prev c)) as (m2 & -> & P2 & P2' & N2 & E2 & D2).
  { apply elem_of_dom. rewrite D1. apply elem_of_dom. apply fmap_Some in Nb as (c2 & Hc2 & _). by exists c2. }
  eexists. split; [done|]. split; [|split; [split; [intros a; by rewrite E2|by rewrite D2]|]].
  2: { intros x Hx. rewrite P2'; [apply P1|]. intros ->. assert (next c ∈ ys ++ [head]) by (rewrite En; by left). set_solver. }
  apply lru_chain_app. split; [|split; [split; [by rewrite N2|done]|]].
  - eapply chain_frame; [exact C1|..].
    + intros x Hx. rewrite removelast_last in Hx. rewrite N2. apply N1'. intros ->. done.
    + intros y Hy. rewrite <- Ep in Hy. cbn in Hy. rewrite P2' by (intros ->; done). apply P1.
  - eapply chain_frame; [exact C2|..].
    + intros x Hx. rewrite <- En, removelast_last in Hx. rewrite N2. apply N1'. intros ->. done.
    + intros y Hy. cbn in Hy. rewrite P2' by (intros ->; done). apply P1.
Qed.

(** The writes that put a node in the front. *)
Definition to_front (m : gmap nat node) (a : nat) : option (gmap nat node) :=
  h ← m !! head; m ← set_next m a (next h);
  m ← set_prev m a head;
  c ← m !! a; m ← set_next m (prev c) a;
  c ← m !! a; set_prev m (next c) a.

Lemma to_front_spec m xs b : chain m (head :: xs ++ [head]) -> NoDup (head :: xs) -> b ∉ head :: xs -> is_Some (m !! b) ->
  exists m', to_front m b = Some m' /\ chain m' (head :: b :: xs ++ [head]) /\ same m m'.
Proof.
  intros Hc Hnd Hb Hbd. destruct (lru_split_first head xs) as (n & ns & En). rewrite En in Hc |- *. destruct Hc as [[Hn Nh] C].
  assert (Hy : NoDup (xs ++ [head])). { apply NoDup_cons in Hnd as [Hh Hnd]. apply NoDup_app. split; [done|]. split; [set_solver|apply NoDup_singleton]. }
  assert (Hbn : b <> head /\ b <> n). { assert (n ∈ xs ++ [head]) by (rewrite En; by left). set_solver. }
  rewrite En in Hy. apply NoDup_cons in Hy as [Hnn _]. destruct Hbn as [Hbh Hbn]. unfold to_front.
  destruct (some_next _ _ _ Hn) as (h & Eh & <-). rewrite Eh. cbn [mbind option_bind].
  destruct (set_next_spec m b (next h) Hbd) as (m1 & -> & N1 & N1' & P1 & E1 & D1). cbn [mbind option_bind].
  destruct (set_prev_spec m1 b head) as (m2 & -> & P2 & P2' & N2 & E2 & D2); [by eapply in_dom|]. cbn [mbind option_bind].
  destruct (some_next m2 b (next h)) as (c2 & Ec2 & Hc2); [by rewrite N2|]. rewrite Ec2 in P2 |- *. injection P2 as P2. cbn [mbind option_bind]. rewrite P2.
  destruct (set_next_spec m2 head b) as (m3 & -> & N3 & N3' & P3 & E3 & D3); [apply elem_of_dom; rewrite D2, D1; by apply elem_of_dom|]. cbn [mbind option_bind].
  destruct (some_next m3 b (next h)) as (c3 & Ec3 & Hc3); [by rewrite N3', Ec2, <- Hc2|]. rewrite Ec3. cbn [mbind option_bind]. rewrite Hc3.
  destruct (set_prev_spec m3 (next h) b) as (m4 & -> & P4 & P4' & N4 & E4 & D4).
  { apply elem_of_dom. rewrite D3, D2, D1. apply elem_of_dom. apply fmap_Some in Nh as (c & Hc & _). by exists c. }
  eexists. split; [done|]. split; [|split; [intros a; by rewrite E4, E3, E2|by rewrite D4, D3, D2]].
  split; [|split].
  - split; [by rewrite N4|]. rewrite P4' by done. by rewrite P3, Ec2, <- P2.
  - split; [|done]. by rewrite N4, Ec3, <- Hc3.
  - eapply chain_frame; [exact C|..].
    + intros x Hx. rewrite <- En, removelast_last in Hx. apply NoDup_cons in Hnd as [Hh _].
      rewrite N4, N3', N2, N1'; [done|intros ->; set_solver|intros ->; done].
    + intros y Hy. cbn in Hy. assert (y ∈ xs ++ [head]) by (rewrite En; by right).
      rewrite P4' by (intros ->; done). rewrite P3, P2' by set_solver. apply P1.
Qed.

(** [promote] of a node in the list, and of one that is new. *)
Lemma promote_old m xs b ys : chain m (head :: xs ++ b :: ys ++ [head]) -> NoDup (head :: xs ++ b :: ys) ->
  exists m', promote m b = Some m' /\ chain m' (head :: b :: (xs ++ ys) ++ [head]) /\ same m m'.
Proof.
  intros Hc Hnd. destruct (remove_spec m xs b ys Hc Hnd) as (m1 & E1 & C1 & S1 & _).
  assert (Hb : (b ∉ head :: xs ++ ys) /\ NoDup (head :: xs ++ ys)).
  { rewrite app_comm_cons in Hnd |- *. rewrite <- Permutation_middle in Hnd. by apply NoDup_cons in Hnd as [? ?]. }
  assert (exists c, m !! b = Some c /\ prev c <> b /\ next c <> b) as (c & Ec & Hp & Hn).
  { destruct (lru_split_last head xs) as (ps & p & Ep). destruct (lru_split_first head ys) as (n & ns & En).
    rewrite app_comm_cons, Ep, En in Hc. rewrite <- app_assoc in Hc. apply lru_chain_app in Hc as [_ [[_ Bp] [[Bn _] _]]].
    destruct (some_next _ _ _ Bn) as (c & Ec & <-). exists c. split; [done|]. rewrite Ec in Bp. injection Bp as Bp.
    assert (p ∈ head :: xs) by (rewrite Ep; set_solver). assert (next c ∈ ys ++ [head]) by (rewrite En; by left). split; intros E; set_solver. }
  destruct Hb as [Hb Hnd1]. unfold promote. rewrite Ec. cbn [mbind option_bind]. rewrite !bool_decide_true by done. cbn [andb]. rewrite E1. cbn [mbind option_bind]. fold (to_front m1 b).
  rewrite app_assoc in C1. destruct (to_front_spec m1 (xs ++ ys) b C1 Hnd1 Hb) as (m2 & -> & C2 & S2).
  { apply elem_of_dom. destruct S1 as [_ ->]. by eapply elem_of_dom_2. }
  exists m2. split; [done|]. split; [done|by eapply same_trans].
Qed.

Lemma promote_new m xs b c : chain m (head :: xs ++ [head]) -> NoDup (head :: xs) -> b ∉ head :: xs -> m !! b = Some c -> prev c = b ->
  exists m', promote m b = Some m' /\ chain m' (head :: b :: xs ++ [head]) /\ same m m'.
Proof.
  intros Hc Hnd Hb Ec Hp. unfold promote. rewrite Ec. cbn [mbind option_bind]. rewrite bool_decide_false by (intros H; by apply H). cbn [andb mbind option_bind].
  fold (to_front m b). apply to_front_spec; [done..|by exists c].
Qed.

(** ** The cache is a list in the order of the last use *)

(** The entries with their nodes, the most recently used first. *)
Record inv (s : state) (es : list (nat * (Z * Z))) : Prop := {
  inv_chain : chain (nodes s) (head :: es.*1 ++ [head]);
  inv_nodup : NoDup (head :: es.*1);
  inv_dom : dom (nodes s) = list_to_set (head :: es.*1);
  inv_entry : Forall (fun e => entry (nodes s) e.1 = Some e.2) es;
  inv_keys : NoDup es.*2.*1;
  inv_cache : cache s = list_to_map ((fun e => (e.2.1, e.1)) <$> es);
  inv_size : (length es <= 5)%nat
}.

Lemma index_keys (es : list (nat * (Z * Z))) : ((fun e => (e.2.1, e.1)) <$> es).*1 = es.*2.*1.
Proof. rewrite <- !list_fmap_compose. done. Qed.

Lemma find_Some s es k a : inv s es -> find s k = Some a -> exists es1 v es2, es = es1 ++ (a, (k, v)) :: es2.
Proof.
  intros I. unfold find. rewrite (inv_cache _ _ I), <- elem_of_list_to_map by (rewrite index_keys; apply I).
  intros ([a' [k' v]] & [= -> ->] & (es1 & es2 & ->)%list_elem_of_split)%list_elem_of_fmap. eauto.
Qed.

Lemma find_None s es k : inv s es -> find s k = None -> k ∉ es.*2.*1.
Proof. intros I. unfold find. rewrite (inv_cache _ _ I). intros H%not_elem_of_list_to_map. by rewrite index_keys in H. Qed.

Lemma NoDup_keys_perm (es es' : list (nat * (Z * Z))) : es ≡ₚ es' -> NoDup es.*2.*1 -> NoDup es'.*2.*1.
Proof. intros H Hn. by rewrite <- H. Qed.

(** The parts of the invariant that no link touches go with every permutation. *)
Lemma inv_reorder s es es' m : inv s es -> es ≡ₚ es' -> same (nodes s) m -> chain m (head :: es'.*1 ++ [head]) -> inv (MkState m (cache s)) es'.
Proof.
  intros [C N D E K Ca L] P [Hs Hd] C'. split; cbn [nodes cache].
  - done.
  - by rewrite <- P.
  - rewrite Hd, D. apply set_eq. intros x. rewrite !elem_of_list_to_set. by rewrite P.
  - rewrite <- P. eapply Forall_impl; [exact E|]. intros e He. by rewrite Hs.
  - by rewrite <- P.
  - rewrite Ca. apply list_to_map_proper; [by rewrite index_keys|by rewrite P].
  - by rewrite <- P.
Qed.

Lemma inv_promote s es1 e es2 : inv s (es1 ++ e :: es2) -> exists m, promote (nodes s) e.1 = Some m /\ inv (MkState m (cache s)) (e :: es1 ++ es2).
Proof.
  intros I. pose proof (inv_chain _ _ I) as C. pose proof (inv_nodup _ _ I) as N. rewrite fmap_app, fmap_cons in C, N. rewrite <- app_assoc in C.
  destruct (promote_old _ _ _ _ C N) as (m & E & C' & S). exists m. split; [done|]. eapply inv_reorder; [exact I|symmetry; apply Permutation_middle|done|].
  rewrite fmap_cons, fmap_app. done.
Qed.

(** [node->val = val] *)
Lemma inv_set_val s es1 a k v0 es2 v : inv s (es1 ++ (a, (k, v0)) :: es2) ->
  exists m, set_val (nodes s) a v = Some m /\ inv (MkState m (cache s)) (es1 ++ (a, (k, v)) :: es2).
Proof.
  intros [C N D E K Ca L]. pose proof (proj1 (Forall_app _ _ _) E) as [E1 [Ea E2]%Forall_cons]. cbn [fst snd] in Ea.
  unfold entry in Ea. apply fmap_Some in Ea as (c & Hc & [= Ek Ev]). unfold set_val. rewrite Hc. eexists. split; [done|].
  assert (Hother : forall e, e ∈ es1 ++ es2 -> e.1 <> a).
  { intros e He Hx. apply NoDup_cons in N as [_ N]. rewrite fmap_app, fmap_cons, <- Permutation_middle in N. apply NoDup_cons in N as [N _]. apply N. cbn [fst]. rewrite <- Hx, <- fmap_app. apply (list_elem_of_fmap_2 fst), He. }
  split; cbn [nodes cache].
  - rewrite fmap_app, fmap_cons in C |- *. cbn [fst] in *. eapply chain_frame; [exact C|..]; intros x _; (destruct (decide (a = x)) as [<-|]; [by rewrite lookup_insert_eq, Hc|by rewrite lookup_insert_ne by done]).
  - by rewrite fmap_app, fmap_cons in N |- *.
  - rewrite fmap_app, fmap_cons in D |- *. cbn [fst] in *. rewrite dom_insert_L, <- D. apply elem_of_dom_2 in Hc. set_solver.
  - assert (Hk : forall e, e ∈ es1 ++ es2 -> entry (nodes s) e.1 = Some e.2 -> entry (<[a := MkNode (key c) v (prev c) (next c)]> (nodes s)) e.1 = Some e.2).
    { intros e He. unfold entry. rewrite lookup_insert_ne; [done|]. intros Hx. by apply (Hother e). }
    rewrite Forall_forall in E1, E2. apply Forall_app. split; [|constructor]; [|cbn; unfold entry; rewrite lookup_insert_eq; cbn; congruence|];
      apply Forall_forall; intros e He; apply Hk; set_solver.
  - rewrite !fmap_app, !fmap_cons in K |- *. done.
  - rewrite Ca, !fmap_app, !fmap_cons. done.
  - by rewrite length_app in L |- *.
Qed.

Lemma status_ok m es : forall fuel, (length es < fuel)%nat -> NoDup (head :: es.*1) -> Forall (fun e => entry m e.1 = Some e.2) es -> forall a, chain m (a :: es.*1 ++ [head]) ->
  exists c, m !! a = Some c /\ status fuel m (next c) = Some es.*2.
Proof.
  induction es as [|[b [k v]] es IH]; intros [|fuel] Hf N E a C; try (cbn in Hf; lia).
  - destruct C as [[Hn _] _]. destruct (some_next _ _ _ Hn) as (c & Ec & En). exists c. split; [done|]. by rewrite En.
  - destruct C as [[Hn _] C]. destruct (some_next _ _ _ Hn) as (c & Ec & En). exists c. split; [done|]. rewrite En. cbn [fst]. apply Forall_cons in E as [Eb E].
    rewrite fmap_cons in N. cbn [fst] in N. apply NoDup_cons in N as [Nh N]. apply NoDup_cons in N as [Nb N].
    destruct (IH fuel) with (a := b) as (cb & Hcb & Hs); [cbn in Hf; lia| |done|done|]. { apply NoDup_cons. split; [set_solver|done]. }
    cbn [status]. rewrite decide_False by set_solver. rewrite Hcb. cbn [mbind option_bind]. rewrite Hs. cbn [mbind option_bind].
    unfold entry in Eb. cbn [fst] in Eb. rewrite Hcb in Eb. injection Eb as -> ->. done.
Qed.

(** The cell that [new_node] makes is in no list. *)
Lemma new_node_ok s es k v : inv s es -> let '(m, np) := new_node (nodes s) k v in
  m !! np = Some (MkNode k v np np) /\ (np ∉ head :: es.*1) /\ dom m = {[np]} ∪ dom (nodes s) /\ chain m (head :: es.*1 ++ [head]) /\
  Forall (fun e => entry m e.1 = Some e.2) es.
Proof.
  intros [C N D E K Ca L]. unfold new_node. set (np := fresh _). assert (Hnp : np ∉ dom (nodes s)) by apply is_fresh. rewrite D, elem_of_list_to_set in Hnp.
  split; [by rewrite lookup_insert_eq|]. split; [done|]. split; [by rewrite dom_insert_L|]. split.
  - eapply chain_frame; [exact C|..]; intros x Hx; rewrite lookup_insert_ne; [done| |done|]; intros <-; apply Hnp.
    + by rewrite app_comm_cons, removelast_last in Hx.
    + cbn in Hx. set_solver.
  - apply Forall_forall. intros e He. unfold entry. rewrite lookup_insert_ne; [by eapply Forall_forall in E|]. intros ->. apply Hnp. right. by apply list_elem_of_fmap_2.
Qed.

(** The eviction takes the last entry, its key and its cell. *)
Lemma evict_ok m ca es1 t kt vt np : chain m (head :: (es1 ++ [(t, (kt, vt))]).*1 ++ [head]) -> NoDup (head :: (es1 ++ [(t, (kt, vt))]).*1) ->
  Forall (fun e => entry m e.1 = Some e.2) (es1 ++ [(t, (kt, vt))]) -> np ∉ head :: (es1 ++ [(t, (kt, vt))]).*1 ->
  exists m', evict (MkState m ca) = Some (MkState m' (base.delete kt ca)) /\ chain m' (head :: es1.*1 ++ [head]) /\ dom m' = dom m ∖ {[t]} /\
    Forall (fun e => entry m' e.1 = Some e.2) es1 /\ prev <$> m' !! np = prev <$> m !! np /\ entry m' np = entry m np.
Proof.
  rewrite fmap_app. cbn [fmap list_fmap fst]. rewrite <- app_assoc. cbn [app]. intros C N E Hnp. unfold evict. cbn [nodes cache].
  assert (prev <$> m !! head = Some t) as (h & -> & Hh)%fmap_Some by (rewrite app_comm_cons in C; by apply lru_chain_app in C as [_ [[_ ?] _]]).
  cbn [mbind option_bind]. rewrite <- Hh. destruct (remove_spec m es1.*1 t [] C N) as (m1 & -> & C1 & [S1 D1] & P1). cbn [mbind option_bind app] in *.
  apply Forall_app in E as [E1 [Et _]%Forall_cons]. cbn [fst snd] in Et. rewrite <- S1 in Et. apply fmap_Some in Et as (c & -> & [= Hk Hv]). cbn [mbind option_bind]. rewrite <- Hk.
  assert (Ht : t ∉ head :: es1.*1) by (rewrite app_comm_cons in N; apply NoDup_app in N as (_ & N & _); set_solver).
  eexists. split; [done|]. split.
  - eapply chain_frame; [exact C1|..]; intros x Hx; rewrite lookup_delete_ne; [done| |done|]; intros <-; apply Ht.
    + by rewrite app_comm_cons, removelast_last in Hx.
    + cbn in Hx. set_solver.
  - split; [by rewrite dom_delete_L, D1|]. unfold entry in *. split; [|rewrite lookup_delete_ne by set_solver; split; [apply P1; set_solver|apply S1]].
    apply Forall_forall. intros e He. rewrite lookup_delete_ne; [rewrite S1; by eapply Forall_forall in E1|]. intros ->. apply Ht. right. by apply list_elem_of_fmap_2.
Qed.

(** The new node goes in front of what is left. *)
Lemma inv_new m ca es np k v : chain m (head :: es.*1 ++ [head]) -> NoDup (head :: es.*1) -> np ∉ head :: es.*1 ->
  prev <$> m !! np = Some np -> entry m np = Some (k, v) -> dom m = {[np]} ∪ list_to_set (head :: es.*1) ->
  Forall (fun e => entry m e.1 = Some e.2) es -> k ∉ es.*2.*1 -> NoDup es.*2.*1 -> ca = list_to_map ((fun e => (e.2.1, e.1)) <$> es) -> (length es < 5)%nat ->
  exists m', promote m np = Some m' /\ inv (MkState m' (<[k := np]> ca)) ((np, (k, v)) :: es).
Proof.
  intros C N Hnp (c & Ec & Hp)%fmap_Some En D E Hk K -> L. destruct (promote_new m es.*1 np c C N Hnp Ec (eq_sym Hp)) as (m' & Ep & C' & [S' D']).
  exists m'. split; [done|]. split; cbn [nodes cache].
  - done.
  - rewrite fmap_cons. apply NoDup_cons in N as [? ?]. cbn [fst]. repeat (apply NoDup_cons; split); [set_solver..|done].
  - rewrite D', D, fmap_cons. cbn [fst list_to_set]. set_solver.
  - constructor; [by rewrite S'|]. eapply Forall_impl; [exact E|]. intros e He. by rewrite S'.
  - rewrite !fmap_cons. by apply NoDup_cons.
  - done.
  - cbn. lia.
Qed.

(** ** The specification *)

Fixpoint assoc (k : Z) (l : list (Z * Z)) : option Z :=
  match l with [] => None | (k', v) :: l => if decide (k' = k) then Some v else assoc k l end.
Definition others (k : Z) (l : list (Z * Z)) : list (Z * Z) := filter (fun e => e.1 <> k) l.

(** The entries after a command, and what [get] finds. *)
Definition spec (l : list (Z * Z)) (c : command) : list (Z * Z) * option (Z * Z) :=
  match c with
  | Get k => match assoc k l with Some v => ((k, v) :: others k l, Some (k, v)) | None => (l, None) end
  | Set_ k v => (match assoc k l with Some _ => (k, v) :: others k l | None => (k, v) :: take 4 l end, None)
  end.
Fixpoint spec_main (l : list (Z * Z)) (cs : list command) : list (option (Z * Z) * list (Z * Z)) :=
  match cs with [] => [] | c :: cs => let '(l, o) := spec l c in (o, l) :: spec_main l cs end.

Lemma assoc_None k l : k ∉ l.*1 -> assoc k l = None.
Proof.
  induction l as [|[k' v] l IH]; [done|]. rewrite fmap_cons, not_elem_of_cons. cbn [fst]. intros [H1 H2]. cbn [assoc]. rewrite decide_False by congruence. by apply IH.
Qed.

Lemma assoc_split k v l1 l2 : NoDup (l1 ++ (k, v) :: l2).*1 -> assoc k (l1 ++ (k, v) :: l2) = Some v /\ others k (l1 ++ (k, v) :: l2) = l1 ++ l2.
Proof.
  rewrite fmap_app, fmap_cons, <- Permutation_middle. cbn [fst]. intros [Hk _]%NoDup_cons. rewrite elem_of_app in Hk. split.
  - induction l1 as [|[k' v'] l1 IH]; cbn [app assoc]; [by rewrite decide_True|]. rewrite fmap_cons in Hk. cbn [fst] in Hk. rewrite decide_False by set_solver. apply IH. set_solver.
  - assert (Hall : forall l : list (Z * Z), k ∉ l.*1 -> others k l = l).
    { intros l. unfold others. induction l as [|e l IH]; [done|]. rewrite fmap_cons, not_elem_of_cons. intros [H1 H2]. rewrite filter_cons_True by congruence. by rewrite IH. }
    unfold others in *. rewrite filter_app, filter_cons_False by (cbn; tauto). rewrite !Hall by tauto. done.
Qed.

Lemma lru_get_ok s es k : inv s es -> exists s' es' o, get s k = Some (s', o) /\ inv s' es' /\
  spec es.*2 (Get k) = (es'.*2, match o with Some np => entry (nodes s') np | None => None end) /\
  match o with Some np => np ∈ es'.*1 | None => True end.
Proof.
  intros I. unfold get, spec. destruct (find s k) as [a|] eqn:F.
  - destruct (find_Some _ _ _ _ I F) as (es1 & v & es2 & ->). destruct (inv_promote _ _ _ _ I) as (m & Em & I'). cbn [fst] in Em. rewrite Em. cbn [mbind option_bind].
    eexists _, _, _. split; [done|]. split; [exact I'|]. pose proof (inv_keys _ _ I) as K. rewrite fmap_app, fmap_cons in K |- *. cbn [snd] in *. destruct (assoc_split _ _ _ _ K) as [-> ->].
    rewrite fmap_cons, fmap_app. pose proof (inv_entry _ _ I') as [He _]%Forall_cons. cbn [fst snd nodes] in *. rewrite He. split; [done|]. rewrite fmap_cons. by left.
  - exists s, es, None. split; [done|]. split; [done|]. by rewrite assoc_None by (by eapply find_None).
Qed.

Lemma lru_set_ok s es k v : inv s es -> exists s' es', set s k v = Some s' /\ inv s' es' /\ spec es.*2 (Set_ k v) = (es'.*2, None).
Proof.
  intros I. unfold set, spec. destruct (find s k) as [a|] eqn:F.
  - destruct (find_Some _ _ _ _ I F) as (es1 & v0 & es2 & ->). destruct (inv_set_val _ _ _ _ _ _ v I) as (m & -> & I1). cbn [mbind option_bind].
    destruct (inv_promote _ _ _ _ I1) as (m2 & Em & I2). cbn [fst nodes cache] in *. rewrite Em. cbn [mbind option_bind]. eexists _, _. split; [done|]. split; [exact I2|].
    pose proof (inv_keys _ _ I) as K. rewrite fmap_app, fmap_cons in K |- *. cbn [snd] in *. destruct (assoc_split _ _ _ _ K) as [-> ->]. by rewrite fmap_cons, fmap_app.
  - pose proof (find_None _ _ _ I F) as Hk. rewrite assoc_None by done. pose proof (new_node_ok s es k v I) as Hnew. destruct (new_node (nodes s) k v) as [m np].
    destruct Hnew as (Enp & Hnp & Dm & Cm & Em). destruct I as [C N D E K Ca L]. cbn [cache nodes].
    assert (size (cache s) = length es) as -> by (rewrite Ca, map_size_list_to_map by (by rewrite index_keys); by rewrite length_fmap).
    destruct (Z.leb_spec MAX_CACHE_SIZE (Z.of_nat (length es))) as [Hfull|Hroom]; unfold MAX_CACHE_SIZE in *.
    + destruct es as [|[t [kt vt]] es1 _] using rev_ind; [cbn in Hfull; lia|]. rewrite length_app in Hfull, L. cbn in Hfull, L.
      destruct (evict_ok m (cache s) es1 t kt vt np Cm N Em Hnp) as (m' & -> & C' & D' & E' & P' & Ev'). cbn [mbind option_bind nodes cache].
      rewrite fmap_app, fmap_cons in N, Hnp, D. rewrite !fmap_app, !fmap_cons in K, Hk. cbn [fst snd fmap list_fmap] in *.
      assert (N1 : NoDup (head :: es1.*1) /\ (t ∉ head :: es1.*1)) by (rewrite app_comm_cons in N; apply NoDup_app in N as (? & N & _); set_solver).
      assert (K1 : NoDup es1.*2.*1 /\ (kt ∉ es1.*2.*1)) by (apply NoDup_app in K as (? & K & _); set_solver).
      destruct (inv_new m' (base.delete kt (cache s)) es1 np k v) as (m2 & -> & I2); [done|tauto|set_solver|by rewrite P', Enp|by rewrite Ev'; unfold entry; rewrite Enp| |done|set_solver|tauto| |lia|].
      * rewrite D', Dm, D. cbn [list_to_set]. rewrite list_to_set_app_L. cbn. set_solver.
      * rewrite Ca, (list_to_map_proper _ ((fun e => (e.2.1, e.1)) <$> (t, (kt, vt)) :: es1)); [|by rewrite index_keys, !fmap_app|by rewrite <- Permutation_cons_append].
        rewrite fmap_cons. cbn [list_to_map fst snd]. apply delete_insert_id, not_elem_of_list_to_map. rewrite index_keys. tauto.
      * cbn [mbind option_bind]. eexists _, _. split; [done|]. split; [exact I2|]. rewrite fmap_app, fmap_cons. cbn. rewrite take_app_le, take_ge by (rewrite length_fmap; lia). done.
    + cbn [mbind option_bind nodes cache]. destruct (inv_new m (cache s) es np k v) as (m2 & -> & I2); [done|done|done|by rewrite Enp|by unfold entry; rewrite Enp|by rewrite Dm, D|done|done|done|done|lia|].
      cbn [mbind option_bind]. eexists _, _. split; [done|]. split; [exact I2|]. rewrite take_ge by (rewrite length_fmap; lia). done.
Qed.

Lemma init_inv : inv list_init [].
Proof.
  unfold list_init, head. split; cbn [nodes cache].
  - by repeat split.
  - apply NoDup_singleton.
  - rewrite dom_singleton_L. set_solver.
  - constructor.
  - constructor.
  - done.
  - cbn. lia.
Qed.

Lemma lru_round_ok s es c : inv s es -> exists s' es', round s c = Some (s', ((spec es.*2 c).2, (spec es.*2 c).1)) /\ inv s' es' /\ (spec es.*2 c).1 = es'.*2.
Proof.
  intros I. assert (Hst : forall s' es', inv s' es' -> exists h, nodes s' !! head = Some h /\ status (S (size (nodes s'))) (nodes s') (next h) = Some es'.*2).
  { intros s' es' [C N D E K Ca L]. apply (status_ok (nodes s') es'); [|done..]. rewrite <- size_dom, D, size_list_to_set by done. cbn. rewrite length_fmap. lia. }
  unfold round. destruct c as [k|k v].
  - destruct (lru_get_ok s es k I) as (s' & es' & o & -> & I' & -> & Ho). cbn [mbind option_bind]. exists s', es'. split; [|done].
    destruct (Hst s' es' I') as (h & Eh & Es). destruct o as [np|]; cbn [mbind option_bind fst snd]; [|by rewrite Eh; cbn [mbind option_bind]; rewrite Es].
    assert (is_Some (nodes s' !! np)) as [c Ec] by (apply elem_of_dom; rewrite (inv_dom _ _ I'); set_solver).
    unfold entry. rewrite Ec. cbn [mbind option_bind]. rewrite Eh. cbn [mbind option_bind]. by rewrite Es.
  - destruct (lru_set_ok s es k v I) as (s' & es' & -> & I' & ->). cbn [mbind option_bind]. exists s', es'. split; [|done].
    destruct (Hst s' es' I') as (h & Eh & Es). rewrite Eh. cbn [mbind option_bind]. by rewrite Es.
Qed.

Lemma main_ok cs : forall s es, inv s es -> main s cs = Some (spec_main es.*2 cs).
Proof.
  induction cs as [|c cs IH]; intros s es I; [done|]. cbn [main spec_main]. destruct (lru_round_ok s es c I) as (s' & es' & -> & I' & E). cbn [mbind option_bind].
  rewrite (IH s' es' I'). cbn [mbind option_bind]. destruct (spec es.*2 c) as [l o]. cbn in E |- *. by rewrite E.
Qed.

(** The specification keeps at most five entries, of different keys. *)
Lemma spec_bounded l c : NoDup l.*1 -> (length l <= 5)%nat -> NoDup (spec l c).1.*1 /\ (length (spec l c).1 <= 5)%nat.
Proof.
  intros Hn Hl. assert (Hs : forall k v v', assoc k l = Some v -> NoDup ((k, v') :: others k l).*1 /\ (length ((k, v') :: others k l) <= 5)%nat).
  { intros k v v' H. assert (exists l1 l2, l = l1 ++ (k, v) :: l2) as (l1 & l2 & ->).
    { clear Hn Hl. induction l as [|[k1 v1] l IH]; cbn [assoc] in H; [done|]. case_decide; simplify_eq; [by exists [], l|]. destruct IH as (l1 & l2 & ->); [done|]. by exists ((k1, v1) :: l1), l2. }
    destruct (assoc_split _ _ _ _ Hn) as [_ ->]. rewrite fmap_app, fmap_cons, <- Permutation_middle in Hn. rewrite fmap_cons, fmap_app. split; [done|].
    rewrite length_app in Hl. cbn in *. rewrite length_app. lia. }
  assert (Hnone : forall k, assoc k l = None -> k ∉ l.*1).
  { intros k. clear. induction l as [|[k1 v1] l IH]; [set_solver|]. cbn [assoc]. case_decide; [done|]. intros H1%IH. rewrite fmap_cons. set_solver. }
  destruct c as [k|k v]; unfold spec; destruct (assoc k l) eqn:E; cbn [fst]; eauto.
  rewrite fmap_cons, fmap_take. split; [|cbn; rewrite length_take; lia]. apply NoDup_cons. split; [|eapply sublist_NoDup; [exact Hn|apply sublist_take]].
  intros Hin. apply (Hnone k E). rewrite <- (take_drop 4 l.*1). apply elem_of_app. by left.
Qed.

Lemma spec_main_bounded cs : forall l, NoDup l.*1 -> (length l <= 5)%nat -> Forall (fun o => (length o.2 <= 5)%nat /\ NoDup o.2.*1) (spec_main l cs).
Proof.
  induction cs as [|c cs IH]; intros l Hn Hl; [constructor|]. cbn [spec_main]. pose proof (spec_bounded l c Hn Hl) as [H1 H2].
  destruct (spec l c) as [l' o]. constructor; [done|by apply IH].
Qed.

(** C16. For every sequence of commands the program answers as a list of at most five entries
    kept in the order of their last use: [get] finds what was last set unless five other keys
    have been used since, the entry that goes is the least recently used one, and no step
    reads or writes a cell that is not allocated. *)
Theorem lru_refines_list cs : main list_init cs = Some (spec_main [] cs) /\
  Forall (fun o => (length o.2 <= 5)%nat /\ NoDup o.2.*1) (spec_main [] cs).
Proof. split; [apply (main_ok cs list_init []), init_inv|]. apply spec_main_bounded; [constructor|cbn; lia]. Qed.

Example five_then_six : main list_init [Set_ 1 10; Set_ 2 20; Set_ 3 30; Set_ 4 40; Set_ 5 50; Get 1; Set_ 6 60; Get 2] =
  Some [(None, [(1, 10)]); (None, [(2, 20); (1, 10)]); (None, [(3, 30); (2, 20); (1, 10)]); (None, [(4, 40); (3, 30); (2, 20); (1, 10)]);
        (None, [(5, 50); (4, 40); (3, 30); (2, 20); (1, 10)]); (Some (1, 10), [(1, 10); (5, 50); (4, 40); (3, 30); (2, 20)]);
        (None, [(6, 60); (1, 10); (5, 50); (4, 40); (3, 30)]); (None, [(6, 60); (1, 10); (5, 50); (4, 40); (3, 30)])].
Proof. by vm_compute. Qed.
